(* ===== verification/_CoqProject ===== *)
-Q . S2P
Prelude.v
AtomicExpiringValue.v
Cel.v
Errors.v
Limit.v
Counter.v
Reservation.v
Storage.v
Moka.v
LocalReservations.v
StorageSpec.v
InMemory.v
InMemoryInv.v
InMemorySpec.v
RateLimiter.v
RateLimiterSpec.v
Configure.v
RateLimiterExamples.v
AsyncStorage.v
AsyncRateLimiter.v
Concurrency.v
CrCounter.v
ExpiringValue.v
Keys.v
Disk.v
DiskSpec.v
CountersCache.v
CacheRaces.v
BatcherLocks.v
EnvoyRls.v
EnvoyRlsSpec.v
Quota.v
KuadrantSpec.v
Broker.v
Distributed.v
DistributedSpec.v
Session.v
SessionSpec.v
BrokerStart.v
Redis.v
RedisStorage.v
RedisSpec.v
RedisReserve.v
RedisExamples.v
RedisCached.v
RedisOpen.v
RedisCachedSpec.v
RedisFlush.v
RedisCachedExamples.v
HttpApi.v
HttpApiSpec.v
Endpoints.v
EndpointsSpec.v
Wiring.v
Metrics.v
MetricsSpec.v
PrometheusMetrics.v
Server.v
ServerSpec.v
ServerConfig.v
ServerStart.v
ServerNode.v
