(* ===== verification/Prelude.v ===== *)
(** * Limitador: a verification library

    Limitador counts requests against limits.  A limit belongs to a namespace
    and allows [max_value] hits per window of [seconds] to the requests that
    satisfy its conditions, counted apart for every value of its variables; a
    limit with the values of its variables is a counter.  A request is checked
    against the counters of all the limits that apply to it, and counted on all
    of them or on none.  A caller may also reserve an amount it will report, in
    full or in part, later.

    ** The program's parts and the files that model them

    The sources are under [src/limitador/src] (the library) and
    [src/limitador-server/src] (the server).

    - [Prelude.v] (this file): [u64] as a [Z] with its wrapping, saturating and
      checked operations; [SystemTime] and [Duration] as nanoseconds; results
      that may also panic ([Outcome]); the effect monad [M], in which an
      operation has a state and consumes one clock reading per call of
      [SystemTime::now]; the judgements [wp], [preserves] and [runs] about it
      with the hint databases [preserves] and [runs]; sorting and comparison
      lemmas.
    - [AtomicExpiringValue.v]: [storage/atomic_expiring_value.rs], the cell of a
      fixed-window counter.
    - [Cel.v]: [limit/cel.rs], request contexts, expressions and predicates over
      the [cel] crate, which is the class [CelEngine].
    - [Errors.v]: [errors.rs] and [StorageErr].
    - [Limit.v], [Counter.v], [Reservation.v]: [limit.rs], [counter.rs],
      [reservation.rs].  [limit_key] and [counter_key] are the identities that
      [Eq], [Ord] and [Hash] compute, and the keys of all maps and sets.
    - [Storage.v]: [Storage] and [trait CounterStorage] of [storage/mod.rs].  The
      trait is a class of operations on a state; [StorageSpec.v] states what its
      users rely on as the class [CounterStorageSpec].
    - [Moka.v]: the [moka] cache as a class with the laws its users need (an
      entry may disappear, no entry changes) and an instance that never evicts; that
      an insertion evicts nothing is the class [MokaRoomy].
    - [LocalReservations.v]: [storage/local_reservations.rs], the in-process
      registry of reservations, its [Arc]s as locations of a heap.
    - [InMemory.v], [InMemoryInv.v], [InMemorySpec.v]: [storage/in_memory.rs],
      its invariant over all reachable states, and the proof that it keeps the
      contract.  [Concurrency.v] runs the atomic accesses of several
      [check_and_update] calls in every order.
    - [RateLimiter.v], [RateLimiterSpec.v], [Configure.v]: [RateLimiter] of
      [lib.rs], its theorems over any storage that keeps the contract, and
      reconfiguration.  [RateLimiterExamples.v] runs them over the in-memory
      storage.
    - [AsyncStorage.v], [AsyncRateLimiter.v]: the asynchronous halves of
      [storage/mod.rs] and [lib.rs].
    - [CrCounter.v]: [storage/distributed/cr_counter_value.rs], the counter value
      that replicas merge.
    - [Broker.v], [Distributed.v], [DistributedSpec.v], [Session.v],
      [SessionSpec.v], [BrokerStart.v]: [storage/distributed/grpc/mod.rs] and
      [storage/distributed/mod.rs].  A replica's entries are shared with the
      sessions through [Arc]s, so they are locations of a heap; channels to peers
      are part of the broker's state; the [select!] loop of a session is a
      function of the sequence of events that become ready ([Event]), and the timed
      loops of [Broker::start] are rounds ([start_round]).
    - [ExpiringValue.v], [Keys.v], [Disk.v], [DiskSpec.v]:
      [storage/disk/expiring_value.rs], [storage/keys.rs] and
      [storage/disk/rocksdb_storage.rs].  [postcard], [serde_json] and RocksDB
      are classes with the laws the code relies on; each has an instance.
    - [CountersCache.v], [CacheRaces.v], [BatcherLocks.v]:
      [storage/redis/counters_cache.rs], the write-behind cache of the Redis storage.
      The first runs an operation as one step; the second interleaves the single
      accesses of hits and of the flushing task to one cached value ([race_step]); the
      third interleaves the batcher's operations between the points where they lock a
      shard or await a permit ([task_step]).
    - [Redis.v], [RedisStorage.v], [RedisSpec.v], [RedisReserve.v],
      [RedisExamples.v]: [storage/redis/scripts.rs], [redis/mod.rs],
      [redis_sync.rs] and [redis_async.rs].  The Redis commands are the class
      [Redis], what Redis documents of them the class [RedisLaws]; the Lua scripts
      are programs over these commands, with Lua's numbers.  A connection carries
      the failures its next calls will meet, each before or after the server ran
      the command ([conn_faults]).  [RedisExamples.v] has an instance.
    - [RedisCached.v], [RedisCachedSpec.v], [RedisFlush.v],
      [RedisCachedExamples.v]: [redis_cached.rs], the storage that answers from
      [CountersCache.v] and flushes to Redis in the background.  [RedisOpen.v] opens the
      three storages; connecting is the class [RedisClient].
    - [EnvoyRls.v], [EnvoyRlsSpec.v]: the gRPC handlers of
      [envoy_rls/server.rs] and [envoy_rls/kuadrant_service.rs], over either
      limiter, the calls to the metrics as a log.  [Quota.v] and
      [KuadrantSpec.v] follow a counter through any number of requests.
    - [HttpApi.v], [HttpApiSpec.v]: the HTTP handlers of [http_api/server.rs], the
      bodies of [http_api/request_types.rs], and [Status] of [main.rs].
    - [Endpoints.v], [EndpointsSpec.v]: how [run_envoy_rls_server] and
      [run_http_server] put the handlers behind their endpoints: the services, the
      table of routes and the middlewares.  [Wiring.v]: the [Arc]s of the limiter, the
      metrics and the status, which [main] makes, clones and hands to the watcher and
      the servers, as locations of a heap ([main_wiring]).  What [http], [tonic] and [actix] do is the class [HttpStack], what actix documents of
      patterns the class [HttpStackSpec], with an instance.
    - [Metrics.v], [MetricsSpec.v]: [metrics.rs], the layer that times spans; spans
      and what is stored with them are a registry, the callbacks of [tracing] its
      operations.  [PrometheusMetrics.v]: [prometheus_metrics.rs], the labelled
      counters the services increment.
    - [Server.v], [ServerSpec.v]: loading the limits and labels files and the
      watcher of [main.rs]; the file system and [serde_yaml] are the class [Files].
    - [ServerConfig.v]: [config.rs], the command line [create_config] declares and
      what it makes of the matches, the choice of [Limiter::new] and of the tracing
      layers.  The [clap] crate is the class [Clap], what it documents of arguments
      and defaults the class [ClapSpec], with an instance.
    - [ServerStart.v]: [main], with the start of both servers.
    - [ServerNode.v]: the whole server as a state machine, whose steps are gRPC calls,
      HTTP requests, events of the watched files and evictions ([node_step]).

    A request enters a handler, which builds a context from its descriptors and
    calls the limiter; the limiter reads the limits of the namespace from its
    [Storage], resolves those that apply to counters, and hands the counters to
    the counter storage.  At start-up [main] chooses the counter storage and loads
    the limits, which the watcher loads again whenever their file changes.

    ** How the code is translated

    Every function is a definition of the same name where the name is free; a
    prefix tells apart methods that share one.  [&mut] arguments are returned;
    [self] is the state of [M] or an argument.  [unwrap], [expect], slice
    indexing, and time arithmetic that overflows are [Panic].  Plain [+] on
    [u64] wraps, as in the release build the project ships.  A [HashMap] is a
    [gmap], and every place that iterates one goes through the class
    [HashOrder], an arbitrary order.  Locks make the operations they cover one
    step; an atomic's [compare_exchange] is written out.  A mutation made before
    an error stays.

    ** What the theorems show

    - Counting: a cell counts a fixed window ([fixed_window_counts]); the
      in-memory and the disk storage admit exactly what fits, on all counters or
      on none ([check_and_update_all_or_nothing], [disk_check_and_update_exact]),
      sequentially never more than the limit ([never_over_limit]), over the length of
      [n] windows [n] times the limit and what was left of the one open at the start
      ([quota_over_windows], over any storage that keeps the contract), and the
      concurrent overshoot is bounded by the calls in flight
      ([concurrent_overshoot_bounded]).  In Redis and on a replica the same holds
      of calls that no one else interleaves ([redis_check_and_update_exact],
      [dist_check_and_update_exact]); the cached Redis storage decides on what its
      instance knows ([cached_check_and_update_exact]).
    - The limiter, proved against the contract only: checking and updating agree
      ([check_and_update_agree]), a reservation is admitted exactly when it fits
      and committing settles it ([reserve_admission_exact],
      [reserve_commit_roundtrip]), and headers describe the scarcest counter.
    - Configuration: the limits of a [Storage] refine one map
      ([storage_refines_map]), and reloading makes it what was asked for, up to
      the exception its theorem states ([configure_with_exact]).
    - Reservations: holds never overbook, expire, and are undone by a release, in
      the process and in Redis ([reserve_all_or_nothing], [redis_reserve_exact],
      [redis_release_undoes_reserve]).
    - Encodings: limits and counters have one identity across [Eq], [Ord], [Hash]
      and keys; values and keys on disk and in Redis read back.
    - Replication and write-behind: replicas converge whatever the order of
      updates, while their windows stay open ([cr_merge_converges]), what a session sends
      is seen by the replica that receives it ([replication_delivers]), serving a peer
      panics only on counters it does not know and expiries out of range
      ([session_panics_exactly]), and a peer that answers is connected, again if it was
      lost ([start_round_connects], [reconnect_restores]); hits are never lost on their way
      to Redis, and sent once but for the first ones of a window
      ([cached_writes_conserved]), and a flush brings the instance and Redis together
      ([flush_syncs]); the queue of the batcher is bounded ([batcher_bounded]).
    - The services: [should_rate_limit_exact]; Kuadrant's check and report
      ([check_then_report]) let through too many by the clients in flight at most
      ([kuadrant_overshoot_bounded]); the HTTP
      endpoint agrees with the gRPC one ([http_agrees_with_envoy]), both servers count
      on one limiter ([servers_share_limiter]), every request is routed to its handler
      ([find_route_spec]) and GET requests count nothing ([get_changes_nothing]); what Prometheus
      shows is what was answered ([metrics_account]), and a span reports the time of
      the spans below it and of the earlier ones its parent carries
      ([aggregator_reports_total]).
    - The server: [create_config] returns values in range and panics in one case only
      ([create_config_ok]); a server that starts serves its limits file
      ([main_serves_file]) and follows it from then on ([config_follows_file]); in every
      state it can reach, the limiter is as the theorems about single requests ask
      ([server_stays_well_formed], beside [in_memory_reachable_wf] for the storage alone).
    - Error paths and faults: the theorems that end in a panic, a lost or a
      doubled hit state exactly when that happens: a failed flush
      ([failed_flush]), a flush between the two accesses of a hit
      ([first_hits_sent_twice]), a full batcher that stops for good ([full_batcher_stops]),
      batches of size zero ([zero_batch_never_flushes]), a negative flush period
      ([negative_flush_period]), updates that stay unsent ([stalled_updates_stay]), peers
      that keep different sessions ([sessions_agree_iff_opposite_orders]), a
      search that never ends ([is_disconnect_never_true]), a gRPC server that could
      not start ([grpc_failure_unnoticed]).

    Theorems about one call are stated at one instant ([runs t]: the clock shows
    [t] during the call, however often it is read), those about invariants and
    read-only operations at arbitrary readings.  Hypotheses about time
    ([good_time], [good_window], [counter_ok]) say that microseconds since the
    epoch and the ends of windows fit [u64], which holds for windows of centuries;
    those about sums say that a [u64] does not overflow, where it would, a
    theorem says what happens.  Theorems about Redis keep amounts below 2^53, up to
    which Lua's numbers are exact, and holds below fourteen digits, up to which Lua
    prints them in full ([digits]).  Fuel bounds two loops: the retry loop of
    [expiry_merge], which ends at once without concurrent writers, so that one unit
    is enough; and the loop of [match_for_io_error], for which the theorem speaks of
    every fuel.

    Two classes are assumptions on which theorems rest.  [MokaRoomy], no insertion
    evicts: the theorems about the values of counters in memory, of the cached Redis
    storage and of its flushes ask it; the real caches are bounded, and evictions are
    events of their own only in [ServerNode.v].  [InfallibleLimits], adding and deleting
    the counters of limits does not fail: the theorems about reconfiguration ask it; the
    in-memory storage has it, while the disk storage can panic there and Redis can fail.
    The contract [CounterStorageSpec] is proved of the in-memory storage.

    ** What is not modelled

    The gRPC transport and the generated code that routes its methods; the gauges of the
    sizes of caches and queues.  Of the server, the OpenAPI document, the replies actix
    makes by itself (also the 500 for a header value that HTTP does not allow), the recorder that adds the metrics up and renders them, the exporter
    of telemetry, the fields of spans other than the request id and the formats of log
    lines; of the command line, the help texts.  Build scripts, the load test and the
    crates the code calls stay outside; so do accessors, derived traits and conversions
    that only wrap or unwrap a field. *)

From stdpp Require Export base gmap strings list fin_maps pretty numbers option sorting.
From Stdlib Require Export ZArith Lia.
From Stdlib Require String.

#[global] Open Scope Z_scope.

(** ** Machine integers: [u64] is a [Z] in [0, 2^64). *)

Definition u64_max : Z := 18446744073709551615.

(** [a + b] on [u64] in a release build, and [AtomicU64::fetch_add]: wraps. *)
Definition u64_add (a b : Z) : Z := (a + b) mod 18446744073709551616.

(** [u64::saturating_add] *)
Definition u64_saturating_add (a b : Z) : Z := Z.min (a + b) u64_max.

(** [u64::saturating_sub] *)
Definition u64_saturating_sub (a b : Z) : Z := Z.max (a - b) 0.

(** [u64::checked_sub] *)
Definition u64_checked_sub (a b : Z) : option Z :=
  if a <? b then None else Some (a - b).

(** The values a [u64] can hold. *)
Definition in_u64 (x : Z) : Prop := 0 <= x <= u64_max.

#[export] Instance in_u64_dec x : Decision (in_u64 x).
Proof. unfold in_u64. apply _. Defined.

(** ** Time: [SystemTime] is the signed number of nanoseconds since the Unix
    epoch, [Duration] a non-negative number of nanoseconds. *)

Abbreviation SystemTime := Z (only parsing).
Abbreviation Duration := Z (only parsing).

Definition UNIX_EPOCH : SystemTime := 0.
Definition nanos_per_sec : Z := 1000000000.
Definition from_secs (s : Z) : Duration := s * nanos_per_sec.
Definition from_millis (ms : Z) : Duration := ms * 1000000.
Definition from_micros (us : Z) : Duration := us * 1000.
Definition as_micros (d : Duration) : Z := d / 1000.
Definition as_millis (d : Duration) : Z := d / 1000000.
Definition as_secs (d : Duration) : Z := d / nanos_per_sec.

(** The largest [SystemTime]: an [i64] number of seconds and 999999999 ns. *)
Definition systime_max : Z := 9223372036854775807 * nanos_per_sec + 999999999.

(** [SystemTime::duration_since]: an error when the argument is later. *)
Definition duration_since (t earlier : SystemTime) : option Duration :=
  if earlier <=? t then Some (t - earlier) else None.

(** ** Results that may also panic *)

Inductive Outcome (E A : Type) : Type :=
| Ok (a : A)
| Err (e : E)
| Panic (msg : string).
Arguments Ok {E A} a.
Arguments Err {E A} e.
Arguments Panic {E A} msg.

Definition outcome_bind {E A B} (m : Outcome E A) (k : A -> Outcome E B) : Outcome E B :=
  match m with Ok a => k a | Err e => Err e | Panic s => Panic s end.

Definition outcome_map {E A B} (f : A -> B) (m : Outcome E A) : Outcome E B :=
  outcome_bind m (fun a => Ok (f a)).

(** [Result::map_err], also used for the [From] conversions of [?]. *)
Definition outcome_map_err {E F A} (f : E -> F) (m : Outcome E A) : Outcome F A :=
  match m with Ok a => Ok a | Err e => Err (f e) | Panic s => Panic s end.

(** [SystemTime + Duration]: panics past the largest representable time. *)
Definition systime_add {E} (t : SystemTime) (d : Duration) : Outcome E SystemTime :=
  if t + d <=? systime_max then Ok (t + d)
  else Panic "overflow when adding duration to instant".

(** ** The program's effects

    An operation runs in a [World]: the state it works on and the readings of
    the system clock.  Every call of [SystemTime::now] consumes one reading,
    so two calls in one function may see different times.  An error keeps the
    state reached when it was raised, as mutations do in the code. *)

Record World (St : Type) : Type := mkWorld {
  w_state : St;
  w_clock : nat -> SystemTime;
  w_tick : nat
}.
Arguments mkWorld {St} w_state w_clock w_tick.
Arguments w_state {St} w.
Arguments w_clock {St} w _.
Arguments w_tick {St} w.

Definition M (St E A : Type) : Type := World St -> Outcome E A * World St.

Definition ret {St E A} (a : A) : M St E A := fun w => (Ok a, w).

Definition bind {St E A B} (m : M St E A) (k : A -> M St E B) : M St E B :=
  fun w =>
    match m w with
    | (Ok a, w') => k a w'
    | (Err e, w') => (Err e, w')
    | (Panic s, w') => (Panic s, w')
    end.

Definition throw {St E A} (e : E) : M St E A := fun w => (Err e, w).

(** Embeds a computation that touches no state. *)
Definition lift {St E A} (o : Outcome E A) : M St E A := fun w => (o, w).

(** [SystemTime::now()] *)
Definition now {St E} : M St E SystemTime :=
  fun w => (Ok (w_clock w (w_tick w)), mkWorld (w_state w) (w_clock w) (S (w_tick w))).

Definition get {St E} : M St E St := fun w => (Ok (w_state w), w).

Definition put {St E} (s : St) : M St E unit :=
  fun w => (Ok tt, mkWorld s (w_clock w) (w_tick w)).

Definition map_err {St E F A} (f : E -> F) (m : M St E A) : M St F A :=
  fun w => let '(o, w') := m w in (outcome_map_err f o, w').

(** An operation whose error is a value. *)
Definition attempt {St E F A} (m : M St F A) : M St E (A + F) :=
  fun w =>
    match m w with
    | (Ok a, w) => (Ok (inl a), w)
    | (Err e, w) => (Ok (inr e), w)
    | (Panic msg, w) => (Panic msg, w)
    end.

(** Runs an operation of a component on the part of the state it owns. *)
Definition zoom {T St E A} (view : T -> St) (upd : St -> T -> T) (m : M St E A) : M T E A :=
  fun w =>
    let '(o, w') := m (mkWorld (view (w_state w)) (w_clock w) (w_tick w)) in
    (o, mkWorld (upd (w_state w') (w_state w)) (w_clock w') (w_tick w')).

Declare Scope limitador_scope.
Delimit Scope limitador_scope with lim.
#[global] Open Scope limitador_scope.

Notation "'let*' x ':=' m 'in' k" := (bind m (fun x => k))
  (at level 10, x name, m at level 100, k at level 200) : limitador_scope.
Notation "'let*' ' p ':=' m 'in' k" := (bind m (fun p => k))
  (at level 10, p strict pattern, m at level 100, k at level 200) : limitador_scope.
Notation "m ';;;' k" := (bind m (fun _ => k))
  (at level 199, k at level 200, right associativity) : limitador_scope.
Notation "'let?' x ':=' m 'in' k" := (outcome_bind m (fun x => k))
  (at level 10, x name, m at level 100, k at level 200) : limitador_scope.

(** [for x in l { f(x)?; }] *)
Fixpoint for_each {St E A} (f : A -> M St E unit) (l : list A) : M St E unit :=
  match l with
  | [] => ret tt
  | x :: l => f x ;;; for_each f l
  end.

(** [l.iter().map(f).collect()] with an effectful [f]. *)
Fixpoint mapM {St E A B} (f : A -> M St E B) (l : list A) : M St E (list B) :=
  match l with
  | [] => ret []
  | x :: l => let* y := f x in let* ys := mapM f l in ret (y :: ys)
  end.

(** A loop that threads local variables [acc] next to the state. *)
Fixpoint foldM {St E A B} (f : B -> A -> M St E B) (acc : B) (l : list A) : M St E B :=
  match l with
  | [] => ret acc
  | x :: l => let* acc := f acc x in foldM f acc l
  end.

(** Evaluates both sides of a closed equation, leaving no normal form behind. *)
Ltac vm_refl := match goal with |- _ = ?y => vm_cast_no_check (@eq_refl _ y) end.

(** ** Facts about machine integers *)

Lemma u64_add_small a b : 0 <= a -> 0 <= b -> a + b <= u64_max -> u64_add a b = a + b.
Proof. unfold u64_add, u64_max. intros. rewrite Z.mod_small; lia. Qed.

Lemma u64_add_in a b : in_u64 (u64_add a b).
Proof.
  unfold in_u64, u64_add, u64_max.
  pose proof (Z.mod_pos_bound (a + b) 18446744073709551616). lia.
Qed.

Lemma u64_add_assoc a b c : u64_add (u64_add a b) c = u64_add a (b + c).
Proof. unfold u64_add. rewrite Zplus_mod_idemp_l. f_equal. lia. Qed.

(** [max.checked_sub(v.saturating_add(d)).is_none()], the test the backends
    use, on the mathematical integers: a limit of [u64::MAX] never trips. *)
Lemma checked_sub_saturating_none m v d :
  in_u64 m ->
  (u64_checked_sub m (u64_saturating_add v d) = None <-> m < v + d /\ m < u64_max).
Proof.
  unfold in_u64, u64_checked_sub, u64_saturating_add.
  intros. destruct (Z.ltb_spec m (Z.min (v + d) u64_max)); split; try done; lia.
Qed.

(** ** Running the effect monad *)

Lemma bind_ok {St E A B} (m : M St E A) (k : A -> M St E B) w a w' :
  m w = (Ok a, w') -> bind m k w = k a w'.
Proof. intros H. unfold bind. by rewrite H. Qed.

Lemma bind_err {St E A B} (m : M St E A) (k : A -> M St E B) w e w' :
  m w = (Err e, w') -> bind m k w = (Err e, w').
Proof. intros H. unfold bind. by rewrite H. Qed.

Lemma bind_panic {St E A B} (m : M St E A) (k : A -> M St E B) w s w' :
  m w = (Panic s, w') -> bind m k w = (Panic s, w').
Proof. intros H. unfold bind. by rewrite H. Qed.

Lemma bind_ret_l {St E A B} (a : A) (k : A -> M St E B) w : bind (ret a) k w = k a w.
Proof. done. Qed.

Lemma bind_assoc {St E A B C} (m : M St E A) (f : A -> M St E B) (g : B -> M St E C) w :
  bind (bind m f) g w = bind m (fun a => bind (f a) g) w.
Proof. unfold bind. by destruct (m w) as [[] ?]. Qed.

(** Postconditions: [wp m Q w] holds when running [m] in [w] ends in an outcome
    and a world that satisfy [Q]. *)
Definition wp {St E A} (m : M St E A) (Q : Outcome E A -> World St -> Prop) (w : World St) : Prop :=
  Q (m w).1 (m w).2.

Section wp_rules.
Context {St E A B : Type}.
Implicit Types (w : World St) (Q : Outcome E B -> World St -> Prop).

Lemma wp_bind (m : M St E A) (k : A -> M St E B) Q w :
  wp m (fun o w' => match o with
                    | Ok a => wp (k a) Q w'
                    | Err e => Q (Err e) w'
                    | Panic s => Q (Panic s) w'
                    end) w ->
  wp (bind m k) Q w.
Proof. unfold wp, bind. by destruct (m w) as [[] ?]. Qed.

Lemma wp_ret (a : B) Q w : Q (Ok a) w -> wp (ret a) Q w.
Proof. done. Qed.

Lemma wp_lift (o : Outcome E B) Q w : Q o w -> wp (lift o) Q w.
Proof. done. Qed.

Lemma wp_mono (m : M St E B) (Q Q' : Outcome E B -> World St -> Prop) w :
  wp m Q w -> (forall o w', Q o w' -> Q' o w') -> wp m Q' w.
Proof. unfold wp. eauto. Qed.

Lemma wp_put s (Q : Outcome E unit -> World St -> Prop) w :
  Q (Ok tt) (mkWorld s (w_clock w) (w_tick w)) -> wp (put s) Q w.
Proof. done. Qed.

Lemma wp_get (Q : Outcome E St -> World St -> Prop) w : Q (Ok (w_state w)) w -> wp get Q w.
Proof. done. Qed.

Lemma wp_now (Q : Outcome E Z -> World St -> Prop) w :
  Q (Ok (w_clock w (w_tick w))) (mkWorld (w_state w) (w_clock w) (S (w_tick w))) -> wp now Q w.
Proof. done. Qed.
End wp_rules.

(** A [foldM] loop under an invariant on the processed and the remaining items. *)
Lemma wp_foldM {St E A B} (f : B -> A -> M St E B)
    (I : B -> list A -> World St -> Prop) (Q : Outcome E B -> World St -> Prop) l acc w :
  I acc l w ->
  (forall acc x l w, I acc (x :: l) w ->
     wp (f acc x) (fun o w' => match o with Ok acc' => I acc' l w' | o => Q o w' end) w) ->
  (forall acc w, I acc [] w -> Q (Ok acc) w) ->
  wp (foldM f acc l) Q w.
Proof.
  revert acc w. induction l as [|x l IH]; intros acc w HI Hstep Hend; [by apply Hend|].
  simpl. apply wp_bind. eapply wp_mono; [by apply Hstep|].
  intros [acc'|e|s] w' HQ; [|done..]. by apply IH.
Qed.

(** ** Invariants: [preserves P m] when [m] keeps [P] whatever its outcome. *)

Definition preserves {St E A} (P : St -> Prop) (m : M St E A) : Prop :=
  forall w, P (w_state w) -> P (w_state (m w).2).

Section preserves_rules.
Context {St E : Type} (P : St -> Prop).

Lemma preserves_ret {A} (a : A) : preserves P (ret (E := E) a).
Proof. by intros w. Qed.

Lemma preserves_lift {A} (o : Outcome E A) : preserves P (lift o).
Proof. by intros w. Qed.

Lemma preserves_throw {A} (e : E) : preserves P (throw (A := A) e).
Proof. by intros w. Qed.

Lemma preserves_now : preserves P (now (E := E)).
Proof. by intros w. Qed.

Lemma preserves_get : preserves P (get (E := E)).
Proof. by intros w. Qed.

Lemma preserves_put s : P s -> preserves P (put (E := E) s).
Proof. by intros Hs w. Qed.

Lemma preserves_bind {A B} (m : M St E A) (k : A -> M St E B) :
  preserves P m -> (forall a, preserves P (k a)) -> preserves P (bind m k).
Proof.
  intros Hm Hk w Hw. specialize (Hm w Hw). unfold bind. destruct (m w) as [[] w']; simpl in *; [|done..].
  by apply Hk.
Qed.

(** The state read by [get] is one that satisfies [P]. *)
Lemma preserves_bind_get {B} (k : St -> M St E B) :
  (forall s, P s -> preserves P (k s)) -> preserves P (bind get k).
Proof. intros Hk w Hw. by apply (Hk (w_state w)). Qed.

Lemma preserves_for_each {A} (f : A -> M St E unit) l :
  (forall x, preserves P (f x)) -> preserves P (for_each f l).
Proof.
  intros Hf. induction l as [|x l IH]; [apply preserves_ret|]. by apply preserves_bind.
Qed.

Lemma preserves_foldM {A B} (f : B -> A -> M St E B) acc l :
  (forall acc x, preserves P (f acc x)) -> preserves P (foldM f acc l).
Proof.
  intros Hf. revert acc. induction l as [|x l IH]; intros acc; [apply preserves_ret|].
  simpl. by apply preserves_bind.
Qed.

Lemma preserves_mapM {A B} (f : A -> M St E B) l :
  (forall x, preserves P (f x)) -> preserves P (mapM f l).
Proof.
  intros Hf. induction l as [|x l IH]; [apply preserves_ret|]. simpl.
  apply preserves_bind; [done|]. intros y. apply preserves_bind; [done|]. intros ys. apply preserves_ret.
Qed.

Lemma preserves_map_err {F A} (f : E -> F) (m : M St E A) : preserves P m -> preserves P (map_err f m).
Proof. intros Hm w Hw. specialize (Hm w Hw). unfold map_err. by destruct (m w) as [o w']. Qed.

Lemma preserves_attempt {F A} (m : M St E A) : preserves P m -> preserves P (attempt (E := F) m).
Proof. intros Hm w Hw. specialize (Hm w Hw). unfold attempt. by destruct (m w) as [[] w']. Qed.

(** Forgetting the result. *)
Lemma preserves_then {A} (m : M St E A) : preserves P (m ;;; ret tt) -> preserves P m.
Proof. intros Hm w Hw. specialize (Hm w Hw). unfold bind in Hm. by destruct (m w) as [[] w']. Qed.

Lemma preserves_zoom {T A} (Q : T -> Prop) (view : T -> St) (upd : St -> T -> T) (m : M St E A) :
  (forall x, Q x -> P (view x)) -> (forall s x, Q x -> P s -> Q (upd s x)) ->
  preserves P m -> preserves Q (zoom view upd m).
Proof.
  intros Hv Hu Hm w Hw. specialize (Hm (mkWorld (view (w_state w)) (w_clock w) (w_tick w)) (Hv _ Hw)).
  unfold zoom. destruct (m _) as [o w']. simpl in *. by apply Hu.
Qed.
End preserves_rules.

Create HintDb preserves.
#[export] Hint Resolve preserves_ret preserves_lift preserves_throw preserves_now preserves_get
  : preserves.

(** Walks through a computation, down to the [put]s and the named operations. *)
Ltac preserve_step :=
  match goal with
  | |- preserves _ (bind get _) => apply preserves_bind_get; intros ? ?
  | |- preserves _ (bind _ _) => apply preserves_bind; [|intros ?]
  | |- preserves _ (foldM _ _ _) => apply preserves_foldM; intros ? ?
  | |- preserves _ (mapM _ _) => apply preserves_mapM; intros ?
  | |- preserves _ (for_each _ _) => apply preserves_for_each; intros ?
  | |- preserves _ (if ?b then _ else _) => destruct b eqn:?
  | |- preserves _ (match ?x with _ => _ end) => destruct x eqn:?
  | |- preserves _ (let '(_, _) := ?x in _) => destruct x eqn:?
  end.

Ltac preserve := repeat (first [solve [auto with preserves nocore] | preserve_step]).

(** ** Reading *)

(** [m] leaves the state as it is, whatever the clock shows and whatever it answers. *)
Definition read_only {St E A} (m : M St E A) : Prop := forall w, w_state (m w).2 = w_state w.

Lemma read_only_preserves {St E A} (m : M St E A) : (forall s, preserves (eq s) m) -> read_only m.
Proof. intros Hm w. symmetry. by apply Hm. Qed.

Lemma read_only_bind {St E A B} (m : M St E A) (k : A -> M St E B) :
  read_only m -> (forall a, read_only (k a)) -> read_only (bind m k).
Proof.
  intros Hm Hk w. specialize (Hm w). unfold bind. destruct (m w) as [[a|e|msg] w']; simpl in *; [|done..].
  by rewrite Hk.
Qed.

Lemma read_only_ret {St E A} (a : A) : read_only (ret (St := St) (E := E) a).
Proof. by intros w. Qed.

Lemma read_only_get {St E} : read_only (get (St := St) (E := E)).
Proof. by intros w. Qed.

Lemma read_only_map_err {St E F A} (f : E -> F) (m : M St E A) : read_only m -> read_only (map_err f m).
Proof. intros Hm w. specialize (Hm w). unfold map_err. by destruct (m w) as [o w']. Qed.

Lemma read_only_attempt {St E F A} (m : M St F A) : read_only m -> read_only (attempt (E := E) m).
Proof. intros Hm w. specialize (Hm w). unfold attempt. by destruct (m w) as [[] w']. Qed.

Lemma read_only_zoom {T St E A} (view : T -> St) (upd : St -> T -> T) (m : M St E A) :
  (forall x, upd (view x) x = x) -> read_only m -> read_only (zoom view upd m).
Proof.
  intros Hu Hm w. specialize (Hm (mkWorld (view (w_state w)) (w_clock w) (w_tick w))).
  unfold zoom. destruct (m _) as [o w']. simpl in *. by rewrite Hm.
Qed.

Create HintDb reading.
#[export] Hint Resolve read_only_bind read_only_ret read_only_get read_only_map_err read_only_attempt : reading.

(** ** Running at one instant

    [runs t s m o s']: while the clock shows [t], running [m] in state [s] ends
    with outcome [o] in state [s'], however many readings of the clock it takes. *)

Definition frozen {St} (t : Z) (w : World St) : Prop := forall n, w_clock w n = t.

Definition runs {St E A} (t : Z) (s : St) (m : M St E A) (o : Outcome E A) (s' : St) : Prop :=
  forall w, frozen t w -> w_state w = s -> exists n, m w = (o, mkWorld s' (w_clock w) n).

Section runs_rules.
Context {St E : Type} (t : Z).
Implicit Types s : St.

Lemma runs_ret {A} s (a : A) : runs t s (ret (E := E) a) (Ok a) s.
Proof. intros [s0 cl n] _ <-. by exists n. Qed.

Lemma runs_lift {A} s (o : Outcome E A) : runs t s (lift o) o s.
Proof. intros [s0 cl n] _ <-. by exists n. Qed.

Lemma runs_throw {A} s (e : E) : runs t s (throw (A := A) e) (Err e) s.
Proof. intros [s0 cl n] _ <-. by exists n. Qed.

Lemma runs_now s : runs t s (now (E := E)) (Ok t) s.
Proof. intros [s0 cl n] Ht <-. exists (S n). unfold now. by rewrite Ht. Qed.

Lemma runs_get s : runs t s (get (E := E)) (Ok s) s.
Proof. intros [s0 cl n] Ht <-. by exists n. Qed.

Lemma runs_put s s' : runs t s (put (E := E) s') (Ok tt) s'.
Proof. intros [s0 cl n] Ht <-. by exists n. Qed.

Lemma runs_bind {A B} s (m : M St E A) (k : A -> M St E B) a s1 o s2 :
  runs t s m (Ok a) s1 -> runs t s1 (k a) o s2 -> runs t s (bind m k) o s2.
Proof.
  intros Hm Hk w Ht Hs. destruct (Hm w Ht Hs) as [n Hn].
  destruct (Hk (mkWorld s1 (w_clock w) n) Ht eq_refl) as [n' Hn'].
  exists n'. unfold bind. by rewrite Hn, Hn'.
Qed.

Lemma runs_bind_err {A B} s (m : M St E A) (k : A -> M St E B) e s1 :
  runs t s m (Err e) s1 -> runs t s (bind m k) (Err e) s1.
Proof.
  intros Hm w Ht Hs. destruct (Hm w Ht Hs) as [n Hn]. exists n. unfold bind. by rewrite Hn.
Qed.

Lemma runs_bind_panic {A B} s (m : M St E A) (k : A -> M St E B) msg s1 :
  runs t s m (Panic msg) s1 -> runs t s (bind m k) (Panic msg) s1.
Proof.
  intros Hm w Ht Hs. destruct (Hm w Ht Hs) as [n Hn]. exists n. unfold bind. by rewrite Hn.
Qed.

Lemma runs_map_err {F A} s (f : E -> F) (m : M St E A) o s' :
  runs t s m o s' -> runs t s (map_err f m) (outcome_map_err f o) s'.
Proof.
  intros Hm w Ht Hs. destruct (Hm w Ht Hs) as [n Hn]. exists n. unfold map_err. by rewrite Hn.
Qed.

Lemma runs_zoom {T A} (view : T -> St) (upd : St -> T -> T) (s : T) (m : M St E A) o s' :
  runs t (view s) m o s' -> runs t s (zoom view upd m) o (upd s' s).
Proof.
  intros Hm [s0 cl n0] Ht <-. destruct (Hm (mkWorld (view s0) cl n0) Ht eq_refl) as [n Hn].
  exists n. unfold zoom. simpl in *. by rewrite Hn.
Qed.

Lemma runs_zoom_read {T A} (view : T -> St) (upd : St -> T -> T) (s : T) (m : M St E A) o :
  upd (view s) s = s -> runs t (view s) m o (view s) -> runs t s (zoom view upd m) o s.
Proof. intros Hu Hm. apply (runs_zoom view upd) in Hm. by rewrite Hu in Hm. Qed.

(** The outcome and the state are determined. *)
Lemma runs_det {A} s (m : M St E A) o o' s1 s2 :
  runs t s m o s1 -> runs t s m o' s2 -> o = o' /\ s1 = s2.
Proof.
  intros H1 H2. destruct (H1 (mkWorld s (fun _ => t) 0)) as [n1 E1]; [done..|].
  destruct (H2 (mkWorld s (fun _ => t) 0)) as [n2 E2]; [done..|].
  rewrite E1 in E2. by injection E2 as -> ->.
Qed.
End runs_rules.

Create HintDb runs.
#[export] Hint Resolve runs_ret runs_lift runs_throw runs_now runs_get runs_put : runs.

(** One step into a [bind]. *)
Ltac runs_step := eapply runs_bind; [solve [eauto with runs nocore]|].

(** ** Lists *)

Lemma filter_id {A} (P : A -> Prop) `{forall x, Decision (P x)} (l : list A) :
  (forall x, x ∈ l -> P x) -> filter P l = l.
Proof.
  induction l as [|x l IH]; intros Hl; [done|].
  rewrite filter_cons_True by (apply Hl; by left). f_equal. apply IH. intros y Hy. apply Hl. by right.
Qed.

Lemma find_none_forall {A} (p : A -> bool) l : List.find p l = None <-> Forall (fun x => p x = false) l.
Proof.
  split.
  - intros Hf. apply Forall_forall. intros x Hx. eapply List.find_none; [done|].
    by apply list_elem_of_In.
  - intros Hf. destruct (List.find p l) as [x|] eqn:Hx; [|done].
    apply List.find_some in Hx as [Hin Hp]. apply list_elem_of_In in Hin.
    rewrite Forall_forall in Hf. rewrite Hf in Hp; done.
Qed.

Lemma find_some_split {A} (p : A -> bool) l x :
  List.find p l = Some x ->
  exists pre post, l = pre ++ x :: post /\ Forall (fun y => p y = false) pre /\ p x = true.
Proof.
  induction l as [|y l IH]; [done|]. simpl. destruct (p y) eqn:Hy.
  - intros [= ->]. by exists [], l.
  - intros Hf. destruct (IH Hf) as (pre & post & -> & Hp & Hx). exists (y :: pre), post.
    split_and!; [done|by constructor|done].
Qed.

Lemma forall2_elem_r {A B} (R : A -> B -> Prop) l k y :
  Forall2 R l k -> y ∈ k -> exists x, x ∈ l /\ R x y.
Proof.
  induction 1 as [|x y' l k Hxy _ IH]; intros Hy; [by apply not_elem_of_nil in Hy|].
  apply elem_of_cons in Hy as [->|Hy]; [exists x; split; [by left|done]|].
  destruct (IH Hy) as (x' & ? & ?). exists x'. split; [by right|done].
Qed.

Lemma forall2_elem_l {A B} (R : A -> B -> Prop) l k x :
  Forall2 R l k -> x ∈ l -> exists y, y ∈ k /\ R x y.
Proof. intros H Hx. apply Forall2_flip in H. destruct (forall2_elem_r _ _ _ _ H Hx) as (y & ? & ?). by exists y. Qed.

(** ** Comparison functions that order their type *)

Class OrdCmp {T : Type} (cmp : T -> T -> comparison) : Prop := {
  cmp_antisym : forall a b, cmp a b = CompOpp (cmp b a);
  cmp_trans : forall a b c, cmp a b = Lt -> cmp b c = Lt -> cmp a c = Lt;
  cmp_eq_l : forall a b c, cmp a b = Eq -> cmp a c = cmp b c
}.

Section ord_cmp.
Context {T : Type} (cmp : T -> T -> comparison) `{!OrdCmp cmp}.

Lemma cmp_refl a : cmp a a = Eq.
Proof. pose proof (cmp_antisym a a) as H. by destruct (cmp a a). Qed.

Lemma cmp_gt_lt a b : cmp a b = Gt <-> cmp b a = Lt.
Proof. rewrite (cmp_antisym a b). by destruct (cmp b a). Qed.

Lemma cmp_eq_sym a b : cmp a b = Eq -> cmp b a = Eq.
Proof. intros Hab. rewrite cmp_antisym. by rewrite Hab. Qed.

Lemma cmp_eq_r a b c : cmp a b = Eq -> cmp c a = cmp c b.
Proof. intros Hab. rewrite (cmp_antisym c a), (cmp_antisym c b). f_equal. by apply cmp_eq_l. Qed.
End ord_cmp.

#[export] Instance Z_ord_cmp : OrdCmp Z.compare.
Proof.
  split.
  - intros. apply Z.compare_antisym.
  - intros a b c. rewrite !Z.compare_lt_iff. lia.
  - intros a b c H. by apply Z.compare_eq_iff in H as ->.
Qed.

Lemma string_compare_cons a s b t :
  String.compare (String a s) (String b t) =
    match Ascii.compare a b with Eq => String.compare s t | c => c end.
Proof. done. Qed.

Lemma ascii_compare_refl a : Ascii.compare a a = Eq.
Proof. unfold Ascii.compare. apply N.compare_refl. Qed.

#[export] Instance string_ord_cmp : OrdCmp String.compare.
Proof.
  split.
  - apply String.compare_antisym.
  - induction a as [|a s IH]; intros [|b t] [|c u]; try done.
    rewrite !string_compare_cons.
    destruct (Ascii.compare a b) eqn:Hab; [|intros _|done].
    + apply Ascii.compare_eq_iff in Hab as ->. destruct (Ascii.compare b c); [apply IH|done..].
    + destruct (Ascii.compare b c) eqn:Hbc; [|intros _|done].
      * apply Ascii.compare_eq_iff in Hbc as ->. by rewrite Hab.
      * replace (Ascii.compare a c) with Lt; [done|]. symmetry.
        unfold Ascii.compare in *. rewrite N.compare_lt_iff in *. lia.
  - intros a b c H. by apply String.compare_eq_iff in H as ->.
Qed.

Lemma string_compare_eq s t : String.compare s t = Eq <-> s = t.
Proof. split; [apply String.compare_eq_iff|]. intros ->. apply (cmp_refl String.compare). Qed.

(** Comparing by a projection, and lexicographically. *)
Lemma on_ord_cmp {T U} (f : T -> U) (cmp : U -> U -> comparison) :
  OrdCmp cmp -> OrdCmp (fun a b => cmp (f a) (f b)).
Proof.
  intros Hc. split; intros; [apply cmp_antisym|by eapply cmp_trans|by apply cmp_eq_l].
Qed.

Lemma lex_ord_cmp {T} (c1 c2 : T -> T -> comparison) :
  OrdCmp c1 -> OrdCmp c2 ->
  OrdCmp (fun a b => match c1 a b with Eq => c2 a b | c => c end).
Proof.
  intros H1 H2. split.
  - intros a b. rewrite (cmp_antisym (cmp := c1) a b). destruct (c1 b a); simpl; [apply H2|done..].
  - intros a b c. destruct (c1 a b) eqn:Hab; [|intros _|done].
    + rewrite (cmp_eq_l (cmp := c1) a b c Hab). destruct (c1 b c); [apply H2|done..].
    + destruct (c1 b c) eqn:Hbc; [|intros _|done].
      * by rewrite <-(cmp_eq_r c1 b c a Hbc), Hab.
      * by rewrite (cmp_trans (cmp := c1) a b c Hab Hbc).
  - intros a b c. destruct (c1 a b) eqn:Hab; [|done..]. intros Hab'.
    rewrite (cmp_eq_l (cmp := c1) a b c Hab). destruct (c1 b c); [by apply H2|done..].
Qed.

(** Two strictly increasing lists with the same elements are the same list. *)
Lemma strictly_sorted_ext {T} (R : relation T) `{!StrictOrder R} (l k : list T) :
  StronglySorted R l -> StronglySorted R k -> (forall x, x ∈ l <-> x ∈ k) -> l = k.
Proof.
  revert k. induction l as [|x l IH]; intros [|y k] Hl Hk Hext; [done|..].
  - exfalso. apply (not_elem_of_nil y), Hext. by left.
  - exfalso. apply (not_elem_of_nil x), Hext. by left.
  - inversion Hl as [|? ? Hl' Hx]; subst. inversion Hk as [|? ? Hk' Hy]; subst.
    rewrite Forall_forall in Hx, Hy.
    assert (x = y) as ->.
    { assert (Hxk : x ∈ y :: k) by (apply Hext; by left).
      assert (Hyl : y ∈ x :: l) by (apply Hext; by left).
      apply elem_of_cons in Hxk as [->|Hxk]; [done|].
      apply elem_of_cons in Hyl as [->|Hyl]; [done|].
      apply Hx in Hyl. apply Hy in Hxk. exfalso.
      apply (irreflexivity R x). by transitivity y. }
    f_equal. apply IH; [done..|]. intros z. split; intros Hz.
    + assert (Hz' : z ∈ y :: k) by (apply Hext; by right).
      apply elem_of_cons in Hz' as [->|?]; [|done]. exfalso. by apply (irreflexivity R y), Hx.
    + assert (Hz' : z ∈ y :: l) by (apply Hext; by right).
      apply elem_of_cons in Hz' as [->|?]; [|done]. exfalso. by apply (irreflexivity R y), Hy.
Qed.
