(* ===== verification/AtomicExpiringValue.v ===== *)
(** * A counter value with an expiry: [storage/atomic_expiring_value.rs]

    The two atomics of the code, a [u64] value and a [u64] expiry in
    microseconds since the epoch, as one record.  This file gives the
    sequential meaning of every operation; [Concurrency.v] interleaves the
    individual atomic accesses. *)

From S2P Require Import Prelude.

Record AtomicExpiryTime : Type := mkExpiry { expiry : Z }.

(** [AtomicU64::compare_exchange] on a cell holding [cur]: the cell afterwards
    and whether the exchange happened. *)
Definition compare_exchange (cur expected new : Z) : bool * Z :=
  if cur =? expected then (true, new) else (false, cur).

Section expiry_time.
Context {E : Type}.

Definition since_epoch (when : SystemTime) : Outcome E Z :=
  match duration_since when UNIX_EPOCH with
  | None => Panic "SystemTime before UNIX EPOCH!"
  | Some d => Ok (as_micros d mod 18446744073709551616)
  end.

Definition expiry_new (when : SystemTime) : Outcome E AtomicExpiryTime :=
  outcome_map mkExpiry (since_epoch when).

(** [ttl] with the clock reading it uses made explicit. *)
Definition expiry_ttl_at (self : AtomicExpiryTime) (t : SystemTime) : Duration :=
  default 0 (duration_since (UNIX_EPOCH + from_micros (expiry self)) t).

Definition expiry_ttl {St} (self : AtomicExpiryTime) : M St E Duration :=
  let* t := now in ret (expiry_ttl_at self t).

Definition expired_at (self : AtomicExpiryTime) (when : SystemTime) : Outcome E bool :=
  let? when := since_epoch when in Ok (expiry self <=? when).

Definition expiry_update (self : AtomicExpiryTime) (exp : SystemTime) : Outcome E AtomicExpiryTime :=
  outcome_map mkExpiry (since_epoch exp).

(** Whether this call opened a new window, and the expiry afterwards. *)
Definition update_if_expired (self : AtomicExpiryTime) (ttl : Duration) (when : SystemTime)
    : Outcome E (bool * AtomicExpiryTime) :=
  if as_micros ttl <=? u64_max then
    let ttl_micros := as_micros ttl in
    let? when_micros := since_epoch when in
    let loaded := expiry self in
    if loaded <=? when_micros then
      let new_expiry := u64_add when_micros ttl_micros in
      let '(ok, cell) := compare_exchange (expiry self) loaded new_expiry in
      Ok (ok, mkExpiry cell)
    else Ok (false, self)
  else Panic "Wow! The future is here!".

(** [Ok(())] is [inl], [Err(other)] (a lost race) is [inr]. *)
Definition merge_at (self other : AtomicExpiryTime) (when : SystemTime)
    : Outcome E (AtomicExpiryTime * (unit + AtomicExpiryTime)) :=
  let other_exp := expiry other in
  let loaded := expiry self in
  if other_exp <? loaded then
    let? when_micros := since_epoch when in
    if other_exp >? when_micros then
      let '(ok, cell) := compare_exchange (expiry self) loaded other_exp in
      Ok (mkExpiry cell, if ok then inl tt else inr other)
    else Ok (self, inl tt)
  else Ok (self, inl tt).

(** The retry loop of [merge]; [None] when [fuel] runs out. *)
Fixpoint expiry_merge {St} (fuel : nat) (self other : AtomicExpiryTime)
    : M St E (option AtomicExpiryTime) :=
  match fuel with
  | O => ret None
  | S fuel =>
      let* t := now in
      let* '(self, res) := lift (merge_at self other t) in
      match res with
      | inl _ => ret (Some self)
      | inr other => expiry_merge fuel self other
      end
  end.

Definition expires_at (self : AtomicExpiryTime) : SystemTime :=
  UNIX_EPOCH + from_micros (expiry self).

Definition expiry_into_inner (self : AtomicExpiryTime) : SystemTime := expires_at self.

End expiry_time.

Record AtomicExpiringValue : Type := mkAev {
  aev_value : Z;
  aev_expiry : AtomicExpiryTime
}.

Section expiring_value.
Context {E : Type}.

Definition aev_new (value : Z) (exp : SystemTime) : Outcome E AtomicExpiringValue :=
  outcome_map (mkAev value) (expiry_new exp).

Definition aev_default : AtomicExpiringValue := mkAev 0 (mkExpiry 0).

Definition value_at (self : AtomicExpiringValue) (when : SystemTime) : Outcome E Z :=
  let? expired := expired_at (aev_expiry self) when in
  Ok (if (expired : bool) then 0 else aev_value self).

Definition value {St} (self : AtomicExpiringValue) : M St E Z :=
  let* t := now in lift (value_at self t).

Definition add_and_set_expiry (self : AtomicExpiringValue) (delta : Z) (exp : SystemTime)
    : Outcome E (Z * AtomicExpiringValue) :=
  let? e := expiry_update (aev_expiry self) exp in
  let v := u64_add (aev_value self) delta in
  Ok (v, mkAev v e).

(** Returns the value after the update, and the cell afterwards. *)
Definition update (self : AtomicExpiringValue) (delta : Z) (ttl : Duration) (when : SystemTime)
    : Outcome E (Z * AtomicExpiringValue) :=
  let? upd := update_if_expired (aev_expiry self) ttl when in
  let '(opened, e) := (upd : bool * AtomicExpiryTime) in
  if opened then Ok (delta, mkAev delta e)
  else
    let v := u64_add (aev_value self) delta in
    Ok (v, mkAev v e).

Definition ttl_at (self : AtomicExpiringValue) (t : SystemTime) : Duration :=
  expiry_ttl_at (aev_expiry self) t.

Definition ttl {St} (self : AtomicExpiringValue) : M St E Duration :=
  expiry_ttl (aev_expiry self).

End expiring_value.

(** ** Times the code can represent *)

(** A clock reading the code does not panic on and whose microseconds fit. *)
Definition good_time (t : SystemTime) : Prop := 0 <= t /\ as_micros t <= u64_max.

(** A window that can be opened at [t] without panic or wrap-around. *)
Definition good_window (t : SystemTime) (ttl : Duration) : Prop :=
  good_time t /\ 0 <= ttl /\ as_micros t + as_micros ttl <= u64_max.

(** Well-formed cells. *)
Definition aev_wf (c : AtomicExpiringValue) : Prop :=
  in_u64 (aev_value c) /\ in_u64 (expiry (aev_expiry c)).

(** The window of [c] is open at [t]. *)
Definition live (c : AtomicExpiringValue) (t : SystemTime) : Prop :=
  as_micros t < expiry (aev_expiry c).

#[export] Instance live_dec c t : Decision (live c t).
Proof. unfold live. apply _. Defined.

Section facts.
Context {E : Type}.
Implicit Types (c : AtomicExpiringValue) (t : SystemTime).

Lemma as_micros_nonneg d : 0 <= d -> 0 <= as_micros d.
Proof. intros. unfold as_micros. apply Z.div_pos; lia. Qed.

Lemma as_micros_mono d d' : d <= d' -> as_micros d <= as_micros d'.
Proof. intros. unfold as_micros. apply Z.div_le_mono; lia. Qed.

Lemma since_epoch_good t : good_time t -> since_epoch (E := E) t = Ok (as_micros t).
Proof.
  intros [H0 H1]. unfold since_epoch, duration_since, UNIX_EPOCH.
  destruct (Z.leb_spec 0 t); [|lia]. rewrite Z.sub_0_r.
  rewrite Z.mod_small; [done|]. pose proof (as_micros_nonneg t H0). unfold u64_max in *. lia.
Qed.

Lemma expired_at_good e t :
  good_time t -> expired_at (E := E) e t = Ok (expiry e <=? as_micros t).
Proof. intros. unfold expired_at. by rewrite since_epoch_good. Qed.

Lemma value_at_live c t : good_time t -> live c t -> value_at (E := E) c t = Ok (aev_value c).
Proof.
  intros Ht Hl. unfold value_at. rewrite expired_at_good by done. simpl.
  unfold live in Hl. destruct (Z.leb_spec (expiry (aev_expiry c)) (as_micros t)); [lia|done].
Qed.

Lemma value_at_expired c t : good_time t -> ~ live c t -> value_at (E := E) c t = Ok 0.
Proof.
  intros Ht Hl. unfold value_at. rewrite expired_at_good by done. simpl.
  unfold live in Hl. destruct (Z.leb_spec (expiry (aev_expiry c)) (as_micros t)); [done|lia].
Qed.

Lemma good_window_time t d : good_window t d -> good_time t.
Proof. by intros [? _]. Qed.

Lemma good_window_ttl t d : good_window t d -> as_micros d <= u64_max.
Proof.
  intros ([H0 _] & Hd & H). pose proof (as_micros_nonneg t H0). lia.
Qed.

Lemma update_live c delta d t :
  good_window t d -> live c t ->
  update (E := E) c delta d t =
    Ok (u64_add (aev_value c) delta, mkAev (u64_add (aev_value c) delta) (aev_expiry c)).
Proof.
  intros Hw Hl. unfold update, update_if_expired.
  destruct (Z.leb_spec (as_micros d) u64_max); [|by apply good_window_ttl in Hw; lia].
  rewrite since_epoch_good by (by eapply good_window_time). simpl.
  unfold live in Hl.
  destruct (Z.leb_spec (expiry (aev_expiry c)) (as_micros t)); [lia|]. simpl.
  by destruct c as [v [e]].
Qed.

Lemma update_expired c delta d t :
  good_window t d -> ~ live c t ->
  update (E := E) c delta d t =
    Ok (delta, mkAev delta (mkExpiry (as_micros t + as_micros d))).
Proof.
  intros Hw Hl. unfold update, update_if_expired.
  destruct (Z.leb_spec (as_micros d) u64_max); [|by apply good_window_ttl in Hw; lia].
  rewrite since_epoch_good by (by eapply good_window_time). simpl.
  unfold live in Hl.
  destruct (Z.leb_spec (expiry (aev_expiry c)) (as_micros t)); [|lia].
  unfold compare_exchange. rewrite Z.eqb_refl. simpl.
  rewrite u64_add_small; [done|..]; destruct Hw as ([? ?] & ? & ?);
    pose proof (as_micros_nonneg t); pose proof (as_micros_nonneg d); lia.
Qed.
End facts.

(** ** The properties of the value *)

(** Applies a sequence of [update] calls [(delta, when)] of one window length. *)
Fixpoint updates {E} (c : AtomicExpiringValue) (d : Duration) (l : list (Z * SystemTime))
    : Outcome E AtomicExpiringValue :=
  match l with
  | [] => Ok c
  | (delta, when) :: l => let? r := update c delta d when in updates r.2 d l
  end.

Definition total (l : list (Z * SystemTime)) : Z := foldr (fun x acc => x.1 + acc) 0 l.

Lemma updates_in_window {E} (d : Duration) l c :
  aev_wf c ->
  Forall (fun x => good_window x.2 d /\ live c x.2) l ->
  updates (E := E) c d l =
    Ok (mkAev (u64_add (aev_value c) (total l)) (aev_expiry c)).
Proof.
  revert c. induction l as [|[delta t] l IH]; intros [v e] Hwf Hl; simpl.
  - unfold u64_add. rewrite Z.add_0_r, Z.mod_small; [done|].
    destruct Hwf as [Hv _]. unfold in_u64, u64_max in Hv. simpl in *. lia.
  - apply Forall_cons in Hl as [[Hw Hlive] Hl]. simpl in *.
    rewrite update_live by done. simpl. rewrite IH; simpl.
    + by rewrite u64_add_assoc.
    + split; [apply u64_add_in|by destruct Hwf].
    + done.
Qed.

(** Fixed-window counting.  The update that finds the window elapsed opens a
    new one of length [d]; every later update before its end is added to it, so
    after any sequence of updates inside the window the cell holds the (wrapped)
    sum of all the deltas and the expiry set by the first. *)
Theorem fixed_window_counts {E} (c : AtomicExpiringValue) (d0 : Z) (t0 : SystemTime)
    (d : Duration) (l : list (Z * SystemTime)) :
  in_u64 d0 -> ~ live c t0 -> good_window t0 d ->
  Forall (fun x => good_window x.2 d /\ as_micros x.2 < as_micros t0 + as_micros d) l ->
  updates (E := E) c d ((d0, t0) :: l) =
    Ok (mkAev (u64_add d0 (total l)) (mkExpiry (as_micros t0 + as_micros d))).
Proof.
  intros Hd0 Hexp Hw Hl. simpl. rewrite update_expired by done. simpl.
  apply updates_in_window; [|done].
  split; simpl; [done|]. destruct Hw as ([? ?] & ? & ?).
  pose proof (as_micros_nonneg t0). pose proof (as_micros_nonneg d).
  unfold in_u64. lia.
Qed.

Lemma fixed_window_counts_witness :
  updates (E := unit) aev_default (from_secs 60)
    [(3, from_secs 100); (4, from_secs 130); (5, from_secs 159)] =
  Ok (mkAev 12 (mkExpiry 160000000)).
Proof.
  apply (fixed_window_counts aev_default 3 (from_secs 100) (from_secs 60)
           [(4, from_secs 130); (5, from_secs 159)]).
  - vm_compute. split; discriminate.
  - vm_compute. discriminate.
  - vm_compute. intuition discriminate.
  - repeat constructor; vm_compute; intuition discriminate.
Defined.

(** Whatever the state of the window, an update at [t] makes the value read at
    [t] grow by exactly [delta] (modulo 2^64), returns that value, and keeps the
    cell well formed. *)
Theorem update_adds {E} (c : AtomicExpiringValue) (delta v : Z) (d : Duration) (t : SystemTime) :
  aev_wf c -> in_u64 delta -> good_window t d -> 0 < as_micros d ->
  value_at (E := E) c t = Ok v ->
  exists c', update (E := E) c delta d t = Ok (u64_add v delta, c') /\
             value_at (E := E) c' t = Ok (u64_add v delta) /\ aev_wf c' /\ live c' t.
Proof.
  intros [Hv He] Hd Hw Hpos Hread.
  assert (Ht : good_time t) by (by eapply good_window_time).
  destruct (decide (live c t)) as [Hl|Hl].
  - rewrite value_at_live in Hread by done. injection Hread as <-.
    eexists. rewrite update_live by done. split_and!; [done| |split; [apply u64_add_in|done]|done].
    by rewrite value_at_live.
  - rewrite value_at_expired in Hread by done. injection Hread as <-.
    eexists. rewrite update_expired by done.
    assert (Hz : u64_add 0 delta = delta).
    { unfold in_u64 in Hd. rewrite u64_add_small; lia. }
    rewrite Hz. split_and!; [done|rewrite value_at_live; [done|done|]; unfold live; simpl; lia| |unfold live; simpl; lia].
    destruct Hw as ([? ?] & ? & ?). pose proof (as_micros_nonneg t).
    split; simpl; [done|unfold in_u64; lia].
Qed.

Lemma update_adds_witness :
  exists c', update (E := unit) (mkAev 7 (mkExpiry 50)) 5 (from_secs 60) (from_secs 1) = Ok (5, c') /\
             value_at (E := unit) c' (from_secs 1) = Ok 5 /\ aev_wf c' /\ live c' (from_secs 1).
Proof.
  apply (update_adds (mkAev 7 (mkExpiry 50)) 5 0 (from_secs 60) (from_secs 1)).
  - vm_compute. intuition discriminate.
  - vm_compute. intuition discriminate.
  - vm_compute. intuition discriminate.
  - vm_compute. reflexivity.
  - reflexivity.
Defined.

(** A zero [ttl] says exactly that the window has elapsed, although expiries are
    kept in microseconds and [ttl] is computed in nanoseconds. *)
Lemma ttl_zero_iff_expired c t : ttl_at c t = 0 <-> ~ live c t.
Proof.
  unfold ttl_at, expiry_ttl_at, duration_since, live, UNIX_EPOCH, from_micros, as_micros.
  destruct (Z.leb_spec t (0 + expiry (aev_expiry c) * 1000)); simpl;
    Z.to_euclidean_division_equations; lia.
Qed.

Lemma merge_at_seq {E} (self other : AtomicExpiryTime) (when : SystemTime) :
  good_time when ->
  merge_at (E := E) self other when =
    Ok (mkExpiry (if expiry other >? as_micros when then Z.min (expiry self) (expiry other)
                  else expiry self), inl tt).
Proof.
  intros Ht. unfold merge_at, compare_exchange. destruct self as [s], other as [o]. simpl.
  rewrite since_epoch_good by done. simpl.
  destruct (Z.ltb_spec o s); rewrite !Z.gtb_ltb; destruct (Z.ltb_spec (as_micros when) o);
    rewrite ?Z.eqb_refl; do 2 f_equal; f_equal; lia.
Qed.

(** Merging expiries keeps the earlier of two windows still open at the clock
    reading, so a peer can only shorten the current window; without a concurrent
    writer the retry loop returns in its first iteration. *)
Theorem merge_keeps_earliest {St E} (self other : AtomicExpiryTime) (w : World St) (fuel : nat) :
  good_time (w_clock w (w_tick w)) ->
  expiry_merge (E := E) (S fuel) self other w =
    (Ok (Some (mkExpiry (if expiry other >? as_micros (w_clock w (w_tick w))
                         then Z.min (expiry self) (expiry other) else expiry self))),
     mkWorld (w_state w) (w_clock w) (S (w_tick w))).
Proof.
  intros Ht. simpl. unfold bind, now, lift. simpl. by rewrite merge_at_seq.
Qed.

Lemma merge_keeps_earliest_witness :
  expiry_merge (E := unit) 1 (mkExpiry 9000000) (mkExpiry 7000000)
      (mkWorld tt (fun _ => from_secs 5) 0) =
    (Ok (Some (mkExpiry 7000000)), mkWorld tt (fun _ => from_secs 5) 1).
Proof.
  apply (merge_keeps_earliest (mkExpiry 9000000) (mkExpiry 7000000)
           (mkWorld tt (fun _ => from_secs 5) 0) 0).
  vm_compute. intuition discriminate.
Defined.
