(* ===== verification/Cel.v ===== *)
(** * Expressions and predicates over a request: [limit/cel.rs]

    The [cel] crate parses and evaluates; what [cel.rs] adds is how a request
    becomes a CEL context, how a value becomes a counter qualifier, and which
    evaluation errors count as "does not apply". *)

From S2P Require Import Prelude.
From Stdlib Require Import Floats.SpecFloat.

(** ** The part of the [cel] crate that [cel.rs] names *)

Inductive CelKey : Type :=
| KInt (i : Z)
| KUint (u : Z)
| KBool (b : bool)
| KString (s : string).

Inductive Value : Type :=
| VInt (i : Z)
| VUInt (u : Z)
| VFloat (f : spec_float)
| VString (s : string)
| VNull
| VBool (b : bool)
| VList (l : list Value)
| VMap (m : list (CelKey * Value))
| VFunction (ident : string)
| VBytes (b : list Z)
| VDuration (nanos : Z)
| VTimestamp (nanos : Z)
| VOpaque (runtime_type_name : string).

(** The one variant the code tells apart, and all the others. *)
Inductive ExecutionError : Type :=
| NoSuchKey (key : string)
| OtherExecutionError (msg : string).

Class CelEngine : Type := {
  IdedExpr : Type;
  cel_Context : Type;
  cel_context_default : cel_Context;
  add_variable_from_value : cel_Context -> string -> Value -> cel_Context;
  new_inner_scope : cel_Context -> cel_Context;
  cel_parse : string -> string + IdedExpr;
  cel_resolve : IdedExpr -> cel_Context -> ExecutionError + Value;
  references_variables : IdedExpr -> list string;
  (** [f64::to_string] and the [Display]/[Debug] output of the crate's values *)
  display_f64 : spec_float -> string;
  display_value : Value -> string
}.

(** ** [mod errors] *)

Inductive EvaluationError : Type :=
| UnexpectedValueType (value : string)
| ExecutionErr (err : ExecutionError).

Record ParseError : Type := mkParseError { pe_input : string; pe_source : string }.

Section cel.
Context `{CelEngine}.

(** ** [Context] *)

Record Context : Type := mkContext {
  ctx_variables : gset string;
  ctx_ctx : cel_Context
}.

(** [cel::objects::Map::from] of a map of strings. *)
Definition cel_map_from (values : gmap string string) : Value :=
  VMap ((fun kv => (KString kv.1, VString kv.2)) <$> map_to_list values).

Definition context_new (root : string) (values : gmap string string) : Context :=
  if decide (root = ""%string) then
    foldl (fun c kv => mkContext ({[kv.1]} ∪ ctx_variables c)
                         (add_variable_from_value (ctx_ctx c) kv.1 (VString kv.2)))
      (mkContext ∅ cel_context_default) (map_to_list values)
  else mkContext ∅ (add_variable_from_value cel_context_default root (cel_map_from values)).

Definition list_binding (self : Context) (name : string) (value : list (gmap string string)) : Context :=
  let v := cel_map_from <$> value in
  mkContext ({[name]} ∪ ctx_variables self)
    (add_variable_from_value (ctx_ctx self) name (VList v)).

(** The [name] and [id] of the limit, as [for_limit] passes them. *)
Definition opt_string_value (o : option string) : Value :=
  match o with Some n => VString n | None => VNull end.

Definition for_limit (self : Context) (limit_name limit_id : option string) : Context :=
  let inner := new_inner_scope (ctx_ctx self) in
  let limit_data := VMap [(KString "name", opt_string_value limit_name);
                          (KString "id", opt_string_value limit_id)] in
  mkContext (ctx_variables self) (add_variable_from_value inner "limit" limit_data).

Definition has_variables (self : Context) (names : list string) : bool :=
  forallb (fun name => bool_decide (name ∈ ctx_variables self)) names.

Definition context_default : Context := context_new "" ∅.

Definition context_from (values : gmap string string) : Context := context_new "" values.

(** ** [Expression] *)

Record Expression : Type := mkExpression {
  source : string;
  expression : IdedExpr
}.

Definition expression_parse (src : string) : Outcome ParseError Expression :=
  match cel_parse src with
  | inr e => Ok (mkExpression src e)
  | inl err => Err (mkParseError src err)
  end.

Definition err_on_value (val : Value) : EvaluationError :=
  UnexpectedValueType
    match val with
    | VList _ => "list: `" +:+ display_value val +:+ "`"
    | VMap _ => "map: `" +:+ display_value val +:+ "`"
    | VFunction ident => "function: `" +:+ ident +:+ "`"
    | VBytes _ => "function: `" +:+ display_value val +:+ "`"
    | VDuration _ => "duration: `" +:+ display_value val +:+ "`"
    | VTimestamp _ => "timestamp: `" +:+ display_value val +:+ "`"
    | VInt i => "integer: `" +:+ pretty i +:+ "`"
    | VUInt u => "unsigned integer: `" +:+ pretty u +:+ "`"
    | VFloat f => "float: `" +:+ display_f64 f +:+ "`"
    | VString s => "string: `" +:+ s +:+ "`"
    | VBool b => "bool: `" +:+ (if b then "true" else "false") +:+ "`"
    | VNull => "null"
    | VOpaque n => "opaque: `" +:+ n +:+ "`"
    end%string.

Definition resolve (self : Expression) (ctx : Context) : ExecutionError + Value :=
  cel_resolve (expression self) (ctx_ctx ctx).

Definition eval (self : Expression) (ctx : Context) : Outcome EvaluationError (option string) :=
  match resolve self ctx with
  | inr (VInt i) => Ok (Some (pretty i))
  | inr (VUInt u) => Ok (Some (pretty u))
  | inr (VFloat f) => Ok (Some (display_f64 f))
  | inr (VString s) => Ok (Some s)
  | inr VNull => Ok (Some "null"%string)
  | inr (VBool b) => Ok (Some (if b then "true" else "false")%string)
  | inr val => Err (err_on_value val)
  | inl (NoSuchKey _) => Ok None
  | inl err => Err (ExecutionErr err)
  end.

Definition eval_map (self : Expression) (ctx : Context)
    : Outcome EvaluationError (gmap string string) :=
  match resolve self ctx with
  | inl err => Err (ExecutionErr err)
  | inr (VMap m) =>
      Ok (list_to_map (omap (fun kv => match kv with
                                       | (KString k, VString v) => Some (k, v)
                                       | _ => None
                                       end) m))
  | inr _ => Ok ∅
  end.

Definition expression_variables (self : Expression) : list string :=
  references_variables (expression self).

(** [Ord] and the [PartialEq] derived from it compare the source text. *)
Definition expression_cmp (a b : Expression) : comparison :=
  String.compare (source a) (source b).

Definition expression_eq (a b : Expression) : bool :=
  match expression_cmp a b with Eq => true | _ => false end.

(** ** [Predicate] *)

Record Predicate : Type := mkPredicate {
  pred_variables : gset string;
  pred_expression : Expression
}.

Definition predicate_parse (src : string) : Outcome ParseError Predicate :=
  outcome_map (fun e => mkPredicate (list_to_set (references_variables (expression e))) e)
    (expression_parse src).

Definition predicate_test (self : Predicate) (ctx : Context) : Outcome EvaluationError bool :=
  if negb (forallb (fun v => bool_decide (v ∈ ctx_variables ctx))
             (filter (fun b => b <> "limit"%string) (elements (pred_variables self))))
  then Ok false
  else
    match resolve (pred_expression self) ctx with
    | inr (VBool b) => Ok b
    | inr v => Err (err_on_value v)
    | inl (NoSuchKey _) => Ok false
    | inl err => Err (ExecutionErr err)
    end.

Definition predicate_source (self : Predicate) : string := source (pred_expression self).

Definition predicate_eq (a b : Predicate) : bool :=
  bool_decide (predicate_source a = predicate_source b).

Definition predicate_cmp (a b : Predicate) : comparison :=
  expression_cmp (pred_expression a) (pred_expression b).

End cel.

Arguments mkContext {_} ctx_variables ctx_ctx.

(** ** A small engine

    Enough of CEL to evaluate the examples of the later files: the constants
    [true] and [1], a variable, and [variable == 'literal']. *)

Module DemoEngine.

Inductive Expr : Type :=
| Const (v : Value)
| Var (x : string)
| EqLit (x lit : string).

Definition parse (s : string) : string + Expr :=
  if decide (s = "true"%string) then inr (Const (VBool true))
  else if decide (s = "1"%string) then inr (Const (VInt 1))
  else if decide (s = ""%string) then inl "empty expression"%string
  else
    match String.index 0 " == '" s with
    | Some n => inr (EqLit (String.substring 0 n s)
                       (String.substring (n + 5) (String.length s - n - 6) s))
    | None => inr (Var s)
    end.

Definition resolve (e : Expr) (c : gmap string Value) : ExecutionError + Value :=
  match e with
  | Const v => inr v
  | Var x => match c !! x with Some v => inr v | None => inl (NoSuchKey x) end
  | EqLit x lit =>
      match c !! x with
      | Some (VString s) => inr (VBool (bool_decide (s = lit)))
      | Some _ => inr (VBool false)
      | None => inl (NoSuchKey x)
      end
  end.

Definition references (e : Expr) : list string :=
  match e with Const _ => [] | Var x => [x] | EqLit x _ => [x] end.

End DemoEngine.

Definition demo_engine : CelEngine := {|
  IdedExpr := DemoEngine.Expr;
  cel_Context := gmap string Value;
  cel_context_default := ∅;
  add_variable_from_value c k v := <[k := v]> c;
  new_inner_scope c := c;
  cel_parse := DemoEngine.parse;
  cel_resolve := DemoEngine.resolve;
  references_variables := DemoEngine.references;
  display_f64 _ := "0"%string;
  display_value _ := ""%string
|}.

(** Parsed expressions and predicates of the demo engine. *)
Definition demo_expr (s : string) : @Expression demo_engine :=
  match @expression_parse demo_engine s with
  | Ok e => e
  | _ => @mkExpression demo_engine s (DemoEngine.Var s)
  end.

Definition demo_pred (s : string) : @Predicate demo_engine :=
  @mkPredicate demo_engine
    (list_to_set (DemoEngine.references (@expression demo_engine (demo_expr s)))) (demo_expr s).
