(* ===== verification/Errors.v ===== *)
(** * Errors: [errors.rs] and [StorageErr] of [storage/mod.rs] *)

From S2P Require Import Prelude Cel.

(** The boxed source is kept as its printed form. *)
Record StorageErr : Type := mkStorageErr {
  se_msg : string;
  se_source : option string;
  transient : bool
}.

Definition unsupported (msg : string) : StorageErr := mkStorageErr msg None false.

Definition is_transient (e : StorageErr) : bool := transient e.

Inductive LimitadorError : Type :=
| StorageError (err : StorageErr)
| InterpreterError (err : EvaluationError).

(** The two [From] impls, applied by [?]. *)
Definition from_storage_err {St A} (m : M St StorageErr A) : M St LimitadorError A :=
  map_err StorageError m.

Definition from_evaluation_err {A} (o : Outcome EvaluationError A) : Outcome LimitadorError A :=
  outcome_map_err InterpreterError o.
