(* ===== verification/Limit.v ===== *)
(** * Limits: [limit.rs]

    A limit's identity is its namespace, its window and the sources of its
    conditions and variables.  [max_value], [name] and [id] take no part in
    equality, ordering or hashing: that is what lets a reload change them while
    the counters survive. *)

From S2P Require Import Prelude Cel Errors.

(** ** [BTreeSet] built by [collect()]: sorted by key, the last of equal keys kept *)

Section btree.
Context {T : Type} (key : T -> string).

Fixpoint btree_insert (x : T) (l : list T) : list T :=
  match l with
  | [] => [x]
  | y :: l' =>
      match String.compare (key x) (key y) with
      | Lt => x :: l
      | Eq => x :: l'
      | Gt => y :: btree_insert x l'
      end
  end.

Definition btree_collect (l : list T) : list T :=
  foldl (fun acc x => btree_insert x acc) [] l.

End btree.

(** [BTreeMap] iteration: by ascending key. *)
Definition btree_iter {V} (m : gmap string V) : list (string * V) :=
  btree_collect fst (map_to_list m).

Section limit.
Context `{CelEngine}.

Record Limit : Type := mkLimit {
  limit_id : option string;
  namespace : string;
  limit_max_value : Z;
  seconds : Z;
  limit_name : option string;
  conditions : list Predicate;
  variables : list Expression
}.

Definition limit_new (ns : string) (max_value secs : Z)
    (conds : list Predicate) (vars : list Expression) : Limit :=
  mkLimit None ns max_value secs None
    (btree_collect predicate_source conds) (btree_collect source vars).

Definition limit_with_id (id ns : string) (max_value secs : Z)
    (conds : list Predicate) (vars : list Expression) : Limit :=
  mkLimit (Some id) ns max_value secs None
    (btree_collect predicate_source conds) (btree_collect source vars).

Definition set_name (l : Limit) (name : string) : Limit :=
  mkLimit (limit_id l) (namespace l) (limit_max_value l) (seconds l) (Some name)
    (conditions l) (variables l).

Definition set_max_value (l : Limit) (v : Z) : Limit :=
  mkLimit (limit_id l) (namespace l) v (seconds l) (limit_name l) (conditions l) (variables l).

(** [conditions()] and [variables()] return the sources as a [HashSet]. *)
Definition limit_conditions (l : Limit) : gset string :=
  list_to_set (predicate_source <$> conditions l).

Definition limit_variables (l : Limit) : gset string :=
  list_to_set (source <$> variables l).

Fixpoint resolve_loop (ctx : Context) (vars : list Expression) (map : gmap string string)
    : Outcome EvaluationError (option (gmap string string)) :=
  match vars with
  | [] => Ok (Some map)
  | v :: vars =>
      let? r := eval v ctx in
      match r with
      | None => Ok None
      | Some value => resolve_loop ctx vars (<[source v := value]> map)
      end
  end.

Definition resolve_variables (l : Limit) (ctx : Context)
    : Outcome EvaluationError (option (gmap string string)) :=
  resolve_loop ctx (variables l) ∅.

Definition has_variable (l : Limit) (var : string) : bool :=
  existsb (fun v => bool_decide (v = var)) (variables l ≫= expression_variables).

(** [iter().all(|p| p.test(..).unwrap())]: stops at the first [false] and panics
    on the first error it reaches. *)
Fixpoint all_conditions_apply {E} (ctx : Context) (ps : list Predicate) : Outcome E bool :=
  match ps with
  | [] => Ok true
  | p :: ps =>
      match predicate_test p ctx with
      | Ok true => all_conditions_apply ctx ps
      | Ok false => Ok false
      | _ => Panic "called `Result::unwrap()` on an `Err` value"
      end
  end.

Definition limit_for_limit (ctx : Context) (l : Limit) : Context :=
  for_limit ctx (limit_name l) (limit_id l).

Definition applies {E} (l : Limit) (ctx : Context) : Outcome E bool :=
  let ctx := limit_for_limit ctx l in
  let? conds := all_conditions_apply (limit_for_limit ctx l) (conditions l) in
  let vars := forallb (fun var => has_variables ctx (expression_variables var)) (variables l) in
  Ok (conds && vars).

(** ** [Hash], [Ord] and [PartialEq] *)

(** What [Hash::hash] feeds the hasher, in order. *)
Definition limit_hash (l : Limit) : list (string + Z) :=
  [inl (namespace l); inr (seconds l)]
    ++ (inl <$> (predicate_source <$> conditions l))
    ++ (inl <$> (source <$> variables l)).

(** [BTreeSet]'s [cmp] and [eq]: element by element. *)
Fixpoint list_cmp {T} (cmp : T -> T -> comparison) (a b : list T) : comparison :=
  match a, b with
  | [], [] => Eq
  | [], _ :: _ => Lt
  | _ :: _, [] => Gt
  | x :: a, y :: b => match cmp x y with Eq => list_cmp cmp a b | c => c end
  end.

Fixpoint list_eq_with {T} (eqb : T -> T -> bool) (a b : list T) : bool :=
  match a, b with
  | [], [] => true
  | x :: a, y :: b => eqb x y && list_eq_with eqb a b
  | _, _ => false
  end.

Definition limit_cmp (a b : Limit) : comparison :=
  match String.compare (namespace a) (namespace b) with
  | Eq =>
      match seconds a ?= seconds b with
      | Eq =>
          match list_cmp predicate_cmp (conditions a) (conditions b) with
          | Eq => list_cmp expression_cmp (variables a) (variables b)
          | c => c
          end
      | c => c
      end
  | c => c
  end.

Definition limit_eq (a b : Limit) : bool :=
  bool_decide (namespace a = namespace b) && (seconds a =? seconds b)
  && list_eq_with predicate_eq (conditions a) (conditions b)
  && list_eq_with expression_eq (variables a) (variables b).

(** The identity of a limit: the key of every map and set of limits. *)
Definition LimitKey : Type := string * Z * list string * list string.

Definition limit_key (l : Limit) : LimitKey :=
  (namespace l, seconds l, predicate_source <$> conditions l, source <$> variables l).

End limit.

#[global] Instance LimitKey_eq_dec : EqDecision LimitKey.
Proof. unfold LimitKey. apply _. Defined.
#[global] Instance LimitKey_countable : Countable LimitKey.
Proof. unfold LimitKey. apply _. Defined.

(** ** Lemmas: sorted sets *)

Definition str_lt (s t : string) : Prop := String.compare s t = Lt.

#[global] Instance str_lt_strict : StrictOrder str_lt.
Proof.
  split.
  - intros s. unfold complement, str_lt. by rewrite (cmp_refl String.compare).
  - intros s t u. apply cmp_trans.
Qed.

Section btree_lemmas.
Context {T : Type} (key : T -> string).

Lemma btree_insert_keys x l s :
  s ∈ key <$> btree_insert key x l <-> s = key x \/ s ∈ key <$> l.
Proof.
  induction l as [|y l IH]; simpl; [set_solver|].
  destruct (String.compare (key x) (key y)) eqn:Hc; simpl; rewrite ?elem_of_cons.
  - apply string_compare_eq in Hc. rewrite Hc. tauto.
  - tauto.
  - rewrite IH. tauto.
Qed.

Lemma btree_insert_sorted x l :
  StronglySorted str_lt (key <$> l) -> StronglySorted str_lt (key <$> btree_insert key x l).
Proof.
  induction l as [|y l IH]; simpl; intros Hs; [by repeat constructor|].
  inversion Hs as [|? ? Hl Hy]; subst.
  destruct (String.compare (key x) (key y)) eqn:Hc; simpl.
  - apply string_compare_eq in Hc. rewrite Hc. by constructor.
  - constructor; [done|]. constructor; [done|]. eapply Forall_impl; [done|].
    intros z Hz. by transitivity (key y).
  - constructor; [by apply IH|]. apply Forall_forall. intros z Hz.
    apply btree_insert_keys in Hz as [->|Hz]; [by apply (cmp_gt_lt String.compare)|].
    by eapply Forall_forall in Hy.
Qed.

Lemma btree_collect_from l acc :
  StronglySorted str_lt (key <$> acc) ->
  StronglySorted str_lt (key <$> foldl (fun acc x => btree_insert key x acc) acc l) /\
  (forall s, s ∈ key <$> foldl (fun acc x => btree_insert key x acc) acc l <->
             s ∈ key <$> acc \/ s ∈ key <$> l).
Proof.
  revert acc. induction l as [|x l IH]; simpl; intros acc Hs; [set_solver|].
  destruct (IH _ (btree_insert_sorted x acc Hs)) as [IH1 IH2]. split; [done|].
  intros s. rewrite IH2, btree_insert_keys, elem_of_cons. tauto.
Qed.

Lemma btree_collect_sorted l : StronglySorted str_lt (key <$> btree_collect key l).
Proof. apply btree_collect_from. constructor. Qed.

Lemma btree_collect_keys l s : s ∈ key <$> btree_collect key l <-> s ∈ key <$> l.
Proof.
  unfold btree_collect. destruct (btree_collect_from l []) as [_ ->]; [constructor|]. set_solver.
Qed.

Lemma btree_collect_ext l k :
  (forall s, s ∈ key <$> l <-> s ∈ key <$> k) ->
  key <$> btree_collect key l = key <$> btree_collect key k.
Proof.
  intros Hext. apply (strictly_sorted_ext str_lt); [apply btree_collect_sorted..|].
  intros s. by rewrite !btree_collect_keys.
Qed.
End btree_lemmas.

(** ** Lemmas: equality, ordering and hashing agree *)

#[global] Instance list_ord_cmp {T} (cmp : T -> T -> comparison) `{!OrdCmp cmp} :
  OrdCmp (list_cmp cmp).
Proof.
  split.
  - induction a as [|x a IH]; intros [|y b]; simpl; [done..|].
    rewrite (cmp_antisym x y). destruct (cmp y x); simpl; [apply IH|done..].
  - induction a as [|x a IH]; intros [|y b] [|z c]; simpl; try done.
    destruct (cmp x y) eqn:Hxy; [|intros _|done].
    + rewrite (cmp_eq_l x y z Hxy). destruct (cmp y z); [apply IH|done..].
    + destruct (cmp y z) eqn:Hyz; [|intros _|done].
      * by rewrite <-(cmp_eq_r cmp y z x Hyz), Hxy.
      * by rewrite (cmp_trans x y z Hxy Hyz).
  - induction a as [|x a IH]; intros [|y b] [|z c]; simpl; try done.
    destruct (cmp x y) eqn:Hxy; [|done..]. intros Hab. rewrite (cmp_eq_l x y z Hxy).
    destruct (cmp y z); [by apply IH|done..].
Qed.

Section limit_lemmas.
Context `{CelEngine}.

#[local] Instance expression_ord_cmp : OrdCmp expression_cmp.
Proof. apply (on_ord_cmp source), _. Qed.

#[local] Instance predicate_ord_cmp : OrdCmp predicate_cmp.
Proof. apply (on_ord_cmp pred_expression), _. Qed.

#[local] Instance limit_ord_cmp : OrdCmp limit_cmp.
Proof.
  apply (lex_ord_cmp (fun a b => String.compare (namespace a) (namespace b)));
    [apply (on_ord_cmp namespace), _|].
  apply (lex_ord_cmp (fun a b => Z.compare (seconds a) (seconds b)));
    [apply (on_ord_cmp seconds), _|].
  apply (lex_ord_cmp (fun a b => list_cmp predicate_cmp (conditions a) (conditions b)));
    [apply (on_ord_cmp conditions), _|apply (on_ord_cmp variables), _].
Qed.

Lemma limit_eq_key a b : limit_eq a b = true <-> limit_key a = limit_key b.
Proof.
  unfold limit_eq, limit_key.
  assert (Hp : forall l k, list_eq_with predicate_eq l k = true <->
                           predicate_source <$> l = predicate_source <$> k).
  { induction l as [|x l IH]; intros [|y k]; simpl; [done..|].
    rewrite andb_true_iff, IH. unfold predicate_eq. rewrite bool_decide_eq_true.
    split; [intros [H1 H2]; by f_equal|by intros [= H1 H2]]. }
  assert (He : forall l k, list_eq_with expression_eq l k = true <-> source <$> l = source <$> k).
  { induction l as [|x l IH]; intros [|y k]; simpl; [done..|].
    rewrite andb_true_iff, IH. unfold expression_eq, expression_cmp.
    destruct (String.compare (source x) (source y)) eqn:Hc.
    - apply string_compare_eq in Hc. rewrite Hc. split; [intros [_ H2]; by f_equal|by intros [= H2]].
    - split; [by intros [? _]|]. intros Heq. injection Heq as Hs _.
      rewrite Hs, (cmp_refl String.compare) in Hc. done.
    - split; [by intros [? _]|]. intros Heq. injection Heq as Hs _.
      rewrite Hs, (cmp_refl String.compare) in Hc. done. }
  rewrite !andb_true_iff, bool_decide_eq_true, Z.eqb_eq, Hp, He.
  split; [by intros [[[-> ->] ->] ->]|by intros [= -> -> -> ->]].
Qed.

Lemma list_cmp_keys {T} (key : T -> string) l k :
  list_cmp (fun a b => String.compare (key a) (key b)) l k = Eq <-> key <$> l = key <$> k.
Proof.
  revert k. induction l as [|x l IH]; intros [|y k]; simpl; [done..|].
  destruct (String.compare (key x) (key y)) eqn:Hc.
  - apply string_compare_eq in Hc. rewrite IH, Hc. split; [intros H2; by f_equal|by intros [= H2]].
  - split; [done|]. intros Heq. injection Heq as Hs _.
    by rewrite Hs, (cmp_refl String.compare) in Hc.
  - split; [done|]. intros Heq. injection Heq as Hs _.
    by rewrite Hs, (cmp_refl String.compare) in Hc.
Qed.

Lemma limit_cmp_key a b : limit_cmp a b = Eq <-> limit_key a = limit_key b.
Proof.
  unfold limit_cmp, limit_key.
  pose proof (list_cmp_keys predicate_source (conditions a) (conditions b)) as Hp.
  pose proof (list_cmp_keys source (variables a) (variables b)) as Hv.
  change (list_cmp (fun x y => String.compare (predicate_source x) (predicate_source y)))
    with (list_cmp predicate_cmp) in Hp.
  change (list_cmp (fun x y => String.compare (source x) (source y)))
    with (list_cmp expression_cmp) in Hv.
  destruct (String.compare (namespace a) (namespace b)) eqn:Hn.
  - apply string_compare_eq in Hn.
    destruct (Z.compare_spec (seconds a) (seconds b)); [|split; [done|intros [=]; lia]..].
    destruct (list_cmp predicate_cmp (conditions a) (conditions b)) eqn:Hc;
      [|split; [done|intros [= _ _ Hs _]; by apply Hp in Hs]..].
    rewrite Hv. assert (Hs : predicate_source <$> conditions a = predicate_source <$> conditions b)
      by (by apply Hp). split; [intros ->|by intros [= _ _ _ ->]]. congruence.
  - split; [done|]. intros [= Hs _]. by rewrite Hs, (cmp_refl String.compare) in Hn.
  - split; [done|]. intros [= Hs _]. by rewrite Hs, (cmp_refl String.compare) in Hn.
Qed.

Lemma limit_key_namespace a b : limit_key a = limit_key b -> namespace a = namespace b.
Proof. by intros [= ?]. Qed.

Lemma limit_key_variables a b :
  limit_key a = limit_key b -> limit_variables a = limit_variables b.
Proof. unfold limit_key, limit_variables. by intros [= ? ? ? ->]. Qed.

(** The three ways a limit is used as a key agree.  [Ord] is a total order whose
    equality is [PartialEq], and equal limits feed the hasher the same data, so a
    limit finds its entry in the [BTreeMap]s and [HashSet]s of the storages
    whatever its [max_value], [name] and [id]. *)
Theorem limit_orders_agree :
  (forall a b, limit_cmp a b = CompOpp (limit_cmp b a)) /\
  (forall a b c, limit_cmp a b = Lt -> limit_cmp b c = Lt -> limit_cmp a c = Lt) /\
  (forall a b, limit_cmp a b = Eq <-> limit_eq a b = true) /\
  (forall a b, limit_eq a b = true -> limit_hash a = limit_hash b) /\
  (forall l name v, limit_eq (set_max_value (set_name l name) v) l = true).
Proof.
  split_and!.
  - apply cmp_antisym.
  - apply cmp_trans.
  - intros a b. by rewrite limit_cmp_key, limit_eq_key.
  - intros a b Hab. apply limit_eq_key in Hab. unfold limit_key in Hab.
    injection Hab as Hn Hs Hc Hv. unfold limit_hash. by rewrite Hn, Hs, Hc, Hv.
  - intros l name v. by apply limit_eq_key.
Qed.

(** A limit does not depend on the order or the multiplicity in which its
    conditions and variables are listed. *)
Theorem limit_new_order_insensitive ns m m' secs conds conds' vars vars' :
  (forall s, s ∈ predicate_source <$> conds <-> s ∈ predicate_source <$> conds') ->
  (forall s, s ∈ source <$> vars <-> s ∈ source <$> vars') ->
  limit_eq (limit_new ns m secs conds vars) (limit_new ns m' secs conds' vars') = true /\
  StronglySorted str_lt (source <$> variables (limit_new ns m secs conds vars)).
Proof.
  intros Hc Hv. split; [|apply btree_collect_sorted].
  apply limit_eq_key. unfold limit_key, limit_new. simpl.
  by rewrite (btree_collect_ext _ _ _ Hc), (btree_collect_ext _ _ _ Hv).
Qed.

(** ** Lemmas: resolving variables and conditions *)

(** What [Limit::new] and [Limit::with_id] establish. *)
Definition limit_wf (l : Limit) : Prop :=
  StronglySorted str_lt (predicate_source <$> conditions l) /\
  StronglySorted str_lt (source <$> variables l) /\
  in_u64 (limit_max_value l) /\ in_u64 (seconds l).

Lemma limit_new_wf ns m secs conds vars :
  in_u64 m -> in_u64 secs -> limit_wf (limit_new ns m secs conds vars).
Proof. intros. unfold limit_wf. split_and!; [apply btree_collect_sorted..|done|done]. Qed.

Lemma sorted_head_not_in s (l : list string) : StronglySorted str_lt (s :: l) -> s ∉ l.
Proof.
  intros Hs Hin. inversion Hs as [|? ? _ Hall]; subst.
  rewrite Forall_forall in Hall. by apply (irreflexivity str_lt s), Hall.
Qed.

(** [v] resolves to [x] in [ctx]. *)
Definition resolves_to (ctx : Context) (v : Expression) (x : string) : Prop :=
  eval v ctx = Ok (Some x).

Lemma resolve_loop_spec ctx vars m0 m :
  StronglySorted str_lt (source <$> vars) ->
  (forall v, v ∈ vars -> source v ∉ dom m0) ->
  resolve_loop ctx vars m0 = Ok (Some m) <->
  dom m = dom m0 ∪ list_to_set (source <$> vars) /\
  (forall s, s ∈ dom m0 -> m !! s = m0 !! s) /\
  (forall v, v ∈ vars -> exists x, resolves_to ctx v x /\ m !! source v = Some x).
Proof.
  revert m0. induction vars as [|v vars IH]; intros m0 Hs Hd.
  { split.
    - intros [= ->]. split_and!; [set_solver|done|set_solver].
    - intros (Hdom & Hm & _). simpl. do 2 f_equal. apply map_eq. intros s.
      destruct (m0 !! s) as [x|] eqn:Hx.
      + rewrite Hm; [done|]. by apply elem_of_dom_2 in Hx.
      + apply not_elem_of_dom in Hx. symmetry. apply not_elem_of_dom. set_solver. }
  cbn [resolve_loop].
  assert (Hnv : source v ∉ source <$> vars) by (by apply sorted_head_not_in).
  assert (Hs' : StronglySorted str_lt (source <$> vars)) by (by inversion Hs).
  assert (Hd' : forall x u, u ∈ vars -> source u ∉ dom (<[source v:=x]> m0)).
  { intros x u Hu. rewrite dom_insert_L. apply not_elem_of_union. split; [|set_solver].
    apply not_elem_of_singleton. intros Heq. apply Hnv. rewrite <-Heq. set_solver. }
  assert (Hv : source v ∉ dom m0) by (apply Hd; by left).
  unfold resolves_to. split.
  - destruct (eval v ctx) as [[x|]|e|p] eqn:He; try done. cbn. intros Hr.
    apply (IH _ Hs' (Hd' x)) in Hr as (Hdom & Hm & Hall).
    rewrite dom_insert_L in Hdom, Hm. split_and!.
    + rewrite Hdom. set_solver.
    + intros s Hin. rewrite Hm by set_solver. apply lookup_insert_ne. set_solver.
    + intros u [->|Hu]%elem_of_cons; [|by apply Hall].
      exists x. split; [done|]. rewrite Hm by set_solver. apply lookup_insert_eq.
  - intros (Hdom & Hm & Hall). destruct (Hall v) as (x & -> & Hx); [by left|]. cbn.
    apply (IH _ Hs' (Hd' x)). rewrite dom_insert_L. split_and!.
    + rewrite Hdom. set_solver.
    + intros s [->%elem_of_singleton|Hin]%elem_of_union; [by rewrite lookup_insert_eq|].
      rewrite lookup_insert_ne; [by apply Hm|]. set_solver.
    + intros u Hu. apply Hall. by right.
Qed.

(** Resolving a limit's variables succeeds with a map exactly when every variable
    evaluates to a value; the map then binds the source of every variable, and
    nothing else, to that value. *)
Theorem resolve_variables_spec l ctx m :
  limit_wf l ->
  resolve_variables l ctx = Ok (Some m) <->
  dom m = limit_variables l /\
  (forall v, v ∈ variables l -> exists x, resolves_to ctx v x /\ m !! source v = Some x).
Proof.
  intros (_ & Hs & _). unfold resolve_variables.
  rewrite resolve_loop_spec; [|done|set_solver].
  rewrite dom_empty_L, union_empty_l_L. unfold limit_variables.
  split; [naive_solver|]. intros [Hdom Hall]. split_and!; [done|set_solver|done].
Qed.

(** A condition whose evaluation fails makes [applies] panic, unless a condition
    earlier in the sorted order is false: the error never reaches the caller as
    an [InterpreterError]. *)
Theorem applies_panics_on_condition_error {E} l ctx ps p qs err :
  conditions l = ps ++ p :: qs ->
  (forall q, q ∈ ps ->
     predicate_test q (limit_for_limit (limit_for_limit ctx l) l) = Ok true) ->
  predicate_test p (limit_for_limit (limit_for_limit ctx l) l) = Err err ->
  applies (E := E) l ctx = Panic "called `Result::unwrap()` on an `Err` value".
Proof.
  intros Hl Hps Hp. unfold applies. rewrite Hl. clear Hl.
  replace (all_conditions_apply _ _)
    with (@Panic E bool "called `Result::unwrap()` on an `Err` value"); [done|].
  induction ps as [|q ps IH]; simpl; [by rewrite Hp|].
  rewrite Hps by (by left). apply IH. intros q' Hq'. apply Hps. by right.
Qed.

(** When every condition evaluates, [applies] is the conjunction of the
    conditions and of the variables being bound. *)
Lemma all_conditions_apply_spec {E} ctx ps (bs : list bool) :
  Forall2 (fun p b => predicate_test p ctx = Ok b) ps bs ->
  all_conditions_apply (E := E) ctx ps = Ok (forallb id bs).
Proof.
  induction 1 as [|p b ps bs Hp _ IH]; simpl; [done|]. rewrite Hp. by destruct b.
Qed.

Lemma applies_spec {E} l ctx bs :
  Forall2 (fun p b => predicate_test p (limit_for_limit (limit_for_limit ctx l) l) = Ok b)
    (conditions l) bs ->
  applies (E := E) l ctx =
    Ok (forallb id bs &&
        forallb (fun v => has_variables ctx (expression_variables v)) (variables l)).
Proof. intros Hbs. unfold applies. by rewrite (all_conditions_apply_spec _ _ bs Hbs). Qed.
End limit_lemmas.

(** ** Witnesses on the demo engine *)

Section demo.
#[local] Existing Instance demo_engine.

Definition demo_ctx : Context :=
  context_from {["user" := "bob"; "method" := "GET"]}%string.

Definition demo_limit : Limit :=
  limit_new "ns" 10 60 [demo_pred "method == 'GET'"] [demo_expr "user"].

Lemma limit_new_order_insensitive_witness :
  limit_eq (limit_new "ns" 10 60 [demo_pred "true"; demo_pred "a == 'b'"] [demo_expr "x"; demo_expr "y"])
           (limit_new "ns" 25 60 [demo_pred "a == 'b'"; demo_pred "true"; demo_pred "true"]
              [demo_expr "y"; demo_expr "x"]) = true /\
  StronglySorted str_lt (source <$> variables
    (limit_new "ns" 10 60 [demo_pred "true"; demo_pred "a == 'b'"] [demo_expr "x"; demo_expr "y"])).
Proof.
  apply (limit_new_order_insensitive "ns" 10 25 60
           [demo_pred "true"; demo_pred "a == 'b'"]
           [demo_pred "a == 'b'"; demo_pred "true"; demo_pred "true"]
           [demo_expr "x"; demo_expr "y"] [demo_expr "y"; demo_expr "x"]);
    intros s; simpl; set_solver.
Defined.

Lemma resolve_variables_spec_witness :
  exists m : gmap string string, dom m = limit_variables demo_limit /\
    (forall v, v ∈ variables demo_limit ->
       exists x, resolves_to demo_ctx v x /\ m !! source v = Some x).
Proof.
  exists {["user" := "bob"]}%string.
  apply (resolve_variables_spec demo_limit demo_ctx {["user" := "bob"]}%string).
  - apply limit_new_wf; vm_compute; split; discriminate.
  - vm_compute. reflexivity.
Defined.

Lemma applies_panics_on_condition_error_witness :
  applies (E := unit) (limit_new "ns" 10 60 [demo_pred "1"] []) demo_ctx =
    Panic "called `Result::unwrap()` on an `Err` value".
Proof.
  apply (applies_panics_on_condition_error (limit_new "ns" 10 60 [demo_pred "1"] []) demo_ctx
           [] (demo_pred "1") [] (UnexpectedValueType "integer: `1`")).
  - reflexivity.
  - intros q Hq. by apply elem_of_nil in Hq.
  - vm_compute. reflexivity.
Defined.
End demo.
