(* ===== verification/Counter.v ===== *)
(** * Counters: [counter.rs]

    A counter is a limit together with the values of its variables.  Its
    identity is the limit's identity and those values; [remaining] and
    [expires_in] are annotations for the response. *)

From S2P Require Import Prelude Cel Errors Limit.

Section counter.
Context `{CelEngine}.

Record Counter : Type := mkCounter {
  ctr_limit : Limit;
  set_variables : gmap string string;
  remaining : option Z;
  expires_in : option Duration
}.

Definition counter_new (l : Limit) (ctx : Context) : Outcome LimitadorError (option Counter) :=
  let? vars := from_evaluation_err (resolve_variables l ctx) in
  match vars with
  | None => Ok None
  | Some vars => Ok (Some (mkCounter l vars None None))
  end.

Definition resolved_vars {E} (l : Limit) (vars : gmap string string) : Outcome E Counter :=
  Ok (mkCounter l (filter (fun kv => has_variable l kv.1 = true) vars) None None).

(** [Counter::key]: the counter without its annotations. *)
Definition key (c : Counter) : Counter := mkCounter (ctr_limit c) (set_variables c) None None.

Definition max_value (c : Counter) : Z := limit_max_value (ctr_limit c).

Definition update_to_limit (c : Counter) (l : Limit) : bool * Counter :=
  if limit_eq l (ctr_limit c)
  then (true, mkCounter l (set_variables c) (remaining c) (expires_in c))
  else (false, c).

Definition window (c : Counter) : Duration := from_secs (seconds (ctr_limit c)).

Definition counter_id (c : Counter) : option string := limit_id (ctr_limit c).

Definition counter_namespace (c : Counter) : string := namespace (ctr_limit c).

Definition set_remaining (c : Counter) (r : Z) : Counter :=
  mkCounter (ctr_limit c) (set_variables c) (Some r) (expires_in c).

Definition set_expires_in (c : Counter) (d : Duration) : Counter :=
  mkCounter (ctr_limit c) (set_variables c) (remaining c) (Some d).

Definition is_qualified (c : Counter) : bool := negb (bool_decide (set_variables c = ∅)).

(** The [BTreeMap] is already sorted, the [sort_by_key] keeps its order. *)
Definition variables_for_key (c : Counter) : list (string * string) :=
  btree_collect fst (btree_iter (set_variables c)).

Definition counter_hash (c : Counter) : list (string + Z) :=
  limit_hash (ctr_limit c)
    ++ (btree_iter (set_variables c) ≫= fun kv => [inl kv.1; inl kv.2]).

Definition counter_eq (a b : Counter) : bool :=
  limit_eq (ctr_limit a) (ctr_limit b) && bool_decide (set_variables a = set_variables b).

(** The identity of a counter, as a key of the storages' maps. *)
Definition CounterKey : Type := LimitKey * gmap string string.

Definition counter_key (c : Counter) : CounterKey := (limit_key (ctr_limit c), set_variables c).

End counter.

#[global] Instance CounterKey_eq_dec : EqDecision CounterKey.
Proof. unfold CounterKey. apply _. Defined.
#[global] Instance CounterKey_countable : Countable CounterKey.
Proof. unfold CounterKey. apply _. Defined.

Section counter_lemmas.
Context `{CelEngine}.
Implicit Types (c : Counter).

Lemma counter_eq_key a b : counter_eq a b = true <-> counter_key a = counter_key b.
Proof.
  unfold counter_eq, counter_key. rewrite andb_true_iff, limit_eq_key, bool_decide_eq_true.
  split; [by intros [-> ->]|].
  intros Heq. split; [by apply (f_equal fst) in Heq|by apply (f_equal snd) in Heq].
Qed.

Lemma limit_key_seconds (a b : Limit) : limit_key a = limit_key b -> seconds a = seconds b.
Proof. by intros [= ? ?]. Qed.

Lemma counter_key_window a b : counter_key a = counter_key b -> window a = window b.
Proof.
  intros Hk. apply (f_equal fst), limit_key_seconds in Hk. unfold window. by rewrite Hk.
Qed.

Lemma counter_key_qualified a b : counter_key a = counter_key b -> is_qualified a = is_qualified b.
Proof. intros Hk. apply (f_equal snd) in Hk. unfold is_qualified. simpl in Hk. by rewrite Hk. Qed.

Lemma is_qualified_spec c : is_qualified c = true <-> set_variables c <> ∅.
Proof. unfold is_qualified. rewrite negb_true_iff, bool_decide_eq_false. done. Qed.

Lemma not_qualified_spec c : is_qualified c = false <-> set_variables c = ∅.
Proof. unfold is_qualified. rewrite negb_false_iff, bool_decide_eq_true. done. Qed.

(** Annotations do not change a counter's identity. *)
Lemma counter_key_set_remaining c r : counter_key (set_remaining c r) = counter_key c.
Proof. done. Qed.

Lemma counter_key_set_expires_in c d : counter_key (set_expires_in c d) = counter_key c.
Proof. done. Qed.

Lemma limit_variables_empty l : limit_variables l = ∅ <-> variables l = [].
Proof.
  unfold limit_variables. destruct (variables l) as [|v vs]; simpl; [done|].
  split; [|done]. intros Heq. exfalso.
  assert (Hin : source v ∈ (∅ : gset string)) by (rewrite <-Heq; set_solver). set_solver.
Qed.

(** A counter built for a request carries the limit unchanged and no annotation,
    is qualified exactly when its limit has variables, and is found again by the
    equality and hash the storages use after any annotation. *)
Theorem counter_new_spec l ctx c :
  limit_wf l -> counter_new l ctx = Ok (Some c) ->
  ctr_limit c = l /\ remaining c = None /\ expires_in c = None /\
  (is_qualified c = true <-> variables l <> []) /\
  (forall r d, counter_eq (set_expires_in (set_remaining c r) d) c = true /\
               counter_hash (set_expires_in (set_remaining c r) d) = counter_hash c).
Proof.
  intros Hwf. unfold counter_new, from_evaluation_err.
  destruct (resolve_variables l ctx) as [[vars|]|e|p] eqn:Hr; simpl; try done.
  intros [= <-]. split_and!; try done.
  - rewrite is_qualified_spec. simpl.
    assert (Hdom : dom vars = limit_variables l).
    { destruct Hwf as (_ & Hs & _). unfold resolve_variables in Hr.
      apply resolve_loop_spec in Hr as (-> & _); [|done|set_solver].
      by rewrite dom_empty_L, union_empty_l_L. }
    rewrite <-limit_variables_empty, <-Hdom, dom_empty_iff_L. done.
  - intros r d. split; [by apply counter_eq_key|done].
Qed.

(** Rebuilding a counter from a stored key keeps only the variables whose source is
    itself an identifier referenced by one of the limit's variables: the value of
    any other qualifier is dropped. *)
Theorem resolved_vars_keeps_plain_identifiers {E} l vars c s :
  resolved_vars (E := E) l vars = Ok c ->
  set_variables c !! s =
    (if has_variable l s then vars !! s else None).
Proof.
  unfold resolved_vars. intros [= <-]. simpl. rewrite map_lookup_filter.
  destruct (vars !! s) as [x|] eqn:Hx; simpl; [|by destruct (has_variable l s)].
  by destruct (has_variable l s) eqn:Hv.
Qed.

Lemma update_to_limit_spec c l :
  limit_key l = limit_key (ctr_limit c) ->
  update_to_limit c l = (true, mkCounter l (set_variables c) (remaining c) (expires_in c)) /\
  counter_key (update_to_limit c l).2 = counter_key c.
Proof.
  intros Hk. unfold update_to_limit.
  assert (limit_eq l (ctr_limit c) = true) as -> by (by apply limit_eq_key).
  split; [done|]. unfold counter_key. simpl. by rewrite Hk.
Qed.
End counter_lemmas.

#[local] Existing Instance demo_engine.

Definition demo_counter : Counter := mkCounter demo_limit {["user" := "bob"]}%string None None.

Lemma counter_new_spec_witness :
  is_qualified demo_counter = true /\
  counter_eq (set_expires_in (set_remaining demo_counter 3) 5) demo_counter = true.
Proof.
  destruct (counter_new_spec demo_limit demo_ctx demo_counter) as (_ & _ & _ & Hq & Hk).
  - apply limit_new_wf; vm_compute; split; discriminate.
  - vm_refl.
  - split; [|apply Hk]. apply Hq. simpl. discriminate.
Defined.

(** The qualifier [user == 'bob'] is lost: its source is not an identifier. *)
Lemma resolved_vars_keeps_plain_identifiers_witness :
  set_variables (mkCounter (limit_new "ns" 10 60 [] [demo_expr "user == 'bob'"]) ∅ None None)
    !! "user == 'bob'"%string = (None : option string).
Proof.
  apply (resolved_vars_keeps_plain_identifiers (E := unit)
           (limit_new "ns" 10 60 [] [demo_expr "user == 'bob'"])
           {["user == 'bob'" := "true"]}%string).
  vm_refl.
Defined.
