(* ===== verification/Reservation.v ===== *)
(** * Reservations: [reservation.rs] *)

From S2P Require Import Prelude Cel Errors Limit Counter.
From Stdlib Require Import Floats.SpecFloat.

Abbreviation ReservationId := string (only parsing).

Record ReservationEntry : Type := mkEntry {
  reservation_id : ReservationId;
  amount : Z;
  entry_expires_at : SystemTime
}.

Definition is_live_at (e : ReservationEntry) (when : SystemTime) : bool :=
  entry_expires_at e >? when.

Section results.
Context `{CelEngine}.

Record ReserveResult : Type := mkReserveResult {
  rr_limited : bool;
  rr_reservation_id : option ReservationId;
  rr_amount : Z;
  rr_counters : list Counter;
  rr_limit_name : option string
}.
End results.

Record CommitResult : Type := mkCommitResult { reservation_released : bool }.

(** ** [f64] as IEEE 754 binary64 *)

Definition f64 : Type := spec_float.

(** [n as f64] *)
Definition u64_as_f64 (n : Z) : f64 := binary_normalize 53 1024 n 0 false.

Definition f64_mul (x y : f64) : f64 := SFmul 53 1024 x y.

(** [x as u64]: truncates, saturates, and sends NaN to 0. *)
Definition f64_as_u64 (x : f64) : Z :=
  match x with
  | S754_zero _ => 0
  | S754_infinity s => if s then 0 else u64_max
  | S754_nan => 0
  | S754_finite true _ _ => 0
  | S754_finite false m e =>
      Z.min (if 0 <=? e then Z.pos m * 2 ^ e else Z.pos m / 2 ^ (- e)) u64_max
  end.

Definition f64_one : f64 := u64_as_f64 1.

Record ReservationLimits : Type := mkReservationLimits {
  max_fraction : f64;
  max_ttl : Duration
}.

Definition reservation_limits_default : ReservationLimits :=
  mkReservationLimits f64_one (from_secs 60).
