(* ===== verification/Storage.v ===== *)
(** * The limits and the counter storage they sit on: [storage/mod.rs]

    [Storage] keeps the configured limits of every namespace next to a counter
    storage behind the [CounterStorage] trait.  The trait is a class of
    operations; what its implementations promise each other and the rate
    limiter is the class [CounterStorageSpec] of [StorageSpec.v]. *)

From S2P Require Import Prelude Cel Errors Limit Counter Reservation.

(** ** [std::collections] as the storages use them *)

(** The iteration order of a [HashMap] or [HashSet] is arbitrary: a parameter. *)
Class HashOrder : Type := {
  hash_iter : forall {K A} `{Countable K}, gmap K A -> list (K * A);
  hash_iter_perm : forall {K A} `{Countable K} (m : gmap K A), hash_iter m ≡ₚ map_to_list m
}.

Definition demo_hash_order : HashOrder := {|
  hash_iter _ _ _ _ m := map_to_list m;
  hash_iter_perm _ _ _ _ m := reflexivity _
|}.

Inductive Authorization : Type :=
| AuthOk
| AuthLimited (name : option string).

(** [HashSet<Arc<Limit>>] and [HashSet<Counter>]: at most one element per key. *)
Abbreviation LimitSet := (gmap LimitKey Limit) (only parsing).
Abbreviation CounterSet := (gmap CounterKey Counter) (only parsing).

Section storage.
Context {CE : CelEngine} {HO : HashOrder}.

(** [HashSet::insert]: keeps the element already there and says whether the new one went in. *)
Definition set_insert {K A} `{Countable K} (key : A -> K) (x : A) (s : gmap K A) : bool * gmap K A :=
  match s !! key x with
  | Some _ => (false, s)
  | None => (true, <[key x := x]> s)
  end.

(** ** [trait CounterStorage] *)

Class CounterStorage (St : Type) : Type := {
  cs_is_within_limits : Counter -> Z -> M St StorageErr bool;
  cs_add_counter : Limit -> M St StorageErr unit;
  cs_update_counter : Counter -> Z -> M St StorageErr unit;
  cs_check : list Counter -> Z -> M St StorageErr (list Counter * Authorization);
  cs_check_and_update : list Counter -> Z -> M St StorageErr (list Counter * Authorization);
  cs_get_counters : LimitSet -> M St StorageErr CounterSet;
  cs_delete_counters : LimitSet -> M St StorageErr unit;
  cs_clear : M St StorageErr unit;
  cs_reserve : list Counter -> ReservationId -> Z -> Z -> Duration ->
               M St StorageErr (list Counter * Authorization);
  cs_release_reservation : list Counter -> ReservationId -> M St StorageErr bool
}.

(** The default bodies of the two reservation methods. *)
Definition reserve_default {St} (counters : list Counter) (id : ReservationId)
    (check_amount hold_amount : Z) (ttl : Duration)
    : M St StorageErr (list Counter * Authorization) :=
  throw (unsupported "reservations are not supported by this storage backend").

Definition release_reservation_default {St} (counters : list Counter) (id : ReservationId)
    : M St StorageErr bool :=
  throw (unsupported "reservations are not supported by this storage backend").

(** ** [struct Storage] *)

Record Storage (St : Type) : Type := mkStorage {
  st_limits : gmap string LimitSet;
  st_counters : St
}.
#[global] Arguments mkStorage {St} st_limits st_counters.
#[global] Arguments st_limits {St} s.
#[global] Arguments st_counters {St} s.

(** [Result::unwrap] *)
Definition unwrap {St E F A} (m : M St E A) : M St F A :=
  fun w => match m w with
           | (Ok a, w') => (Ok a, w')
           | (Err _, w') => (Panic "called `Result::unwrap()` on an `Err` value", w')
           | (Panic s, w') => (Panic s, w')
           end.

Context {St : Type} `{CS : !CounterStorage St}.

(** Runs an operation of the counter storage. *)
Definition on_counters {E A} (m : M St E A) : M (Storage St) E A :=
  zoom st_counters (fun c s => mkStorage (st_limits s) c) m.

Definition get_storage_limits {E} : M (Storage St) E (gmap string LimitSet) :=
  let* s := get in ret (st_limits s).

Definition put_storage_limits {E} (limits : gmap string LimitSet) : M (Storage St) E unit :=
  let* s := get in put (mkStorage limits (st_counters s)).

Definition with_counter_storage (counters : St) : Storage St := mkStorage ∅ counters.

Definition get_namespaces {E} : M (Storage St) E (gset string) :=
  let* limits := get_storage_limits in ret (dom limits).

Definition add_limit {E} (limit : Limit) : M (Storage St) E bool :=
  let ns := namespace limit in
  unwrap (on_counters (cs_add_counter limit)) ;;;
  let* limits := get_storage_limits in
  let '(inserted, s) := set_insert limit_key limit (default ∅ (limits !! ns)) in
  put_storage_limits (<[ns := s]> limits) ;;;
  ret inserted.

(** The condition [req_update] of [update_limit]. *)
Definition needs_update (limit upd : Limit) : bool :=
  negb (limit_max_value limit =? limit_max_value upd)
  || negb (bool_decide (limit_name limit = limit_name upd)).

Definition update_limit {E} (upd : Limit) : M (Storage St) E bool :=
  let* namespaces := get_storage_limits in
  match namespaces !! namespace upd with
  | Some limits =>
      let req_update := match limits !! limit_key upd with
                        | Some limit => needs_update limit upd
                        | None => false
                        end in
      if req_update then
        let limits := delete (limit_key upd) limits in
        let '(_, limits) := set_insert limit_key upd limits in
        put_storage_limits (<[namespace upd := limits]> namespaces) ;;;
        ret true
      else ret false
  | None => ret false
  end.

Definition get_limits {E} (ns : string) : M (Storage St) E LimitSet :=
  let* limits := get_storage_limits in ret (default ∅ (limits !! ns)).

(** The stored representative of [limit], or [limit] itself. *)
Definition stored_limit (limits : gmap string LimitSet) (limit : Limit) : Limit :=
  match limits !! namespace limit with
  | None => limit
  | Some s => default limit (List.find (fun l => limit_eq l limit) (hash_iter s).*2)
  end.

Definition delete_limit (limit : Limit) : M (Storage St) StorageErr unit :=
  let* limits := get_storage_limits in
  let arc := stored_limit limits limit in
  on_counters (cs_delete_counters {[limit_key arc := arc]}) ;;;
  let* limits := get_storage_limits in
  match limits !! namespace limit with
  | Some for_ns =>
      let for_ns := delete (limit_key limit) for_ns in
      put_storage_limits (if bool_decide (for_ns = ∅) then delete (namespace limit) limits
                          else <[namespace limit := for_ns]> limits)
  | None => ret tt
  end.

Definition delete_limits (ns : string) : M (Storage St) StorageErr unit :=
  let* limits := get_storage_limits in
  match limits !! ns with
  | Some data =>
      put_storage_limits (delete ns limits) ;;;
      on_counters (cs_delete_counters data)
  | None => ret tt
  end.

Definition is_within_limits (c : Counter) (delta : Z) : M (Storage St) StorageErr bool :=
  on_counters (cs_is_within_limits c delta).

Definition update_counter (c : Counter) (delta : Z) : M (Storage St) StorageErr unit :=
  on_counters (cs_update_counter c delta).

Definition check (cs : list Counter) (delta : Z)
    : M (Storage St) StorageErr (list Counter * Authorization) :=
  on_counters (cs_check cs delta).

Definition check_and_update (cs : list Counter) (delta : Z)
    : M (Storage St) StorageErr (list Counter * Authorization) :=
  on_counters (cs_check_and_update cs delta).

Definition get_counters (ns : string) : M (Storage St) StorageErr CounterSet :=
  let* limits := get_storage_limits in
  match limits !! ns with
  | Some limits => on_counters (cs_get_counters limits)
  | None => ret ∅
  end.

Definition reserve (cs : list Counter) (id : ReservationId) (check_amount hold_amount : Z)
    (ttl : Duration) : M (Storage St) StorageErr (list Counter * Authorization) :=
  on_counters (cs_reserve cs id check_amount hold_amount ttl).

Definition release_reservation (cs : list Counter) (id : ReservationId)
    : M (Storage St) StorageErr bool :=
  on_counters (cs_release_reservation cs id).

Definition clear : M (Storage St) StorageErr unit :=
  put_storage_limits ∅ ;;;
  on_counters cs_clear.

End storage.

(** ** Refinement: a [Storage] is one map from limit identities to limits *)

Section storage_spec.
Context {CE : CelEngine} {HO : HashOrder}.
Implicit Types (limits : gmap string LimitSet) (m : gmap LimitKey Limit) (l : Limit) (k : LimitKey).

Definition key_namespace (k : LimitKey) : string := k.1.1.1.

Lemma key_namespace_limit l : key_namespace (limit_key l) = namespace l.
Proof. done. Qed.

(** The stored limit with identity [k]. *)
Definition find_limit limits k : option Limit :=
  s ← limits !! key_namespace k; s !! k.

(** Every namespace kept has a limit, filed under its own key and namespace. *)
Definition storage_wf limits : Prop :=
  forall ns s, limits !! ns = Some s ->
    s <> ∅ /\ forall k l, s !! k = Some l -> limit_key l = k /\ namespace l = ns.

Definition refines limits m : Prop :=
  storage_wf limits /\ forall k, find_limit limits k = m !! k.

Inductive LimitOp : Type :=
| OpAdd (l : Limit)
| OpUpdate (l : Limit)
| OpDelete (l : Limit)
| OpDeleteNamespace (ns : string)
| OpClear
| OpGetLimits (ns : string)
| OpGetNamespaces.

(** What an operation returns: nothing, a flag, the limits or the namespaces. *)
Inductive OpResult : Type :=
| RUnit
| RFlag (b : bool)
| RLimits (ls : LimitSet)
| RNamespaces (nss : gset string).

(** The operations on the single map: the new map and what is returned. *)
Definition abs_step (op : LimitOp) m : gmap LimitKey Limit * OpResult :=
  match op with
  | OpAdd l =>
      match m !! limit_key l with
      | Some _ => (m, RFlag false)
      | None => (<[limit_key l := l]> m, RFlag true)
      end
  | OpUpdate l =>
      match m !! limit_key l with
      | Some old => if needs_update old l then (<[limit_key l := l]> m, RFlag true) else (m, RFlag false)
      | None => (m, RFlag false)
      end
  | OpDelete l => (delete (limit_key l) m, RUnit)
  | OpDeleteNamespace ns => (filter (fun kv => key_namespace kv.1 <> ns) m, RUnit)
  | OpClear => (∅, RUnit)
  | OpGetLimits ns => (m, RLimits (filter (fun kv => key_namespace kv.1 = ns) m))
  | OpGetNamespaces => (m, RNamespaces (set_map key_namespace (dom m)))
  end.

(** Operations one after the other. *)
Fixpoint abs_run (ops : list LimitOp) m : gmap LimitKey Limit * list OpResult :=
  match ops with
  | [] => (m, [])
  | op :: ops => let '(m, r) := abs_step op m in let '(m, rs) := abs_run ops m in (m, r :: rs)
  end.

(** The map left behind when the counter storage fails: [delete_limit] has not
    touched the limits yet, [delete_limits] and [clear] already have. *)
Definition abs_on_failure (op : LimitOp) m : gmap LimitKey Limit :=
  match op with
  | OpAdd _ | OpUpdate _ | OpDelete _ | OpGetLimits _ | OpGetNamespaces => m
  | OpDeleteNamespace ns => (abs_step (OpDeleteNamespace ns) m).1
  | OpClear => ∅
  end.

Definition run_op `{!CounterStorage St} (op : LimitOp) : M (Storage St) StorageErr OpResult :=
  match op with
  | OpAdd l => let* b := add_limit l in ret (RFlag b)
  | OpUpdate l => let* b := update_limit l in ret (RFlag b)
  | OpDelete l => delete_limit l ;;; ret RUnit
  | OpDeleteNamespace ns => delete_limits ns ;;; ret RUnit
  | OpClear => clear ;;; ret RUnit
  | OpGetLimits ns => let* ls := get_limits ns in ret (RLimits ls)
  | OpGetNamespaces => let* nss := get_namespaces in ret (RNamespaces nss)
  end.

Lemma find_limit_insert limits ns s k :
  find_limit (<[ns := s]> limits) k = if decide (key_namespace k = ns) then s !! k
                                      else find_limit limits k.
Proof. unfold find_limit. destruct (decide (key_namespace k = ns)) as [->|]; by simplify_map_eq. Qed.

Lemma find_limit_delete limits ns k :
  find_limit (delete ns limits) k = if decide (key_namespace k = ns) then None
                                    else find_limit limits k.
Proof. unfold find_limit. destruct (decide (key_namespace k = ns)) as [->|]; by simplify_map_eq. Qed.

Lemma find_limit_ns limits k s :
  limits !! key_namespace k = Some s -> find_limit limits k = s !! k.
Proof. unfold find_limit. by intros ->. Qed.

Lemma storage_wf_insert limits ns (s : LimitSet) :
  storage_wf limits -> s <> ∅ ->
  (forall k l, s !! k = Some l -> limit_key l = k /\ namespace l = ns) ->
  storage_wf (<[ns := s]> limits).
Proof.
  intros Hwf Hne Hs ns' s'. destruct (decide (ns = ns')) as [<-|]; simplify_map_eq; [|by apply Hwf].
  by intros [= <-].
Qed.

Lemma storage_wf_delete limits ns : storage_wf limits -> storage_wf (delete ns limits).
Proof. intros Hwf ns' s'. rewrite lookup_delete_Some. intros [_ ?]. by apply Hwf. Qed.

(** Filing a limit under its key, and removing it with its namespace if it was the last. *)
Lemma storage_wf_file limits l :
  storage_wf limits ->
  storage_wf (<[namespace l := <[limit_key l := l]> (default ∅ (limits !! namespace l))]> limits).
Proof.
  intros Hwf. apply storage_wf_insert; [done|apply insert_non_empty|].
  intros k x. rewrite lookup_insert_Some. intros [[<- <-]|[Hne Hx]]; [done|].
  destruct (limits !! namespace l) as [s|] eqn:Hs; simpl in Hx; [|by rewrite lookup_empty in Hx].
  by eapply Hwf.
Qed.

Lemma storage_wf_remove limits l s :
  storage_wf limits -> limits !! namespace l = Some s ->
  storage_wf (if bool_decide (delete (limit_key l) s = ∅) then delete (namespace l) limits
              else <[namespace l := delete (limit_key l) s]> limits).
Proof.
  intros Hwf Hs. case_bool_decide; [by apply storage_wf_delete|].
  apply storage_wf_insert; [done..|]. intros k x [_ ?]%lookup_delete_Some. by eapply Hwf.
Qed.

(** Filing [l] under its key keeps the refinement. *)
Lemma refines_insert limits m l :
  refines limits m ->
  refines (<[namespace l := <[limit_key l := l]> (default ∅ (limits !! namespace l))]> limits)
          (<[limit_key l := l]> m).
Proof.
  intros [Hwf Hm]. split; [by apply storage_wf_file|].
  intros k. rewrite find_limit_insert. destruct (decide (limit_key l = k)) as [<-|Hne].
  - rewrite key_namespace_limit, decide_True by done. by simplify_map_eq.
  - rewrite (lookup_insert_ne m), <-Hm by done.
    destruct (decide _) as [Hns|]; [|done]. rewrite lookup_insert_ne by done.
    unfold find_limit. rewrite Hns. by destruct (limits !! namespace l).
Qed.

Lemma refines_lookup limits m l s :
  refines limits m -> limits !! namespace l = Some s -> s !! limit_key l = m !! limit_key l.
Proof. intros [_ Hm] Hs. rewrite <-Hm. symmetry. by apply find_limit_ns. Qed.

Lemma refines_lookup_none limits m l :
  refines limits m -> limits !! namespace l = None -> m !! limit_key l = None.
Proof. intros [_ Hm] Hs. rewrite <-Hm. unfold find_limit. by rewrite key_namespace_limit, Hs. Qed.

(** Removing [l], and its namespace with the last limit. *)
Lemma refines_delete limits m l s :
  refines limits m -> limits !! namespace l = Some s ->
  refines (if bool_decide (delete (limit_key l) s = ∅) then delete (namespace l) limits
           else <[namespace l := delete (limit_key l) s]> limits)
          (delete (limit_key l) m).
Proof.
  intros [Hwf Hm] Hs.
  assert (Hfind : forall k, key_namespace k = namespace l -> m !! k = s !! k).
  { intros k Hk. rewrite <-Hm. apply find_limit_ns. by rewrite Hk. }
  split; [by apply storage_wf_remove|]. case_bool_decide as He; intros k.
  - rewrite find_limit_delete. destruct (decide (key_namespace k = namespace l)) as [Hk|Hk].
    + destruct (decide (limit_key l = k)) as [<-|Hne]; simplify_map_eq; [done|].
      rewrite Hfind by done. rewrite <-(lookup_delete_ne s (limit_key l)), He by done. done.
    + rewrite lookup_delete_ne; [done|]. intros <-. done.
  - rewrite find_limit_insert. destruct (decide (key_namespace k = namespace l)) as [Hk|Hk].
    + destruct (decide (limit_key l = k)) as [<-|Hne]; simplify_map_eq; [done|].
      by rewrite Hfind.
    + rewrite lookup_delete_ne; [done|]. intros <-. done.
Qed.

Lemma refines_delete_ns limits m ns :
  refines limits m ->
  refines (delete ns limits) (filter (fun kv => key_namespace kv.1 <> ns) m).
Proof.
  intros [Hwf Hm]. split; [by apply storage_wf_delete|].
  intros k. rewrite find_limit_delete, map_lookup_filter, <-Hm.
  destruct (decide (key_namespace k = ns)); destruct (find_limit limits k); simpl; try done.
  - by rewrite option_guard_False by tauto.
  - by rewrite option_guard_True by tauto.
Qed.

Lemma refines_absent limits m ns :
  refines limits m -> limits !! ns = None -> filter (fun kv => key_namespace kv.1 <> ns) m = m.
Proof.
  intros [_ Hm] Hns. apply map_filter_id. intros k x Hk Heq. rewrite <-Hm in Hk.
  unfold find_limit in Hk. simpl in Heq. by rewrite Heq, Hns in Hk.
Qed.

Lemma refines_empty : refines ∅ ∅.
Proof. split; [by intros ?? ?|]. intros k. unfold find_limit. by rewrite !lookup_empty. Qed.

Lemma set_insert_after_delete l (s : LimitSet) :
  (set_insert limit_key l (delete (limit_key l) s)) = (true, <[limit_key l := l]> s).
Proof.
  unfold set_insert. rewrite lookup_delete_eq. by rewrite insert_delete_eq.
Qed.

(** [delete_limit] hands the counter storage the stored representative of the
    limit, or the argument itself: in both cases the limit's identity. *)
Lemma stored_limit_key limits l :
  storage_wf limits -> limit_key (stored_limit limits l) = limit_key l.
Proof.
  intros Hwf. unfold stored_limit. destruct (limits !! namespace l) as [s|]; [|done].
  destruct (List.find _ _) as [x|] eqn:Hx; [|done].
  apply List.find_some in Hx as [_ Hx]. by apply limit_eq_key.
Qed.

Context {St : Type} `{CS : !CounterStorage St}.
Implicit Types w : World (Storage St).

Lemma add_limit_run {E} l w :
  add_limit (E := E) l w =
    match unwrap (F := E) (on_counters (cs_add_counter l)) w with
    | (Ok _, w') =>
        let limits := st_limits (w_state w') in
        let '(ins, s) := set_insert limit_key l (default ∅ (limits !! namespace l)) in
        (Ok ins, mkWorld (mkStorage (<[namespace l := s]> limits) (st_counters (w_state w')))
                   (w_clock w') (w_tick w'))
    | (Err e, w') => (Err e, w')
    | (Panic s, w') => (Panic s, w')
    end.
Proof.
  unfold add_limit, bind. destruct (unwrap _ w) as [[|e|s] w']; [|done..].
  unfold get_storage_limits, put_storage_limits, bind, get, ret, put. simpl.
  by destruct (set_insert limit_key l _).
Qed.

Lemma wp_get_limits {E} (Q : Outcome E (gmap string LimitSet) -> World (Storage St) -> Prop) w :
  Q (Ok (st_limits (w_state w))) w -> wp get_storage_limits Q w.
Proof. done. Qed.

Lemma on_counters_limits {E A} (m : M St E A) w :
  st_limits (w_state (on_counters m w).2) = st_limits (w_state w).
Proof. unfold on_counters, zoom. by destruct (m _) as [o w']. Qed.

Lemma unwrap_on_counters_limits {E F A} (m : M St E A) w :
  st_limits (w_state (unwrap (F := F) (on_counters m) w).2) = st_limits (w_state w).
Proof.
  unfold unwrap. pose proof (on_counters_limits m w) as Hl.
  destruct (on_counters m w) as [[] w']; done.
Qed.

Lemma add_limit_refines {E} l w m :
  refines (st_limits (w_state w)) m ->
  wp (add_limit (E := E) l)
     (fun o w' => match o with
                  | Ok r => refines (st_limits (w_state w')) (abs_step (OpAdd l) m).1 /\
                            RFlag r = (abs_step (OpAdd l) m).2
                  | _ => refines (st_limits (w_state w')) m
                  end) w.
Proof.
  intros Hr. unfold wp. rewrite add_limit_run.
  pose proof (unwrap_on_counters_limits (F := E) (cs_add_counter l) w) as Hl.
  destruct (unwrap _ w) as [[[]|e|s] w']; simpl in *; rewrite Hl; [|done..].
  set (limits := st_limits (w_state w)) in *.
  destruct (limits !! namespace l) as [s|] eqn:Hs; simpl.
  - unfold set_insert. rewrite (refines_lookup _ _ _ _ Hr Hs).
    destruct (m !! limit_key l) as [x|] eqn:Hx; simpl.
    + by rewrite insert_id.
    + split; [|done]. pose proof (refines_insert _ _ l Hr) as Hi. by rewrite Hs in Hi.
  - rewrite (refines_lookup_none _ _ _ Hr Hs). split; [|done].
    pose proof (refines_insert _ _ l Hr) as Hi. by rewrite Hs in Hi.
Qed.

Lemma update_limit_refines {E} l w m :
  refines (st_limits (w_state w)) m ->
  wp (update_limit (E := E) l)
     (fun o w' => exists r, o = Ok r /\ refines (st_limits (w_state w')) (abs_step (OpUpdate l) m).1 /\
                            RFlag r = (abs_step (OpUpdate l) m).2) w.
Proof.
  intros Hr. unfold wp, update_limit, get_storage_limits, put_storage_limits, bind, get, ret, put.
  simpl. destruct (st_limits (w_state w) !! namespace l) as [s|] eqn:Hs; simpl.
  - rewrite (refines_lookup _ _ _ _ Hr Hs).
    destruct (m !! limit_key l) as [x|] eqn:Hx; simpl; [|by eexists].
    destruct (needs_update x l); simpl; [|by eexists]. rewrite set_insert_after_delete. simpl.
    eexists. split_and!; [done| |done].
    pose proof (refines_insert _ _ l Hr) as Hi. by rewrite Hs in Hi.
  - rewrite (refines_lookup_none _ _ _ Hr Hs). by eexists.
Qed.

Lemma delete_limit_refines l w m :
  refines (st_limits (w_state w)) m ->
  wp (delete_limit l)
     (fun o w' => refines (st_limits (w_state w'))
                    (match o with Ok _ => (abs_step (OpDelete l) m).1 | _ => m end)) w.
Proof.
  intros Hr. unfold delete_limit. apply wp_bind, wp_get_limits.
  apply wp_bind. unfold wp at 1.
  match goal with |- context [on_counters ?f w] => pose proof (on_counters_limits f w) as Hl;
    destruct (on_counters f w) as [[[]|e|s] w'] end; simpl in *; rewrite ?Hl; [|done..].
  unfold wp, get_storage_limits, put_storage_limits, bind, get, put, ret. simpl. rewrite Hl.
  destruct (st_limits (w_state w) !! namespace l) as [s|] eqn:Hs; simpl.
  - by apply refines_delete.
  - rewrite delete_id by (by apply (refines_lookup_none _ _ _ Hr Hs)). by rewrite Hl.
Qed.

Lemma delete_limits_refines ns w m :
  refines (st_limits (w_state w)) m ->
  wp (delete_limits ns)
     (fun _ w' => refines (st_limits (w_state w')) (abs_step (OpDeleteNamespace ns) m).1) w.
Proof.
  intros Hr. unfold delete_limits. apply wp_bind, wp_get_limits.
  destruct (st_limits (w_state w) !! ns) as [s|] eqn:Hs.
  - unfold wp. rewrite bind_ok with (a := tt)
      (w' := mkWorld (mkStorage (delete ns (st_limits (w_state w))) (st_counters (w_state w)))
               (w_clock w) (w_tick w)) by done.
    rewrite on_counters_limits. by apply refines_delete_ns.
  - unfold wp, ret. simpl. by rewrite (refines_absent _ _ _ Hr Hs).
Qed.

(** Listing: the limits of one namespace, and the namespaces that have limits. *)
Lemma refines_listed limits m ns :
  refines limits m -> default ∅ (limits !! ns) = filter (fun kv => key_namespace kv.1 = ns) m.
Proof.
  intros [Hwf Hm]. apply map_eq. intros k. rewrite map_lookup_filter, <-Hm. unfold find_limit.
  destruct (decide (key_namespace k = ns)) as [<-|Hne].
  - destruct (limits !! key_namespace k) as [s|]; simpl; [|by rewrite lookup_empty].
    destruct (s !! k); simpl; [|done]. by rewrite option_guard_True.
  - assert (Hk : default ∅ (limits !! ns) !! k = None).
    { destruct (limits !! ns) as [s|] eqn:Hs; simpl; [|done]. destruct (s !! k) as [l|] eqn:Hl; [|done].
      destruct (proj2 (Hwf _ _ Hs) k l Hl) as [<- <-]. by destruct Hne. }
    rewrite Hk. destruct (limits !! key_namespace k) as [s|]; simpl; [|done]. destruct (s !! k); simpl; [|done].
    by rewrite option_guard_False.
Qed.

Lemma refines_namespaces limits m : refines limits m -> dom limits = set_map key_namespace (dom m).
Proof.
  intros [Hwf Hm]. apply set_eq. intros ns. rewrite elem_of_map, elem_of_dom. split.
  - intros [s Hs]. destruct (Hwf ns s Hs) as [Hne Hin]. destruct (map_choose s Hne) as (k & l & Hk).
    destruct (Hin k l Hk) as [<- <-]. exists (limit_key l). split; [done|]. apply elem_of_dom. exists l.
    rewrite <-Hm. by rewrite (find_limit_ns _ _ s).
  - intros (k & -> & [l Hl]%elem_of_dom). rewrite <-Hm in Hl. unfold find_limit in Hl.
    destruct (limits !! key_namespace k) as [s|]; [by eexists|done].
Qed.

Lemma run_op_refines (op : LimitOp) w m :
  refines (st_limits (w_state w)) m ->
  match run_op op w with
  | (Ok r, w') => refines (st_limits (w_state w')) (abs_step op m).1 /\ r = (abs_step op m).2
  | (_, w') => refines (st_limits (w_state w')) (abs_on_failure op m)
  end.
Proof.
  intros Hr. destruct op as [l|l|l|ns| |ns|]; simpl run_op.
  - pose proof (add_limit_refines (E := StorageErr) l w m Hr) as Hw. unfold wp, bind in *.
    by destruct (add_limit l w) as [[] w'].
  - pose proof (update_limit_refines (E := StorageErr) l w m Hr) as Hw. unfold wp, bind in *.
    destruct (update_limit l w) as [[] w']; destruct Hw as (? & [=] & ? & ?). by subst.
  - pose proof (delete_limit_refines l w m Hr) as Hw. unfold wp, bind in *.
    by destruct (delete_limit l w) as [[] w'].
  - pose proof (delete_limits_refines ns w m Hr) as Hw. unfold wp, bind in *.
    by destruct (delete_limits ns w) as [[] w'].
  - pose proof (on_counters_limits cs_clear
      (mkWorld (mkStorage ∅ (st_counters (w_state w))) (w_clock w) (w_tick w))) as Hl.
    unfold bind, clear, put_storage_limits. simpl. unfold bind. simpl.
    destruct (on_counters cs_clear _) as [[] w']; simpl in *; rewrite Hl;
      [split; [|done]|..]; apply refines_empty.
  - simpl. split; [done|]. by rewrite (refines_listed _ m).
  - simpl. split; [done|]. by rewrite (refines_namespaces _ m).
Qed.

(** C15: the limits of a [Storage] behave as one map from limit identities to limits
    under every sequence of [add_limit], [update_limit], [delete_limit],
    [delete_limits], [clear], [get_limits] and [get_namespaces], on any counter
    storage: adding never overwrites, updating never adds and reports exactly the
    changes of [max_value] or [name], the limits of a namespace are those of the map
    with that namespace, and the namespaces are those that have limits.  A sequence
    that the counter storage makes fail stops there and leaves the map in the state
    the failing operation's order of steps implies. *)
Theorem storage_refines_map (ops : list LimitOp) w m :
  refines (st_limits (w_state w)) m ->
  match mapM run_op ops w with
  | (Ok rs, w') => refines (st_limits (w_state w')) (abs_run ops m).1 /\ rs = (abs_run ops m).2
  | (_, w') => exists done op rest, ops = done ++ op :: rest /\
                 refines (st_limits (w_state w')) (abs_on_failure op (abs_run done m).1)
  end.
Proof.
  revert w m. induction ops as [|op ops IH]; intros w m Hr; [done|]. cbn [mapM abs_run]. unfold bind at 1.
  pose proof (run_op_refines op w m Hr) as Hop.
  destruct (run_op op w) as [[r|e|msg] w1]; [|by exists [], op, ops..].
  destruct (abs_step op m) as [m1 r1] eqn:Hstep. destruct Hop as [Hr1 ->]. specialize (IH w1 m1 Hr1). unfold bind.
  destruct (mapM run_op ops w1) as [[rs|e|msg] w2].
  - destruct (abs_run ops m1) as [m2 rs2]. destruct IH as [? ->]. done.
  - destruct IH as (done & op' & rest & -> & IH). exists (op :: done), op', rest. split; [done|].
    cbn [abs_run]. rewrite Hstep. by destruct (abs_run done m1).
  - destruct IH as (done & op' & rest & -> & IH). exists (op :: done), op', rest. split; [done|].
    cbn [abs_run]. rewrite Hstep. by destruct (abs_run done m1).
Qed.
End storage_spec.
