(* ===== verification/Moka.v ===== *)
(** * The [moka] cache, as the storages use it

    A size-bounded concurrent cache keyed by counters: an entry may be dropped
    at any insertion, the new one included, and nothing else ever changes an
    entry.  A cached value is an [Arc]: the cells the [Arc]s point to live in a
    heap, so that a handle keeps working after its entry is evicted. *)

From S2P Require Import Prelude Cel Errors Limit Counter.

(** Caches with values in [V]; every entry also holds the counter it was
    inserted under, which iteration returns. *)
Class MokaCache `{CelEngine} : Type := {
  moka : Type -> Type;
  moka_new : forall {V}, Z -> moka V;
  moka_get : forall {V}, moka V -> CounterKey -> option (Counter * V);
  moka_insert : forall {V}, moka V -> Counter -> V -> moka V;
  moka_invalidate : forall {V}, moka V -> CounterKey -> moka V;
  (** [invalidate_entries_if]: [None] is the error [InvalidationClosuresDisabled] *)
  moka_invalidate_entries_if : forall {V}, moka V -> (Counter -> V -> bool) -> option (moka V);
  moka_iter : forall {V}, moka V -> list (Counter * V)
}.

(** What the documentation of the crate promises of any cache. *)
Class MokaLaws `{MC : MokaCache} : Prop := {
  moka_get_new : forall V n k, moka_get (@moka_new _ _ V n) k = None;
  moka_get_key : forall V (c : moka V) k x v, moka_get c k = Some (x, v) -> counter_key x = k;
  moka_insert_self : forall V (c : moka V) x v,
    moka_get (moka_insert c x v) (counter_key x) = None \/
    exists x', moka_get (moka_insert c x v) (counter_key x) = Some (x', v);
  moka_insert_other : forall V (c : moka V) x v k, k <> counter_key x ->
    moka_get (moka_insert c x v) k = None \/ moka_get (moka_insert c x v) k = moka_get c k;
  moka_invalidate_self : forall V (c : moka V) k, moka_get (moka_invalidate c k) k = None;
  moka_invalidate_other : forall V (c : moka V) k k', k' <> k ->
    moka_get (moka_invalidate c k) k' = moka_get c k';
  moka_invalidate_if_spec : forall V (c c' : moka V) p k,
    moka_invalidate_entries_if c p = Some c' ->
    moka_get c' k = match moka_get c k with
                    | Some (x, v) => if p x v then None else Some (x, v)
                    | None => None
                    end;
  moka_iter_spec : forall V (c : moka V) x v,
    (x, v) ∈ moka_iter c <-> moka_get c (counter_key x) = Some (x, v)
}.

(** A cache below its capacity: an inserted entry is kept and evicts no other.  The real
    caches are bounded by [max_capacity] and evict.  This is assumed by the theorems that
    say what values counters have after a call, of the in-memory storage and of the cached
    Redis one (those of [InMemorySpec.v], [RedisCachedSpec.v] and [RedisFlush.v], and the
    registry's of holds after a reservation); well-formedness does not depend on it:
    [ServerNode.v] has evictions as events of their own. *)
Class MokaRoomy `{MC : MokaCache} : Prop := {
  moka_roomy_self : forall V (c : moka V) x v,
    exists x', moka_get (moka_insert c x v) (counter_key x) = Some (x', v);
  moka_roomy_other : forall V (c : moka V) x v k, k <> counter_key x ->
    moka_get (moka_insert c x v) k = moka_get c k
}.

Section get_with.
Context `{MokaCache}.

(** [get_with] and [get_with_by_ref]: the cached value, or [init] after inserting it. *)
Definition moka_get_with {V} (c : moka V) (x : Counter) (init : V) : V * moka V :=
  match moka_get c (counter_key x) with
  | Some (_, v) => (v, c)
  | None => (init, moka_insert c x init)
  end.
End get_with.

(** ** An instance that never evicts *)

Section gmap_moka.
Context `{CelEngine}.

Definition gmap_moka_insert {V} (c : gmap CounterKey (Counter * V)) (x : Counter) (v : V)
    : gmap CounterKey (Counter * V) :=
  <[counter_key x := (x, v)]> c.

Definition gmap_moka_get {V} (c : gmap CounterKey (Counter * V)) (k : CounterKey)
    : option (Counter * V) :=
  match c !! k with
  | Some (x, v) => if bool_decide (counter_key x = k) then Some (x, v) else None
  | None => None
  end.

Definition gmap_moka : MokaCache := {|
  moka V := gmap CounterKey (Counter * V);
  moka_new _ _ := ∅;
  moka_get _ c k := gmap_moka_get c k;
  moka_insert _ c x v := gmap_moka_insert c x v;
  moka_invalidate _ c k := delete k c;
  moka_invalidate_entries_if _ c p := Some (filter (fun kv => p kv.2.1 kv.2.2 = false) c);
  moka_iter _ c := omap (gmap_moka_get c) ((map_to_list c).*1)
|}.
#[local] Existing Instance gmap_moka.

Lemma gmap_moka_get_Some {V} (c : gmap CounterKey (Counter * V)) k x v :
  gmap_moka_get c k = Some (x, v) <-> c !! k = Some (x, v) /\ counter_key x = k.
Proof.
  unfold gmap_moka_get. destruct (c !! k) as [[x' v']|]; [|naive_solver].
  case_bool_decide; naive_solver.
Qed.

Lemma gmap_moka_laws : MokaLaws.
Proof.
  split; simpl; intros V.
  - intros _ k. unfold gmap_moka_get. by rewrite lookup_empty.
  - intros c k x v. rewrite gmap_moka_get_Some. tauto.
  - intros c x v. right. exists x. apply gmap_moka_get_Some. split; [|done]. apply lookup_insert_eq.
  - intros c x v k Hk. right. unfold gmap_moka_get, gmap_moka_insert. by rewrite lookup_insert_ne.
  - intros c k. unfold gmap_moka_get. by rewrite lookup_delete_eq.
  - intros c k k' Hk. unfold gmap_moka_get. by rewrite lookup_delete_ne.
  - intros c c' p k [= <-]. unfold gmap_moka_get. rewrite map_lookup_filter.
    destruct (c !! k) as [[x v]|]; simpl; [|done].
    destruct (p x v) eqn:Hp; [rewrite option_guard_False by (simpl; congruence)|
                              rewrite option_guard_True by done]; simpl; case_bool_decide; by rewrite ?Hp.
  - intros c x v. rewrite list_elem_of_omap. split.
    + intros (k & _ & Hk). assert (counter_key x = k) as -> by (by apply gmap_moka_get_Some in Hk as [_ ?]). done.
    + intros Hk. exists (counter_key x). split; [|done].
      apply gmap_moka_get_Some in Hk as [Hk _].
      apply list_elem_of_fmap. exists (counter_key x, (x, v)). split; [done|]. by apply elem_of_map_to_list.
Qed.

Lemma gmap_moka_roomy : MokaRoomy.
Proof.
  split; simpl; intros V c x v.
  - exists x. apply gmap_moka_get_Some. split; [|done]. apply lookup_insert_eq.
  - intros k Hk. unfold gmap_moka_get, gmap_moka_insert. by rewrite lookup_insert_ne.
Qed.
End gmap_moka.
