(* ===== verification/LocalReservations.v ===== *)
(** * The in-process reservation registry: [storage/local_reservations.rs]

    Every counter's cache entry points ([Arc<RwLock<..>>]) to the list of its
    outstanding reservations.  [admission_lock] makes [reserve] and [release]
    atomic, so each is one step of this model. *)

From S2P Require Import Prelude Cel Errors Limit Counter Reservation Storage Moka.

Record CounterReservations : Type := mkReservations {
  window_ttl : Duration;
  entries : list ReservationEntry
}.

Record ReservationRequest : Type := mkRequest {
  req_reservation_id : ReservationId;
  check_amount : Z;
  hold_amount : Z;
  req_ttl : Duration;
  req_now : SystemTime
}.

Section registry.
Context {CE : CelEngine} {MC : MokaCache}.

(** The cache maps to locations of [reg_heap]; a location is never reused. *)
Record LocalReservationRegistry : Type := mkRegistry {
  reg_cache : moka nat;
  reg_heap : list CounterReservations
}.

(** [ReservationExpiry]: how long an entry just created or updated may stay cached. *)
Definition expire_after (value : CounterReservations) : option Duration := Some (window_ttl value).

Definition registry_new (max_size : Z) : LocalReservationRegistry :=
  mkRegistry (moka_new max_size) [].

(** The reservations the cache holds for a counter. *)
Definition entries_of (self : LocalReservationRegistry) (k : CounterKey) : list ReservationEntry :=
  match moka_get (reg_cache self) k with
  | Some (_, loc) => default [] (entries <$> reg_heap self !! loc)
  | None => []
  end.

(** [iter().filter(is_live_at).map(amount).sum()]; [sum] wraps in a release build. *)
Definition sum_live (es : list ReservationEntry) (now : SystemTime) : Z :=
  foldl u64_add 0 (amount <$> filter (fun e => is_live_at e now = true) es).

Definition outstanding (self : LocalReservationRegistry) (c : Counter) (now : SystemTime) : Z :=
  sum_live (entries_of self (counter_key c)) now.

(** First loop of [reserve]: the outstanding amounts and the first counter over its limit. *)
Fixpoint reserve_scan (self : LocalReservationRegistry) (now : SystemTime) (amt : Z)
    (first_limited : option (option string)) (cvs : list (Counter * (Z * Duration)))
    : list Z * option (option string) :=
  match cvs with
  | [] => ([], first_limited)
  | (c, (value, _)) :: cvs =>
      let o := outstanding self c now in
      let total := u64_add (u64_add value o) amt in
      let first_limited :=
        match first_limited with
        | None => if total >? max_value c then Some (limit_name (ctr_limit c)) else None
        | Some n => Some n
        end in
      let '(os, fl) := reserve_scan self now amt first_limited cvs in
      (o :: os, fl)
  end.

(** Body of the second loop: one counter's annotation and its reservation's expiry. *)
Definition reserve_annotate {E} (now : SystemTime) (ttl : Duration) (granted_hold : Z)
    (c : Counter) (value : Z) (wttl : Duration) (o : Z) : Outcome E (Counter * SystemTime) :=
  let? t1 := systime_add now ttl in
  let? t2 := systime_add now wttl in
  let remaining := u64_checked_sub (max_value c) (u64_add (u64_add value o) granted_hold) in
  Ok (set_expires_in (set_remaining c (default 0 remaining)) wttl, Z.min t1 t2).

Fixpoint reserve_annotate_loop {E} (now : SystemTime) (ttl : Duration) (granted_hold : Z)
    (cvs : list (Counter * (Z * Duration))) (os : list Z)
    : Outcome E (list Counter * list SystemTime) :=
  match cvs, os with
  | (c, (value, wttl)) :: cvs, o :: os =>
      let? ce := reserve_annotate now ttl granted_hold c value wttl o in
      let? rest := reserve_annotate_loop now ttl granted_hold cvs os in
      Ok (ce.1 :: rest.1, ce.2 :: rest.2)
  | _, _ => Ok ([], [])
  end.

(** Body of the last loop: stores one hold through the counter's [Arc]. *)
Definition write_hold (self : LocalReservationRegistry) (now : SystemTime)
    (c : Counter) (wttl : Duration) (e : ReservationEntry) : LocalReservationRegistry :=
  let '(loc, self) :=
    match moka_get (reg_cache self) (counter_key c) with
    | Some (_, loc) => (loc, self)
    | None =>
        let loc := length (reg_heap self) in
        (loc, mkRegistry (moka_insert (reg_cache self) c loc)
                (reg_heap self ++ [mkReservations wttl []]))
    end in
  let guard := default (mkReservations wttl []) (reg_heap self !! loc) in
  let guard := mkReservations wttl
                 (filter (fun e => is_live_at e now = true) (entries guard) ++ [e]) in
  mkRegistry (moka_insert (reg_cache self) c loc) (<[loc := guard]> (reg_heap self)).

Fixpoint write_holds (self : LocalReservationRegistry) (req : ReservationRequest)
    (cvs : list (Counter * (Z * Duration))) (exps : list SystemTime) : LocalReservationRegistry :=
  match cvs, exps with
  | (c, (_, wttl)) :: cvs, e :: exps =>
      let entry := mkEntry (req_reservation_id req) (hold_amount req) e in
      write_holds (write_hold self (req_now req) c wttl entry) req cvs exps
  | _, _ => self
  end.

(** The annotated counters, the decision and the registry afterwards. *)
Definition reserve {E} (self : LocalReservationRegistry) (counters : list Counter)
    (values_and_window_ttls : list (Z * Duration)) (req : ReservationRequest)
    : Outcome E (list Counter * Authorization * LocalReservationRegistry) :=
  let now := req_now req in
  let cvs := zip counters values_and_window_ttls in
  let '(os, first_limited) := reserve_scan self now (check_amount req) None cvs in
  let granted_hold := match first_limited with None => hold_amount req | Some _ => 0 end in
  let? ann := reserve_annotate_loop now (req_ttl req) granted_hold cvs os in
  let '(annotated, exps) := (ann : list Counter * list SystemTime) in
  let counters := annotated ++ drop (length cvs) counters in
  match first_limited with
  | Some name => Ok (counters, AuthLimited name, self)
  | None =>
      if hold_amount req =? 0 then Ok (counters, AuthOk, self)
      else
        Ok (counters, AuthOk,
            write_holds self req (zip counters values_and_window_ttls) exps)
  end.

(** One iteration of [release]. *)
Definition release_one (self : LocalReservationRegistry) (c : Counter) (id : ReservationId)
    : bool * LocalReservationRegistry :=
  match moka_get (reg_cache self) (counter_key c) with
  | None => (false, self)
  | Some (_, loc) =>
      let guard := default (mkReservations 0 []) (reg_heap self !! loc) in
      let kept := filter (fun e => reservation_id e <> id) (entries guard) in
      let released := negb (Nat.eqb (length kept) (length (entries guard))) in
      let heap := <[loc := mkReservations (window_ttl guard) kept]> (reg_heap self) in
      (released,
       mkRegistry (if bool_decide (kept = []) then moka_invalidate (reg_cache self) (counter_key c)
                   else reg_cache self) heap)
  end.

Fixpoint release (self : LocalReservationRegistry) (counters : list Counter) (id : ReservationId)
    : bool * LocalReservationRegistry :=
  match counters with
  | [] => (false, self)
  | c :: counters =>
      let '(r, self) := release_one self c id in
      let '(rs, self) := release self counters id in
      (r || rs, self)
  end.

End registry.

(** ** The registry's invariant *)

Section registry_wf.
Context {CE : CelEngine} {MC : MokaCache} {ML : MokaLaws}.
Implicit Types (r : LocalReservationRegistry) (k : CounterKey).

Definition loc_of r k : option nat := snd <$> moka_get (reg_cache r) k.

(** Cached locations exist, and no two counters share one. *)
Definition registry_wf r : Prop :=
  (forall k loc, loc_of r k = Some loc -> (loc < length (reg_heap r))%nat) /\
  (forall k1 k2 loc, loc_of r k1 = Some loc -> loc_of r k2 = Some loc -> k1 = k2).

Lemma entries_of_loc r k :
  entries_of r k = match loc_of r k with
                   | Some loc => default [] (entries <$> reg_heap r !! loc)
                   | None => []
                   end.
Proof. unfold entries_of, loc_of. by destruct (moka_get _ k) as [[]|]. Qed.

(** A cache whose entries are those of another, some possibly gone or all
    mapped alike. *)
Lemma registry_wf_sub r cache heap :
  registry_wf r -> length heap = length (reg_heap r) ->
  (forall k loc, loc_of (mkRegistry cache heap) k = Some loc -> loc_of r k = Some loc) ->
  registry_wf (mkRegistry cache heap).
Proof.
  intros [Hlt Hinj] Hlen Hsub. split; simpl.
  - intros k loc Hk. rewrite Hlen. eauto.
  - intros k1 k2 loc H1 H2. eauto.
Qed.

Lemma loc_of_insert cache heap (c : Counter) loc k loc' :
  loc_of (mkRegistry (moka_insert cache c loc) heap) k = Some loc' ->
  (k = counter_key c /\ loc' = loc) \/ (k <> counter_key c /\ loc_of (mkRegistry cache heap) k = Some loc').
Proof.
  unfold loc_of. simpl. destruct (decide (k = counter_key c)) as [->|Hk].
  - destruct (moka_insert_self _ cache c loc) as [->|[x' ->]]; [done|]. intros [= <-]. by left.
  - destruct (moka_insert_other _ cache c loc k Hk) as [->| ->]; [done|]. by right.
Qed.

Lemma write_hold_wf r now c wttl e : registry_wf r -> registry_wf (write_hold r now c wttl e).
Proof.
  intros Hwf. unfold write_hold. destruct (moka_get (reg_cache r) (counter_key c)) as [[x loc]|] eqn:Hc.
  - apply (registry_wf_sub r); [done|by rewrite length_insert|].
    intros k loc' [[-> ->]|[_ Hk]]%loc_of_insert; [|done]. unfold loc_of. by rewrite Hc.
  - destruct Hwf as [Hlt Hinj]. set (loc := length (reg_heap r)). split; simpl.
    + intros k loc'. rewrite length_insert, length_app. simpl.
      intros [[-> ->]|[_ [[-> ->]|[_ Hk]]%loc_of_insert]]%loc_of_insert; [lia..|].
      apply Hlt in Hk. lia.
    + intros k1 k2 loc' [[-> ->]|[Hn1 [[-> ->]|[_ H1]]%loc_of_insert]]%loc_of_insert
        [[-> E2]|[Hn2 [[-> E2]|[_ H2]]%loc_of_insert]]%loc_of_insert; try done.
      * apply Hlt in H2. lia.
      * apply Hlt in H1. lia.
      * by eapply Hinj.
Qed.

Lemma write_holds_wf r req cvs exps : registry_wf r -> registry_wf (write_holds r req cvs exps).
Proof.
  revert r exps. induction cvs as [|[c [v wttl]] cvs IH]; intros r [|e exps] Hwf; try done.
  simpl. by apply IH, write_hold_wf.
Qed.

Lemma release_one_wf r c id : registry_wf r -> registry_wf (release_one r c id).2.
Proof.
  intros Hwf. unfold release_one. destruct (moka_get (reg_cache r) (counter_key c)) as [[x loc]|] eqn:Hc; [|done].
  simpl. apply (registry_wf_sub r); [done|by rewrite length_insert|].
  intros k loc'. unfold loc_of. simpl. case_bool_decide; [|done].
  destruct (decide (k = counter_key c)) as [->|Hk].
  - by rewrite moka_invalidate_self.
  - by rewrite moka_invalidate_other.
Qed.

Lemma release_wf r cs id : registry_wf r -> registry_wf (release r cs id).2.
Proof.
  revert r. induction cs as [|c cs IH]; intros r Hwf; [done|]. simpl.
  pose proof (release_one_wf r c id Hwf) as H1. destruct (release_one r c id) as [b r1].
  specialize (IH r1 H1). by destruct (release r1 cs id).
Qed.

Lemma registry_new_wf n : registry_wf (registry_new n).
Proof. split; intros ??; unfold loc_of; simpl; by rewrite moka_get_new. Qed.

Lemma reserve_wf {E} r cs vs req cs' a r' :
  registry_wf r -> reserve (E := E) r cs vs req = Ok (cs', a, r') -> registry_wf r'.
Proof.
  intros Hwf. unfold reserve.
  destruct (reserve_scan r (req_now req) (check_amount req) None (zip cs vs)) as [os fl].
  destruct (reserve_annotate_loop _ _ _ _ _) as [[ann exps]|e|s]; simpl; [|done..].
  destruct fl as [n|]; [by intros [= _ _ <-]|].
  destruct (hold_amount req =? 0); intros [= _ _ <-]; [done|]. by apply write_holds_wf.
Qed.
End registry_wf.

(** ** What [reserve] computes *)

Section reserve_spec.
Context {CE : CelEngine} {MC : MokaCache}.
Implicit Types (r : LocalReservationRegistry) (cv : Counter * (Z * Duration)).

(** The admission test of one counter, with the wrapping additions of the code. *)
Definition over_reserved r (now : SystemTime) (amt : Z) cv : bool :=
  u64_add (u64_add cv.2.1 (outstanding r cv.1 now)) amt >? max_value cv.1.

Lemma reserve_scan_spec r now amt fl cvs :
  reserve_scan r now amt fl cvs =
    ((fun cv => outstanding r cv.1 now) <$> cvs,
     match fl with
     | Some n => Some n
     | None => (fun cv => limit_name (ctr_limit cv.1)) <$> List.find (over_reserved r now amt) cvs
     end).
Proof.
  revert fl. induction cvs as [|[c [v wttl]] cvs IH]; intros fl; simpl; [by destruct fl|].
  rewrite IH. destruct fl as [n|]; [done|].
  unfold over_reserved at 2. simpl. by destruct (_ >? max_value c).
Qed.

(** The annotation of one counter and the expiry of its hold. *)
Definition annotated r (now : SystemTime) (granted : Z) cv : Counter :=
  set_expires_in
    (set_remaining cv.1
       (default 0 (u64_checked_sub (max_value cv.1)
                     (u64_add (u64_add cv.2.1 (outstanding r cv.1 now)) granted))))
    cv.2.2.

Definition hold_expiry (now : SystemTime) (ttl : Duration) cv : SystemTime :=
  Z.min (now + ttl) (now + cv.2.2).

Definition times_fit (now : SystemTime) (ttl : Duration) (cvs : list (Counter * (Z * Duration))) : Prop :=
  now + ttl <= systime_max /\ Forall (fun cv => now + cv.2.2 <= systime_max) cvs.

Lemma reserve_annotate_loop_spec {E} r now ttl granted cvs :
  times_fit now ttl cvs ->
  reserve_annotate_loop (E := E) now ttl granted cvs ((fun cv => outstanding r cv.1 now) <$> cvs) =
    Ok (annotated r now granted <$> cvs, hold_expiry now ttl <$> cvs).
Proof.
  intros [Ht Hcvs]. induction cvs as [|[c [v wttl]] cvs IH]; [done|].
  apply Forall_cons in Hcvs as [Hc Hcvs]. cbn [fmap list_fmap reserve_annotate_loop].
  unfold reserve_annotate, systime_add.
  apply Z.leb_le in Ht, Hc. simpl in Hc. rewrite Ht, Hc. simpl. by rewrite IH.
Qed.

(** [reserve] on matching lists, with its three loops summed up. *)
Lemma reserve_run {E} r cs vs req :
  length cs = length vs -> times_fit (req_now req) (req_ttl req) (zip cs vs) ->
  reserve (E := E) r cs vs req =
    let cvs := zip cs vs in
    match List.find (over_reserved r (req_now req) (check_amount req)) cvs with
    | Some cv => Ok (annotated r (req_now req) 0 <$> cvs, AuthLimited (limit_name (ctr_limit cv.1)), r)
    | None =>
        Ok (annotated r (req_now req) (hold_amount req) <$> cvs, AuthOk,
            if hold_amount req =? 0 then r
            else write_holds r req (zip (annotated r (req_now req) (hold_amount req) <$> cvs) vs)
                   (hold_expiry (req_now req) (req_ttl req) <$> cvs))
    end.
Proof.
  intros Hlen Ht. unfold reserve. rewrite reserve_scan_spec. cbn zeta iota beta.
  assert (Hdrop : drop (length (zip cs vs)) cs = []).
  { apply drop_ge. rewrite length_zip_with. lia. }
  destruct (List.find _ _) as [cv|]; cbn [fmap option_fmap option_map];
    rewrite reserve_annotate_loop_spec by done; cbn [outcome_bind]; rewrite Hdrop, app_nil_r; [done|].
  by destruct (hold_amount req =? 0).
Qed.

Lemma annotated_key r now g cv : counter_key (annotated r now g cv) = counter_key cv.1.
Proof. done. Qed.

Lemma reserve_cases {E} r cs vs req :
  length cs = length vs -> times_fit (req_now req) (req_ttl req) (zip cs vs) ->
  let found := List.find (over_reserved r (req_now req) (check_amount req)) (zip cs vs) in
  exists cs' a r', reserve (E := E) r cs vs req = Ok (cs', a, r') /\
    counter_key <$> cs' = counter_key <$> cs /\
    (a = AuthOk <-> found = None) /\
    (forall n, a = AuthLimited n -> exists cv, found = Some cv /\ n = limit_name (ctr_limit cv.1)) /\
    (a <> AuthOk \/ hold_amount req = 0 -> r' = r).
Proof.
  intros Hlen Ht. rewrite reserve_run by done. cbn zeta.
  assert (Hkeys : forall g, counter_key <$> (annotated r (req_now req) g <$> zip cs vs) = counter_key <$> cs).
  { intros g. rewrite <-list_fmap_compose. transitivity (counter_key <$> (zip cs vs).*1);
      [by rewrite <-list_fmap_compose|]. by rewrite fst_zip by lia. }
  destruct (List.find _ _) as [cv|]; do 3 eexists; (split_and!; [done|apply Hkeys|done| |]).
  - intros n [= <-]. by exists cv.
  - done.
  - done.
  - intros [?| ->]; done.
Qed.

(** ** What [reserve] stores *)

Context {ML : MokaLaws} {MR : MokaRoomy}.

Lemma loc_of_insert_roomy cache heap (c : Counter) loc k :
  loc_of (mkRegistry (moka_insert cache c loc) heap) k =
    if decide (k = counter_key c) then Some loc else loc_of (mkRegistry cache heap) k.
Proof.
  unfold loc_of. simpl. destruct (decide (k = counter_key c)) as [->|Hk].
  - by destruct (moka_roomy_self _ cache c loc) as [x' ->].
  - by rewrite moka_roomy_other.
Qed.

Lemma write_hold_entries r now c wttl e k :
  registry_wf r ->
  entries_of (write_hold r now c wttl e) k =
    if decide (k = counter_key c)
    then filter (fun e => is_live_at e now = true) (entries_of r k) ++ [e]
    else entries_of r k.
Proof.
  intros [Hlt Hinj]. rewrite !entries_of_loc. unfold write_hold.
  destruct (moka_get (reg_cache r) (counter_key c)) as [[x loc]|] eqn:Hc;
    cbn [reg_cache reg_heap]; rewrite loc_of_insert_roomy.
  - assert (Hloc : loc_of r (counter_key c) = Some loc) by (unfold loc_of; by rewrite Hc).
    pose proof (Hlt _ _ Hloc) as Hl. destruct (decide (k = counter_key c)) as [->|Hk].
    + rewrite Hloc. simpl. rewrite list_lookup_insert_eq by done. simpl.
      destruct (lookup_lt_is_Some_2 _ _ Hl) as [g Hg]. by rewrite Hg.
    + change (loc_of (mkRegistry (reg_cache r) (<[loc:=_]> (reg_heap r))) k) with (loc_of r k).
      simpl. destruct (loc_of r k) as [loc'|] eqn:Hk'; [|done].
      rewrite list_lookup_insert_ne; [done|]. intros ->. by apply Hk, (Hinj _ _ loc').
  - assert (Hloc : loc_of r (counter_key c) = None) by (unfold loc_of; by rewrite Hc).
    destruct (decide (k = counter_key c)) as [->|Hk].
    + rewrite Hloc. simpl. rewrite list_lookup_insert_eq by (rewrite length_app; simpl; lia). simpl.
      rewrite lookup_app_r by done. by rewrite Nat.sub_diag.
    + rewrite loc_of_insert_roomy, decide_False by done.
      change (loc_of (mkRegistry (reg_cache r) _) k) with (loc_of r k).
      simpl. destruct (loc_of r k) as [loc'|] eqn:Hk'; [|done]. apply Hlt in Hk'.
      rewrite list_lookup_insert_ne by lia. by rewrite lookup_app_l.
Qed.

Lemma write_holds_entries_other r req cvs exps k :
  registry_wf r -> k ∉ (fun cv => counter_key cv.1) <$> cvs ->
  entries_of (write_holds r req cvs exps) k = entries_of r k.
Proof.
  revert r exps. induction cvs as [|[c [v wttl]] cvs IH]; intros r [|e exps] Hwf Hk; try done.
  simpl in *. apply not_elem_of_cons in Hk as [Hne Hk].
  rewrite IH by (done || by apply write_hold_wf). rewrite write_hold_entries by done.
  by rewrite decide_False.
Qed.

Lemma write_holds_entries r req cvs exps i cv e :
  registry_wf r -> NoDup ((fun cv => counter_key cv.1) <$> cvs) ->
  cvs !! i = Some cv -> exps !! i = Some e ->
  entries_of (write_holds r req cvs exps) (counter_key cv.1) =
    filter (fun e => is_live_at e (req_now req) = true) (entries_of r (counter_key cv.1))
      ++ [mkEntry (req_reservation_id req) (hold_amount req) e].
Proof.
  revert r exps i. induction cvs as [|[c [v wttl]] cvs IH]; intros r [|e' exps] i Hwf Hnd Hi He;
    [by destruct i..|]. simpl in *. apply NoDup_cons in Hnd as [Hnot Hnd].
  destruct i as [|i]; simpl in Hi, He.
  - injection Hi as <-. injection He as ->. simpl.
    rewrite write_holds_entries_other by (done || by apply write_hold_wf).
    rewrite write_hold_entries by done. by rewrite decide_True.
  - rewrite (IH _ _ i) by (done || by apply write_hold_wf).
    rewrite write_hold_entries by done. rewrite decide_False; [done|].
    intros Heq. apply Hnot. rewrite <-Heq. apply list_elem_of_fmap. exists cv. split; [done|].
    by eapply list_elem_of_lookup_2.
Qed.
End reserve_spec.

(** ** Sums of live holds *)

Section sums.
Implicit Types (es : list ReservationEntry) (e : ReservationEntry).

Lemma sum_live_app es e now :
  sum_live (es ++ [e]) now =
    if is_live_at e now then u64_add (sum_live es now) (amount e) else sum_live es now.
Proof.
  unfold sum_live. rewrite filter_app, fmap_app, foldl_app.
  by destruct (is_live_at e now) eqn:He; [rewrite filter_cons_True by done|rewrite filter_cons_False by congruence].
Qed.

Lemma is_live_at_mono e t t' : t <= t' -> is_live_at e t' = true -> is_live_at e t = true.
Proof. unfold is_live_at. rewrite !Z.gtb_lt. lia. Qed.

(** Dropping the entries already dead at [now] changes no later sum. *)
Lemma sum_live_filter es now t :
  now <= t -> sum_live (filter (fun e => is_live_at e now = true) es) t = sum_live es t.
Proof.
  intros Ht. unfold sum_live. do 2 f_equal. rewrite list_filter_filter.
  apply list_filter_iff. intros e. split; [tauto|]. intros He. split; [done|].
  by eapply is_live_at_mono.
Qed.

Lemma sum_live_in_u64 es t : in_u64 (sum_live es t).
Proof.
  unfold sum_live. generalize (amount <$> filter (fun e => is_live_at e t = true) es). intros l.
  induction l as [|x l _] using rev_ind; [by vm_compute; intuition discriminate|].
  rewrite foldl_app. apply u64_add_in.
Qed.
End sums.

Section release_spec.
Context {CE : CelEngine} {MC : MokaCache} {ML : MokaLaws}.
Implicit Types (r : LocalReservationRegistry) (c : Counter).

Lemma release_one_entries r c id k :
  registry_wf r ->
  entries_of (release_one r c id).2 k =
    if decide (k = counter_key c) then filter (fun e => reservation_id e <> id) (entries_of r k)
    else entries_of r k.
Proof.
  intros [Hlt Hinj]. unfold release_one.
  destruct (moka_get (reg_cache r) (counter_key c)) as [[x loc]|] eqn:Hc; simpl.
  - assert (Hloc : loc_of r (counter_key c) = Some loc) by (unfold loc_of; by rewrite Hc).
    pose proof (Hlt _ _ Hloc) as Hl. destruct (lookup_lt_is_Some_2 _ _ Hl) as [g Hg].
    rewrite Hg. simpl. destruct (decide (k = counter_key c)) as [->|Hk].
    + assert (Hr : entries_of r (counter_key c) = entries g)
        by (rewrite entries_of_loc, Hloc; simpl; by rewrite Hg).
      rewrite Hr. unfold entries_of. simpl. case_bool_decide as He.
      * by rewrite moka_invalidate_self, He.
      * rewrite Hc. by rewrite list_lookup_insert_eq.
    + unfold entries_of. simpl. case_bool_decide; [rewrite moka_invalidate_other by done|];
        (destruct (moka_get (reg_cache r) k) as [[x' loc']|] eqn:Hk'; [|done]);
        (rewrite list_lookup_insert_ne; [done|]); intros ->; apply Hk, (Hinj _ _ loc'); try done;
        unfold loc_of; by rewrite Hk'.
  - destruct (decide (k = counter_key c)) as [->|]; [|done]. unfold entries_of. by rewrite Hc.
Qed.

Lemma release_one_released r c id :
  registry_wf r ->
  (release_one r c id).1 = bool_decide (id ∈ reservation_id <$> entries_of r (counter_key c)).
Proof.
  intros [Hlt _]. unfold release_one, entries_of.
  destruct (moka_get (reg_cache r) (counter_key c)) as [[x loc]|] eqn:Hc; simpl; [|done].
  assert (Hloc : loc_of r (counter_key c) = Some loc) by (unfold loc_of; by rewrite Hc).
  apply Hlt in Hloc as Hl. destruct (lookup_lt_is_Some_2 _ _ Hl) as [g Hg]. rewrite Hg. simpl.
  generalize (entries g). intros es. case_bool_decide as Hin.
  - apply negb_true_iff, Nat.eqb_neq. intros Hlen. apply list_elem_of_fmap in Hin as (e & -> & He).
    pose proof (length_filter_lt (fun e' => reservation_id e' <> reservation_id e) es e He) as Hlt'.
    specialize (Hlt' (fun Hn => Hn eq_refl)). lia.
  - apply negb_false_iff, Nat.eqb_eq. f_equal. apply filter_id. intros e He Heq.
    apply Hin. apply list_elem_of_fmap. by exists e.
Qed.

Lemma release_entries r cs id k :
  registry_wf r ->
  entries_of (release r cs id).2 k =
    if decide (k ∈ counter_key <$> cs) then filter (fun e => reservation_id e <> id) (entries_of r k)
    else entries_of r k.
Proof.
  revert r. induction cs as [|c cs IH]; intros r Hwf; [done|]. simpl.
  pose proof (release_one_wf r c id Hwf) as Hwf1.
  pose proof (release_one_entries r c id k Hwf) as He1. destruct (release_one r c id) as [b r1].
  specialize (IH r1 Hwf1). destruct (release r1 cs id) as [b2 r2]. simpl in *. rewrite IH, He1.
  destruct (decide (k = counter_key c)) as [->|Hk].
  - rewrite (decide_True (P := _ ∈ _ :: _)) by (by left).
    destruct (decide _); [|done]. rewrite list_filter_filter. apply list_filter_iff. naive_solver.
  - destruct (decide (k ∈ counter_key <$> cs)).
    + by rewrite decide_True by (by right).
    + rewrite decide_False; [done|]. by rewrite not_elem_of_cons.
Qed.

(** Whether anything is released does not depend on whether it is still live. *)
Lemma release_released r cs id :
  registry_wf r ->
  (release r cs id).1 = true <->
  exists c, c ∈ cs /\ id ∈ reservation_id <$> entries_of r (counter_key c).
Proof.
  revert r. induction cs as [|c cs IH]; intros r Hwf; simpl; [split; [done|set_solver]|].
  pose proof (release_one_wf r c id Hwf) as Hwf1.
  pose proof (release_one_released r c id Hwf) as Hb1.
  assert (He1 : forall k, entries_of (release_one r c id).2 k = _) by (intros k; by apply release_one_entries).
  destruct (release_one r c id) as [b r1]. simpl in *.
  specialize (IH r1 Hwf1). destruct (release r1 cs id) as [b2 r2]. simpl in *. subst b.
  rewrite orb_true_iff, bool_decide_eq_true, IH. split.
  - intros [Hin|(c' & Hc' & Hin)]; [exists c; split; [by left|done]|].
    exists c'. split; [by right|]. rewrite He1 in Hin. destruct (decide _) as [Hd|]; [|done].
    apply list_elem_of_fmap in Hin as (e & -> & He). apply list_elem_of_filter in He as [_ He].
    apply list_elem_of_fmap. by exists e.
  - intros (c' & Hc' & Hin). apply elem_of_cons in Hc' as [->|Hc']; [by left|].
    destruct (decide (counter_key c' = counter_key c)) as [Heq|Hne]; [left; by rewrite <-Heq|].
    right. exists c'. split; [done|]. rewrite He1. by rewrite decide_False.
Qed.
End release_spec.

(** ** The properties of the registry *)

Section registry_properties.
Context {CE : CelEngine} {MC : MokaCache}.
Implicit Types (r : LocalReservationRegistry) (c : Counter) (cv : Counter * (Z * Duration)).

(** The test of one counter on the mathematical integers. *)
Definition fits r (now : SystemTime) (amt : Z) cv : Prop :=
  cv.2.1 + outstanding r cv.1 now + amt <= max_value cv.1.

(** No sum of the request wraps around. *)
Definition no_wrap r (now : SystemTime) (amt : Z) cv : Prop :=
  0 <= cv.2.1 /\ cv.2.1 + outstanding r cv.1 now + amt <= u64_max.

Lemma over_reserved_fits r now amt cv :
  0 <= amt -> no_wrap r now amt cv -> over_reserved r now amt cv = false <-> fits r now amt cv.
Proof.
  intros Ha [Hv Hw]. unfold over_reserved, fits.
  pose proof (sum_live_in_u64 (entries_of r (counter_key cv.1)) now) as [Ho _].
  change (sum_live _ now) with (outstanding r cv.1 now) in Ho.
  rewrite (u64_add_small cv.2.1), u64_add_small by lia.
  rewrite Z.gtb_ltb, Z.ltb_ge. lia.
Qed.

(** C14: [reserve] always answers (within the range of the clock) and is all or
    nothing: it admits exactly when the requested amount fits next to the value
    and the outstanding holds of every counter, it is denied in the name of the
    first counter where it does not, and a denied request or an empty hold leaves
    the registry as it was. *)
Theorem reserve_all_or_nothing {E} r cs vs req :
  length cs = length vs -> times_fit (req_now req) (req_ttl req) (zip cs vs) ->
  0 <= check_amount req -> Forall (no_wrap r (req_now req) (check_amount req)) (zip cs vs) ->
  exists cs' a r', reserve (E := E) r cs vs req = Ok (cs', a, r') /\
    counter_key <$> cs' = counter_key <$> cs /\
    (a = AuthOk <-> Forall (fits r (req_now req) (check_amount req)) (zip cs vs)) /\
    (forall name, a = AuthLimited name ->
       exists pre cv post, zip cs vs = pre ++ cv :: post /\ name = limit_name (ctr_limit cv.1) /\
         Forall (fits r (req_now req) (check_amount req)) pre /\
         ~ fits r (req_now req) (check_amount req) cv) /\
    (a <> AuthOk \/ hold_amount req = 0 -> r' = r).
Proof.
  intros Hlen Ht Ha Hw.
  destruct (reserve_cases (E := E) r cs vs req Hlen Ht) as (cs' & a & r' & Hr & Hk & Hok & Hlim & Hsame).
  assert (Hfit : forall cv, cv ∈ zip cs vs ->
            over_reserved r (req_now req) (check_amount req) cv = false <->
            fits r (req_now req) (check_amount req) cv).
  { intros cv Hin. apply over_reserved_fits; [done|]. rewrite Forall_forall in Hw. by apply Hw. }
  exists cs', a, r'. split_and!; [done|done| | |done].
  - rewrite Hok, find_none_forall, !Forall_forall.
    split; intros Hall cv Hin; apply (Hfit cv Hin), Hall, Hin.
  - intros name (cv & Hf & ->)%Hlim.
    destruct (find_some_split _ _ _ Hf) as (pre & post & Heq & Hpre & Hov). exists pre, cv, post.
    split_and!; [done|done| |].
    + rewrite Forall_forall in Hpre |- *. intros x Hx. apply Hfit; [rewrite Heq; set_solver|by apply Hpre].
    + intros Hc. apply Hfit in Hc; [congruence|]. rewrite Heq. set_solver.
Qed.

Context {ML : MokaLaws} {MR : MokaRoomy}.

(** An admitted request with a non-empty hold: the entries stored for each counter. *)
Lemma reserve_stores {E} r cs vs req cs' r' :
  length cs = length vs -> times_fit (req_now req) (req_ttl req) (zip cs vs) ->
  registry_wf r -> NoDup (counter_key <$> cs) -> hold_amount req <> 0 ->
  reserve (E := E) r cs vs req = Ok (cs', AuthOk, r') ->
  (forall i c v wttl, cs !! i = Some c -> vs !! i = Some (v, wttl) ->
     entries_of r' (counter_key c) =
       filter (fun e => is_live_at e (req_now req) = true) (entries_of r (counter_key c))
         ++ [mkEntry (req_reservation_id req) (hold_amount req)
               (hold_expiry (req_now req) (req_ttl req) (c, (v, wttl)))]) /\
  (forall k, k ∉ counter_key <$> cs -> entries_of r' k = entries_of r k).
Proof.
  intros Hlen Ht Hwf Hnd Hh. rewrite reserve_run by done. cbn zeta.
  destruct (List.find _ _); [done|]. apply Z.eqb_neq in Hh. rewrite Hh. intros [= <- <-].
  set (ann := annotated r (req_now req) (hold_amount req) <$> zip cs vs).
  assert (Hkeys : (fun cv => counter_key cv.1) <$> zip ann vs = counter_key <$> cs).
  { transitivity (counter_key <$> (zip ann vs).*1); [by rewrite <-list_fmap_compose|].
    rewrite fst_zip by (unfold ann; rewrite length_fmap, length_zip_with; lia).
    unfold ann. rewrite <-list_fmap_compose.
    transitivity (counter_key <$> (zip cs vs).*1); [by rewrite <-list_fmap_compose|].
    by rewrite fst_zip by lia. }
  split.
  - intros i c v wttl Hc Hv.
    assert (Hz : zip cs vs !! i = Some (c, (v, wttl))).
    { apply lookup_zip_with_Some. by exists c, (v, wttl). }
    set (c' := annotated r (req_now req) (hold_amount req) (c, (v, wttl))).
    rewrite (write_holds_entries r req (zip ann vs) _ i (c', (v, wttl))
               (hold_expiry (req_now req) (req_ttl req) (c, (v, wttl)))); [done|done|by rewrite Hkeys| |].
    + apply lookup_zip_with_Some. exists c', (v, wttl). split_and!; [done| |done].
      unfold ann. by rewrite list_lookup_fmap, Hz.
    + by rewrite list_lookup_fmap, Hz.
  - intros k Hk. apply write_holds_entries_other; [done|]. by rewrite Hkeys.
Qed.

(** An admitted hold never overbooks: after it, the value and the live holds of
    every counter together stay within the counter's maximum, the holds grew by
    exactly the hold amount, and no other counter's holds changed. *)
Theorem reserve_never_overbooks {E} r cs vs req cs' r' :
  length cs = length vs -> times_fit (req_now req) (req_ttl req) (zip cs vs) ->
  registry_wf r -> NoDup (counter_key <$> cs) ->
  0 < hold_amount req <= check_amount req -> 0 < req_ttl req ->
  Forall (no_wrap r (req_now req) (check_amount req)) (zip cs vs) ->
  reserve (E := E) r cs vs req = Ok (cs', AuthOk, r') ->
  (forall i c v wttl, cs !! i = Some c -> vs !! i = Some (v, wttl) -> 0 < wttl ->
     outstanding r' c (req_now req) = outstanding r c (req_now req) + hold_amount req /\
     v + outstanding r' c (req_now req) <= max_value c) /\
  (forall c t, counter_key c ∉ counter_key <$> cs -> outstanding r' c t = outstanding r c t).
Proof.
  intros Hlen Ht Hwf Hnd [Hh Hle] Httl Hw Hres.
  assert (Hh0 : hold_amount req <> 0) by lia.
  destruct (reserve_stores r cs vs req cs' r' Hlen Ht Hwf Hnd Hh0 Hres) as [Hin Hout].
  assert (Hall : Forall (fits r (req_now req) (check_amount req)) (zip cs vs)).
  { rewrite reserve_run in Hres by done. cbn zeta in Hres. destruct (List.find _ _) eqn:Hf; [done|].
    apply find_none_forall in Hf. rewrite Forall_forall in Hf, Hw |- *. intros cv Hcv.
    apply over_reserved_fits; [lia|by apply Hw|by apply Hf]. }
  split; [|intros c t Hc; unfold outstanding; by rewrite Hout].
  intros i c v wttl Hc Hv Hwttl.
  assert (Hz : (c, (v, wttl)) ∈ zip cs vs).
  { eapply list_elem_of_lookup_2, lookup_zip_with_Some. by exists c, (v, wttl). }
  rewrite Forall_forall in Hall, Hw. specialize (Hall _ Hz). specialize (Hw _ Hz) as [Hv0 Hmax].
  unfold fits in Hall. simpl in *.
  pose proof (sum_live_in_u64 (entries_of r (counter_key c)) (req_now req)) as [Ho _].
  change (sum_live _ (req_now req)) with (outstanding r c (req_now req)) in Ho.
  enough (outstanding r' c (req_now req) = outstanding r c (req_now req) + hold_amount req) by lia.
  unfold outstanding at 1. rewrite (Hin i c v wttl Hc Hv), sum_live_app, sum_live_filter by lia.
  change (sum_live _ (req_now req)) with (outstanding r c (req_now req)).
  unfold is_live_at, hold_expiry. simpl.
  destruct (Z.gtb_spec (Z.min (req_now req + req_ttl req) (req_now req + wttl)) (req_now req)); [|lia].
  apply u64_add_small; lia.
Qed.

(** A hold stops counting by itself once its ttl is over or its counter's window
    has closed, whichever comes first: from then on the outstanding amount is what
    it would have been without it. *)
Theorem reserve_hold_expires {E} r cs vs req cs' r' i c v wttl t :
  length cs = length vs -> times_fit (req_now req) (req_ttl req) (zip cs vs) ->
  registry_wf r -> NoDup (counter_key <$> cs) -> 0 <= req_ttl req -> 0 <= wttl ->
  reserve (E := E) r cs vs req = Ok (cs', AuthOk, r') ->
  cs !! i = Some c -> vs !! i = Some (v, wttl) ->
  req_now req + Z.min (req_ttl req) wttl <= t ->
  outstanding r' c t = outstanding r c t.
Proof.
  intros Hlen Ht Hwf Hnd Hp1 Hp2 Hres Hc Hv Htt. unfold outstanding.
  destruct (decide (hold_amount req = 0)) as [Hh|Hh].
  - rewrite reserve_run in Hres by done. cbn zeta in Hres. destruct (List.find _ _); [done|].
    rewrite Hh in Hres. by injection Hres as _ <-.
  - destruct (reserve_stores r cs vs req cs' r' Hlen Ht Hwf Hnd Hh Hres) as [Hin _].
    rewrite (Hin i c v wttl Hc Hv), sum_live_app.
    destruct (is_live_at _ t) eqn:Hl.
    + exfalso. unfold is_live_at, hold_expiry in Hl. simpl in Hl. rewrite Z.gtb_lt in Hl. lia.
    + apply sum_live_filter. lia.
Qed.

(** Releasing a reservation undoes it: after [release] with the same id every
    counter's outstanding amount is, at every later time, what it was before the
    reservation, and the release reports success exactly when something was held. *)
Theorem reserve_release_roundtrip {E} r cs vs req cs' r' :
  length cs = length vs -> times_fit (req_now req) (req_ttl req) (zip cs vs) ->
  registry_wf r -> NoDup (counter_key <$> cs) ->
  (forall c, c ∈ cs -> req_reservation_id req ∉ reservation_id <$> entries_of r (counter_key c)) ->
  reserve (E := E) r cs vs req = Ok (cs', AuthOk, r') ->
  ((release r' cs (req_reservation_id req)).1 = true <-> hold_amount req <> 0 /\ cs <> []) /\
  (forall c t, req_now req <= t ->
     outstanding (release r' cs (req_reservation_id req)).2 c t = outstanding r c t).
Proof.
  intros Hlen Ht Hwf Hnd Hfresh Hres.
  assert (Hwf' : registry_wf r') by (by eapply reserve_wf).
  set (id := req_reservation_id req) in *.
  assert (Hne : forall c e, c ∈ cs -> e ∈ entries_of r (counter_key c) -> reservation_id e <> id).
  { intros c e Hc He Heq. apply (Hfresh c Hc). apply list_elem_of_fmap. by exists e. }
  destruct (decide (hold_amount req = 0)) as [Hh|Hh].
  - assert (Hrr : r' = r).
    { rewrite reserve_run in Hres by done. cbn zeta in Hres. destruct (List.find _ _); [done|].
      rewrite Hh in Hres. by injection Hres as _ <-. }
    subst r'. split.
    + rewrite release_released by done. split; [|tauto]. intros (c & Hc & Hin). by destruct (Hfresh c Hc).
    + intros c t _. unfold outstanding. rewrite release_entries by done.
      destruct (decide _) as [Hk|]; [|done]. apply list_elem_of_fmap in Hk as (c' & -> & Hc').
      rewrite filter_id; [done|]. intros e He. by apply (Hne c').
  - destruct (reserve_stores r cs vs req cs' r' Hlen Ht Hwf Hnd Hh Hres) as [Hin Hout].
    assert (Hentry : forall c, c ∈ cs -> exists x,
              entries_of r' (counter_key c) =
              filter (fun e => is_live_at e (req_now req) = true) (entries_of r (counter_key c))
                ++ [mkEntry id (hold_amount req) x]).
    { intros c Hc. apply list_elem_of_lookup in Hc as [i Hi].
      destruct (lookup_lt_is_Some_2 vs i) as [[v wttl] Hv];
        [apply lookup_lt_Some in Hi; lia|]. eexists. by eapply Hin. }
    split.
    + rewrite release_released by done. split.
      * intros (c & Hc & _). split; [done|]. by destruct cs; [apply not_elem_of_nil in Hc|].
      * intros [_ Hcs]. destruct cs as [|c cs]; [done|]. exists c. split; [by left|].
        destruct (Hentry c) as [x ->]; [by left|]. rewrite fmap_app. set_solver.
    + intros c t Htt. unfold outstanding. rewrite release_entries by done.
      destruct (decide (counter_key c ∈ counter_key <$> cs)) as [Hk|Hk]; [|by rewrite Hout].
      apply list_elem_of_fmap in Hk as (c' & -> & Hc'). destruct (Hentry c' Hc') as [x ->].
      rewrite filter_app, filter_cons_False, filter_nil, app_nil_r by (simpl; tauto).
      rewrite filter_id; [by apply sum_live_filter|].
      intros e [_ He]%list_elem_of_filter. by apply (Hne c').
Qed.

(** The admission test adds with wrap-around: a request whose sum with the value
    and the outstanding holds is exactly 2^64 is admitted whatever the limit. *)
Theorem reserve_admits_on_overflow {E} r c v wttl req :
  times_fit (req_now req) (req_ttl req) [(c, (v, wttl))] -> in_u64 (max_value c) ->
  v + outstanding r c (req_now req) + check_amount req = u64_max + 1 ->
  ~ fits r (req_now req) (check_amount req) (c, (v, wttl)) /\
  exists cs' r', reserve (E := E) r [c] [(v, wttl)] req = Ok (cs', AuthOk, r').
Proof.
  intros Ht [Hm0 Hm] Hsum. split; [unfold fits; simpl; lia|].
  rewrite reserve_run by done. simpl. unfold over_reserved. simpl.
  rewrite u64_add_assoc. unfold u64_add.
  replace (v + (outstanding r c (req_now req) + check_amount req)) with (1 * 18446744073709551616)
    by (unfold u64_max in *; lia).
  rewrite Z.mod_mul by lia. destruct (Z.gtb_spec 0 (max_value c)); [lia|].
  by do 2 eexists.
Qed.
End registry_properties.

(** ** Examples *)

#[local] Existing Instance demo_engine.
#[local] Existing Instance gmap_moka.

Definition demo_req (check hold : Z) : ReservationRequest :=
  mkRequest "r1" check hold (from_secs 30) (from_secs 1000).

Definition demo_registry : LocalReservationRegistry := registry_new 100.

(** The outcome of [reserve] on one counter at value 3 of a 60 s window. *)
Definition demo_reserve (check hold : Z)
    : Outcome unit (list Counter * Authorization * LocalReservationRegistry) :=
  reserve demo_registry [demo_counter] [(3, from_secs 60)] (demo_req check hold).

Lemma demo_times_fit check hold :
  times_fit (req_now (demo_req check hold)) (req_ttl (demo_req check hold))
    (zip [demo_counter] [(3, from_secs 60)]).
Proof. split; [vm_compute; discriminate|]. repeat constructor. vm_compute. discriminate. Qed.

Lemma demo_no_wrap check hold :
  0 <= check <= 100 ->
  Forall (no_wrap demo_registry (req_now (demo_req check hold)) (check_amount (demo_req check hold)))
    (zip [demo_counter] [(3, from_secs 60)]).
Proof.
  intros Hc. repeat constructor; simpl; [lia|].
  change (outstanding demo_registry demo_counter (from_secs 1000)) with 0. unfold u64_max. lia.
Qed.

Lemma demo_nodup : NoDup (counter_key <$> [demo_counter]).
Proof. apply NoDup_singleton. Qed.

Lemma demo_registry_wf : registry_wf demo_registry.
Proof. apply (registry_new_wf (ML := gmap_moka_laws)). Qed.

(** 3 + 7 of 10 fits, 3 + 8 does not. *)
Lemma reserve_all_or_nothing_witness :
  exists cs' a r', reserve (E := unit) demo_registry [demo_counter] [(3, from_secs 60)] (demo_req 8 8)
                     = Ok (cs', a, r') /\ a <> AuthOk /\ r' = demo_registry.
Proof.
  destruct (reserve_all_or_nothing (E := unit) demo_registry [demo_counter] [(3, from_secs 60)] (demo_req 8 8))
    as (cs' & a & r' & Hr & _ & Hok & _ & Hsame).
  - done.
  - apply demo_times_fit.
  - done.
  - apply demo_no_wrap. lia.
  - exists cs', a, r'. assert (Ha : a <> AuthOk).
    { intros Heq. apply Hok in Heq. apply Forall_cons in Heq as [Hf _].
      unfold fits in Hf. vm_compute in Hf. by apply Hf. }
    split_and!; [done|done|]. apply Hsame. by left.
Defined.

Lemma demo_reserve_ok hold : exists cs' r',
  reserve (E := unit) demo_registry [demo_counter] [(3, from_secs 60)] (demo_req 7 hold)
    = Ok (cs', AuthOk, r').
Proof.
  rewrite reserve_run; [|done|apply demo_times_fit]. do 2 eexists. reflexivity.
Qed.

Lemma reserve_never_overbooks_witness : exists r',
  outstanding r' demo_counter (from_secs 1000) = outstanding demo_registry demo_counter (from_secs 1000) + 5 /\
  3 + outstanding r' demo_counter (from_secs 1000) <= max_value demo_counter.
Proof.
  destruct (demo_reserve_ok 5) as (cs' & r' & Hr). exists r'.
  destruct (reserve_never_overbooks (E := unit) (ML := gmap_moka_laws) (MR := gmap_moka_roomy)
              demo_registry [demo_counter] [(3, from_secs 60)] (demo_req 7 5) cs' r') as [Hin _].
  - done.
  - apply demo_times_fit.
  - apply demo_registry_wf.
  - apply demo_nodup.
  - simpl. lia.
  - vm_compute. reflexivity.
  - apply demo_no_wrap. lia.
  - apply Hr.
  - apply (Hin 0%nat demo_counter 3 (from_secs 60)); [done|done|vm_compute; reflexivity].
Defined.

Lemma reserve_hold_expires_witness : exists r',
  outstanding r' demo_counter (from_secs 1030) = outstanding demo_registry demo_counter (from_secs 1030).
Proof.
  destruct (demo_reserve_ok 5) as (cs' & r' & Hr). exists r'.
  apply (reserve_hold_expires (E := unit) (ML := gmap_moka_laws) (MR := gmap_moka_roomy) demo_registry
           [demo_counter] [(3, from_secs 60)] (demo_req 7 5) cs' r' 0 demo_counter 3 (from_secs 60)).
  - done.
  - apply demo_times_fit.
  - apply demo_registry_wf.
  - apply demo_nodup.
  - vm_compute. discriminate.
  - vm_compute. discriminate.
  - apply Hr.
  - done.
  - done.
  - vm_compute. discriminate.
Defined.

Lemma reserve_release_roundtrip_witness : exists r',
  (release r' [demo_counter] "r1").1 = true /\
  outstanding (release r' [demo_counter] "r1").2 demo_counter (from_secs 1001) =
  outstanding demo_registry demo_counter (from_secs 1001).
Proof.
  destruct (demo_reserve_ok 5) as (cs' & r' & Hr). exists r'.
  destruct (reserve_release_roundtrip (E := unit) (ML := gmap_moka_laws) (MR := gmap_moka_roomy)
              demo_registry [demo_counter] [(3, from_secs 60)] (demo_req 7 5) cs' r') as [Hrel Hout].
  - done.
  - apply demo_times_fit.
  - apply demo_registry_wf.
  - apply demo_nodup.
  - intros c _ Hin. by apply elem_of_nil in Hin.
  - apply Hr.
  - split; [by apply Hrel|]. apply Hout. vm_compute. discriminate.
Defined.

Lemma reserve_admits_on_overflow_witness :
  ~ fits demo_registry (from_secs 1000) 18446744073709551613 (demo_counter, (3, from_secs 60)) /\
  exists cs' r', demo_reserve 18446744073709551613 10 = Ok (cs', AuthOk, r').
Proof.
  apply (reserve_admits_on_overflow (E := unit) demo_registry demo_counter 3 (from_secs 60)
           (demo_req 18446744073709551613 10)).
  - apply (demo_times_fit 0 0).
  - vm_compute. split; discriminate.
  - reflexivity.
Defined.
