(* ===== verification/StorageSpec.v ===== *)
(** * What a counter storage promises: the contract of [trait CounterStorage]

    [CounterStorageSpec] states what the rate limiter relies on: how much of
    each counter is used, which holds are outstanding, and how every operation
    reads and changes them while the clock shows one instant.  [InMemorySpec.v]
    proves it of the in-memory storage; [RateLimiterSpec.v] uses nothing else. *)

From S2P Require Import Prelude AtomicExpiringValue Cel Errors Limit Counter Reservation.
From S2P Require Import Storage Moka LocalReservations.

Section spec.
Context {CE : CelEngine} {HO : HashOrder}.
Implicit Types (c : Counter) (t : SystemTime) (k : CounterKey).

(** A counter the code can count at [t]: a limit of [u64]s with a non-empty
    window whose end is representable. *)
Definition counter_ok t c : Prop :=
  in_u64 (max_value c) /\ 0 < seconds (ctr_limit c) /\ good_window t (window c).

Lemma good_window_add {E} t d : good_window t d -> systime_add (E := E) t d = Ok (t + d).
Proof.
  intros ([H0 H1] & H2 & H3). unfold systime_add.
  destruct (Z.leb_spec (t + d) systime_max); [done|]. exfalso.
  unfold as_micros, systime_max, nanos_per_sec, u64_max in *.
  Z.to_euclidean_division_equations. lia.
Qed.

(** Windows are whole seconds: no carry into the microseconds. *)
Lemma as_micros_window t c : as_micros (t + window c) = as_micros t + as_micros (window c).
Proof.
  unfold window, from_secs, as_micros, nanos_per_sec.
  replace (seconds (ctr_limit c) * 1000000000) with (seconds (ctr_limit c) * 1000000 * 1000) by lia.
  rewrite Z.div_add by lia. rewrite Z.div_mul by lia. done.
Qed.

Lemma window_micros c : 0 < seconds (ctr_limit c) -> 0 < as_micros (window c).
Proof.
  intros Hs. unfold window, from_secs, as_micros, nanos_per_sec.
  replace (seconds (ctr_limit c) * 1000000000) with (seconds (ctr_limit c) * 1000000 * 1000) by lia.
  rewrite Z.div_mul; lia.
Qed.

(** The window of a counter, which its key determines. *)
Definition key_window k : Duration := from_secs k.1.1.1.2.

Lemma key_window_counter c : key_window (counter_key c) = window c.
Proof. done. Qed.

(** How the end of a window may move during a call at [t], in microseconds: it stays
    where it is unless the window is over; then a new one may open. *)
Definition window_kept t k (e e' : Z) : Prop :=
  e' = e \/ e <= as_micros t /\ e' = as_micros t + as_micros (key_window k).

Lemma window_kept_trans t k e1 e2 e3 : window_kept t k e1 e2 -> window_kept t k e2 e3 -> window_kept t k e1 e3.
Proof. unfold window_kept. lia. Qed.

(** [delta] more on top of [v] exceeds the limit, as the backends test it. *)
Definition over (v delta : Z) c : bool :=
  match u64_checked_sub (max_value c) (u64_saturating_add v delta) with
  | None => true
  | Some _ => false
  end.

Lemma over_spec v delta c :
  in_u64 (max_value c) -> over v delta c = true <-> max_value c < v + delta /\ max_value c < u64_max.
Proof.
  intros Hm. rewrite <-(checked_sub_saturating_none _ v delta Hm). unfold over.
  by destruct (u64_checked_sub _ _).
Qed.

(** [c'] is [c] annotated with what is left of it and when its window ends. *)
Definition annotates (value : CounterKey -> Z) c c' : Prop :=
  ctr_limit c' = ctr_limit c /\ set_variables c' = set_variables c /\
  remaining c' = Some (u64_saturating_sub (max_value c) (value (counter_key c))) /\
  exists d, expires_in c' = Some d /\ 0 < d.

(** The answer [a] to checking [delta] on [cs]. *)
Definition decides (value : CounterKey -> Z) (delta : Z) (cs : list Counter) (a : Authorization) : Prop :=
  match a with
  | AuthOk => Forall (fun c => over (value (counter_key c)) delta c = false) cs
  | AuthLimited n => exists c, c ∈ cs /\ over (value (counter_key c)) delta c = true /\
                               n = limit_name (ctr_limit c)
  end.

Definition is_ok (a : Authorization) : bool :=
  match a with AuthOk => true | AuthLimited _ => false end.

(** A call that counts at [t], with counters it can count. *)
Inductive cs_call {St} {CS : CounterStorage St} (t : SystemTime) (s s' : St) : Prop :=
| call_check_and_update cs delta o :
    good_time t -> Forall (counter_ok t) cs -> NoDup (counter_key <$> cs) -> in_u64 delta ->
    runs t s (cs_check_and_update cs delta) o s' -> cs_call t s s'
| call_update c delta o :
    counter_ok t c -> in_u64 delta -> runs t s (cs_update_counter c delta) o s' -> cs_call t s s'.

Class CounterStorageSpec (St : Type) {CS : CounterStorage St} : Type := {
  cs_inv : St -> Prop;
  (** The part of counter [k] used in its window open at [t]. *)
  cs_value : St -> SystemTime -> CounterKey -> Z;
  (** The reservations stored for counter [k]. *)
  cs_holds : St -> CounterKey -> list ReservationEntry;
  (** When the last window of counter [k] ends, in microseconds. *)
  cs_end : St -> CounterKey -> Z;

  cs_value_later : forall s t t' k, 0 <= t <= t' ->
    cs_value s t' k = if as_micros t' <? cs_end s k then cs_value s t k else 0;

  cs_windows : forall s t s' k, cs_inv s -> cs_call t s s' -> window_kept t k (cs_end s k) (cs_end s' k);

  cs_value_u64 : forall s t k, cs_inv s -> in_u64 (cs_value s t k);

  cs_is_within_spec : forall s t c delta, cs_inv s -> counter_ok t c ->
    runs t s (cs_is_within_limits c delta)
      (Ok (u64_saturating_add (cs_value s t (counter_key c)) delta <=? max_value c)) s;

  cs_add_spec : forall s t l, cs_inv s -> exists s',
    runs t s (cs_add_counter l) (Ok tt) s' /\ cs_inv s' /\
    (forall t' k, 0 <= t' -> cs_value s' t' k = cs_value s t' k) /\
    (forall k, cs_holds s' k = cs_holds s k);

  cs_update_spec : forall s t c delta, cs_inv s -> counter_ok t c -> in_u64 delta -> exists s',
    runs t s (cs_update_counter c delta) (Ok tt) s' /\ cs_inv s' /\
    (forall k, cs_value s' t k = if decide (k = counter_key c) then u64_add (cs_value s t k) delta
                                 else cs_value s t k) /\
    (forall k, cs_holds s' k = cs_holds s k);

  cs_check_spec : forall s t cs delta,
    cs_inv s -> good_time t -> Forall (counter_ok t) cs -> exists cs' a,
    runs t s (cs_check cs delta) (Ok (cs', a)) s /\
    Forall2 (annotates (cs_value s t)) cs cs' /\ decides (cs_value s t) delta cs a;

  cs_check_and_update_spec : forall s t cs delta,
    cs_inv s -> good_time t -> Forall (counter_ok t) cs -> NoDup (counter_key <$> cs) -> in_u64 delta ->
    exists cs' a s',
    runs t s (cs_check_and_update cs delta) (Ok (cs', a)) s' /\ cs_inv s' /\
    Forall2 (annotates (cs_value s t)) cs cs' /\ decides (cs_value s t) delta cs a /\
    (forall k, cs_value s' t k =
       if is_ok a && bool_decide (k ∈ counter_key <$> cs) then u64_add (cs_value s t k) delta
       else cs_value s t k) /\
    (forall k, cs_holds s' k = cs_holds s k);

  cs_reserve_spec : forall s t cs id check hold ttl,
    cs_inv s -> Forall (counter_ok t) cs -> NoDup (counter_key <$> cs) ->
    0 <= hold <= check -> 0 < ttl -> t + ttl <= systime_max ->
    (forall c, c ∈ cs ->
       cs_value s t (counter_key c) + sum_live (cs_holds s (counter_key c)) t + check <= u64_max) ->
    exists cs' a s',
    runs t s (cs_reserve cs id check hold ttl) (Ok (cs', a)) s' /\ cs_inv s' /\
    counter_key <$> cs' = counter_key <$> cs /\
    (a = AuthOk <-> forall c, c ∈ cs ->
       cs_value s t (counter_key c) + sum_live (cs_holds s (counter_key c)) t + check <= max_value c) /\
    (forall k, cs_value s' t k = cs_value s t k) /\
    (forall k, if is_ok a && bool_decide (k ∈ counter_key <$> cs) && negb (hold =? 0)
               then exists e, cs_holds s' k = filter (fun e => is_live_at e t = true) (cs_holds s k)
                                                ++ [mkEntry id hold e] /\ t < e <= t + ttl
               else cs_holds s' k = cs_holds s k);

  cs_release_spec : forall s t cs id, cs_inv s -> exists b s',
    runs t s (cs_release_reservation cs id) (Ok b) s' /\ cs_inv s' /\
    (b = true <-> exists c, c ∈ cs /\ id ∈ reservation_id <$> cs_holds s (counter_key c)) /\
    (forall t' k, cs_value s' t' k = cs_value s t' k) /\
    (forall k, cs_holds s' k = if decide (k ∈ counter_key <$> cs)
                               then filter (fun e => reservation_id e <> id) (cs_holds s k)
                               else cs_holds s k)
}.

End spec.

Arguments CounterStorageSpec {CE} St {CS}.
