(* ===== verification/InMemory.v ===== *)
(** * The in-memory counter storage: [storage/in_memory.rs]

    Counters without variables live in a map keyed by their limit, counters
    with variables in a [moka] cache of [Arc]s.  The cells those [Arc]s point
    to are [ims_heap]; a handle taken from the cache stays valid when its entry
    is evicted.  Each method is one step here; [Concurrency.v] interleaves the
    atomic accesses of [check_and_update]. *)

From S2P Require Import Prelude AtomicExpiringValue Cel Errors Limit Counter Reservation.
From S2P Require Import Storage Moka LocalReservations.

Section in_memory.
Context {CE : CelEngine} {HO : HashOrder} {MC : MokaCache}.

Record InMemoryStorage : Type := mkInMemory {
  simple_limits : gmap LimitKey (Limit * AtomicExpiringValue);
  qualified_counters : moka nat;
  ims_heap : list AtomicExpiringValue;
  reservations : LocalReservationRegistry
}.

Abbreviation IM A := (M InMemoryStorage StorageErr A).

Definition in_memory_new (cache_size : Z) : InMemoryStorage :=
  mkInMemory ∅ (moka_new cache_size) [] (registry_new cache_size).

Definition in_memory_default : InMemoryStorage := in_memory_new 10000.

(** ** The cells *)

(** The map entry of a limit, read through [BTreeMap::get]. *)
Definition simple_get (k : LimitKey) : IM (option AtomicExpiringValue) :=
  let* s := get in ret (snd <$> simple_limits s !! k).

Definition simple_put (k : LimitKey) (l : Limit) (v : AtomicExpiringValue) : IM unit :=
  let* s := get in
  put (mkInMemory (<[k := (l, v)]> (simple_limits s)) (qualified_counters s) (ims_heap s)
         (reservations s)).

(** [value.update(delta, ttl, when)] on the map entry of a limit. *)
Definition simple_update (k : LimitKey) (delta : Z) (ttl : Duration) (when : SystemTime) : IM Z :=
  let* s := get in
  match simple_limits s !! k with
  | Some (l, v) =>
      let* r := lift (update v delta ttl when) in
      simple_put k l r.2 ;;; ret r.1
  | None => ret 0
  end.

(** The cell an [Arc] points to. *)
Definition heap_get (loc : nat) : IM AtomicExpiringValue :=
  let* s := get in ret (default aev_default (ims_heap s !! loc)).

Definition heap_update (loc : nat) (delta : Z) (ttl : Duration) (when : SystemTime) : IM Z :=
  let* v := heap_get loc in
  let* r := lift (update v delta ttl when) in
  let* s := get in
  put (mkInMemory (simple_limits s) (qualified_counters s) (<[loc := r.2]> (ims_heap s))
         (reservations s)) ;;;
  ret r.1.

(** [qualified_counters.get(counter)] *)
Definition qualified_get (c : Counter) : IM (option nat) :=
  let* s := get in ret (snd <$> moka_get (qualified_counters s) (counter_key c)).

(** [match get(counter) { Some(v) => v, None => get_with(counter, || Arc::new(..)) }] *)
Definition qualified_get_with (c : Counter) (now : SystemTime) : IM nat :=
  let* r := qualified_get c in
  match r with
  | Some loc => ret loc
  | None =>
      let* t := lift (systime_add now (window c)) in
      let* v := lift (aev_new 0 t) in
      let* s := get in
      let loc := length (ims_heap s) in
      put (mkInMemory (simple_limits s) (moka_insert (qualified_counters s) c loc)
             (ims_heap s ++ [v]) (reservations s)) ;;;
      ret loc
  end.

(** ** [impl CounterStorage for InMemoryStorage] *)

Definition is_within_limits (c : Counter) (delta : Z) : IM bool :=
  let* v :=
    if is_qualified c then
      let* r := qualified_get c in
      match r with
      | Some loc => let* cell := heap_get loc in value cell
      | None => ret 0
      end
    else
      let* r := simple_get (limit_key (ctr_limit c)) in
      match r with
      | Some cell => value cell
      | None => ret 0
      end in
  ret (u64_saturating_add v delta <=? max_value c).

Definition add_counter (l : Limit) : IM unit :=
  if bool_decide (limit_variables l = ∅) then
    let* s := get in
    match simple_limits s !! limit_key l with
    | Some _ => ret tt
    | None => simple_put (limit_key l) l aev_default
    end
  else ret tt.

Definition update_counter (c : Counter) (delta : Z) : IM unit :=
  let* t := now in
  if is_qualified c then
    let* loc := qualified_get_with c t in
    heap_update loc delta (window c) t ;;; ret tt
  else
    let k := limit_key (ctr_limit c) in
    let* r := simple_get k in
    match r with
    | None =>
        let* exp := lift (systime_add t (window c)) in
        let* v := lift (aev_new delta exp) in
        simple_put k (ctr_limit c) v
    | Some _ => simple_update k delta (window c) t ;;; ret tt
    end.

(** The closures [record] and [annotate]: the annotated counter and the first
    counter found over its limit. *)
Definition record (delta : Z) (first_limited : option (option string)) (c : Counter) (v : Z)
    (ttl : Duration) : Counter * option (option string) :=
  let ttl := if ttl =? 0 then window c else ttl in
  let c := set_expires_in (set_remaining c (u64_saturating_sub (max_value c) v)) ttl in
  let first_limited :=
    match first_limited with
    | Some n => Some n
    | None =>
        match u64_checked_sub (max_value c) (u64_saturating_add v delta) with
        | None => Some (limit_name (ctr_limit c))
        | Some _ => None
        end
    end in
  (c, first_limited).

(** Value and ttl of a present cell, [(0, window)] of an absent one. *)
Definition read_cell (cell : option AtomicExpiringValue) (c : Counter) : IM (Z * Duration) :=
  match cell with
  | Some cell =>
      let* v := value cell in
      let* d := ttl cell in
      ret (v, d)
  | None => ret (0, window c)
  end.

(** One of the two loops of [evaluate], over the counters with [is_qualified() == qualified]. *)
Fixpoint evaluate_pass (qualified : bool) (delta : Z) (first_limited : option (option string))
    (cs : list Counter) : IM (list Counter * option (option string)) :=
  match cs with
  | [] => ret ([], first_limited)
  | c :: cs =>
      let* '(c, first_limited) :=
        if Bool.eqb (is_qualified c) qualified then
          let* cell :=
            if qualified then
              let* r := qualified_get c in
              match r with
              | Some loc => let* v := heap_get loc in ret (Some v)
              | None => ret None
              end
            else simple_get (limit_key (ctr_limit c)) in
          let* '(v, d) := read_cell cell c in
          ret (record delta first_limited c v d)
        else ret (c, first_limited) in
      let* '(cs, first_limited) := evaluate_pass qualified delta first_limited cs in
      ret (c :: cs, first_limited)
  end.

Definition evaluate (cs : list Counter) (delta : Z) : IM (list Counter * Authorization) :=
  let* '(cs, fl) := evaluate_pass false delta None cs in
  let* '(cs, fl) := evaluate_pass true delta fl cs in
  ret (cs, match fl with Some name => AuthLimited name | None => AuthOk end).

Definition check (cs : list Counter) (delta : Z) : IM (list Counter * Authorization) :=
  evaluate cs delta.

(** The local variables of [check_and_update]'s loop. *)
Record CheckAcc : Type := mkAcc {
  acc_counters : list Counter;
  acc_first_limited : option (option string);
  simple_to_update : list (LimitKey * Duration);
  qualified_to_update : list (nat * Duration);
  missing_simple : list nat
}.

Definition check_step (t : SystemTime) (delta : Z) (acc : CheckAcc) (c : Counter) : IM CheckAcc :=
  if is_qualified c then
    let* loc := qualified_get_with c t in
    let* cell := heap_get loc in
    let* '(v, d) := read_cell (Some cell) c in
    let '(c', fl) := record delta (acc_first_limited acc) c v d in
    ret (mkAcc (acc_counters acc ++ [c']) fl (simple_to_update acc)
           (qualified_to_update acc ++ [(loc, window c)]) (missing_simple acc))
  else
    let* cell := simple_get (limit_key (ctr_limit c)) in
    let* '(v, d) := read_cell cell c in
    let '(c', fl) := record delta (acc_first_limited acc) c v d in
    match cell with
    | Some _ =>
        ret (mkAcc (acc_counters acc ++ [c']) fl
               (simple_to_update acc ++ [(limit_key (ctr_limit c), window c)])
               (qualified_to_update acc) (missing_simple acc))
    | None =>
        ret (mkAcc (acc_counters acc ++ [c']) fl (simple_to_update acc) (qualified_to_update acc)
               (missing_simple acc ++ [length (acc_counters acc)]))
    end.

Definition check_and_update (cs : list Counter) (delta : Z) : IM (list Counter * Authorization) :=
  let* t := now in
  let* acc := foldM (check_step t delta) (mkAcc [] None [] [] []) cs in
  match acc_first_limited acc with
  | Some name => ret (acc_counters acc, AuthLimited name)
  | None =>
      for_each (fun kd => simple_update kd.1 delta kd.2 t ;;; ret tt) (simple_to_update acc) ;;;
      for_each (fun ld => heap_update ld.1 delta ld.2 t ;;; ret tt) (qualified_to_update acc) ;;;
      for_each (fun idx => match acc_counters acc !! idx with
                           | Some c => update_counter c delta
                           | None => lift (Panic "index out of bounds")
                           end) (missing_simple acc) ;;;
      ret (acc_counters acc, AuthOk)
  end.

(** [HashMap::insert]: keeps the key already there and replaces the value. *)
Definition hashmap_insert {V} (c : Counter) (v : V) (m : gmap CounterKey (Counter * V))
    : gmap CounterKey (Counter * V) :=
  <[counter_key c := (default c (fst <$> m !! counter_key c), v)]> m.

(** [Counter::new(limit.clone(), &Context::default()).unwrap().unwrap()] *)
Definition counter_without_context (l : Limit) : Outcome StorageErr Counter :=
  match counter_new l context_default with
  | Ok (Some c) => Ok c
  | Ok None => Panic "called `Option::unwrap()` on a `None` value"
  | _ => Panic "called `Result::unwrap()` on an `Err` value"
  end.

(** The returned values are clones: snapshots of the cells. *)
Definition counters_in_namespace (ns : string) : IM (gmap CounterKey (Counter * AtomicExpiringValue)) :=
  let* s := get in
  let* res := foldM (fun res '(l, v) =>
                if bool_decide (namespace l = ns) then
                  let* c := lift (counter_without_context l) in
                  ret (hashmap_insert c v res)
                else ret res) ∅ (map_to_list (simple_limits s)).*2 in
  foldM (fun res '(c, loc) =>
    if bool_decide (counter_namespace c = ns) then
      let* v := heap_get loc in
      ret (hashmap_insert c v res)
    else ret res) res (moka_iter (qualified_counters s)).

(** Body shared by the two loops of [get_counters]: adds a counter whose window is open. *)
Definition collect_counter (c : Counter) (cell : AtomicExpiringValue) (res : CounterSet)
    : IM CounterSet :=
  let* v := value cell in
  let c := set_remaining c (u64_saturating_sub (max_value c) v) in
  let* d := ttl cell in
  let c := set_expires_in c d in
  ret (if 0 <? d then (set_insert counter_key c res).2 else res).

Definition get_counters (limits : LimitSet) : IM CounterSet :=
  let* res := foldM (fun res l =>
      let* found := counters_in_namespace (namespace l) in
      foldM (fun res '(c, cell) =>
          let c := match limits !! limit_key (ctr_limit c) with
                   | Some lv => (update_to_limit c lv).2
                   | None => c
                   end in
          collect_counter c cell res) res (hash_iter found).*2)
    ∅ (hash_iter limits).*2 in
  let* s := get in
  foldM (fun res '(c, loc) =>
      match limits !! limit_key (ctr_limit c) with
      | Some lv =>
          let* cell := heap_get loc in
          collect_counter (update_to_limit c lv).2 cell res
      | None => ret res
      end) res (moka_iter (qualified_counters s)).

Definition delete_counters_of_limit (l : Limit) : IM unit :=
  let* s := get in
  if bool_decide (limit_variables l = ∅) then
    put (mkInMemory (delete (limit_key l) (simple_limits s)) (qualified_counters s) (ims_heap s)
           (reservations s))
  else
    let cache :=
      match moka_invalidate_entries_if (qualified_counters s) (fun c _ => limit_eq (ctr_limit c) l) with
      | Some cache => cache
      | None =>
          foldl (fun cache '(c, _) =>
                   if limit_eq (ctr_limit c) l then moka_invalidate cache (counter_key c) else cache)
            (qualified_counters s) (moka_iter (qualified_counters s))
      end in
    put (mkInMemory (simple_limits s) cache (ims_heap s) (reservations s)).

Definition delete_counters (limits : LimitSet) : IM unit :=
  for_each delete_counters_of_limit (hash_iter limits).*2.

Definition clear : IM unit :=
  let* s := get in
  put (mkInMemory ∅ (qualified_counters s) (ims_heap s) (reservations s)).

(** [counters.entry(limit).or_insert_with(|| AtomicExpiringValue::new(0, now + window))] *)
Definition simple_or_insert (c : Counter) (t : SystemTime) : IM unit :=
  let k := limit_key (ctr_limit c) in
  let* r := simple_get k in
  match r with
  | Some _ => ret tt
  | None =>
      let* exp := lift (systime_add t (window c)) in
      let* v := lift (aev_new 0 exp) in
      simple_put k (ctr_limit c) v
  end.

(** The value and the ttl of the window the counter now belongs to. *)
Definition touch (c : Counter) (t : SystemTime) : IM (Z * Duration) :=
  if is_qualified c then
    let* loc := qualified_get_with c t in
    let* current := heap_update loc 0 (window c) t in
    let* cell := heap_get loc in
    let* d := ttl cell in
    ret (current, d)
  else
    let k := limit_key (ctr_limit c) in
    simple_or_insert c t ;;;
    let* current := simple_update k 0 (window c) t in
    let* r := simple_get k in
    let* d := ttl (default aev_default r) in
    ret (current, d).

Definition reserve (cs : list Counter) (id : ReservationId) (check_amount hold_amount : Z)
    (ttl : Duration) : IM (list Counter * Authorization) :=
  let* t := now in
  let* vs := mapM (fun c => touch c t) cs in
  let* s := get in
  let* r := lift (LocalReservations.reserve (reservations s) cs vs
                    (mkRequest id check_amount hold_amount ttl t)) in
  put (mkInMemory (simple_limits s) (qualified_counters s) (ims_heap s) r.2) ;;;
  ret r.1.

Definition release_reservation (cs : list Counter) (id : ReservationId) : IM bool :=
  let* s := get in
  let '(released, r) := release (reservations s) cs id in
  put (mkInMemory (simple_limits s) (qualified_counters s) (ims_heap s) r) ;;;
  ret released.

#[global] Instance in_memory_counter_storage : CounterStorage InMemoryStorage := {|
  cs_is_within_limits := is_within_limits;
  cs_add_counter := add_counter;
  cs_update_counter := update_counter;
  cs_check := check;
  cs_check_and_update := check_and_update;
  cs_get_counters := get_counters;
  cs_delete_counters := delete_counters;
  cs_clear := clear;
  cs_reserve := reserve;
  cs_release_reservation := release_reservation
|}.

End in_memory.
