(* ===== verification/InMemoryInv.v ===== *)
(** * The invariant of the in-memory storage, kept by every operation

    No assumption on the clock, and the cache may evict any entry at any
    insertion. *)

From S2P Require Import Prelude AtomicExpiringValue Cel Errors Limit Counter Reservation.
From S2P Require Import Storage Moka LocalReservations InMemory.

Section invariant.
Context {CE : CelEngine} {HO : HashOrder} {MC : MokaCache} {ML : MokaLaws}.
Implicit Types (s : InMemoryStorage) (k : CounterKey) (c : Counter).

(** The cell the cache holds for a counter with variables. *)
Definition qloc s k : option nat := snd <$> moka_get (qualified_counters s) k.

Record in_memory_wf s : Prop := {
  wf_simple : forall (k : LimitKey) l v, simple_limits s !! k = Some (l, v) -> limit_key l = k /\ aev_wf v;
  wf_loc : forall k loc, qloc s k = Some loc -> (loc < length (ims_heap s))%nat;
  wf_inj : forall k1 k2 loc, qloc s k1 = Some loc -> qloc s k2 = Some loc -> k1 = k2;
  wf_heap : Forall aev_wf (ims_heap s);
  wf_registry : registry_wf (reservations s)
}.

Lemma since_epoch_u64 {E} when n : since_epoch (E := E) when = Ok n -> in_u64 n.
Proof.
  unfold since_epoch. destruct (duration_since _ _) as [d|]; [|done]. intros [= <-].
  unfold in_u64, u64_max. pose proof (Z.mod_pos_bound (as_micros d) 18446744073709551616). lia.
Qed.

Lemma aev_new_wf {E} v when cell : in_u64 v -> aev_new (E := E) v when = Ok cell -> aev_wf cell.
Proof.
  intros Hv. unfold aev_new, expiry_new, outcome_map.
  destruct (since_epoch when) as [n|e|m] eqn:Hn; simpl; [|done..]. intros [= <-].
  split; [done|]. by eapply since_epoch_u64.
Qed.

Lemma update_wf {E} cell delta d when r :
  aev_wf cell -> in_u64 delta -> update (E := E) cell delta d when = Ok r -> aev_wf r.2.
Proof.
  intros [Hv He] Hd. unfold update, update_if_expired.
  destruct (as_micros d <=? u64_max); [|done]. simpl.
  destruct (since_epoch when) as [n|e|m] eqn:Hn; simpl; [|done..].
  destruct (expiry (aev_expiry cell) <=? n).
  - unfold compare_exchange. rewrite Z.eqb_refl. simpl. intros [= <-].
    split; simpl; [done|apply u64_add_in].
  - simpl. intros [= <-]. split; simpl; [apply u64_add_in|done].
Qed.

Lemma aev_default_wf : aev_wf aev_default.
Proof. by vm_compute; intuition discriminate. Qed.

Lemma in_memory_new_wf n : in_memory_wf (in_memory_new n).
Proof.
  split; simpl.
  - intros k l v. by rewrite lookup_empty.
  - intros k loc. unfold qloc. simpl. by rewrite moka_get_new.
  - intros k1 k2 loc. unfold qloc. simpl. by rewrite moka_get_new.
  - constructor.
  - apply registry_new_wf.
Qed.

(** Same cache and heap of cells, other simple limits. *)
Lemma wf_set_simple s m :
  in_memory_wf s -> (forall (k : LimitKey) l v, m !! k = Some (l, v) -> limit_key l = k /\ aev_wf v) ->
  in_memory_wf (mkInMemory m (qualified_counters s) (ims_heap s) (reservations s)).
Proof. intros [] Hm. by split. Qed.

Lemma wf_set_registry s r :
  in_memory_wf s -> registry_wf r ->
  in_memory_wf (mkInMemory (simple_limits s) (qualified_counters s) (ims_heap s) r).
Proof. intros [] Hr. by split. Qed.

Lemma wf_set_cell s loc v :
  in_memory_wf s -> aev_wf v ->
  in_memory_wf (mkInMemory (simple_limits s) (qualified_counters s) (<[loc := v]> (ims_heap s))
                  (reservations s)).
Proof.
  intros [] Hv. split; simpl; [done| |done| |done].
  - intros k l Hk. rewrite length_insert. eauto.
  - by apply Forall_insert.
Qed.

(** A cache with fewer entries. *)
Lemma wf_sub_cache s cache :
  in_memory_wf s ->
  (forall k loc, snd <$> moka_get cache k = Some loc -> qloc s k = Some loc) ->
  in_memory_wf (mkInMemory (simple_limits s) cache (ims_heap s) (reservations s)).
Proof.
  intros [] Hsub. split; simpl; [done| | |done|done].
  - intros k loc Hk. eauto.
  - intros k1 k2 loc H1 H2. eauto.
Qed.

Lemma wf_alloc s c v :
  in_memory_wf s -> aev_wf v ->
  in_memory_wf (mkInMemory (simple_limits s) (moka_insert (qualified_counters s) c (length (ims_heap s)))
                  (ims_heap s ++ [v]) (reservations s)).
Proof.
  intros [Hs Hl Hi Hh Hr] Hv.
  assert (Hcase : forall k loc,
            snd <$> moka_get (moka_insert (qualified_counters s) c (length (ims_heap s))) k = Some loc ->
            (k = counter_key c /\ loc = length (ims_heap s)) \/ qloc s k = Some loc).
  { intros k loc. destruct (decide (k = counter_key c)) as [->|Hk].
    - destruct (moka_insert_self _ (qualified_counters s) c (length (ims_heap s))) as [->|[x ->]]; [done|].
      intros [= <-]. by left.
    - destruct (moka_insert_other _ (qualified_counters s) c (length (ims_heap s)) k Hk) as [->| ->]; [done|].
      by right. }
  split; simpl; [done| | |by apply Forall_app_2; [|constructor]|done].
  - intros k loc Hk. rewrite length_app. simpl. apply Hcase in Hk as [[_ ->]|Hk]; [lia|].
    apply Hl in Hk. lia.
  - intros k1 k2 loc [[-> ->]|H1]%Hcase [[-> Heq]|H2]%Hcase; [done|..|by eapply Hi].
    + apply Hl in H2. lia.
    + subst. apply Hl in H1. lia.
Qed.

(** ** Every operation *)

Section operations.

Lemma simple_put_wf (k : LimitKey) l v : limit_key l = k -> aev_wf v -> preserves in_memory_wf (simple_put k l v).
Proof.
  intros Hk Hv. unfold simple_put. preserve. apply preserves_put, wf_set_simple; [done|].
  intros k' l' v'. rewrite lookup_insert_Some. intros [[<- [= <- <-]]|[_ Hl]]; [done|].
  by eapply wf_simple.
Qed.

(** [update] of a well-formed cell, with its result bound. *)
Lemma preserves_update {B} v delta d when (k : Z * AtomicExpiringValue -> M InMemoryStorage StorageErr B) :
  aev_wf v -> in_u64 delta ->
  (forall r, aev_wf r.2 -> preserves in_memory_wf (k r)) ->
  preserves in_memory_wf (bind (lift (update v delta d when)) k).
Proof.
  intros Hv Hd Hk w Hw. unfold bind, lift. destruct (update v delta d when) as [r|e|m] eqn:Hu; [|done..].
  apply Hk; [|done]. by eapply update_wf.
Qed.

Lemma preserves_aev_new {B} v when (k : AtomicExpiringValue -> M InMemoryStorage StorageErr B) :
  in_u64 v -> (forall cell, aev_wf cell -> preserves in_memory_wf (k cell)) ->
  preserves in_memory_wf (bind (lift (aev_new v when)) k).
Proof.
  intros Hv Hk w Hw. unfold bind, lift. destruct (aev_new v when) as [r|e|m] eqn:Hu; [|done..].
  apply Hk; [|done]. by eapply aev_new_wf.
Qed.

Lemma simple_update_wf (k : LimitKey) delta d when : in_u64 delta -> preserves in_memory_wf (simple_update k delta d when).
Proof.
  intros Hd. unfold simple_update. apply preserves_bind_get. intros s Hs.
  destruct (simple_limits s !! k) as [[l v]|] eqn:Hk; [|auto with preserves].
  apply (wf_simple _ Hs) in Hk as [Hk Hv].
  apply preserves_update; [done..|]. intros r Hr.
  apply preserves_bind; [by apply simple_put_wf|auto with preserves].
Qed.

Lemma preserves_heap_get {B} loc (k : AtomicExpiringValue -> M InMemoryStorage StorageErr B) :
  (forall v, aev_wf v -> preserves in_memory_wf (k v)) -> preserves in_memory_wf (bind (heap_get loc) k).
Proof.
  intros Hk w Hw. apply (Hk (default aev_default (ims_heap (w_state w) !! loc))); [|done].
  destruct (ims_heap (w_state w) !! loc) as [v|] eqn:Hv; [|apply aev_default_wf].
  pose proof (wf_heap _ Hw) as Hh. rewrite Forall_forall in Hh. eapply Hh, list_elem_of_lookup_2, Hv.
Qed.

Lemma heap_update_wf loc delta d when : in_u64 delta -> preserves in_memory_wf (heap_update loc delta d when).
Proof.
  intros Hd. unfold heap_update. apply preserves_heap_get. intros v Hv.
  apply preserves_update; [done..|]. intros r Hr. preserve. by apply preserves_put, wf_set_cell.
Qed.

Lemma zero_u64 : in_u64 0.
Proof. unfold in_u64, u64_max. lia. Qed.

Lemma qualified_get_wf c : preserves in_memory_wf (qualified_get c).
Proof. unfold qualified_get. preserve. Qed.

Lemma simple_get_wf (k : LimitKey) : preserves in_memory_wf (simple_get k).
Proof. unfold simple_get. preserve. Qed.

Lemma heap_get_wf loc : preserves in_memory_wf (heap_get loc).
Proof. unfold heap_get. preserve. Qed.

Lemma value_wf v : preserves in_memory_wf (value (E := StorageErr) v).
Proof. unfold value. preserve. Qed.

Lemma ttl_wf v : preserves in_memory_wf (ttl (E := StorageErr) v).
Proof. unfold ttl, expiry_ttl. preserve. Qed.

Lemma qualified_get_with_wf c when : preserves in_memory_wf (qualified_get_with c when).
Proof.
  unfold qualified_get_with. apply preserves_bind; [apply qualified_get_wf|]. intros [loc|]; [auto with preserves|].
  apply preserves_bind; [auto with preserves|]. intros t'.
  apply preserves_aev_new; [apply zero_u64|]. intros v Hv. apply preserves_bind_get. intros s Hs.
  apply preserves_bind; [by apply preserves_put, wf_alloc|auto with preserves].
Qed.

Ltac preserve_cells :=
  repeat (first [ solve [auto with preserves nocore]
                | apply preserves_aev_new; [auto with preserves nocore|intros ? ?]
                | apply simple_put_wf; [reflexivity|auto with preserves nocore]
                | preserve_step ]).

Hint Resolve qualified_get_wf simple_get_wf heap_get_wf value_wf ttl_wf qualified_get_with_wf
  simple_update_wf heap_update_wf zero_u64 aev_default_wf : preserves.

Lemma read_cell_wf cell c : preserves in_memory_wf (read_cell cell c).
Proof. unfold read_cell. preserve. Qed.
Hint Resolve read_cell_wf : preserves.

Lemma is_within_limits_wf c delta : preserves in_memory_wf (is_within_limits c delta).
Proof. unfold is_within_limits. preserve. Qed.

Lemma add_counter_wf l : preserves in_memory_wf (add_counter l).
Proof. unfold add_counter. preserve_cells. Qed.

Lemma update_counter_wf c delta : in_u64 delta -> preserves in_memory_wf (update_counter c delta).
Proof.
  intros Hd. unfold update_counter. preserve_cells.
Qed.
Hint Resolve update_counter_wf : preserves.

Lemma evaluate_pass_wf q delta fl cs : preserves in_memory_wf (evaluate_pass q delta fl cs).
Proof. revert fl. induction cs as [|c cs IH]; intros fl; simpl; preserve. Qed.
Hint Resolve evaluate_pass_wf : preserves.

Lemma evaluate_wf cs delta : preserves in_memory_wf (evaluate cs delta).
Proof. unfold evaluate. preserve. Qed.

Lemma check_step_wf when delta acc c : preserves in_memory_wf (check_step when delta acc c).
Proof. unfold check_step. preserve. Qed.
Hint Resolve check_step_wf : preserves.

Lemma check_and_update_wf cs delta : in_u64 delta -> preserves in_memory_wf (check_and_update cs delta).
Proof. intros Hd. unfold check_and_update. preserve. Qed.

Lemma get_counters_wf limits : preserves in_memory_wf (get_counters limits).
Proof. unfold get_counters, counters_in_namespace, collect_counter. preserve. Qed.

(** Invalidating one entry after another only removes entries. *)
Lemma invalidate_loop_sub l (entries : list (Counter * nat)) (cache : moka nat) k (loc : nat) :
  snd <$> moka_get (foldl (fun cache '(c, _) =>
      if limit_eq (ctr_limit c) l then moka_invalidate cache (counter_key c) else cache) cache entries) k
    = Some loc ->
  snd <$> moka_get cache k = Some loc.
Proof.
  revert cache. induction entries as [|[c x] entries IH]; intros cache; simpl; [done|].
  intros Hk%IH. destruct (limit_eq (ctr_limit c) l); [|done].
  destruct (decide (k = counter_key c)) as [->|Hne].
  - by rewrite moka_invalidate_self in Hk.
  - by rewrite moka_invalidate_other in Hk.
Qed.

Lemma delete_counters_of_limit_wf l : preserves in_memory_wf (delete_counters_of_limit l).
Proof.
  unfold delete_counters_of_limit. apply preserves_bind_get. intros s Hs. case_bool_decide.
  - apply preserves_put, wf_set_simple; [done|]. intros k l' v [_ Hl]%lookup_delete_Some.
    by eapply wf_simple.
  - apply preserves_put, wf_sub_cache; [done|]. intros k loc.
    destruct (moka_invalidate_entries_if _ _) as [cache|] eqn:Hi; [|apply invalidate_loop_sub].
    rewrite (moka_invalidate_if_spec _ _ _ _ k Hi). unfold qloc.
    destruct (moka_get _ k) as [[x v]|]; [|done]. by destruct (limit_eq _ _).
Qed.

Lemma delete_counters_wf limits : preserves in_memory_wf (delete_counters limits).
Proof. unfold delete_counters. preserve. apply delete_counters_of_limit_wf. Qed.

Lemma clear_wf : preserves in_memory_wf clear.
Proof. unfold clear. preserve. apply preserves_put, wf_set_simple; [done|]. intros k l v. by rewrite lookup_empty. Qed.

Lemma touch_wf c when : preserves in_memory_wf (touch c when).
Proof.
  unfold touch, simple_or_insert. preserve_cells.
Qed.
Hint Resolve touch_wf : preserves.

Lemma reserve_keeps_wf cs id ca ha d : preserves in_memory_wf (reserve cs id ca ha d).
Proof.
  unfold reserve. apply preserves_bind; [auto with preserves|]. intros when.
  apply preserves_bind; [preserve|]. intros vs. apply preserves_bind_get. intros s Hs w Hw.
  unfold bind, lift. destruct (LocalReservations.reserve _ _ _ _) as [[[cs' a] r]|e|m] eqn:Hr; [|done..].
  simpl. apply wf_set_registry; [done|]. eapply reserve_wf; [|done]. by apply wf_registry.
Qed.

Lemma release_reservation_wf cs id : preserves in_memory_wf (release_reservation cs id).
Proof.
  unfold release_reservation. apply preserves_bind_get. intros s Hs.
  pose proof (release_wf (reservations s) cs id (wf_registry _ Hs)) as Hr.
  destruct (release _ _ _) as [b r]. preserve. by apply preserves_put, wf_set_registry.
Qed.
End operations.

(** ** Reachable states *)

(** A call through the trait, with its arguments. *)
Inductive CounterCall : Type :=
| CallIsWithin (c : Counter) (delta : Z)
| CallAdd (l : Limit)
| CallUpdate (c : Counter) (delta : Z)
| CallCheck (cs : list Counter) (delta : Z)
| CallCheckAndUpdate (cs : list Counter) (delta : Z)
| CallGetCounters (limits : LimitSet)
| CallDelete (limits : LimitSet)
| CallClear
| CallReserve (cs : list Counter) (id : ReservationId) (check hold : Z) (ttl : Duration)
| CallRelease (cs : list Counter) (id : ReservationId).

Definition run_call `{!CounterStorage St} (call : CounterCall) : M St StorageErr unit :=
  match call with
  | CallIsWithin c delta => cs_is_within_limits c delta ;;; ret tt
  | CallAdd l => cs_add_counter l
  | CallUpdate c delta => cs_update_counter c delta
  | CallCheck cs delta => cs_check cs delta ;;; ret tt
  | CallCheckAndUpdate cs delta => cs_check_and_update cs delta ;;; ret tt
  | CallGetCounters limits => cs_get_counters limits ;;; ret tt
  | CallDelete limits => cs_delete_counters limits
  | CallClear => cs_clear
  | CallReserve cs id check hold ttl => cs_reserve cs id check hold ttl ;;; ret tt
  | CallRelease cs id => cs_release_reservation cs id ;;; ret tt
  end.

(** The type of [delta] is [u64]. *)
Definition call_typed (call : CounterCall) : Prop :=
  match call with
  | CallUpdate _ delta | CallCheckAndUpdate _ delta => in_u64 delta
  | _ => True
  end.

(** A call at any readings of the clock, whatever its outcome, or the cache
    dropping entries on its own. *)
Inductive im_step : InMemoryStorage -> InMemoryStorage -> Prop :=
| step_call s call clock n :
    call_typed call -> im_step s (w_state (run_call call (mkWorld s clock n)).2)
| step_evict s cache :
    (forall k x loc, moka_get cache k = Some (x, loc) -> moka_get (qualified_counters s) k = Some (x, loc)) ->
    im_step s (mkInMemory (simple_limits s) cache (ims_heap s) (reservations s))
| step_evict_reservations s cache :
    (forall k x loc, moka_get cache k = Some (x, loc) ->
                     moka_get (reg_cache (reservations s)) k = Some (x, loc)) ->
    im_step s (mkInMemory (simple_limits s) (qualified_counters s) (ims_heap s)
                 (mkRegistry cache (reg_heap (reservations s)))).

Lemma run_call_wf call : call_typed call -> preserves in_memory_wf (run_call call).
Proof.
  intros Ht. destruct call; simpl; try (apply preserves_bind; [|intros; apply preserves_ret]).
  - apply is_within_limits_wf.
  - apply add_counter_wf.
  - by apply update_counter_wf.
  - apply evaluate_wf.
  - by apply check_and_update_wf.
  - apply get_counters_wf.
  - apply delete_counters_wf.
  - apply clear_wf.
  - apply reserve_keeps_wf.
  - apply release_reservation_wf.
Qed.

Lemma im_step_wf s s' : im_step s s' -> in_memory_wf s -> in_memory_wf s'.
Proof.
  intros Hstep Hwf. destruct Hstep as [s call clock n Ht|s cache Hc|s cache Hc].
  - by apply run_call_wf.
  - apply wf_sub_cache; [done|]. intros k loc. unfold qloc.
    destruct (moka_get cache k) as [[x l]|] eqn:Hk; [|done]. by rewrite (Hc _ _ _ Hk).
  - apply wf_set_registry; [done|]. apply (registry_wf_sub (reservations s)); [by apply wf_registry|done|].
    intros k loc. unfold loc_of. simpl.
    destruct (moka_get cache k) as [[x l]|] eqn:Hk; [|done]. by rewrite (Hc _ _ _ Hk).
Qed.

(** Every state the in-memory storage can reach, by calls at arbitrary clock
    readings (the ones that fail or panic half-way included) and by evictions at
    arbitrary moments, is well formed: every simple cell is filed under its
    limit's key, every cached handle points to an existing cell of its own, and
    all cells hold [u64]s. *)
Theorem in_memory_reachable_wf n s :
  rtc im_step (in_memory_new n) s -> in_memory_wf s.
Proof.
  intros Hr. remember (in_memory_new n) as s0 eqn:Hs0.
  assert (Hwf : in_memory_wf s0) by (subst; apply in_memory_new_wf). clear Hs0.
  induction Hr as [|s0 s1 s2 Hstep _ IH]; [done|]. apply IH. by eapply im_step_wf.
Qed.
End invariant.

#[local] Existing Instance demo_engine.
#[local] Existing Instance demo_hash_order.
#[local] Existing Instance gmap_moka.

Lemma in_memory_reachable_wf_witness :
  in_memory_wf (w_state (run_call (CallUpdate demo_counter 3)
                           (mkWorld (in_memory_new 10) (fun _ => from_secs 5) 0)).2).
Proof.
  apply (in_memory_reachable_wf (ML := gmap_moka_laws) 10).
  apply rtc_once, step_call. vm_compute. split; discriminate.
Defined.
