(* ===== verification/InMemorySpec.v ===== *)
(** * The in-memory storage keeps the contract of [CounterStorageSpec]

    For a cache that is below its capacity.  [cell_at] reads the storage as one
    map from counters to cells; every lemma says how an operation changes it. *)

From S2P Require Import Prelude AtomicExpiringValue Cel Errors Limit Counter Reservation.
From S2P Require Import Storage Moka LocalReservations StorageSpec InMemory InMemoryInv.

Section cells.
Context {CE : CelEngine} {HO : HashOrder} {MC : MokaCache}.
Implicit Types (s : InMemoryStorage) (k : CounterKey) (c : Counter) (t : SystemTime).

(** The cell of a counter. *)
Definition cell_at s k : option AtomicExpiringValue :=
  if decide (k.2 = ∅) then snd <$> simple_limits s !! k.1
  else qloc s k ≫= (fun loc => ims_heap s !! loc).

(** What a cell shows at [t]. *)
Definition cell_value t (cell : option AtomicExpiringValue) : Z :=
  match cell with
  | Some v => if decide (live v t) then aev_value v else 0
  | None => 0
  end.

Definition cell_ttl t c (cell : option AtomicExpiringValue) : Duration :=
  match cell with Some v => ttl_at v t | None => window c end.

Definition im_value s t k : Z := cell_value t (cell_at s k).

Definition im_holds s k : list ReservationEntry := entries_of (reservations s) k.

(** When the window of a cell ends. *)
Definition cell_end (cell : option AtomicExpiringValue) : Z :=
  match cell with Some v => expiry (aev_expiry v) | None => 0 end.

Definition im_end s k : Z := cell_end (cell_at s k).

Lemma im_value_at_later s t t' k : 0 <= t <= t' ->
  im_value s t' k = if as_micros t' <? im_end s k then im_value s t k else 0.
Proof.
  intros [H0 Ht]. pose proof (as_micros_mono t t' Ht). pose proof (as_micros_nonneg t H0).
  unfold im_value, im_end. destruct (cell_at s k) as [v|]; simpl; [|by case_match].
  unfold live. destruct (Z.ltb_spec (as_micros t') (expiry (aev_expiry v))); [by rewrite !decide_True by lia|].
  by rewrite decide_False by lia.
Qed.

Lemma value_at_cell {E} v t : good_time t -> value_at (E := E) v t = Ok (cell_value t (Some v)).
Proof.
  intros Ht. simpl. destruct (decide (live v t)); [by apply value_at_live|by apply value_at_expired].
Qed.

Lemma runs_value t s v : good_time t -> runs t s (value (E := StorageErr) v) (Ok (cell_value t (Some v))) s.
Proof.
  intros Ht. unfold value. runs_step. rewrite value_at_cell by done. apply runs_lift.
Qed.

Lemma runs_ttl t s v : runs t s (ttl (E := StorageErr) v) (Ok (ttl_at v t)) s.
Proof. unfold ttl, expiry_ttl. runs_step. apply runs_ret. Qed.

Lemma runs_simple_get t s (k : LimitKey) : runs t s (simple_get k) (Ok (snd <$> simple_limits s !! k)) s.
Proof. unfold simple_get. runs_step. apply runs_ret. Qed.

Lemma runs_qualified_get t s c : runs t s (qualified_get c) (Ok (qloc s (counter_key c))) s.
Proof. unfold qualified_get. runs_step. apply runs_ret. Qed.

Lemma runs_heap_get t s loc : runs t s (heap_get loc) (Ok (default aev_default (ims_heap s !! loc))) s.
Proof. unfold heap_get. runs_step. apply runs_ret. Qed.

Lemma runs_read_cell t s cell c :
  good_time t -> runs t s (read_cell cell c) (Ok (cell_value t cell, cell_ttl t c cell)) s.
Proof.
  intros Ht. destruct cell as [v|]; [|apply runs_ret]. unfold read_cell.
  eapply runs_bind; [by apply runs_value|]. eapply runs_bind; [apply runs_ttl|]. apply runs_ret.
Qed.

Lemma cell_at_simple s c :
  is_qualified c = false -> cell_at s (counter_key c) = snd <$> simple_limits s !! limit_key (ctr_limit c).
Proof.
  intros Hq. apply not_qualified_spec in Hq. unfold cell_at. simpl. by rewrite decide_True.
Qed.

Lemma cell_at_qualified s c :
  is_qualified c = true -> cell_at s (counter_key c) = qloc s (counter_key c) ≫= (fun loc => ims_heap s !! loc).
Proof.
  intros Hq. apply is_qualified_spec in Hq. unfold cell_at. simpl. by rewrite decide_False.
Qed.

(** What a counter with variables points to. *)
Lemma cell_at_loc s c loc :
  in_memory_wf s -> is_qualified c = true -> qloc s (counter_key c) = Some loc ->
  cell_at s (counter_key c) = Some (default aev_default (ims_heap s !! loc)).
Proof.
  intros Hwf Hq Hl. rewrite cell_at_qualified, Hl by done. simpl.
  apply (wf_loc _ Hwf) in Hl. by destruct (lookup_lt_is_Some_2 _ _ Hl) as [v ->].
Qed.

(** ** [record] *)

Definition annotate s t c : Counter :=
  let cell := cell_at s (counter_key c) in
  set_expires_in (set_remaining c (u64_saturating_sub (max_value c) (cell_value t cell)))
    (if cell_ttl t c cell =? 0 then window c else cell_ttl t c cell).

Definition im_over s t (delta : Z) c : bool := over (im_value s t (counter_key c)) delta c.

Definition note_limited (fl : option (option string)) (b : bool) c : option (option string) :=
  match fl with
  | Some n => Some n
  | None => if b then Some (limit_name (ctr_limit c)) else None
  end.

Lemma record_spec s t delta fl c :
  let cell := cell_at s (counter_key c) in
  record delta fl c (cell_value t cell) (cell_ttl t c cell) =
    (annotate s t c, note_limited fl (im_over s t delta c) c).
Proof.
  unfold record, annotate, note_limited, im_over, over, im_value. cbn zeta. f_equal.
  destruct fl; [done|]. by destruct (u64_checked_sub _ _).
Qed.

Lemma annotate_key s t c : counter_key (annotate s t c) = counter_key c.
Proof. done. Qed.

Lemma ttl_at_nonneg v t : 0 <= ttl_at v t.
Proof.
  unfold ttl_at, expiry_ttl_at, duration_since. destruct (Z.leb_spec t (UNIX_EPOCH + from_micros (expiry (aev_expiry v))));
    simpl; lia.
Qed.

Lemma annotate_annotates s t c : counter_ok t c -> annotates (im_value s t) c (annotate s t c).
Proof.
  intros (_ & Hsec & _). split_and!; [done..|]. eexists. split; [done|].
  assert (0 < window c) by (unfold window, from_secs, nanos_per_sec; lia).
  destruct (Z.eqb_spec (cell_ttl t c (cell_at s (counter_key c))) 0) as [|Hne]; [done|].
  destruct (cell_at s (counter_key c)) as [v|]; simpl in *; [|done].
  pose proof (ttl_at_nonneg v t). lia.
Qed.

(** ** [check] *)

Lemma evaluate_pass_spec q s t delta fl cs :
  good_time t -> in_memory_wf s ->
  runs t s (evaluate_pass q delta fl cs)
    (Ok ((fun c => if Bool.eqb (is_qualified c) q then annotate s t c else c) <$> cs,
         match fl with
         | Some n => Some n
         | None => (fun c => limit_name (ctr_limit c)) <$>
                   List.find (fun c => Bool.eqb (is_qualified c) q && im_over s t delta c) cs
         end)) s.
Proof.
  intros Ht Hwf. revert fl. induction cs as [|c cs IH]; intros fl; simpl.
  { destruct fl; apply runs_ret. }
  eapply runs_bind with (s1 := s)
    (a := if Bool.eqb (is_qualified c) q
          then (annotate s t c, note_limited fl (im_over s t delta c) c) else (c, fl)).
  - destruct (Bool.eqb_spec (is_qualified c) q) as [Hq|]; [|apply runs_ret].
    eapply runs_bind with (s1 := s) (a := cell_at s (counter_key c)).
    + destruct q.
      * eapply runs_bind; [apply runs_qualified_get|]. destruct (qloc s (counter_key c)) as [loc|] eqn:Hl.
        -- eapply runs_bind; [apply runs_heap_get|]. rewrite (cell_at_loc s c loc) by done. apply runs_ret.
        -- rewrite cell_at_qualified, Hl by done. apply runs_ret.
      * rewrite cell_at_simple by done. apply runs_simple_get.
    + eapply runs_bind; [by apply runs_read_cell|]. cbn beta iota.
      rewrite record_spec. apply runs_ret.
  - destruct (Bool.eqb (is_qualified c) q); cbn beta iota; (eapply runs_bind; [apply IH|]); cbn beta iota.
    + unfold note_limited. destruct fl; [apply runs_ret|]. simpl.
      destruct (im_over s t delta c); apply runs_ret.
    + destruct fl; apply runs_ret.
Qed.

(** Both loops of [evaluate]: all counters annotated, the first unqualified
    counter over its limit reported, else the first qualified one. *)
Lemma evaluate_spec s t delta cs :
  good_time t -> in_memory_wf s ->
  runs t s (evaluate cs delta)
    (Ok (annotate s t <$> cs,
         match List.find (fun c => negb (is_qualified c) && im_over s t delta c) cs with
         | Some c => AuthLimited (limit_name (ctr_limit c))
         | None => match List.find (fun c => is_qualified c && im_over s t delta c) cs with
                   | Some c => AuthLimited (limit_name (ctr_limit c))
                   | None => AuthOk
                   end
         end)) s.
Proof.
  intros Ht Hwf. unfold evaluate.
  eapply runs_bind; [by apply evaluate_pass_spec|]. cbn beta iota.
  eapply runs_bind; [by apply evaluate_pass_spec|]. cbn beta iota.
  set (pass1 := fun c => if Bool.eqb (is_qualified c) false then annotate s t c else c).
  assert (Hann : (fun c => if Bool.eqb (is_qualified c) true then annotate s t c else c) <$> (pass1 <$> cs)
                 = annotate s t <$> cs).
  { rewrite <-list_fmap_compose. apply list_fmap_ext. intros i c _. unfold pass1, compose.
    destruct (is_qualified c) eqn:Hq; simpl; rewrite ?Hq; [done|].
    change (is_qualified (annotate s t c)) with (is_qualified c). by rewrite Hq. }
  assert (Hfind : List.find (fun c => Bool.eqb (is_qualified c) true && im_over s t delta c) (pass1 <$> cs)
                  = pass1 <$> List.find (fun c => is_qualified c && im_over s t delta c) cs).
  { clear Hann. induction cs as [|c cs IH]; [done|]. simpl.
    assert (Hc : is_qualified (pass1 c) = is_qualified c /\ im_over s t delta (pass1 c) = im_over s t delta c).
    { unfold pass1. by destruct (Bool.eqb _ _). }
    destruct Hc as [-> ->]. replace (Bool.eqb (is_qualified c) true) with (is_qualified c)
      by (by destruct (is_qualified c)).
    by destruct (is_qualified c && im_over s t delta c). }
  rewrite Hann, Hfind. 
  assert (Hf1 : List.find (fun c => Bool.eqb (is_qualified c) false && im_over s t delta c) cs
                = List.find (fun c => negb (is_qualified c) && im_over s t delta c) cs).
  { clear. induction cs as [|c cs IH]; [done|]. simpl. rewrite IH. by destruct (is_qualified c). }
  rewrite Hf1. destruct (List.find (fun c => negb _ && _) cs); [apply runs_ret|]. simpl.
  destruct (List.find _ cs) as [c|]; simpl; [|apply runs_ret].
  replace (limit_name (ctr_limit (pass1 c))) with (limit_name (ctr_limit c)); [apply runs_ret|].
  unfold pass1. by destruct (Bool.eqb _ _).
Qed.

Lemma check_contract s t cs delta :
  in_memory_wf s -> good_time t -> Forall (counter_ok t) cs -> exists cs' a,
    runs t s (check cs delta) (Ok (cs', a)) s /\
    Forall2 (annotates (im_value s t)) cs cs' /\ decides (im_value s t) delta cs a.
Proof.
  intros Hwf Ht Hok. do 2 eexists. split; [by apply evaluate_spec|]. split.
  - apply Forall2_fmap_r. apply Forall_Forall2_diag. eapply Forall_impl; [done|].
    intros c. apply annotate_annotates.
  - destruct (List.find _ cs) as [c|] eqn:H1.
    + apply List.find_some in H1 as [Hin Ho]. apply andb_true_iff in Ho as [_ Ho].
      exists c. split_and!; [by apply list_elem_of_In|done|done].
    + destruct (List.find (fun c => is_qualified c && _) cs) as [c|] eqn:H2; simpl.
      * apply List.find_some in H2 as [Hin Ho]. apply andb_true_iff in Ho as [_ Ho].
        exists c. split_and!; [by apply list_elem_of_In|done|done].
      * apply find_none_forall in H1, H2. rewrite Forall_forall in H1, H2 |- *. intros c Hc.
        specialize (H1 c Hc). specialize (H2 c Hc). simpl in H1, H2.
        unfold im_over in H1, H2. by destruct (is_qualified c).
Qed.

Lemma is_within_contract s t c delta :
  in_memory_wf s -> good_time t ->
  runs t s (is_within_limits c delta)
    (Ok (u64_saturating_add (im_value s t (counter_key c)) delta <=? max_value c)) s.
Proof.
  intros Hwf Ht. unfold is_within_limits.
  eapply runs_bind with (s1 := s) (a := im_value s t (counter_key c)); [|apply runs_ret].
  unfold im_value. destruct (is_qualified c) eqn:Hq.
  - eapply runs_bind; [apply runs_qualified_get|]. destruct (qloc s (counter_key c)) as [loc|] eqn:Hl.
    + eapply runs_bind; [apply runs_heap_get|]. rewrite (cell_at_loc s c loc) by done.
      by apply runs_value.
    + rewrite cell_at_qualified, Hl by done. apply runs_ret.
  - eapply runs_bind; [apply runs_simple_get|]. rewrite cell_at_simple by done.
    destruct (simple_limits s !! _) as [[l v]|]; simpl; [by apply runs_value|apply runs_ret].
Qed.
End cells.

(** ** Changing cells *)

Section updates.
Context {CE : CelEngine} {HO : HashOrder} {MC : MokaCache} {ML : MokaLaws} {MR : MokaRoomy}.
Implicit Types (s : InMemoryStorage) (k : CounterKey) (c : Counter) (t : SystemTime).

(** Handles and reservations survive, and windows that are open at [t]. *)
Record extends t s s' : Prop := {
  ext_res : reservations s' = reservations s;
  ext_loc : forall k loc, qloc s k = Some loc -> qloc s' k = Some loc;
  ext_simple : forall kl, is_Some (simple_limits s !! kl) -> is_Some (simple_limits s' !! kl);
  ext_end : forall k, window_kept t k (im_end s k) (im_end s' k)
}.

#[global] Instance extends_preorder t : PreOrder (extends t).
Proof.
  split; [split; [done..|by left]|].
  intros s1 s2 s3 [H1 H2 H3 H4] [H5 H6 H7 H8]. split; [congruence|auto..|]. intros k. by eapply window_kept_trans.
Qed.

(** [v] may become the cell of [k] at [t]: it has the window of the old one if that is
    open, or else that or a new one. *)
Definition may_become t s k (v : AtomicExpiringValue) : Prop :=
  window_kept t k (im_end s k) (expiry (aev_expiry v)).

(** Exactly the cell of [k0] changed, to [v]. *)
Definition cell_set t s s' (k0 : CounterKey) (v : AtomicExpiringValue) : Prop :=
  in_memory_wf s' /\ extends t s s' /\
  forall k, cell_at s' k = if decide (k = k0) then Some v else cell_at s k.

(** What a change of one cell does to the ends of the windows. *)
Lemma cell_set_end t s s' k0 v :
  may_become t s k0 v -> (forall k, cell_at s' k = if decide (k = k0) then Some v else cell_at s k) ->
  forall k, window_kept t k (im_end s k) (im_end s' k).
Proof.
  intros Hm Hc k. unfold im_end at 2. rewrite Hc. destruct (decide (k = k0)) as [->|]; [done|by left].
Qed.

(** The value of [k0], and no other, grew by [delta]. *)
Definition bumped t (delta : Z) s s' (k0 : CounterKey) : Prop :=
  in_memory_wf s' /\ extends t s s' /\
  forall k, im_value s' t k = if decide (k = k0) then u64_add (im_value s t k) delta else im_value s t k.

Lemma update_value {E} v delta d t :
  aev_wf v -> in_u64 delta -> good_window t d -> 0 < as_micros d ->
  exists v', update (E := E) v delta d t = Ok (u64_add (cell_value t (Some v)) delta, v') /\
    cell_value t (Some v') = u64_add (cell_value t (Some v)) delta /\ aev_wf v' /\ live v' t /\
    (expiry (aev_expiry v') = expiry (aev_expiry v) \/
     expiry (aev_expiry v) <= as_micros t /\ expiry (aev_expiry v') = as_micros t + as_micros d).
Proof.
  intros [Hv He] Hd Hw Hpos. simpl. destruct (decide (live v t)) as [Hl|Hl].
  - rewrite update_live by done. eexists. split; [done|].
    rewrite decide_True by done. simpl. split_and!; [done|split; [apply u64_add_in|done]|done|by left].
  - rewrite update_expired by done. eexists.
    assert (Hz : u64_add 0 delta = delta) by (unfold in_u64 in Hd; rewrite u64_add_small; lia).
    rewrite Hz. split; [done|]. assert (Hlive : live (mkAev delta (mkExpiry (as_micros t + as_micros d))) t)
      by (unfold live; simpl; lia).
    rewrite decide_True by done. unfold live in Hl.
    split_and!; [done| |done|right; simpl; lia]. split; simpl; [done|].
    destruct Hw as ([? ?] & ? & ?). pose proof (as_micros_nonneg t). unfold in_u64. lia.
Qed.

(** The cell of a window just opened with value [v]. *)
Definition fresh t c (v : Z) : AtomicExpiringValue :=
  mkAev v (mkExpiry (as_micros t + as_micros (window c))).

Lemma aev_new_fresh {E} v t c :
  good_window t (window c) -> aev_new (E := E) v (t + window c) = Ok (fresh t c v).
Proof.
  intros ([H0 H1] & H2 & H3). unfold aev_new, expiry_new, outcome_map.
  rewrite since_epoch_good; [simpl; by rewrite as_micros_window|].
  split; [lia|]. by rewrite as_micros_window.
Qed.

Lemma fresh_wf t c v : in_u64 v -> good_window t (window c) -> aev_wf (fresh t c v).
Proof.
  intros Hv ([H0 H1] & H2 & H3). split; simpl; [done|].
  pose proof (as_micros_nonneg t). pose proof (as_micros_nonneg (window c)). unfold in_u64. lia.
Qed.

Lemma fresh_live t c v : 0 < seconds (ctr_limit c) -> live (fresh t c v) t.
Proof. intros Hs. apply window_micros in Hs. unfold live. simpl. lia. Qed.

Lemma fresh_value t c v : 0 < seconds (ctr_limit c) -> cell_value t (Some (fresh t c v)) = v.
Proof. intros Hs. simpl. by rewrite decide_True by (by apply fresh_live). Qed.

(** A counter that had no cell may get a new one. *)
Lemma fresh_may_become s t c v : good_time t -> cell_at s (counter_key c) = None -> may_become t s (counter_key c) (fresh t c v).
Proof.
  intros [Ht _] Hc. right. unfold im_end. rewrite Hc, key_window_counter. simpl.
  pose proof (as_micros_nonneg t Ht). lia.
Qed.

Lemma simple_put_spec s t kl l v :
  in_memory_wf s -> limit_key l = kl -> aev_wf v -> may_become t s (kl, ∅) v ->
  exists s', runs t s (simple_put kl l v) (Ok tt) s' /\ cell_set t s s' (kl, ∅) v.
Proof.
  intros Hwf Hk Hv Hm. eexists. split; [unfold simple_put; runs_step; apply runs_put|].
  match goal with |- cell_set _ _ ?s' _ _ =>
    assert (Hc : forall k, cell_at s' k = if decide (k = (kl, ∅)) then Some v else cell_at s k) end.
  { intros [kl' vs]. unfold cell_at. simpl. destruct (decide (vs = ∅)) as [->|Hne].
    - destruct (decide (kl = kl')) as [<-|Hkl].
      + by rewrite decide_True, lookup_insert_eq by done.
      + rewrite decide_False, lookup_insert_ne by congruence. done.
    - by rewrite decide_False by congruence. }
  split_and!; [| |done].
  - apply wf_set_simple; [done|]. intros k' l' v'. rewrite lookup_insert_Some.
    intros [[<- [= <- <-]]|[_ Hl]]; [done|]. by eapply wf_simple.
  - split; [done|done| |by eapply cell_set_end]. intros kl' Hs. apply lookup_insert_is_Some.
    destruct (decide (kl = kl')); auto.
Qed.

Lemma simple_update_spec s t kl l v v' delta d x :
  in_memory_wf s -> simple_limits s !! kl = Some (l, v) ->
  update (E := StorageErr) v delta d t = Ok (x, v') -> aev_wf v' -> may_become t s (kl, ∅) v' ->
  exists s', runs t s (simple_update kl delta d t) (Ok x) s' /\ cell_set t s s' (kl, ∅) v'.
Proof.
  intros Hwf Hl Hu Hv' Hm. destruct (wf_simple _ Hwf _ _ _ Hl) as [Hk _].
  destruct (simple_put_spec s t kl l v' Hwf Hk Hv' Hm) as (s' & Hr & Hs). exists s'. split; [|done].
  unfold simple_update. runs_step. rewrite Hl, Hu. runs_step. eapply runs_bind; [done|]. apply runs_ret.
Qed.

Lemma heap_update_spec s t c loc v' delta d x :
  in_memory_wf s -> is_qualified c = true -> qloc s (counter_key c) = Some loc ->
  update (E := StorageErr) (default aev_default (ims_heap s !! loc)) delta d t = Ok (x, v') -> aev_wf v' ->
  may_become t s (counter_key c) v' ->
  exists s', runs t s (heap_update loc delta d t) (Ok x) s' /\ cell_set t s s' (counter_key c) v'.
Proof.
  intros Hwf Hq Hl Hu Hv' Hm. eexists. split.
  { unfold heap_update. eapply runs_bind; [apply runs_heap_get|]. rewrite Hu. runs_step. runs_step. runs_step.
    apply runs_ret. }
  pose proof (wf_loc _ Hwf _ _ Hl) as Hlt. apply is_qualified_spec in Hq.
  match goal with |- cell_set _ _ ?s' _ _ =>
    assert (Hc : forall k, cell_at s' k = if decide (k = counter_key c) then Some v' else cell_at s k) end.
  { intros k. unfold cell_at, qloc in *. simpl. destruct (decide (k = counter_key c)) as [->|Hk].
    - rewrite decide_False, Hl by done. simpl. by apply list_lookup_insert_eq.
    - destruct (decide (k.2 = ∅)); [done|].
      destruct (snd <$> moka_get (qualified_counters s) k) as [loc'|] eqn:Hl'; simpl; [|done].
      rewrite list_lookup_insert_ne; [done|]. intros <-. apply Hk. by eapply (wf_inj _ Hwf). }
  split_and!; [by apply wf_set_cell| |done]. split; [done..|by eapply cell_set_end].
Qed.

(** The cells after a new one was made for [c]. *)
Lemma cell_at_alloc s c v :
  in_memory_wf s -> is_qualified c = true -> forall k,
  cell_at (mkInMemory (simple_limits s) (moka_insert (qualified_counters s) c (length (ims_heap s)))
             (ims_heap s ++ [v]) (reservations s)) k =
    if decide (k = counter_key c) then Some v else cell_at s k.
Proof.
  intros Hwf Hq%is_qualified_spec k. unfold cell_at, qloc. simpl.
  destruct (decide (k = counter_key c)) as [->|Hk].
  - rewrite decide_False by done.
    destruct (moka_roomy_self _ (qualified_counters s) c (length (ims_heap s))) as [x ->]. simpl.
    by rewrite lookup_app_r, Nat.sub_diag.
  - destruct (decide (k.2 = ∅)); [done|]. rewrite moka_roomy_other by done.
    destruct (snd <$> moka_get (qualified_counters s) k) as [loc'|] eqn:Hl'; simpl; [|done].
    apply lookup_app_l. by eapply (wf_loc _ Hwf).
Qed.

(** The handle of a counter with variables, whose cell is created if it has none. *)
Lemma qualified_get_with_spec s t c :
  in_memory_wf s -> is_qualified c = true -> counter_ok t c ->
  exists s' loc, runs t s (qualified_get_with c t) (Ok loc) s' /\
    qloc s' (counter_key c) = Some loc /\
    cell_set t s s' (counter_key c) (default (fresh t c 0) (cell_at s (counter_key c))).
Proof.
  intros Hwf Hq (_ & Hsec & Hw). destruct (qloc s (counter_key c)) as [loc|] eqn:Hl.
  - exists s, loc. split_and!; [|done|].
    + unfold qualified_get_with. eapply runs_bind; [apply runs_qualified_get|]. rewrite Hl. apply runs_ret.
    + rewrite (cell_at_loc s c loc) by done. simpl. split_and!; [done|reflexivity|].
      intros k. destruct (decide (k = counter_key c)) as [->|]; [|done]. by apply cell_at_loc.
  - assert (Hnone : cell_at s (counter_key c) = None) by (by rewrite cell_at_qualified, Hl).
    rewrite Hnone. simpl. pose proof (cell_at_alloc s c (fresh t c 0) Hwf Hq) as Hc.
    eexists _, (length (ims_heap s)). unfold cell_set. split_and!; [| | | |exact Hc].
    + unfold qualified_get_with. eapply runs_bind; [apply runs_qualified_get|]. rewrite Hl.
      rewrite good_window_add by done. runs_step. rewrite aev_new_fresh by done. runs_step. runs_step. runs_step.
      apply runs_ret.
    + unfold qloc. simpl. by destruct (moka_roomy_self _ (qualified_counters s) c (length (ims_heap s))) as [x ->].
    + apply wf_alloc; [done|]. apply fresh_wf; [|done]. unfold in_u64, u64_max. lia.
    + split; [done| |done|eapply cell_set_end, Hc; apply fresh_may_become; [by destruct Hw|done]].
      intros k loc Hk. unfold qloc in *. simpl.
      rewrite moka_roomy_other; [done|]. intros ->. by rewrite Hk in Hl.
Qed.

Lemma cell_at_wf s k v : in_memory_wf s -> cell_at s k = Some v -> aev_wf v.
Proof.
  intros Hwf. unfold cell_at. destruct (decide (k.2 = ∅)).
  - destruct (simple_limits s !! k.1) as [[l v']|] eqn:Hl; [|done]. intros [= <-].
    by apply (wf_simple _ Hwf) in Hl as [_ ?].
  - destruct (qloc s k) as [loc|]; [|done]. simpl. intros Hv.
    pose proof (wf_heap _ Hwf) as Hh. rewrite Forall_forall in Hh. by eapply Hh, list_elem_of_lookup_2.
Qed.

Lemma cell_set_trans t s s1 s2 k v v' : cell_set t s s1 k v -> cell_set t s1 s2 k v' -> cell_set t s s2 k v'.
Proof.
  intros (_ & He1 & Hc1) (Hwf & He2 & Hc2). split_and!; [done|by transitivity s1|].
  intros k'. rewrite Hc2, Hc1. by destruct (decide (k' = k)).
Qed.

Lemma cell_set_bumped t delta s s' k v :
  cell_set t s s' k v -> cell_value t (Some v) = u64_add (im_value s t k) delta -> bumped t delta s s' k.
Proof.
  intros (Hwf & He & Hc) Hv. split_and!; [done..|]. intros k'. unfold im_value at 1. rewrite Hc.
  by destruct (decide (k' = k)) as [->|].
Qed.

Lemma simple_key c : is_qualified c = false -> counter_key c = (limit_key (ctr_limit c), ∅).
Proof. intros Hq%not_qualified_spec. unfold counter_key. by rewrite Hq. Qed.

(** A counter with variables updated through the handle [loc]. *)
Lemma heap_bump s t c loc delta :
  in_memory_wf s -> is_qualified c = true -> counter_ok t c -> in_u64 delta ->
  qloc s (counter_key c) = Some loc ->
  exists s' v, runs t s (heap_update loc delta (window c) t)
                 (Ok (u64_add (im_value s t (counter_key c)) delta)) s' /\
    cell_set t s s' (counter_key c) v /\ live v t /\
    cell_value t (Some v) = u64_add (im_value s t (counter_key c)) delta.
Proof.
  intros Hwf Hq (Hm & Hsec & Hw) Hd Hl. pose proof (cell_at_loc s c loc Hwf Hq Hl) as Hc.
  destruct (update_value (E := StorageErr) (default aev_default (ims_heap s !! loc)) delta (window c) t)
    as (v' & Hu & Hv & Hwfv & Hlive & Hend); [by eapply cell_at_wf|done|done|by apply window_micros|].
  destruct (heap_update_spec s t c loc v' delta (window c) _ Hwf Hq Hl Hu Hwfv) as (s' & Hr & Hs).
  { unfold may_become, im_end. by rewrite Hc. }
  exists s', v'. unfold im_value. rewrite Hc. done.
Qed.

(** A counter without variables whose map entry exists. *)
Lemma simple_bump s t c delta :
  in_memory_wf s -> is_qualified c = false -> counter_ok t c -> in_u64 delta ->
  is_Some (simple_limits s !! limit_key (ctr_limit c)) ->
  exists s' v, runs t s (simple_update (limit_key (ctr_limit c)) delta (window c) t)
                 (Ok (u64_add (im_value s t (counter_key c)) delta)) s' /\
    cell_set t s s' (counter_key c) v /\ live v t /\
    cell_value t (Some v) = u64_add (im_value s t (counter_key c)) delta.
Proof.
  intros Hwf Hq (Hm & Hsec & Hw) Hd [[l v] Hl].
  assert (Hc : cell_at s (counter_key c) = Some v) by (by rewrite cell_at_simple, Hl).
  destruct (update_value (E := StorageErr) v delta (window c) t)
    as (v' & Hu & Hv & Hwfv & Hlive & Hend); [by eapply cell_at_wf|done|done|by apply window_micros|].
  destruct (simple_update_spec s t _ l v v' delta (window c) _ Hwf Hl Hu Hwfv) as (s' & Hr & Hs);
    rewrite <-simple_key in * by done.
  { unfold may_become, im_end. by rewrite Hc. }
  exists s', v'. unfold im_value. rewrite Hc. done.
Qed.

Lemma im_value_default s t c k :
  0 < seconds (ctr_limit c) ->
  cell_value t (Some (default (fresh t c 0) (cell_at s k))) = im_value s t k.
Proof.
  intros Hs. unfold im_value. destruct (cell_at s k); [done|]. by apply fresh_value.
Qed.

Lemma update_counter_spec s t c delta :
  in_memory_wf s -> counter_ok t c -> in_u64 delta ->
  exists s', runs t s (update_counter c delta) (Ok tt) s' /\ bumped t delta s s' (counter_key c).
Proof.
  intros Hwf Hok Hd. pose proof Hok as (Hm & Hsec & Hw). unfold update_counter.
  destruct (is_qualified c) eqn:Hq.
  - destruct (qualified_get_with_spec s t c Hwf Hq Hok) as (s1 & loc & Hr1 & Hl1 & Hs1).
    pose proof Hs1 as (Hwf1 & _ & Hc1).
    destruct (heap_bump s1 t c loc delta Hwf1 Hq Hok Hd Hl1) as (s2 & v & Hr2 & Hs2 & _ & Hv).
    exists s2. split.
    + runs_step. eapply runs_bind; [done|]. eapply runs_bind; [done|]. apply runs_ret.
    + eapply cell_set_bumped; [by eapply cell_set_trans|]. rewrite Hv. f_equal.
      unfold im_value at 1. rewrite Hc1, decide_True by done. by apply im_value_default.
  - destruct (simple_limits s !! limit_key (ctr_limit c)) as [[l v]|] eqn:Hl.
    + destruct (simple_bump s t c delta) as (s' & v' & Hr & Hs & _ & Hv); [done..|by rewrite Hl|].
      exists s'. split; [|by eapply cell_set_bumped].
      runs_step. eapply runs_bind; [apply runs_simple_get|]. rewrite Hl. simpl.
      eapply runs_bind; [done|]. apply runs_ret.
    + destruct (simple_put_spec s t (limit_key (ctr_limit c)) (ctr_limit c) (fresh t c delta))
        as (s' & Hr & Hs); [done|done|by apply fresh_wf| |].
      { rewrite <-simple_key by done. apply fresh_may_become; [by destruct Hw|]. by rewrite cell_at_simple, Hl. }
      exists s'. split.
      * runs_step. eapply runs_bind; [apply runs_simple_get|]. rewrite Hl. simpl.
        rewrite good_window_add by done. runs_step. rewrite aev_new_fresh by done. runs_step. done.
      * pose proof (simple_key c Hq) as Hk. rewrite Hk. eapply cell_set_bumped; [done|]. rewrite fresh_value by done.
        rewrite <-Hk. unfold im_value. rewrite cell_at_simple, Hl by done. simpl.
        unfold in_u64 in Hd. rewrite u64_add_small; lia.
Qed.

Lemma im_value_u64 s t k : in_memory_wf s -> in_u64 (im_value s t k).
Proof.
  intros Hwf. unfold im_value. destruct (cell_at s k) as [v|] eqn:Hv; simpl; [|apply zero_u64].
  apply cell_at_wf in Hv as [Hv _]; [|done]. destruct (decide _); [done|apply zero_u64].
Qed.

Lemma im_value_add_0 s t k : in_memory_wf s -> u64_add (im_value s t k) 0 = im_value s t k.
Proof. intros Hwf. pose proof (im_value_u64 s t k Hwf) as []. rewrite u64_add_small; lia. Qed.

Lemma live_ttl v t : live v t -> aev_wf v -> 0 < ttl_at v t /\ t + ttl_at v t <= systime_max.
Proof.
  intros Hlive [_ [_ He]]. pose proof (ttl_at_nonneg v t).
  assert (ttl_at v t <> 0) by (intros Hd0; by apply ttl_zero_iff_expired in Hd0).
  split; [lia|]. unfold ttl_at, expiry_ttl_at, duration_since, UNIX_EPOCH, from_micros in *.
  destruct (Z.leb_spec t (0 + expiry (aev_expiry v) * 1000)); simpl in *; [|lia].
  unfold systime_max, nanos_per_sec, u64_max in *. lia.
Qed.

Lemma simple_or_insert_spec s t c :
  in_memory_wf s -> is_qualified c = false -> counter_ok t c ->
  exists s', runs t s (simple_or_insert c t) (Ok tt) s' /\
    is_Some (simple_limits s' !! limit_key (ctr_limit c)) /\
    cell_set t s s' (counter_key c) (default (fresh t c 0) (cell_at s (counter_key c))).
Proof.
  intros Hwf Hq (Hm & Hsec & Hw). rewrite cell_at_simple by done. unfold simple_or_insert.
  destruct (simple_limits s !! limit_key (ctr_limit c)) as [[l v]|] eqn:Hl; simpl.
  - exists s. split_and!; [|by rewrite Hl|].
    + eapply runs_bind; [apply runs_simple_get|]. rewrite Hl. apply runs_ret.
    + split_and!; [done|reflexivity|]. intros k. destruct (decide (k = counter_key c)) as [->|]; [|done].
      by rewrite cell_at_simple, Hl.
  - destruct (simple_put_spec s t (limit_key (ctr_limit c)) (ctr_limit c) (fresh t c 0))
      as (s' & Hr & Hs); [done|done|by apply fresh_wf; [apply zero_u64|]| |].
    { rewrite <-simple_key by done. apply fresh_may_become; [by destruct Hw|]. by rewrite cell_at_simple, Hl. }
    exists s'. rewrite <-simple_key in Hs by done. split_and!; [| |done].
    + eapply runs_bind; [apply runs_simple_get|]. rewrite Hl. simpl.
      rewrite good_window_add by done. runs_step. rewrite aev_new_fresh by done. runs_step. done.
    + destruct Hs as (_ & _ & Hc). specialize (Hc (counter_key c)).
      rewrite decide_True, cell_at_simple in Hc by done. by destruct (simple_limits s' !! _).
Qed.

(** The second half of [touch]: the cell, present in [s1], is updated by 0 to [v]. *)
Lemma touch_bump s s1 s2 t c v :
  counter_ok t c ->
  cell_set t s s1 (counter_key c) (default (fresh t c 0) (cell_at s (counter_key c))) ->
  cell_set t s1 s2 (counter_key c) v -> live v t ->
  cell_value t (Some v) = u64_add (im_value s1 t (counter_key c)) 0 ->
  cell_at s2 (counter_key c) = Some v /\ im_value s1 t (counter_key c) = im_value s t (counter_key c) /\
  bumped t 0 s s2 (counter_key c) /\ 0 < ttl_at v t /\ t + ttl_at v t <= systime_max.
Proof.
  intros (_ & Hsec & _) Hs1 Hs2 Hlive Hv. pose proof Hs1 as (Hwf1 & _ & Hc1). pose proof Hs2 as (Hwf2 & _ & Hc2).
  assert (Hcell : cell_at s2 (counter_key c) = Some v) by (by rewrite Hc2, decide_True).
  assert (Hval : im_value s1 t (counter_key c) = im_value s t (counter_key c)).
  { unfold im_value at 1. rewrite Hc1, decide_True by done. by apply im_value_default. }
  split_and!; [done|done| |apply live_ttl; [done|by eapply cell_at_wf]..].
  eapply cell_set_bumped; [by eapply cell_set_trans|]. by rewrite Hv, Hval.
Qed.

(** [touch] opens the counter's window if it has none, and leaves its value alone. *)
Lemma touch_spec s t c :
  in_memory_wf s -> counter_ok t c ->
  exists s' d, runs t s (touch c t) (Ok (im_value s t (counter_key c), d)) s' /\
    bumped t 0 s s' (counter_key c) /\ 0 < d /\ t + d <= systime_max.
Proof.
  intros Hwf Hok. unfold touch. pose proof zero_u64 as Hz. destruct (is_qualified c) eqn:Hq.
  - destruct (qualified_get_with_spec s t c Hwf Hq Hok) as (s1 & loc & Hr1 & Hl1 & Hs1).
    pose proof Hs1 as (Hwf1 & _ & _).
    destruct (heap_bump s1 t c loc 0 Hwf1 Hq Hok Hz Hl1) as (s2 & v & Hr2 & Hs2 & Hlive & Hv).
    destruct (touch_bump s s1 s2 t c v) as (Hcell & Hval & Hb & Hd); [done..|].
    pose proof Hs2 as (Hwf2 & He2 & _). exists s2, (ttl_at v t). split; [|done].
    eapply runs_bind; [done|]. eapply runs_bind; [done|]. eapply runs_bind; [apply runs_heap_get|].
    rewrite (cell_at_loc s2 c loc Hwf2 Hq (ext_loc _ _ _ He2 _ _ Hl1)) in Hcell. injection Hcell as ->.
    eapply runs_bind; [apply runs_ttl|]. rewrite im_value_add_0, Hval by done. apply runs_ret.
  - destruct (simple_or_insert_spec s t c Hwf Hq Hok) as (s1 & Hr1 & Hl1 & Hs1).
    pose proof Hs1 as (Hwf1 & _ & _).
    destruct (simple_bump s1 t c 0) as (s2 & v & Hr2 & Hs2 & Hlive & Hv); [done..|].
    destruct (touch_bump s s1 s2 t c v) as (Hcell & Hval & Hb & Hd); [done..|].
    exists s2, (ttl_at v t). split; [|done].
    eapply runs_bind; [done|]. eapply runs_bind; [done|]. eapply runs_bind; [apply runs_simple_get|].
    rewrite cell_at_simple in Hcell by done. rewrite Hcell. simpl.
    eapply runs_bind; [apply runs_ttl|]. rewrite im_value_add_0, Hval by done. apply runs_ret.
Qed.
End updates.

(** ** [check_and_update] *)

Section check_and_update.
Context {CE : CelEngine} {HO : HashOrder} {MC : MokaCache} {ML : MokaLaws} {MR : MokaRoomy}.
Context (t : SystemTime) (delta : Z) (Hdelta : in_u64 delta) (Ht : good_time t).
Implicit Types (s : InMemoryStorage) (k : CounterKey) (c : Counter) (ks : list CounterKey).

(** The values of [ks], and no other, grew by [delta]. *)
Definition bumped_all s s' ks : Prop :=
  in_memory_wf s' /\ extends t s s' /\
  forall k, im_value s' t k = if decide (k ∈ ks) then u64_add (im_value s t k) delta else im_value s t k.

Lemma bumped_all_nil s : in_memory_wf s -> bumped_all s s [].
Proof. intros Hwf. split_and!; [done|reflexivity|]. intros k. by rewrite decide_False by set_solver. Qed.

Lemma bumped_all_app s s1 s2 ks1 ks2 :
  bumped_all s s1 ks1 -> bumped_all s1 s2 ks2 -> (forall k, k ∈ ks1 -> k ∉ ks2) ->
  bumped_all s s2 (ks1 ++ ks2).
Proof.
  intros (_ & He1 & H1) (Hwf & He2 & H2) Hd. split_and!; [done|by transitivity s1|].
  intros k. rewrite H2, H1. destruct (decide (k ∈ ks1)) as [Hk|Hk].
  - rewrite decide_False by (by apply Hd). by rewrite decide_True by set_solver.
  - destruct (decide (k ∈ ks2)).
    + by rewrite decide_True by set_solver.
    + by rewrite decide_False by set_solver.
Qed.

Lemma bumped_all_one s s' k : bumped t delta s s' k -> bumped_all s s' [k].
Proof.
  intros (Hwf & He & Hv). split_and!; [done..|]. intros k'. rewrite Hv.
  destruct (decide (k' = k)) as [->|].
  - by rewrite decide_True by set_solver.
  - by rewrite decide_False by set_solver.
Qed.

Lemma bumped_all_perm s s' ks ks' : ks ≡ₚ ks' -> bumped_all s s' ks -> bumped_all s s' ks'.
Proof.
  intros Hp (Hwf & He & Hv). split_and!; [done..|]. intros k. rewrite Hv.
  destruct (decide (k ∈ ks)) as [Hk|Hk]; rewrite Hp in Hk; [by rewrite decide_True|by rewrite decide_False].
Qed.

(** A loop of updates of different counters, each through its own handle. *)
Lemma for_each_bump {A} (f : A -> M InMemoryStorage StorageErr unit)
    (P : InMemoryStorage -> A -> CounterKey -> Prop) (l : list (A * CounterKey)) s :
  (forall s s' i k, extends t s s' -> P s i k -> P s' i k) ->
  (forall s i k, in_memory_wf s -> P s i k ->
     exists s', runs t s (f i) (Ok tt) s' /\ bumped t delta s s' k) ->
  in_memory_wf s -> Forall (fun ik => P s ik.1 ik.2) l -> NoDup l.*2 ->
  exists s', runs t s (for_each f l.*1) (Ok tt) s' /\ bumped_all s s' l.*2.
Proof.
  intros Hext Hf. revert s. induction l as [|[i k] l IH]; intros s Hwf Hl Hnd; simpl.
  { exists s. split; [apply runs_ret|by apply bumped_all_nil]. }
  apply Forall_cons in Hl as [Hi Hl]. apply NoDup_cons in Hnd as [Hk Hnd]. simpl in *.
  destruct (Hf s i k Hwf Hi) as (s1 & Hr1 & Hb1). pose proof Hb1 as (Hwf1 & He1 & _).
  destruct (IH s1 Hwf1) as (s2 & Hr2 & Hb2); [|done|].
  { eapply Forall_impl; [done|]. intros [i' k'] Hp. by eapply Hext. }
  exists s2. split; [by eapply runs_bind|].
  apply (bumped_all_app s s1 s2 [k]); [by apply bumped_all_one|done|].
  intros k' Hk'%list_elem_of_singleton. by subst.
Qed.

(** The three kinds of handles the loop of [check_and_update] collects. *)
Definition simple_handle s (kd : LimitKey * Duration) k : Prop :=
  exists c, is_qualified c = false /\ counter_ok t c /\ kd = (limit_key (ctr_limit c), window c) /\
    k = counter_key c /\ is_Some (simple_limits s !! kd.1).

Definition qualified_handle s (ld : nat * Duration) k : Prop :=
  exists c, is_qualified c = true /\ counter_ok t c /\ ld.2 = window c /\ k = counter_key c /\
    qloc s k = Some ld.1.

Definition missing_handle (cs : list Counter) s (idx : nat) k : Prop :=
  exists c, cs !! idx = Some c /\ counter_ok t c /\ k = counter_key c.

Lemma simple_handle_bump s kd k :
  in_memory_wf s -> simple_handle s kd k ->
  exists s', runs t s (simple_update kd.1 delta kd.2 t ;;; ret tt) (Ok tt) s' /\ bumped t delta s s' k.
Proof.
  intros Hwf (c & Hq & Hok & -> & -> & Hs).
  destruct (simple_bump s t c delta) as (s' & v & Hr & Hset & _ & Hv); [done..|].
  exists s'. split; [|by eapply cell_set_bumped]. eapply runs_bind; [done|]. apply runs_ret.
Qed.

Lemma qualified_handle_bump s ld k :
  in_memory_wf s -> qualified_handle s ld k ->
  exists s', runs t s (heap_update ld.1 delta ld.2 t ;;; ret tt) (Ok tt) s' /\ bumped t delta s s' k.
Proof.
  intros Hwf (c & Hq & Hok & -> & -> & Hl).
  destruct (heap_bump s t c ld.1 delta) as (s' & v & Hr & Hset & _ & Hv); [done..|].
  exists s'. split; [|by eapply cell_set_bumped]. eapply runs_bind; [done|]. apply runs_ret.
Qed.

Lemma missing_handle_bump cs s idx k :
  in_memory_wf s -> missing_handle cs s idx k ->
  exists s', runs t s (match cs !! idx with
                       | Some c => update_counter c delta
                       | None => lift (Panic "index out of bounds")
                       end) (Ok tt) s' /\ bumped t delta s s' k.
Proof. intros Hwf (c & -> & Hok & ->). by apply update_counter_spec. Qed.

(** All that looking counters up changed: the counters with variables among [cs] that
    had no cell got the empty cell of a window opened now. *)
Definition opened (cs : list Counter) s s' : Prop :=
  (forall c, c ∈ cs -> is_qualified c = true ->
     cell_at s' (counter_key c) = Some (default (fresh t c 0) (cell_at s (counter_key c)))) /\
  (forall k, (forall c, c ∈ cs -> is_qualified c = true -> counter_key c <> k) -> cell_at s' k = cell_at s k).

Lemma opened_qualified s0 s s' cs c :
  opened cs s0 s -> is_qualified c = true ->
  (forall k, cell_at s' k = if decide (k = counter_key c)
                            then Some (default (fresh t c 0) (cell_at s (counter_key c))) else cell_at s k) ->
  opened (cs ++ [c]) s0 s'.
Proof.
  intros [Hin Hout] Hq Hc. split.
  - intros c' [Hc'| ->%list_elem_of_singleton]%elem_of_app Hq'; rewrite Hc.
    + rewrite <-(Hin c') by done. destruct (decide _) as [<-|]; [|done]. by rewrite (Hin c').
    + rewrite decide_True by done. f_equal.
      destruct (decide (Exists (fun c' => is_qualified c' = true /\ counter_key c' = counter_key c) cs)) as [He|He].
      * apply Exists_exists in He as (c' & Hc' & Hq'' & Hk). rewrite <-Hk, (Hin c') by done. simpl.
        destruct (cell_at s0 (counter_key c')); [done|]. simpl. unfold fresh. by rewrite <-!key_window_counter, Hk.
      * rewrite Hout; [done|]. intros c' ? ? Hk. apply He, Exists_exists. by exists c'.
  - intros k Hk. rewrite Hc, decide_False by (intros ->; apply (Hk c); [set_solver|done|done]).
    apply Hout. intros c' ? ?. apply Hk; [set_solver|done].
Qed.

Lemma opened_simple s0 s cs c : opened cs s0 s -> is_qualified c = false -> opened (cs ++ [c]) s0 s.
Proof.
  intros [Hin Hout] Hq. split.
  - intros c' [Hc'| ->%list_elem_of_singleton]%elem_of_app Hq'; [by apply Hin|congruence].
  - intros k Hk. apply Hout. intros c' ? ?. apply Hk; [set_solver|done].
Qed.

(** The loop's state after the counters [cs0]: values untouched, every counter
    annotated, and a handle kept for each. *)
Definition check_inv s0 (cs0 : list Counter) (acc : CheckAcc) s : Prop :=
  in_memory_wf s /\ extends t s0 s /\ ((forall k, im_value s t k = im_value s0 t k) /\ opened cs0 s0 s) /\
  Forall2 (annotates (im_value s0 t)) cs0 (acc_counters acc) /\
  match acc_first_limited acc with
  | None => Forall (fun c => im_over s0 t delta c = false) cs0
  | Some n => exists c, c ∈ cs0 /\ im_over s0 t delta c = true /\ n = limit_name (ctr_limit c)
  end /\
  exists ls lq lm,
    simple_to_update acc = ls.*1 /\ Forall (fun ik => simple_handle s ik.1 ik.2) ls /\
    qualified_to_update acc = lq.*1 /\ Forall (fun ik => qualified_handle s ik.1 ik.2) lq /\
    missing_simple acc = lm.*1 /\ Forall (fun ik => missing_handle (acc_counters acc) s ik.1 ik.2) lm /\
    ls.*2 ++ lq.*2 ++ lm.*2 ≡ₚ counter_key <$> cs0.

Lemma simple_handle_ext s s' kd k : extends t s s' -> simple_handle s kd k -> simple_handle s' kd k.
Proof.
  intros He (c & Hq & Hok & -> & -> & Hs). exists c. split_and!; [done..|]. by apply (ext_simple _ _ _ He).
Qed.

Lemma qualified_handle_ext s s' ld k : extends t s s' -> qualified_handle s ld k -> qualified_handle s' ld k.
Proof.
  intros He (c & Hq & Hok & Hd & -> & Hs). exists c. split_and!; [done..|]. by apply (ext_loc _ _ _ He).
Qed.

Lemma missing_handle_app cs c s s' idx k : missing_handle cs s idx k -> missing_handle (cs ++ [c]) s' idx k.
Proof.
  intros (c0 & Hc & Hok & Hk). exists c0. split_and!; [|done..]. by apply lookup_app_l_Some.
Qed.

Lemma im_over_ext s s0 c :
  (forall k, im_value s t k = im_value s0 t k) -> im_over s t delta c = im_over s0 t delta c.
Proof. intros Hv. unfold im_over. by rewrite Hv. Qed.

Lemma annotate_annotates_ext s s0 c :
  (forall k, im_value s t k = im_value s0 t k) -> counter_ok t c ->
  annotates (im_value s0 t) c (annotate s t c).
Proof.
  intros Hv Hok. destruct (annotate_annotates s t c Hok) as (? & ? & Hr & ?).
  split_and!; [done..| |done]. by rewrite <-Hv.
Qed.

(** One more counter in the running decision. *)
Lemma note_limited_snoc s0 cs0 fl c :
  match fl with
  | None => Forall (fun c => im_over s0 t delta c = false) cs0
  | Some n => exists c, c ∈ cs0 /\ im_over s0 t delta c = true /\ n = limit_name (ctr_limit c)
  end ->
  match note_limited fl (im_over s0 t delta c) c with
  | None => Forall (fun c => im_over s0 t delta c = false) (cs0 ++ [c])
  | Some n => exists c', c' ∈ cs0 ++ [c] /\ im_over s0 t delta c' = true /\ n = limit_name (ctr_limit c')
  end.
Proof.
  unfold note_limited. destruct fl as [n|].
  - intros (c' & Hin & Ho & ->). exists c'. set_solver.
  - intros Hall. destruct (im_over s0 t delta c) eqn:Ho.
    + exists c. set_solver.
    + apply Forall_app_2; [done|]. by constructor.
Qed.

Lemma check_step_qualified s0 cs0 acc s c :
  check_inv s0 cs0 acc s -> counter_ok t c -> is_qualified c = true ->
  exists acc' s', runs t s (check_step t delta acc c) (Ok acc') s' /\ check_inv s0 (cs0 ++ [c]) acc' s'.
Proof.
  intros (Hwf & He & [Hv Hop] & Hann & Hfl & ls & lq & lm & Es & Hls & Eq & Hlq & Em & Hlm & Hp) Hok Hq.
  destruct (qualified_get_with_spec s t c Hwf Hq Hok) as (s' & loc & Hr & Hloc & Hset).
  pose proof Hset as (Hwf' & He' & Hc').
  assert (Hv' : forall k, im_value s' t k = im_value s0 t k).
  { intros k. rewrite <-Hv. unfold im_value at 1. rewrite Hc'. destruct (decide _) as [->|]; [|done].
    apply im_value_default. by destruct Hok as (_ & ? & _). }
  eexists _, s'. split.
  { unfold check_step. rewrite Hq. eapply runs_bind; [done|]. eapply runs_bind; [apply runs_heap_get|].
    eapply runs_bind; [by apply runs_read_cell|]. cbn beta iota.
    rewrite <-(cell_at_loc s' c loc) by done. rewrite record_spec. apply runs_ret. }
  rewrite (im_over_ext _ _ _ Hv').
  unfold check_inv. simpl.
  split_and!; [done|by transitivity s|done|by eapply opened_qualified| |by apply note_limited_snoc|].
  - apply Forall2_app; [done|]. constructor; [|constructor]. by apply annotate_annotates_ext.
  - exists ls, (lq ++ [((loc, window c), counter_key c)]), lm.
    split_and!; [done| |by rewrite Eq, fmap_app| |done| |].
    + eapply Forall_impl; [done|]. intros ? ?. by eapply simple_handle_ext.
    + apply Forall_app_2; [eapply Forall_impl; [done|]; intros ? ?; by eapply qualified_handle_ext|].
      constructor; [|constructor]. by exists c.
    + eapply Forall_impl; [done|]. intros ? ?. by apply (missing_handle_app _ _ s).
    + rewrite !fmap_app, <-Hp. simpl. solve_Permutation.
Qed.

Lemma check_step_simple s0 cs0 acc s c :
  check_inv s0 cs0 acc s -> counter_ok t c -> is_qualified c = false ->
  exists acc' s', runs t s (check_step t delta acc c) (Ok acc') s' /\ check_inv s0 (cs0 ++ [c]) acc' s'.
Proof.
  intros (Hwf & He & [Hv Hop] & Hann & Hfl & ls & lq & lm & Es & Hls & Eq & Hlq & Em & Hlm & Hp) Hok Hq.
  assert (Hrun : forall acc', 
    (let '(c', fl) := record delta (acc_first_limited acc) c (cell_value t (cell_at s (counter_key c)))
                        (cell_ttl t c (cell_at s (counter_key c))) in
     match cell_at s (counter_key c) with
     | Some _ => mkAcc (acc_counters acc ++ [c']) fl
                   (simple_to_update acc ++ [(limit_key (ctr_limit c), window c)])
                   (qualified_to_update acc) (missing_simple acc)
     | None => mkAcc (acc_counters acc ++ [c']) fl (simple_to_update acc) (qualified_to_update acc)
                 (missing_simple acc ++ [length (acc_counters acc)])
     end) = acc' -> runs t s (check_step t delta acc c) (Ok acc') s).
  { intros acc'. unfold check_step. rewrite Hq, record_spec. intros <-.
    eapply runs_bind; [apply runs_simple_get|]. rewrite <-cell_at_simple by done.
    eapply runs_bind; [by apply runs_read_cell|]. cbn beta iota. rewrite record_spec.
    destruct (cell_at s (counter_key c)); apply runs_ret. }
  eexists _, s. split; [by apply Hrun|]. clear Hrun. rewrite record_spec, (im_over_ext _ _ _ Hv).
  assert (Hann' : Forall2 (annotates (im_value s0 t)) (cs0 ++ [c]) (acc_counters acc ++ [annotate s t c])).
  { apply Forall2_app; [done|]. constructor; [|constructor]. by apply annotate_annotates_ext. }
  destruct (cell_at s (counter_key c)) as [v|] eqn:Hcell;
    (unfold check_inv; simpl; split_and!; [done|done|done|by apply opened_simple|done|by apply note_limited_snoc|]).
  - exists (ls ++ [((limit_key (ctr_limit c), window c), counter_key c)]), lq, lm.
    split_and!; [by rewrite Es, fmap_app| |done|done|done| |].
    + apply Forall_app_2; [done|]. constructor; [|constructor]. exists c. split_and!; try done. simpl.
      rewrite cell_at_simple in Hcell by done. by destruct (simple_limits s !! _).
    + eapply Forall_impl; [done|]. intros ? ?. by apply (missing_handle_app _ _ s).
    + rewrite !fmap_app, <-Hp. simpl. solve_Permutation.
  - exists ls, lq, (lm ++ [(length (acc_counters acc), counter_key c)]).
    split_and!; [done|done|done|done|by rewrite Em, fmap_app| |].
    + apply Forall_app_2; [eapply Forall_impl; [done|]; intros ? ?; by apply (missing_handle_app _ _ s)|].
      constructor; [|constructor]. exists (annotate s t c). split_and!; [|done|done].
      simpl. by rewrite lookup_app_r, Nat.sub_diag.
    + rewrite !fmap_app, <-Hp. simpl. solve_Permutation.
Qed.

Lemma check_loop s0 cs0 acc s cs :
  check_inv s0 cs0 acc s -> Forall (counter_ok t) cs ->
  exists acc' s', runs t s (foldM (check_step t delta) acc cs) (Ok acc') s' /\
                  check_inv s0 (cs0 ++ cs) acc' s'.
Proof.
  revert cs0 acc s. induction cs as [|c cs IH]; intros cs0 acc s Hinv Hok; simpl.
  { exists acc, s. rewrite app_nil_r. split; [apply runs_ret|done]. }
  apply Forall_cons in Hok as [Hc Hok].
  assert (Hstep : exists acc' s', runs t s (check_step t delta acc c) (Ok acc') s' /\
                                  check_inv s0 (cs0 ++ [c]) acc' s').
  { destruct (is_qualified c) eqn:Hq; [by apply check_step_qualified|by apply check_step_simple]. }
  destruct Hstep as (acc1 & s1 & Hr1 & Hinv1). destruct (IH _ _ _ Hinv1 Hok) as (acc2 & s2 & Hr2 & Hinv2).
  exists acc2, s2. split; [by eapply runs_bind|]. by rewrite <-app_assoc in Hinv2.
Qed.

Lemma check_and_update_contract s cs :
  in_memory_wf s -> Forall (counter_ok t) cs -> NoDup (counter_key <$> cs) ->
  exists cs' a s', runs t s (check_and_update cs delta) (Ok (cs', a)) s' /\
    Forall2 (annotates (im_value s t)) cs cs' /\ decides (im_value s t) delta cs a /\
    bumped_all s s' (if is_ok a then counter_key <$> cs else []) /\
    (is_ok a = false -> opened cs s s').
Proof.
  intros Hwf Hok Hnd.
  assert (Hinit : check_inv s [] (mkAcc [] None [] [] []) s).
  { unfold check_inv. simpl. split_and!; [done|reflexivity|done| |constructor|constructor|].
    - split; [by intros c ?%elem_of_nil|done].
    - exists [], [], []. by split_and!. }
  destruct (check_loop s [] _ s cs Hinit Hok) as (acc & s1 & Hr1 & Hinv). simpl in Hinv.
  destruct Hinv as (Hwf1 & He1 & [Hv1 Hop1] & Hann & Hfl & ls & lq & lm & Es & Hls & Eq & Hlq & Em & Hlm & Hp).
  destruct (acc_first_limited acc) as [n|] eqn:Hn.
  - exists (acc_counters acc), (AuthLimited n), s1. split_and!; [|done|done| |done].
    + unfold check_and_update. runs_step. eapply runs_bind; [done|]. rewrite Hn. apply runs_ret.
    + split_and!; [done..|]. intros k. rewrite Hv1. by rewrite decide_False by set_solver.
  - rewrite <-Hp in Hnd. apply NoDup_app in Hnd as (Hnd1 & Hd1 & Hnd2).
    apply NoDup_app in Hnd2 as (Hnd2 & Hd2 & Hnd3).
    destruct (for_each_bump (fun kd => simple_update kd.1 delta kd.2 t ;;; ret tt) simple_handle ls s1)
      as (s2 & Hr2 & Hb2); [intros; by eapply simple_handle_ext|apply simple_handle_bump|done..|].
    pose proof Hb2 as (Hwf2 & He2 & _).
    destruct (for_each_bump (fun ld => heap_update ld.1 delta ld.2 t ;;; ret tt) qualified_handle lq s2)
      as (s3 & Hr3 & Hb3); [intros; by eapply qualified_handle_ext|apply qualified_handle_bump|done| |done|].
    { eapply Forall_impl; [done|]. intros ? ?. by eapply qualified_handle_ext. }
    pose proof Hb3 as (Hwf3 & He3 & _).
    destruct (for_each_bump (fun idx => match acc_counters acc !! idx with
                                        | Some c => update_counter c delta
                                        | None => lift (Panic "index out of bounds")
                                        end) (missing_handle (acc_counters acc)) lm s3)
      as (s4 & Hr4 & Hb4); [done|apply missing_handle_bump|done..|].
    exists (acc_counters acc), AuthOk, s4. split_and!; [|done|done| |done].
    + unfold check_and_update. runs_step. eapply runs_bind; [done|]. rewrite Hn, Es, Eq, Em.
      eapply runs_bind; [done|]. eapply runs_bind; [done|]. eapply runs_bind; [done|]. apply runs_ret.
    + simpl. apply (bumped_all_perm _ _ _ _ Hp).
      apply (bumped_all_app s s2); [|by apply (bumped_all_app s2 s3)|done].
      apply (bumped_all_app s s1 s2 []); [|done|set_solver].
      split_and!; [done..|]. intros k. by rewrite Hv1, decide_False by set_solver.
Qed.
End check_and_update.

(** ** Reservations and the contract *)

Section contract.
Context {CE : CelEngine} {HO : HashOrder} {MC : MokaCache} {ML : MokaLaws} {MR : MokaRoomy}.
Implicit Types (s : InMemoryStorage) (k : CounterKey) (c : Counter) (t : SystemTime).

Lemma touch_all_spec s t cs :
  in_memory_wf s -> Forall (counter_ok t) cs ->
  exists s' vs, runs t s (mapM (fun c => touch c t) cs) (Ok vs) s' /\
    in_memory_wf s' /\ extends t s s' /\ (forall k, im_value s' t k = im_value s t k) /\
    Forall2 (fun c vd => vd.1 = im_value s t (counter_key c) /\ 0 < vd.2 /\ t + vd.2 <= systime_max) cs vs.
Proof.
  revert s. induction cs as [|c cs IH]; intros s Hwf Hok; simpl.
  { exists s, []. split_and!; [apply runs_ret|done|reflexivity|done|constructor]. }
  apply Forall_cons in Hok as [Hc Hok].
  destruct (touch_spec s t c Hwf Hc) as (s1 & d & Hr1 & (Hwf1 & He1 & Hv1) & Hd).
  destruct (IH s1 Hwf1 Hok) as (s2 & vs & Hr2 & Hwf2 & He2 & Hv2 & Hvs).
  assert (Hsame : forall k, im_value s1 t k = im_value s t k).
  { intros k. rewrite Hv1. destruct (decide _); [by apply im_value_add_0|done]. }
  exists s2, ((im_value s t (counter_key c), d) :: vs). split_and!.
  - eapply runs_bind; [done|]. eapply runs_bind; [done|]. apply runs_ret.
  - done.
  - by transitivity s1.
  - intros k. by rewrite Hv2.
  - constructor; [done|]. eapply Forall2_impl; [done|]. intros c' vd (-> & ?). by rewrite Hsame.
Qed.

Lemma release_contract s t cs id :
  in_memory_wf s -> exists b s',
    runs t s (release_reservation cs id) (Ok b) s' /\ in_memory_wf s' /\
    (b = true <-> exists c, c ∈ cs /\ id ∈ reservation_id <$> im_holds s (counter_key c)) /\
    (forall t' k, im_value s' t' k = im_value s t' k) /\
    (forall k, im_holds s' k = if decide (k ∈ counter_key <$> cs)
                               then filter (fun e => reservation_id e <> id) (im_holds s k)
                               else im_holds s k).
Proof.
  intros Hwf. pose proof (wf_registry _ Hwf) as Hr.
  pose proof (release_released (reservations s) cs id Hr) as Hb.
  pose proof (release_wf (reservations s) cs id Hr) as Hrw.
  pose proof (fun k => release_entries (reservations s) cs id k Hr) as He.
  unfold release_reservation. destruct (release (reservations s) cs id) as [b r] eqn:Hrel.
  simpl in *. exists b. eexists. split_and!.
  - runs_step. rewrite Hrel. cbn beta iota. runs_step. apply runs_ret.
  - by apply wf_set_registry.
  - done.
  - done.
  - apply He.
Qed.

Lemma add_counter_contract s t l :
  in_memory_wf s -> exists s',
    runs t s (add_counter l) (Ok tt) s' /\ in_memory_wf s' /\
    (forall t' k, 0 <= t' -> im_value s' t' k = im_value s t' k) /\
    (forall k, im_holds s' k = im_holds s k).
Proof.
  intros Hwf. unfold add_counter. case_bool_decide as Hl.
  - destruct (simple_limits s !! limit_key l) as [v|] eqn:Hs.
    + exists s. split_and!; [|done..]. runs_step. rewrite Hs. apply runs_ret.
    + destruct (simple_put_spec s t (limit_key l) l aev_default) as (s' & Hr & Hwf' & He & Hc);
        [done|done|apply aev_default_wf| |].
      { left. unfold im_end, cell_at. simpl. by rewrite Hs. }
      exists s'. split_and!.
      * runs_step. by rewrite Hs.
      * done.
      * intros t' k Ht'. unfold im_value. rewrite Hc. destruct (decide _) as [->|]; [|done].
        unfold cell_at. simpl. rewrite Hs. simpl. rewrite decide_False; [done|].
        unfold live. simpl. pose proof (as_micros_nonneg t' Ht'). lia.
      * intros k. unfold im_holds. by rewrite (ext_res _ _ _ He).
  - exists s. split_and!; [apply runs_ret|done..].
Qed.

(** What [reserve] passes to the registry for each counter. *)
Definition touched s t c (vd : Z * Duration) : Prop :=
  vd.1 = im_value s t (counter_key c) /\ 0 < vd.2 /\ t + vd.2 <= systime_max.

(** There is room for [amt] on [c] at [t], next to its value and its holds. *)
Definition has_room s t (amt : Z) c : Prop :=
  im_value s t (counter_key c) + sum_live (im_holds s (counter_key c)) t + amt <= max_value c.

Lemma touched_zip s t cs vs cv :
  Forall2 (touched s t) cs vs -> cv ∈ zip cs vs -> cv.1 ∈ cs /\ touched s t cv.1 cv.2.
Proof.
  intros Hvs [i Hi]%list_elem_of_lookup. apply lookup_zip_with_Some in Hi as (c & vd & -> & Hc & Hvd).
  split; [by eapply list_elem_of_lookup_2|]. by eapply (Forall2_lookup_lr _ _ _ _ _ _ Hvs).
Qed.

Lemma registry_admits s t cs vs check :
  in_memory_wf s -> Forall2 (touched s t) cs vs -> 0 <= check ->
  (forall c, c ∈ cs ->
     im_value s t (counter_key c) + sum_live (im_holds s (counter_key c)) t + check <= u64_max) ->
  List.find (over_reserved (reservations s) t check) (zip cs vs) = None <->
  forall c, c ∈ cs -> has_room s t check c.
Proof.
  intros Hwf Hvs Hch Hmax.
  assert (Hfits : forall cv, cv ∈ zip cs vs ->
            over_reserved (reservations s) t check cv = false <-> has_room s t check cv.1).
  { intros cv Hcv. destruct (touched_zip s t cs vs cv Hvs Hcv) as (Hin & Hval & _).
    rewrite over_reserved_fits; [|lia|].
    - unfold fits, has_room. by rewrite Hval.
    - split; rewrite Hval; [apply (im_value_u64 s t _ Hwf)|by apply Hmax]. }
  rewrite find_none_forall, Forall_forall. split.
  - intros Hall c [i Hi]%list_elem_of_lookup.
    destruct (Forall2_lookup_l _ _ _ _ _ Hvs Hi) as (vd & Hvd & _).
    assert (Hcv : (c, vd) ∈ zip cs vs).
    { eapply list_elem_of_lookup_2, lookup_zip_with_Some. by exists c, vd. }
    by apply (Hfits _ Hcv), Hall.
  - intros Hall cv Hcv. apply Hfits; [done|]. apply Hall. by destruct (touched_zip s t cs vs cv Hvs Hcv).
Qed.

(** The holds after an admitted [reserve] of the registry. *)
Lemma registry_holds s t cs vs req cs' r' k :
  in_memory_wf s -> Forall2 (touched s t) cs vs -> NoDup (counter_key <$> cs) ->
  req_now req = t -> 0 < req_ttl req -> t + req_ttl req <= systime_max -> hold_amount req <> 0 ->
  LocalReservations.reserve (E := StorageErr) (reservations s) cs vs req = Ok (cs', AuthOk, r') ->
  if bool_decide (k ∈ counter_key <$> cs)
  then exists e, entries_of r' k = filter (fun e => is_live_at e t = true) (im_holds s k)
                   ++ [mkEntry (req_reservation_id req) (hold_amount req) e] /\ t < e <= t + req_ttl req
  else entries_of r' k = im_holds s k.
Proof.
  intros Hwf Hvs Hnd <- Httl Hfit Hh Hr.
  assert (Htf : times_fit (req_now req) (req_ttl req) (zip cs vs)).
  { split; [done|]. apply Forall_forall. intros cv Hcv.
    by destruct (touched_zip s _ cs vs cv Hvs Hcv) as (_ & _ & _ & ?). }
  assert (Hlen : length cs = length vs) by (by eapply Forall2_length).
  destruct (reserve_stores (reservations s) cs vs req cs' r' Hlen Htf (wf_registry _ Hwf) Hnd Hh Hr)
    as [Hin Hout].
  case_bool_decide as Hk; [|by apply Hout].
  apply list_elem_of_fmap in Hk as (c & -> & Hc). apply list_elem_of_lookup in Hc as [i Hi].
  destruct (Forall2_lookup_l _ _ _ _ _ Hvs Hi) as ([v wttl] & Hv & _ & Hpos & _). simpl in Hpos.
  eexists. split; [by apply (Hin i c v wttl)|]. unfold hold_expiry. simpl. lia.
Qed.

Lemma reserve_contract s t cs id check hold d :
  in_memory_wf s -> Forall (counter_ok t) cs -> NoDup (counter_key <$> cs) ->
  0 <= hold <= check -> 0 < d -> t + d <= systime_max ->
  (forall c, c ∈ cs ->
     im_value s t (counter_key c) + sum_live (im_holds s (counter_key c)) t + check <= u64_max) ->
  exists cs' a s',
    runs t s (reserve cs id check hold d) (Ok (cs', a)) s' /\ in_memory_wf s' /\
    counter_key <$> cs' = counter_key <$> cs /\
    (a = AuthOk <-> forall c, c ∈ cs -> has_room s t check c) /\
    (forall k, im_value s' t k = im_value s t k) /\
    (forall k, if is_ok a && bool_decide (k ∈ counter_key <$> cs) && negb (hold =? 0)
               then exists e, im_holds s' k = filter (fun e => is_live_at e t = true) (im_holds s k)
                                                ++ [mkEntry id hold e] /\ t < e <= t + d
               else im_holds s' k = im_holds s k).
Proof.
  intros Hwf Hok Hnd Hh Hd Htd Hmax.
  destruct (touch_all_spec s t cs Hwf Hok) as (s1 & vs & Hr1 & Hwf1 & He1 & Hv1 & Hvs0).
  assert (Hvs : Forall2 (touched s t) cs vs) by done. clear Hvs0.
  set (req := mkRequest id check hold d t).
  assert (Hres : reservations s1 = reservations s) by apply (ext_res _ _ _ He1).
  assert (Hlen : length cs = length vs) by (by eapply Forall2_length).
  assert (Htf : times_fit t d (zip cs vs)).
  { split; [done|]. apply Forall_forall. intros cv Hcv.
    by destruct (touched_zip s _ cs vs cv Hvs Hcv) as (_ & _ & _ & ?). }
  destruct (reserve_cases (E := StorageErr) (reservations s) cs vs req Hlen Htf)
    as (cs' & a & r' & Hreg & Hk & Hok' & _ & Hsame).
  exists cs', a. eexists. split_and!.
  - unfold reserve. runs_step. eapply runs_bind; [done|]. runs_step. rewrite Hres. fold req. rewrite Hreg.
    runs_step. simpl. runs_step. apply runs_ret.
  - apply wf_set_registry; [done|]. eapply (reserve_wf (reservations s)); [by apply wf_registry|done].
  - done.
  - rewrite Hok'. apply registry_admits; [done|done|lia|done].
  - apply Hv1.
  - intros k. destruct a as [|n]; simpl.
    + destruct (Z.eqb_spec hold 0) as [->|Hne].
      * rewrite Hsame by (by right). by destruct (bool_decide _).
      * rewrite andb_true_r. apply (registry_holds s t cs vs req cs' r'); done.
    + rewrite Hsame by (by left). done.
Qed.

(** Counting keeps the windows that are open. *)
Lemma im_windows s t s' k : in_memory_wf s -> cs_call t s s' -> window_kept t k (im_end s k) (im_end s' k).
Proof.
  intros Hwf Hcall. enough (He : extends t s s') by apply (ext_end _ _ _ He).
  destruct Hcall as [cs delta o Ht Hok Hnd Hd Hr|c delta o Hok Hd Hr].
  - destruct (check_and_update_contract t delta Hd Ht s cs Hwf Hok Hnd)
      as (cs' & a & s'' & Hr' & _ & _ & (_ & He & _) & _).
    by destruct (runs_det _ _ _ _ _ _ _ Hr Hr') as [_ <-].
  - destruct (update_counter_spec s t c delta Hwf Hok Hd) as (s'' & Hr' & _ & He & _).
    by destruct (runs_det _ _ _ _ _ _ _ Hr Hr') as [_ <-].
Qed.

#[global] Instance in_memory_spec : CounterStorageSpec InMemoryStorage.
Proof.
  refine {| cs_inv := in_memory_wf; cs_value := im_value; cs_holds := im_holds; cs_end := im_end;
            cs_value_later := _; cs_windows := _; cs_value_u64 := _; cs_is_within_spec := _; cs_add_spec := _; cs_update_spec := _;
            cs_check_spec := _; cs_check_and_update_spec := _; cs_reserve_spec := _;
            cs_release_spec := _ |}.
  - apply im_value_at_later.
  - intros s t s' k. apply im_windows.
  - intros s t k. apply im_value_u64.
  - intros s t c delta Hwf (_ & _ & [Ht _]). by apply is_within_contract.
  - apply add_counter_contract.
  - intros s t c delta Hwf Hok Hd. destruct (update_counter_spec s t c delta Hwf Hok Hd) as (s' & Hr & Hwf' & He & Hv).
    exists s'. split_and!; [done..|]. intros k. unfold im_holds. by rewrite (ext_res _ _ _ He).
  - intros s t cs delta Hwf Ht Hok. by apply check_contract.
  - intros s t cs delta Hwf Ht Hok Hnd Hd.
    destruct (check_and_update_contract t delta Hd Ht s cs Hwf Hok Hnd)
      as (cs' & a & s' & Hr & Hann & Hdec & (Hwf' & He & Hv) & _).
    exists cs', a, s'. split_and!; [done..| |].
    + intros k. rewrite Hv. destruct a; cbn [is_ok andb].
      * by case_bool_decide; [rewrite decide_True|rewrite decide_False].
      * by rewrite decide_False by set_solver.
    + intros k. unfold im_holds. by rewrite (ext_res _ _ _ He).
  - apply reserve_contract.
  - apply release_contract.
Defined.
End contract.

(** ** The properties of the in-memory storage *)

Section properties.
Context {CE : CelEngine} {HO : HashOrder} {MC : MokaCache}.
Implicit Types (s : InMemoryStorage) (k : CounterKey) (c : Counter) (t : SystemTime).

Lemma evaluate_pass_pure s q delta fl cs : preserves (eq s) (evaluate_pass q delta fl cs).
Proof.
  revert fl. induction cs as [|c cs IH]; intros fl; simpl;
    unfold qualified_get, simple_get, heap_get, read_cell, value, ttl, expiry_ttl; preserve.
Qed.

(** [check] and [is_within_limits] never change anything, whatever the clock
    shows and whatever they answer. *)
Theorem check_is_read_only cs c delta :
  read_only (check cs delta) /\ read_only (is_within_limits c delta).
Proof.
  split; apply read_only_preserves; intros s.
  - unfold check, evaluate. apply preserves_bind; [apply evaluate_pass_pure|]. intros [cs1 fl1].
    apply preserves_bind; [apply evaluate_pass_pure|]. intros [cs2 fl2]. preserve.
  - unfold is_within_limits, qualified_get, simple_get, heap_get, value. preserve.
Qed.

Context {ML : MokaLaws} {MR : MokaRoomy}.

(** C1: [check_and_update] is all or nothing while the cache evicts nothing: it answers
    [Ok] exactly when every counter has room for [delta] (a limit of [u64::MAX] always
    has), and then adds [delta] to the value of each of them and to no other.  When it
    is denied every value stays as it was, and of the cells exactly those of the
    counters with variables that had none change: each gets an empty cell whose window
    opens now.  The annotated counters come back in order with what was left of each
    before the call. *)
Theorem check_and_update_all_or_nothing s t cs delta :
  in_memory_wf s -> good_time t -> Forall (counter_ok t) cs -> NoDup (counter_key <$> cs) -> in_u64 delta ->
  exists cs' a s', runs t s (check_and_update cs delta) (Ok (cs', a)) s' /\
    (a = AuthOk <-> forall c, c ∈ cs ->
       im_value s t (counter_key c) + delta <= max_value c \/ max_value c = u64_max) /\
    (forall k, im_value s' t k =
       if is_ok a && bool_decide (k ∈ counter_key <$> cs) then u64_add (im_value s t k) delta
       else im_value s t k) /\
    (is_ok a = false -> opened t cs s s') /\
    Forall2 (annotates (im_value s t)) cs cs' /\
    (forall k, im_holds s' k = im_holds s k) /\ in_memory_wf s'.
Proof.
  intros Hwf Ht Hok Hnd Hd.
  destruct (@cs_check_and_update_spec _ _ _ in_memory_spec s t cs delta Hwf Ht Hok Hnd Hd)
    as (cs' & a & s' & Hr & Hwf' & Hann & Hdec & Hv & Hh).
  assert (Hop : is_ok a = false -> opened t cs s s').
  { destruct (check_and_update_contract t delta Hd Ht s cs Hwf Hok Hnd) as (cs2 & a2 & s2 & Hr2 & _ & _ & _ & Ho).
    by destruct (runs_det _ _ _ _ _ _ _ Hr Hr2) as [[= <- <-] <-]. }
  exists cs', a, s'. split; [exact Hr|]. split; [|split_and!; [exact Hv|exact Hop|exact Hann|exact Hh|exact Hwf']].
  rewrite Forall_forall in Hok.
  destruct a as [|n]; simpl in Hdec; split; try done.
  - intros _ c Hc. rewrite Forall_forall in Hdec. specialize (Hdec c Hc).
    destruct (Hok c Hc) as [Hm _]. pose proof (over_spec (im_value s t (counter_key c)) delta c Hm) as Ho.
    destruct (decide (max_value c = u64_max)) as [|Hne]; [by right|left].
    apply not_true_iff_false in Hdec. rewrite Ho in Hdec. unfold in_u64 in Hm. lia.
  - intros Hall. destruct Hdec as (c & Hc & Ho & _). destruct (Hok c Hc) as [Hm _].
    apply (over_spec _ _ _ Hm) in Ho. destruct (Hall c Hc); lia.
Qed.

(** Calls of [check_and_update] one after the other, the clock never going back. *)
Inductive trace : InMemoryStorage -> SystemTime -> InMemoryStorage -> SystemTime -> list (list Counter * Z) -> Prop :=
| trace_nil s t : trace s t s t []
| trace_snoc s t s1 t1 s2 t2 calls cs delta o :
    trace s t s1 t1 calls -> t1 <= t2 -> good_time t2 ->
    Forall (counter_ok t2) cs -> NoDup (counter_key <$> cs) -> in_u64 delta ->
    runs t2 s1 (check_and_update cs delta) o s2 ->
    trace s t s2 t2 (calls ++ [(cs, delta)]).

Lemma im_value_later s t t' k : in_memory_wf s -> t <= t' -> im_value s t' k <= im_value s t k.
Proof.
  intros Hwf Ht. pose proof (im_value_u64 s t k Hwf) as [Hpos _]. unfold im_value in *.
  destruct (cell_at s k) as [v|]; simpl in *; [|done].
  destruct (decide (live v t')) as [Hl'|]; [|done].
  rewrite decide_True; [done|]. unfold live in *. pose proof (as_micros_mono t t' Ht). lia.
Qed.

(** C2: a counter never goes over its limit: through any sequence of
    [check_and_update] calls, whatever other counters they name and whenever
    windows end in between, the value of a counter that started within its limit
    stays within it, while the cache evicts nothing. *)
Theorem never_over_limit s t s' t' calls k m :
  in_memory_wf s -> im_value s t k <= m ->
  (forall cs delta c, (cs, delta) ∈ calls -> c ∈ cs -> counter_key c = k -> max_value c = m) ->
  trace s t s' t' calls ->
  im_value s' t' k <= m.
Proof.
  intros Hwf Hv Hmax Htr.
  enough (in_memory_wf s' /\ im_value s' t' k <= m) by tauto.
  induction Htr as [s t|s t s1 t1 s2 t2 calls cs delta o Htr IH Hle Hgt Hok Hnd Hd Hr]; [done|].
  destruct IH as [Hwf1 Hv1]; [done|done|intros cs' d' c Hin; apply Hmax with d'; set_solver|].
  destruct (@cs_check_and_update_spec _ _ _ in_memory_spec s1 t2 cs delta Hwf1 Hgt Hok Hnd Hd)
    as (cs' & a & s2' & Hr' & Hwf2 & _ & Hdec & Hv2 & _).
  destruct (runs_det _ _ _ _ _ _ _ Hr Hr') as [_ <-]. split; [done|].
  change (im_value s2 t2 k) with (cs_value s2 t2 k). rewrite Hv2.
  pose proof (im_value_later s1 t1 t2 k Hwf1 Hle) as Hlater.
  change (cs_value s1 t2 k) with (im_value s1 t2 k).
  destruct (is_ok a && bool_decide (k ∈ counter_key <$> cs)) eqn:Hb; [|lia].
  apply andb_true_iff in Hb as [Ha Hk]. destruct a; [|done]. simpl in Hdec.
  apply bool_decide_eq_true, list_elem_of_fmap in Hk as (c & -> & Hc).
  rewrite Forall_forall in Hdec, Hok. specialize (Hdec c Hc). destruct (Hok c Hc) as [Hm _].
  pose proof (Hmax cs delta c ltac:(set_solver) Hc eq_refl) as <-.
  apply not_true_iff_false in Hdec. rewrite (over_spec _ _ _ Hm) in Hdec.
  change (cs_value s1 t2) with (im_value s1 t2) in Hdec.
  pose proof (u64_add_in (im_value s1 t2 (counter_key c)) delta) as [_ Hub].
  pose proof (im_value_u64 s1 t2 (counter_key c) Hwf1) as [Hlb _]. unfold in_u64 in *.
  destruct (decide (max_value c = u64_max)) as [->|]; [done|]. rewrite u64_add_small; lia.
Qed.

(** [clear] empties the counters without variables only: the values of all
    counters with variables, and all reservations, survive it. *)
Theorem clear_keeps_qualified s t :
  exists s', runs t s clear (Ok tt) s' /\
    (forall k, im_value s' t k = if decide (k.2 = ∅) then 0 else im_value s t k) /\
    (forall k, im_holds s' k = im_holds s k).
Proof.
  eexists. split; [unfold clear; runs_step; apply runs_put|]. split; [|done].
  intros k. unfold im_value, cell_at. simpl. by destruct (decide (k.2 = ∅)).
Qed.
End properties.

#[local] Existing Instance demo_engine.
#[local] Existing Instance demo_hash_order.
#[local] Existing Instance gmap_moka.

(** Two counters of the same limit, used by the examples. *)
Definition demo_counter2 : Counter := mkCounter demo_limit {["user" := "alice"]}%string None None.

Definition demo_time : SystemTime := from_secs 1000.

Lemma demo_counters_ok : Forall (counter_ok demo_time) [demo_counter; demo_counter2].
Proof. repeat constructor; vm_compute; intuition discriminate. Qed.

Lemma demo_counters_nodup : NoDup (counter_key <$> [demo_counter; demo_counter2]).
Proof. apply (bool_decide_eq_true_1 (NoDup _)). vm_refl. Qed.

Lemma demo_storage_wf : in_memory_wf (in_memory_new 10).
Proof. apply (in_memory_new_wf (ML := gmap_moka_laws)). Qed.

Lemma check_and_update_all_or_nothing_witness :
  exists cs' s', runs demo_time (in_memory_new 10) (check_and_update [demo_counter; demo_counter2] 4)
                   (Ok (cs', AuthOk)) s' /\
    im_value s' demo_time (counter_key demo_counter) = 4.
Proof.
  destruct (check_and_update_all_or_nothing (ML := gmap_moka_laws) (MR := gmap_moka_roomy)
              (in_memory_new 10) demo_time [demo_counter; demo_counter2] 4)
    as (cs' & a & s' & Hr & Hok & Hv & _).
  - apply demo_storage_wf.
  - vm_compute. intuition discriminate.
  - apply demo_counters_ok.
  - apply demo_counters_nodup.
  - vm_compute. intuition discriminate.
  - assert (Ha : a = AuthOk).
    { apply Hok. intros c [->|[->|[]%elem_of_nil]%elem_of_cons]%elem_of_cons; left; vm_compute; discriminate. }
    subst a. exists cs', s'. split; [done|]. rewrite Hv.
    rewrite bool_decide_eq_true_2 by (by left). reflexivity.
Defined.

Lemma never_over_limit_witness : exists s', im_value s' demo_time (counter_key demo_counter) <= 10.
Proof.
  destruct (check_and_update_contract (ML := gmap_moka_laws) (MR := gmap_moka_roomy) demo_time 4
              ltac:(vm_compute; intuition discriminate) ltac:(vm_compute; intuition discriminate)
              (in_memory_new 10) [demo_counter; demo_counter2] demo_storage_wf demo_counters_ok
              demo_counters_nodup) as (cs' & a & s' & Hr & _).
  exists s'.
  apply (never_over_limit (ML := gmap_moka_laws) (MR := gmap_moka_roomy) (in_memory_new 10) demo_time
           s' demo_time ([] ++ [([demo_counter; demo_counter2], 4)]) (counter_key demo_counter) 10).
  - apply demo_storage_wf.
  - vm_compute. discriminate.
  - intros cs d c [[= -> ->]|[]%elem_of_nil]%elem_of_cons
      [->|[->|[]%elem_of_nil]%elem_of_cons]%elem_of_cons _; reflexivity.
  - eapply trace_snoc; [apply trace_nil|reflexivity|vm_compute; intuition discriminate|
      apply demo_counters_ok|apply demo_counters_nodup|vm_compute; intuition discriminate|exact Hr].
Defined.
