(* ===== verification/RateLimiter.v ===== *)
(** * The rate limiter: [lib.rs]

    [RateLimiter] resolves a request to the counters of the limits that apply
    to it and asks the storage.  The id of a new reservation is a [Uuid]: an
    argument of [reserve] here. *)

From S2P Require Import Prelude Cel Errors Limit Counter Reservation Storage.
From Stdlib Require Import Floats.SpecFloat.

Section rate_limiter.
Context {CE : CelEngine} {HO : HashOrder}.

Record CheckResult : Type := mkCheckResult {
  limited : bool;
  counters : list Counter;
  result_limit_name : option string
}.

(** ** Response headers *)

(** [a.remaining().unwrap_or(a.max_value())] *)
Definition remaining_or_max (c : Counter) : Z := default (max_value c) (remaining c).

(** [sort_by]: a stable sort on the remaining budget. *)
Fixpoint sort_insert (c : Counter) (l : list Counter) : list Counter :=
  match l with
  | [] => [c]
  | d :: l => if remaining_or_max c <=? remaining_or_max d then c :: d :: l else d :: sort_insert c l
  end.

Definition sort_by_remaining (l : list Counter) : list Counter := foldr sort_insert [] l.

(** The character written [DQUOTE] in the header grammar. *)
Definition dquote : string := String (Ascii.ascii_of_nat 34) EmptyString.

(** [name.replace(DQUOTE, QUOTE)] *)
Fixpoint replace_dquote (s : string) : string :=
  match s with
  | EmptyString => EmptyString
  | String a s =>
      String (if Ascii.eqb a (Ascii.ascii_of_nat 34) then Ascii.ascii_of_nat 39 else a) (replace_dquote s)
  end.

(** What one counter adds to the text of all limits. *)
Definition limit_text (c : Counter) : string :=
  (", " +:+ pretty (max_value c) +:+ ";w=" +:+ pretty (as_secs (window c)) +:+
   match limit_name (ctr_limit c) with
   | Some name => ";name=" +:+ dquote +:+ replace_dquote name +:+ dquote
   | None => EmptyString
   end)%string.

(** The headers, and the counters as the call leaves them: sorted. *)
Definition response_headers_for (cs : list Counter) : gmap string string * list Counter :=
  let cs := sort_by_remaining cs in
  let all_limits_text := foldr (fun c acc => limit_text c +:+ acc)%string EmptyString cs in
  let headers :=
    match cs with
    | [] => ∅
    | c :: _ =>
        let headers : gmap string string :=
          <["X-RateLimit-Remaining" := pretty (remaining_or_max c)]>
          (<["X-RateLimit-Limit" := pretty (max_value c) +:+ all_limits_text]> ∅) in
        match expires_in c with
        | Some d => <["X-RateLimit-Reset" := pretty (as_secs d)]> headers
        | None => headers
        end
    end%string in
  (headers, cs).

(** [CheckResult::response_header]: the result's counters end up sorted too. *)
Definition response_header (r : CheckResult) : gmap string string * CheckResult :=
  let '(headers, cs) := response_headers_for (counters r) in
  (headers, mkCheckResult (limited r) cs (result_limit_name r)).

(** ** [struct RateLimiter] and its builder *)

Record RateLimiter (St : Type) : Type := mkRateLimiter {
  rl_storage : Storage St;
  reservation_limits : ReservationLimits
}.
#[global] Arguments mkRateLimiter {St} rl_storage reservation_limits.
#[global] Arguments rl_storage {St} r.
#[global] Arguments reservation_limits {St} r.

Definition new_with_storage {St} (cs : St) : RateLimiter St :=
  mkRateLimiter (with_counter_storage cs) reservation_limits_default.

(** [RateLimiterBuilder]: the same two fields until [build]. *)
Definition builder_with_storage {St} (s : Storage St) : RateLimiter St :=
  mkRateLimiter s reservation_limits_default.

Definition builder_storage {St} (b : RateLimiter St) (s : Storage St) : RateLimiter St :=
  mkRateLimiter s (reservation_limits b).

Definition builder_reservation_limits {St} (b : RateLimiter St) (rl : ReservationLimits) : RateLimiter St :=
  mkRateLimiter (rl_storage b) rl.

Definition build {St} (b : RateLimiter St) : RateLimiter St :=
  mkRateLimiter (rl_storage b) (reservation_limits b).

(** Iterating a [HashSet] of namespaces. *)
Definition hash_iter_set (X : gset string) : list string := (hash_iter (gset_to_gmap tt X)).*1.

(** [HashSet::difference] and [HashSet::union] of limits: [union] starts with the larger set. *)
Definition set_difference (a b : LimitSet) : list Limit :=
  filter (fun l => b !! limit_key l = None) (hash_iter a).*2.

Definition set_union (a b : LimitSet) : list Limit :=
  if (size b <=? size a)%nat then (hash_iter a).*2 ++ set_difference b a
  else (hash_iter b).*2 ++ set_difference a b.

(** The union of two sets of namespaces, in iteration order. *)
Definition namespaces_union (a b : gset string) : list string :=
  if (size b <=? size a)%nat then hash_iter_set a ++ filter (fun x => x ∉ a) (hash_iter_set b)
  else hash_iter_set b ++ filter (fun x => x ∉ b) (hash_iter_set a).

Definition classify_limits_by_namespace (limits : list Limit) : gmap string LimitSet :=
  foldl (fun res l =>
           match res !! namespace l with
           | Some s => <[namespace l := (set_insert limit_key l s).2]> res
           | None => <[namespace l := (set_insert limit_key l ∅).2]> res
           end) ∅ limits.

Context {St : Type} {CS : CounterStorage St}.
Abbreviation RL A := (M (RateLimiter St) LimitadorError A).

(** Runs an operation of the storage, its error converted by [?] or [map_err]. *)
Definition on_storage {E A} (m : M (Storage St) E A) : M (RateLimiter St) E A :=
  zoom rl_storage (fun s r => mkRateLimiter s (reservation_limits r)) m.

Definition get_namespaces : RL (gset string) := on_storage Storage.get_namespaces.

Definition add_limit (l : Limit) : RL bool := on_storage (Storage.add_limit l).

Definition delete_limit (l : Limit) : RL unit :=
  from_storage_err (on_storage (Storage.delete_limit l)).

Definition get_limits (ns : string) : RL LimitSet := on_storage (Storage.get_limits ns).

Definition delete_limits (ns : string) : RL unit :=
  from_storage_err (on_storage (Storage.delete_limits ns)).

(** [filter(applies).filter_map(Counter::new).collect()]: lazily, limit after
    limit, up to the first error. *)
Fixpoint resolve_counters (ls : list Limit) (ctx : Context) : Outcome LimitadorError (list Counter) :=
  match ls with
  | [] => Ok []
  | l :: ls =>
      let? b := applies l ctx in
      if (b : bool) then
        let? r := counter_new l ctx in
        let? cs := resolve_counters ls ctx in
        Ok match r with Some c => c :: cs | None => cs end
      else resolve_counters ls ctx
  end.

Definition counters_that_apply (ns : string) (ctx : Context) : RL (list Counter) :=
  let* limits := get_limits ns in
  lift (resolve_counters (hash_iter limits).*2 ctx).

(** The [CheckResult] of an answer of the storage. *)
Definition check_result (cs : list Counter) (a : Authorization) : CheckResult :=
  match a with
  | AuthOk => mkCheckResult false cs None
  | AuthLimited name => mkCheckResult true cs name
  end.

Definition is_rate_limited (ns : string) (ctx : Context) (delta : Z) : RL CheckResult :=
  let* cs := counters_that_apply ns ctx in
  match cs with
  | [] => ret (mkCheckResult false [] None)
  | _ =>
      let* '(cs, auth) := from_storage_err (on_storage (Storage.check cs delta)) in
      ret (check_result cs auth)
  end.

(** [try_for_each(|counter| storage.update_counter(counter, delta))] *)
Definition update_each (cs : list Counter) (delta : Z) : RL unit :=
  for_each (fun c => from_storage_err (on_storage (Storage.update_counter c delta))) cs.

Definition update_counters (ns : string) (ctx : Context) (delta : Z) : RL unit :=
  let* cs := counters_that_apply ns ctx in
  update_each cs delta.

(** The budget left after [delta] was applied. *)
Definition subtract_delta (delta : Z) (c : Counter) : Counter :=
  match remaining c with
  | Some r => set_remaining c (u64_saturating_sub r delta)
  | None => c
  end.

Definition check_rate_limited_and_update (ns : string) (ctx : Context) (delta : Z) : RL CheckResult :=
  let* cs := counters_that_apply ns ctx in
  match cs with
  | [] => ret (mkCheckResult false [] None)
  | _ =>
      let* '(cs, auth) := from_storage_err (on_storage (Storage.check_and_update cs delta)) in
      let cs := match auth with AuthOk => subtract_delta delta <$> cs | AuthLimited _ => cs end in
      ret (check_result cs auth)
  end.

Definition get_counters (ns : string) : RL CounterSet :=
  from_storage_err (on_storage (Storage.get_counters ns)).

(** [iter().map(|c| (c.max_value() as f64 * max_fraction) as u64).min()] *)
Definition max_hold (fraction : f64) (cs : list Counter) : option Z :=
  foldl (fun acc c =>
           let v := f64_as_u64 (f64_mul (u64_as_f64 (max_value c)) fraction) in
           Some (match acc with Some m => Z.min m v | None => v end)) None cs.

Definition hold_amount (fraction : f64) (cs : list Counter) (amount : Z) : Z :=
  match max_hold fraction cs with
  | Some m => Z.min amount m
  | None => amount
  end.

(** [ttl.map_or(max_ttl, |ttl| ttl.min(max_ttl))] *)
Definition clamp_ttl (max : Duration) (ttl : option Duration) : Duration :=
  match ttl with None => max | Some ttl => Z.min ttl max end.

Definition reserve (uuid : ReservationId) (ns : string) (ctx : Context) (amount : Z)
    (ttl : option Duration) : RL ReserveResult :=
  let* cs := counters_that_apply ns ctx in
  match cs with
  | [] => ret (mkReserveResult false None 0 [] None)
  | _ =>
      let* r := get in
      let hold := hold_amount (max_fraction (reservation_limits r)) cs amount in
      let ttl := clamp_ttl (max_ttl (reservation_limits r)) ttl in
      let* '(cs, auth) := from_storage_err (on_storage (Storage.reserve cs uuid amount hold ttl)) in
      ret match auth with
          | AuthOk => mkReserveResult false (if 0 <? hold then Some uuid else None) hold cs None
          | AuthLimited name => mkReserveResult true None 0 cs name
          end
  end.

Definition commit_reservation (ns : string) (ctx : Context) (id : option ReservationId)
    (actual_amount : Z) : RL CommitResult :=
  let* cs := counters_that_apply ns ctx in
  update_each cs actual_amount ;;;
  let* released :=
    match id, cs with
    | Some id, _ :: _ => from_storage_err (on_storage (Storage.release_reservation cs id))
    | _, _ => ret false
    end in
  ret (mkCommitResult released).

(** The body of [configure_with]'s loop. *)
Definition configure_namespace (keep : gmap string LimitSet) (ns : string) : RL unit :=
  let* current := get_limits ns in
  let keep := default ∅ (keep !! ns) in
  for_each delete_limit (set_difference current keep) ;;;
  for_each (fun l => add_limit l ;;; ret tt) (set_difference keep current) ;;;
  for_each (fun l => on_storage (Storage.update_limit l) ;;; ret tt) (set_union keep current).

Definition configure_with (limits : list Limit) : RL unit :=
  let keep := classify_limits_by_namespace limits in
  let* namespaces := get_namespaces in
  for_each (configure_namespace keep) (namespaces_union namespaces (dom keep)).

End rate_limiter.
