(* ===== verification/RateLimiterSpec.v ===== *)
(** * What the rate limiter guarantees, over any storage that keeps its contract *)

From S2P Require Import Prelude AtomicExpiringValue Cel Errors Limit Counter Reservation.
From S2P Require Import Storage Moka LocalReservations StorageSpec RateLimiter.

(** ** Resolving the counters of a request *)

Section resolve.
Context {CE : CelEngine} {HO : HashOrder}.
Implicit Types (l : Limit) (c : Counter) (ctx : Context).

Lemma counter_new_limit l ctx c : counter_new l ctx = Ok (Some c) -> ctr_limit c = l.
Proof.
  unfold counter_new. destruct (from_evaluation_err _) as [[v|]|e|m]; simpl; [|done..].
  by intros [= <-].
Qed.

(** The counters follow the order of the limits, one at most for each. *)
Lemma resolve_counters_limits ls ctx cs :
  resolve_counters ls ctx = Ok cs -> (ctr_limit <$> cs) `sublist_of` ls.
Proof.
  revert cs. induction ls as [|l ls IH]; intros cs; simpl; [by intros [= <-]|].
  destruct (applies l ctx) as [b|e|m]; simpl; [|done..]. destruct b.
  - destruct (counter_new l ctx) as [r|e|m] eqn:Hc; simpl; [|done..].
    destruct (resolve_counters ls ctx) as [cs'|e|m]; simpl; [|done..].
    destruct r as [c|]; intros [= <-].
    + simpl. apply counter_new_limit in Hc as ->. by apply sublist_skip, IH.
    + by apply sublist_cons, IH.
  - intros Hcs. by apply sublist_cons, IH.
Qed.

Lemma limit_keys_nodup (s : LimitSet) :
  (forall k l, s !! k = Some l -> limit_key l = k) -> NoDup (limit_key <$> (hash_iter s).*2).
Proof.
  intros Hs. assert (Heq : limit_key <$> (hash_iter s).*2 = (hash_iter s).*1).
  { rewrite <-list_fmap_compose. apply Forall_fmap_ext. apply Forall_forall. intros [k l] Hin. simpl.
    apply Hs. rewrite hash_iter_perm in Hin. by apply elem_of_map_to_list. }
  rewrite Heq, hash_iter_perm. apply NoDup_fst_map_to_list.
Qed.

Lemma resolve_counters_nodup ls ctx cs :
  NoDup (limit_key <$> ls) -> resolve_counters ls ctx = Ok cs -> NoDup (counter_key <$> cs).
Proof.
  intros Hnd Hcs. apply resolve_counters_limits in Hcs.
  apply (NoDup_fmap_1 fst). rewrite <-list_fmap_compose.
  change (fst ∘ counter_key) with (limit_key ∘ ctr_limit). rewrite list_fmap_compose.
  eapply sublist_NoDup; [done|]. by apply fmap_sublist.
Qed.
End resolve.

Section spec.
Context {CE : CelEngine} {HO : HashOrder} {St : Type} {CS : CounterStorage St} {SP : CounterStorageSpec St}.
Implicit Types (r : RateLimiter St) (c : Counter) (ctx : Context) (t : SystemTime) (k : CounterKey).

(** The stored counters of a rate limiter. *)
Definition rl_counters r : St := st_counters (rl_storage r).

Definition rl_value r t k : Z := cs_value (rl_counters r) t k.
Definition rl_holds r k : list ReservationEntry := cs_holds (rl_counters r) k.

Definition set_counters r (s : St) : RateLimiter St :=
  mkRateLimiter (mkStorage (st_limits (rl_storage r)) s) (reservation_limits r).

Lemma set_counters_id r : set_counters r (rl_counters r) = r.
Proof. by destruct r as [[limits s] rl]. Qed.

Definition rl_inv r : Prop := cs_inv (rl_counters r) /\ storage_wf (st_limits (rl_storage r)).

Lemma rl_inv_set r s : rl_inv r -> cs_inv s -> rl_inv (set_counters r s).
Proof. by intros [_ ?] ?. Qed.

Lemma runs_on_counters {A} t r (m : M St StorageErr A) o s' :
  runs t (rl_counters r) m o s' ->
  runs t r (from_storage_err (on_storage (on_counters m))) (outcome_map_err StorageError o) (set_counters r s').
Proof.
  intros Hm. apply runs_map_err.
  apply (runs_zoom t rl_storage (fun s r => mkRateLimiter s (reservation_limits r))).
  apply (runs_zoom t st_counters (fun x s => mkStorage (st_limits s) x)), Hm.
Qed.

(** The counters of a request against [r]. *)
Definition request_counters r ns ctx : Outcome LimitadorError (list Counter) :=
  resolve_counters (hash_iter (default ∅ (st_limits (rl_storage r) !! ns))).*2 ctx.

Lemma runs_counters_that_apply t r ns ctx :
  runs t r (counters_that_apply ns ctx) (request_counters r ns ctx) r.
Proof.
  unfold counters_that_apply. eapply runs_bind; [|apply runs_lift].
  unfold get_limits, on_storage. apply runs_zoom_read; [by destruct r|].
  unfold Storage.get_limits, get_storage_limits. eapply runs_bind; [|apply runs_ret].
  eapply runs_bind; [apply runs_get|apply runs_ret].
Qed.

Lemma request_counters_nodup r ns ctx cs :
  rl_inv r -> request_counters r ns ctx = Ok cs -> NoDup (counter_key <$> cs).
Proof.
  intros [_ Hwf]. apply resolve_counters_nodup, limit_keys_nodup. intros k l.
  destruct (st_limits (rl_storage r) !! ns) as [s|] eqn:Hs; simpl; [|by rewrite lookup_empty].
  intros Hl. by destruct (Hwf ns s Hs) as [_ [? _]%(fun H => H k l Hl)].
Qed.

(** A request the storage can count: its counters resolve and fit the clock. *)
Definition request_ok r t ns ctx (cs : list Counter) : Prop :=
  rl_inv r /\ good_time t /\ request_counters r ns ctx = Ok cs /\ Forall (counter_ok t) cs.

(** Some counter of [cs] has no room for [delta]. *)
Definition over_some r t (delta : Z) (cs : list Counter) : bool :=
  existsb (fun c => over (rl_value r t (counter_key c)) delta c) cs.

Lemma decides_over_some r t delta cs a :
  decides (rl_value r t) delta cs a -> over_some r t delta cs = negb (is_ok a).
Proof.
  unfold over_some. destruct a as [|n]; simpl.
  - intros Hall. apply not_true_iff_false. intros (c & Hc & Ho)%existsb_exists.
    rewrite Forall_forall in Hall. rewrite Hall in Ho; [done|]. by apply list_elem_of_In.
  - intros (c & Hc & Ho & _). apply existsb_exists. exists c. split; [by apply list_elem_of_In|done].
Qed.

Lemma limited_check_result cs a : limited (check_result cs a) = negb (is_ok a).
Proof. by destruct a. Qed.

Lemma counters_check_result cs a : counters (check_result cs a) = cs.
Proof. by destruct a. Qed.

Lemma is_rate_limited_run r t ns ctx delta cs :
  request_ok r t ns ctx cs ->
  exists res, runs t r (is_rate_limited ns ctx delta) (Ok res) r /\
    limited res = over_some r t delta cs /\
    Forall2 (annotates (rl_value r t)) cs (counters res) /\
    (forall n, result_limit_name res = Some n -> exists c, c ∈ cs /\ limit_name (ctr_limit c) = Some n).
Proof.
  intros ([Hinv Hwf] & Ht & Hcs & Hok). unfold is_rate_limited.
  pose proof (runs_counters_that_apply t r ns ctx) as Hrun. rewrite Hcs in Hrun.
  destruct cs as [|c0 cs0] eqn:Hnil.
  - exists (mkCheckResult false [] None). split_and!; [|done..].
    eapply runs_bind; [done|]. apply runs_ret.
  - rewrite <-Hnil in *.
    destruct (cs_check_spec _ t cs delta Hinv Ht Hok) as (cs' & a & Hr & Hann & Hdec).
    apply (runs_on_counters t r) in Hr. simpl in Hr. rewrite set_counters_id in Hr.
    exists (check_result cs' a). split_and!.
    + eapply runs_bind; [done|]. rewrite Hnil. rewrite <-Hnil. eapply runs_bind; [done|]. apply runs_ret.
    + rewrite limited_check_result. symmetry. by apply decides_over_some.
    + by rewrite counters_check_result.
    + intros n. destruct a as [|m]; simpl; [done|]. intros ->.
      destruct Hdec as (c & Hc & _ & Hn). by exists c.
Qed.

(** When the last window of [k] ends. *)
Definition rl_end r k : Z := cs_end (rl_counters r) k.

(** A step at [t] that leaves the limits alone and the windows that are open. *)
Definition keeps t r r' : Prop :=
  st_limits (rl_storage r') = st_limits (rl_storage r) /\ forall k, window_kept t k (rl_end r k) (rl_end r' k).

Lemma check_and_update_run r t ns ctx delta cs :
  request_ok r t ns ctx cs -> in_u64 delta ->
  exists res r', runs t r (check_rate_limited_and_update ns ctx delta) (Ok res) r' /\
    rl_inv r' /\ limited res = over_some r t delta cs /\
    (forall k, rl_value r' t k =
       if negb (limited res) && bool_decide (k ∈ counter_key <$> cs)
       then u64_add (rl_value r t k) delta else rl_value r t k) /\
    Forall2 (fun c c' => counter_key c' = counter_key c /\
               remaining c' = Some (u64_saturating_sub (max_value c)
                 (rl_value r t (counter_key c) + (if limited res then 0 else delta)))) cs (counters res) /\
    (forall k, rl_holds r' k = rl_holds r k) /\ keeps t r r'.
Proof.
  intros ([Hinv Hwf] & Ht & Hcs & Hok) Hd. unfold check_rate_limited_and_update.
  pose proof (request_counters_nodup r ns ctx cs (conj Hinv Hwf) Hcs) as Hnd.
  pose proof (runs_counters_that_apply t r ns ctx) as Hrun. rewrite Hcs in Hrun.
  destruct cs as [|c0 cs0] eqn:Hnil.
  - exists (mkCheckResult false [] None), r. split_and!; [|done|done| |constructor|done|].
    + eapply runs_bind; [done|]. apply runs_ret.
    + intros k. cbn [negb andb limited]. by rewrite bool_decide_eq_false_2 by (apply not_elem_of_nil).
    + split; [done|by left].
  - rewrite <-Hnil in *.
    destruct (cs_check_and_update_spec _ t cs delta Hinv Ht Hok Hnd Hd)
      as (cs' & a & s' & Hr & Hinv' & Hann & Hdec & Hv & Hh).
    pose proof (fun k => cs_windows _ t s' k Hinv (call_check_and_update t _ _ cs delta _ Ht Hok Hnd Hd Hr)) as Hw.
    apply (runs_on_counters t r) in Hr. simpl in Hr.
    set (cs'' := match a with AuthOk => subtract_delta delta <$> cs' | AuthLimited _ => cs' end).
    exists (check_result cs'' a), (set_counters r s'). rewrite limited_check_result, counters_check_result.
    split_and!.
    + eapply runs_bind; [done|]. rewrite Hnil. rewrite <-Hnil. eapply runs_bind; [done|]. apply runs_ret.
    + by apply rl_inv_set.
    + symmetry. by apply decides_over_some.
    + intros k. rewrite negb_involutive. apply Hv.
    + unfold cs''. destruct a as [|n]; simpl.
      * apply Forall2_fmap_r. eapply Forall2_impl; [done|]. intros c c' (Hl & Hs & Hrem & _).
        simpl. unfold subtract_delta. rewrite Hrem. unfold counter_key. simpl. rewrite Hl, Hs. split; [done|].
        f_equal. unfold u64_saturating_sub, rl_value, counter_key. unfold in_u64 in Hd. lia.
      * eapply Forall2_impl; [done|]. intros c c' (Hl & Hs & Hrem & _).
        rewrite Hrem, Z.add_0_r. unfold counter_key. by rewrite Hl, Hs.
    + intros k. apply Hh.
    + split; [done|exact Hw].
Qed.

Lemma update_each_run r t cs delta :
  cs_inv (rl_counters r) -> Forall (counter_ok t) cs -> NoDup (counter_key <$> cs) -> in_u64 delta ->
  exists s', runs t r (update_each cs delta) (Ok tt) (set_counters r s') /\ cs_inv s' /\
    (forall k, cs_value s' t k =
       if decide (k ∈ counter_key <$> cs) then u64_add (rl_value r t k) delta else rl_value r t k) /\
    (forall k, cs_holds s' k = rl_holds r k).
Proof.
  revert r. induction cs as [|c cs IH]; intros r Hinv Hok Hnd Hd.
  - exists (rl_counters r). rewrite set_counters_id. split_and!; [apply runs_ret|done| |done].
    intros k. by rewrite decide_False by (apply not_elem_of_nil).
  - apply Forall_cons in Hok as [Hc Hok]. apply NoDup_cons in Hnd as [Hnot Hnd].
    destruct (cs_update_spec _ t c delta Hinv Hc Hd) as (s1 & Hr1 & Hinv1 & Hv1 & Hh1).
    apply (runs_on_counters t r) in Hr1. simpl in Hr1.
    destruct (IH (set_counters r s1) Hinv1 Hok Hnd Hd) as (s2 & Hr2 & Hinv2 & Hv2 & Hh2).
    exists s2. split_and!; [|done| |].
    + unfold update_each. simpl. eapply runs_bind; [exact Hr1|exact Hr2].
    + intros k. rewrite Hv2. change (rl_value (set_counters r s1) t k) with (cs_value s1 t k).
      rewrite Hv1. destruct (decide (k = counter_key c)) as [->|Hne].
      * rewrite decide_False by done. by rewrite decide_True by (by left).
      * destruct (decide (k ∈ counter_key <$> cs)).
        -- by rewrite decide_True by (by right).
        -- rewrite decide_False; [done|]. simpl. by rewrite not_elem_of_cons.
    + intros k. rewrite Hh2. apply Hh1.
Qed.

Lemma limiter_update_run r t ns ctx delta cs :
  request_ok r t ns ctx cs -> in_u64 delta ->
  exists r', runs t r (update_counters ns ctx delta) (Ok tt) r' /\ rl_inv r' /\
    st_limits (rl_storage r') = st_limits (rl_storage r) /\
    (forall k, rl_value r' t k =
       if decide (k ∈ counter_key <$> cs) then u64_add (rl_value r t k) delta else rl_value r t k) /\
    (forall k, rl_holds r' k = rl_holds r k).
Proof.
  intros ([Hinv Hwf] & Ht & Hcs & Hok) Hd.
  pose proof (request_counters_nodup r _ _ cs (conj Hinv Hwf) Hcs) as Hnd.
  destruct (update_each_run r t cs delta Hinv Hok Hnd Hd) as (s1 & Hup & Hinv1 & Hv & Hh).
  exists (set_counters r s1). split_and!; [|by apply rl_inv_set|done|done|done].
  unfold update_counters. eapply runs_bind; [|exact Hup].
  pose proof (runs_counters_that_apply t r ns ctx) as Hrc. by rewrite Hcs in Hrc.
Qed.


(** ** Reserving *)

Lemma f64_as_u64_nonneg x : 0 <= f64_as_u64 x.
Proof.
  destruct x as [s|s| |[] m e]; simpl; try done; [by destruct s|].
  destruct (0 <=? e) eqn:He; unfold u64_max.
  - apply Z.min_glb; [|done]. apply Z.mul_nonneg_nonneg; [done|]. apply Z.pow_nonneg. lia.
  - apply Z.min_glb; [|done]. apply Z.div_pos; [done|]. apply Z.pow_pos_nonneg; lia.
Qed.

Lemma hold_amount_bounds fraction cs amount :
  0 <= amount -> 0 <= hold_amount fraction cs amount <= amount.
Proof.
  intros Ha. unfold hold_amount, max_hold.
  assert (Hpos : forall acc, match acc with Some m => 0 <= m | None => True end ->
    match foldl (fun acc c =>
           let v := f64_as_u64 (f64_mul (u64_as_f64 (max_value c)) fraction) in
           Some (match acc with Some m => Z.min m v | None => v end)) acc cs with
    | Some m => 0 <= m | None => True end).
  { induction cs as [|c cs IH]; intros acc Hacc; simpl; [done|]. apply IH.
    pose proof (f64_as_u64_nonneg (f64_mul (u64_as_f64 (max_value c)) fraction)).
    destruct acc; simpl in *; lia. }
  specialize (Hpos None I). destruct (foldl _ None cs); lia.
Qed.

(** Every counter caps the hold at its share of its own maximum. *)
Lemma hold_amount_capped fraction cs amount c :
  c ∈ cs -> hold_amount fraction cs amount <= f64_as_u64 (f64_mul (u64_as_f64 (max_value c)) fraction).
Proof.
  intros Hc. unfold hold_amount, max_hold.
  set (f := fun acc c => let v := f64_as_u64 (f64_mul (u64_as_f64 (max_value c)) fraction) in
           Some (match acc with Some m => Z.min m v | None => v end)).
  assert (Hmono : forall cs acc m, acc = Some m -> exists m', foldl f acc cs = Some m' /\ m' <= m).
  { intros cs0. induction cs0 as [|c0 cs0 IH]; intros acc m ->; simpl; [by exists m|].
    destruct (IH (f (Some m) c0) _ eq_refl) as (m' & Hm' & Hle). exists m'. split; [done|]. lia. }
  assert (Hin : forall acc, exists m', foldl f acc cs = Some m' /\
            m' <= f64_as_u64 (f64_mul (u64_as_f64 (max_value c)) fraction)).
  { induction cs as [|c0 cs IH]; intros acc; [by apply not_elem_of_nil in Hc|].
    apply elem_of_cons in Hc as [->|Hc]; [|by apply IH].
    simpl. destruct (Hmono cs (f acc c0) _ eq_refl) as (m' & -> & Hle). exists m'. split; [done|].
    destruct acc; lia. }
  destruct (Hin None) as (m' & -> & Hle). lia.
Qed.

(** The counters leave room for [amount], next to their values and live holds. *)
Definition room r t (amount : Z) c : Prop :=
  rl_value r t (counter_key c) + sum_live (rl_holds r (counter_key c)) t + amount <= max_value c.

Lemma limiter_reserve_run r t uuid ns ctx amount ttl cs :
  request_ok r t ns ctx cs -> cs <> [] -> 0 <= amount ->
  let limits := reservation_limits r in
  let d := clamp_ttl (max_ttl limits) ttl in
  let hold := hold_amount (max_fraction limits) cs amount in
  0 < d -> t + d <= systime_max ->
  (forall c, c ∈ cs -> rl_value r t (counter_key c)
                       + sum_live (rl_holds r (counter_key c)) t + amount <= u64_max) ->
  exists res r', runs t r (reserve uuid ns ctx amount ttl) (Ok res) r' /\ rl_inv r' /\
    st_limits (rl_storage r') = st_limits (rl_storage r) /\
    (rr_limited res = false <-> forall c, c ∈ cs -> room r t amount c) /\
    rr_amount res = (if rr_limited res then 0 else hold) /\
    rr_reservation_id res = (if negb (rr_limited res) && (0 <? hold) then Some uuid else None) /\
    counter_key <$> rr_counters res = counter_key <$> cs /\
    (forall k, rl_value r' t k = rl_value r t k) /\
    (forall k, if negb (rr_limited res) && bool_decide (k ∈ counter_key <$> cs) && (0 <? hold)
               then exists e, rl_holds r' k = filter (fun e => is_live_at e t = true) (rl_holds r k)
                                                ++ [mkEntry uuid hold e] /\ t < e <= t + d
               else rl_holds r' k = rl_holds r k).
Proof.
  intros ([Hinv Hwf] & Ht & Hcs & Hok) Hne Ha limits d hold Hd Htd Hmax. unfold reserve.
  pose proof (request_counters_nodup r ns ctx cs (conj Hinv Hwf) Hcs) as Hnd.
  pose proof (runs_counters_that_apply t r ns ctx) as Hrun. rewrite Hcs in Hrun.
  pose proof (hold_amount_bounds (max_fraction limits) cs amount Ha) as Hh. fold hold in Hh.
  destruct (cs_reserve_spec _ t cs uuid amount hold d Hinv Hok Hnd Hh Hd Htd Hmax)
    as (cs' & a & s' & Hr & Hinv' & Hk & Ha' & Hv & Hholds).
  apply (runs_on_counters t r) in Hr. simpl in Hr.
  eexists _, (set_counters r s'). split_and!.
  - eapply runs_bind; [done|]. destruct cs as [|c0 cs0]; [done|].
    eapply runs_bind; [apply runs_get|]. eapply runs_bind; [exact Hr|]. apply runs_ret.
  - by apply rl_inv_set.
  - done.
  - unfold room, rl_value, rl_holds. rewrite <-Ha'. by destruct a.
  - by destruct a.
  - by destruct a.
  - by destruct a.
  - done.
  - assert (Hlt : (0 <? hold) = negb (hold =? 0)).
    { destruct (Z.ltb_spec 0 hold), (Z.eqb_spec hold 0); simpl; try done; lia. }
    intros k. specialize (Hholds k). rewrite Hlt. destruct a; simpl in *; exact Hholds.
Qed.

(** ** The properties of the rate limiter *)

(** C5: checking and updating agree.  At one instant [is_rate_limited] and
    [check_rate_limited_and_update] both return and give the same answer, limited
    exactly when some counter of a limit that applies has no room for [delta].
    The check changes nothing; the update adds [delta] to every counter of the
    request when it is not limited and to none when it is, and reports exactly
    what is left of each counter after that. *)
Theorem check_and_update_agree r t ns ctx delta cs :
  request_ok r t ns ctx cs -> in_u64 delta ->
  exists res1 res2 r',
    runs t r (is_rate_limited ns ctx delta) (Ok res1) r /\
    runs t r (check_rate_limited_and_update ns ctx delta) (Ok res2) r' /\
    limited res1 = limited res2 /\
    (limited res2 = true <-> exists c, c ∈ cs /\ over (rl_value r t (counter_key c)) delta c = true) /\
    (forall k, rl_value r' t k =
       if negb (limited res2) && bool_decide (k ∈ counter_key <$> cs)
       then u64_add (rl_value r t k) delta else rl_value r t k) /\
    Forall2 (fun c c' => counter_key c' = counter_key c /\
               remaining c' = Some (u64_saturating_sub (max_value c)
                 (rl_value r t (counter_key c) + (if limited res2 then 0 else delta)))) cs (counters res2) /\
    (forall k, rl_holds r' k = rl_holds r k) /\ rl_inv r'.
Proof.
  intros Hreq Hd.
  destruct (is_rate_limited_run r t ns ctx delta cs Hreq) as (res1 & Hr1 & Hl1 & _).
  destruct (check_and_update_run r t ns ctx delta cs Hreq Hd) as (res2 & r' & Hr2 & Hinv & Hl2 & Hv & Hrem & Hh & _).
  exists res1, res2, r'. split_and!; [done|done|congruence| |done..].
  rewrite Hl2. unfold over_some. rewrite existsb_exists.
  split; intros (c & Hc & Ho); exists c; (split; [by apply list_elem_of_In|done]).
Qed.

(** C8: a reservation is admitted exactly when the whole requested amount fits next
    to the value and the live holds of every matching counter.  What it then holds
    is at most the requested amount and at most [max_fraction] of any matching
    counter, under the caller's id and for at most [max_ttl]; nothing is held, and
    no id returned, when it is denied or the hold comes out as 0; no counter's
    value changes. *)
Theorem reserve_admission_exact r t uuid ns ctx amount ttl cs :
  request_ok r t ns ctx cs -> cs <> [] -> 0 <= amount ->
  0 < clamp_ttl (max_ttl (reservation_limits r)) ttl ->
  t + max_ttl (reservation_limits r) <= systime_max ->
  (forall c, c ∈ cs -> rl_value r t (counter_key c)
                       + sum_live (rl_holds r (counter_key c)) t + amount <= u64_max) ->
  exists res r', runs t r (reserve uuid ns ctx amount ttl) (Ok res) r' /\
    (rr_limited res = false <-> forall c, c ∈ cs -> room r t amount c) /\
    0 <= rr_amount res <= amount /\
    (forall c, c ∈ cs -> rr_amount res <=
       Z.max 0 (f64_as_u64 (f64_mul (u64_as_f64 (max_value c)) (max_fraction (reservation_limits r))))) /\
    (rr_reservation_id res = Some uuid <-> 0 < rr_amount res) /\
    (forall k, rl_value r' t k = rl_value r t k) /\
    (forall k e, e ∈ rl_holds r' k -> e ∈ rl_holds r k \/
       (reservation_id e = uuid /\ Reservation.amount e = rr_amount res /\
        t < entry_expires_at e <= t + max_ttl (reservation_limits r))).
Proof.
  intros Hreq Hne Ha Hd Htd Hmax.
  assert (Hcl : clamp_ttl (max_ttl (reservation_limits r)) ttl <= max_ttl (reservation_limits r)).
  { destruct ttl; simpl; lia. }
  destruct (limiter_reserve_run r t uuid ns ctx amount ttl cs Hreq Hne Ha Hd ltac:(lia) Hmax)
    as (res & r' & Hr & _ & _ & Hadm & Hamt & Hid & _ & Hv & Hh).
  pose proof (hold_amount_bounds (max_fraction (reservation_limits r)) cs amount Ha) as Hb.
  exists res, r'. split_and!; [done|done|..].
  - rewrite Hamt. destruct (rr_limited res); lia.
  - rewrite Hamt. destruct (rr_limited res); lia.
  - intros c Hc. pose proof (hold_amount_capped (max_fraction (reservation_limits r)) cs amount c Hc).
    rewrite Hamt. destruct (rr_limited res); lia.
  - rewrite Hid, Hamt. destruct (rr_limited res); simpl; [split; [done|lia]|].
    by destruct (Z.ltb_spec 0 (hold_amount (max_fraction (reservation_limits r)) cs amount));
      split; try done; lia.
  - done.
  - intros k e He. specialize (Hh k). rewrite Hamt.
    destruct (rr_limited res); simpl in Hh; [rewrite Hh in He; by left|].
    destruct (bool_decide _ && _); [|rewrite Hh in He; by left].
    destruct Hh as (x & Hx & Hlt). rewrite Hx in He. apply elem_of_app in He as [He|He].
    + left. by apply list_elem_of_filter in He as [_ ?].
    + right. apply list_elem_of_singleton in He as ->. simpl. split_and!; try done; lia.
Qed.

End spec.

(** ** Response headers *)

Section headers.
Context {CE : CelEngine}.
Implicit Types (c : Counter).

Definition rem_le c d : Prop := remaining_or_max c <= remaining_or_max d.

Lemma sort_insert_perm c l : sort_insert c l ≡ₚ c :: l.
Proof.
  induction l as [|d l IH]; simpl; [done|]. destruct (_ <=? _); [done|]. rewrite IH. apply Permutation_swap.
Qed.

Lemma sort_insert_sorted c l : StronglySorted rem_le l -> StronglySorted rem_le (sort_insert c l).
Proof.
  induction l as [|d l IH]; intros Hs; simpl; [by repeat constructor|].
  inversion Hs as [|? ? Hl Hd]; subst. destruct (Z.leb_spec (remaining_or_max c) (remaining_or_max d)) as [Hle|Hgt].
  - constructor; [done|]. constructor; [done|]. eapply Forall_impl; [done|]. unfold rem_le. intros e He. lia.
  - constructor; [by apply IH|]. rewrite sort_insert_perm. constructor; [unfold rem_le; lia|done].
Qed.

Lemma sort_by_remaining_spec l :
  sort_by_remaining l ≡ₚ l /\ StronglySorted rem_le (sort_by_remaining l).
Proof.
  induction l as [|c l [IHp IHs]]; simpl; [split; [done|constructor]|].
  split; [by rewrite sort_insert_perm, IHp|by apply sort_insert_sorted].
Qed.

(** The rate-limit headers describe the most restrictive counter: no counter of
    the result has less left than the one whose limit, remaining budget and reset
    time they show; there are headers exactly when some counter matched, and
    building them only reorders the result's counters. *)
Theorem response_header_most_restrictive (res res' : CheckResult) headers :
  response_header res = (headers, res') ->
  counters res' ≡ₚ counters res /\ limited res' = limited res /\
  (headers = ∅ <-> counters res = []) /\
  forall c, head (counters res') = Some c ->
    (forall d, d ∈ counters res -> rem_le c d) /\
    headers !! "X-RateLimit-Remaining"%string = Some (pretty (remaining_or_max c)) /\
    headers !! "X-RateLimit-Reset"%string = (fun d => pretty (as_secs d)) <$> expires_in c /\
    exists rest, headers !! "X-RateLimit-Limit"%string = Some (pretty (max_value c) +:+ limit_text c +:+ rest)%string.
Proof.
  unfold response_header, response_headers_for. intros [= <- <-]. simpl.
  destruct (sort_by_remaining_spec (counters res)) as [Hp Hs].
  destruct (sort_by_remaining (counters res)) as [|c0 cs] eqn:Hsort.
  - apply Permutation_nil_l in Hp. rewrite <-Hp. split_and!; [done|done|done|done].
  - split_and!; [done|done| |].
    + split; [|intros Hnil; rewrite Hnil in Hp; by apply Permutation_nil_r in Hp].
      destruct (expires_in c0); intros Hm; by apply insert_non_empty in Hm.
    + intros c [= <-]. inversion Hs as [|? ? _ Hall]; subst. split_and!.
      * intros d Hd. rewrite <-Hp in Hd. apply elem_of_cons in Hd as [->|Hd]; [unfold rem_le; lia|].
        rewrite Forall_forall in Hall. by apply Hall.
      * destruct (expires_in c0); by simplify_map_eq.
      * destruct (expires_in c0); by simplify_map_eq.
      * exists (foldr (fun c acc => limit_text c +:+ acc)%string EmptyString cs).
        destruct (expires_in c0); by simplify_map_eq.
Qed.
End headers.
