(* ===== verification/Configure.v ===== *)
(** * Reloading the limits: [configure_with] of [lib.rs] *)

From S2P Require Import Prelude AtomicExpiringValue Cel Errors Limit Counter Reservation.
From S2P Require Import Storage Moka LocalReservations StorageSpec InMemory InMemoryInv.
From S2P Require Import RateLimiter RateLimiterSpec.

(** A counter storage whose [add_counter] and [delete_counters] always succeed, as those of
    the in-memory storage do.  Not every storage is one: the disk storage can panic when it
    deletes counters, and those in Redis can fail. *)
Class InfallibleLimits `{CE : CelEngine} (St : Type) {CS : CounterStorage St} : Prop := {
  add_counter_ok : forall l (w : World St), exists w', cs_add_counter l w = (Ok tt, w');
  delete_counters_ok : forall limits (w : World St), exists w', cs_delete_counters limits w = (Ok tt, w')
}.

Section abstract.
Context {CE : CelEngine} {HO : HashOrder}.
Implicit Types (m : gmap LimitKey Limit) (l : Limit) (k : LimitKey) (ls : list Limit).

(** The first limit of a list with identity [k]. *)
Definition first_with ls k : option Limit := List.find (fun l => bool_decide (limit_key l = k)) ls.

Definition add_all m ls : gmap LimitKey Limit := foldl (fun m l => (abs_step (OpAdd l) m).1) m ls.
Definition delete_all m ls : gmap LimitKey Limit := foldl (fun m l => (abs_step (OpDelete l) m).1) m ls.
Definition update_all m ls : gmap LimitKey Limit := foldl (fun m l => (abs_step (OpUpdate l) m).1) m ls.

Lemma add_all_lookup m ls k :
  add_all m ls !! k = match m !! k with Some l => Some l | None => first_with ls k end.
Proof.
  revert m. induction ls as [|l ls IH]; intros m; simpl; [by destruct (m !! k)|].
  unfold add_all in *. simpl. rewrite IH. unfold first_with. simpl.
  destruct (m !! limit_key l) as [old|] eqn:Hl; simpl.
  - case_bool_decide as Hk; [|done]. subst. by rewrite Hl.
  - case_bool_decide as Hk; [subst; by rewrite lookup_insert_eq, Hl|].
    by rewrite lookup_insert_ne.
Qed.

Lemma delete_all_lookup m ls k :
  delete_all m ls !! k = if decide (k ∈ limit_key <$> ls) then None else m !! k.
Proof.
  revert m. induction ls as [|l ls IH]; intros m; simpl; [done|].
  unfold delete_all in *. simpl. rewrite IH.
  destruct (decide (k ∈ limit_key <$> ls)) as [Hin|Hin].
  - by rewrite decide_True by (by right).
  - destruct (decide (limit_key l = k)) as [<-|Hne].
    + rewrite lookup_delete_eq. by rewrite decide_True by (by left).
    + rewrite lookup_delete_ne by done. rewrite decide_False; [done|].
      rewrite not_elem_of_cons. split; [done|done].
Qed.

Lemma update_all_lookup m ls k :
  NoDup (limit_key <$> ls) ->
  update_all m ls !! k =
    match first_with ls k with
    | Some l => (fun old => if needs_update old l then l else old) <$> m !! k
    | None => m !! k
    end.
Proof.
  revert m. induction ls as [|l ls IH]; intros m Hnd; [done|].
  simpl in Hnd. apply NoDup_cons in Hnd as [Hnot Hnd].
  unfold update_all in *. cbn [foldl]. rewrite IH by done. unfold first_with. simpl.
  case_bool_decide as Hk.
  - subst. assert (Hnone : first_with ls (limit_key l) = None).
    { apply find_none_forall, Forall_forall. intros l' Hl'. apply bool_decide_eq_false.
      intros Heq. apply Hnot. rewrite <-Heq. by apply list_elem_of_fmap_2. }
    unfold first_with in Hnone. rewrite Hnone.
    destruct (m !! limit_key l) as [old|] eqn:Hl; simpl; [|done].
    destruct (needs_update old l); simpl; [by rewrite lookup_insert_eq|done].
  - assert (Hsame : forall m', m' = m \/ m' = <[limit_key l := l]> m -> m' !! k = m !! k).
    { intros m' [->| ->]; [done|]. by rewrite lookup_insert_ne. }
    rewrite Hsame; [done|]. destruct (m !! limit_key l) as [old|]; [|by left].
    destruct (needs_update old l); [by right|by left].
Qed.

Lemma needs_update_self l : needs_update l l = false.
Proof. unfold needs_update. by rewrite Z.eqb_refl, bool_decide_eq_true_2. Qed.

(** ** The lists [configure_with] iterates over *)

(** A set of limits filed under their keys. *)
Definition keyed (s : LimitSet) : Prop := forall k l, s !! k = Some l -> limit_key l = k.

Lemma hash_iter_elem (s : LimitSet) l : keyed s -> l ∈ (hash_iter s).*2 <-> s !! limit_key l = Some l.
Proof.
  intros Hs. rewrite list_elem_of_fmap. split.
  - intros ([k l'] & -> & Hin). rewrite hash_iter_perm in Hin. apply elem_of_map_to_list in Hin as Hk.
    simpl. by rewrite (Hs k l').
  - intros Hl. exists (limit_key l, l). split; [done|]. rewrite hash_iter_perm. by apply elem_of_map_to_list.
Qed.

Lemma set_difference_elem (a b : LimitSet) l :
  keyed a -> l ∈ set_difference a b <-> a !! limit_key l = Some l /\ b !! limit_key l = None.
Proof.
  intros Ha. unfold set_difference. rewrite list_elem_of_filter, hash_iter_elem by done. tauto.
Qed.

Lemma set_difference_nodup (a b : LimitSet) : keyed a -> NoDup (limit_key <$> set_difference a b).
Proof.
  intros Ha. unfold set_difference. eapply sublist_NoDup; [by apply limit_keys_nodup|].
  apply fmap_sublist, sublist_filter.
Qed.

(** [union] lists every element of the larger set, then the others. *)
Lemma union_nodup (a b : LimitSet) :
  keyed a -> keyed b -> NoDup (limit_key <$> (hash_iter a).*2 ++ set_difference b a).
Proof.
  intros Ha Hb. rewrite fmap_app. apply NoDup_app. split_and!;
    [by apply limit_keys_nodup| |by apply set_difference_nodup].
  intros k (l & -> & Hl)%list_elem_of_fmap (l' & Hk & Hl')%list_elem_of_fmap.
  apply hash_iter_elem in Hl; [|done]. apply set_difference_elem in Hl' as [_ Hl']; [|done]. congruence.
Qed.

Lemma first_with_spec ls k l :
  NoDup (limit_key <$> ls) -> l ∈ ls -> limit_key l = k -> first_with ls k = Some l.
Proof.
  intros Hnd Hin <-. induction ls as [|l' ls IH]; [by apply not_elem_of_nil in Hin|].
  simpl in Hnd. apply NoDup_cons in Hnd as [Hnot Hnd]. unfold first_with. simpl.
  apply elem_of_cons in Hin as [->|Hin]; [by rewrite bool_decide_eq_true_2|].
  rewrite bool_decide_eq_false_2; [by apply IH|]. intros Heq. apply Hnot. rewrite Heq.
  by apply list_elem_of_fmap_2.
Qed.

Lemma first_with_none ls k : (forall l, l ∈ ls -> limit_key l <> k) -> first_with ls k = None.
Proof.
  intros Hls. apply find_none_forall, Forall_forall. intros l Hl.
  by apply bool_decide_eq_false, Hls.
Qed.

Lemma first_with_key ls k l : first_with ls k = Some l -> l ∈ ls /\ limit_key l = k.
Proof.
  intros [Hin Hk]%List.find_some. split; [by apply list_elem_of_In|by apply bool_decide_eq_true in Hk].
Qed.

Lemma first_with_union (a b : LimitSet) k :
  keyed a -> keyed b ->
  first_with ((hash_iter a).*2 ++ set_difference b a) k =
    match a !! k with Some l => Some l | None => b !! k end.
Proof.
  intros Ha Hb. pose proof (union_nodup a b Ha Hb) as Hnd.
  destruct (a !! k) as [l|] eqn:Hak.
  - pose proof (Ha _ _ Hak) as Hk. apply first_with_spec; [done| |done].
    apply elem_of_app. left. apply hash_iter_elem; [done|]. by rewrite Hk.
  - destruct (b !! k) as [l|] eqn:Hbk.
    + pose proof (Hb _ _ Hbk) as Hk. apply first_with_spec; [done| |done].
      apply elem_of_app. right. apply set_difference_elem; [done|]. by rewrite Hk.
    + apply first_with_none. intros l [Hl|Hl]%elem_of_app Hk.
      * apply hash_iter_elem in Hl; [|done]. congruence.
      * apply set_difference_elem in Hl as [Hl _]; [|done]. congruence.
Qed.

(** ** One namespace *)

(** What [configure_with] leaves under [k], from the limits [keep] given and the
    limits [cur] configured in its namespace: a limit that stays is replaced by its
    new version only if [keep] is at least as large as [cur]. *)
Definition new_limit (keep cur : LimitSet) k : option Limit :=
  match keep !! k with
  | None => None
  | Some l =>
      match cur !! k with
      | None => Some l
      | Some old => Some (if (size cur <=? size keep)%nat && needs_update old l then l else old)
      end
  end.

Definition in_namespace (ns : string) (s : LimitSet) : Prop :=
  forall k l, s !! k = Some l -> key_namespace k = ns.

Lemma configure_lookup m (keep cur : LimitSet) ns k :
  keyed keep -> keyed cur -> in_namespace ns keep -> in_namespace ns cur ->
  (forall k, key_namespace k = ns -> m !! k = cur !! k) ->
  update_all (add_all (delete_all m (set_difference cur keep)) (set_difference keep cur))
    (set_union keep cur) !! k =
  if decide (key_namespace k = ns) then new_limit keep cur k else m !! k.
Proof.
  intros Hk Hc Hnk Hnc Hm.
  assert (Hdel : k ∈ limit_key <$> set_difference cur keep <-> is_Some (cur !! k) /\ keep !! k = None).
  { rewrite list_elem_of_fmap. split.
    - intros (l & -> & [Hl1 Hl2]%set_difference_elem); [|done]. split; [by eexists|done].
    - intros [[l Hl] Hnone]. pose proof (Hc _ _ Hl) as Hlk. exists l. split; [done|].
      apply set_difference_elem; [done|]. by rewrite Hlk. }
  assert (Hadd : first_with (set_difference keep cur) k =
                 match cur !! k with Some _ => None | None => keep !! k end).
  { destruct (cur !! k) as [old|] eqn:Hcur.
    - apply first_with_none. intros l [_ Hl]%set_difference_elem Hlk; [|done]. congruence.
    - destruct (keep !! k) as [l|] eqn:Hkeep.
      + pose proof (Hk _ _ Hkeep) as Hlk. apply first_with_spec; [by apply set_difference_nodup| |done].
        apply set_difference_elem; [done|]. by rewrite Hlk.
      + apply first_with_none. intros l [Hl _]%set_difference_elem Hlk; [|done]. congruence. }
  assert (Hupd : NoDup (limit_key <$> set_union keep cur) /\
                 first_with (set_union keep cur) k =
                 if (size cur <=? size keep)%nat
                 then match keep !! k with Some l => Some l | None => cur !! k end
                 else match cur !! k with Some l => Some l | None => keep !! k end).
  { unfold set_union. destruct (size cur <=? size keep)%nat;
      (split; [by apply union_nodup|by apply first_with_union]). }
  destruct Hupd as [Hnd Hupd].
  rewrite update_all_lookup, Hupd, add_all_lookup, delete_all_lookup, Hadd by done.
  unfold new_limit. destruct (decide (key_namespace k = ns)) as [Hns|Hns].
  - rewrite Hm by done. destruct (keep !! k) as [l|] eqn:Hkeep, (cur !! k) as [old|] eqn:Hcur; simpl.
    + rewrite decide_False by (rewrite Hdel; intros [_ ?]; done).
      destruct (size cur <=? size keep)%nat; simpl; [done|]. by destruct (needs_update old old).
    + rewrite decide_False by (rewrite Hdel; intros [[? ?] _]; done).
      destruct (size cur <=? size keep)%nat; simpl; by rewrite needs_update_self.
    + rewrite decide_True by (rewrite Hdel; split; [by eexists|done]).
      by destruct (size cur <=? size keep)%nat.
    + rewrite decide_False by (rewrite Hdel; intros [[? ?] _]; done).
      by destruct (size cur <=? size keep)%nat.
  - assert (Hkn : keep !! k = None).
    { destruct (keep !! k) as [l|] eqn:Hl; [|done]. by destruct (Hns (Hnk _ _ Hl)). }
    assert (Hcn : cur !! k = None).
    { destruct (cur !! k) as [l|] eqn:Hl; [|done]. by destruct (Hns (Hnc _ _ Hl)). }
    rewrite Hkn, Hcn, decide_False by (rewrite Hdel, Hcn; intros [[? ?] _]; done).
    destruct (size cur <=? size keep)%nat; by destruct (m !! k).
Qed.
End abstract.

(** ** The calls *)

Section calls.
Context {CE : CelEngine} {HO : HashOrder} {St : Type} {CS : CounterStorage St} {IN : InfallibleLimits St}.
Implicit Types (m : gmap LimitKey Limit) (l : Limit) (k : LimitKey) (ls : list Limit).
Implicit Types (w : World (RateLimiter St)).

Definition rl_refines w m : Prop := refines (st_limits (rl_storage (w_state w))) m.

(** [op] returns, and takes the limits from [m] to [m']. *)
Definition takes {A} (op : M (RateLimiter St) LimitadorError A) m m' : Prop :=
  forall w, rl_refines w m -> exists a w', op w = (Ok a, w') /\ rl_refines w' m'.

Lemma takes_bind {A B} (op : M (RateLimiter St) LimitadorError A) (k : A -> M _ _ B) m1 m2 m3 :
  takes op m1 m2 -> (forall a, takes (k a) m2 m3) -> takes (bind op k) m1 m3.
Proof.
  intros H1 H2 w Hw. destruct (H1 w Hw) as (a & w1 & E1 & Hw1). destruct (H2 a w1 Hw1) as (b & w2 & E2 & Hw2).
  exists b, w2. split; [|done]. by rewrite (bind_ok _ _ _ _ _ E1).
Qed.

Lemma takes_ret {A} (a : A) m : takes (ret a) m m.
Proof. intros w Hw. by exists a, w. Qed.

Lemma takes_for_each {A} (f : A -> M (RateLimiter St) LimitadorError unit)
    (g : gmap LimitKey Limit -> A -> gmap LimitKey Limit) (xs : list A) m :
  (forall m x, takes (f x) m (g m x)) -> takes (for_each f xs) m (foldl g m xs).
Proof.
  intros Hf. revert m. induction xs as [|x xs IH]; intros m; [apply takes_ret|].
  simpl. eapply takes_bind; [apply Hf|]. intros _. apply IH.
Qed.

(** The storage-level world of a rate-limiter-level one. *)
Definition storage_world w : World (Storage St) := mkWorld (rl_storage (w_state w)) (w_clock w) (w_tick w).

Lemma on_storage_run {E A} (op : M (Storage St) E A) w :
  on_storage op w = ((op (storage_world w)).1,
    mkWorld (mkRateLimiter (w_state (op (storage_world w)).2) (reservation_limits (w_state w)))
      (w_clock (op (storage_world w)).2) (w_tick (op (storage_world w)).2)).
Proof. unfold on_storage, zoom, storage_world. by destruct (op _) as [o w']. Qed.

Lemma unwrap_add_ok {F} l (w : World (Storage St)) :
  exists w' : World (Storage St), unwrap (F := F) (on_counters (cs_add_counter l)) w = (Ok tt, w').
Proof.
  unfold unwrap, on_counters, zoom.
  destruct (add_counter_ok l (mkWorld (st_counters (w_state w)) (w_clock w) (w_tick w))) as [w0 ->].
  by eexists.
Qed.

Lemma add_limit_takes m l : takes (add_limit l) m (abs_step (OpAdd l) m).1.
Proof.
  intros w Hw. unfold add_limit. rewrite on_storage_run.
  pose proof (add_limit_refines (E := LimitadorError) l (storage_world w) m Hw) as Hr. unfold wp in Hr.
  rewrite add_limit_run in *. destruct (unwrap_add_ok (F := LimitadorError) l (storage_world w)) as [w1 Hw1].
  rewrite Hw1 in *. cbn zeta in *. destruct (set_insert limit_key l _) as [b s]. simpl in *.
  eexists _, _. split; [done|]. by destruct Hr.
Qed.

Lemma update_limit_takes m l : takes (on_storage (Storage.update_limit l)) m (abs_step (OpUpdate l) m).1.
Proof.
  intros w Hw. rewrite on_storage_run.
  pose proof (update_limit_refines (E := LimitadorError) l (storage_world w) m Hw) as Hr. unfold wp in Hr.
  destruct Hr as (r & Ho & Hr & _). rewrite Ho. by eexists _, _.
Qed.

Lemma delete_limit_takes m l : takes (delete_limit l) m (abs_step (OpDelete l) m).1.
Proof.
  intros w Hw. unfold delete_limit, from_storage_err, map_err. rewrite on_storage_run.
  pose proof (delete_limit_refines l (storage_world w) m Hw) as Hr. unfold wp in Hr.
  assert (Hok : (Storage.delete_limit l (storage_world w)).1 = Ok tt).
  { unfold Storage.delete_limit, get_storage_limits, put_storage_limits, bind, get, ret, put, on_counters, zoom.
    simpl. match goal with |- context [cs_delete_counters ?x ?y] => destruct (delete_counters_ok x y) as [w' ->] end.
    simpl. by destruct (_ !! _). }
  rewrite Hok in *. by eexists _, _.
Qed.

Lemma get_limits_run ns w :
  get_limits ns w = (Ok (default ∅ (st_limits (rl_storage (w_state w)) !! ns)), w).
Proof. unfold get_limits. rewrite on_storage_run. by destruct w as [[s r] c n]. Qed.

Lemma get_namespaces_run w : get_namespaces w = (Ok (dom (st_limits (rl_storage (w_state w)))), w).
Proof. unfold get_namespaces. rewrite on_storage_run. by destruct w as [[s r] c n]. Qed.

Lemma refines_namespace limits m ns k :
  refines limits m -> key_namespace k = ns -> m !! k = default ∅ (limits !! ns) !! k.
Proof.
  intros [_ Hm] <-. rewrite <-Hm. unfold find_limit. destruct (limits !! key_namespace k); simpl; [done|].
  by rewrite lookup_empty.
Qed.

Lemma storage_wf_keyed limits ns :
  storage_wf limits ->
  keyed (default ∅ (limits !! ns)) /\ in_namespace ns (default ∅ (limits !! ns)).
Proof.
  intros Hwf. destruct (limits !! ns) as [s|] eqn:Hs; simpl.
  - destruct (Hwf ns s Hs) as [_ Hs']. split; intros k l Hl; destruct (Hs' k l Hl) as [<- ?]; done.
  - split; intros k l; by rewrite lookup_empty.
Qed.

(** One iteration: the namespace [ns] ends up as [new_limit] says, the others untouched. *)
Lemma configure_namespace_run keep ns w m :
  storage_wf keep -> rl_refines w m ->
  exists w' m', configure_namespace keep ns w = (Ok tt, w') /\ rl_refines w' m' /\
    forall k, m' !! k = if decide (key_namespace k = ns)
                        then new_limit (default ∅ (keep !! ns)) (default ∅ (st_limits (rl_storage (w_state w)) !! ns)) k
                        else m !! k.
Proof.
  intros Hkeep Hw. set (cur := default ∅ (st_limits (rl_storage (w_state w)) !! ns)).
  set (kp := default ∅ (keep !! ns)).
  destruct (storage_wf_keyed keep ns Hkeep) as [Hk1 Hk2].
  destruct (storage_wf_keyed (st_limits (rl_storage (w_state w))) ns) as [Hc1 Hc2]; [by destruct Hw|].
  assert (Ht : takes (for_each delete_limit (set_difference cur kp) ;;;
      for_each (fun l => add_limit l ;;; ret tt) (set_difference kp cur) ;;;
      for_each (fun l => on_storage (Storage.update_limit l) ;;; ret tt) (set_union kp cur)) m
      (update_all (add_all (delete_all m (set_difference cur kp)) (set_difference kp cur)) (set_union kp cur))).
  { eapply takes_bind; [apply (takes_for_each _ (fun m l => (abs_step (OpDelete l) m).1)); intros; apply delete_limit_takes|].
    intros _. eapply takes_bind; [apply (takes_for_each _ (fun m l => (abs_step (OpAdd l) m).1))|intros _;
      apply (takes_for_each _ (fun m l => (abs_step (OpUpdate l) m).1))];
      intros m0 l; (eapply takes_bind; [|intros _; apply takes_ret]); [apply add_limit_takes|apply update_limit_takes]. }
  destruct (Ht w Hw) as (a & w' & Hrun & Hw'). destruct a. exists w'. eexists. split_and!; [|done|].
  - unfold configure_namespace. by rewrite (bind_ok _ _ _ _ _ (get_limits_run ns w)).
  - intros k. apply configure_lookup; [done..|]. intros k' Hk'. by eapply refines_namespace.
Qed.

(** The limits configured in one namespace. *)
Definition namespace_limits w ns : LimitSet := default ∅ (st_limits (rl_storage (w_state w)) !! ns).

Lemma namespace_limits_ext w w' m m' ns :
  rl_refines w m -> rl_refines w' m' -> (forall k, key_namespace k = ns -> m' !! k = m !! k) ->
  namespace_limits w' ns = namespace_limits w ns.
Proof.
  intros Hw Hw' Heq. unfold namespace_limits. apply map_eq. intros k.
  destruct (decide (key_namespace k = ns)) as [Hk|Hk].
  - rewrite <-(refines_namespace _ _ _ _ Hw Hk), <-(refines_namespace _ _ _ _ Hw' Hk). by apply Heq.
  - destruct (storage_wf_keyed (st_limits (rl_storage (w_state w))) ns) as [_ Hn]; [by destruct Hw|].
    destruct (storage_wf_keyed (st_limits (rl_storage (w_state w'))) ns) as [_ Hn']; [by destruct Hw'|].
    transitivity (@None Limit); [|symmetry].
    + destruct (default ∅ (st_limits (rl_storage (w_state w')) !! ns) !! k) as [l|] eqn:Hl; [|done]. by destruct (Hk (Hn' _ _ Hl)).
    + destruct (default ∅ (st_limits (rl_storage (w_state w)) !! ns) !! k) as [l|] eqn:Hl; [|done]. by destruct (Hk (Hn _ _ Hl)).
Qed.

Lemma configure_loop_run keep nss w m :
  storage_wf keep -> NoDup nss -> rl_refines w m ->
  exists w' m', for_each (configure_namespace keep) nss w = (Ok tt, w') /\ rl_refines w' m' /\
    forall k, m' !! k = if decide (key_namespace k ∈ nss)
                        then new_limit (default ∅ (keep !! key_namespace k)) (namespace_limits w (key_namespace k)) k
                        else m !! k.
Proof.
  intros Hkeep. revert w m. induction nss as [|ns nss IH]; intros w m Hnd Hw; [by exists w, m|].
  apply NoDup_cons in Hnd as [Hnot Hnd].
  destruct (configure_namespace_run keep ns w m Hkeep Hw) as (w1 & m1 & Hr1 & Hw1 & Hm1).
  destruct (IH w1 m1 Hnd Hw1) as (w2 & m2 & Hr2 & Hw2 & Hm2).
  exists w2, m2. split_and!; [simpl; by rewrite (bind_ok _ _ _ _ _ Hr1)|done|].
  intros k. rewrite Hm2, Hm1. destruct (decide (key_namespace k ∈ nss)) as [Hin|Hin].
  - rewrite decide_True by (by right). f_equal.
    apply (namespace_limits_ext _ _ m m1); [done|done|].
    intros k' Hk'. rewrite Hm1, decide_False; [done|]. intros Heq. congruence.
  - destruct (decide (key_namespace k = ns)) as [<-|Hne].
    + by rewrite decide_True by (by left).
    + rewrite decide_False; [done|]. by rewrite not_elem_of_cons.
Qed.

Lemma hash_iter_set_spec (X : gset string) : hash_iter_set X ≡ₚ elements X.
Proof.
  unfold hash_iter_set. rewrite hash_iter_perm. apply NoDup_Permutation.
  - apply NoDup_fst_map_to_list.
  - apply NoDup_elements.
  - intros x. rewrite elem_of_elements, list_elem_of_fmap. split.
    + intros ([y u] & -> & Hy%elem_of_map_to_list). by apply lookup_gset_to_gmap_Some in Hy as [? _].
    + intros Hx. exists (x, tt). split; [done|]. apply elem_of_map_to_list, lookup_gset_to_gmap_Some. done.
Qed.

Lemma namespaces_union_spec (a b : gset string) :
  NoDup (namespaces_union a b) /\ forall x, x ∈ namespaces_union a b <-> x ∈ a \/ x ∈ b.
Proof.
  assert (Hgen : forall a b : gset string,
            let l := hash_iter_set a ++ filter (fun x => x ∉ a) (hash_iter_set b) in
            NoDup l /\ forall x, x ∈ l <-> x ∈ a \/ x ∈ b).
  { intros x y l. unfold l. split.
    - apply NoDup_app. rewrite !hash_iter_set_spec. split_and!; [apply NoDup_elements| |].
      + intros z Hz [Hz' _]%list_elem_of_filter. rewrite hash_iter_set_spec in Hz. by apply elem_of_elements in Hz.
      + apply NoDup_filter. rewrite hash_iter_set_spec. apply NoDup_elements.
    - intros z. rewrite elem_of_app, list_elem_of_filter, !hash_iter_set_spec, !elem_of_elements.
      destruct (decide (z ∈ x)); tauto. }
  unfold namespaces_union. destruct (size b <=? size a)%nat; [apply Hgen|].
  destruct (Hgen b a) as [H1 H2]. split; [done|]. intros x. rewrite H2. tauto.
Qed.

Lemma classify_refines ls : refines (classify_limits_by_namespace ls) (add_all ∅ ls).
Proof.
  unfold classify_limits_by_namespace, add_all.
  assert (Hgen : forall res m, refines res m ->
    refines (foldl (fun res l =>
           match res !! namespace l with
           | Some s => <[namespace l := (set_insert limit_key l s).2]> res
           | None => <[namespace l := (set_insert limit_key l ∅).2]> res
           end) res ls) (foldl (fun m l => (abs_step (OpAdd l) m).1) m ls)).
  { induction ls as [|l ls IH]; intros res m Hr; [done|]. cbn [foldl]. apply IH. simpl.
    pose proof (refines_insert res m l Hr) as Hins.
    destruct (res !! namespace l) as [s|] eqn:Hs; simpl in Hins.
    - unfold set_insert. rewrite (refines_lookup _ _ _ _ Hr Hs). destruct (m !! limit_key l); simpl; [|done].
      by rewrite insert_id.
    - rewrite (refines_lookup_none _ _ _ Hr Hs). unfold set_insert. by rewrite lookup_empty. }
  apply Hgen, refines_empty.
Qed.

(** The limit with identity [k] once [limits] are configured over [m]. *)
Definition reconfigured limits w m k : option Limit :=
  match first_with limits k with
  | None => None
  | Some l =>
      match m !! k with
      | None => Some l
      | Some old =>
          let given := default ∅ (classify_limits_by_namespace limits !! key_namespace k) in
          Some (if (size (namespace_limits w (key_namespace k)) <=? size given)%nat && needs_update old l
                then l else old)
      end
  end.

Lemma configure_with_run limits w m :
  rl_refines w m ->
  exists w' m', configure_with limits w = (Ok tt, w') /\ rl_refines w' m' /\
    forall k, m' !! k = reconfigured limits w m k.
Proof.
  intros Hw. destruct (classify_refines limits) as [Hkwf Hk].
  set (keep := classify_limits_by_namespace limits) in *.
  destruct (namespaces_union_spec (dom (st_limits (rl_storage (w_state w)))) (dom keep)) as [Hnd Hin].
  destruct (configure_loop_run keep _ w m Hkwf Hnd Hw) as (w' & m' & Hr & Hw' & Hm').
  exists w', m'. split_and!; [|done|].
  - unfold configure_with. by rewrite (bind_ok _ _ _ _ _ (get_namespaces_run w)).
  - intros k. rewrite Hm'.
    assert (Hkeep : first_with limits k = default ∅ (keep !! key_namespace k) !! k).
    { specialize (Hk k). rewrite add_all_lookup, lookup_empty in Hk. rewrite <-Hk. unfold find_limit.
      destruct (keep !! key_namespace k); simpl; [done|]. by rewrite lookup_empty. }
    assert (Hcur : m !! k = namespace_limits w (key_namespace k) !! k) by (by eapply refines_namespace).
    unfold reconfigured. rewrite Hkeep, Hcur. unfold new_limit.
    destruct (decide _) as [_|Hno]; [done|]. rewrite Hin in Hno.
    assert (Hn1 : keep !! key_namespace k = None) by (apply not_elem_of_dom; tauto).
    assert (Hn2 : st_limits (rl_storage (w_state w)) !! key_namespace k = None) by (apply not_elem_of_dom; tauto).
    rewrite Hn1. simpl. rewrite lookup_empty. unfold namespace_limits. by rewrite Hn2.
Qed.

(** The limits of one namespace. *)
Definition of_namespace ns m : gmap LimitKey Limit := filter (fun kv => key_namespace kv.1 = ns) m.

(** The limits configured once [limits] are configured over [m]: a limit that is there
    already is replaced if its [max_value] or [name] differ, unless its namespace shrinks. *)
Definition reloaded m limits : gmap LimitKey Limit :=
  let asked := add_all ∅ limits in
  map_imap (fun k l =>
    Some match m !! k with
         | None => l
         | Some old =>
             let ns := key_namespace k in
             if (size (of_namespace ns m) <=? size (of_namespace ns asked))%nat && needs_update old l then l else old
         end) asked.

Lemma configure_with_reloaded limits w m :
  rl_refines w m ->
  exists w', configure_with limits w = (Ok tt, w') /\ rl_refines w' (reloaded m limits).
Proof.
  intros Hw. destruct (configure_with_run limits w m Hw) as (w' & m' & Hr & Hw' & Hm'). exists w'. split; [done|].
  enough (m' = reloaded m limits) as <- by done. apply map_eq. intros k. rewrite Hm'.
  unfold reloaded. rewrite map_lookup_imap, add_all_lookup, lookup_empty. unfold reconfigured, of_namespace.
  destruct (first_with limits k) as [l|]; [|done]. cbn [mbind option_bind].
  destruct (m !! k) as [old|]; [|done].
  by rewrite <-(refines_listed _ _ (key_namespace k) Hw), <-(refines_listed _ _ (key_namespace k) (classify_refines limits)).
Qed.

Lemma reloaded_some m limits k : is_Some (reloaded m limits !! k) <-> is_Some (first_with limits k).
Proof.
  unfold reloaded. rewrite map_lookup_imap, add_all_lookup, lookup_empty.
  destruct (first_with limits k); simpl; [|done]. split; by eexists.
Qed.

(** C16: over a counter storage whose [add_counter] and [delete_counters] succeed
    ([InfallibleLimits], as those of the in-memory storage do), [configure_with]
    returns, and afterwards exactly the listed limits are configured, every other
    limit being gone.  A new limit is configured as given (the first one listed, for
    duplicates).  A limit that was already there is replaced by the one given only when
    their [max_value] or [name] differ (a change of the [id] alone is not taken over),
    and only when its namespace does not shrink: when the given set for the namespace
    is smaller than the configured one, the old version stays. *)
Theorem configure_with_exact limits w m :
  rl_refines w m ->
  exists w' m', configure_with limits w = (Ok tt, w') /\ rl_refines w' m' /\
    forall k, m' !! k =
      match first_with limits k with
      | None => None
      | Some l =>
          match m !! k with
          | None => Some l
          | Some old =>
              let given := default ∅ (classify_limits_by_namespace limits !! key_namespace k) in
              Some (if (size (namespace_limits w (key_namespace k)) <=? size given)%nat && needs_update old l
                    then l else old)
          end
      end.
Proof. apply configure_with_run. Qed.

End calls.

(** ** The in-memory storage *)

Section in_memory.
Context {CE : CelEngine} {HO : HashOrder} {MC : MokaCache}.

#[global] Instance in_memory_infallible : InfallibleLimits InMemoryStorage.
Proof.
  split.
  - intros l w. simpl. unfold add_counter. case_bool_decide; [|by eexists].
    unfold simple_put, bind, get, put, ret. simpl. destruct (simple_limits (w_state w) !! limit_key l); by eexists.
  - intros limits w. simpl. unfold delete_counters. revert w.
    induction (hash_iter limits).*2 as [|l ls IH]; intros w; [by eexists|]. simpl.
    unfold delete_counters_of_limit at 1. unfold bind, get, put. case_bool_decide; apply IH.
Qed.
End in_memory.
