(* ===== verification/RateLimiterExamples.v ===== *)
(** * A rate limiter over the in-memory storage, run on one request

    The theorems of [Storage.v], [RateLimiterSpec.v] and [Configure.v] at a
    concrete limiter: one limit of 10 per minute and user, one request of bob. *)

From S2P Require Import Prelude AtomicExpiringValue Cel Errors Limit Counter Reservation.
From S2P Require Import Storage Moka LocalReservations StorageSpec InMemory InMemoryInv.
From S2P Require Import InMemorySpec RateLimiter RateLimiterSpec Configure.

#[local] Existing Instance demo_engine.
#[local] Existing Instance demo_hash_order.
#[local] Existing Instance gmap_moka.
#[local] Existing Instance gmap_moka_laws.
#[local] Existing Instance gmap_moka_roomy.

Definition demo_limits : gmap string LimitSet := {["ns"%string := {[limit_key demo_limit := demo_limit]}]}.

Definition demo_limiter : RateLimiter InMemoryStorage :=
  mkRateLimiter (mkStorage demo_limits (in_memory_new 10)) reservation_limits_default.

Lemma demo_limits_refine : refines demo_limits {[limit_key demo_limit := demo_limit]}.
Proof.
  pose proof (refines_insert ∅ ∅ demo_limit refines_empty) as Hr.
  rewrite lookup_empty in Hr. exact Hr.
Qed.

Lemma demo_request : request_ok demo_limiter demo_time "ns" demo_ctx [demo_counter].
Proof.
  split_and!.
  - split; [apply demo_storage_wf|]. apply demo_limits_refine.
  - vm_compute. intuition discriminate.
  - vm_refl.
  - pose proof demo_counters_ok as Hok. by apply Forall_cons in Hok as [Hc _]; constructor.
Qed.

Lemma storage_refines_map_witness :
  exists w', mapM run_op [OpGetNamespaces; OpDelete demo_limit; OpGetLimits "ns"]
               (mkWorld (rl_storage demo_limiter) (fun _ => demo_time) 0) =
             (Ok [RNamespaces {["ns"]}; RUnit; RLimits ∅], w') /\ refines (st_limits (w_state w')) ∅.
Proof.
  pose proof (storage_refines_map [OpGetNamespaces; OpDelete demo_limit; OpGetLimits "ns"]
                (mkWorld (rl_storage demo_limiter) (fun _ => demo_time) 0)
                {[limit_key demo_limit := demo_limit]} demo_limits_refine) as Hr.
  assert (Hok : match (mapM run_op [OpGetNamespaces; OpDelete demo_limit; OpGetLimits "ns"]
                         (mkWorld (rl_storage demo_limiter) (fun _ => demo_time) 0)).1 with Ok _ => true | _ => false end
                = true) by vm_refl.
  destruct (mapM _ _ _) as [[rs|e|m] w']; [|discriminate Hok|discriminate Hok].
  destruct Hr as [Hr ->]. exists w'. cbn [abs_run abs_step fst snd] in Hr |- *. rewrite delete_singleton_eq in Hr |- *. split; [|exact Hr].
  rewrite dom_singleton_L, set_map_singleton_L, map_filter_empty. reflexivity.
Defined.

Lemma check_and_update_agree_witness :
  exists res r', runs demo_time demo_limiter (check_rate_limited_and_update "ns" demo_ctx 4) (Ok res) r' /\
    limited res = false /\ rl_value r' demo_time (counter_key demo_counter) = 4.
Proof.
  destruct (check_and_update_agree demo_limiter demo_time "ns" demo_ctx 4 [demo_counter])
    as (res1 & res2 & r' & _ & Hr & _ & Hl & Hv & _).
  - apply demo_request.
  - vm_compute. intuition discriminate.
  - assert (Hf : limited res2 = false).
    { destruct (limited res2); [|done]. destruct (proj1 Hl eq_refl) as (c & Hc & Ho).
      apply list_elem_of_singleton in Hc as ->. vm_compute in Ho. discriminate Ho. }
    exists res2, r'. split_and!; [done|done|]. rewrite Hv, Hf.
    rewrite bool_decide_eq_true_2 by (by left). vm_refl.
Defined.

Lemma demo_room amount : 0 <= amount <= 1000 ->
  forall c, c ∈ [demo_counter] -> rl_value demo_limiter demo_time (counter_key c)
    + sum_live (rl_holds demo_limiter (counter_key c)) demo_time + amount <= u64_max.
Proof.
  intros Ha c ->%list_elem_of_singleton.
  assert (rl_value demo_limiter demo_time (counter_key demo_counter) = 0) as -> by vm_refl.
  assert (sum_live (rl_holds demo_limiter (counter_key demo_counter)) demo_time = 0) as -> by vm_refl.
  unfold u64_max. lia.
Qed.

Lemma reserve_admission_exact_witness :
  exists res r', runs demo_time demo_limiter (reserve "r1" "ns" demo_ctx 7 None) (Ok res) r' /\
    0 <= rr_amount res <= 7.
Proof.
  destruct (reserve_admission_exact demo_limiter demo_time "r1" "ns" demo_ctx 7 None [demo_counter])
    as (res & r' & Hr & _ & Hb & _).
  - apply demo_request.
  - done.
  - done.
  - vm_compute. reflexivity.
  - vm_compute. discriminate.
  - apply demo_room. lia.
  - by exists res, r'.
Defined.


Lemma response_header_most_restrictive_witness :
  exists (headers : gmap string string) res', headers !! "X-RateLimit-Remaining"%string = Some "3"%string /\
    counters res' ≡ₚ [set_remaining demo_counter 8; set_remaining demo_counter2 3].
Proof.
  set (res := mkCheckResult false [set_remaining demo_counter 8; set_remaining demo_counter2 3] None).
  destruct (response_header_most_restrictive res (response_header res).2 (response_header res).1)
    as (Hp & _ & _ & Hh).
  - by destruct (response_header res).
  - exists (response_header res).1, (response_header res).2. split; [|exact Hp].
    destruct (Hh (set_remaining demo_counter2 3)) as (_ & -> & _); vm_refl.
Defined.

(** The lost update: a second limit is dropped and the first one is raised to 20
    in the same reload, which leaves the first at 10. *)
Definition demo_limit_b : Limit := limit_new "ns" 5 60 [] [demo_expr "user"].

Definition demo_two_limits : gmap string LimitSet :=
  {["ns"%string := {[limit_key demo_limit := demo_limit; limit_key demo_limit_b := demo_limit_b]}]}.

Lemma demo_two_refine :
  refines demo_two_limits {[limit_key demo_limit := demo_limit; limit_key demo_limit_b := demo_limit_b]}.
Proof.
  pose proof (refines_insert _ _ demo_limit (refines_insert ∅ ∅ demo_limit_b refines_empty)) as Hr.
  rewrite lookup_empty in Hr. simpl in Hr.
  assert (Heq : demo_two_limits =
    <[namespace demo_limit := <[limit_key demo_limit := demo_limit]>
        (default ∅ ((<[namespace demo_limit_b := <[limit_key demo_limit_b := demo_limit_b]> ∅]> ∅
           : gmap string LimitSet) !! namespace demo_limit))]>
      (<[namespace demo_limit_b := <[limit_key demo_limit_b := demo_limit_b]> ∅]> ∅)) by vm_refl.
  rewrite Heq. exact Hr.
Qed.

Lemma configure_with_exact_witness :
  exists w' m', configure_with [set_max_value demo_limit 20]
      (mkWorld (mkRateLimiter (mkStorage demo_two_limits (in_memory_new 10)) reservation_limits_default)
         (fun _ => demo_time) 0) = (Ok tt, w') /\
    rl_refines w' m' /\ m' !! limit_key demo_limit = Some demo_limit /\ m' !! limit_key demo_limit_b = None.
Proof.
  destruct (configure_with_exact [set_max_value demo_limit 20]
      (mkWorld (mkRateLimiter (mkStorage demo_two_limits (in_memory_new 10)) reservation_limits_default)
         (fun _ => demo_time) 0) _ demo_two_refine) as (w' & m' & Hr & Hw & Hm).
  exists w', m'. split_and!; [exact Hr|exact Hw|rewrite Hm; vm_refl|rewrite Hm; vm_refl].
Defined.
