(* ===== verification/AsyncStorage.v ===== *)
(** * The asynchronous storage: [AsyncStorage] and [AsyncCounterStorage] of [storage/mod.rs]

    An [await] lets other tasks run but does not change what the task itself
    does next: each method is the sequence of its calls.  [AsyncStorage] has the
    fields of [Storage]; its counter storage has no [add_counter]. *)

From S2P Require Import Prelude Cel Errors Limit Counter Reservation.
From S2P Require Import Storage.

Section async_storage.
Context {CE : CelEngine} {HO : HashOrder}.

Class AsyncCounterStorage (St : Type) : Type := {
  acs_is_within_limits : Counter -> Z -> M St StorageErr bool;
  acs_update_counter : Counter -> Z -> M St StorageErr unit;
  acs_check : list Counter -> Z -> M St StorageErr (list Counter * Authorization);
  acs_check_and_update : list Counter -> Z -> M St StorageErr (list Counter * Authorization);
  acs_get_counters : LimitSet -> M St StorageErr CounterSet;
  acs_delete_counters : LimitSet -> M St StorageErr unit;
  acs_clear : M St StorageErr unit;
  acs_reserve : list Counter -> ReservationId -> Z -> Z -> Duration ->
                M St StorageErr (list Counter * Authorization);
  acs_release_reservation : list Counter -> ReservationId -> M St StorageErr bool
}.

(** A storage used from synchronous code: counters need not be announced. *)
Definition as_sync {St} (AS : AsyncCounterStorage St) : CounterStorage St := {|
  cs_is_within_limits := acs_is_within_limits;
  cs_add_counter _ := ret tt;
  cs_update_counter := acs_update_counter;
  cs_check := acs_check;
  cs_check_and_update := acs_check_and_update;
  cs_get_counters := acs_get_counters;
  cs_delete_counters := acs_delete_counters;
  cs_clear := acs_clear;
  cs_reserve := acs_reserve;
  cs_release_reservation := acs_release_reservation
|}.

Context {St : Type} {AS : AsyncCounterStorage St}.

Definition async_with_counter_storage (counters : St) : Storage St := mkStorage ∅ counters.

Definition async_get_namespaces {E} : M (Storage St) E (gset string) :=
  let* limits := get_storage_limits in ret (dom limits).

Definition async_add_limit {E} (limit : Limit) : M (Storage St) E bool :=
  let ns := namespace limit in
  let* limits := get_storage_limits in
  match limits !! ns with
  | Some s =>
      let '(inserted, s) := set_insert limit_key limit s in
      put_storage_limits (<[ns := s]> limits) ;;; ret inserted
  | None =>
      let '(_, s) := set_insert limit_key limit ∅ in
      put_storage_limits (<[ns := s]> limits) ;;; ret true
  end.

Definition async_update_limit {E} (upd : Limit) : M (Storage St) E bool :=
  let* namespaces := get_storage_limits in
  match namespaces !! namespace upd with
  | Some limits =>
      let req_update := match limits !! limit_key upd with
                        | Some limit => needs_update limit upd
                        | None => false
                        end in
      if req_update then
        let limits := delete (limit_key upd) limits in
        let '(_, limits) := set_insert limit_key upd limits in
        put_storage_limits (<[namespace upd := limits]> namespaces) ;;;
        ret true
      else ret false
  | None => ret false
  end.

Definition async_get_limits {E} (ns : string) : M (Storage St) E LimitSet :=
  let* limits := get_storage_limits in ret (default ∅ (limits !! ns)).

Definition async_delete_limit (limit : Limit) : M (Storage St) StorageErr unit :=
  let* limits := get_storage_limits in
  let arc := stored_limit limits limit in
  on_counters (acs_delete_counters {[limit_key arc := arc]}) ;;;
  let* limits := get_storage_limits in
  match limits !! namespace limit with
  | Some for_ns =>
      let for_ns := delete (limit_key limit) for_ns in
      put_storage_limits (if bool_decide (for_ns = ∅) then delete (namespace limit) limits
                          else <[namespace limit := for_ns]> limits)
  | None => ret tt
  end.

Definition async_delete_limits (ns : string) : M (Storage St) StorageErr unit :=
  let* limits := get_storage_limits in
  let option := limits !! ns in
  put_storage_limits (delete ns limits) ;;;
  match option with
  | Some data => on_counters (acs_delete_counters data)
  | None => ret tt
  end.

Definition async_is_within_limits (c : Counter) (delta : Z) : M (Storage St) StorageErr bool :=
  on_counters (acs_is_within_limits c delta).

Definition async_update_counter (c : Counter) (delta : Z) : M (Storage St) StorageErr unit :=
  on_counters (acs_update_counter c delta).

Definition async_check (cs : list Counter) (delta : Z)
    : M (Storage St) StorageErr (list Counter * Authorization) :=
  on_counters (acs_check cs delta).

Definition async_check_and_update (cs : list Counter) (delta : Z)
    : M (Storage St) StorageErr (list Counter * Authorization) :=
  on_counters (acs_check_and_update cs delta).

(** Asks the counter storage even when the namespace has no limits. *)
Definition async_get_counters (ns : string) : M (Storage St) StorageErr CounterSet :=
  let* limits := async_get_limits ns in
  on_counters (acs_get_counters limits).

Definition async_reserve (cs : list Counter) (id : ReservationId) (check_amount hold_amount : Z)
    (ttl : Duration) : M (Storage St) StorageErr (list Counter * Authorization) :=
  on_counters (acs_reserve cs id check_amount hold_amount ttl).

Definition async_release_reservation (cs : list Counter) (id : ReservationId)
    : M (Storage St) StorageErr bool :=
  on_counters (acs_release_reservation cs id).

Definition async_clear : M (Storage St) StorageErr unit :=
  put_storage_limits ∅ ;;;
  on_counters acs_clear.

(** ** The two storages agree *)

#[local] Existing Instance as_sync.
Implicit Types w : World (Storage St).

Lemma async_add_limit_sync {E} l w : async_add_limit (E := E) l w = Storage.add_limit l w.
Proof.
  unfold async_add_limit, Storage.add_limit, get_storage_limits, put_storage_limits, on_counters, zoom, unwrap,
    bind, get, put, ret. destruct w as [[limits c] cl n]. simpl.
  destruct (limits !! namespace l) as [s|]; simpl; [by destruct (set_insert limit_key l _)|].
  unfold set_insert. by rewrite lookup_empty.
Qed.

Lemma async_delete_limits_sync ns w : async_delete_limits ns w = Storage.delete_limits ns w.
Proof.
  unfold async_delete_limits, Storage.delete_limits, get_storage_limits, put_storage_limits, bind, get, put, ret.
  destruct w as [[limits c] cl n]. simpl. destruct (limits !! ns) as [s|] eqn:Hs; simpl; [done|].
  by rewrite delete_id.
Qed.

(** For a namespace that has limits. *)
Lemma async_get_counters_sync ns w :
  is_Some (st_limits (w_state w) !! ns) -> async_get_counters ns w = Storage.get_counters ns w.
Proof.
  intros [s Hs]. unfold async_get_counters, Storage.get_counters, async_get_limits, get_storage_limits, bind, get, ret.
  simpl. by rewrite Hs.
Qed.
End async_storage.
