(* ===== verification/AsyncRateLimiter.v ===== *)
(** * The asynchronous rate limiter: [AsyncRateLimiter] of [lib.rs] *)

From S2P Require Import Prelude Cel Errors Limit Counter Reservation Storage RateLimiter.
From S2P Require Import AsyncStorage.

Section async_rate_limiter.
Context {CE : CelEngine} {HO : HashOrder} {St : Type} {AS : AsyncCounterStorage St}.
Abbreviation ARL A := (M (RateLimiter St) LimitadorError A).

(** [struct AsyncRateLimiter] has the two fields of [RateLimiter]. *)
Definition async_new_with_storage (cs : St) : RateLimiter St :=
  mkRateLimiter (async_with_counter_storage cs) reservation_limits_default.

(** [AsyncRateLimiterBuilder] *)
Definition async_builder_new (s : Storage St) : RateLimiter St :=
  mkRateLimiter s reservation_limits_default.

Definition async_builder_reservation_limits (b : RateLimiter St) (rl : ReservationLimits) : RateLimiter St :=
  mkRateLimiter (rl_storage b) rl.

Definition async_build (b : RateLimiter St) : RateLimiter St :=
  mkRateLimiter (rl_storage b) (reservation_limits b).

Definition get_namespaces : ARL (gset string) := on_storage async_get_namespaces.

Definition add_limit (l : Limit) : ARL bool := on_storage (async_add_limit l).

Definition delete_limit (l : Limit) : ARL unit :=
  from_storage_err (on_storage (async_delete_limit l)).

Definition get_limits (ns : string) : ARL LimitSet := on_storage (async_get_limits ns).

Definition delete_limits (ns : string) : ARL unit :=
  from_storage_err (on_storage (async_delete_limits ns)).

Definition counters_that_apply (ns : string) (ctx : Context) : ARL (list Counter) :=
  let* limits := get_limits ns in
  lift (resolve_counters (hash_iter limits).*2 ctx).

Definition is_rate_limited (ns : string) (ctx : Context) (delta : Z) : ARL CheckResult :=
  let* cs := counters_that_apply ns ctx in
  match cs with
  | [] => ret (mkCheckResult false [] None)
  | _ =>
      let* '(cs, auth) := from_storage_err (on_storage (async_check cs delta)) in
      ret (check_result cs auth)
  end.

(** [for counter in counters { storage.update_counter(&counter, delta).await? }] *)
Definition update_each (cs : list Counter) (delta : Z) : ARL unit :=
  for_each (fun c => from_storage_err (on_storage (async_update_counter c delta))) cs.

Definition update_counters (ns : string) (ctx : Context) (delta : Z) : ARL unit :=
  let* cs := counters_that_apply ns ctx in
  update_each cs delta.

Definition check_rate_limited_and_update (ns : string) (ctx : Context) (delta : Z) : ARL CheckResult :=
  let* cs := counters_that_apply ns ctx in
  match cs with
  | [] => ret (mkCheckResult false [] None)
  | _ =>
      let* '(cs, auth) := from_storage_err (on_storage (async_check_and_update cs delta)) in
      let cs := match auth with AuthOk => subtract_delta delta <$> cs | AuthLimited _ => cs end in
      ret (check_result cs auth)
  end.

Definition get_counters (ns : string) : ARL CounterSet :=
  from_storage_err (on_storage (async_get_counters ns)).

Definition reserve (uuid : ReservationId) (ns : string) (ctx : Context) (amount : Z)
    (ttl : option Duration) : ARL ReserveResult :=
  let* cs := counters_that_apply ns ctx in
  match cs with
  | [] => ret (mkReserveResult false None 0 [] None)
  | _ =>
      let* r := get in
      let hold := hold_amount (max_fraction (reservation_limits r)) cs amount in
      let ttl := clamp_ttl (max_ttl (reservation_limits r)) ttl in
      let* '(cs, auth) := from_storage_err (on_storage (async_reserve cs uuid amount hold ttl)) in
      ret match auth with
          | AuthOk => mkReserveResult false (if 0 <? hold then Some uuid else None) hold cs None
          | AuthLimited name => mkReserveResult true None 0 cs name
          end
  end.

Definition commit_reservation (ns : string) (ctx : Context) (id : option ReservationId)
    (actual_amount : Z) : ARL CommitResult :=
  let* cs := counters_that_apply ns ctx in
  update_each cs actual_amount ;;;
  let* released :=
    match id, cs with
    | Some id, _ :: _ => from_storage_err (on_storage (async_release_reservation cs id))
    | _, _ => ret false
    end in
  ret (mkCommitResult released).

Definition configure_namespace (keep : gmap string LimitSet) (ns : string) : ARL unit :=
  let* current := get_limits ns in
  let keep := default ∅ (keep !! ns) in
  for_each delete_limit (set_difference current keep) ;;;
  for_each (fun l => add_limit l ;;; ret tt) (set_difference keep current) ;;;
  for_each (fun l => on_storage (async_update_limit l) ;;; ret tt) (set_union keep current).

Definition configure_with (limits : list Limit) : ARL unit :=
  let keep := classify_limits_by_namespace limits in
  let* namespaces := get_namespaces in
  for_each (configure_namespace keep) (namespaces_union namespaces (dom keep)).

(** ** Equivalence with the synchronous limiter *)

#[local] Instance sync : CounterStorage St := as_sync AS.
Implicit Types w : World (RateLimiter St).

Lemma bind_ext {E A B} (m m' : M (RateLimiter St) E A) (k k' : A -> M (RateLimiter St) E B) w :
  m w = m' w -> (forall a w', k a w' = k' a w') -> bind m k w = bind m' k' w.
Proof. intros Hm Hk. unfold bind. rewrite Hm. destruct (m' w) as [[] w']; [apply Hk|done..]. Qed.

Lemma for_each_ext {E A} (f g : A -> M (RateLimiter St) E unit) l w :
  (forall x w, f x w = g x w) -> for_each f l w = for_each g l w.
Proof.
  intros Hfg. revert w. induction l as [|x l IH]; intros w; [done|]. simpl. by apply bind_ext.
Qed.

Lemma on_storage_ext {E A} (m m' : M (Storage St) E A) w :
  (forall ws : World (Storage St), m ws = m' ws) -> on_storage m w = on_storage m' w.
Proof. intros Hm. unfold on_storage, zoom. by rewrite Hm. Qed.

Lemma add_limit_sync l w : add_limit l w = RateLimiter.add_limit l w.
Proof. apply on_storage_ext. intros w'. apply async_add_limit_sync. Qed.

Lemma configure_with_sync limits w : configure_with limits w = RateLimiter.configure_with limits w.
Proof.
  apply bind_ext; [done|]. intros nss w1. apply for_each_ext. intros ns w2. apply bind_ext; [done|].
  intros cur w3. apply bind_ext; [done|]. intros _ w4. apply bind_ext; [|done].
  apply for_each_ext. intros l w5. apply bind_ext; [apply add_limit_sync|done].
Qed.

(** The operations of the asynchronous limiter that check, count, reserve, commit, add,
    delete and configure are those of the synchronous one over the storage seen as a
    synchronous one, in which [add_counter], which an asynchronous storage lacks, does
    nothing.  [get_counters] agrees only on namespaces with limits: for others the
    asynchronous one still asks the storage. *)
Theorem async_limiter_agrees w :
  (forall ns ctx d, is_rate_limited ns ctx d w = RateLimiter.is_rate_limited ns ctx d w) /\
  (forall ns ctx d, update_counters ns ctx d w = RateLimiter.update_counters ns ctx d w) /\
  (forall ns ctx d, check_rate_limited_and_update ns ctx d w
                    = RateLimiter.check_rate_limited_and_update ns ctx d w) /\
  (forall id ns ctx a ttl, reserve id ns ctx a ttl w = RateLimiter.reserve id ns ctx a ttl w) /\
  (forall ns ctx id a, commit_reservation ns ctx id a w = RateLimiter.commit_reservation ns ctx id a w) /\
  (forall l, add_limit l w = RateLimiter.add_limit l w) /\
  (forall l, delete_limit l w = RateLimiter.delete_limit l w) /\
  (forall ns, delete_limits ns w = RateLimiter.delete_limits ns w) /\
  (forall limits, configure_with limits w = RateLimiter.configure_with limits w) /\
  (forall ns, is_Some (st_limits (rl_storage (w_state w)) !! ns) ->
              get_counters ns w = RateLimiter.get_counters ns w).
Proof.
  split_and!; try done.
  - intros l. apply add_limit_sync.
  - intros ns. unfold delete_limits, RateLimiter.delete_limits, from_storage_err, map_err.
    by rewrite (on_storage_ext _ _ w (async_delete_limits_sync ns)).
  - intros limits. apply configure_with_sync.
  - intros ns Hns. unfold get_counters, RateLimiter.get_counters, from_storage_err, map_err, on_storage, zoom.
    by rewrite async_get_counters_sync.
Qed.
End async_rate_limiter.
