(* ===== verification/Concurrency.v ===== *)
(** * Concurrent [check_and_update] calls on one cell

    [check_and_update] of [storage/in_memory.rs] holds only the read lock of the
    map, so several threads interleave their accesses to the two atomics of a
    cell.  A thread is the sequence of those accesses, one per step; a schedule
    says which thread goes next.  Every step is one [SeqCst] access of
    [storage/atomic_expiring_value.rs], so all interleavings are schedules. *)

From S2P Require Import Prelude AtomicExpiringValue Cel Errors Limit Counter StorageSpec.

(** Where a thread is in [check_and_update] of one counter. *)
Inductive Pc : Type :=
| PcRead                     (* [value()]: about to load the expiry *)
| PcLoad                     (* not expired: about to load the value *)
| PcDecide (v : Z)           (* about to compare [v + delta] with the limit *)
| PcUpdate                   (* admitted; [update_if_expired]: about to load the expiry *)
| PcCas (loaded : Z)         (* expired: about to exchange it *)
| PcStore                    (* opened the window: about to store [delta] *)
| PcAdd                      (* about to [fetch_add] [delta] *)
| PcDone (admitted : bool).

Record Thread : Type := mkThread {
  th_delta : Z;
  th_max : Z;
  th_window : Duration;
  th_now : SystemTime;       (* read once, at the start of [check_and_update] *)
  th_read : SystemTime;      (* the clock reading of [value()] *)
  th_pc : Pc
}.

Definition set_pc (th : Thread) (pc : Pc) : Thread :=
  mkThread (th_delta th) (th_max th) (th_window th) (th_now th) (th_read th) pc.

(** The test of [annotate]. *)
Definition th_over (th : Thread) (v : Z) : bool :=
  match u64_checked_sub (th_max th) (u64_saturating_add v (th_delta th)) with
  | None => true
  | Some _ => false
  end.

(** One atomic access (or the local comparison) of one thread. *)
Definition step_thread (c : AtomicExpiringValue) (th : Thread) : AtomicExpiringValue * Thread :=
  let e := expiry (aev_expiry c) in
  match th_pc th with
  | PcRead =>
      if e <=? as_micros (th_read th) then (c, set_pc th (PcDecide 0)) else (c, set_pc th PcLoad)
  | PcLoad => (c, set_pc th (PcDecide (aev_value c)))
  | PcDecide v => (c, set_pc th (if th_over th v then PcDone false else PcUpdate))
  | PcUpdate =>
      if e <=? as_micros (th_now th) then (c, set_pc th (PcCas e)) else (c, set_pc th PcAdd)
  | PcCas loaded =>
      let '(ok, cell) :=
        compare_exchange e loaded (u64_add (as_micros (th_now th)) (as_micros (th_window th))) in
      (mkAev (aev_value c) (mkExpiry cell), set_pc th (if (ok : bool) then PcStore else PcAdd))
  | PcStore => (mkAev (th_delta th) (aev_expiry c), set_pc th (PcDone true))
  | PcAdd => (mkAev (u64_add (aev_value c) (th_delta th)) (aev_expiry c), set_pc th (PcDone true))
  | PcDone _ => (c, th)
  end.

Definition step_at (i : nat) (s : AtomicExpiringValue * list Thread) : AtomicExpiringValue * list Thread :=
  match s.2 !! i with
  | Some th => let '(c, th) := step_thread s.1 th in (c, <[i := th]> s.2)
  | None => s
  end.

(** Runs a schedule: the number of the thread that goes next, in order. *)
Definition run_schedule (sched : list nat) (s : AtomicExpiringValue * list Thread)
    : AtomicExpiringValue * list Thread :=
  foldl (fun s i => step_at i s) s sched.

#[local] Arguments Z.leb : simpl never.

(** ** A thread running alone does what the sequential operations do *)

Section solo.
Implicit Types (c : AtomicExpiringValue) (th : Thread).

Lemma solo_update {E} c th :
  good_time (th_now th) -> as_micros (th_window th) <= u64_max -> th_pc th = PcUpdate ->
  exists n c' v, run_schedule (replicate n 0%nat) (c, [th]) = (c', [set_pc th (PcDone true)]) /\
    update (E := E) c (th_delta th) (th_window th) (th_now th) = Ok (v, c').
Proof.
  intros Ht Hw Hpc. destruct th as [d m w t r pc]. simpl in *. subst pc.
  unfold update, update_if_expired. destruct (Z.leb_spec (as_micros w) u64_max); [|lia].
  rewrite since_epoch_good by done. cbn [outcome_bind].
  destruct (expiry (aev_expiry c) <=? as_micros t) eqn:He.
  - exists 3%nat. unfold run_schedule, step_at, step_thread. simpl. rewrite He. simpl.
    unfold compare_exchange. rewrite Z.eqb_refl. simpl. eexists _, _. split; reflexivity.
  - exists 2%nat. unfold run_schedule, step_at, step_thread. simpl. rewrite He. simpl. destruct c as [v [e]]. simpl.
    eexists _, _. split; reflexivity.
Qed.

Lemma solo_read {E} c th :
  good_time (th_read th) -> th_pc th = PcRead ->
  exists n v, run_schedule (replicate n 0%nat) (c, [th]) = (c, [set_pc th (PcDecide v)]) /\
    value_at (E := E) c (th_read th) = Ok v.
Proof.
  intros Ht Hpc. destruct th as [d m w t r pc]. simpl in *. subst pc.
  unfold value_at. rewrite expired_at_good by done. simpl.
  destruct (expiry (aev_expiry c) <=? as_micros r) eqn:He.
  - exists 1%nat, 0. unfold run_schedule, step_at, step_thread. simpl. rewrite He. done.
  - exists 2%nat, (aev_value c). unfold run_schedule, step_at, step_thread. simpl. rewrite He. done.
Qed.
End solo.

(** ** Inside an open window *)

(** The sum of the deltas of the threads whose program counter satisfies [p]. *)
Fixpoint sum_threads (p : Pc -> bool) (ths : list Thread) : Z :=
  match ths with
  | [] => 0
  | th :: ths => (if p (th_pc th) then th_delta th else 0) + sum_threads p ths
  end.

Definition added (pc : Pc) : bool := match pc with PcDone true => true | _ => false end.

Definition pending (pc : Pc) : bool :=
  match pc with PcUpdate | PcCas _ | PcStore | PcAdd => true | _ => false end.

Lemma sum_threads_insert p ths i th th' :
  ths !! i = Some th -> th_delta th' = th_delta th ->
  sum_threads p (<[i := th']> ths) =
    sum_threads p ths - (if p (th_pc th) then th_delta th else 0)
                      + (if p (th_pc th') then th_delta th else 0).
Proof.
  intros Hi Hd. revert i Hi. induction ths as [|x ths IH]; intros i Hi; [done|].
  destruct i as [|i]; simpl in *.
  - injection Hi as ->. rewrite Hd. lia.
  - rewrite (IH i Hi). lia.
Qed.

Lemma sum_threads_nonneg p ths : Forall (fun th => 0 <= th_delta th) ths -> 0 <= sum_threads p ths.
Proof.
  induction 1 as [|th ths Hd _ IH]; simpl; [done|]. destruct (p (th_pc th)); lia.
Qed.

(** Threads of the same limit [m] that run before the end [e] of the window. *)
Definition in_window (e m : Z) (th : Thread) : Prop :=
  as_micros (th_now th) < e /\ as_micros (th_read th) < e /\ th_max th = m /\ 0 <= th_delta th.

(** Before the window's end no thread resets the cell. *)
Definition adds_only (th : Thread) : Prop :=
  match th_pc th with PcCas _ | PcStore => False | _ => True end.

(** The cell holds the start value and all finished additions. *)
Record window_inv (v0 e m : Z) (s : AtomicExpiringValue * list Thread) : Prop := {
  wi_expiry : expiry (aev_expiry s.1) = e;
  wi_value : aev_value s.1 = v0 + sum_threads added s.2;
  wi_threads : Forall (in_window e m) s.2;
  wi_adds : Forall adds_only s.2;
  wi_total : v0 + sum_threads (fun _ => true) s.2 <= u64_max
}.

Lemma sum_threads_le p ths :
  Forall (fun th => 0 <= th_delta th) ths -> sum_threads p ths <= sum_threads (fun _ => true) ths.
Proof. induction 1 as [|th ths Hd _ IH]; simpl; [done|]. destruct (p (th_pc th)); lia. Qed.

(** Not yet added threads fit next to the added ones. *)
Lemma sum_threads_add ths i th :
  Forall (fun th => 0 <= th_delta th) ths -> ths !! i = Some th -> added (th_pc th) = false ->
  sum_threads added ths + th_delta th <= sum_threads (fun _ => true) ths.
Proof.
  intros Hall. revert i. induction Hall as [|x ths Hd Hall IH]; intros i Hi Ha; [done|].
  destruct i as [|i]; simpl in *.
  - injection Hi as ->. rewrite Ha. pose proof (sum_threads_le added ths Hall). lia.
  - specialize (IH i Hi Ha). destruct (added (th_pc x)); lia.
Qed.

(** The steps of a thread while the window is open. *)
Lemma window_step v0 e m s i :
  0 <= v0 -> window_inv v0 e m s -> window_inv v0 e m (step_at i s).
Proof.
  intros Hv0 [He Hval Hths Hk Htot]. unfold step_at.
  destruct (s.2 !! i) as [th|] eqn:Hi; [|by split].
  pose proof (Forall_lookup_1 _ _ _ _ Hths Hi) as (Hnow & Hread & Hmax & Hd).
  pose proof (Forall_lookup_1 _ _ _ _ Hk Hi) as Hth.
  assert (Hpos : Forall (fun th => 0 <= th_delta th) s.2).
  { apply (Forall_impl _ _ _ Hths). by intros x (_ & _ & _ & ?). }
  pose proof (sum_threads_nonneg added s.2 Hpos) as Hsum.
  assert (Hmove : forall c pc, expiry (aev_expiry c) = e -> adds_only (set_pc th pc) ->
            aev_value c = v0 + (sum_threads added s.2 - (if added (th_pc th) then th_delta th else 0)
                                + (if added pc then th_delta th else 0)) ->
            window_inv v0 e m (c, <[i := set_pc th pc]> s.2)).
  { intros c pc He' Hk' Hv'. split; simpl; [done| | | |].
    - by rewrite (sum_threads_insert added s.2 i th (set_pc th pc) Hi eq_refl).
    - apply Forall_insert; [done|]. by split_and!.
    - by apply Forall_insert.
    - rewrite (sum_threads_insert (fun _ => true) s.2 i th (set_pc th pc) Hi eq_refl). lia. }
  unfold step_thread. unfold adds_only in Hth. destruct (th_pc th) as [| |v| |l| | |b] eqn:Hpc; simpl in Hmove.
  - destruct (Z.leb_spec (expiry (aev_expiry s.1)) (as_micros (th_read th))); [lia|].
    apply Hmove; [done|done|simpl; lia].
  - apply Hmove; [done|done|simpl; lia].
  - apply Hmove; [done| |]; unfold adds_only; destruct (th_over th v); simpl; done || lia.
  - destruct (Z.leb_spec (expiry (aev_expiry s.1)) (as_micros (th_now th))); [lia|].
    apply Hmove; [done|done|simpl; lia].
  - done.
  - done.
  - pose proof (sum_threads_add s.2 i th Hpos Hi) as Hroom. rewrite Hpc in Hroom. specialize (Hroom eq_refl).
    apply Hmove; [done|done|]. simpl. rewrite u64_add_small; lia.
  - split; simpl; try done; rewrite list_insert_id; try done; by rewrite Hi.
Qed.

Lemma window_run v0 e m sched s :
  0 <= v0 -> window_inv v0 e m s -> window_inv v0 e m (run_schedule sched s).
Proof.
  intros H0. revert s. induction sched as [|i sched IH]; intros s Hs; [done|].
  simpl. by apply IH, window_step.
Qed.

(** Threads that have not started yet. *)
Definition fresh_threads (e m : Z) (ths : list Thread) : Prop :=
  Forall (fun th => in_window e m th /\ th_pc th = PcRead) ths.

Lemma window_init v0 e m c ths :
  aev_value c = v0 -> expiry (aev_expiry c) = e -> fresh_threads e m ths ->
  v0 + sum_threads (fun _ => true) ths <= u64_max -> window_inv v0 e m (c, ths).
Proof.
  intros Hv He Hths Htot. split; simpl; [done| | | |done].
  - assert (sum_threads added ths = 0) as ->; [|lia]. clear -Hths.
    induction Hths as [|th ths [_ Hpc] _ IH]; simpl; [done|]. rewrite Hpc. simpl. lia.
  - eapply Forall_impl; [done|]. by intros th [? _].
  - eapply Forall_impl; [done|]. intros th [_ Hpc]. unfold adds_only. by rewrite Hpc.
Qed.

(** C35: inside an open window no update is lost: under every interleaving of any
    number of concurrent [check_and_update] calls the cell holds the value it
    started with plus the deltas of exactly the calls that have completed as
    admitted, and the window's end does not move. *)
Theorem concurrent_updates_not_lost c e m ths sched :
  0 <= aev_value c -> expiry (aev_expiry c) = e -> fresh_threads e m ths ->
  aev_value c + sum_threads (fun _ => true) ths <= u64_max ->
  let '(c', ths') := run_schedule sched (c, ths) in
  aev_value c' = aev_value c + sum_threads added ths' /\ aev_expiry c' = aev_expiry c.
Proof.
  intros Hv He Hths Htot.
  pose proof (window_run _ e m sched _ Hv (window_init _ e m c ths eq_refl He Hths Htot)) as Hinv.
  destruct (run_schedule sched (c, ths)) as [c' ths']. destruct Hinv as [He' Hv' _ _ _]. simpl in *.
  split; [done|]. destruct (aev_expiry c') as [x], (aev_expiry c) as [y]. simpl in *. congruence.
Qed.

(** ** How far the race can go *)

(** A call is in flight from its first access to its last one. *)
Definition in_flight (pc : Pc) : bool :=
  match pc with PcRead | PcDone _ => false | _ => true end.

(** What a call in flight is going to add: its delta, once the value it loaded lets it
    through. *)
Definition owes (th : Thread) : Z :=
  match th_pc th with
  | PcDecide v => if th_over th v then 0 else th_delta th
  | pc => if pending pc then th_delta th else 0
  end.

Definition owed (ths : list Thread) : Z := foldr (fun th z => owes th + z) 0 ths.

Lemma owed_insert ths i th th' :
  ths !! i = Some th -> owed (<[i := th']> ths) = owed ths - owes th + owes th'.
Proof.
  revert i. induction ths as [|x ths IH]; intros [|i] Hi; simplify_eq/=; [lia|].
  rewrite (IH i Hi). lia.
Qed.

Lemma owed_in_flight ths :
  Forall (fun th => 0 <= th_delta th) ths -> owed ths <= sum_threads in_flight ths.
Proof.
  induction 1 as [|th ths Hd _ IH]; simpl; [done|]. unfold owes.
  destruct (th_pc th); simpl; repeat case_match; lia.
Qed.

Lemma owed_nonneg ths : Forall (fun th => 0 <= th_delta th) ths -> 0 <= owed ths.
Proof.
  induction 1 as [|th ths Hd _ IH]; simpl; [done|]. unfold owes.
  destruct (th_pc th); simpl; repeat case_match; lia.
Qed.

(** Next to any call in flight, the others in flight ask for at most [w] together. *)
Definition width (w : Z) (ths : list Thread) : Prop :=
  Forall (fun th => in_flight (th_pc th) = true -> sum_threads in_flight ths - th_delta th <= w) ths.

#[export] Instance width_dec w ths : Decision (width w ths).
Proof. apply _. Defined.

Lemma width_at w ths i th :
  width w ths -> ths !! i = Some th -> in_flight (th_pc th) = true ->
  sum_threads in_flight ths - th_delta th <= w.
Proof. intros Hw Hi. exact (Forall_lookup_1 _ _ _ _ Hw Hi). Qed.

(** A call the value [v] lets through stays within the limit. *)
Lemma th_over_false th v :
  0 <= v -> 0 <= th_delta th -> 0 <= th_max th < u64_max -> th_over th v = false ->
  v + th_delta th <= th_max th.
Proof.
  intros Hv Hd Hm Ho. unfold th_over in Ho. destruct (u64_checked_sub _ _) eqn:Hsub; [|done].
  assert (Hn : u64_checked_sub (th_max th) (u64_saturating_add v (th_delta th)) <> None) by congruence.
  rewrite checked_sub_saturating_none in Hn by (unfold in_u64; lia). lia.
Qed.

(** The value and what is going to be added only grow when a call loads the value, and
    then to at most the limit and what the others in flight add. *)
Lemma overshoot_step v0 e m w b s i :
  0 <= v0 -> 0 <= m < u64_max -> m + w <= b -> window_inv v0 e m s -> width w (step_at i s).2 ->
  aev_value s.1 + owed s.2 <= b -> aev_value (step_at i s).1 + owed (step_at i s).2 <= b.
Proof.
  intros Hv0 Hm Hb Hinv Hw Hle. pose proof (window_step v0 e m s i Hv0 Hinv) as [_ _ Hths' _ _].
  destruct Hinv as [He Hval Hths Hk Htot]. unfold step_at in *.
  destruct (s.2 !! i) as [th|] eqn:Hi; [|done].
  pose proof (Forall_lookup_1 _ _ _ _ Hths Hi) as (Hnow & Hread & Hmax & Hd).
  pose proof (Forall_lookup_1 _ _ _ _ Hk Hi) as Hadd.
  assert (Hpos : Forall (fun th => 0 <= th_delta th) s.2).
  { apply (Forall_impl _ _ _ Hths). by intros x (_ & _ & _ & ?). }
  pose proof (sum_threads_nonneg added s.2 Hpos) as Hsum.
  pose proof (sum_threads_add s.2 i th Hpos Hi) as Hroom.
  pose proof (fun th' => owed_insert s.2 i th th' Hi) as Hins.
  unfold step_thread in *. unfold adds_only in Hadd. unfold owes in Hins.
  destruct (th_pc th) as [| |v| |l| | |ok] eqn:Hpc; simpl in *; try done.
  - destruct (Z.leb_spec (expiry (aev_expiry s.1)) (as_micros (th_read th))); [lia|].
    simpl in *. rewrite Hins. simpl. lia.
  - rewrite Hins. simpl. change (th_over (set_pc th _) ?v) with (th_over th v).
    destruct (th_over th (aev_value s.1)) eqn:Ho; [lia|].
    pose proof (th_over_false th (aev_value s.1) ltac:(lia) Hd ltac:(lia) Ho) as Hfit.
    pose proof (width_at w _ i (set_pc th (PcDecide (aev_value s.1))) Hw (list_lookup_insert_eq _ _ _ (lookup_lt_Some _ _ _ Hi)) eq_refl) as Hothers.
    pose proof (owed_in_flight (<[i := set_pc th (PcDecide (aev_value s.1))]> s.2)) as Hfl.
    rewrite Hins in Hfl. simpl in Hfl, Hothers. change (th_over (set_pc th _) ?v) with (th_over th v) in Hfl.
    rewrite Ho in Hfl. enough (owed s.2 - 0 + th_delta th <= sum_threads in_flight
      (<[i := set_pc th (PcDecide (aev_value s.1))]> s.2)) by lia.
    apply Hfl. by apply Forall_insert.
  - rewrite Hins. destruct (th_over th v); simpl; lia.
  - destruct (Z.leb_spec (expiry (aev_expiry s.1)) (as_micros (th_now th))); [lia|].
    simpl in *. rewrite Hins. simpl. lia.
  - rewrite Hins. simpl. rewrite u64_add_small by (specialize (Hroom eq_refl); lia). lia.
  - rewrite Hins, Hpc. destruct ok; simpl; lia.
Qed.

Lemma overshoot_run v0 e m w b sched s :
  0 <= v0 -> 0 <= m < u64_max -> m + w <= b -> window_inv v0 e m s ->
  (forall n, width w (run_schedule (take n sched) s).2) ->
  aev_value s.1 + owed s.2 <= b ->
  aev_value (run_schedule sched s).1 + owed (run_schedule sched s).2 <= b.
Proof.
  intros Hv Hm Hb. revert s. induction sched as [|i sched IH]; intros s Hinv Hw Hle; [done|].
  simpl. apply IH; [by apply window_step|exact (fun n => Hw (S n))|].
  apply (overshoot_step v0 e m w b s i); try done. exact (Hw 1%nat).
Qed.

(** C36: how far the check-then-update race can overshoot a limit inside a window: if at
    no moment of the schedule the calls in flight next to any one call in flight ask
    for more than [w] together, the value never goes above the limit plus [w] (or
    stays where it was, if it started above that), and neither does the value with
    everything the calls still in flight are going to add.  Calls that do not overlap
    ([w = 0]) never exceed the limit. *)
Theorem concurrent_overshoot_bounded c e m w ths sched :
  0 <= aev_value c -> 0 <= m < u64_max -> expiry (aev_expiry c) = e -> fresh_threads e m ths ->
  aev_value c + sum_threads (fun _ => true) ths <= u64_max ->
  (forall n, width w (run_schedule (take n sched) (c, ths)).2) ->
  let '(c', ths') := run_schedule sched (c, ths) in
  aev_value c' <= aev_value c' + owed ths' <= aev_value c `max` (m + w).
Proof.
  intros Hv Hm He Hths Htot Hw.
  pose proof (window_init _ e m c ths eq_refl He Hths Htot) as Hinit.
  assert (H0 : owed ths = 0).
  { clear -Hths. induction Hths as [|th ths [_ Hpc] _ IH]; [done|]. simpl. unfold owes. rewrite Hpc. simpl. lia. }
  pose proof (overshoot_run _ e m w (aev_value c `max` (m + w)) sched (c, ths) Hv Hm ltac:(lia) Hinit Hw) as Hb.
  simpl in Hb. specialize (Hb ltac:(lia)).
  pose proof (window_run _ e m sched _ Hv Hinit) as [_ _ Hths' _ _].
  destruct (run_schedule sched (c, ths)) as [c' ths']. simpl in *. split; [|done].
  enough (0 <= owed ths') by lia. apply owed_nonneg.
  apply (Forall_impl _ _ _ Hths'). by intros x (_ & _ & _ & ?).
Qed.

(** ** Two threads at the edge *)

(** Two calls of delta 1 on a limit of 10. *)
Definition two_threads (now read : SystemTime) : list Thread :=
  let th := mkThread 1 10 (from_secs 60) now read PcRead in [th; th].

(** The in-memory storage can go over a limit: with 9 of 10 used in an open
    window, two concurrent [check_and_update] calls of 1 can both be admitted and
    leave 11.  When the window has just ended they can also both be admitted and
    leave the cell at 1: the first opens the new window, the second adds to the
    old value, and the first then stores over it. *)
Theorem concurrent_calls_overshoot :
  (exists sched c' ths', run_schedule sched (mkAev 9 (mkExpiry 100000000), two_threads (from_secs 50) (from_secs 50))
     = (c', ths') /\ Forall (fun th => th_pc th = PcDone true) ths' /\ aev_value c' = 11) /\
  (exists sched c' ths', run_schedule sched (mkAev 9 (mkExpiry 100000000), two_threads (from_secs 100) (from_secs 100))
     = (c', ths') /\ Forall (fun th => th_pc th = PcDone true) ths' /\ aev_value c' = 1).
Proof.
  split.
  - exists [0; 1; 0; 1; 0; 1; 0; 1; 0; 1]%nat. do 2 eexists. split; [vm_compute; reflexivity|].
    split; [repeat constructor|reflexivity].
  - exists [0; 0; 1; 1; 0; 0; 1; 1; 0]%nat. do 2 eexists. split; [vm_compute; reflexivity|].
    split; [repeat constructor|reflexivity].
Qed.

Lemma two_threads_fresh : fresh_threads 100000000 10 (two_threads (from_secs 50) (from_secs 50)).
Proof. repeat constructor; vm_compute; intuition discriminate. Qed.

Lemma concurrent_updates_not_lost_witness :
  let '(c', ths') := run_schedule [0; 1; 0; 1; 0; 1; 0; 1; 0; 1]%nat
    (mkAev 9 (mkExpiry 100000000), two_threads (from_secs 50) (from_secs 50)) in
  aev_value c' = 9 + sum_threads added ths' /\ aev_expiry c' = mkExpiry 100000000.
Proof.
  apply (concurrent_updates_not_lost (mkAev 9 (mkExpiry 100000000)) 100000000 10
           (two_threads (from_secs 50) (from_secs 50))).
  - vm_compute. discriminate.
  - reflexivity.
  - apply two_threads_fresh.
  - vm_compute. discriminate.
Defined.

(** Nine of ten used, two calls of one that load the value one after the other. *)
Lemma concurrent_overshoot_bounded_witness :
  let '(c', ths') := run_schedule [0; 1; 0; 1; 0; 1; 0; 1; 0; 1]%nat
    (mkAev 9 (mkExpiry 100000000), two_threads (from_secs 50) (from_secs 50)) in
  aev_value c' <= aev_value c' + owed ths' <= 9 `max` (10 + 1).
Proof.
  apply (concurrent_overshoot_bounded (mkAev 9 (mkExpiry 100000000)) 100000000 10 1
           (two_threads (from_secs 50) (from_secs 50))).
  - vm_compute. discriminate.
  - vm_compute. split; [discriminate|reflexivity].
  - reflexivity.
  - apply two_threads_fresh.
  - vm_compute. discriminate.
  - intros n. do 10 (destruct n as [|n]; [apply (bool_decide_eq_true_1 _); vm_compute; reflexivity|]).
    apply (bool_decide_eq_true_1 _). destruct n; vm_compute; reflexivity.
Defined.
