(* ===== verification/CrCounter.v ===== *)
(** * The replicated counter value: [storage/distributed/cr_counter_value.rs]

    Every replica counts its own increments and remembers what the other actors
    reported; replicas exchange their values and merge them.  Actors are the
    replicas' names. *)

From S2P Require Import Prelude AtomicExpiringValue.

Record CrCounterValue : Type := mkCr {
  ourselves : string;
  cr_max_value : Z;
  cr_value : Z;
  others : gmap string Z;
  cr_expiry : AtomicExpiryTime
}.

Section cr_counter.
Context {E : Type}.

Definition cr_new {St} (actor : string) (max_value : Z) (time_window : Duration)
    : M St E CrCounterValue :=
  let* t := now in
  let* when := lift (systime_add t time_window) in
  let* e := lift (expiry_new when) in
  ret (mkCr actor max_value 0 ∅ e).

(** [guard.values().sum()], wrapping. *)
Definition sum_others (m : gmap string Z) : Z := foldl u64_add 0 (map_to_list m).*2.

Definition cr_read_at (self : CrCounterValue) (when : SystemTime) : Outcome E Z :=
  let? expired := expired_at (cr_expiry self) when in
  Ok (if (expired : bool) then 0 else u64_add (sum_others (others self)) (cr_value self)).

Definition cr_read {St} (self : CrCounterValue) : M St E Z :=
  let* t := now in lift (cr_read_at self t).

Definition inc_at (self : CrCounterValue) (increment : Z) (time_window : Duration) (when : SystemTime)
    : Outcome E CrCounterValue :=
  let? upd := update_if_expired (cr_expiry self) time_window when in
  let '(opened, e) := (upd : bool * AtomicExpiryTime) in
  Ok (mkCr (ourselves self) (cr_max_value self)
        (if opened then increment else u64_add (cr_value self) increment) (others self) e).

Definition cr_inc {St} (self : CrCounterValue) (increment : Z) (time_window : Duration)
    : M St E CrCounterValue :=
  let* t := now in lift (inc_at self increment time_window t).

Definition inc_actor_at (self : CrCounterValue) (actor : string) (increment : Z)
    (time_window : Duration) (when : SystemTime) : Outcome E CrCounterValue :=
  if bool_decide (actor = ourselves self) then inc_at self increment time_window when
  else
    let? upd := update_if_expired (cr_expiry self) time_window when in
    let '(opened, e) := (upd : bool * AtomicExpiryTime) in
    let m := if opened then <[actor := increment]> (others self)
             else <[actor := u64_add (default 0 (others self !! actor)) increment]> (others self) in
    Ok (mkCr (ourselves self) (cr_max_value self) (cr_value self) m e).

Definition cr_into_inner (self : CrCounterValue) : SystemTime * gmap string Z :=
  (expiry_into_inner (cr_expiry self), <[ourselves self := cr_value self]> (others self)).

Definition local_values (self : CrCounterValue) : SystemTime * string * Z :=
  (expiry_into_inner (cr_expiry self), ourselves self, cr_value self).

Definition cr_reset (self : CrCounterValue) (exp : SystemTime) : Outcome E CrCounterValue :=
  let? e := expiry_update (cr_expiry self) exp in
  Ok (mkCr (ourselves self) (cr_max_value self) 0 ∅ e).

(** [From<(SystemTime, BTreeMap<A, u64>)>]: a value of no actor in particular. *)
Definition cr_from (v : SystemTime * gmap string Z) : Outcome E CrCounterValue :=
  let? e := expiry_new v.1 in
  Ok (mkCr EmptyString 0 0 v.2 e).

(** One iteration of [merge_at]'s loop; [known] is our own value, loaded before it. *)
Definition merge_actor (known : Z) (self : CrCounterValue) (actor : string) (other_value : Z)
    : CrCounterValue :=
  if bool_decide (actor = ourselves self) then
    if other_value >? known
    then mkCr (ourselves self) (cr_max_value self) (u64_add (cr_value self) (other_value - known))
           (others self) (cr_expiry self)
    else self
  else
    let m :=
      match others self !! actor with
      | None => if other_value >? 0 then <[actor := other_value]> (others self) else others self
      | Some loc => if other_value >? loc then <[actor := other_value]> (others self) else others self
      end in
    mkCr (ourselves self) (cr_max_value self) (cr_value self) m (cr_expiry self).

Definition cr_merge_at (self other : CrCounterValue) (when : SystemTime) : Outcome E CrCounterValue :=
  let '(exp, other_values) := cr_into_inner other in
  if exp >? when then
    let? oe := expiry_new exp in
    let? merged := AtomicExpiringValue.merge_at (cr_expiry self) oe when in
    let self := mkCr (ourselves self) (cr_max_value self) (cr_value self) (others self) merged.1 in
    let? expired := expired_at (cr_expiry self) when in
    let? self := if (expired : bool) then cr_reset self exp else Ok self in
    let known := cr_value self in
    Ok (foldl (fun self kv => merge_actor known self kv.1 kv.2) self (map_to_list other_values))
  else Ok self.

Definition cr_merge {St} (self other : CrCounterValue) : M St E CrCounterValue :=
  let* t := now in lift (cr_merge_at self other t).

Definition cr_ttl {St} (self : CrCounterValue) : M St E Duration := expiry_ttl (cr_expiry self).

Definition cr_expires_at (self : CrCounterValue) : SystemTime := expires_at (cr_expiry self).

End cr_counter.

(** ** Merging is a join *)

Section join.
Context {E : Type}.
Implicit Types (c o : CrCounterValue) (when : SystemTime) (a : string).

(** What [c] attributes to actor [a]. *)
Definition cr_at c a : Z :=
  if bool_decide (a = ourselves c) then cr_value c else default 0 (others c !! a).

Definition cr_live c when : Prop := as_micros when < expiry (cr_expiry c).

#[global] Instance cr_live_dec c when : Decision (cr_live c when).
Proof. unfold cr_live. apply _. Defined.

Definition cr_wf c : Prop :=
  in_u64 (cr_value c) /\ (forall a v, others c !! a = Some v -> in_u64 v) /\
  in_u64 (expiry (cr_expiry c)).

Lemma cr_at_u64 c a : cr_wf c -> in_u64 (cr_at c a).
Proof.
  intros (Hv & Ho & _). unfold cr_at. case_bool_decide; [done|].
  destruct (others c !! a) as [v|] eqn:Ha; simpl; [by eapply Ho|]. unfold in_u64, u64_max. lia.
Qed.

(** The replica's view at [when]: nothing once its window is over. *)
Definition cr_seen c when a : Z := if decide (cr_live c when) then cr_at c a else 0.

Lemma into_inner_at c a : default 0 ((cr_into_inner c).2 !! a) = cr_at c a.
Proof.
  unfold cr_into_inner, cr_at. simpl. case_bool_decide as Ha; [subst|].
  - by rewrite lookup_insert_eq.
  - by rewrite lookup_insert_ne.
Qed.

Lemma exp_live_iff o when : (expires_at (cr_expiry o) >? when) = bool_decide (cr_live o when).
Proof.
  unfold cr_live, expires_at, from_micros, UNIX_EPOCH, as_micros.
  apply Bool.eq_iff_eq_true. rewrite bool_decide_eq_true, Z.gtb_lt.
  split; intros; Z.to_euclidean_division_equations; lia.
Qed.

Lemma expiry_new_expires_at o : cr_wf o -> expiry_new (E := E) (expires_at (cr_expiry o)) = Ok (cr_expiry o).
Proof.
  intros (_ & _ & [H0 H1]). destruct (cr_expiry o) as [e]. simpl in *.
  unfold expiry_new, outcome_map, expires_at, from_micros, UNIX_EPOCH. cbn [expiry]. rewrite Z.add_0_l.
  assert (Ha : as_micros (e * 1000) = e) by (unfold as_micros; by apply Z.div_mul).
  rewrite since_epoch_good by (split; [lia|by rewrite Ha]). simpl. by rewrite Ha.
Qed.

(** One actor's value merged. *)
Lemma merge_actor_at known c a v a' :
  cr_wf c -> in_u64 v -> (a = ourselves c -> known = cr_value c) ->
  cr_at (merge_actor known c a v) a' = if decide (a' = a) then Z.max (cr_at c a) v else cr_at c a'.
Proof.
  intros Hwf [Hv0 Hv1] Hk. pose proof (cr_at_u64 c a Hwf) as [Ha0 Ha1]. unfold merge_actor.
  case_bool_decide as Ho.
  - specialize (Hk Ho). subst a known. unfold cr_at in Ha0. rewrite bool_decide_eq_true_2 in Ha0 by done.
    destruct (Z.gtb_spec v (cr_value c)).
    + unfold cr_at. simpl. destruct (decide (a' = ourselves c)) as [->|Hne]; [|by rewrite bool_decide_eq_false_2].
      rewrite !bool_decide_eq_true_2 by done. rewrite u64_add_small; lia.
    + destruct (decide (a' = ourselves c)) as [->|]; [|done]. unfold cr_at.
      rewrite bool_decide_eq_true_2 by done. lia.
  - unfold cr_at in *. simpl. rewrite (bool_decide_eq_false_2 (a = ourselves c)) in * by done.
    destruct (decide (a' = a)) as [->|Hne].
    + rewrite bool_decide_eq_false_2 by done. destruct (others c !! a) as [l|] eqn:Hl; simpl in *.
      * destruct (Z.gtb_spec v l); [rewrite lookup_insert_eq; simpl|rewrite Hl; simpl]; lia.
      * destruct (Z.gtb_spec v 0); [rewrite lookup_insert_eq; simpl|rewrite Hl; simpl]; lia.
    + case_bool_decide; [done|].
      destruct (others c !! a) as [l|]; [destruct (v >? l)|destruct (v >? 0)]; by rewrite ?lookup_insert_ne.
Qed.

Lemma merge_actor_keeps known c a v :
  ourselves (merge_actor known c a v) = ourselves c /\ cr_expiry (merge_actor known c a v) = cr_expiry c /\
  cr_max_value (merge_actor known c a v) = cr_max_value c /\
  (a <> ourselves c -> cr_value (merge_actor known c a v) = cr_value c).
Proof. unfold merge_actor. repeat case_match; case_bool_decide; done. Qed.

Lemma merge_actor_wf known c a v : cr_wf c -> in_u64 v -> cr_wf (merge_actor known c a v).
Proof.
  intros (Hv & Ho & He) Hin. unfold merge_actor. case_bool_decide.
  - destruct (v >? known); split_and!; try done. apply u64_add_in.
  - split_and!; simpl; [done| |done]. intros a' v'.
    assert (Hins : forall m, m = others c \/ m = <[a := v]> (others c) -> m !! a' = Some v' -> in_u64 v').
    { intros m [->| ->]; [apply Ho|]. rewrite lookup_insert_Some. intros [[_ <-]|[_ ?]]; [done|by eapply Ho]. }
    apply Hins. destruct (others c !! a) as [l|]; [destruct (v >? l)|destruct (v >? 0)]; auto.
Qed.

(** The whole loop, over values of different actors. *)
Lemma merge_loop_at known c (l : list (string * Z)) a' :
  cr_wf c -> Forall (fun kv => in_u64 kv.2) l -> NoDup l.*1 ->
  ((ourselves c ∈ l.*1) -> known = cr_value c) ->
  let c' := foldl (fun c kv => merge_actor known c kv.1 kv.2) c l in
  cr_at c' a' = Z.max (cr_at c a') (default 0 ((list_to_map l : gmap string Z) !! a')) /\
  cr_wf c' /\ ourselves c' = ourselves c /\ cr_expiry c' = cr_expiry c /\ cr_max_value c' = cr_max_value c.
Proof.
  revert c. induction l as [|[a v] l IH]; intros c Hwf Hl Hnd Hk; simpl.
  { rewrite lookup_empty. simpl. split_and!; try done. pose proof (cr_at_u64 c a' Hwf) as []. lia. }
  apply Forall_cons in Hl as [Hv Hl]. simpl in Hnd. apply NoDup_cons in Hnd as [Hnot Hnd]. simpl in *.
  destruct (merge_actor_keeps known c a v) as (Hs & He & Hm & Hval).
  destruct (IH (merge_actor known c a v)) as (IH1 & IH2 & IH3 & IH4 & IH5);
    [by apply merge_actor_wf|done|done| |].
  { rewrite Hs. intros Hin. rewrite Hval by (intros ->; done). apply Hk. by right. }
  rewrite IH3, IH4, IH5, Hs, He, Hm. split_and!; try done. rewrite IH1.
  rewrite merge_actor_at; [|done|done|intros ->; apply Hk; by left].
  destruct (decide (a' = a)) as [->|Hne].
  - rewrite lookup_insert_eq. rewrite not_elem_of_list_to_map_1 by done. simpl.
    pose proof (cr_at_u64 c a Hwf) as []. lia.
  - by rewrite lookup_insert_ne.
Qed.

Lemma list_to_map_into_inner o a :
  default 0 ((list_to_map (map_to_list (cr_into_inner o).2) : gmap string Z) !! a) = cr_at o a.
Proof. by rewrite list_to_map_to_list, into_inner_at. Qed.

Lemma into_inner_u64 o : cr_wf o -> Forall (fun kv => in_u64 kv.2) (map_to_list (cr_into_inner o).2).
Proof.
  intros (Hv & Ho & _). apply Forall_forall. intros [a v] Hin%elem_of_map_to_list. simpl in *.
  apply lookup_insert_Some in Hin as [[_ <-]|[_ Hin]]; [done|by eapply Ho].
Qed.

(** The first half of [merge_at] for an [other] whose window is open: our expiry is
    merged with its, and our values reset if our window was over. *)
Lemma merge_start c o when :
  good_time when -> cr_wf c -> cr_wf o -> cr_live o when ->
  let e := Z.min (expiry (cr_expiry c)) (expiry (cr_expiry o)) in
  let c0 := mkCr (ourselves c) (cr_max_value c) (cr_value c) (others c) (mkExpiry e) in
  exists c1, (if e <=? as_micros when then cr_reset (E := E) c0 (expires_at (cr_expiry o)) else Ok c0) = Ok c1 /\
    cr_wf c1 /\ ourselves c1 = ourselves c /\ (forall a, cr_at c1 a = cr_seen c when a) /\
    expiry (cr_expiry c1) = (if decide (cr_live c when) then e else expiry (cr_expiry o)).
Proof.
  intros Ht (Hcv & Hco & Hce) Ho Hlo e c0. pose proof Ho as (_ & _ & Hoe).
  destruct (Z.leb_spec e (as_micros when)).
  - assert (Hdead : ~ cr_live c when) by (unfold cr_live in *; lia).
    rewrite decide_False by done. unfold cr_reset, expiry_update.
    change (outcome_map mkExpiry (since_epoch (expires_at (cr_expiry o))))
      with (expiry_new (E := E) (expires_at (cr_expiry o))).
    rewrite expiry_new_expires_at by done. cbn [outcome_bind].
    eexists. split_and!; [done| |done| |done].
    + split_and!; simpl; [unfold in_u64, u64_max; lia|by intros a v; rewrite lookup_empty|done].
    + intros a. unfold cr_at, cr_seen. simpl. rewrite decide_False by done.
      rewrite lookup_empty. by case_bool_decide.
  - assert (Hlive : cr_live c when) by (unfold cr_live in *; lia).
    rewrite decide_True by done. eexists. split_and!; [done| |done| |done].
    + split_and!; simpl; [done|done|]. unfold in_u64 in *. lia.
    + intros a. unfold cr_seen. by rewrite decide_True.
Qed.

(** Merging takes, for every actor, the larger of the two values seen, whether the
    windows are open or over; the earlier of two open windows stays. *)
Lemma cr_merge_at_spec c o when :
  good_time when -> cr_wf c -> cr_wf o ->
  exists c', cr_merge_at (E := E) c o when = Ok c' /\ cr_wf c' /\ ourselves c' = ourselves c /\
    (forall a, cr_seen c' when a = Z.max (cr_seen c when a) (cr_seen o when a)) /\
    expiry (cr_expiry c') =
      (if decide (cr_live o when)
       then if decide (cr_live c when) then Z.min (expiry (cr_expiry c)) (expiry (cr_expiry o))
            else expiry (cr_expiry o)
       else expiry (cr_expiry c)).
Proof.
  intros Ht Hc Ho. unfold cr_merge_at. destruct (cr_into_inner o) as [exp vals] eqn:Hio.
  assert (Hexp : exp = expires_at (cr_expiry o)) by (unfold cr_into_inner in Hio; by injection Hio as <- _).
  assert (Hvals : vals = (cr_into_inner o).2) by (by rewrite Hio). clear Hio. subst exp.
  rewrite exp_live_iff. case_bool_decide as Hlo.
  - rewrite expiry_new_expires_at by done. cbn [outcome_bind]. rewrite merge_at_seq by done. cbn [outcome_bind fst].
    assert (Hgt : (expiry (cr_expiry o) >? as_micros when) = true) by (unfold cr_live in Hlo; rewrite Z.gtb_lt; lia).
    rewrite Hgt. rewrite expired_at_good by done. cbn [outcome_bind cr_expiry expiry].
    destruct (merge_start c o when Ht Hc Ho Hlo) as (c1 & Hc1 & Hwf1 & Hs1 & Hat1 & He1).
    cbn zeta in Hc1. rewrite Hc1. cbn [outcome_bind].
    destruct (merge_loop_at (cr_value c1) c1 (map_to_list vals) EmptyString) as (_ & Hwf' & Hs' & He' & _);
      [done|subst; by apply into_inner_u64|apply NoDup_fst_map_to_list|done|].
    eexists. split_and!; [done|done|congruence| |by rewrite He', He1, (decide_True (P := cr_live o when))].
    intros a. unfold cr_seen. rewrite (decide_True (P := cr_live o when)) by done. rewrite decide_True.
    + destruct (merge_loop_at (cr_value c1) c1 (map_to_list vals) a) as (Hat & _);
        [done|subst; by apply into_inner_u64|apply NoDup_fst_map_to_list|done|].
      rewrite Hat, Hat1. subst vals. by rewrite list_to_map_into_inner.
    + unfold cr_live. rewrite He', He1. unfold cr_live in *. destruct (decide _); lia.
  - eexists. split_and!; [done|done|done| |by rewrite decide_False].
    intros a. pose proof (cr_at_u64 c a Hc) as [? _]. unfold cr_seen. rewrite (decide_False (P := cr_live o when)) by done.
    destruct (decide _); lia.
Qed.

(** Merging a sequence of updates, each at its instant. *)
Fixpoint merge_all c (us : list (CrCounterValue * SystemTime)) : Outcome E CrCounterValue :=
  match us with
  | [] => Ok c
  | (o, when) :: us => let? c' := cr_merge_at c o when in merge_all c' us
  end.

(** The largest value the updates report for an actor. *)
Definition max_seen (os : list CrCounterValue) when a : Z := foldr (fun o acc => Z.max (cr_seen o when a) acc) 0 os.

(** The merges are comparable at [t]: they all happen then, or at any instants before,
    with every window involved still open at [t]. *)
Definition comparable c (us : list (CrCounterValue * SystemTime)) t : Prop :=
  Forall (fun u => u.2 = t) us \/
  (cr_live c t /\ Forall (fun u => good_time u.2 /\ u.2 <= t /\ cr_live u.1 t) us).

(** Merging an update before [t], in windows that are open at [t]. *)
Lemma merge_before c o when t :
  good_time when -> when <= t -> cr_wf c -> cr_wf o -> cr_live c t -> cr_live o t ->
  exists c', cr_merge_at (E := E) c o when = Ok c' /\ cr_wf c' /\ cr_live c' t /\
    forall a, cr_seen c' t a = Z.max (cr_seen c t a) (cr_seen o t a).
Proof.
  intros Ht Hle Hc Ho Lc Lo. assert (Hm : as_micros when <= as_micros t) by (apply Z.div_le_mono; lia).
  assert (Hearly : forall x, cr_live x t -> cr_live x when) by (unfold cr_live; intros; lia).
  destruct (cr_merge_at_spec c o when Ht Hc Ho) as (c' & R & Hwf & _ & Hs & He).
  rewrite !decide_True in He by auto. assert (Lc' : cr_live c' t) by (unfold cr_live in *; lia).
  exists c'. split_and!; [done|done|done|]. intros a. specialize (Hs a). unfold cr_seen in *.
  rewrite !decide_True in Hs by auto. by rewrite !decide_True by auto.
Qed.

Lemma merge_all_spec c us t :
  good_time t -> cr_wf c -> Forall cr_wf us.*1 -> comparable c us t ->
  exists c', merge_all c us = Ok c' /\ cr_wf c' /\
    forall a, cr_seen c' t a = Z.max (cr_seen c t a) (max_seen us.*1 t a).
Proof.
  intros Ht. revert c. induction us as [|[o when] us IH]; intros c Hc Hos Hcmp; simpl.
  - exists c. split_and!; [done|done|]. intros a. pose proof (cr_at_u64 c a Hc) as [? _].
    unfold cr_seen. destruct (decide _); lia.
  - apply Forall_cons in Hos as [Ho Hos].
    assert (exists c1, cr_merge_at c o when = Ok c1 /\ cr_wf c1 /\ comparable c1 us t /\
              forall a, cr_seen c1 t a = Z.max (cr_seen c t a) (cr_seen o t a)) as (c1 & -> & Hwf1 & Hcmp1 & Hs1).
    { destruct Hcmp as [[Hw Hus]%Forall_cons|[Lc [(Hw & Hle & Lo) Hus]%Forall_cons]]; simpl in *.
      - subst when. destruct (cr_merge_at_spec c o t Ht Hc Ho) as (c1 & R & Hwf1 & _ & Hs1 & _). exists c1. by split_and!; [|..|left|].
      - destruct (merge_before c o when t) as (c1 & R & Hwf1 & L1 & Hs1); try done. exists c1. by split_and!; [|..|right|]. }
    cbn [outcome_bind]. destruct (IH c1 Hwf1 Hos Hcmp1) as (c2 & Hr & Hwf2 & Hs2). exists c2. split_and!; [done|done|].
    intros a. rewrite Hs2, Hs1. symmetry. apply Z.max_assoc.
Qed.

Lemma max_seen_ub os when a o : o ∈ os -> cr_seen o when a <= max_seen os when a.
Proof.
  induction os as [|x os IH]; intros Hin; [by apply not_elem_of_nil in Hin|]. simpl.
  apply elem_of_cons in Hin as [->|Hin]; [lia|]. specialize (IH Hin). lia.
Qed.

Lemma max_seen_lub os when a b :
  0 <= b -> (forall o, o ∈ os -> cr_seen o when a <= b) -> max_seen os when a <= b.
Proof.
  intros Hb. induction os as [|x os IH]; intros Hall; simpl; [done|].
  assert (cr_seen x when a <= b) by (apply Hall; by left).
  assert (max_seen os when a <= b) by (apply IH; intros o Ho; apply Hall; by right). lia.
Qed.

Lemma max_seen_nonneg os when a : 0 <= max_seen os when a.
Proof. induction os as [|x os IH]; simpl; lia. Qed.

(** C29: replicas converge.  Merging never panics within the clock's range, and what a
    replica ends up seeing of every actor depends only on which updates it has
    merged: not on their order, not on how often each one arrived, and, as long as all
    the windows involved stay open, not on when; it never decreases.  Windows that are
    over are covered if all the merges happen at one instant; an update whose window ends
    between two merges shortens the replica's window, and then the order matters. *)
Theorem cr_merge_converges c us us' t :
  good_time t -> cr_wf c -> Forall cr_wf us.*1 -> (forall o, o ∈ us.*1 <-> o ∈ us'.*1) ->
  comparable c us t -> comparable c us' t ->
  exists c1 c2, merge_all c us = Ok c1 /\ merge_all c us' = Ok c2 /\
    (forall a, cr_seen c1 t a = cr_seen c2 t a) /\
    (forall a, cr_seen c t a <= cr_seen c1 t a).
Proof.
  intros Ht Hc Hos Hsame Hcmp Hcmp'.
  assert (Hos' : Forall cr_wf us'.*1).
  { rewrite Forall_forall in Hos |- *. intros o Ho. by apply Hos, Hsame. }
  destruct (merge_all_spec c us t Ht Hc Hos Hcmp) as (c1 & H1 & _ & S1).
  destruct (merge_all_spec c us' t Ht Hc Hos' Hcmp') as (c2 & H2 & _ & S2).
  exists c1, c2. split_and!; [done|done| |].
  - intros a. rewrite S1, S2. f_equal. apply Z.le_antisymm;
      (apply max_seen_lub; [apply max_seen_nonneg|]; intros o Ho; apply max_seen_ub; by apply Hsame).
  - intros a. rewrite S1. lia.
Qed.

(** Starting a new window keeps the old window's counts of the other replicas: the
    increment that finds the window over resets our own value only, and everything
    the other actors had reported before counts again in the new window. *)
Theorem inc_at_revives_others c increment d when :
  in_u64 increment -> good_window when d -> 0 < as_micros d -> ~ cr_live c when ->
  exists c', inc_at (E := E) c increment d when = Ok c' /\
    cr_seen c' when (ourselves c) = increment /\
    forall a, a <> ourselves c -> cr_seen c when a = 0 /\ cr_seen c' when a = cr_at c a.
Proof.
  intros Hi Hw Hd Hdead. unfold inc_at, update_if_expired.
  destruct (Z.leb_spec (as_micros d) u64_max) as [Hle|]; [|by apply good_window_ttl in Hw; lia].
  rewrite since_epoch_good by (by eapply good_window_time). cbn [outcome_bind].
  unfold cr_live in Hdead. destruct (Z.leb_spec (expiry (cr_expiry c)) (as_micros when)); [|lia].
  unfold compare_exchange. rewrite Z.eqb_refl. cbn [outcome_bind]. eexists. split; [done|].
  assert (Hnew : u64_add (as_micros when) (as_micros d) = as_micros when + as_micros d).
  { destruct Hw as ([? ?] & ? & ?). pose proof (as_micros_nonneg when). pose proof (as_micros_nonneg d).
    apply u64_add_small; lia. }
  rewrite Hnew. split.
  - unfold cr_seen. rewrite decide_True by (unfold cr_live; simpl; lia). unfold cr_at. simpl.
    by rewrite bool_decide_eq_true_2.
  - intros a Ha. unfold cr_seen. rewrite decide_False by (unfold cr_live; lia).
    rewrite decide_True by (unfold cr_live; simpl; lia). split; [done|].
    unfold cr_at. simpl. by rewrite !bool_decide_eq_false_2.
Qed.
End join.

(** ** Examples *)

Definition demo_cr (me : string) (v : Z) (os : gmap string Z) : CrCounterValue :=
  mkCr me 10 v os (mkExpiry 60000000).

Lemma demo_cr_wf me v : in_u64 v -> cr_wf (demo_cr me v ∅).
Proof.
  intros Hv. split_and!; [done|intros a x; simpl; by rewrite lookup_empty|]. vm_compute. split; discriminate.
Qed.

(** Two updates merged in one order and another, one of them twice, at different times. *)
Definition demo_updates : list (CrCounterValue * SystemTime) :=
  [(demo_cr "b" 4 ∅, from_secs 8); (demo_cr "c" 5 ∅, from_secs 9)].
Definition demo_updates' : list (CrCounterValue * SystemTime) :=
  [(demo_cr "c" 5 ∅, from_secs 3); (demo_cr "b" 4 ∅, from_secs 7); (demo_cr "c" 5 ∅, from_secs 10)].

Lemma cr_merge_converges_witness :
  exists c1 c2,
    merge_all (E := unit) (demo_cr "a" 3 ∅) demo_updates = Ok c1 /\
    merge_all (E := unit) (demo_cr "a" 3 ∅) demo_updates' = Ok c2 /\
    forall a, cr_seen c1 (from_secs 10) a = cr_seen c2 (from_secs 10) a.
Proof.
  destruct (cr_merge_converges (E := unit) (demo_cr "a" 3 ∅) demo_updates demo_updates' (from_secs 10))
    as (c1 & c2 & H1 & H2 & Hs & _).
  - vm_compute. intuition discriminate.
  - apply demo_cr_wf. vm_compute. intuition discriminate.
  - do 2 (apply Forall_cons_2; [apply demo_cr_wf; vm_compute; intuition discriminate|]). apply Forall_nil_2.
  - unfold demo_updates, demo_updates'. simpl. set_solver.
  - right. split; [vm_compute; reflexivity|]. repeat constructor; vm_compute; done.
  - right. split; [vm_compute; reflexivity|]. repeat constructor; vm_compute; done.
  - by exists c1, c2.
Defined.

(** Where the order matters: an update of "c" that ends at second 5, merged first, makes
    the replica take its window for over at second 10 and forget its own hits. *)
Example short_update_matters :
  let short := mkCr "c" 10 5 ∅ (mkExpiry 5000000) in
  let seen us := match merge_all (E := unit) (demo_cr "a" 3 ∅) us with Ok c => Some (cr_seen c (from_secs 10) "a") | _ => None end in
  seen [(short, from_secs 1); (demo_cr "b" 4 ∅, from_secs 10)] = Some 0 /\
  seen [(demo_cr "b" 4 ∅, from_secs 1); (short, from_secs 10)] = Some 3.
Proof. split; vm_compute; reflexivity. Qed.

Lemma inc_at_revives_others_witness :
  exists c', inc_at (E := unit) (demo_cr "a" 3 {["b"%string := 9]}) 1 (from_secs 60) (from_secs 100) = Ok c' /\
    cr_seen c' (from_secs 100) "b" = 9.
Proof.
  destruct (inc_at_revives_others (E := unit) (demo_cr "a" 3 {["b"%string := 9]}) 1 (from_secs 60) (from_secs 100))
    as (c' & Hc & _ & Hb).
  - vm_compute. intuition discriminate.
  - vm_compute. intuition discriminate.
  - vm_compute. reflexivity.
  - vm_compute. discriminate.
  - exists c'. split; [done|]. destruct (Hb "b"%string) as [_ ->]; [done|]. reflexivity.
Defined.
