(* ===== verification/ExpiringValue.v ===== *)
(** * The values stored on disk: [storage/disk/expiring_value.rs]

    A value with the end of its window, kept on disk as 16 big-endian bytes:
    the value, then the seconds of the expiry.  The merge operator RocksDB is
    opened with ([RocksDbStorage::open]) combines such records. *)

From S2P Require Import Prelude Errors.

(** A byte is a [Z] in [0, 256). *)
Abbreviation Bytes := (list Z) (only parsing).

Record ExpiringValue : Type := mkExpiring {
  ev_value : Z;
  ev_expiry : SystemTime
}.

Definition ev_new (value : Z) (expiry : SystemTime) : ExpiringValue := mkExpiring value expiry.

Definition ev_value_at (v : ExpiringValue) (when : SystemTime) : Z :=
  if ev_expiry v <=? when then 0 else ev_value v.

Definition ev_value_now {St E} (v : ExpiringValue) : M St E Z :=
  let* t := now in ret (ev_value_at v t).

Definition ev_update {E} (v : ExpiringValue) (delta : Z) (ttl : Duration) (now : SystemTime)
    : Outcome E ExpiringValue :=
  let? expiry := if ev_expiry v <=? now then systime_add now ttl else Ok (ev_expiry v) in
  Ok (mkExpiring (u64_add (ev_value_at v now) delta) expiry).

Definition ev_merge (v other : ExpiringValue) (now : SystemTime) : ExpiringValue :=
  if ev_expiry v >? now then mkExpiring (u64_add (ev_value v) (ev_value other)) (ev_expiry v)
  else other.

Definition ev_ttl {St E} (v : ExpiringValue) : M St E Duration :=
  let* t := now in ret (default 0 (duration_since (ev_expiry v) t)).

Definition ev_default : ExpiringValue := mkExpiring 0 UNIX_EPOCH.

(** [u64::to_be_bytes], the [n] low bytes of a number. *)
Fixpoint to_be_bytes (n : nat) (x : Z) : Bytes :=
  match n with
  | O => []
  | S n => to_be_bytes n (x / 256) ++ [x mod 256]
  end.

(** [u64::from_be_bytes] *)
Definition from_be_bytes (bs : Bytes) : Z := foldl (fun acc b => acc * 256 + b) 0 bs.

(** [raw[a..b]], which panics when the slice is too short. *)
Definition slice {E} (raw : Bytes) (a b : nat) : Outcome E Bytes :=
  if (b <=? length raw)%nat then Ok (take (b - a) (drop a raw))
  else Panic "range end index out of range for slice".

(** [impl TryFrom<&[u8]> for ExpiringValue] *)
Definition ev_try_from {E} (raw : Bytes) : Outcome E ExpiringValue :=
  let? raw_val := slice raw 0 8 in
  let? raw_exp := slice raw 8 16 in
  let? expiry := systime_add UNIX_EPOCH (from_secs (from_be_bytes raw_exp)) in
  Ok (mkExpiring (from_be_bytes raw_val) expiry).

(** [impl From<ExpiringValue> for Vec<u8>] *)
Definition ev_into_bytes {E} (v : ExpiringValue) : Outcome E Bytes :=
  match duration_since (ev_expiry v) UNIX_EPOCH with
  | None => Panic "Can't expire before Epoch"
  | Some d => Ok (to_be_bytes 8 (ev_value v) ++ to_be_bytes 8 (as_secs d))
  end.

(** The operands a merge still has to apply; a record that does not decode is skipped. *)
Fixpoint merge_operands {E} (now : SystemTime) (value : ExpiringValue) (operands : list Bytes)
    : Outcome E ExpiringValue :=
  match operands with
  | [] => Ok value
  | op :: operands =>
      match ev_try_from (E := unit) op with
      | Ok pending => merge_operands now (ev_merge value pending now) operands
      | Err _ => merge_operands now value operands
      | Panic s => Panic s
      end
  end.

(** [ExpiringValueMerge], run by RocksDB when it combines records, at [now]. *)
Definition merge_operator {E} (now : SystemTime) (start : option Bytes) (operands : list Bytes)
    : Outcome E Bytes :=
  let? value :=
    match start with
    | None => Ok ev_default
    | Some raw =>
        match ev_try_from (E := unit) raw with
        | Ok v => Ok v
        | Err _ => Ok ev_default
        | Panic s => Panic s
        end
    end in
  let? value := merge_operands now value operands in
  ev_into_bytes value.

(** [ExpiredValueFilter]: whether a compaction keeps a record. *)
Definition compaction_keeps {E} (now : SystemTime) (raw : Bytes) : Outcome E bool :=
  match ev_try_from (E := unit) raw with
  | Ok v => Ok (negb (ev_value_at v now =? 0))
  | Err _ => Ok false
  | Panic s => Panic s
  end.

(** ** Big-endian bytes *)

Lemma length_to_be_bytes n x : length (to_be_bytes n x) = n.
Proof. revert x. induction n as [|n IH]; intros x; simpl; [done|]. rewrite length_app, IH. simpl. lia. Qed.

Lemma from_be_bytes_app bs b : from_be_bytes (bs ++ [b]) = from_be_bytes bs * 256 + b.
Proof. unfold from_be_bytes. by rewrite foldl_app. Qed.

Lemma from_to_be_bytes n x : 0 <= x < 256 ^ Z.of_nat n -> from_be_bytes (to_be_bytes n x) = x.
Proof.
  revert x. induction n as [|n IH]; intros x Hx; [simpl in *; unfold from_be_bytes; simpl; lia|].
  cbn [to_be_bytes]. rewrite from_be_bytes_app.
  rewrite Nat2Z.inj_succ, Z.pow_succ_r in Hx by lia.
  rewrite IH; [pose proof (Z.div_mod x 256); lia|].
  split; [apply Z.div_pos; lia|]. apply Z.div_lt_upper_bound; lia.
Qed.

Lemma slice_fst {E} bs bs' : length bs = 8%nat -> slice (E := E) (bs ++ bs') 0 8 = Ok bs.
Proof.
  intros Hl. unfold slice. rewrite length_app, Hl. simpl. by rewrite drop_0, take_app_length'.
Qed.

Lemma slice_snd {E} bs bs' :
  length bs = 8%nat -> length bs' = 8%nat -> slice (E := E) (bs ++ bs') 8 16 = Ok bs'.
Proof.
  intros Hl Hl'. unfold slice. rewrite length_app, Hl, Hl'. simpl.
  rewrite drop_app_length' by done. by rewrite <-Hl', firstn_all.
Qed.

(** ** Records *)

(** What a record can hold: a [u64] and a time from the epoch to the last one. *)
Definition ev_wf (v : ExpiringValue) : Prop :=
  in_u64 (ev_value v) /\ 0 <= ev_expiry v <= systime_max.

(** The expiry a record keeps: whole seconds. *)
Definition whole_seconds (t : SystemTime) : SystemTime := from_secs (as_secs t).

Definition stored (v : ExpiringValue) : ExpiringValue :=
  mkExpiring (ev_value v) (whole_seconds (ev_expiry v)).

Lemma whole_seconds_bounds t : whole_seconds t <= t < whole_seconds t + nanos_per_sec.
Proof.
  unfold whole_seconds, from_secs, as_secs. pose proof (Z.div_mod t nanos_per_sec).
  pose proof (Z.mod_pos_bound t nanos_per_sec). unfold nanos_per_sec in *. lia.
Qed.

Lemma whole_seconds_idem t : whole_seconds (whole_seconds t) = whole_seconds t.
Proof. unfold whole_seconds, as_secs, from_secs. by rewrite Z.div_mul. Qed.

Lemma whole_seconds_nonneg t : 0 <= t -> 0 <= whole_seconds t.
Proof.
  intros Ht. unfold whole_seconds, from_secs, as_secs.
  assert (0 <= t / nanos_per_sec) by (apply Z.div_pos; unfold nanos_per_sec; lia).
  unfold nanos_per_sec in *. lia.
Qed.

Lemma stored_wf v : ev_wf v -> ev_wf (stored v).
Proof.
  intros [Hv [He He']]. split; [done|]. simpl. pose proof (whole_seconds_bounds (ev_expiry v)).
  pose proof (whole_seconds_nonneg _ He). lia.
Qed.

Lemma stored_idem v : stored (stored v) = stored v.
Proof. unfold stored. simpl. by rewrite whole_seconds_idem. Qed.

Definition encoded (v : ExpiringValue) : Bytes :=
  to_be_bytes 8 (ev_value v) ++ to_be_bytes 8 (as_secs (ev_expiry v)).

#[local] Opaque to_be_bytes.

Lemma ev_into_bytes_wf {E} v : ev_wf v -> ev_into_bytes (E := E) v = Ok (encoded v).
Proof.
  intros [_ [He _]]. unfold ev_into_bytes, duration_since, UNIX_EPOCH.
  destruct (Z.leb_spec 0 (ev_expiry v)); [|lia]. by rewrite Z.sub_0_r.
Qed.

Lemma ev_try_from_encoded {E} v : ev_wf v -> ev_try_from (E := E) (encoded v) = Ok (stored v).
Proof.
  intros [Hv [He He']]. unfold ev_try_from, encoded.
  rewrite slice_fst, slice_snd by apply length_to_be_bytes. cbn [outcome_bind].
  assert (Hs : 0 <= as_secs (ev_expiry v) < 256 ^ Z.of_nat 8).
  { unfold as_secs. split; [apply Z.div_pos; unfold nanos_per_sec; lia|].
    apply Z.div_lt_upper_bound; [done|]. unfold systime_max, nanos_per_sec in *. lia. }
  rewrite !from_to_be_bytes by (done || (unfold in_u64, u64_max in Hv; lia)).
  unfold systime_add, UNIX_EPOCH. rewrite Z.add_0_l.
  pose proof (whole_seconds_bounds (ev_expiry v)) as [Hw _]. unfold whole_seconds in Hw.
  destruct (Z.leb_spec (from_secs (as_secs (ev_expiry v))) systime_max); [done|lia].
Qed.

Lemma encoded_stored a b : ev_wf a -> ev_wf b -> encoded a = encoded b -> stored a = stored b.
Proof.
  intros Ha Hb Heq. apply (f_equal (ev_try_from (E := unit))) in Heq.
  rewrite !ev_try_from_encoded in Heq by done. congruence.
Qed.

(** What is written to disk is read back: encoding never fails for a value with a
    representable expiry, and decoding gives the same count with the expiry cut to
    whole seconds, so that a stored window closes at most a second early, never late;
    writing what was read changes nothing more. *)
Theorem disk_value_roundtrip {E} v when :
  ev_wf v ->
  exists bs v', ev_into_bytes (E := E) v = Ok bs /\ length bs = 16%nat /\
    ev_try_from (E := E) bs = Ok v' /\ ev_value v' = ev_value v /\
    ev_expiry v' <= ev_expiry v < ev_expiry v' + nanos_per_sec /\
    ev_value_at v' when <= ev_value_at v when /\
    ev_into_bytes (E := E) v' = Ok bs.
Proof.
  intros Hv. exists (encoded v), (stored v). pose proof (whole_seconds_bounds (ev_expiry v)) as Hw.
  split_and!; [by apply ev_into_bytes_wf| |by apply ev_try_from_encoded|done|simpl; lia|simpl; lia| |].
  - unfold encoded. by rewrite length_app, !length_to_be_bytes.
  - destruct Hv as [[Hv _] _]. unfold ev_value_at, stored. simpl. repeat case_match; lia.
  - rewrite ev_into_bytes_wf by (by apply stored_wf). unfold encoded, stored. simpl.
    do 3 f_equal. unfold whole_seconds, as_secs, from_secs. by rewrite Z.div_mul.
Qed.

(** ** The merge operator *)

Lemma ev_merge_wf v o t : ev_wf v -> ev_wf o -> ev_wf (ev_merge v o t).
Proof. unfold ev_merge. intros [? ?] ?. destruct (_ >? t); [|done]. split; [apply u64_add_in|done]. Qed.

Lemma ev_merge_stored v o t :
  stored v = v -> stored o = o -> stored (ev_merge v o t) = ev_merge v o t.
Proof.
  intros Hv Ho. unfold ev_merge. destruct (_ >? t); [|done]. unfold stored in *. simpl.
  f_equal. by apply (f_equal ev_expiry) in Hv.
Qed.

Lemma ev_default_wf : ev_wf ev_default.
Proof. split; vm_compute; split; discriminate. Qed.

Lemma merge_operands_run {E} t v os :
  Forall ev_wf os ->
  merge_operands (E := E) t v (encoded <$> os) = Ok (foldl (fun v o => ev_merge v (stored o) t) v os).
Proof.
  revert v. induction os as [|o os IH]; intros v Hos; [done|].
  apply Forall_cons in Hos as [Ho Hos]. rewrite fmap_cons. cbn [merge_operands].
  rewrite ev_try_from_encoded by done. by apply IH.
Qed.

(** The operator on records it can decode. *)
Definition merged (t : SystemTime) (start : option ExpiringValue) (os : list ExpiringValue) : ExpiringValue :=
  foldl (fun v o => ev_merge v (stored o) t) (default ev_default (stored <$> start)) os.

Lemma merged_wf t start os :
  (forall v, start = Some v -> ev_wf v) -> Forall ev_wf os -> ev_wf (merged t start os).
Proof.
  intros Hs Hos. unfold merged.
  assert (H0 : ev_wf (default ev_default (stored <$> start))).
  { destruct start; simpl; [by apply stored_wf, Hs|apply ev_default_wf]. }
  generalize dependent (default ev_default (stored <$> start)).
  induction os as [|o os IH]; intros v H0; [done|]. apply Forall_cons in Hos as [Ho Hos].
  simpl. apply IH; [done|]. apply ev_merge_wf; [done|by apply stored_wf].
Qed.

Lemma merge_operator_run {E} t start os :
  (forall v, start = Some v -> ev_wf v) -> Forall ev_wf os ->
  merge_operator (E := E) t (encoded <$> start) (encoded <$> os) = Ok (encoded (merged t start os)).
Proof.
  intros Hs Hos. unfold merge_operator.
  transitivity (let? value := merge_operands (E := E) t (default ev_default (stored <$> start)) (encoded <$> os) in
                ev_into_bytes value).
  - destruct start as [v|]; cbn [fmap option_fmap option_map default]; [|reflexivity].
    rewrite ev_try_from_encoded by (by apply Hs). reflexivity.
  - rewrite merge_operands_run by done. apply ev_into_bytes_wf. by apply merged_wf.
Qed.

Lemma merged_stored t start os : stored (merged t start os) = merged t start os.
Proof.
  unfold merged. assert (H0 : stored (default ev_default (stored <$> start)) = default ev_default (stored <$> start)).
  { destruct start; simpl; [apply stored_idem|done]. }
  generalize dependent (default ev_default (stored <$> start)).
  induction os as [|o os IH]; intros v H0; [done|]. simpl.
  apply IH. apply ev_merge_stored; [done|apply stored_idem].
Qed.

(** While the clock does not move it makes no difference how RocksDB groups the operands. *)
Lemma merged_app t start os os' :
  merged t start (os ++ os') = merged t (Some (merged t start os)) os'.
Proof.
  unfold merged at 1 2. cbn [fmap option_fmap option_map default].
  rewrite merged_stored. unfold merged at 1. by rewrite foldl_app.
Qed.

Lemma merge_operator_decoded {E} t start os :
  (forall v, start = Some v -> ev_wf v) -> Forall ev_wf os ->
  exists bs, merge_operator (E := E) t (encoded <$> start) (encoded <$> os) = Ok bs /\
             bs = encoded (merged t start os) /\ ev_try_from (E := E) bs = Ok (merged t start os).
Proof.
  intros Hs Hos. exists (encoded (merged t start os)).
  split_and!; [by apply merge_operator_run|done|].
  rewrite ev_try_from_encoded by (by apply merged_wf). by rewrite merged_stored.
Qed.

Lemma ev_merge_live v o t : t < ev_expiry v -> ev_merge v o t = mkExpiring (u64_add (ev_value v) (ev_value o)) (ev_expiry v).
Proof. intros. unfold ev_merge. by destruct (Z.gtb_spec (ev_expiry v) t); [|lia]. Qed.

Lemma ev_merge_dead v o t : ev_expiry v <= t -> ev_merge v o t = o.
Proof. intros. unfold ev_merge. by destruct (Z.gtb_spec (ev_expiry v) t); [lia|]. Qed.

(** The merge operator's answer depends on when RocksDB runs it.  Two hits of one
    window, the records [d1] written at [t1] and [d2] at [t2], are combined by a
    RocksDB that merges on write into a record that is over at [t], once the window
    has closed.  Combined at [t] instead, as pending operands are, the first record
    is dropped and the second opens a window of its own: the hit is counted again
    in a window it was not made in. *)
Theorem merge_operator_recounts {E} d1 d2 w1 w2 t1 t2 t :
  ev_wf (mkExpiring d1 w1) -> ev_wf (mkExpiring d2 w2) ->
  0 <= t1 <= t2 -> t2 < whole_seconds w1 -> whole_seconds w1 <= t < whole_seconds w2 ->
  exists r1 r2 first on_write pending v v',
    ev_into_bytes (E := E) (mkExpiring d1 w1) = Ok r1 /\ ev_into_bytes (E := E) (mkExpiring d2 w2) = Ok r2 /\
    merge_operator (E := E) t1 None [r1] = Ok first /\
    merge_operator (E := E) t2 (Some first) [r2] = Ok on_write /\
    merge_operator (E := E) t None [r1; r2] = Ok pending /\
    ev_try_from (E := E) on_write = Ok v /\ ev_value_at v t2 = u64_add d1 d2 /\ ev_value_at v t = 0 /\
    ev_try_from (E := E) pending = Ok v' /\ ev_value_at v' t = d2.
Proof.
  intros H1 H2 Ht1 Ht2 [Ht Ht'].
  set (o1 := mkExpiring d1 w1). set (o2 := mkExpiring d2 w2).
  assert (Hf : merged t1 None [o1] = stored o1).
  { unfold merged. simpl. apply ev_merge_dead. simpl. unfold UNIX_EPOCH. lia. }
  assert (Hw : merged t2 (Some (stored o1)) [o2] = mkExpiring (u64_add d1 d2) (whole_seconds w1)).
  { unfold merged. simpl. rewrite stored_idem. rewrite ev_merge_live by (simpl; lia). done. }
  assert (Hp : merged t None [o1; o2] = stored o2).
  { unfold merged. simpl. rewrite (ev_merge_dead ev_default) by (simpl; unfold UNIX_EPOCH; lia).
    apply ev_merge_dead. simpl. lia. }
  destruct (merge_operator_decoded (E := E) t1 None [o1]) as (b1 & Hb1 & Hb1' & _);
    [done|by apply Forall_singleton|]. rewrite Hf in Hb1'.
  destruct (merge_operator_decoded (E := E) t2 (Some (stored o1)) [o2]) as (b2 & Hb2 & _ & Hd2);
    [intros v [= <-]; by apply stored_wf|by apply Forall_singleton|].
  destruct (merge_operator_decoded (E := E) t None [o1; o2]) as (b3 & Hb3 & _ & Hd3);
    [done|by apply Forall_cons_2; [|apply Forall_singleton]|].
  exists (encoded o1), (encoded o2), b1, b2, b3, (merged t2 (Some (stored o1)) [o2]), (merged t None [o1; o2]).
  rewrite Hb1'. split_and!; [by apply ev_into_bytes_wf|by apply ev_into_bytes_wf|by rewrite <-Hb1'|done|done|done| | |done|].
  - rewrite Hw. unfold ev_value_at. simpl. destruct (Z.leb_spec (whole_seconds w1) t2); [lia|done].
  - rewrite Hw. unfold ev_value_at. simpl. destruct (Z.leb_spec (whole_seconds w1) t); [done|lia].
  - rewrite Hp. unfold ev_value_at. simpl. destruct (Z.leb_spec (whole_seconds w2) t); [lia|done].
Qed.

(** ** Examples *)

Lemma disk_value_roundtrip_witness :
  exists bs v', ev_into_bytes (E := unit) (mkExpiring 42 1999999999) = Ok bs /\
    ev_try_from (E := unit) bs = Ok v' /\ ev_value v' = 42 /\ ev_expiry v' <= 1999999999.
Proof.
  destruct (disk_value_roundtrip (E := unit) (mkExpiring 42 1999999999) 0)
    as (bs & v' & H1 & _ & H2 & H3 & [H4 _] & _).
  - split; vm_compute; split; discriminate.
  - by exists bs, v'.
Defined.

(** A window of 10 s opened at 100 s, a second hit at 109 s: at 110 s it is counted again. *)
Lemma merge_operator_recounts_witness :
  exists r1 r2 pending v',
    ev_into_bytes (E := unit) (mkExpiring 1 (from_secs 110)) = Ok r1 /\
    ev_into_bytes (E := unit) (mkExpiring 5 (from_secs 119)) = Ok r2 /\
    merge_operator (E := unit) (from_secs 110) None [r1; r2] = Ok pending /\
    ev_try_from (E := unit) pending = Ok v' /\ ev_value_at v' (from_secs 110) = 5.
Proof.
  destruct (merge_operator_recounts (E := unit) 1 5 (from_secs 110) (from_secs 119)
              (from_secs 100) (from_secs 109) (from_secs 110))
    as (r1 & r2 & ? & ? & pending & ? & v' & H1 & H2 & _ & _ & H3 & _ & _ & _ & H4 & H5).
  - split; vm_compute; split; discriminate.
  - split; vm_compute; split; discriminate.
  - vm_compute. split; discriminate.
  - vm_compute. reflexivity.
  - vm_compute. split; [discriminate|reflexivity].
  - by exists r1, r2, pending, v'.
Defined.
