(* ===== verification/Keys.v ===== *)
(** * The keys counters are stored under: [storage/keys.rs]

    Redis keys are text for a limit without an id and binary for one with an
    id; RocksDB keys are always binary.  A key is a byte string.  The
    [postcard] and [serde_json] encodings are parameters; their laws are the
    round trips the crates document, and [postcard]'s wire format for a [u8]
    (the byte itself) and a struct (its fields, one after the other). *)

From S2P Require Import Prelude Cel Errors Limit Counter Storage.

(** [mod bin]'s [CounterKey]; the name is [Counter.CounterKey]'s here. *)
Record BinCounterKey : Type := mkBinKey {
  bk_ns : string;
  bk_seconds : Z;
  bk_conditions : list string;
  bk_variables : list (string * string)
}.

Record IdCounterKey : Type := mkIdKey {
  ik_id : string;
  ik_variables : list (string * string)
}.

(** The structs the code hands to [postcard]. *)
Class Postcard : Type := {
  pc_u8 : Z -> string;
  pc_take_u8 : string -> option (Z * string);
  pc_string : string -> string;
  pc_counter_key : BinCounterKey -> string;
  pc_counter_key_from : string -> option BinCounterKey;
  pc_id_counter_key : IdCounterKey -> string;
  pc_id_counter_key_from : string -> option IdCounterKey;
  (** [IdLimitKey] has one field, the id *)
  pc_id_limit_key : string -> string
}.

Class PostcardLaws `{PC : Postcard} : Prop := {
  pc_take_u8_u8 : forall n rest, 0 <= n < 256 -> pc_take_u8 (pc_u8 n +:+ rest) = Some (n, rest);
  pc_u8_byte : forall n, 0 <= n < 256 -> exists a, pc_u8 n = String a "" /\ Z.of_N (Ascii.N_of_ascii a) = n;
  pc_counter_key_roundtrip : forall k, pc_counter_key_from (pc_counter_key k) = Some k;
  pc_id_counter_key_roundtrip : forall k, pc_id_counter_key_from (pc_id_counter_key k) = Some k;
  pc_counter_key_prefix : forall k, exists rest, pc_counter_key k = pc_string (bk_ns k) +:+ rest
}.

(** [serde_json] on the types that derive [Serialize] and [Deserialize]. *)
Class SerdeJson `{CE : CelEngine} : Type := {
  counter_to_json : Counter -> string;
  counter_from_json : string -> option Counter;
  limit_to_json : Limit -> string
}.

(** [l] with the fields marked [skip_serializing, default] at their defaults. *)
Definition limit_skeleton `{CelEngine} (l : Limit) : Limit :=
  mkLimit None (namespace l) 0 (seconds l) None (conditions l) (variables l).

(** Every expression of [l] is what its own source parses to. *)
Definition limit_reparses `{CelEngine} (l : Limit) : Prop :=
  Forall (fun p => predicate_parse (predicate_source p) = Ok p) (conditions l) /\
  Forall (fun e => expression_parse (source e) = Ok e) (variables l).

Class SerdeJsonLaws `{SJ : SerdeJson} : Prop := {
  counter_json_roundtrip : forall c, limit_reparses (ctr_limit c) ->
    counter_from_json (counter_to_json c) =
      Some (mkCounter (limit_skeleton (ctr_limit c)) (set_variables c) (remaining c) (expires_in c))
}.

(** ** [str] as the code uses it *)

(** [str::find]: the position of the first occurrence. *)
Fixpoint str_find (pat s : string) : option nat :=
  if String.prefix pat s then Some O
  else match s with
       | EmptyString => None
       | String _ s => S <$> str_find pat s
       end.

(** [&s[n..]] *)
Fixpoint str_from (n : nat) (s : string) : string :=
  match n, s with
  | O, _ => s
  | S _, EmptyString => EmptyString
  | S n, String _ s => str_from n s
  end.

(** [iter().map(f)] where [f] may panic. *)
Fixpoint map_outcome {E A B} (f : A -> Outcome E B) (l : list A) : Outcome E (list B) :=
  match l with
  | [] => Ok []
  | x :: l => let? y := f x in let? ys := map_outcome f l in Ok (y :: ys)
  end.

(** [Result::expect] and [Option::expect] *)
Definition expect {E F A} (msg : string) (o : Outcome E A) : Outcome F A :=
  match o with Ok a => Ok a | Err _ => Panic msg | Panic s => Panic s end.

Definition expect_some {E A} (msg : string) (o : option A) : Outcome E A :=
  match o with Some a => Ok a | None => Panic msg end.

Section keys.
Context {CE : CelEngine} {HO : HashOrder} {PC : Postcard} {SJ : SerdeJson}.

(** ** [mod bin] *)

(** [impl From<&Counter> for IdCounterKey] *)
Definition id_counter_key_of {E} (c : Counter) : Outcome E IdCounterKey :=
  let? id := expect_some "called `Option::unwrap()` on a `None` value" (counter_id c) in
  Ok (mkIdKey id (variables_for_key c)).

(** [impl From<&Counter> for CounterKey]; the conditions are distinct, so that sorting
    them is collecting them in order. *)
Definition bin_key_of (c : Counter) : BinCounterKey :=
  mkBinKey (counter_namespace c) (as_secs (window c))
    (btree_collect (fun s => s) (elements (limit_conditions (ctr_limit c))))
    (variables_for_key c).

Definition key_for_counter_v2 {E} (c : Counter) : Outcome E string :=
  match counter_id c with
  | None => Ok (pc_u8 1 +:+ pc_counter_key (bin_key_of c))
  | Some _ => let? k := id_counter_key_of c in Ok (pc_u8 2 +:+ pc_id_counter_key k)
  end.

(** The conditions and variables of a key, parsed again. *)
Definition parse_conditions {E} (conds : list string) : Outcome E (list Predicate) :=
  map_outcome (fun p => expect "condition corrupted!" (predicate_parse p)) conds.

Definition parse_variables {E} (map : gmap string string) : Outcome E (list Expression) :=
  map_outcome (fun v => expect "variable corrupted!" (expression_parse v)) (hash_iter map).*1.

Definition partial_counter_of_bin_key {E} (k : BinCounterKey) : Outcome E Counter :=
  let map := list_to_map (bk_variables k) in
  let? conds := parse_conditions (bk_conditions k) in
  let? vars := parse_variables map in
  resolved_vars (limit_new (bk_ns k) 0 (bk_seconds k) conds vars) map.

Definition partial_counter_from_counter_key_v2 {E} (key : string) : Outcome E Counter :=
  let? vk := expect_some "called `Result::unwrap()` on an `Err` value" (pc_take_u8 key) in
  let '(version, key) := (vk : Z * string) in
  if version =? 1 then
    let? k := expect_some "called `Result::unwrap()` on an `Err` value" (pc_counter_key_from key) in
    partial_counter_of_bin_key k
  else if version =? 2 then
    let? k := expect_some "called `Result::unwrap()` on an `Err` value" (pc_id_counter_key_from key) in
    let map := list_to_map (ik_variables k) in
    let? vars := parse_variables map in
    resolved_vars (limit_with_id (ik_id k) "" 0 0 [] vars) map
  else Panic ("Unknown version: " +:+ pretty version).

(** The RocksDB keys, [bin::key_for_counter] and its inverse. *)
Definition bin_key_for_counter (c : Counter) : string := pc_counter_key (bin_key_of c).

Definition prefix_for_namespace (ns : string) : string := pc_string ns.

Definition bin_partial_counter_from_counter_key {E} (key : string) : Outcome E Counter :=
  let? k := expect_some "called `Result::unwrap()` on an `Err` value" (pc_counter_key_from key) in
  partial_counter_of_bin_key k.

(** ** Redis keys *)

Definition text_key (ns json : string) : string := "namespace:{" +:+ ns +:+ "},counter:" +:+ json.

Definition key_for_counter {E} (c : Counter) : Outcome E string :=
  match counter_id c with
  | None =>
      Ok (text_key (counter_namespace c)
            (if bool_decide (is_Some (remaining c)) || bool_decide (is_Some (expires_in c))
             then counter_to_json (key c)
             else counter_to_json c))
  | Some _ => key_for_counter_v2 c
  end.

Definition key_for_reservations {E} (c : Counter) : Outcome E string :=
  let? key := key_for_counter c in Ok (key +:+ ",reservations").

Definition key_for_counters_of_limit (l : Limit) : string :=
  match limit_id l with
  | Some id => pc_u8 2 +:+ pc_id_limit_key id
  | None => "namespace:{" +:+ namespace l +:+ "},counters_of_limit:" +:+ limit_to_json l
  end.

(** A key that starts with [namespace:] is text, which [key_for_counter] wrote as
    valid UTF-8: [from_utf8_lossy] gives it back as it is. *)
Definition partial_counter_from_counter_key {E} (key : string) : Outcome E Counter :=
  if String.prefix "namespace:" key then
    let? start_ns := expect_some "Namespace not found in the key" (str_find "namespace:" key) in
    let? pos := expect_some "Counter not found in the key" (str_find ",counter:" (str_from start_ns key)) in
    let start_counter := (pos + start_ns + String.length ",counter:")%nat in
    expect_some "Failed to deserialize counter JSON" (counter_from_json (str_from start_counter key))
  else partial_counter_from_counter_key_v2 key.

Definition counter_from_counter_key {E} (key : string) (l : Limit) : Outcome E Counter :=
  let? c := partial_counter_from_counter_key key in
  let '(updated, c) := update_to_limit c l in
  if updated then Ok c else Panic "Failed to rebuild Counter's Limit from the provided Limit".
End keys.

(** ** Lemmas: sorted association lists *)

Lemma btree_collect_incl {T} (f : T -> string) l x : x ∈ btree_collect f l -> x ∈ l.
Proof.
  assert (Hins : forall y l, x ∈ btree_insert f y l -> x = y \/ x ∈ l).
  { intros y k. induction k as [|z k IH]; simpl; [set_solver|].
    destruct (String.compare (f y) (f z)); set_solver. }
  assert (Hgen : forall acc, x ∈ foldl (fun acc x => btree_insert f x acc) acc l -> x ∈ acc \/ x ∈ l).
  { induction l as [|y l IH]; intros acc Hx; simpl in *; [by left|].
    apply IH in Hx as [Hx|Hx]; [|set_solver]. apply Hins in Hx. set_solver. }
  intros Hx. apply Hgen in Hx. set_solver.
Qed.

Lemma str_sorted_nodup (l : list string) : StronglySorted str_lt l -> NoDup l.
Proof.
  induction 1 as [|s l Hl IH Hs]; constructor; [|done]. intros Hin.
  rewrite Forall_forall in Hs. specialize (Hs s Hin). by apply (irreflexivity str_lt s).
Qed.

Lemma list_to_map_collect (l : list (string * string)) :
  NoDup l.*1 -> list_to_map (btree_collect fst l) = (list_to_map l : gmap string string).
Proof.
  intros Hnd.
  assert (Hnd' : NoDup (btree_collect fst l).*1) by apply str_sorted_nodup, btree_collect_sorted.
  apply map_eq. intros s. apply option_eq. intros x. rewrite <-!elem_of_list_to_map by done.
  split; [apply btree_collect_incl|]. intros Hin.
  assert (Hs : s ∈ fst <$> btree_collect fst l).
  { apply btree_collect_keys, list_elem_of_fmap. by exists (s, x). }
  apply list_elem_of_fmap in Hs as ([s' y] & -> & Hy). simpl in *.
  pose proof (btree_collect_incl _ _ _ Hy) as Hy'.
  apply elem_of_list_to_map in Hin; [|done]. apply elem_of_list_to_map in Hy'; [|done]. congruence.
Qed.

Section keys_lemmas.
Context {CE : CelEngine} {HO : HashOrder} {PC : Postcard} {PL : PostcardLaws}.
Implicit Types (c : Counter) (l : Limit).

Lemma variables_for_key_map c : list_to_map (variables_for_key c) = set_variables c.
Proof.
  unfold variables_for_key, btree_iter.
  rewrite list_to_map_collect by apply str_sorted_nodup, btree_collect_sorted.
  rewrite list_to_map_collect by apply NoDup_fst_map_to_list. apply list_to_map_to_list.
Qed.

(** ** Lemmas: rebuilding a counter *)

Lemma map_outcome_ok {E A B} (f : A -> Outcome E B) (xs : list A) (ys : list B) :
  Forall2 (fun x y => f x = Ok y) xs ys -> map_outcome f xs = Ok ys.
Proof. induction 1 as [|x y xs ys Hx _ IH]; [done|]. simpl. by rewrite Hx, IH. Qed.

Lemma map_outcome_choose {E A B} (f : A -> Outcome E B) (P : B -> Prop) xs :
  (forall x, x ∈ xs -> exists y, f x = Ok y /\ P y) ->
  exists ys, map_outcome f xs = Ok ys /\ Forall2 (fun x y => f x = Ok y) xs ys /\ Forall P ys.
Proof.
  intros Hall.
  assert (exists ys, Forall2 (fun x y => f x = Ok y /\ P y) xs ys) as [ys Hys].
  { induction xs as [|x xs IH]; [by exists []|]. destruct (Hall x) as (y & Hy & HP); [by left|].
    destruct IH as [ys Hys]; [intros; apply Hall; by right|]. exists (y :: ys). by constructor. }
  exists ys. split_and!.
  - apply map_outcome_ok. by eapply Forall2_impl; [done|intros ? ? []].
  - by eapply Forall2_impl; [done|intros ? ? []].
  - apply Forall_forall. intros y Hy. apply list_elem_of_lookup in Hy as [i Hi].
    eapply Forall2_lookup_r in Hys as (x & _ & _ & HP); done.
Qed.

(** A counter whose qualifiers are exactly its limit's variables, as [counter_new] makes. *)
Definition counter_of_limit c : Prop :=
  limit_wf (ctr_limit c) /\ limit_reparses (ctr_limit c) /\
  dom (set_variables c) = limit_variables (ctr_limit c).

(** Every variable of the limit is a plain identifier, which it references itself. *)
Definition plain_variables l : Prop :=
  Forall (fun e => source e ∈ expression_variables e) (variables l).

Lemma parse_variables_run {E} l (m : gmap string string) :
  limit_reparses l -> dom m = limit_variables l ->
  exists vars, parse_variables (E := E) m = Ok vars /\
    (forall e, e ∈ vars -> e ∈ variables l) /\
    (forall s, s ∈ source <$> vars <-> s ∈ source <$> variables l).
Proof.
  intros [_ Hv] Hd. rewrite Forall_forall in Hv.
  assert (Hkeys : forall s, s ∈ (hash_iter m).*1 <-> s ∈ source <$> variables l).
  { intros s. rewrite hash_iter_perm. rewrite list_elem_of_fmap. setoid_rewrite elem_of_map_to_list'.
    transitivity (s ∈ dom m).
    - rewrite elem_of_dom. split; [intros ([? x] & -> & ?); by exists x|].
      intros [x Hx]. by exists (s, x).
    - rewrite Hd. unfold limit_variables. apply elem_of_list_to_set. }
  destruct (map_outcome_choose (E := E) (fun v => expect "variable corrupted!" (expression_parse v))
              (fun e => e ∈ variables l) (hash_iter m).*1) as (vars & Hr & Hf & Hin).
  - intros s Hs%Hkeys. apply list_elem_of_fmap in Hs as (e & -> & He).
    exists e. by rewrite (Hv e He).
  - exists vars. rewrite Forall_forall in Hin. split_and!; [done|done|].
    assert (Hsrc : source <$> vars = (hash_iter m).*1); [|intros s; by rewrite Hsrc, Hkeys].
    clear Hr Hin Hkeys. generalize dependent (hash_iter m).*1. intros ks Hf. induction Hf as [|s e ss es He _ IH]; [done|]. rewrite fmap_cons, IH. f_equal.
    unfold expression_parse in He. destruct (cel_parse s); [done|]. by injection He as <-.
Qed.

Lemma parse_conditions_run {E} l :
  limit_wf l -> limit_reparses l ->
  exists conds, parse_conditions (E := E)
      (btree_collect (fun s => s) (elements (limit_conditions l))) = Ok conds /\
    predicate_source <$> btree_collect predicate_source conds = predicate_source <$> conditions l.
Proof.
  intros (Hs & _) [Hc _]. rewrite Forall_forall in Hc.
  set (ss := btree_collect _ _).
  assert (Hss : ss = predicate_source <$> conditions l).
  { apply (strictly_sorted_ext str_lt); [|done|].
    - pose proof (btree_collect_sorted (fun s => s) (elements (limit_conditions l))) as H.
      by rewrite list_fmap_id in H.
    - intros s. pose proof (btree_collect_keys (fun s => s) (elements (limit_conditions l)) s) as H.
      rewrite !list_fmap_id in H. unfold ss. rewrite H. unfold limit_conditions. set_solver. }
  exists (conditions l). rewrite Hss. split.
  - apply map_outcome_ok. apply Forall2_fmap_l. apply Forall_Forall2_diag, Forall_forall.
    intros p Hp. simpl. by rewrite (Hc p Hp).
  - apply (strictly_sorted_ext str_lt); [apply btree_collect_sorted|done|].
    intros s. apply btree_collect_keys.
Qed.

Lemma as_secs_window c : as_secs (window c) = seconds (ctr_limit c).
Proof. unfold as_secs, window, from_secs. by apply Z.div_mul. Qed.

(** The sets a rebuilt limit collects have the sources of the original's. *)
Lemma collect_variables_sources l vars :
  limit_wf l -> (forall s, s ∈ source <$> vars <-> s ∈ source <$> variables l) ->
  source <$> btree_collect source vars = source <$> variables l.
Proof.
  intros (_ & Hs & _) Hext. apply (strictly_sorted_ext str_lt); [apply btree_collect_sorted|done|].
  intros s. by rewrite btree_collect_keys.
Qed.

Lemma rebuilt_has_variable l l' (m : gmap string string) :
  plain_variables l -> dom m = limit_variables l -> (forall e, e ∈ variables l' -> e ∈ variables l) ->
  source <$> variables l' = source <$> variables l ->
  filter (fun kv : string * string => has_variable l' kv.1 = true) m = m.
Proof.
  intros Hp Hd Hin Hsrc. apply map_filter_id. intros s x Hx. simpl.
  assert (Hs : s ∈ source <$> variables l').
  { rewrite Hsrc. apply elem_of_dom_2 in Hx. rewrite Hd in Hx. unfold limit_variables in Hx. set_solver. }
  apply list_elem_of_fmap in Hs as (e & -> & He). unfold has_variable. apply existsb_exists.
  exists (source e). split; [|by apply bool_decide_eq_true]. apply list_elem_of_In.
  apply list_elem_of_bind. exists e. split; [|done].
  unfold plain_variables in Hp. rewrite Forall_forall in Hp. by apply Hp, Hin.
Qed.

(** A binary key gives back a counter with the same identity. *)
Lemma partial_counter_of_bin_key_run {E} c :
  counter_of_limit c -> plain_variables (ctr_limit c) ->
  exists c', partial_counter_of_bin_key (E := E) (bin_key_of c) = Ok c' /\
    counter_key c' = counter_key c /\ max_value c' = 0 /\ remaining c' = None /\ expires_in c' = None.
Proof.
  intros (Hwf & Hre & Hd) Hp. unfold partial_counter_of_bin_key, bin_key_of. cbn [bk_variables bk_conditions bk_ns bk_seconds].
  rewrite variables_for_key_map.
  destruct (parse_conditions_run (E := E) _ Hwf Hre) as (conds & -> & Hcs). cbn [outcome_bind].
  destruct (parse_variables_run (E := E) _ _ Hre Hd) as (vars & -> & Hin & Hext). cbn [outcome_bind].
  pose proof (collect_variables_sources _ _ Hwf Hext) as Hvs.
  eexists. split; [done|]. split_and!; [|done..]. unfold counter_key. simpl.
  rewrite (rebuilt_has_variable (ctr_limit c)); [|done|done| |done].
  - unfold limit_key. simpl. by rewrite Hcs, Hvs, as_secs_window.
  - intros e He. simpl in He. by apply Hin, (btree_collect_incl source).
Qed.

Lemma bin_key_of_inj c1 c2 :
  counter_of_limit c1 -> counter_of_limit c2 -> bin_key_of c1 = bin_key_of c2 -> counter_key c1 = counter_key c2.
Proof.
  intros (Hw1 & _ & Hd1) (Hw2 & _ & Hd2) Hk. unfold bin_key_of in Hk. rewrite !as_secs_window in Hk.
  injection Hk as Hns Hsec Hc Hv.
  assert (Hm : set_variables c1 = set_variables c2) by (by rewrite <-!variables_for_key_map, Hv).
  assert (Hsv : source <$> variables (ctr_limit c1) = source <$> variables (ctr_limit c2)).
  { apply (strictly_sorted_ext str_lt); [apply Hw1|apply Hw2|]. intros s.
    rewrite <-!(elem_of_list_to_set (C := gset string)).
    change (s ∈ limit_variables (ctr_limit c1) <-> s ∈ limit_variables (ctr_limit c2)).
    by rewrite <-Hd1, <-Hd2, Hm. }
  assert (Hsc : predicate_source <$> conditions (ctr_limit c1) = predicate_source <$> conditions (ctr_limit c2)).
  { apply (strictly_sorted_ext str_lt); [apply Hw1|apply Hw2|]. intros s.
    pose proof (btree_collect_keys (fun s => s) (elements (limit_conditions (ctr_limit c1))) s) as H1.
    pose proof (btree_collect_keys (fun s => s) (elements (limit_conditions (ctr_limit c2))) s) as H2.
    rewrite Hc in H1. rewrite H1 in H2. rewrite !list_fmap_id, !elem_of_elements in H2.
    unfold limit_conditions in H2. by rewrite !elem_of_list_to_set in H2. }
  unfold counter_key, limit_key, counter_namespace in *. by rewrite Hns, Hsec, Hsc, Hsv, Hm.
Qed.

(** C33: the keys of the disk storage are unambiguous and readable: two counters share a
    key exactly if they are the same counter, a key starts with the prefix of its
    counter's namespace, and a key whose variables are plain identifiers gives back a
    counter the storages take for the one it was made from. *)
Theorem disk_key_roundtrip {E} c1 c2 :
  counter_of_limit c1 -> counter_of_limit c2 ->
  (bin_key_for_counter c1 = bin_key_for_counter c2 <-> counter_eq c1 c2 = true) /\
  (exists rest, bin_key_for_counter c1 = prefix_for_namespace (counter_namespace c1) +:+ rest) /\
  (plain_variables (ctr_limit c1) ->
   exists c', bin_partial_counter_from_counter_key (E := E) (bin_key_for_counter c1) = Ok c' /\
     counter_eq c' c1 = true).
Proof.
  intros H1 H2. split_and!.
  - rewrite counter_eq_key. split.
    + intros Hk. apply bin_key_of_inj; [done..|]. apply (f_equal pc_counter_key_from) in Hk.
      unfold bin_key_for_counter in Hk. rewrite !pc_counter_key_roundtrip in Hk. by apply (inj Some).
    + intros Hk. unfold bin_key_for_counter. f_equal. unfold bin_key_of, variables_for_key.
      rewrite !as_secs_window. unfold counter_key, limit_key in Hk. injection Hk as Hns Hsec Hc _ Hv.
      unfold counter_namespace, limit_conditions. by rewrite Hns, Hsec, Hc, Hv.
  - apply pc_counter_key_prefix.
  - intros Hp. unfold bin_partial_counter_from_counter_key, bin_key_for_counter.
    rewrite pc_counter_key_roundtrip. cbn [expect_some outcome_bind].
    destruct (partial_counter_of_bin_key_run (E := E) c1 H1 Hp) as (c' & -> & Hk & _).
    exists c'. split; [done|]. by apply counter_eq_key.
Qed.
End keys_lemmas.

(** ** Lemmas: text keys *)

Section redis_keys.
Context {CE : CelEngine} {HO : HashOrder} {PC : Postcard} {PL : PostcardLaws} {SJ : SerdeJson}
  {JL : SerdeJsonLaws}.
Implicit Types (c : Counter) (l : Limit).

Lemma prefix_self p b : String.prefix p (p +:+ b) = true.
Proof. induction p as [|a p IH]; [by destruct b|]. simpl. by destruct (Ascii.ascii_dec a a). Qed.

Lemma str_find_self p b : str_find p (p +:+ b) = Some O.
Proof. pose proof (prefix_self p b) as H. by destruct (p +:+ b); cbn [str_find]; rewrite H. Qed.

Lemma str_find_skip p a x : String.prefix p (String a x) = false -> str_find p (String a x) = S <$> str_find p x.
Proof. intros H. cbn [str_find]. by rewrite H. Qed.

Lemma str_from_app a b : str_from (String.length a) (a +:+ b) = b.
Proof. induction a; done. Qed.

Lemma str_app_assoc (a b d : string) : (a +:+ b) +:+ d = a +:+ (b +:+ d).
Proof. induction a as [|x a IH]; [done|]. change (String x ((a +:+ b) +:+ d) = String x (a +:+ (b +:+ d))). by rewrite IH. Qed.

(** The marker is not found across a closing brace, which it does not contain. *)
Lemma prefix_before_brace p y z :
  str_find "}" p = None -> String.prefix p (y +:+ "}" +:+ z) = true -> String.prefix p y = true.
Proof.
  revert y. induction p as [|a p IH]; intros y Hp; [by destruct y|].
  assert (Hp' : str_find "}" p = None /\ String a "" <> "}"%string).
  { cbn [str_find] in Hp. destruct (String.prefix "}" (String a p)) eqn:Hb; [done|].
    destruct (str_find "}" p); [done|]. split; [done|]. intros [= ->]. by destruct p. }
  destruct Hp' as [Hp' Ha]. destruct y as [|b y]; simpl.
  - destruct (Ascii.ascii_dec a _) as [->|]; done.
  - destruct (Ascii.ascii_dec a b); [|done]. by apply IH.
Qed.

Lemma str_find_marker x b :
  str_find ",counter:" x = None ->
  str_find ",counter:" (x +:+ "}" +:+ (",counter:" +:+ b)) = Some (String.length x + 1)%nat.
Proof.
  set (p := ",counter:"%string). induction x as [|a x IH]; intros Hx.
  - change (S <$> str_find p (p +:+ b) = Some 1%nat). by rewrite str_find_self.
  - cbn [str_find] in Hx. destruct (String.prefix p (String a x)) eqn:Hpre; [done|].
    destruct (str_find p x) eqn:Hf; [done|].
    change (String a x +:+ "}" +:+ (p +:+ b)) with (String a (x +:+ "}" +:+ (p +:+ b))).
    cbn [str_find]. rewrite IH by done.
    destruct (String.prefix p (String a (x +:+ "}" +:+ (p +:+ b)))) eqn:Hpre'; [|reflexivity]. exfalso.
    apply (prefix_before_brace p (String a x) (p +:+ b)) in Hpre'; [congruence|reflexivity].
Qed.

Lemma text_key_split ns json :
  str_find ",counter:" ns = None ->
  str_find ",counter:" (text_key ns json) = Some (String.length ("namespace:{" +:+ ns) + 1)%nat /\
  str_from (String.length ("namespace:{" +:+ ns) + 1 + String.length ",counter:") (text_key ns json) = json.
Proof.
  intros Hns. set (x := ("namespace:{" +:+ ns)%string).
  assert (Hk : text_key ns json = x +:+ "}" +:+ (",counter:" +:+ json)).
  { unfold text_key, x. by rewrite str_app_assoc. }
  rewrite Hk. split.
  - apply str_find_marker. unfold x. lazy beta iota delta [String.append].
    do 11 (rewrite str_find_skip by reflexivity). by rewrite Hns.
  - replace (String.length x + 1 + String.length ",counter:")%nat
      with (String.length (x +:+ "},counter:")).
    + change ("}" +:+ (",counter:" +:+ json)) with ("},counter:" +:+ json).
      rewrite <-str_app_assoc. apply str_from_app.
    + generalize x. intros y. induction y as [|a y IH]; [done|]. simpl in *. lia.
Qed.

Lemma partial_counter_from_text {E} ns json :
  str_find ",counter:" ns = None ->
  partial_counter_from_counter_key (E := E) (text_key ns json) =
    expect_some "Failed to deserialize counter JSON" (counter_from_json json).
Proof.
  intros Hns. destruct (text_key_split ns json Hns) as [Hf Hs]. unfold partial_counter_from_counter_key.
  change (String.prefix "namespace:" (text_key ns json)) with true.
  change (str_find "namespace:" (text_key ns json)) with (Some O). cbn [expect_some outcome_bind str_from].
  rewrite Hf. cbn [expect_some outcome_bind]. by rewrite Nat.add_0_r, Hs.
Qed.

(** C34: the Redis key of a counter without an id leads back to the counter, whatever
    annotations it carries, as long as the name of its namespace does not contain the
    marker the key is cut at; all its qualifiers come back, plain identifiers or not. *)
Theorem redis_key_roundtrip {E} c l :
  counter_of_limit c -> limit_id (ctr_limit c) = None ->
  str_find ",counter:" (counter_namespace c) = None -> limit_eq l (ctr_limit c) = true ->
  exists k, key_for_counter (E := E) c = Ok k /\
    counter_from_counter_key (E := E) k l = Ok (mkCounter l (set_variables c) None None).
Proof.
  intros (Hwf & Hre & _) Hid Hns Hl. unfold key_for_counter, counter_id. rewrite Hid.
  eexists. split; [done|]. unfold counter_from_counter_key. rewrite partial_counter_from_text by done.
  assert (Hjson : counter_from_json
            (if bool_decide (is_Some (remaining c)) || bool_decide (is_Some (expires_in c))
             then counter_to_json (key c) else counter_to_json c) =
          Some (mkCounter (limit_skeleton (ctr_limit c)) (set_variables c) None None)).
  { destruct (bool_decide (is_Some (remaining c)) || _) eqn:Hb; [by apply (counter_json_roundtrip (key c))|].
    apply orb_false_iff in Hb as [Hr%bool_decide_eq_false He%bool_decide_eq_false].
    rewrite counter_json_roundtrip by done.
    apply eq_None_not_Some in Hr, He. by rewrite Hr, He. }
  rewrite Hjson. cbn [expect_some outcome_bind]. unfold update_to_limit. cbn [ctr_limit].
  change (limit_eq l (limit_skeleton (ctr_limit c))) with (limit_eq l (ctr_limit c)). by rewrite Hl.
Qed.

Lemma binary_key_not_text n rest :
  0 <= n < 256 -> n <> 110 -> String.prefix "namespace:" (pc_u8 n +:+ rest) = false.
Proof.
  intros Hn Hne. destruct (pc_u8_byte n Hn) as (a & -> & Ha).
  change (String a "" +:+ rest) with (String a rest). cbn [String.prefix].
  match goal with |- context [Ascii.ascii_dec ?x a] => destruct (Ascii.ascii_dec x a) as [<-|]; [|done] end.
  exfalso. apply Hne. by rewrite <-Ha.
Qed.

(** The Redis key of a counter whose limit has an id cannot be read back: it holds
    the id and the qualifiers only, the limit rebuilt from it is in the namespace
    with the empty name, and listing the counters of the limit panics. *)
Theorem redis_id_key_panics {E} c l :
  counter_of_limit c -> is_Some (limit_id (ctr_limit c)) -> counter_namespace c <> ""%string ->
  limit_eq l (ctr_limit c) = true ->
  exists k, key_for_counter (E := E) c = Ok k /\
    counter_from_counter_key (E := E) k l =
      Panic "Failed to rebuild Counter's Limit from the provided Limit".
Proof.
  intros (_ & Hre & Hd) [id Hid] Hns Hl. unfold key_for_counter, key_for_counter_v2, id_counter_key_of, counter_id.
  rewrite Hid. cbn [expect_some outcome_bind]. eexists. split; [done|].
  unfold counter_from_counter_key, partial_counter_from_counter_key.
  rewrite binary_key_not_text by lia. unfold partial_counter_from_counter_key_v2.
  rewrite pc_take_u8_u8 by lia. cbn [expect_some outcome_bind Z.eqb Pos.eqb].
  rewrite pc_id_counter_key_roundtrip. cbn [expect_some outcome_bind ik_variables ik_id].
  rewrite variables_for_key_map.
  destruct (parse_variables_run (E := E) _ _ Hre Hd) as (vars & -> & _). cbn [outcome_bind].
  unfold resolved_vars. cbn [outcome_bind]. unfold update_to_limit. cbn [ctr_limit].
  replace (limit_eq l (limit_with_id id "" 0 0 [] vars)) with false; [done|].
  symmetry. apply not_true_iff_false. intros Heq. apply Hns.
  apply limit_eq_key, limit_key_namespace in Hl, Heq. unfold counter_namespace. by rewrite <-Hl, Heq.
Qed.
End redis_keys.

(** ** Examples: codecs that obey the laws *)

(** A value as a string of binary digits, closed by a dot. *)
Fixpoint bits_of (p : positive) : string :=
  match p with
  | xH => "."
  | xO p => "0" +:+ bits_of p
  | xI p => "1" +:+ bits_of p
  end.

Fixpoint bits_read (s : string) : option (positive * string) :=
  match s with
  | EmptyString => None
  | String a s =>
      if bool_decide (String a "" = "."%string) then Some (xH, s)
      else '(p, s) ← bits_read s;
           Some ((if bool_decide (String a "" = "0"%string) then xO p else xI p), s)
  end.

Definition enc {A} `{Countable A} (x : A) : string := bits_of (encode x).

Definition dec {A} `{Countable A} (s : string) : option (A * string) :=
  '(p, rest) ← bits_read s; x ← decode p; Some (x, rest).

Lemma bits_read_of p rest : bits_read (bits_of p +:+ rest) = Some (p, rest).
Proof.
  induction p as [p IH|p IH|]; [| |done].
  - change (bits_read (bits_of p~1 +:+ rest))
      with ('(q, s) ← bits_read (bits_of p +:+ rest); Some (xI q, s)). by rewrite IH.
  - change (bits_read (bits_of p~0 +:+ rest))
      with ('(q, s) ← bits_read (bits_of p +:+ rest); Some (xO q, s)). by rewrite IH.
Qed.

Lemma dec_enc {A} `{Countable A} (x : A) rest : dec (enc x +:+ rest) = Some (x, rest).
Proof. unfold dec, enc. rewrite bits_read_of. simpl. by rewrite decode_encode. Qed.

Lemma str_app_nil (s : string) : s +:+ "" = s.
Proof. induction s as [|a s IH]; [done|]. change (String a (s +:+ "") = String a s). by rewrite IH. Qed.

Definition demo_postcard : Postcard := {|
  pc_u8 n := String (Ascii.ascii_of_N (Z.to_N n)) "";
  pc_take_u8 s := match s with
                  | EmptyString => None
                  | String a s => Some (Z.of_N (Ascii.N_of_ascii a), s)
                  end;
  pc_string s := enc s;
  pc_counter_key k := enc (bk_ns k) +:+ enc (bk_seconds k, bk_conditions k, bk_variables k);
  pc_counter_key_from s :=
    '(ns, s) ← dec s;
    '((secs, conds, vars), s) ← dec (A := Z * list string * list (string * string)) s;
    Some (mkBinKey ns secs conds vars);
  pc_id_counter_key k := enc (ik_id k, ik_variables k);
  pc_id_counter_key_from s :=
    '((id, vars), s) ← dec (A := string * list (string * string)) s; Some (mkIdKey id vars);
  pc_id_limit_key id := enc id
|}.

Lemma demo_postcard_laws : PostcardLaws (PC := demo_postcard).
Proof.
  assert (Hascii : forall n, 0 <= n < 256 ->
            Z.of_N (Ascii.N_of_ascii (Ascii.ascii_of_N (Z.to_N n))) = n).
  { intros n Hn. rewrite Ascii.N_ascii_embedding by lia. lia. }
  split.
  - intros n rest Hn. simpl. by rewrite Hascii.
  - intros n Hn. simpl. eexists. split; [done|]. by apply Hascii.
  - intros [ns secs conds vars]. unfold pc_counter_key_from, pc_counter_key, demo_postcard. cbn [bk_ns bk_seconds bk_conditions bk_variables].
    rewrite dec_enc. cbn [mbind option_bind]. rewrite <-(str_app_nil (enc (secs, conds, vars))), dec_enc. done.
  - intros [id vars]. unfold pc_id_counter_key_from, pc_id_counter_key, demo_postcard. cbn [ik_id ik_variables].
    rewrite <-(str_app_nil (enc (id, vars))), dec_enc. done.
  - intros k. by eexists.
Qed.

(** What JSON keeps of a counter. *)
Abbreviation JsonCounter :=
  (string * Z * list string * list string * gmap string string * option Z * option Z)%type.

Definition outcome_option {E A} (o : Outcome E A) : option A := match o with Ok a => Some a | _ => None end.

Definition demo_serde_json `{CE : CelEngine} : SerdeJson := {|
  counter_to_json c :=
    enc (namespace (ctr_limit c), seconds (ctr_limit c), predicate_source <$> conditions (ctr_limit c),
         source <$> variables (ctr_limit c), set_variables c, remaining c, expires_in c);
  counter_from_json s :=
    '((ns, secs, conds, vars, m, r, e), _) ← dec (A := JsonCounter) s;
    Some (mkCounter (mkLimit None ns 0 secs None
                       (omap (fun s => outcome_option (predicate_parse s)) conds)
                       (omap (fun s => outcome_option (expression_parse s)) vars)) m r e);
  limit_to_json l := enc (namespace l, seconds l, predicate_source <$> conditions l, source <$> variables l)
|}.

Lemma omap_fmap_id {A} (f : string -> option A) (g : A -> string) (l : list A) :
  Forall (fun x => f (g x) = Some x) l -> omap f (g <$> l) = l.
Proof.
  induction 1 as [|x l Hx _ IH]; [done|]. transitivity (x :: omap f (g <$> l)); [|by rewrite IH].
  rewrite fmap_cons. change (omap f (g x :: (g <$> l))) with
    (match f (g x) with Some y => y :: omap f (g <$> l) | None => omap f (g <$> l) end).
  by rewrite Hx.
Qed.

Lemma demo_serde_json_laws `{CE : CelEngine} : SerdeJsonLaws (SJ := demo_serde_json).
Proof.
  split. intros c [Hp He]. unfold counter_from_json, counter_to_json, demo_serde_json.
  rewrite <-(str_app_nil (enc _)), dec_enc. cbn [mbind option_bind]. unfold limit_skeleton.
  rewrite (omap_fmap_id _ predicate_source (conditions (ctr_limit c))),
    (omap_fmap_id _ source (variables (ctr_limit c))); [done|..].
  - eapply Forall_impl; [exact He|]. intros e Hx. simpl. by rewrite Hx.
  - eapply Forall_impl; [exact Hp|]. intros e Hx. simpl. by rewrite Hx.
Qed.

#[local] Existing Instance demo_engine.
#[local] Existing Instance demo_hash_order.
#[local] Existing Instance demo_postcard.
#[local] Existing Instance demo_postcard_laws.

Lemma demo_counter_of_limit : counter_of_limit demo_counter.
Proof.
  split_and!; [apply limit_new_wf; vm_compute; split; discriminate| |vm_compute; reflexivity].
  split; (apply Forall_singleton; vm_refl).
Qed.

Definition demo_id_counter : Counter :=
  mkCounter (limit_with_id "id" "ns" 10 60 [] [demo_expr "user"]) {["user" := "bob"]}%string None None.

Lemma demo_id_counter_of_limit : counter_of_limit demo_id_counter.
Proof.
  split_and!; [|split; [by constructor|apply Forall_singleton; vm_refl]|vm_compute; reflexivity].
  split_and!; [constructor|repeat constructor|vm_compute; split; discriminate..].
Qed.

Lemma demo_plain_variables : plain_variables (ctr_limit demo_counter).
Proof. apply Forall_singleton. vm_compute. set_solver. Qed.

Lemma disk_key_roundtrip_witness :
  exists c', bin_partial_counter_from_counter_key (E := unit) (bin_key_for_counter demo_counter) = Ok c' /\
    counter_eq c' demo_counter = true.
Proof.
  destruct (disk_key_roundtrip (E := unit) demo_counter demo_counter) as (_ & _ & Hr).
  - apply demo_counter_of_limit.
  - apply demo_counter_of_limit.
  - apply Hr. apply demo_plain_variables.
Defined.

#[local] Existing Instance demo_serde_json.
#[local] Existing Instance demo_serde_json_laws.

Lemma redis_key_roundtrip_witness :
  exists k, key_for_counter (E := unit) (set_remaining demo_counter 3) = Ok k /\
    counter_from_counter_key (E := unit) k demo_limit =
      Ok (mkCounter demo_limit {["user" := "bob"]}%string None None).
Proof.
  apply (redis_key_roundtrip (E := unit) (set_remaining demo_counter 3) demo_limit).
  - apply demo_counter_of_limit.
  - reflexivity.
  - reflexivity.
  - vm_compute. reflexivity.
Defined.

Lemma redis_id_key_panics_witness :
  exists k, key_for_counter (E := unit) demo_id_counter = Ok k /\
    counter_from_counter_key (E := unit) k (ctr_limit demo_id_counter) =
      Panic "Failed to rebuild Counter's Limit from the provided Limit".
Proof.
  apply (redis_id_key_panics (E := unit) demo_id_counter (ctr_limit demo_id_counter)).
  - apply demo_id_counter_of_limit.
  - by eexists.
  - done.
  - vm_compute. reflexivity.
Defined.
