(* ===== verification/Disk.v ===== *)
(** * The disk storage: [storage/disk/rocksdb_storage.rs]

    Counters are records of [ExpiringValue.v] in RocksDB, under the binary keys
    of [Keys.v]; reservations are held in process, as in memory.  RocksDB is a
    parameter: what it stores for a key is a base record and the operands still
    to be merged into it, and it may run the merge operator when it reads a key
    or when it writes one. *)

From S2P Require Import Prelude Cel Errors Limit Counter Reservation Storage Moka.
From S2P Require Import LocalReservations AtomicExpiringValue StorageSpec ExpiringValue Keys.

(** A database opened with the merge operator of [RocksDbStorage::open]; a call gets
    the time the operator reads if it runs during the call. *)
Class RocksDb : Type := {
  rdb : Type;
  rdb_open : rdb;
  rdb_get : rdb -> SystemTime -> string -> Outcome StorageErr (option Bytes);
  rdb_merge : rdb -> SystemTime -> string -> Bytes -> Outcome StorageErr rdb;
  rdb_delete : rdb -> SystemTime -> string -> Outcome StorageErr rdb;
  rdb_prefix_iterator : rdb -> SystemTime -> string -> list (Outcome StorageErr (string * Bytes));
  rdb_iterator : rdb -> SystemTime -> list (Outcome StorageErr (string * Bytes))
}.

Section rocksdb.
Context {CE : CelEngine} {HO : HashOrder} {MC : MokaCache} {PC : Postcard} {RD : RocksDb}.

Record RocksDbStorage : Type := mkRocksDb {
  db : rdb;
  disk_reservations : LocalReservationRegistry
}.

Abbreviation DM A := (M RocksDbStorage StorageErr A).

Definition disk_open : RocksDbStorage := mkRocksDb rdb_open (registry_new 10000).

(** ** Calls into RocksDB *)

Definition db_get (k : string) : DM (option Bytes) :=
  let* s := get in let* t := now in lift (rdb_get (db s) t k).

Definition db_merge (k : string) (v : Bytes) : DM unit :=
  let* s := get in let* t := now in
  let* d := lift (rdb_merge (db s) t k v) in
  put (mkRocksDb d (disk_reservations s)).

Definition db_delete (k : string) : DM unit :=
  let* s := get in let* t := now in
  let* d := lift (rdb_delete (db s) t k) in
  put (mkRocksDb d (disk_reservations s)).

(** ** [impl CounterStorage for RocksDbStorage] *)

Definition insert_or_update (k : string) (c : Counter) (delta : Z) : DM ExpiringValue :=
  let* t := now in
  let* entry := db_get k in
  let* value := match entry with
                | None => ret ev_default
                | Some raw => lift (ev_try_from raw)
                end in
  if u64_add (ev_value_at value t) delta <=? max_value c then
    let* exp := lift (systime_add t (from_secs (seconds (ctr_limit c)))) in
    let* raw := lift (ev_into_bytes (ev_new delta exp)) in
    db_merge k raw ;;;
    lift (ev_update value delta (window c) t)
  else ret value.

Definition is_within_limits (c : Counter) (delta : Z) : DM bool :=
  let* value := insert_or_update (bin_key_for_counter c) c 0 in
  let* v := ev_value_now value in
  ret (u64_add v delta <=? max_value c).

Definition add_counter (l : Limit) : DM unit := ret tt.

Definition update_counter (c : Counter) (delta : Z) : DM unit :=
  insert_or_update (bin_key_for_counter c) c delta ;;; ret tt.

(** Value and ttl of a counter's record; a window that is over counts as a fresh one. *)
Definition read_entry (c : Counter) (entry : option Bytes) : DM (Z * Duration) :=
  match entry with
  | None => ret (0, from_secs (seconds (ctr_limit c)))
  | Some raw =>
      let* value := lift (ev_try_from raw) in
      let* ttl := ev_ttl value in
      let ttl := if ttl =? 0 then from_secs (seconds (ctr_limit c)) else ttl in
      let* v := ev_value_now value in
      ret (v, ttl)
  end.

(** The loop of [evaluate]: annotated counters, the first one limited, the keys. *)
Fixpoint evaluate_loop (delta : Z) (first_limited : option Authorization) (cs : list Counter)
    : DM (list Counter * option Authorization * list string) :=
  match cs with
  | [] => ret ([], first_limited, [])
  | c :: cs =>
      let k := bin_key_for_counter c in
      let* entry := db_get k in
      let* '(val, ttl) := read_entry c entry in
      let c := set_remaining (set_expires_in c ttl) (u64_saturating_sub (max_value c) val) in
      let first_limited :=
        match first_limited with
        | None => if max_value c <? u64_add val delta then Some (AuthLimited (limit_name (ctr_limit c)))
                  else None
        | Some a => Some a
        end in
      let* '(cs, first_limited, ks) := evaluate_loop delta first_limited cs in
      ret (c :: cs, first_limited, k :: ks)
  end.

Definition evaluate (cs : list Counter) (delta : Z) : DM (list Counter * Authorization * list string) :=
  let* '(cs, first_limited, ks) := evaluate_loop delta None cs in
  ret (cs, default AuthOk first_limited, ks).

Definition check (cs : list Counter) (delta : Z) : DM (list Counter * Authorization) :=
  let* '(cs, auth, _) := evaluate cs delta in ret (cs, auth).

Definition check_and_update (cs : list Counter) (delta : Z) : DM (list Counter * Authorization) :=
  let* '(cs, auth, ks) := evaluate cs delta in
  match auth with
  | AuthOk => for_each (fun kc => insert_or_update kc.1 kc.2 delta ;;; ret tt) (zip ks cs)
  | AuthLimited _ => ret tt
  end ;;;
  ret (cs, auth).

(** [for limit in limits { if limit == counter.limit() { ..; break } }] *)
Definition annotate_from (limits : LimitSet) (c : Counter) (value : ExpiringValue) : DM Counter :=
  match List.find (fun l => limit_eq l (ctr_limit c)) (hash_iter limits).*2 with
  | None => ret c
  | Some l =>
      let c := (update_to_limit c l).2 in
      let* ttl := ev_ttl value in
      let c := set_expires_in c ttl in
      let* v := ev_value_now value in
      ret (set_remaining c (u64_saturating_sub (limit_max_value l) v))
  end.

(** The [loop] over the entries from the prefix of [ns] on. *)
Fixpoint get_counters_loop (limits : LimitSet) (ns : string) (counters : CounterSet)
    (entries : list (Outcome StorageErr (string * Bytes))) : DM CounterSet :=
  match entries with
  | [] => ret counters
  | entry :: entries =>
      let* '(k, raw) := lift entry in
      let* c := lift (bin_partial_counter_from_counter_key k) in
      if negb (bool_decide (counter_namespace c = ns)) then ret counters
      else
        let* value := lift (ev_try_from raw) in
        let* c := annotate_from limits c value in
        match expires_in c with
        | None => lift (Panic "Duration needs to be set")
        | Some d =>
            get_counters_loop limits ns
              (if d >? 0 then (set_insert counter_key c counters).2 else counters) entries
        end
  end.

Definition get_counters (limits : LimitSet) : DM CounterSet :=
  let namespaces := btree_collect (fun s => s) (namespace <$> (hash_iter limits).*2) in
  foldM (fun counters ns =>
      let* s := get in let* t := now in
      get_counters_loop limits ns counters (rdb_prefix_iterator (db s) t (prefix_for_namespace ns)))
    ∅ namespaces.

Definition delete_counters (limits : LimitSet) : DM unit :=
  let* counters := get_counters limits in
  for_each (fun c => db_delete (bin_key_for_counter c)) (hash_iter counters).*2.

Definition clear : DM unit :=
  let* s := get in let* t := now in
  for_each (fun entry => let* '(k, _) := lift entry in db_delete k) (rdb_iterator (db s) t).

Definition reserve (cs : list Counter) (id : ReservationId) (check_amount hold_amount : Z)
    (ttl : Duration) : DM (list Counter * Authorization) :=
  let* t := now in
  let* values := mapM (fun c =>
      let* value := insert_or_update (bin_key_for_counter c) c 0 in
      let* v := ev_value_now value in
      let* d := ev_ttl value in
      ret (v, d)) cs in
  let* s := get in
  let* '(cs, auth, r) := lift (LocalReservations.reserve (disk_reservations s) cs values
                                 (mkRequest id check_amount hold_amount ttl t)) in
  put (mkRocksDb (db s) r) ;;;
  ret (cs, auth).

Definition release_reservation (cs : list Counter) (id : ReservationId) : DM bool :=
  let* s := get in
  let '(released, r) := release (disk_reservations s) cs id in
  put (mkRocksDb (db s) r) ;;;
  ret released.

#[global] Instance rocksdb_counter_storage : CounterStorage RocksDbStorage := {
  cs_is_within_limits := is_within_limits;
  cs_add_counter := add_counter;
  cs_update_counter := update_counter;
  cs_check := check;
  cs_check_and_update := check_and_update;
  cs_get_counters := get_counters;
  cs_delete_counters := delete_counters;
  cs_clear := clear;
  cs_reserve := reserve;
  cs_release_reservation := release_reservation
}.
End rocksdb.
