(* ===== verification/DiskSpec.v ===== *)
(** * What the disk storage does, over any RocksDB that keeps its promises *)

From S2P Require Import Prelude Cel Errors Limit Counter Reservation Storage Moka.
From S2P Require Import LocalReservations AtomicExpiringValue StorageSpec ExpiringValue Keys.
From S2P Require Import Disk.

(** RocksDB's contract: reading a key applies the pending operands to the base record;
    merging keeps the new operand pending, or combines everything there is at once.
    (Device errors are left out.) *)
Class RocksDbLaws `{RD : RocksDb} : Type := {
  rdb_records : rdb -> string -> option Bytes * list Bytes;
  rdb_open_records : forall k, rdb_records rdb_open k = (None, []);
  rdb_get_spec : forall d t k,
    rdb_get d t k = match rdb_records d k with
                    | (base, []) => Ok base
                    | (base, ops) => outcome_map Some (merge_operator t base ops)
                    end;
  rdb_merge_spec : forall d t k v base ops, rdb_records d k = (base, ops) ->
    (exists b, merge_operator (E := StorageErr) t base (ops ++ [v]) = Ok b) ->
    exists d', rdb_merge d t k v = Ok d' /\
      (forall k', k' <> k -> rdb_records d' k' = rdb_records d k') /\
      (rdb_records d' k = (base, ops ++ [v]) \/
       exists b, merge_operator (E := StorageErr) t base (ops ++ [v]) = Ok b /\
                 rdb_records d' k = (Some b, []))
}.

Section disk_spec.
Context {CE : CelEngine} {HO : HashOrder} {MC : MokaCache} {PC : Postcard} {PL : PostcardLaws}
  {RD : RocksDb} {RL : RocksDbLaws}.
Implicit Types (c : Counter) (d : rdb) (t : SystemTime) (s : RocksDbStorage).

(** Every record of the database is an encoded value. *)
Definition records_ok d : Prop :=
  forall k, exists base ops, rdb_records d k = (encoded <$> base, encoded <$> ops) /\
    (forall v, base = Some v -> ev_wf v) /\ Forall ev_wf ops.

(** What the database counts under a key at [t]. *)
Definition disk_value d t (k : string) : Z :=
  match rdb_get d t k with
  | Ok (Some raw) => match ev_try_from (E := unit) raw with Ok v => ev_value_at v t | _ => 0 end
  | _ => 0
  end.

(** ** Lemmas: the database *)

Lemma get_run d t k :
  records_ok d -> exists o, rdb_get d t k = Ok (encoded <$> o) /\ (forall v, o = Some v -> ev_wf v) /\
    disk_value d t k = ev_value_at (default ev_default (stored <$> o)) t.
Proof.
  intros Hd. destruct (Hd k) as (base & ops & Hr & Hb & Ho).
  assert (exists o, rdb_get d t k = Ok (encoded <$> o) /\ (forall v, o = Some v -> ev_wf v)) as (o & Hg & Hw).
  { rewrite rdb_get_spec, Hr. destruct ops as [|v ops]; [by exists base|].
    exists (Some (merged t base (v :: ops))). change (encoded <$> v :: ops) with (encoded v :: (encoded <$> ops)).
    cbn iota. change (encoded v :: (encoded <$> ops)) with (encoded <$> v :: ops).
    rewrite merge_operator_run by done. split; [done|]. intros x [= <-]. by apply merged_wf. }
  exists o. split_and!; [done|done|]. unfold disk_value. rewrite Hg. destruct o as [v|].
  - cbn [fmap option_fmap option_map default]. by rewrite ev_try_from_encoded by (by apply Hw).
  - cbn [fmap option_fmap option_map default]. unfold ev_value_at, ev_default. simpl. by case_match.
Qed.

Lemma disk_value_u64 d t k : records_ok d -> in_u64 (disk_value d t k).
Proof.
  intros Hd. destruct (get_run d t k Hd) as (o & _ & Hw & ->).
  assert (Hv : in_u64 (ev_value (default ev_default (stored <$> o)))).
  { destruct o as [v|]; simpl; [by apply (Hw v)|vm_compute; split; discriminate]. }
  unfold ev_value_at. case_match; [vm_compute; split; discriminate|done].
Qed.

Lemma merge_run d t k o v :
  records_ok d -> ev_wf v -> rdb_get d t k = Ok (encoded <$> o) -> (forall x, o = Some x -> ev_wf x) ->
  exists d' x, rdb_merge d t k (encoded v) = Ok d' /\ records_ok d' /\ ev_wf x /\
    rdb_get d' t k = Ok (Some (encoded x)) /\
    stored x = ev_merge (default ev_default (stored <$> o)) (stored v) t /\
    (forall k', k' <> k -> rdb_get d' t k' = rdb_get d t k').
Proof.
  intros Hd Hv Hg Hw. destruct (Hd k) as (base & ops & Hr & Hb & Ho).
  set (x := merged t base (ops ++ [v])).
  assert (Hops : Forall ev_wf (ops ++ [v])) by (apply Forall_app_2; [done|by apply Forall_singleton]).
  assert (Hx : ev_wf x) by (by apply merged_wf).
  assert (Hm : merge_operator (E := StorageErr) t (encoded <$> base) ((encoded <$> ops) ++ [encoded v]) = Ok (encoded x)).
  { change [encoded v] with (encoded <$> [v]). rewrite <-fmap_app. by apply merge_operator_run. }
  destruct (rdb_merge_spec d t k (encoded v) _ _ Hr) as (d' & Hd' & Hother & Hself); [by eexists|].
  assert (Hget : rdb_get d' t k = Ok (Some (encoded x))).
  { rewrite rdb_get_spec. destruct Hself as [-> |(b & Hb' & ->)]; [|by rewrite Hm in Hb'; injection Hb' as <-].
    destruct ((encoded <$> ops) ++ [encoded v]) eqn:Hn; [by destruct ops|]. rewrite Hm. done. }
  exists d', x. split_and!; [done| |done|done| |].
  - intros k'. destruct (decide (k' = k)) as [->|Hne]; [|rewrite Hother by done; apply Hd].
    destruct Hself as [-> |(b & Hb' & ->)].
    + exists base, (ops ++ [v]). rewrite fmap_app. done.
    + exists (Some x), []. rewrite Hm in Hb'. injection Hb' as <-. split_and!; [done| |by constructor].
      by intros ? [= <-].
  - unfold x. rewrite merged_stored.
    assert (Ho' : default ev_default (stored <$> o) = merged t base ops).
    { rewrite rdb_get_spec, Hr in Hg. destruct ops as [|y ops].
      - unfold merged. simpl. destruct base as [b|], o as [o|]; try done.
        simpl. symmetry. apply encoded_stored; [auto..|]. change (Ok (E := StorageErr) (Some (encoded b)) = Ok (Some (encoded o))) in Hg. congruence.
      - change (encoded <$> y :: ops) with (encoded y :: (encoded <$> ops)) in Hg. cbn iota in Hg.
        change (encoded y :: (encoded <$> ops)) with (encoded <$> y :: ops) in Hg.
        rewrite merge_operator_run in Hg by done. destruct o as [o|]; [|done].
        cbn [fmap option_fmap option_map default]. rewrite <-merged_stored.
        apply encoded_stored; [auto using merged_wf..|].
        cbn [outcome_map outcome_bind fmap option_fmap option_map] in Hg. congruence. }
    rewrite Ho'. unfold merged. by rewrite foldl_app.
  - intros k' Hne. by rewrite !rdb_get_spec, Hother.
Qed.

(** ** Lemmas: the operations *)

(** A fresh window of a counter, cut to whole seconds, is still open. *)
Lemma fresh_window_open t c :
  counter_ok t c -> t < whole_seconds (t + window c) /\ 0 <= t + window c <= systime_max.
Proof.
  intros (_ & Hs & (Ht & _) & _ & Hu). unfold window, from_secs in *.
  pose proof (whole_seconds_bounds (t + seconds (ctr_limit c) * nanos_per_sec)).
  assert (as_micros t + as_micros (seconds (ctr_limit c) * nanos_per_sec) <= u64_max) as Hu' by done.
  unfold as_micros, u64_max, systime_max, nanos_per_sec in *.
  pose proof (Z.div_mod t 1000). pose proof (Z.mod_pos_bound t 1000).
  replace (seconds (ctr_limit c) * 1000000000) with (seconds (ctr_limit c) * 1000000 * 1000) in Hu' by lia.
  rewrite Z.div_mul in Hu' by lia. lia.
Qed.

Lemma db_get_run t s k o : rdb_get (db s) t k = o -> runs t s (db_get k) o s.
Proof. intros <-. unfold db_get. do 2 runs_step. auto with runs. Qed.

Lemma db_merge_run t s k v d' :
  rdb_merge (db s) t k v = Ok d' -> runs t s (db_merge k v) (Ok tt) (mkRocksDb d' (disk_reservations s)).
Proof.
  intros Hm. unfold db_merge. do 2 runs_step. rewrite Hm. runs_step. auto with runs.
Qed.

Lemma ev_value_now_run t s v : runs t s (ev_value_now (E := StorageErr) v) (Ok (ev_value_at v t)) s.
Proof. unfold ev_value_now. runs_step. auto with runs. Qed.

Lemma ev_ttl_run t s v : runs t s (ev_ttl (E := StorageErr) v) (Ok (default 0 (duration_since (ev_expiry v) t))) s.
Proof. unfold ev_ttl. runs_step. auto with runs. Qed.

Lemma ev_update_run {E} v delta w t :
  t + w <= systime_max -> exists v', ev_update (E := E) v delta w t = Ok v'.
Proof.
  intros Hw. unfold ev_update, systime_add. destruct (ev_expiry v <=? t); [|by eexists].
  destruct (Z.leb_spec (t + w) systime_max); [by eexists|lia].
Qed.

(** The value read by [insert_or_update] and [evaluate]. *)
Lemma read_value_run t s (o : option ExpiringValue) :
  (forall v, o = Some v -> ev_wf v) ->
  runs t s (match encoded <$> o with
            | None => ret ev_default
            | Some raw => lift (ev_try_from (E := StorageErr) raw)
            end) (Ok (default ev_default (stored <$> o))) s.
Proof.
  intros Hw. destruct o as [v|]; cbn [fmap option_fmap option_map default]; [|auto with runs].
  rewrite ev_try_from_encoded by auto. auto with runs.
Qed.

(** The record written for a hit counts as the hit: on top of an open window, or alone. *)
Lemma merged_hit x t w delta :
  t < whole_seconds w -> in_u64 delta ->
  ev_value_at (ev_merge x (stored (mkExpiring delta w)) t) t = u64_add (ev_value_at x t) delta.
Proof.
  intros Hw [Hd0 Hd1]. unfold ev_merge, ev_value_at at 2. destruct (Z.gtb_spec (ev_expiry x) t).
  - destruct (Z.leb_spec (ev_expiry x) t); [lia|]. unfold ev_value_at. simpl.
    by destruct (Z.leb_spec (ev_expiry x) t); [lia|].
  - destruct (Z.leb_spec (ev_expiry x) t); [|lia]. unfold ev_value_at. simpl.
    destruct (Z.leb_spec (whole_seconds w) t); [lia|]. rewrite u64_add_small; lia.
Qed.

(** What one hit does: counted if it fits, dropped if it does not. *)
Lemma insert_or_update_run t s k c delta :
  records_ok (db s) -> counter_ok t c -> in_u64 delta ->
  let v := disk_value (db s) t k in
  exists x d', runs t s (insert_or_update k c delta) (Ok x) (mkRocksDb d' (disk_reservations s)) /\
    records_ok d' /\
    disk_value d' t k = (if u64_add v delta <=? max_value c then u64_add v delta else v) /\
    (forall k', k' <> k -> disk_value d' t k' = disk_value (db s) t k').
Proof.
  intros Hd Hc Hdelta v. destruct (fresh_window_open t c Hc) as [Hopen [Hw0 Hw1]].
  destruct (get_run (db s) t k Hd) as (o & Hg & Hw & Hv). fold v in Hv.
  set (x0 := default ev_default (stored <$> o)) in *.
  destruct (u64_add v delta <=? max_value c) eqn:Hfit.
  - assert (Hnew : ev_wf (mkExpiring delta (t + window c))) by (by split).
    destruct (merge_run (db s) t k o _ Hd Hnew Hg Hw) as (d' & x & Hm & Hd' & Hx & Hg' & Hst & Hother).
    destruct (ev_update_run (E := StorageErr) x0 delta (window c) t Hw1) as [x' Hup].
    exists x', d'. split_and!; [|done| |].
    + unfold insert_or_update. runs_step. eapply runs_bind; [by apply db_get_run|].
      eapply runs_bind; [by apply read_value_run|]. fold x0. rewrite <-Hv, Hfit.
      unfold systime_add. change (from_secs (seconds (ctr_limit c))) with (window c).
      destruct (Z.leb_spec (t + window c) systime_max); [|lia]. runs_step.
      unfold ev_new. rewrite ev_into_bytes_wf by done. runs_step.
      eapply runs_bind; [by apply db_merge_run|]. rewrite Hup. auto with runs.
    + unfold disk_value. rewrite Hg', ev_try_from_encoded, Hst by done.
      rewrite merged_hit by done. unfold x0 in *. by rewrite <-Hv.
    + intros k' Hne. unfold disk_value. by rewrite Hother.
  - exists x0, (db s). split_and!; [|done|done|done].
    destruct s as [d r]. unfold insert_or_update. runs_step. eapply runs_bind; [by apply db_get_run|].
    eapply runs_bind; [by apply read_value_run|]. fold x0. rewrite <-Hv, Hfit. auto with runs.
Qed.

(** On disk a hit is counted only if it keeps the counter within its limit: the
    unconditional update that reports usage counts all of it or, when it would pass
    the maximum, silently nothing; no other counter changes. *)
Theorem disk_update_counter_spec t s c delta :
  records_ok (db s) -> counter_ok t c -> in_u64 delta ->
  let k := bin_key_for_counter c in
  let v := disk_value (db s) t k in
  v + delta <= u64_max ->
  exists s', runs t s (update_counter c delta) (Ok tt) s' /\ records_ok (db s') /\
    disk_value (db s') t k = (if v + delta <=? max_value c then v + delta else v) /\
    (forall k', k' <> k -> disk_value (db s') t k' = disk_value (db s) t k').
Proof.
  intros Hd Hc Hdelta k v Hsum. pose proof (disk_value_u64 (db s) t k Hd) as [Hv _]. fold v in Hv.
  assert (Hadd : u64_add v delta = v + delta) by (apply u64_add_small; destruct Hdelta; lia).
  destruct (insert_or_update_run t s k c delta Hd Hc Hdelta) as (x & d' & Hr & Hd' & Hk & Ho).
  eexists. split_and!; [unfold update_counter; eapply runs_bind; [done|auto with runs]|done| |done].
  fold v in Hk. by rewrite Hadd in Hk.
Qed.

(** ** Lemmas: checking and updating *)

(** [c'] is [c] annotated with what the database leaves of it. *)
Definition disk_annotates d t c c' : Prop :=
  ctr_limit c' = ctr_limit c /\ set_variables c' = set_variables c /\
  remaining c' = Some (u64_saturating_sub (max_value c) (disk_value d t (bin_key_for_counter c))) /\
  exists e, expires_in c' = Some e /\ 0 < e.

Definition disk_over d t delta c : bool := max_value c <? u64_add (disk_value d t (bin_key_for_counter c)) delta.

Lemma disk_annotates_key d t c c' :
  disk_annotates d t c c' -> bin_key_for_counter c' = bin_key_for_counter c.
Proof.
  intros (Hl & Hv & _). unfold bin_key_for_counter, bin_key_of, variables_for_key, counter_namespace, window.
  by rewrite Hl, Hv.
Qed.

Lemma read_entry_run t s c o :
  (forall v, o = Some v -> ev_wf v) -> 0 < seconds (ctr_limit c) ->
  exists e, 0 < e /\
  runs t s (read_entry c (encoded <$> o)) (Ok (ev_value_at (default ev_default (stored <$> o)) t, e)) s.
Proof.
  intros Hw Hs. assert (Hpos : 0 < from_secs (seconds (ctr_limit c))) by (unfold from_secs, nanos_per_sec; lia).
  destruct o as [v|]; cbn [fmap option_fmap option_map default read_entry].
  - rewrite ev_try_from_encoded by auto. set (ttl := default 0 (duration_since (ev_expiry (stored v)) t)).
    exists (if ttl =? 0 then from_secs (seconds (ctr_limit c)) else ttl). split.
    + destruct (Z.eqb_spec ttl 0); [done|]. unfold ttl, duration_since in *.
      destruct (Z.leb_spec t (ev_expiry (stored v))); simpl in *; lia.
    + runs_step. eapply runs_bind; [apply ev_ttl_run|]. eapply runs_bind; [apply ev_value_now_run|].
      auto with runs.
  - exists (from_secs (seconds (ctr_limit c))). split; [done|].
    replace (ev_value_at ev_default t) with 0; [auto with runs|]. unfold ev_value_at. simpl. by case_match.
Qed.

Lemma evaluate_loop_run t s delta fl cs :
  records_ok (db s) -> Forall (counter_ok t) cs ->
  exists cs', Forall2 (disk_annotates (db s) t) cs cs' /\
  runs t s (evaluate_loop delta fl cs)
    (Ok (cs', match fl with
              | Some a => Some a
              | None => (fun c => AuthLimited (limit_name (ctr_limit c))) <$>
                          List.find (disk_over (db s) t delta) cs
              end, bin_key_for_counter <$> cs)) s.
Proof.
  intros Hd. revert fl. induction cs as [|c cs IH]; intros fl Hcs.
  { exists []. split; [constructor|]. destruct fl; simpl; auto with runs. }
  apply Forall_cons in Hcs as [Hc Hcs].
  destruct (get_run (db s) t (bin_key_for_counter c) Hd) as (o & Hg & Hw & Hv).
  destruct (read_entry_run t s c o Hw) as (e & He & Hread); [apply Hc|]. rewrite <-Hv in Hread.
  set (v := disk_value (db s) t (bin_key_for_counter c)) in *.
  set (c1 := set_remaining (set_expires_in c e) (u64_saturating_sub (max_value c) v)).
  set (fl1 := match fl with
              | None => if disk_over (db s) t delta c then Some (AuthLimited (limit_name (ctr_limit c))) else None
              | Some a => Some a
              end).
  destruct (IH fl1 Hcs) as (cs' & Hann & Hrun). exists (c1 :: cs'). split.
  - constructor; [|done]. split_and!; [done|done|done|by exists e].
  - cbn [evaluate_loop]. eapply runs_bind; [by apply db_get_run|]. eapply runs_bind; [exact Hread|].
    eapply runs_bind; [exact Hrun|]. cbn beta iota.
    replace (match fl1 with Some a => Some a | None => _ end)
      with (match fl with
            | Some a => Some a
            | None => (fun c0 => AuthLimited (limit_name (ctr_limit c0))) <$>
                        List.find (disk_over (db s) t delta) (c :: cs)
            end); [apply runs_ret|].
    unfold fl1. destruct fl; [done|]. cbn [List.find]. by destruct (disk_over (db s) t delta c).
Qed.

Lemma update_all_run t s delta (kcs : list (string * Counter)) :
  records_ok (db s) -> Forall (fun kc => counter_ok t kc.2) kcs -> in_u64 delta -> NoDup kcs.*1 ->
  (forall k c, (k, c) ∈ kcs -> u64_add (disk_value (db s) t k) delta <= max_value c) ->
  exists d', runs t s (for_each (fun kc => insert_or_update kc.1 kc.2 delta ;;; ret tt) kcs) (Ok tt)
               (mkRocksDb d' (disk_reservations s)) /\
    records_ok d' /\
    forall k, disk_value d' t k = if decide (k ∈ kcs.*1) then u64_add (disk_value (db s) t k) delta
                                  else disk_value (db s) t k.
Proof.
  intros Hd Hok Hdelta. revert s Hd. induction kcs as [|[k c] kcs IH]; intros s Hd Hnd Hfit.
  { exists (db s). split_and!; [destruct s; apply runs_ret|done|]. intros k. by rewrite decide_False by set_solver. }
  apply Forall_cons in Hok as [Hc Hok]. rewrite fmap_cons in Hnd. apply NoDup_cons in Hnd as [Hnot Hnd]. simpl in *.
  destruct (insert_or_update_run t s k c delta Hd Hc Hdelta) as (x & d1 & Hr & Hd1 & Hk & Ho).
  rewrite (proj2 (Z.leb_le _ _)) in Hk by (apply Hfit; by left).
  destruct (IH Hok (mkRocksDb d1 (disk_reservations s))) as (d' & Hr' & Hd' & Hv'); [done|done| |].
  { intros k' c' Hin. simpl. rewrite Ho; [apply Hfit; by right|].
    intros ->. apply Hnot, list_elem_of_fmap. by exists (k, c'). }
  exists d'. split_and!; [|done|].
  - eapply runs_bind; [|exact Hr']. eapply runs_bind; [exact Hr|auto with runs].
  - intros k'. rewrite Hv'. cbn [db]. destruct (decide (k' = k)) as [->|Hne].
    + rewrite decide_False by done. by rewrite decide_True by (by left).
    + rewrite (Ho k') by done. destruct (decide (k' ∈ kcs.*1)).
      * by rewrite decide_True by (by right).
      * by rewrite decide_False by set_solver.
Qed.

Lemma nodup_bin_keys (cs : list Counter) :
  Forall counter_of_limit cs -> NoDup (counter_key <$> cs) -> NoDup (bin_key_for_counter <$> cs).
Proof.
  induction 1 as [|c cs Hc Hcs IH]; intros Hnd; [constructor|].
  rewrite fmap_cons in *. apply NoDup_cons in Hnd as [Hnot Hnd]. apply NoDup_cons. split; [|by apply IH].
  intros Hin. apply Hnot. apply list_elem_of_fmap in Hin as (c' & Hk & Hc').
  apply list_elem_of_fmap. exists c'. split; [|done]. rewrite Forall_forall in Hcs.
  apply bin_key_of_inj; [done|by apply Hcs|].
  apply (f_equal pc_counter_key_from) in Hk. unfold bin_key_for_counter in Hk.
  rewrite !pc_counter_key_roundtrip in Hk. by apply (inj Some).
Qed.

Lemma disk_over_false d t delta c :
  in_u64 delta -> records_ok d -> disk_value d t (bin_key_for_counter c) + delta <= u64_max ->
  disk_over d t delta c = false <-> disk_value d t (bin_key_for_counter c) + delta <= max_value c.
Proof.
  intros [Hd0 _] Hd Hsum. pose proof (disk_value_u64 d t (bin_key_for_counter c) Hd) as [Hv _].
  unfold disk_over. rewrite u64_add_small by lia. apply Z.ltb_ge.
Qed.

(** Updating the counters that [evaluate] has just annotated. *)
Lemma update_annotated_run t s cs cs' delta :
  records_ok (db s) -> Forall (counter_ok t) cs -> NoDup (bin_key_for_counter <$> cs) -> in_u64 delta ->
  Forall2 (disk_annotates (db s) t) cs cs' -> Forall (fun c => disk_over (db s) t delta c = false) cs ->
  exists d', runs t s (for_each (fun kc => insert_or_update kc.1 kc.2 delta ;;; ret tt)
                         (zip (bin_key_for_counter <$> cs) cs')) (Ok tt) (mkRocksDb d' (disk_reservations s)) /\
    records_ok d' /\
    forall k, disk_value d' t k = if decide (k ∈ bin_key_for_counter <$> cs)
                                  then u64_add (disk_value (db s) t k) delta else disk_value (db s) t k.
Proof.
  intros Hd Hok Hnd Hdelta Hann Hover.
  assert (Hkeys : (zip (bin_key_for_counter <$> cs) cs').*1 = bin_key_for_counter <$> cs).
  { apply fst_zip. rewrite length_fmap. apply Forall2_length in Hann. lia. }
  assert (Hzip : forall k c', (k, c') ∈ zip (bin_key_for_counter <$> cs) cs' ->
            exists c, c ∈ cs /\ k = bin_key_for_counter c /\ disk_annotates (db s) t c c').
  { intros k c' Hin. apply list_elem_of_lookup in Hin as [i Hi].
    apply lookup_zip_with_Some in Hi as (k' & c1 & [= -> ->] & Hk & Hc1).
    rewrite list_lookup_fmap in Hk. destruct (cs !! i) as [c|] eqn:Hc; [|done]. injection Hk as <-.
    exists c. split_and!; [by eapply list_elem_of_lookup_2|done|].
    by eapply Forall2_lookup_lr. }
  destruct (update_all_run t s delta (zip (bin_key_for_counter <$> cs) cs')) as (d' & Hr & Hd' & Hv);
    [done| |done|by rewrite Hkeys| |by exists d'; rewrite Hkeys in Hv].
  - apply Forall_forall. intros [k c'] Hin. destruct (Hzip k c' Hin) as (c & Hc & _ & Hl & _).
    rewrite Forall_forall in Hok. unfold counter_ok, max_value, window. simpl. rewrite Hl. by apply Hok.
  - intros k c' Hin. destruct (Hzip k c' Hin) as (c & Hc & -> & Hl & _). unfold max_value. rewrite Hl.
    rewrite Forall_forall in Hover. specialize (Hover c Hc). unfold disk_over in Hover. by apply Z.ltb_ge in Hover.
Qed.

(** C23: checking and updating on disk is all or nothing.  At one instant it admits
    exactly when every counter has room for [delta], then adds [delta] to each of
    them and to no other key; otherwise it changes nothing.  It reports what was left
    of each counter before, with the time left of its window. *)
Theorem disk_check_and_update_exact t s cs delta :
  records_ok (db s) -> Forall (counter_ok t) cs -> Forall counter_of_limit cs ->
  NoDup (counter_key <$> cs) -> in_u64 delta ->
  (forall c, c ∈ cs -> disk_value (db s) t (bin_key_for_counter c) + delta <= u64_max) ->
  exists cs' a s', runs t s (check_and_update cs delta) (Ok (cs', a)) s' /\ records_ok (db s') /\
    Forall2 (disk_annotates (db s) t) cs cs' /\
    (a = AuthOk <-> forall c, c ∈ cs ->
       disk_value (db s) t (bin_key_for_counter c) + delta <= max_value c) /\
    (a = AuthOk -> forall c, c ∈ cs ->
       disk_value (db s') t (bin_key_for_counter c) = disk_value (db s) t (bin_key_for_counter c) + delta) /\
    (forall k, a <> AuthOk \/ k ∉ bin_key_for_counter <$> cs -> disk_value (db s') t k = disk_value (db s) t k).
Proof.
  intros Hd Hok Hcol Hnd Hdelta Hsum. apply nodup_bin_keys in Hnd; [|done].
  destruct (evaluate_loop_run t s delta None cs Hd Hok) as (cs' & Hann & Hrun).
  destruct (List.find (disk_over (db s) t delta) cs) as [c0|] eqn:Hf; simpl in Hrun.
  - exists cs', (AuthLimited (limit_name (ctr_limit c0))), s. split_and!; [|done|done| |done|done].
    + unfold check_and_update, evaluate. eapply runs_bind; [eapply runs_bind; [exact Hrun|apply runs_ret]|].
      simpl. eapply runs_bind; [apply runs_ret|apply runs_ret].
    + split; [done|]. intros Hall. exfalso. apply List.find_some in Hf as [Hin%list_elem_of_In Hov].
      apply not_false_iff_true in Hov. apply Hov, disk_over_false; auto.
  - apply find_none_forall in Hf.
    destruct (update_annotated_run t s cs cs' delta Hd Hok Hnd Hdelta Hann Hf) as (d' & Hup & Hd' & Hv).
    exists cs', AuthOk, (mkRocksDb d' (disk_reservations s)). split_and!; [|done|done| | |].
    + unfold check_and_update, evaluate. eapply runs_bind; [eapply runs_bind; [exact Hrun|apply runs_ret]|].
      simpl. eapply runs_bind; [exact Hup|apply runs_ret].
    + split; [|done]. intros _ c Hc. rewrite Forall_forall in Hf. apply disk_over_false; auto.
    + intros _ c Hc. simpl. rewrite Hv, decide_True by (apply list_elem_of_fmap; by exists c).
      pose proof (disk_value_u64 (db s) t (bin_key_for_counter c) Hd) as [Hv0 _].
      apply u64_add_small; [done|apply Hdelta|by apply Hsum].
    + intros k [?|Hk]; [done|]. simpl. by rewrite Hv, decide_False.
Qed.

(** ** Listing and deleting *)

Lemma hash_iter_singleton {K A} `{Countable K} (k : K) (x : A) : (hash_iter ({[k := x]} : gmap K A)).*2 = [x].
Proof.
  pose proof (hash_iter_perm ({[k := x]} : gmap K A)) as Hperm.
  rewrite map_to_list_singleton in Hperm. apply Permutation_singleton_r in Hperm. by rewrite Hperm.
Qed.

(** An entry of the database for a counter of namespace [ns]. *)
Definition entry_of (ns : string) (c : Counter) (entry : Outcome StorageErr (string * Bytes)) : Prop :=
  counter_of_limit c /\ plain_variables (ctr_limit c) /\ counter_namespace c = ns /\
  exists v, ev_wf v /\ entry = Ok (bin_key_for_counter c, encoded v).

(** The database lists an entry of [c] for namespace [ns] at [t], behind others of [ns]. *)
Definition lists_counter s t (ns : string) c : Prop :=
  exists pre entry rest, entry_of ns c entry /\
    Forall (fun e => exists c', entry_of ns c' e) pre /\
    rdb_prefix_iterator (db s) t (prefix_for_namespace ns) = pre ++ entry :: rest.

(** One entry of the namespace: its counter is rebuilt and looked up. *)
Lemma get_counters_step t s limits ns counters c entry rest o :
  entry_of ns c entry ->
  (forall c' counters' v, limit_key (ctr_limit c') = limit_key (ctr_limit c) -> expires_in c' = None ->
     runs t s (let* c := annotate_from limits c' v in
               match expires_in c with
               | None => lift (Panic "Duration needs to be set")
               | Some d => get_counters_loop limits ns
                             (if d >? 0 then (set_insert counter_key c counters').2 else counters') rest
               end) o s) ->
  runs t s (get_counters_loop limits ns counters (entry :: rest)) o s.
Proof.
  intros (Hc & Hp & Hns & v & Hv & ->) Hrest. cbn [get_counters_loop]. runs_step.
  unfold bin_partial_counter_from_counter_key, bin_key_for_counter. rewrite pc_counter_key_roundtrip.
  cbn [expect_some outcome_bind].
  destruct (partial_counter_of_bin_key_run (E := StorageErr) c Hc Hp) as (c' & -> & Hk & _ & _ & He). runs_step.
  assert (Hlk : limit_key (ctr_limit c') = limit_key (ctr_limit c)) by (by apply (f_equal fst) in Hk).
  rewrite bool_decide_eq_true_2 by (unfold counter_namespace in *; rewrite (limit_key_namespace _ _ Hlk); done).
  cbn [negb]. rewrite ev_try_from_encoded by done. runs_step. by apply Hrest.
Qed.

Lemma get_counters_loop_panics t s l ns c entry pre rest counters :
  entry_of ns c entry -> Forall (fun e => exists c', entry_of ns c' e) pre -> limit_eq l (ctr_limit c) = false ->
  runs t s (get_counters_loop {[limit_key l := l]} ns counters (pre ++ entry :: rest))
    (Panic "Duration needs to be set") s.
Proof.
  pose proof (hash_iter_singleton (limit_key l) l) as Hlimits.
  intros Hentry Hpre Hl. revert counters. induction Hpre as [|e pre [c0 He] _ IH]; intros counters.
  - eapply get_counters_step; [exact Hentry|]. intros c' counters' v Hlk Hexp.
    unfold annotate_from. rewrite Hlimits. cbn [List.find].
    replace (limit_eq l (ctr_limit c')) with false; [runs_step; rewrite Hexp; apply runs_lift|].
    symmetry. apply not_true_iff_false. rewrite limit_eq_key, Hlk, <-limit_eq_key. by rewrite Hl.
  - simpl. eapply get_counters_step; [exact He|]. intros c' counters' v _ Hexp.
    unfold annotate_from. rewrite Hlimits. cbn [List.find].
    destruct (limit_eq l (ctr_limit c')); [|runs_step; rewrite Hexp; apply runs_lift].
    eapply runs_bind.
    + eapply runs_bind; [apply ev_ttl_run|]. eapply runs_bind; [apply ev_value_now_run|]. apply runs_ret.
    + cbn [expires_in set_remaining set_expires_in]. apply IH.
Qed.

(** Deleting one of the limits of a namespace panics on disk as soon as the database
    holds a counter of another limit of the namespace: listing the counters to
    delete walks the whole namespace and expects each counter to match. *)
Theorem disk_delete_panics t s l c :
  lists_counter s t (namespace l) c -> limit_eq l (ctr_limit c) = false ->
  runs t s (delete_counters {[limit_key l := l]}) (Panic "Duration needs to be set") s.
Proof.
  intros (pre & entry & rest & Hentry & Hpre & Hit) Hl.
  pose proof (hash_iter_singleton (limit_key l) l) as Hlimits.
  unfold delete_counters. apply runs_bind_panic. unfold get_counters. rewrite Hlimits.
  cbn [fmap list_fmap btree_collect foldl btree_insert foldM]. apply runs_bind_panic.
  do 2 runs_step. rewrite Hit. by eapply get_counters_loop_panics.
Qed.
End disk_spec.

(** ** Examples: a RocksDB that merges on read *)

Definition demo_rdb_get (d : gmap string (list Bytes)) (t : SystemTime) (k : string)
    : Outcome StorageErr (option Bytes) :=
  match default [] (d !! k) with
  | [] => Ok None
  | ops => outcome_map Some (merge_operator t None ops)
  end.

Definition demo_rdb_entries (d : gmap string (list Bytes)) (t : SystemTime)
    : list (Outcome StorageErr (string * Bytes)) :=
  (fun kv => outcome_map (fun raw => (kv.1, raw)) (merge_operator t None kv.2)) <$> map_to_list d.

Definition demo_rocksdb : RocksDb := {|
  rdb := gmap string (list Bytes);
  rdb_open := ∅;
  rdb_get := demo_rdb_get;
  rdb_merge d _ k v := Ok (<[k := default [] (d !! k) ++ [v]]> d);
  rdb_delete d _ k := Ok (delete k d);
  rdb_prefix_iterator d t p := demo_rdb_entries (filter (fun kv => String.prefix p kv.1 = true) d) t;
  rdb_iterator d t := demo_rdb_entries d t
|}.

Definition demo_rocksdb_laws : RocksDbLaws (RD := demo_rocksdb).
Proof.
  refine {| rdb_records (d : @rdb demo_rocksdb) k := (None, default [] ((d : gmap string (list Bytes)) !! k)) |}.
  - done.
  - intros d t k. simpl. unfold demo_rdb_get. by destruct (default [] _).
  - intros d t k v base ops [= <- <-] _. eexists. split_and!; [done| |left].
    + intros k' Hne. by rewrite lookup_insert_ne.
    + by rewrite lookup_insert_eq.
Defined.

#[local] Existing Instance demo_engine.
#[local] Existing Instance demo_hash_order.
#[local] Existing Instance gmap_moka.
#[local] Existing Instance demo_postcard.
#[local] Existing Instance demo_postcard_laws.
#[local] Existing Instance demo_rocksdb.
#[local] Existing Instance demo_rocksdb_laws.

Definition disk_demo_time : SystemTime := from_secs 1000.

Lemma demo_open_ok : records_ok (db disk_open).
Proof. intros k. exists None, []. split_and!; [apply rdb_open_records|done|constructor]. Qed.

Lemma disk_demo_counter_ok : counter_ok disk_demo_time demo_counter.
Proof.
  unfold counter_ok, good_window, good_time, in_u64.
  split_and!; vm_compute; first [reflexivity|discriminate].
Qed.

Lemma disk_update_counter_spec_witness : exists s',
  disk_value (db s') disk_demo_time (bin_key_for_counter demo_counter) = 0 /\
  runs disk_demo_time disk_open (update_counter demo_counter 11) (Ok tt) s'.
Proof.
  destruct (disk_update_counter_spec disk_demo_time disk_open demo_counter 11) as (s' & Hr & _ & Hv & _).
  - apply demo_open_ok.
  - apply disk_demo_counter_ok.
  - vm_compute. split; discriminate.
  - vm_compute. discriminate.
  - exists s'. split; [|done]. rewrite Hv. vm_compute. reflexivity.
Defined.

Lemma disk_check_and_update_exact_witness : exists cs' a s',
  runs disk_demo_time disk_open (check_and_update [demo_counter] 4) (Ok (cs', a)) s' /\ a = AuthOk /\
  disk_value (db s') disk_demo_time (bin_key_for_counter demo_counter) =
    disk_value (db disk_open) disk_demo_time (bin_key_for_counter demo_counter) + 4.
Proof.
  destruct (disk_check_and_update_exact disk_demo_time disk_open [demo_counter] 4)
    as (cs' & a & s' & Hr & _ & _ & Ha & Hv & _).
  - apply demo_open_ok.
  - apply Forall_singleton, disk_demo_counter_ok.
  - apply Forall_singleton, demo_counter_of_limit.
  - apply NoDup_singleton.
  - vm_compute. split; discriminate.
  - intros c Hc. apply list_elem_of_singleton in Hc as ->. vm_compute. discriminate.
  - assert (Hok : a = AuthOk).
    { apply Ha. intros c Hc. apply list_elem_of_singleton in Hc as ->. vm_compute. discriminate. }
    exists cs', a, s'. split_and!; [done|done|]. apply Hv; [done|by left].
Defined.

(** A database with a counter of [demo_limit] only, and another limit of its namespace. *)
Definition disk_demo_storage : RocksDbStorage :=
  mkRocksDb (RD := demo_rocksdb)
    {[bin_key_for_counter demo_counter := [encoded (mkExpiring 3 (from_secs 1060))]]} (registry_new 10).

Definition disk_other_limit : Limit := limit_new "ns" 5 30 [] [].

Lemma disk_delete_panics_witness :
  runs disk_demo_time disk_demo_storage (delete_counters {[limit_key disk_other_limit := disk_other_limit]})
    (Panic "Duration needs to be set") disk_demo_storage.
Proof.
  apply (disk_delete_panics disk_demo_time disk_demo_storage disk_other_limit demo_counter).
  - exists [], (Ok (bin_key_for_counter demo_counter, encoded (mkExpiring 3 (from_secs 1060)))), [].
    split_and!; [|constructor|vm_refl].
    split_and!; [apply demo_counter_of_limit|apply Forall_singleton; vm_compute; set_solver|reflexivity|].
    exists (mkExpiring 3 (from_secs 1060)). split; [split; vm_compute; split; discriminate|done].
  - vm_compute. reflexivity.
Defined.
