(* ===== verification/CountersCache.v ===== *)
(** * The write-behind cache in front of Redis: [storage/redis/counters_cache.rs]

    A cached value counts hits locally and remembers in [initial_value] how much
    of them Redis already knows; the difference is what the next flush sends.
    The batcher holds the values with something to send.  Cached values are
    [Arc]s shared by the cache, the batcher and a running flush: locations of
    [cc_heap].  Here each operation of a cached value runs on its own, from its first
    access of the two atomics to its last; [CacheRaces.v] interleaves the accesses of
    hits and of the flushing task. *)

From S2P Require Import Prelude AtomicExpiringValue Cel Errors Limit Counter Storage Moka.

Record CachedCounterValue : Type := mkCached {
  ccv_value : AtomicExpiringValue;
  initial_value : Z;
  ccv_from_authority : bool
}.

(** ** [CachedCounterValue] *)

Section cached_value.
Context {CE : CelEngine} {E : Type}.

(** Operations of one cached value. *)
Abbreviation CV A := (M CachedCounterValue E A).

Definition from_authority {St} (c : Counter) (value : Z) : M St E CachedCounterValue :=
  let* t := now in
  let* exp := lift (systime_add t (window c)) in
  let* v := lift (aev_new value exp) in
  ret (mkCached v value true).

Definition load_from_authority_asap {St} (c : Counter) (temp_value : Z) : M St E CachedCounterValue :=
  let* t := now in
  let* exp := lift (systime_add t (window c)) in
  let* v := lift (aev_new temp_value exp) in
  ret (mkCached v 0 false).

(** The overshoot histogram is left out. *)
Definition add_from_authority (delta : Z) (expire_at : SystemTime) (max : Z) : CV unit :=
  let* c := get in
  let* r := lift (add_and_set_expiry (ccv_value c) delta expire_at) in
  put (mkCached r.2 (u64_add (initial_value c) delta) true).

Definition delta (ctr : Counter) (d : Z) : CV Z :=
  let* c := get in
  let* t := now in
  let* r := lift (update (ccv_value c) d (window ctr) t) in
  put (mkCached r.2 (if r.1 =? d then 0 else initial_value c) (ccv_from_authority c)) ;;;
  ret r.1.

(** The writes a flush sends, from the two values it loaded. *)
Definition writes_offset (start value : Z) : Z :=
  if start =? 0 then value else default value (u64_checked_sub value start).

(** The exchange that ends [pending_writes_and_value]; [None] is [Err(())]. *)
Definition commit_writes (c : CachedCounterValue) (start value : Z) : option (Z * Z) * CachedCounterValue :=
  let '(ok, cell) := compare_exchange (initial_value c) start value in
  let c' := mkCached (ccv_value c) cell (ccv_from_authority c) in
  if ok then (Some (writes_offset start value, value), c')
  else if cell =? 0 then (Some (0, 0), c') else (None, c').

Definition pending_writes_and_value : CV (option (Z * Z)) :=
  let* c := get in
  let start := initial_value c in
  let* value := value (ccv_value c) in
  let* c := get in
  let '(r, c) := commit_writes c start value in
  put c ;;;
  ret r.

Definition pending_writes : CV (option Z) :=
  let* r := pending_writes_and_value in ret (fst <$> r).

Definition no_pending_writes : CV bool :=
  let* c := get in
  let start := initial_value c in
  let* value := value (ccv_value c) in
  ret (default value (u64_checked_sub value start) =? 0).

(** The exchange of [revert_writes] after it loaded [newer]; [false] is [Err(())]. *)
Definition commit_revert (c : CachedCounterValue) (newer writes : Z) : bool * CachedCounterValue :=
  if newer >? writes then
    let '(ok, cell) := compare_exchange (initial_value c) newer (newer - writes) in
    (ok || (cell =? 0), mkCached (ccv_value c) cell (ccv_from_authority c))
  else (true, c).

Definition revert_writes (writes : Z) : CV bool :=
  let* c := get in
  let newer := initial_value c in
  let '(r, c) := commit_revert c newer writes in
  put c ;;;
  ret r.

Definition hits : CV Z := let* c := get in value (ccv_value c).

Definition ccv_remaining (ctr : Counter) : CV Z :=
  let* h := hits in ret (u64_saturating_sub (max_value ctr) h).

(** The sum is an [i128]: it does not wrap. *)
Definition is_limited (ctr : Counter) (d : Z) : CV bool :=
  let* h := hits in ret (h + d >? max_value ctr).

Definition ccv_ttl : CV Duration := let* c := get in ttl (ccv_value c).

Definition requires_fast_flush (within : Duration) : CV bool :=
  let* c := get in
  if negb (ccv_from_authority c) then ret true
  else let* d := ttl (ccv_value c) in ret (d <=? within).
End cached_value.

(** ** [Batcher] and [CountersCache] *)

Section counters_cache.
Context {CE : CelEngine} {HO : HashOrder} {MC : MokaCache} {E : Type}.

Record Batcher : Type := mkBatcher {
  updates : gmap CounterKey (Counter * nat);
  interval : Duration;
  priority_flush : bool;
  (** the free permits of the semaphore *)
  limiter : Z
}.

Record CountersCache : Type := mkCountersCache {
  cc_cache : moka nat;
  cc_batcher : Batcher;
  cc_heap : list CachedCounterValue
}.

Abbreviation CC A := (M CountersCache E A).

Definition batcher_new (period : Duration) (max_cached_counters : Z) : Batcher :=
  mkBatcher ∅ period false max_cached_counters.

Definition batcher_default : Batcher := batcher_new (from_millis 100) 10000.

Record CountersCacheBuilder : Type := mkCacheBuilder { cb_max_cached_counters : Z }.

Definition cache_builder_new : CountersCacheBuilder := mkCacheBuilder 10000.

Definition cache_builder_max (self : CountersCacheBuilder) (max_cached_counters : Z) : CountersCacheBuilder :=
  mkCacheBuilder max_cached_counters.

(** What the eviction of an entry tells the metrics. *)
Inductive EvictionMetric : Type := CacheSizeDecrement | EvictedPendingWrites.

Definition eviction_listener : M CachedCounterValue E (list EvictionMetric) :=
  let* idle := no_pending_writes in
  ret (CacheSizeDecrement :: if idle then [] else [EvictedPendingWrites]).

(** [CountersCacheBuilder::build] *)
Definition cache_build (max_cached_counters : Z) (period : Duration) : CountersCache :=
  mkCountersCache (moka_new max_cached_counters) (batcher_new period max_cached_counters) [].

Definition put_cache (m : moka nat) : CC unit :=
  let* s := get in put (mkCountersCache m (cc_batcher s) (cc_heap s)).

Definition put_batcher (b : Batcher) : CC unit :=
  let* s := get in put (mkCountersCache (cc_cache s) b (cc_heap s)).

(** [Arc::new] *)
Definition alloc (v : CachedCounterValue) : CC nat :=
  let* s := get in
  put (mkCountersCache (cc_cache s) (cc_batcher s) (cc_heap s ++ [v])) ;;;
  ret (length (cc_heap s)).

(** Runs an operation of the cached value an [Arc] points to. *)
Definition at_loc {A} (loc : nat) (m : M CachedCounterValue E A) : CC A :=
  zoom (fun s => default (mkCached aev_default 0 false) (cc_heap s !! loc))
       (fun v s => mkCountersCache (cc_cache s) (cc_batcher s) (<[loc := v]> (cc_heap s))) m.

Definition in_batcher (c : Counter) : CC (option nat) :=
  let* s := get in ret (snd <$> updates (cc_batcher s) !! counter_key c).

Definition set_updates (u : gmap CounterKey (Counter * nat)) (permits : Z) : CC unit :=
  let* s := get in
  put_batcher (mkBatcher u (interval (cc_batcher s)) (priority_flush (cc_batcher s)) permits).

Definition set_priority (p : bool) : CC unit :=
  let* s := get in
  let b := cc_batcher s in
  put_batcher (mkBatcher (updates b) (interval b) p (limiter b)).

(** [Batcher::add]; [false] when it has to wait for a permit, before anything changed. *)
Definition batcher_add (c : Counter) (loc : nat) : CC bool :=
  let* s := get in
  let* priority := at_loc loc (requires_fast_flush (interval (cc_batcher s))) in
  let* s := get in
  let b := cc_batcher s in
  let* added :=
    match updates b !! counter_key c with
    | Some (_, arc) =>
        (if negb (Nat.eqb arc loc) then
           let* w := at_loc loc pending_writes in
           match w with
           | Some w => at_loc arc (delta c w) ;;; ret tt
           | None => lift (Panic "called `Result::unwrap()` on an `Err` value")
           end
         else ret tt) ;;; ret true
    | None =>
        if limiter b <=? 0 then ret false
        else set_updates (<[counter_key c := (c, loc)]> (updates b)) (limiter b - 1) ;;; ret true
    end in
  if added then (if priority then set_priority true else ret tt) ;;; ret true else ret false.

Definition batch_ready (size : nat) : CC bool :=
  let* s := get in
  let b := cc_batcher s in
  if (size <=? map_size (updates b))%nat then ret true
  else if priority_flush b then set_priority false ;;; ret true
  else ret false.

(** What ended the wait of [consume]: the timer, or a notification that found the
    batch ready. *)
Inductive Wake : Type := Timer | Notified.

(** The counters of [updates] that need a fast flush. *)
Definition fast_flush (entries : list (Counter * nat)) : CC (list Counter) :=
  let* s := get in
  foldM (fun acc cl =>
      let* fast := at_loc cl.2 (requires_fast_flush (interval (cc_batcher s))) in
      ret (if fast then acc ++ [cl.1] else acc)) [] entries.

(** The counters of a batch: the urgent ones first, then others up to [max]. *)
Definition select_batch (max : nat) : CC (list Counter) :=
  let* s := get in
  let entries := (hash_iter (updates (cc_batcher s))).*2 in
  let* fast := fast_flush entries in
  let batch := take max fast in
  ret (if (length batch <=? max)%nat
       then batch ++ take (max - length batch) (fst <$> entries) else batch).

(** [updates.remove_if(counter, |_, v| v.no_pending_writes())] *)
Definition remove_flushed (c : Counter) : CC unit :=
  let* r := in_batcher c in
  match r with
  | None => ret tt
  | Some loc =>
      let* done := at_loc loc no_pending_writes in
      if done then
        let* s := get in
        set_updates (delete (counter_key c) (updates (cc_batcher s))) (limiter (cc_batcher s) + 1)
      else ret tt
  end.

(** The first half of [consume]: waits until a batch is ready and collects it. *)
Definition collect_batch (max : nat) (wake : Wake) : CC (list Counter * gmap CounterKey (Counter * nat)) :=
  let* ready := batch_ready max in
  (if ready then ret tt
   else match wake with Timer => ret tt | Notified => batch_ready max ;;; ret tt end) ;;;
  let* batch := select_batch max in
  let* result := foldM (fun m c =>
      let* r := in_batcher c in
      match r with
      | Some loc => ret (<[counter_key c := (default c (fst <$> m !! counter_key c), loc)]> m)
      | None => lift (Panic "called `Option::unwrap()` on a `None` value")
      end) (∅ : gmap CounterKey (Counter * nat)) batch in
  ret (batch, result).

(** [Batcher::consume], as part of a larger state the consumer may use; [inl] is the
    consumer's success. *)
Definition consume {St T F} (view : St -> CountersCache) (upd : CountersCache -> St -> St) (max : nat) (wake : Wake)
    (consumer : gmap CounterKey (Counter * nat) -> M St E (T + F)) : M St E (T + F) :=
  let* batch := zoom view upd (collect_batch max wake) in
  let* result := consumer batch.2 in
  match result with
  | inl _ => zoom view upd (for_each remove_flushed batch.1)
  | inr _ => ret tt
  end ;;;
  ret result.

Definition get_cached (c : Counter) : CC (option nat) :=
  let* s := get in
  match moka_get (cc_cache s) (counter_key c) with
  | Some (_, loc) => ret (Some loc)
  | None =>
      match updates (cc_batcher s) !! counter_key c with
      | Some (_, loc) => put_cache (moka_insert (cc_cache s) c loc) ;;; ret (Some loc)
      | None => ret None
      end
  end.

(** [cache.get_with(counter, init)] *)
Definition cache_get_with (c : Counter) (init : CC nat) : CC nat :=
  let* s := get in
  match moka_get (cc_cache s) (counter_key c) with
  | Some (_, loc) => ret loc
  | None =>
      let* loc := init in
      let* s := get in
      put_cache (moka_insert (cc_cache s) c loc) ;;;
      ret loc
  end.

(** [false] is [Err(())]. *)
Definition return_pending_writes (c : Counter) (value writes : Z) : CC bool :=
  if negb (writes =? 0) then
    let* s := get in
    let miss := bool_decide (moka_get (cc_cache s) (counter_key c) = None)
                && bool_decide (updates (cc_batcher s) !! counter_key c = None) in
    let* loc := cache_get_with c
      (let* r := in_batcher c in
       match r with
       | Some loc => ret loc
       | None =>
           let* v := from_authority c value in
           let* loc := alloc v in
           at_loc loc (delta c writes) ;;;
           ret loc
       end) in
    if negb miss then at_loc loc (revert_writes writes) else ret true
  else ret true.

Definition apply_remote_delta (c : Counter) (redis_val remote_deltas : Z) (expiry : SystemTime) : CC nat :=
  let* t := now in
  if expiry >? t then
    let* s := get in
    let from_cache := negb (bool_decide (moka_get (cc_cache s) (counter_key c) = None)) in
    let* cached := cache_get_with c
      (let* r := in_batcher c in
       match r with
       | Some loc => at_loc loc (add_from_authority remote_deltas expiry (max_value c)) ;;; ret loc
       | None => let* v := from_authority c redis_val in alloc v
       end) in
    (if from_cache then at_loc cached (add_from_authority remote_deltas expiry (max_value c)) else ret tt) ;;;
    ret cached
  else let* v := load_from_authority_asap c redis_val in alloc v.

Definition increase_by (c : Counter) (d : Z) : CC bool :=
  let* val := cache_get_with c
    (let* r := in_batcher c in
     match r with
     | Some loc => ret loc
     | None => let* v := load_from_authority_asap c 0 in alloc v
     end) in
  at_loc val (delta c d) ;;;
  batcher_add c val.
End counters_cache.

(** ** The hits are sent to Redis exactly once *)

(** Runs an operation of a cached value while the clock shows [t]. *)
Definition exec_at {E A} (t : SystemTime) (m : M CachedCounterValue E A) (c : CachedCounterValue)
    : Outcome E A * CachedCounterValue :=
  let '(o, w) := m (mkWorld c (fun _ => t) 0) in (o, w_state w).

(** What happens to a cached value: a hit is counted, Redis reports hits of other
    instances, a flush collects what is to be sent. *)
Inductive CacheOp : Type :=
| Hit (d : Z)
| Remote (d : Z) (expire_at : SystemTime)
| Flush.

Section conservation.
Context {CE : CelEngine} {E : Type}.
Implicit Types (c : CachedCounterValue) (t : SystemTime).

(** One operation: the value afterwards and what it collected. *)
Definition cache_op (ctr : Counter) t (op : CacheOp) c : Outcome E (Z * CachedCounterValue) :=
  match op with
  | Hit d => let '(o, c') := exec_at t (delta ctr d) c in outcome_map (fun _ => (0, c')) o
  | Remote d exp => let '(o, c') := exec_at t (add_from_authority d exp (max_value ctr)) c in
                    outcome_map (fun _ => (0, c')) o
  | Flush => let '(o, c') := exec_at t pending_writes_and_value c in
             let? r := o in
             match r with
             | Some (w, _) => Ok (w, c')
             | None => Panic "State machine is wrong!"
             end
  end.

(** A sequence of operations, and all that its flushes collected. *)
Fixpoint cache_ops (ctr : Counter) (ops : list (SystemTime * CacheOp)) c
    : Outcome E (Z * CachedCounterValue) :=
  match ops with
  | [] => Ok (0, c)
  | (t, op) :: ops =>
      let? r := cache_op ctr t op c in
      let? r' := cache_ops ctr ops r.2 in
      Ok (r.1 + r'.1, r'.2)
  end.

(** The hits counted by a sequence, and those reported by Redis. *)
Definition hits_of (op : CacheOp) : Z := match op with Hit d => d | _ => 0 end.
Definition remote_of (op : CacheOp) : Z := match op with Remote d _ => d | _ => 0 end.
Definition total_of (f : CacheOp -> Z) (ops : list (SystemTime * CacheOp)) : Z :=
  foldr (fun o acc => f o.2 + acc) 0 ops.

(** What a cached value has yet to send. *)
Definition pending c : Z := aev_value (ccv_value c) - initial_value c.

(** A value whose window is open until [e], in microseconds, and of which Redis knows
    no more than was counted. *)
Definition open_until (e : Z) c : Prop :=
  0 <= initial_value c <= aev_value (ccv_value c) /\ aev_value (ccv_value c) <= u64_max /\
  e <= expiry (aev_expiry (ccv_value c)).

(** An operation at a time before [e] that does not close the window earlier. *)
Definition op_within (ctr : Counter) (e : Z) (o : SystemTime * CacheOp) : Prop :=
  good_window o.1 (window ctr) /\ as_micros o.1 < e /\
  match o.2 with
  | Hit d => 0 <= d
  | Remote d exp => 0 <= d /\ good_time exp /\ e <= as_micros exp
  | Flush => True
  end.

Lemma cache_op_run ctr e t op c :
  open_until e c -> op_within ctr e (t, op) ->
  aev_value (ccv_value c) + hits_of op + remote_of op <= u64_max ->
  exists w c', cache_op ctr t op c = Ok (w, c') /\ open_until e c' /\
    aev_value (ccv_value c') = aev_value (ccv_value c) + hits_of op + remote_of op /\
    w + pending c' = pending c + hits_of op /\ (op = Flush -> pending c' = 0).
Proof.
  intros (Hi & Hm & He) (Hw & Ht & Hop) Hsum. simpl in *.
  assert (Hgt : good_time t) by (by eapply good_window_time).
  assert (Hl : live (ccv_value c) t) by (unfold live; lia).
  destruct c as [[v x] i a]. unfold pending, open_until in *. simpl in *.
  destruct op as [d|d exp|]; simpl in *.
  - unfold exec_at, delta, bind, get, now, put, ret, lift. simpl.
    rewrite update_live by done. simpl. rewrite u64_add_small by lia.
    do 2 eexists. split; [done|]. simpl. destruct (Z.eqb_spec (v + d) d); split_and!; simpl; (lia || done).
  - destruct Hop as (Hd & Hge & Hee). unfold exec_at, add_from_authority, bind, get, put, lift. simpl.
    unfold add_and_set_expiry, expiry_update. rewrite since_epoch_good by done. simpl.
    rewrite !u64_add_small by lia. do 2 eexists. split; [done|]. split_and!; simpl; (lia || done).
  - unfold exec_at, pending_writes_and_value, value, bind, get, now, put, ret, lift. simpl.
    rewrite value_at_live by done. simpl. unfold commit_writes, compare_exchange. simpl. rewrite Z.eqb_refl. simpl.
    do 2 eexists. split; [done|]. split_and!; simpl; try (lia || done).
    unfold writes_offset, u64_checked_sub. destruct (Z.eqb_spec i 0); [lia|].
    destruct (Z.ltb_spec v i); simpl; lia.
Qed.

(** No hit is lost and none is sent twice when the operations run one after the other:
    in whatever order hits, reports from Redis and flushes follow each other while the
    window is open, every operation succeeds and what the flushes collected plus what
    is still pending is what was pending before plus the hits counted: hits of other
    instances never leak into it.  [CacheRaces.v] interleaves them. *)
Theorem cached_writes_sequential ctr e ops c :
  open_until e c -> Forall (op_within ctr e) ops ->
  aev_value (ccv_value c) + total_of hits_of ops + total_of remote_of ops <= u64_max ->
  exists sent c', cache_ops ctr ops c = Ok (sent, c') /\ open_until e c' /\
    sent + pending c' = pending c + total_of hits_of ops /\
    aev_value (ccv_value c') = aev_value (ccv_value c) + total_of hits_of ops + total_of remote_of ops.
Proof.
  intros Hc Hops. revert c Hc. induction Hops as [|[t op] ops Hop Hops IH]; intros c Hc Hsum.
  { exists 0, c. split_and!; [done|done|simpl; lia|simpl; lia]. }
  assert (Hnn : forall f, (f = hits_of \/ f = remote_of) -> 0 <= total_of f ops).
  { intros f Hf. clear -Hops Hf. induction Hops as [|[t' o] ops (_ & _ & Ho) _ IH]; [done|]. simpl in *.
    destruct Hf as [-> | ->], o; simpl in *; lia. }
  pose proof (Hnn hits_of (or_introl eq_refl)). pose proof (Hnn remote_of (or_intror eq_refl)).
  cbn [total_of foldr snd] in Hsum |- *. fold (total_of hits_of ops) (total_of remote_of ops) in *.
  destruct (cache_op_run ctr e t op c Hc Hop) as (w & c1 & Hr & Hc1 & Hv1 & Hp1 & _); [lia|].
  destruct (IH c1 Hc1) as (sent & c' & Hrs & Hc' & Hp & Hv); [lia|].
  exists (w + sent), c'. simpl. rewrite Hr. cbn [outcome_bind snd fst]. rewrite Hrs. cbn [outcome_bind fst snd].
  split_and!; [done|done|lia|lia].
Qed.

(** A failed flush is undone only if Redis knew of the counter before.  Returning
    the collected hits makes them pending again when [initial_value] was not zero;
    when it was, as for a counter first seen by this instance, the call reports
    success and the hits are never sent. *)
Theorem failed_flush_loses_first_hits t c :
  open_until (as_micros t + 1) c -> good_time t -> 0 < pending c ->
  exists w v c1 c2,
    exec_at (E := E) t pending_writes_and_value c = (Ok (Some (w, v)), c1) /\ w = pending c /\
    exec_at (E := E) t (revert_writes w) c1 = (Ok true, c2) /\
    pending c2 = (if initial_value c =? 0 then 0 else pending c) /\
    (exec_at (E := E) t no_pending_writes c2).1 = Ok (initial_value c =? 0).
Proof.
  intros (Hi & Hm & He) Ht Hp.
  assert (Hl : live (ccv_value c) t) by (unfold live; lia).
  destruct c as [[v x] i a]. unfold pending in *. simpl in *.
  unfold exec_at, pending_writes_and_value, value, bind, get, now, put, ret, lift. simpl.
  rewrite value_at_live by done. simpl. unfold commit_writes, compare_exchange. simpl. rewrite Z.eqb_refl. simpl.
  assert (Hw : writes_offset i v = v - i).
  { unfold writes_offset, u64_checked_sub. destruct (Z.eqb_spec i 0); [lia|].
    destruct (Z.ltb_spec v i); simpl; lia. }
  do 3 eexists. exists (mkCached (mkAev v x) (if i =? 0 then v else v - (v - i)) a).
  split; [done|]. split; [done|]. rewrite Hw. unfold revert_writes, commit_revert, bind, get, put, ret.
  simpl. unfold compare_exchange. rewrite Z.eqb_refl.
  destruct (Z.eqb_spec i 0) as [->|Hne].
  - rewrite Z.sub_0_r. destruct (Z.gtb_spec v v); [lia|]. simpl. split; [done|]. simpl. split; [lia|].
    unfold no_pending_writes, value, bind, get, now, ret, lift. simpl. rewrite value_at_live by done. simpl.
    unfold u64_checked_sub. rewrite Z.ltb_irrefl, Z.sub_diag. done.
  - destruct (Z.gtb_spec v (v - i)); [|lia]. simpl. split; [done|]. simpl. split; [lia|].
    unfold no_pending_writes, value, bind, get, now, ret, lift. simpl. rewrite value_at_live by done. simpl.
    unfold u64_checked_sub. destruct (Z.ltb_spec v (v - (v - i))); [lia|]. simpl.
    destruct (Z.eqb_spec (v - (v - (v - i))) 0); [lia|done].
Qed.
End conservation.

(** ** Examples *)

#[local] Existing Instance demo_engine.

(** A value of 2 read from Redis, in a window open until 60 s. *)
Definition demo_cached (v i : Z) : CachedCounterValue := mkCached (mkAev v (mkExpiry 60000000)) i true.

Definition demo_ops : list (SystemTime * CacheOp) :=
  [(from_secs 1, Hit 3); (from_secs 2, Flush); (from_secs 3, Remote 4 (from_secs 60));
   (from_secs 4, Hit 1); (from_secs 5, Flush); (from_secs 6, Hit 2)].

Lemma cached_writes_sequential_witness :
  exists sent c', cache_ops (E := unit) demo_counter demo_ops (demo_cached 2 2) = Ok (sent, c') /\
    sent + pending c' = 6.
Proof.
  destruct (cached_writes_sequential (E := unit) demo_counter 60000000 demo_ops (demo_cached 2 2))
    as (sent & c' & Hr & _ & Hp & _).
  - unfold open_until. split_and!; vm_compute; discriminate.
  - unfold demo_ops. repeat (apply Forall_cons_2; [unfold op_within, good_window, good_time; simpl;
      split_and!; vm_compute; first [reflexivity|discriminate|exact I]|]). apply Forall_nil_2.
  - vm_compute. discriminate.
  - exists sent, c'. split; [done|]. rewrite Hp. reflexivity.
Defined.

Lemma failed_flush_loses_first_hits_witness :
  exists c1 c2, exec_at (E := unit) (from_secs 1) pending_writes_and_value (demo_cached 5 0) = (Ok (Some (5, 5)), c1) /\
    exec_at (E := unit) (from_secs 1) (revert_writes 5) c1 = (Ok true, c2) /\ pending c2 = 0.
Proof.
  destruct (failed_flush_loses_first_hits (E := unit) (from_secs 1) (demo_cached 5 0))
    as (w & v & c1 & c2 & Hf & Hw & Hr & Hp & _).
  - unfold open_until. split_and!; vm_compute; discriminate.
  - unfold good_time. split; vm_compute; discriminate.
  - vm_compute. reflexivity.
  - assert (w = 5) as -> by (rewrite Hw; reflexivity). exists c1, c2. split_and!; [|done|done].
    rewrite Hf. f_equal. f_equal. vm_compute in Hf. injection Hf as <- _. reflexivity.
Defined.
