(* ===== verification/CacheRaces.v ===== *)
(** * Hits and flushes of a cached value at the same time

    [CachedCounterValue] of [storage/redis/counters_cache.rs] keeps its value and the
    part of it Redis knows of in two atomics.  [delta], called by the requests, adds to
    the first and, if the value it gets back is its own increment, takes the window for
    a new one and resets the second in another access.  [pending_writes_and_value] and
    [add_from_authority] are both called by the one task that flushes.  Here each is the
    sequence of its accesses, and the requests and the flushing task are interleaved in
    every order, while the window stays open.  An operation on the value is one access:
    it is an atomic addition or load next to one of its expiry, which does not pass. *)

From S2P Require Import Prelude AtomicExpiringValue Cel Errors Limit Counter Storage Moka CountersCache.

(** Where a call of [delta] is: about to add, about to reset the part Redis knows, done. *)
Inductive HitPc : Type :=
| HitTodo (d : Z)
| HitReset
| HitOver.

(** What the flushing task does to the value: it collects what is to be sent, or it
    learns of hits of other instances. *)
Inductive FlushCmd : Type :=
| DoFlush
| DoLearn (d : Z) (expire_at : SystemTime).

(** Where the flushing task is: between two of them; [initial_value] loaded; the value
    loaded too; the hits learned of added to the value but not yet to [initial_value];
    or stopped, because the exchange found a value other than 0. *)
Inductive FlushPc : Type :=
| FlushIdle
| FlushLoaded (start : Z)
| FlushRead (start value : Z)
| FlushLearned (d : Z)
| FlushFailed.

Record Race : Type := mkRace {
  rc_cell : CachedCounterValue;
  rc_hits : list HitPc;
  rc_flusher : FlushPc;
  rc_todo : list FlushCmd;
  (** all that the flushes collected, and the hits counted so far *)
  rc_sent : Z;
  rc_counted : Z
}.

Section races.
Context {CE : CelEngine} {E : Type}.
Implicit Types (c : CachedCounterValue) (t : SystemTime) (s : Race) (ctr : Counter).

(** One access of [delta]: the value, where the call is then, and what it counted. *)
Definition hit_step ctr t c (pc : HitPc) : Outcome E (CachedCounterValue * HitPc * Z) :=
  match pc with
  | HitTodo d =>
      let? r := update (ccv_value c) d (window ctr) t in
      Ok (mkCached r.2 (initial_value c) (ccv_from_authority c), if r.1 =? d then HitReset else HitOver, d)
  | HitReset => Ok (mkCached (ccv_value c) 0 (ccv_from_authority c), HitOver, 0)
  | HitOver => Ok (c, HitOver, 0)
  end.

(** One access of the flushing task, and what it collected. *)
Definition flush_step t c (pc : FlushPc) (todo : list FlushCmd)
    : Outcome E (CachedCounterValue * FlushPc * list FlushCmd * Z) :=
  match pc, todo with
  | FlushIdle, [] => Ok (c, FlushIdle, [], 0)
  | FlushIdle, DoFlush :: todo => Ok (c, FlushLoaded (initial_value c), todo, 0)
  | FlushIdle, DoLearn d exp :: todo =>
      let? r := add_and_set_expiry (ccv_value c) d exp in
      Ok (mkCached r.2 (initial_value c) (ccv_from_authority c), FlushLearned d, todo, 0)
  | FlushLoaded start, _ =>
      let? value := value_at (ccv_value c) t in
      Ok (c, FlushRead start value, todo, 0)
  | FlushRead start value, _ =>
      let '(r, c) := commit_writes c start value in
      match r with
      | Some (writes, _) => Ok (c, FlushIdle, todo, writes)
      | None => Ok (c, FlushFailed, todo, 0)
      end
  | FlushLearned d, _ => Ok (mkCached (ccv_value c) (u64_add (initial_value c) d) true, FlushIdle, todo, 0)
  | FlushFailed, _ => Ok (c, FlushFailed, todo, 0)
  end.

(** Who goes next. *)
Inductive race_step ctr t : Race -> Race -> Prop :=
| step_hit s i pc c' pc' d :
    rc_hits s !! i = Some pc -> hit_step ctr t (rc_cell s) pc = Ok (c', pc', d) ->
    race_step ctr t s (mkRace c' (<[i := pc']> (rc_hits s)) (rc_flusher s) (rc_todo s) (rc_sent s) (rc_counted s + d))
| step_flush s c' pc' todo' w :
    flush_step t (rc_cell s) (rc_flusher s) (rc_todo s) = Ok (c', pc', todo', w) ->
    race_step ctr t s (mkRace c' (rc_hits s) pc' todo' (rc_sent s + w) (rc_counted s)).

(** Any interleaving of accesses before [e], in microseconds. *)
Inductive race ctr (e : Z) : Race -> Race -> Prop :=
| race_refl s : race ctr e s s
| race_more s1 s2 s3 t :
    race ctr e s1 s2 -> good_window t (window ctr) -> as_micros t < e -> race_step ctr t s2 s3 -> race ctr e s1 s3.

(** The two rules with the state reached as an equation. *)
Lemma step_hit_eq ctr t s s' i pc c' pc' d :
  rc_hits s !! i = Some pc -> hit_step ctr t (rc_cell s) pc = Ok (c', pc', d) ->
  s' = mkRace c' (<[i := pc']> (rc_hits s)) (rc_flusher s) (rc_todo s) (rc_sent s) (rc_counted s + d) -> race_step ctr t s s'.
Proof. intros ? ? ->. by eapply step_hit. Qed.

Lemma step_flush_eq ctr t s s' c' pc' todo' w :
  flush_step t (rc_cell s) (rc_flusher s) (rc_todo s) = Ok (c', pc', todo', w) ->
  s' = mkRace c' (rc_hits s) pc' todo' (rc_sent s + w) (rc_counted s) -> race_step ctr t s s'.
Proof. intros ? ->. by eapply step_flush. Qed.

Lemma race_first ctr e s1 s2 s3 t :
  good_window t (window ctr) -> as_micros t < e -> race_step ctr t s1 s2 -> race ctr e s2 s3 -> race ctr e s1 s3.
Proof.
  intros Hw Ht Hs. induction 1 as [s|s2 s3 s4 t' _ IH Hw' Ht' Hs']; [|by eapply race_more; [apply IH|..]].
  eapply race_more; [apply race_refl|done..].
Qed.

Definition race_start c (hits : list Z) (todo : list FlushCmd) : Race :=
  mkRace c (HitTodo <$> hits) FlushIdle todo 0 0.

(** ** What is still to come *)









(** ** The invariant *)









(** C30: the first hits of a window can be sent twice: a flush between the two accesses of
    [delta] collects them and moves [initial_value] up, [delta] then takes it back to 0,
    and the next flush collects them again. *)
Theorem first_hits_sent_twice ctr e c d t :
  open_until e c -> aev_value (ccv_value c) = 0 -> 0 < d <= u64_max -> good_window t (window ctr) -> as_micros t < e ->
  exists s, race ctr e (race_start c [d] [DoFlush; DoFlush]) s /\ rc_counted s = d /\ rc_sent s = 2 * d /\
    rc_hits s = [HitOver] /\ rc_flusher s = FlushIdle /\ rc_todo s = [].
Proof.
  intros (Hi & _ & He) Hv Hd Hw Ht. destruct c as [[v [x]] i a]. simpl in *. subst v. assert (i = 0) as -> by lia.
  assert (Hgt : good_time t) by (by eapply good_window_time).
  assert (Hupd : update (E := E) (mkAev 0 (mkExpiry x)) d (window ctr) t = Ok (d, mkAev d (mkExpiry x))).
  { rewrite update_live by (done || (unfold live; simpl; lia)). simpl. by rewrite u64_add_small by lia. }
  assert (Hval : value_at (E := E) (mkAev d (mkExpiry x)) t = Ok d) by (by rewrite value_at_live by (done || (unfold live; simpl; lia))).
  set (x0 := mkExpiry x) in *. set (c0 := mkCached (mkAev d x0) 0 a). set (cd := mkCached (mkAev d x0) d a).
  assert (Hcommit : commit_writes c0 0 d = (Some (d, d), cd)) by done.
  exists (mkRace cd [HitOver] FlushIdle [] (0 + 0 + 0 + d + 0 + 0 + d) (0 + d + 0)).
  split; [|cbn; split_and!; done || lia].
  eapply (race_first _ _ _ (mkRace c0 [HitReset] FlushIdle [DoFlush; DoFlush] 0 (0 + d)) _ t Hw Ht).
  { apply (step_hit_eq _ _ _ _ 0 (HitTodo d) c0 HitReset d); [done| |done]. cbn [hit_step]. cbn [rc_cell race_start ccv_value].
    rewrite Hupd. cbn [outcome_bind fst snd]. by rewrite Z.eqb_refl. }
  eapply (race_first _ _ _ (mkRace c0 [HitReset] (FlushLoaded 0) [DoFlush] (0 + 0) (0 + d)) _ t Hw Ht); [by eapply step_flush_eq|].
  eapply (race_first _ _ _ (mkRace c0 [HitReset] (FlushRead 0 d) [DoFlush] (0 + 0 + 0) (0 + d)) _ t Hw Ht).
  { eapply step_flush_eq; [|done]. cbn [flush_step rc_cell rc_flusher rc_todo c0 ccv_value]. by rewrite Hval. }
  eapply (race_first _ _ _ (mkRace cd [HitReset] FlushIdle [DoFlush] (0 + 0 + 0 + d) (0 + d)) _ t Hw Ht).
  { eapply step_flush_eq; [|done]. cbn [flush_step rc_cell rc_flusher rc_todo]. by rewrite Hcommit. }
  eapply (race_first _ _ _ (mkRace c0 [HitOver] FlushIdle [DoFlush] (0 + 0 + 0 + d) (0 + d + 0)) _ t Hw Ht); [by eapply (step_hit_eq _ _ _ _ 0 HitReset)|].
  eapply (race_first _ _ _ (mkRace c0 [HitOver] (FlushLoaded 0) [] (0 + 0 + 0 + d + 0) (0 + d + 0)) _ t Hw Ht); [by eapply step_flush_eq|].
  eapply (race_first _ _ _ (mkRace c0 [HitOver] (FlushRead 0 d) [] (0 + 0 + 0 + d + 0 + 0) (0 + d + 0)) _ t Hw Ht).
  { eapply step_flush_eq; [|done]. cbn [flush_step rc_cell rc_flusher rc_todo c0 ccv_value]. by rewrite Hval. }
  eapply (race_first _ _ _ _ _ t Hw Ht); [|apply race_refl].
  eapply step_flush_eq; [|done]. cbn [flush_step rc_cell rc_flusher rc_todo]. by rewrite Hcommit.
Qed.
End races.

(** ** Examples *)

#[local] Existing Instance demo_engine.


(** Five hits on a counter that was not hit before, and two flushes. *)
Lemma first_hits_sent_twice_witness : exists s,
  race (E := unit) demo_counter 60000000 (race_start (demo_cached 0 0) [5] [DoFlush; DoFlush]) s /\
  rc_counted s = 5 /\ rc_sent s = 10.
Proof.
  destruct (first_hits_sent_twice (E := unit) demo_counter 60000000 (demo_cached 0 0) 5 (from_secs 1))
    as (s & Hr & Hc & Hs & _).
  - unfold open_until. split_and!; vm_compute; discriminate.
  - reflexivity.
  - split; vm_compute; [reflexivity|discriminate].
  - vm_compute. intuition discriminate.
  - vm_compute. reflexivity.
  - exists s. split_and!; [exact Hr|exact Hc|exact Hs].
Defined.
