(* ===== verification/BatcherLocks.v ===== *)
(** * Waiting in the batcher: [storage/redis/counters_cache.rs]

    [CountersCache.v] runs [Batcher::add] and [Batcher::consume] as single steps.  Here
    they are interleaved.  [updates] is a [DashMap], a sharded map whose entry holds the
    write lock of its shard while it is alive and whose readers wait for it; [add] keeps
    an entry while it awaits a permit of the semaphore, and [consume] locks shards to
    count, to pick and to remove entries.  A task stands between two points where it
    locks or awaits; [task_step] is its next step, [None] while it has to wait.  The
    keys of the counters are abstract. *)

From S2P Require Import Prelude.

Section batcher.
Context {K : Type} `{Countable K}.
(** The shard of a key, the number of shards, the size of a batch, the permits, and the
    entries that need a fast flush. *)
Variables (shard : K -> nat) (shards max capacity : nat) (fast : K -> bool).

Inductive Task : Type :=
(** [add]: about to take the entry; holding it without a permit; about to notify *)
| AddEntry (k : K)
| AddAcquire (k : K)
| AddNotify (priority : bool)
| AddDone
(** [consume]: counting in [batch_ready]; in [select!]; picking urgent entries, then
    others; reading the batch; in the consumer; removing *)
| FlushLen (j n : nat)
| FlushWait
| FlushFast (j : nat) (batch : list K)
| FlushRest (j : nat) (batch : list K) (remaining : nat)
| FlushGet (todo batch : list K)
| FlushSend (batch : list K)
| FlushRemove (batch : list K).

Record State : Type := mkState {
  queue : gset K;
  permits : nat;
  locks : gmap nat nat;        (* the task that holds the write lock of a shard *)
  notified : bool;
  priority_flag : bool;
  tasks : gmap nat Task
}.

Definition init (ts : gmap nat Task) : State := mkState ∅ capacity ∅ false false ts.

Definition set_task (s : State) (i : nat) (t : Task) : State :=
  mkState (queue s) (permits s) (locks s) (notified s) (priority_flag s) (<[i := t]> (tasks s)).

(** What the environment decides: which branch of [select!] is taken, whether the
    consumer succeeds, whether a value is urgent or has writes pending, and whether the
    call is cancelled. *)
Inductive Choice : Type :=
| Go (b : bool)
| Cancel.

(** The entries of a shard. *)
Definition in_shard (s : State) (j : nat) : list K := elements (filter (fun k => shard k = j) (queue s)).

Definition unlocked (s : State) (j : nat) : bool := bool_decide (locks s !! j = None).

(** [batch_ready], once the entries are counted. *)
Definition ready (s : State) (i n : nat) : State :=
  if (max <=? n)%nat then set_task s i (FlushFast 0 [])
  else if priority_flag s then
    mkState (queue s) (permits s) (locks s) (notified s) false (<[i := FlushFast 0 []]> (tasks s))
  else set_task s i FlushWait.

Definition task_step (s : State) (i : nat) (t : Task) (ch : Choice) : option State :=
  match t, ch with
  | AddEntry k, Go priority =>
      if unlocked s (shard k) then
        if bool_decide (k ∈ queue s) then Some (set_task s i (AddNotify priority))
        else Some (mkState (queue s) (permits s) (<[shard k := i]> (locks s)) (notified s) (priority_flag s)
                     (<[i := AddAcquire k]> (tasks s)))
      else None
  | AddEntry _, Cancel => Some (set_task s i AddDone)
  | AddAcquire k, Go priority =>
      match permits s with
      | O => None
      | S p => Some (mkState ({[k]} ∪ queue s) p (delete (shard k) (locks s)) (notified s) (priority_flag s)
                       (<[i := AddNotify priority]> (tasks s)))
      end
  | AddAcquire k, Cancel =>
      Some (mkState (queue s) (permits s) (delete (shard k) (locks s)) (notified s) (priority_flag s)
              (<[i := AddDone]> (tasks s)))
  | AddNotify priority, _ =>
      Some (mkState (queue s) (permits s) (locks s) true (priority_flag s || priority) (<[i := AddDone]> (tasks s)))
  | AddDone, _ => None
  | FlushLen j n, _ =>
      if (shards <=? j)%nat then Some (ready s i n)
      else if unlocked s j then Some (set_task s i (FlushLen (S j) (n + length (in_shard s j)))) else None
  | FlushWait, Go timer =>
      if timer then Some (set_task s i (FlushFast 0 []))
      else if notified s then
        Some (mkState (queue s) (permits s) (locks s) false (priority_flag s) (<[i := FlushLen 0 0]> (tasks s)))
      else None
  | FlushFast j batch, _ =>
      if ((max <=? length batch) || (shards <=? j))%nat
      then Some (set_task s i (FlushRest 0 batch (max - length batch)))
      else if unlocked s j
      then Some (set_task s i (FlushFast (S j) (take max (batch ++ List.filter fast (in_shard s j))))) else None
  | FlushRest j batch remaining, _ =>
      if ((remaining <=? 0) || (shards <=? j))%nat then Some (set_task s i (FlushGet batch batch))
      else if unlocked s j
      then let ks := take remaining (in_shard s j) in
           Some (set_task s i (FlushRest (S j) (batch ++ ks) (remaining - length ks)))
      else None
  | FlushGet [] batch, _ => Some (set_task s i (FlushSend batch))
  | FlushGet (k :: todo) batch, _ =>
      if unlocked s (shard k) then Some (set_task s i (FlushGet todo batch)) else None
  | FlushSend batch, Go ok => Some (set_task s i (if ok then FlushRemove batch else FlushLen 0 0))
  | FlushRemove [], _ => Some (set_task s i (FlushLen 0 0))
  | FlushRemove (k :: batch), Go no_pending_writes =>
      if unlocked s (shard k) then
        if bool_decide (k ∈ queue s) && no_pending_writes then
          Some (mkState (queue s ∖ {[k]}) (S (permits s)) (locks s) (notified s) (priority_flag s)
                  (<[i := FlushRemove batch]> (tasks s)))
        else Some (set_task s i (FlushRemove batch))
      else None
  | _, Cancel => None
  end.

(** One step of some task, and any number of them. *)
Inductive step (s : State) : State -> Prop :=
| step_task i t ch s' : tasks s !! i = Some t -> task_step s i t ch = Some s' -> step s s'.

(** The same without a call being cancelled while it waits. *)
Inductive step_uncancelled (s : State) : State -> Prop :=
| step_go i t b s' : tasks s !! i = Some t -> task_step s i t (Go b) = Some s' -> step_uncancelled s s'.

(** A schedule: which task goes next, and what the environment decides. *)
Fixpoint run_tasks (s : State) (ms : list (nat * bool)) : option State :=
  match ms with
  | [] => Some s
  | (i, b) :: ms => t ← tasks s !! i; s1 ← task_step s i t (Go b); run_tasks s1 ms
  end.

Lemma run_tasks_steps s ms s' : run_tasks s ms = Some s' -> rtc step_uncancelled s s'.
Proof.
  revert s. induction ms as [|[i b] ms IH]; intros s; simpl; [intros [= ->]; apply rtc_refl|].
  intros (t & Ht & (s1 & Hs & Hr)%bind_Some)%bind_Some. eapply rtc_l; [by eapply step_go|by apply IH].
Qed.

Lemma uncancelled_steps s s' : rtc step_uncancelled s s' -> rtc step s s'.
Proof. apply rtc_subrel. intros s1 s2 [i t b s3 Ht Hs]. by econstructor. Qed.

(** ** The queue never holds more than its permits *)

(** A task that waits for a permit holds the lock of its shard, and its key is not queued. *)
Definition waiting_ok (s : State) : Prop :=
  forall i k, tasks s !! i = Some (AddAcquire k) -> locks s !! shard k = Some i /\ k ∉ queue s.

Definition batcher_inv (s : State) : Prop := (size (queue s) + permits s = capacity)%nat /\ waiting_ok s.

(** A step that leaves queue, permits and locks alone. *)
Lemma inv_set_task s i t t0 :
  batcher_inv s -> tasks s !! i = Some t0 -> (forall k, t <> AddAcquire k) -> batcher_inv (set_task s i t).
Proof.
  intros [Hc Hw] Hi Ht. split; [done|]. intros i' k Hi'. simpl in Hi'.
  destruct (decide (i' = i)) as [->|Hne]; [rewrite lookup_insert_eq in Hi'; injection Hi' as ->; by destruct (Ht k)|].
  rewrite lookup_insert_ne in Hi' by done. by apply Hw.
Qed.

(** The other tasks still hold their locks. *)
Lemma waiting_others s i t s' :
  waiting_ok s -> tasks s' = <[i := t]> (tasks s) -> (forall k, t <> AddAcquire k) ->
  (forall i' k, i' <> i -> tasks s !! i' = Some (AddAcquire k) -> locks s' !! shard k = locks s !! shard k /\
     (k ∉ queue s -> k ∉ queue s')) -> waiting_ok s'.
Proof.
  intros Hw Ht Hn Ho i' k Hi'. rewrite Ht in Hi'.
  destruct (decide (i' = i)) as [->|Hne]; [rewrite lookup_insert_eq in Hi'; injection Hi' as ->; by destruct (Hn k)|].
  rewrite lookup_insert_ne in Hi' by done. destruct (Hw i' k Hi') as [Hl Hq]. destruct (Ho i' k Hne Hi') as [-> Hq']. auto.
Qed.

(** A task that gets its permit, or gives up, frees its own shard only. *)
Lemma acquire_inv s i k ch s' :
  batcher_inv s -> tasks s !! i = Some (AddAcquire k) -> task_step s i (AddAcquire k) ch = Some s' -> batcher_inv s'.
Proof.
  intros [Hc Hw] Hi Hstep. destruct (Hw i k Hi) as [Hl Hq].
  assert (Hother : forall i' k', i' <> i -> tasks s !! i' = Some (AddAcquire k') -> shard k' <> shard k).
  { intros i' k' Hne Hi' Heq. destruct (Hw i' k' Hi') as [Hl' _]. rewrite Heq in Hl'. congruence. }
  destruct ch as [b|]; simpl in Hstep.
  - destruct (permits s) as [|p] eqn:Hp; [done|]. injection Hstep as <-. split.
    { simpl. rewrite size_union by set_solver. rewrite size_singleton. lia. }
    eapply (waiting_others s i); [done|done|done|]. intros i' k' Hne Hi'. specialize (Hother i' k' Hne Hi'). simpl.
    rewrite lookup_delete_ne by done. split; [done|]. set_solver.
  - injection Hstep as <-. split; [done|]. eapply (waiting_others s i); [done|done|done|]. intros i' k' Hne Hi'.
    specialize (Hother i' k' Hne Hi'). simpl. by rewrite lookup_delete_ne.
Qed.

Lemma step_inv s s' : batcher_inv s -> step s s' -> batcher_inv s'.
Proof.
  intros Hinv [i t ch s1 Hi Hstep]. pose proof Hinv as [Hc Hw].
  assert (Hset : forall t', (forall k, t' <> AddAcquire k) -> batcher_inv (set_task s i t')) by (intros; by eapply inv_set_task).
  destruct t as [k|k|b| |j n| |j batch|j batch rem|todo batch|batch|batch].
  - destruct ch as [b|]; simpl in Hstep; [|injection Hstep as <-; by apply Hset].
    unfold unlocked in Hstep. case_bool_decide as Hl; [|done]. case_bool_decide as Hq; injection Hstep as <-; [by apply Hset|].
    split; [done|]. intros i' k' Hi'. simpl in *. destruct (decide (i' = i)) as [->|Hne].
    + rewrite lookup_insert_eq in Hi'. injection Hi' as <-. by rewrite lookup_insert_eq.
    + rewrite lookup_insert_ne in Hi' by done. destruct (Hw i' k' Hi') as [Hl' Hq']. split; [|done].
      rewrite lookup_insert_ne; [done|]. intros Heq. congruence.
  - by apply (acquire_inv s i k ch).
  - assert (Some s1 = Some (mkState (queue s) (permits s) (locks s) true (priority_flag s || b) (<[i := AddDone]> (tasks s)))) as [= ->]
      by (by destruct ch). split; [done|]. by eapply (waiting_others s i).
  - by destruct ch.
  - simpl in Hstep. assert (Hr : batcher_inv (ready s i n)).
    { unfold ready. destruct (max <=? n)%nat; [by apply Hset|]. destruct (priority_flag s); [|by apply Hset].
      split; [done|]. by eapply (waiting_others s i). }
    destruct (shards <=? j)%nat; [by destruct ch; injection Hstep as <-|].
    destruct (unlocked s j); destruct ch; try done; injection Hstep as <-; by apply Hset.
  - destruct ch as [b|]; [|done]. simpl in Hstep. destruct b; [injection Hstep as <-; by apply Hset|].
    destruct (notified s); [|done]. injection Hstep as <-. split; [done|]. by eapply (waiting_others s i).
  - simpl in Hstep. repeat case_match; simplify_eq; by apply Hset.
  - simpl in Hstep. repeat case_match; simplify_eq; by apply Hset.
  - simpl in Hstep. repeat case_match; simplify_eq; by apply Hset.
  - destruct ch as [b|]; [|done]. injection Hstep as <-. destruct b; by apply Hset.
  - destruct batch as [|k batch]; [destruct ch; injection Hstep as <-; by apply Hset|].
    destruct ch as [b|]; [|done]. simpl in Hstep. destruct (unlocked s (shard k)); [|done].
    destruct (bool_decide (k ∈ queue s) && b) eqn:Hb; injection Hstep as <-; [|by apply Hset].
    apply andb_prop in Hb as [Hk%bool_decide_eq_true _]. split.
    + simpl. rewrite size_difference by set_solver. rewrite size_singleton.
      assert (size (queue s) <> 0%nat) by (intros Hz; apply size_empty_inv in Hz; set_solver). lia.
    + eapply (waiting_others s i); [done|done|done|]. intros i' k' Hne Hi'. simpl. split; [done|]. set_solver.
Qed.

(** C27: the batcher is bounded.  However calls that add counters, flushes and
    cancellations are interleaved, the queued counters and the free permits always add
    up to the capacity, so that never more counters are queued than configured; and a
    call that waits for a permit is the only one that holds its shard, its counter not
    being queued. *)
Theorem batcher_bounded ts s :
  (forall i k, ts !! i <> Some (AddAcquire k)) -> rtc step (init ts) s ->
  (size (queue s) + permits s = capacity)%nat /\
  forall i k, tasks s !! i = Some (AddAcquire k) -> locks s !! shard k = Some i /\ k ∉ queue s.
Proof.
  intros Hts Hr. assert (H0 : batcher_inv (init ts)).
  { split; [unfold init; cbn [queue permits]; by rewrite size_empty|]. intros i k Hi. by destruct (Hts i k). }
  clear Hts. induction Hr as [s|s1 s2 s3 Hs Hr IH]; [exact H0|]. apply IH. by eapply step_inv.
Qed.

(** ** A full batcher can stop for good *)

Definition is_adder (t : Task) : bool :=
  match t with AddEntry _ | AddAcquire _ | AddNotify _ | AddDone => true | _ => false end.

(** Task [a] waits for a permit with the lock of its shard, there is no permit, and the
    only task that flushes, [f], has to count that shard before it does anything else. *)
Definition blocked (a f : nat) (k : K) (s : State) : Prop :=
  tasks s !! a = Some (AddAcquire k) /\ locks s !! shard k = Some a /\ permits s = 0%nat /\ (shard k < shards)%nat /\
  (exists j n, tasks s !! f = Some (FlushLen j n) /\ (j <= shard k)%nat) /\
  (forall i t, tasks s !! i = Some t -> i <> f -> is_adder t = true).

(** The task of another call moves on and leaves the shard of [k] locked. *)
Lemma blocked_other a f k s s' i t :
  blocked a f k s -> is_adder t = true -> i <> a -> i <> f -> tasks s' = <[i := t]> (tasks s) -> permits s' = permits s ->
  locks s' !! shard k = locks s !! shard k -> blocked a f k s'.
Proof.
  intros (Ha & Hl & Hp & Hs & (j & n & Hf & Hj) & Ho) Hadd Hia Hif Ht Hp' Hl'. unfold blocked.
  rewrite Ht, Hp', Hl', !lookup_insert_ne by done. split_and!; [done..|by exists j, n|].
  intros i' t' Hi' Hne. destruct (decide (i' = i)) as [->|Hni]; [rewrite lookup_insert_eq in Hi'; by injection Hi' as <-|].
  rewrite lookup_insert_ne in Hi' by done. by eapply Ho.
Qed.

Lemma blocked_step a f k s s' : blocked a f k s -> step_uncancelled s s' -> blocked a f k s' /\ queue s' = queue s.
Proof.
  intros Hb [i t b s1 Hi Hstep]. pose proof Hb as (Ha & Hl & Hp & Hs & (j & n & Hf & Hj) & Ho).
  destruct (decide (i = f)) as [->|Hif].
  { rewrite Hf in Hi. injection Hi as <-. simpl in Hstep. destruct (Nat.leb_spec shards j); [lia|].
    unfold unlocked in Hstep. case_bool_decide as Hlj; [|done]. injection Hstep as <-.
    assert (j <> shard k) by (intros ->; congruence). split; [|done].
    assert (a <> f) by congruence. unfold blocked. simpl. rewrite lookup_insert_eq, lookup_insert_ne by done.
    split_and!; [done..|by eexists _, _; split; [done|lia]|].
    intros i' t' Hi' Hne. rewrite lookup_insert_ne in Hi' by done. by eapply Ho. }
  pose proof (Ho i t Hi Hif) as Hadd. destruct t as [k'|k'|b'| | | | | | | |]; try done; simpl in Hstep.
  - assert (i <> a) by congruence. unfold unlocked in Hstep. case_bool_decide as Hlk; [|done].
    case_bool_decide; injection Hstep as <-; (split; [|done]); [by apply (blocked_other a f k s _ i (AddNotify b))|].
    apply (blocked_other a f k s _ i (AddAcquire k')); [done..|]. simpl. rewrite lookup_insert_ne; [done|]. intros Heq. congruence.
  - by rewrite Hp in Hstep.
  - injection Hstep as <-. assert (i <> a) by congruence. split; [|done]. by apply (blocked_other a f k s _ i AddDone).
Qed.

(** C28: a full batcher can stop for good.  Once a call waits for a permit, none being
    left, and the flush has to count the queue again before it picks a batch, nothing
    is ever sent again unless the waiting call is cancelled: the call keeps the lock
    that the flush waits for, the flush never gets to return a permit, and the queue
    stays as it is whatever other calls do. *)
Theorem full_batcher_stops a f k s s' :
  blocked a f k s -> rtc step_uncancelled s s' ->
  queue s' = queue s /\ permits s' = 0%nat /\ tasks s' !! a = Some (AddAcquire k) /\
  exists j n, tasks s' !! f = Some (FlushLen j n).
Proof.
  intros Hb Hr. assert (H' : blocked a f k s' /\ queue s' = queue s).
  { induction Hr as [|s s1 s2 Hs Hr IH]; [done|]. destruct (blocked_step a f k s s1 Hb Hs) as [Hb1 Hq1].
    destruct (IH Hb1) as [Hb2 Hq2]. split; [done|congruence]. }
  destruct H' as [(Ha & _ & Hp & _ & (j & n & Hf & _) & _) Hq]. split_and!; [done..|by exists j, n].
Qed.
End batcher.

(** Two calls on a batcher with one permit, on one shard. *)
Definition demo_tasks : gmap nat (Task (K := nat)) := <[1%nat := AddEntry 10%nat]> (<[2%nat := AddEntry 20%nat]> {[3%nat := FlushWait]}).

Definition demo_full : option (State (K := nat)) :=
  run_tasks (fun _ => 0%nat) 1 5 (fun _ => false) (init 1 demo_tasks)
    [(1, false); (1, false); (1, false); (2, false); (3, false)]%nat.

Lemma batcher_bounded_witness : exists s, demo_full = Some s /\ (size (queue s) + permits s = 1)%nat.
Proof.
  destruct demo_full as [s|] eqn:Hs; [|vm_compute in Hs; discriminate]. exists s. split; [done|].
  apply (batcher_bounded (fun _ => 0%nat) 1 5 1 (fun _ => false) demo_tasks s).
  - intros i k. unfold demo_tasks. destruct (decide (i = 1%nat)) as [->|]; [by rewrite lookup_insert_eq|].
    rewrite lookup_insert_ne by done. destruct (decide (i = 2%nat)) as [->|]; [by rewrite lookup_insert_eq|].
    rewrite lookup_insert_ne by done. intros Hl. apply lookup_singleton_Some in Hl as [_ Hl]. done.
  - by eapply uncancelled_steps, run_tasks_steps.
Defined.

(** The first call took the permit, the second one waits, and the flush was notified. *)
Definition demo_blocked : State (K := nat) :=
  mkState {[10%nat]} 0 {[0%nat := 2%nat]} false false
    (<[1%nat := AddDone]> (<[2%nat := AddAcquire 20%nat]> {[3%nat := FlushLen 0 0]})).

Lemma full_batcher_stops_witness : demo_full = Some demo_blocked /\
  forall s', rtc (step_uncancelled (fun _ => 0%nat) 1 5 (fun _ => false)) demo_blocked s' ->
    queue s' = {[10%nat]} /\ permits s' = 0%nat /\ tasks s' !! 2%nat = Some (AddAcquire 20%nat).
Proof.
  split; [vm_compute; reflexivity|]. intros s' Hr.
  destruct (full_batcher_stops (fun _ => 0%nat) 1 5 (fun _ => false) 2 3 20%nat demo_blocked s') as (Hq & Hp & Ht & _); [|exact Hr|].
  - split_and!; [reflexivity|reflexivity|reflexivity|lia|by exists 0%nat, 0%nat|].
    intros i t Hi Hne. unfold demo_blocked in Hi. cbn [tasks] in Hi.
    apply lookup_insert_Some in Hi as [[_ <-]|[_ Hi]]; [done|]. apply lookup_insert_Some in Hi as [[_ <-]|[_ Hi]]; [done|].
    by apply lookup_singleton_Some in Hi as [<- _].
  - by rewrite Hq.
Defined.
