(* ===== verification/EnvoyRls.v ===== *)
(** * The gRPC services: [limitador-server/src/envoy_rls]

    [MyRateLimiter] ([server.rs]) answers Envoy's [ShouldRateLimit];
    [KuadrantService] ([kuadrant_service.rs]) splits it into a check and a
    report and adds reservations.  The services see the rate limiter as the enum
    [Limiter]: the class [LimiterOps] with its blocking and its asynchronous
    instance.  The metrics are the log of the calls made to them; tracing is
    left out. *)

From S2P Require Import Prelude Cel Errors Limit Counter Reservation Storage AsyncStorage.
From S2P Require Import AsyncRateLimiter RateLimiter.

(** What the generated code and the formatting derives provide. *)
Class Wire : Type := {
  ProtoDuration : Type;
  duration_try_from : ProtoDuration -> option Duration;
  debug_storage_err : StorageErr -> string;
  debug_evaluation_err : EvaluationError -> string
}.

Inductive Code : Type := CodeUnknown | CodeOk | CodeOverLimit.

#[export] Instance Code_eq_dec : EqDecision Code.
Proof. solve_decision. Defined.

Inductive StatusCode : Type := Internal | Unavailable | FailedPrecondition | Unimplemented.

Record Status : Type := mkStatus { status_code : StatusCode; status_message : string }.

(** A descriptor is the list of its entries. *)
Record RateLimitRequest : Type := mkRlRequest {
  domain : string;
  descriptors : list (list (string * string));
  hits_addend : Z
}.

(** The other fields of a response are always empty. *)
Record RateLimitResponse : Type := mkRlResponse {
  overall_code : Code;
  response_headers_to_add : list (string * string)
}.

Record ReserveRequest `{Wire} : Type := mkReserveRequest {
  rq_domain : string;
  rq_descriptors : list (list (string * string));
  rq_amount : Z;
  rq_ttl : option ProtoDuration
}.

Record ReserveResponse : Type := mkReserveResponse {
  rsp_code : Code;
  rsp_reservation_id : option string;
  reserved_amount : Z;
  rsp_headers : list (string * string)
}.

Record CommitRequest : Type := mkCommitRequest {
  cq_domain : string;
  cq_descriptors : list (list (string * string));
  cq_reservation_id : option string;
  actual_amount : Z
}.

Record CommitResponse : Type := mkCommitResponse { rsp_released : bool }.

Inductive RateLimitHeaders : Type := HeadersNone | DraftVersion03.

#[export] Instance RateLimitHeaders_eq_dec : EqDecision RateLimitHeaders.
Proof. solve_decision. Defined.

Section envoy_rls.
Context {CE : CelEngine} {HO : HashOrder} {WI : Wire}.

(** [enum Limiter], as the operations the services call on it. *)
Class LimiterOps (L : Type) : Type := {
  l_is_rate_limited : string -> Context -> Z -> M L LimitadorError CheckResult;
  l_update_counters : string -> Context -> Z -> M L LimitadorError unit;
  l_check_rate_limited_and_update : string -> Context -> Z -> M L LimitadorError CheckResult;
  l_reserve : ReservationId -> string -> Context -> Z -> option Duration -> M L LimitadorError ReserveResult;
  l_commit_reservation : string -> Context -> option ReservationId -> Z -> M L LimitadorError CommitResult
}.

Definition blocking_limiter {St} (CS : CounterStorage St) : LimiterOps (RateLimiter St) := {|
  l_is_rate_limited := RateLimiter.is_rate_limited;
  l_update_counters := RateLimiter.update_counters;
  l_check_rate_limited_and_update := RateLimiter.check_rate_limited_and_update;
  l_reserve := RateLimiter.reserve;
  l_commit_reservation := RateLimiter.commit_reservation
|}.

Definition async_limiter {St} (AS : AsyncStorage.AsyncCounterStorage St) : LimiterOps (RateLimiter St) := {|
  l_is_rate_limited := AsyncRateLimiter.is_rate_limited;
  l_update_counters := AsyncRateLimiter.update_counters;
  l_check_rate_limited_and_update := AsyncRateLimiter.check_rate_limited_and_update;
  l_reserve := AsyncRateLimiter.reserve;
  l_commit_reservation := AsyncRateLimiter.commit_reservation
|}.

(** A call of [PrometheusMetrics]. *)
Inductive MetricCall : Type :=
| IncrAuthorizedCalls (ns : string) (ctx : Context)
| IncrAuthorizedHits (ns : string) (ctx : Context) (hits : Z)
| IncrLimitedCalls (ns : string) (name : option string) (ctx : Context)
| IncrReportCalls (ns : string) (ctx : Context).

(** The state the services share. *)
Record Service (L : Type) : Type := mkService {
  svc_limiter : L;
  svc_metrics : list MetricCall
}.
#[global] Arguments mkService {L} svc_limiter svc_metrics.
#[global] Arguments svc_limiter {L} s.
#[global] Arguments svc_metrics {L} s.

Record ServiceConfig : Type := mkServiceConfig {
  rate_limit_headers : RateLimitHeaders;
  disable_reservations : bool
}.

(** ** Shared helpers *)

(** [impl Display for LimitadorError] *)
Definition display_limitador_error (e : LimitadorError) : string :=
  match e with
  | StorageError err => "error while accessing the limits storage: " +:+ debug_storage_err err
  | InterpreterError err => "error parsing condition: " +:+ debug_evaluation_err err
  end.

Definition status_from_error (e : LimitadorError) : Status :=
  match e with
  | InterpreterError _ => mkStatus Internal (display_limitador_error e)
  | StorageError err =>
      if is_transient err then mkStatus Unavailable "Service unavailable"
      else mkStatus FailedPrecondition (display_limitador_error e)
  end.

(** A later entry of a descriptor replaces an earlier one with its key. *)
Definition descriptor_map (entries : list (string * string)) : gmap string string :=
  foldl (fun m kv => <[kv.1 := kv.2]> m) ∅ entries.

Definition context_from_descriptors (ds : list (list (string * string))) : Context :=
  list_binding context_default "descriptors" (descriptor_map <$> ds).

(** The headers are sorted by their distinct keys. *)
Definition headers_from_map (self : RateLimitHeaders) (headers : gmap string string)
    : list (string * string) :=
  btree_collect fst
    match self with
    | HeadersNone => []
    | DraftVersion03 => hash_iter headers
    end.

(** The addend is optional and defaults to 1, which the wire shows as 0. *)
Definition hits_addend_of (req : RateLimitRequest) : Z :=
  if hits_addend req =? 0 then 1 else hits_addend req.

Context {L : Type} {LO : LimiterOps L}.
Abbreviation SM A := (M (Service L) Status A).

Definition on_limiter {E A} (m : M L E A) : M (Service L) E A :=
  zoom svc_limiter (fun l s => mkService l (svc_metrics s)) m.

Definition metric {E} (c : MetricCall) : M (Service L) E unit :=
  let* s := get in put (mkService (svc_limiter s) (svc_metrics s ++ [c])).

(** The headers of a result, none when they are disabled. *)
Definition headers_of (self : RateLimitHeaders) (cs : list Counter) : list (string * string) :=
  headers_from_map self
    (if negb (bool_decide (self = HeadersNone)) then (response_headers_for cs).1 else ∅).

(** ** [MyRateLimiter] *)

Definition should_rate_limit (cfg : ServiceConfig) (req : RateLimitRequest) : SM RateLimitResponse :=
  let ns := domain req in
  if bool_decide (ns = ""%string) then ret (mkRlResponse CodeUnknown [])
  else
    let hits := hits_addend_of req in
    let ctx := list_binding context_default "descriptors" (descriptor_map <$> descriptors req) in
    let* resp := map_err (fun _ => mkStatus Unavailable "Service unavailable")
                   (on_limiter (l_check_rate_limited_and_update ns ctx hits)) in
    let headers := headers_of (rate_limit_headers cfg) (counters resp) in
    let* code :=
      if limited resp then metric (IncrLimitedCalls ns (result_limit_name resp) ctx) ;;; ret CodeOverLimit
      else
        metric (IncrAuthorizedCalls ns ctx) ;;;
        metric (IncrAuthorizedHits ns ctx hits) ;;;
        ret CodeOk in
    ret (mkRlResponse code headers).

(** ** [KuadrantService] *)

Definition check_rate_limit (cfg : ServiceConfig) (req : RateLimitRequest) : SM RateLimitResponse :=
  let ns := domain req in
  if bool_decide (ns = ""%string) then ret (mkRlResponse CodeUnknown [])
  else
    let ctx := context_from_descriptors (descriptors req) in
    let* resp := map_err status_from_error (on_limiter (l_is_rate_limited ns ctx 1)) in
    let* code :=
      if limited resp then metric (IncrLimitedCalls ns (result_limit_name resp) ctx) ;;; ret CodeOverLimit
      else metric (IncrAuthorizedCalls ns ctx) ;;; ret CodeOk in
    ret (mkRlResponse code (headers_of (rate_limit_headers cfg) (counters resp))).

Definition report (cfg : ServiceConfig) (req : RateLimitRequest) : SM RateLimitResponse :=
  let ns := domain req in
  if bool_decide (ns = ""%string) then ret (mkRlResponse CodeUnknown [])
  else
    let hits := hits_addend_of req in
    let ctx := context_from_descriptors (descriptors req) in
    map_err status_from_error (on_limiter (l_update_counters ns ctx hits)) ;;;
    metric (IncrReportCalls ns ctx) ;;;
    metric (IncrAuthorizedHits ns ctx hits) ;;;
    ret (mkRlResponse CodeOk []).

Definition svc_reserve (cfg : ServiceConfig) (uuid : ReservationId) (req : ReserveRequest) : SM ReserveResponse :=
  if disable_reservations cfg then throw (mkStatus Unimplemented "reservations are disabled")
  else
    let ns := rq_domain req in
    if bool_decide (ns = ""%string) then ret (mkReserveResponse CodeUnknown None 0 [])
    else
      let ctx := context_from_descriptors (rq_descriptors req) in
      let ttl := rq_ttl req ≫= duration_try_from in
      let* resp := map_err status_from_error (on_limiter (l_reserve uuid ns ctx (rq_amount req) ttl)) in
      let* '(code, id) :=
        if rr_limited resp then
          metric (IncrLimitedCalls ns (rr_limit_name resp) ctx) ;;; ret (CodeOverLimit, None)
        else metric (IncrAuthorizedCalls ns ctx) ;;; ret (CodeOk, rr_reservation_id resp) in
      ret (mkReserveResponse code id (rr_amount resp)
             (headers_of (rate_limit_headers cfg) (rr_counters resp))).

Definition svc_commit (cfg : ServiceConfig) (req : CommitRequest) : SM CommitResponse :=
  if disable_reservations cfg then throw (mkStatus Unimplemented "reservations are disabled")
  else
    let ns := cq_domain req in
    if bool_decide (ns = ""%string) then ret (mkCommitResponse false)
    else
      let ctx := context_from_descriptors (cq_descriptors req) in
      let* resp := map_err status_from_error
                     (on_limiter (l_commit_reservation ns ctx (cq_reservation_id req) (actual_amount req))) in
      metric (IncrReportCalls ns ctx) ;;;
      metric (IncrAuthorizedHits ns ctx (actual_amount req)) ;;;
      ret (mkCommitResponse (reservation_released resp)).
End envoy_rls.
