(* ===== verification/EnvoyRlsSpec.v ===== *)
(** * What a gRPC caller can rely on

    The services over a blocking limiter whose storage keeps its contract. *)

From S2P Require Import Prelude AtomicExpiringValue Cel Errors Limit Counter Reservation.
From S2P Require Import Storage Moka LocalReservations StorageSpec InMemory InMemoryInv.
From S2P Require Import InMemorySpec AsyncStorage AsyncRateLimiter RateLimiter RateLimiterSpec.
From S2P Require Import EnvoyRls.

Section rls_spec.
Context {CE : CelEngine} {HO : HashOrder} {WI : Wire} {St : Type} {CS : CounterStorage St}
  {SP : CounterStorageSpec St}.
Implicit Types (r : RateLimiter St) (t : SystemTime) (cfg : ServiceConfig) (k : CounterKey).

#[local] Instance blocking_ops : LimiterOps (RateLimiter St) := blocking_limiter CS.

Lemma on_limiter_run {F A} t r ms (m : M (RateLimiter St) LimitadorError A) (f : LimitadorError -> F) a r' :
  runs t r m (Ok a) r' -> runs t (mkService r ms) (map_err f (on_limiter m)) (Ok a) (mkService r' ms).
Proof.
  intros Hm. apply (runs_map_err t (mkService r ms) f _ (Ok a)).
  apply (runs_zoom t svc_limiter (fun l s => mkService l (svc_metrics s)) (mkService r ms)), Hm.
Qed.

Lemma metric_run {E} t r ms c : runs t (mkService r ms) (metric (E := E) c) (Ok tt) (mkService r (ms ++ [c])).
Proof. unfold metric. runs_step. apply runs_put. Qed.

Lemma headers_disabled cs : headers_of HeadersNone cs = [].
Proof. done. Qed.

Definition request_context (req : RateLimitRequest) : Context := context_from_descriptors (descriptors req).

(** The hits a request stands for: an absent addend, sent as 0, is one hit. *)
Lemma hits_addend_max req : 0 <= hits_addend req -> hits_addend_of req = Z.max 1 (hits_addend req).
Proof. unfold hits_addend_of. destruct (Z.eqb_spec (hits_addend req) 0); lia. Qed.

Lemma hits_addend_u64 req : 0 <= hits_addend req <= 4294967295 -> in_u64 (hits_addend_of req).
Proof. intros. rewrite hits_addend_max by lia. unfold in_u64, u64_max. lia. Qed.

Lemma over_some_false r t delta cs :
  over_some r t delta cs = false <-> forall c, c ∈ cs -> over (rl_value r t (counter_key c)) delta c = false.
Proof.
  unfold over_some. rewrite <-not_true_iff_false, existsb_exists. split.
  - intros Hno c Hc. apply not_true_iff_false. intros Ho. apply Hno. exists c. by rewrite <-list_elem_of_In.
  - intros Hall (c & Hc & Ho). rewrite Hall in Ho; [done|]. by apply list_elem_of_In.
Qed.

(** What a call of [should_rate_limit] does, answer by answer. *)
Lemma should_rate_limit_run r t cfg req cs ms :
  domain req <> ""%string -> 0 <= hits_addend req <= 4294967295 ->
  request_ok r t (domain req) (request_context req) cs ->
  let hits := Z.max 1 (hits_addend req) in
  let ok := negb (over_some r t hits cs) in
  exists headers name r',
    runs t (mkService r ms) (should_rate_limit cfg req)
      (Ok (mkRlResponse (if ok then CodeOk else CodeOverLimit) headers))
      (mkService r' (ms ++ if ok then [IncrAuthorizedCalls (domain req) (request_context req);
                                       IncrAuthorizedHits (domain req) (request_context req) hits]
                           else [IncrLimitedCalls (domain req) name (request_context req)])) /\
    (rate_limit_headers cfg = HeadersNone -> headers = []) /\ rl_inv r' /\ keeps t r r' /\
    (forall k, rl_value r' t k = if ok && bool_decide (k ∈ counter_key <$> cs)
                                 then u64_add (rl_value r t k) hits else rl_value r t k).
Proof.
  intros Hns Hh Hreq hits0 ok. subst ok hits0. rewrite <-hits_addend_max by lia.
  set (hits := hits_addend_of req).
  destruct (check_and_update_run r t _ _ hits cs Hreq (hits_addend_u64 req Hh))
    as (res & r' & Hrun & Hinv & Hl & Hv & _ & _ & Hk).
  apply (on_limiter_run t r ms _ (fun _ => mkStatus Unavailable "Service unavailable")) in Hrun.
  exists (headers_of (rate_limit_headers cfg) (counters res)), (result_limit_name res), r'.
  rewrite <-Hl. split_and!; [|by intros ->|done|done|done].
  unfold should_rate_limit. rewrite bool_decide_eq_false_2 by done.
  eapply runs_bind; [exact Hrun|]. destruct (limited res); (eapply runs_bind; [|apply runs_ret]).
  - eapply runs_bind; [apply metric_run|apply runs_ret].
  - eapply runs_bind; [apply metric_run|]. eapply runs_bind; [apply metric_run|].
    rewrite <-app_assoc. apply runs_ret.
Qed.

(** C17: Envoy's call is exact.  A request of a known namespace is answered OK exactly
    when every counter it touches has room for its hits, an absent addend counting as
    one; then each of them is counted, and otherwise nothing is.  The metrics record
    one authorized call and its hits, or one limited call, and there are no headers
    when they are switched off. *)
Theorem should_rate_limit_exact r t cfg req cs ms :
  domain req <> ""%string -> 0 <= hits_addend req <= 4294967295 ->
  request_ok r t (domain req) (request_context req) cs ->
  let hits := Z.max 1 (hits_addend req) in
  exists resp s', runs t (mkService r ms) (should_rate_limit cfg req) (Ok resp) s' /\
    (overall_code resp = CodeOk <-> forall c, c ∈ cs -> over (rl_value r t (counter_key c)) hits c = false) /\
    (overall_code resp <> CodeOk -> overall_code resp = CodeOverLimit) /\
    (forall k, rl_value (svc_limiter s') t k =
       if bool_decide (overall_code resp = CodeOk /\ k ∈ counter_key <$> cs)
       then u64_add (rl_value r t k) hits else rl_value r t k) /\
    (overall_code resp = CodeOk -> svc_metrics s' =
       ms ++ [IncrAuthorizedCalls (domain req) (request_context req);
              IncrAuthorizedHits (domain req) (request_context req) hits]) /\
    (overall_code resp <> CodeOk -> exists name, svc_metrics s' =
       ms ++ [IncrLimitedCalls (domain req) name (request_context req)]) /\
    (rate_limit_headers cfg = HeadersNone -> response_headers_to_add resp = []).
Proof.
  intros Hns Hh Hreq hits.
  destruct (should_rate_limit_run r t cfg req cs ms Hns Hh Hreq)
    as (headers & name & r' & Hrun & Hhd & _ & _ & Hv). fold hits in Hrun, Hv.
  do 2 eexists. split; [exact Hrun|]. simpl. rewrite <-over_some_false.
  destruct (over_some r t hits cs); simpl in *; split_and!; try done.
  - by eexists.
  - intros k. rewrite Hv. destruct (decide (k ∈ counter_key <$> cs)) as [Hk|Hk].
    + by rewrite !bool_decide_eq_true_2.
    + rewrite !bool_decide_eq_false_2; [done|by intros []|done].
Qed.

(** A check answers for one hit and changes nothing but the metrics. *)
Lemma check_rate_limit_run r t cfg req cs ms :
  domain req <> ""%string -> request_ok r t (domain req) (request_context req) cs ->
  exists headers ms', runs t (mkService r ms) (check_rate_limit cfg req)
    (Ok (mkRlResponse (if over_some r t 1 cs then CodeOverLimit else CodeOk) headers)) (mkService r ms').
Proof.
  intros Hns Hreq. destruct (is_rate_limited_run r t _ _ 1 cs Hreq) as (res & Hrun & Hl & _).
  eexists _, (ms ++ [if limited res then IncrLimitedCalls (domain req) (result_limit_name res) (request_context req)
                     else IncrAuthorizedCalls (domain req) (request_context req)]).
  unfold check_rate_limit. rewrite bool_decide_eq_false_2, <-Hl by done.
  eapply runs_bind; [apply on_limiter_run; exact Hrun|].
  destruct (limited res); (eapply runs_bind; [|apply runs_ret]); (eapply runs_bind; [apply metric_run|apply runs_ret]).
Qed.

(** A report counts, whether or not there is room. *)
Lemma report_run r t cfg req cs ms :
  domain req <> ""%string -> 0 <= hits_addend req <= 4294967295 ->
  request_ok r t (domain req) (request_context req) cs ->
  exists r' ms', runs t (mkService r ms) (report cfg req) (Ok (mkRlResponse CodeOk [])) (mkService r' ms') /\
    rl_inv r' /\ st_limits (rl_storage r') = st_limits (rl_storage r) /\
    (forall k, rl_value r' t k =
       if decide (k ∈ counter_key <$> cs) then u64_add (rl_value r t k) (Z.max 1 (hits_addend req))
       else rl_value r t k) /\
    (forall k, rl_holds r' k = rl_holds r k).
Proof.
  intros Hns Hh Hreq. rewrite <-hits_addend_max by lia.
  destruct (limiter_update_run r t _ _ _ cs Hreq (hits_addend_u64 req Hh)) as (r' & Hrun & Hinv & Hl & Hv & Hho).
  eexists r', _. split_and!; [|done..]. unfold report. rewrite bool_decide_eq_false_2 by done.
  eapply runs_bind; [apply on_limiter_run; exact Hrun|].
  eapply runs_bind; [apply metric_run|]. eapply runs_bind; [apply metric_run|apply runs_ret].
Qed.

(** The two halves of Kuadrant's protocol.  Checking answers for one hit and never
    counts anything, so it can be repeated at will; reporting counts all the hits of
    the request on every counter it touches, whether or not they fit and whatever
    the check said. *)
Theorem check_then_report r t cfg req cs ms :
  domain req <> ""%string -> 0 <= hits_addend req <= 4294967295 ->
  request_ok r t (domain req) (request_context req) cs ->
  exists resp ms1 resp' s',
    runs t (mkService r ms) (check_rate_limit cfg req) (Ok resp) (mkService r ms1) /\
    overall_code resp = (if over_some r t 1 cs then CodeOverLimit else CodeOk) /\
    runs t (mkService r ms1) (report cfg req) (Ok resp') s' /\
    overall_code resp' = CodeOk /\
    (forall k, rl_value (svc_limiter s') t k =
       if decide (k ∈ counter_key <$> cs) then u64_add (rl_value r t k) (Z.max 1 (hits_addend req))
       else rl_value r t k) /\
    (forall k, rl_holds (svc_limiter s') k = rl_holds r k).
Proof.
  intros Hns Hh Hreq. destruct (check_rate_limit_run r t cfg req cs ms Hns Hreq) as (headers & ms1 & H1).
  destruct (report_run r t cfg req cs ms1 Hns Hh Hreq) as (r' & ms2 & H2 & _ & _ & Hv & Hho).
  exists (mkRlResponse (if over_some r t 1 cs then CodeOverLimit else CodeOk) headers), ms1.
  exists (mkRlResponse CodeOk []), (mkService r' ms2). by split_and!.
Qed.
End rls_spec.

(** ** Examples *)

#[local] Existing Instance demo_engine.
#[local] Existing Instance demo_hash_order.
#[local] Existing Instance gmap_moka.
#[local] Existing Instance gmap_moka_laws.
#[local] Existing Instance gmap_moka_roomy.

Definition demo_wire : Wire := {|
  ProtoDuration := Z;
  duration_try_from d := if 0 <=? d then Some d else None;
  debug_storage_err := se_msg;
  debug_evaluation_err _ := ""%string
|}.

#[local] Existing Instance demo_wire.

(** A limit of 10 per minute for the whole namespace. *)
Definition rls_limit : Limit := limit_new "ns" 10 60 [] [].

Definition rls_limiter : RateLimiter InMemoryStorage :=
  mkRateLimiter (mkStorage {["ns"%string := {[limit_key rls_limit := rls_limit]}]} (in_memory_new 10))
    reservation_limits_default.

Definition rls_counter : Counter := mkCounter rls_limit ∅ None None.

Definition rls_request (hits : Z) : RateLimitRequest := mkRlRequest "ns" [[("user", "bob")]]%string hits.

Definition rls_config : ServiceConfig := mkServiceConfig HeadersNone false.

Lemma rls_request_ok hits :
  request_ok rls_limiter demo_time "ns" (request_context (rls_request hits)) [rls_counter].
Proof.
  split_and!.
  - split; [apply demo_storage_wf|]. pose proof (refines_insert ∅ ∅ rls_limit refines_empty) as Hr.
    rewrite lookup_empty in Hr. apply Hr.
  - vm_compute. intuition discriminate.
  - vm_refl.
  - apply Forall_singleton. unfold counter_ok, good_window, good_time, in_u64.
    split_and!; vm_compute; first [reflexivity|discriminate].
Qed.

Lemma should_rate_limit_exact_witness :
  exists resp s', runs (E := Status) demo_time (mkService rls_limiter [])
    (should_rate_limit (LO := blocking_limiter in_memory_counter_storage) rls_config (rls_request 11)) (Ok resp) s' /\
    overall_code resp = CodeOverLimit.
Proof.
  destruct (should_rate_limit_exact rls_limiter demo_time rls_config (rls_request 11) [rls_counter] [])
    as (resp & s' & Hr & Hok & Hno & _).
  - done.
  - vm_compute. split; discriminate.
  - apply rls_request_ok.
  - exists resp, s'. split; [exact Hr|]. apply Hno. intros Heq.
    pose proof (proj1 Hok Heq rls_counter ltac:(by left)) as Hf. vm_compute in Hf. discriminate.
Defined.

Lemma check_then_report_witness :
  exists s ms s' resp', runs demo_time (mkService rls_limiter [])
      (check_rate_limit (LO := blocking_limiter in_memory_counter_storage) rls_config (rls_request 40)) (Ok s)
      (mkService rls_limiter ms) /\
    runs demo_time (mkService rls_limiter ms)
      (report (LO := blocking_limiter in_memory_counter_storage) rls_config (rls_request 40)) (Ok resp') s' /\
    rl_value (svc_limiter s') demo_time (counter_key rls_counter) = 40.
Proof.
  destruct (check_then_report rls_limiter demo_time rls_config (rls_request 40) [rls_counter] [])
    as (resp & ms1 & resp' & s' & H1 & _ & H2 & _ & Hv & _).
  - done.
  - vm_compute. split; discriminate.
  - apply rls_request_ok.
  - exists resp, ms1, s', resp'. split_and!; [exact H1|exact H2|].
    rewrite Hv, decide_True by (by left). vm_compute. reflexivity.
Defined.
