(* ===== verification/Quota.v ===== *)
(** * How much traffic a limit lets through

    [should_rate_limit] over any storage that keeps its contract, for any number of
    requests at times that never go back.  A counter's window opens with the first hit
    after the last one ended, so it is not aligned with the interval one looks at:
    [n] windows' length holds parts of [n + 1] windows at most. *)

From S2P Require Import Prelude AtomicExpiringValue Cel Errors Limit Counter Reservation.
From S2P Require Import Storage Moka LocalReservations StorageSpec InMemory InMemoryInv.
From S2P Require Import InMemorySpec AsyncStorage AsyncRateLimiter RateLimiter RateLimiterSpec.
From S2P Require Import EnvoyRls EnvoyRlsSpec.

Section quota.
Context {CE : CelEngine} {HO : HashOrder} {WI : Wire} {St : Type} {CS : CounterStorage St}
  {SP : CounterStorageSpec St}.
Implicit Types (r : RateLimiter St) (t : SystemTime) (k : CounterKey) (l : Limit).

#[local] Existing Instance blocking_ops.

(** A request that was answered: when, what it asked, which counters it touched, and
    whether it was let through. *)
Record Answered : Type := mkAnswered {
  ans_time : SystemTime;
  ans_request : RateLimitRequest;
  ans_counters : list Counter;
  ans_response : RateLimitResponse
}.

Definition hits (a : Answered) : Z := Z.max 1 (hits_addend (ans_request a)).

(** The hits the answer let through to counter [k]. *)
Definition granted_by k (a : Answered) : Z :=
  if bool_decide (overall_code (ans_response a) = CodeOk /\ k ∈ counter_key <$> ans_counters a) then hits a else 0.

Definition granted k (tr : list Answered) : Z := foldr (fun a n => granted_by k a + n) 0 tr.

(** The service answers the requests [tr], the first at [t] or later, one after the other. *)
Inductive serves (cfg : ServiceConfig) : SystemTime -> Service (RateLimiter St) -> list Answered ->
    Service (RateLimiter St) -> Prop :=
| serves_nil t s : serves cfg t s [] s
| serves_cons t r ms a s1 tr s2 :
    t <= ans_time a ->
    let req := ans_request a in
    domain req <> ""%string -> 0 <= hits_addend req <= 4294967295 ->
    good_time (ans_time a) -> request_counters r (domain req) (request_context req) = Ok (ans_counters a) ->
    Forall (counter_ok (ans_time a)) (ans_counters a) ->
    runs (ans_time a) (mkService r ms) (should_rate_limit cfg req) (Ok (ans_response a)) s1 ->
    serves cfg (ans_time a) s1 tr s2 ->
    serves cfg t (mkService r ms) (a :: tr) s2.

(** The counters of a request are those of limits that are stored. *)
Lemma request_counters_stored r ns ctx cs c :
  rl_inv r -> request_counters r ns ctx = Ok cs -> c ∈ cs ->
  find_limit (st_limits (rl_storage r)) (counter_key c).1 = Some (ctr_limit c).
Proof.
  intros [_ Hwf] Hcs%resolve_counters_limits Hc.
  assert (Hin : ctr_limit c ∈ (hash_iter (default ∅ (st_limits (rl_storage r) !! ns))).*2).
  { eapply elem_of_sublist, Hcs. by apply list_elem_of_fmap_2. }
  apply list_elem_of_fmap in Hin as ([kl l] & Hl & Hin). simpl in Hl. subst l.
  rewrite hash_iter_perm in Hin. apply elem_of_map_to_list in Hin.
  destruct (st_limits (rl_storage r) !! ns) as [ls|] eqn:Hls; simpl in Hin; [|by rewrite lookup_empty in Hin].
  destruct (Hwf ns ls Hls) as [_ Hkeyed]. destruct (Hkeyed _ _ Hin) as [Hk Hn].
  unfold find_limit. change ((counter_key c).1) with (limit_key (ctr_limit c)).
  rewrite key_namespace_limit, Hn, Hls. simpl. by rewrite Hk.
Qed.

(** What one answer does to a counter [k] of a limit [l] that is not unlimited. *)
Lemma serve_one cfg r ms a s1 k l :
  let t := ans_time a in
  let req := ans_request a in
  rl_inv r -> find_limit (st_limits (rl_storage r)) k.1 = Some l -> limit_max_value l < u64_max ->
  domain req <> ""%string -> 0 <= hits_addend req <= 4294967295 ->
  good_time t -> request_counters r (domain req) (request_context req) = Ok (ans_counters a) ->
  Forall (counter_ok t) (ans_counters a) ->
  runs t (mkService r ms) (should_rate_limit cfg req) (Ok (ans_response a)) s1 ->
  exists r' ms', s1 = mkService r' ms' /\ rl_inv r' /\ keeps t r r' /\
    rl_value r' t k = rl_value r t k + granted_by k a /\
    0 <= granted_by k a /\ (0 < granted_by k a -> rl_value r' t k <= limit_max_value l).
Proof.
  intros t req Hinv Hl Hm Hns Hh Ht Hcs Hok Hrun.
  destruct (should_rate_limit_run r t cfg req (ans_counters a) ms Hns Hh)
    as (headers & name & r' & Hrun' & _ & Hinv' & Hk & Hv); [by split_and!|].
  destruct (runs_det _ _ _ _ _ _ _ Hrun Hrun') as [[= Hresp] ->].
  change (Z.max 1 (hits_addend req)) with (hits a) in *.
  assert (Hg : granted_by k a = if negb (over_some r t (hits a) (ans_counters a))
                                   && bool_decide (k ∈ counter_key <$> ans_counters a) then hits a else 0).
  { unfold granted_by. rewrite Hresp. cbn [overall_code].
    destruct (over_some r t (hits a) (ans_counters a)); cbn [negb andb].
    - by rewrite bool_decide_eq_false_2 by (by intros []).
    - erewrite bool_decide_ext; [done|]. naive_solver. }
  specialize (Hv k). exists r'. eexists. do 3 (split; [done|]).
  assert (Hpos : 1 <= hits a) by (unfold hits; lia).
  destruct (negb _ && bool_decide _) eqn:Hb in Hv, Hg; rewrite Hg, Hv; [|lia].
  apply andb_true_iff in Hb as [Ho%negb_true_iff Hin%bool_decide_eq_true].
  rewrite over_some_false in Ho. apply list_elem_of_fmap in Hin as (c & -> & Hc).
  rewrite Forall_forall in Hok. destruct (Hok c Hc) as [Hmc _]. specialize (Ho c Hc).
  pose proof (request_counters_stored r _ _ _ c Hinv Hcs Hc) as Hst. rewrite Hl in Hst. injection Hst as ->.
  apply not_true_iff_false in Ho. rewrite (over_spec _ _ _ Hmc) in Ho.
  pose proof (cs_value_u64 (rl_counters r) t (counter_key c) (proj1 Hinv)) as [Hlow _].
  unfold max_value, rl_value in *. rewrite u64_add_small; lia.
Qed.

Section bound.
Context (k : CounterKey) (t0 : SystemTime) (n v0 e0 m : Z) (Ht0 : 0 <= t0) (Hn : 0 <= n)
  (Hm : 0 <= m < u64_max).

(** What is left at [t0] of the window that is open then. *)
Definition left_over : Z := if as_micros t0 <? e0 then Z.max 0 (m - v0) else 0.

(** What was let through before the [j]th window opened after [t0], less what that
    window already held. *)
Definition before_window (j : Z) : Z := if j =? 0 then - v0 else left_over + (j - 1) * m.

(** [j] windows opened since [t0], and [g] hits were let through. *)
Definition quota_inv r t (g : Z) : Prop :=
  exists j, 0 <= j <= n /\
    (if j =? 0 then rl_end r k = e0 else as_micros t0 + j * as_micros (key_window k) <= rl_end r k) /\
    g <= left_over + j * m /\
    (as_micros t < rl_end r k -> g <= before_window j + rl_value r t k).

Lemma left_over_nonneg : 0 <= left_over.
Proof. unfold left_over. destruct (_ <? _); lia. Qed.

Lemma quota_step r r' t t' g h :
  quota_inv r t g -> t0 <= t <= t' -> as_micros t' < as_micros t0 + n * as_micros (key_window k) ->
  keeps t' r r' -> rl_value r' t' k = rl_value r t' k + h -> 0 <= h -> (0 < h -> rl_value r' t' k <= m) ->
  quota_inv r' t' (g + h).
Proof.
  intros (j & Hj & He & Hg & Hopen) Ht Htn [_ Hk] Hv Hh Hle. specialize (Hk k).
  pose proof (cs_value_later (rl_counters r) t t' k ltac:(lia)) as Hlater. fold (rl_value r t' k) in Hlater.
  fold (rl_value r t k) (rl_end r k) in Hlater.
  pose proof (cs_value_later (rl_counters r') t' t' k ltac:(lia)) as Hnow. fold (rl_value r' t' k) in Hnow.
  fold (rl_end r' k) in Hnow.
  pose proof (as_micros_mono t t' ltac:(lia)) as Hmt. pose proof (as_micros_mono t0 t' ltac:(lia)) as Hmt0.
  pose proof left_over_nonneg as Hlo. unfold quota_inv, window_kept in *.
  destruct (Z.ltb_spec (as_micros t') (rl_end r k)) as [Hlt|Hge].
  - assert (Hend : rl_end r' k = rl_end r k) by lia. specialize (Hopen ltac:(lia)).
    exists j. rewrite Hend. split_and!; [lia|lia|done| |intros _; lia].
    destruct (Z.eqb_spec h 0) as [->|Hnz]; [lia|]. specialize (Hle ltac:(lia)).
    unfold before_window in Hopen. destruct (Z.eqb_spec j 0) as [->|]; [|lia].
    assert (Z.max 0 (m - v0) = left_over) by (unfold left_over; rewrite (proj2 (Z.ltb_lt _ _)); lia). lia.
  - destruct Hk as [Hend|[_ Hend]].
    + rewrite (proj2 (Z.ltb_ge _ _)) in Hnow by lia. exists j. rewrite Hend. split_and!; [lia|lia|done|lia|lia].
    + exists (j + 1).
      assert (Hj1 : as_micros t0 + j * as_micros (key_window k) <= as_micros t').
      { destruct (Z.eqb_spec j 0) as [->|]; lia. }
      assert (0 < as_micros (key_window k)) by nia. assert (j < n) by nia.
      split_and!; [lia|lia| | |].
      * destruct (Z.eqb_spec (j + 1) 0); lia.
      * destruct (Z.eqb_spec h 0) as [->|Hnz]; [lia|]. specialize (Hle ltac:(lia)). lia.
      * intros _. unfold before_window. destruct (Z.eqb_spec (j + 1) 0); [lia|].
        replace (j + 1 - 1) with j by lia. lia.
Qed.
End bound.

Lemma serves_quota cfg k t0 n v0 e0 l t s tr s' g :
  0 <= t0 -> 0 <= n -> 0 <= limit_max_value l < u64_max -> t0 <= t -> serves cfg t s tr s' ->
  rl_inv (svc_limiter s) -> find_limit (st_limits (rl_storage (svc_limiter s))) k.1 = Some l ->
  Forall (fun a => as_micros (ans_time a) < as_micros t0 + n * as_micros (key_window k)) tr ->
  quota_inv k t0 n v0 e0 (limit_max_value l) (svc_limiter s) t g ->
  exists t', quota_inv k t0 n v0 e0 (limit_max_value l) (svc_limiter s') t' (g + granted k tr).
Proof.
  intros Ht0 Hn Hm Ht Hs. revert g Ht.
  induction Hs as [t s|t r ms a s1 tr s2 Hta req Hns Hh Hgt Hcs Hok Hrun Hs IH]; intros g Ht Hinv Hl Htr Hq.
  { exists t. simpl. by rewrite Z.add_0_r. }
  apply Forall_cons in Htr as [Ha Htr]. simpl in *.
  destruct (serve_one cfg r ms a s1 k l Hinv Hl) as (r' & ms' & -> & Hinv' & Hk & Hv & Hpos & Hle); [lia|done..|].
  rewrite Z.add_assoc. apply IH; [lia|done| |done|]; simpl.
  - by rewrite (proj1 Hk).
  - by eapply quota_step.
Qed.

(** Requests to come: when, which, and the counters each touches. *)
Definition Asked : Type := SystemTime * RateLimitRequest * list Counter.

(** Requests the service can count, at times that do not go back. *)
Fixpoint asks r t (reqs : list Asked) : Prop :=
  match reqs with
  | [] => True
  | (t', req, cs) :: reqs =>
      t <= t' /\ domain req <> ""%string /\ 0 <= hits_addend req <= 4294967295 /\
      good_time t' /\ request_counters r (domain req) (request_context req) = Ok cs /\
      Forall (counter_ok t') cs /\ asks r t' reqs
  end.

Lemma asks_limits r r' t reqs :
  st_limits (rl_storage r') = st_limits (rl_storage r) -> asks r t reqs -> asks r' t reqs.
Proof.
  intros Hl. revert t. induction reqs as [|[[t' req] cs] reqs IH]; intros t; simpl; [done|].
  unfold request_counters. rewrite Hl. naive_solver.
Qed.

(** Every such sequence is answered. *)
Lemma serves_total cfg r ms t reqs :
  rl_inv r -> asks r t reqs ->
  exists tr s', serves cfg t (mkService r ms) tr s' /\
    (fun a => (ans_time a, ans_request a, ans_counters a)) <$> tr = reqs.
Proof.
  revert r ms t. induction reqs as [|[[t' req] cs] reqs IH]; intros r ms t Hinv; simpl.
  { intros _. exists [], (mkService r ms). split; [constructor|done]. }
  intros (Ht & Hns & Hh & Hgt & Hcs & Hok & Hrest).
  destruct (should_rate_limit_run r t' cfg req cs ms Hns Hh)
    as (headers & name & r' & Hrun & _ & Hinv' & [Hl _] & _); [by split_and!|].
  eapply asks_limits in Hrest; [|exact Hl]. match type of Hrun with runs _ _ _ _ ?s1 => set (s2 := s1) in Hrun end.
  destruct (IH r' (svc_metrics s2) t' Hinv' Hrest) as (tr & s' & Hs & Htr).
  eexists (mkAnswered t' req cs _ :: tr), s'. split; [by econstructor|]. by rewrite fmap_cons, Htr.
Qed.

(** C3: the quota.  Any sequence of requests that the service can count is answered, and
    however they are spread over the length of [n] windows of a limit, and whatever
    other counters they touch, the hits that [should_rate_limit] lets through to one
    of its counters are at most [n] times the limit's maximum, and what was left at
    the start of the window that was open then, if one was. *)
Theorem quota_over_windows cfg r ms t0 reqs k l n :
  rl_inv r -> 0 <= t0 -> 0 <= n -> asks r t0 reqs ->
  find_limit (st_limits (rl_storage r)) k.1 = Some l -> 0 <= limit_max_value l < u64_max ->
  Forall (fun q => as_micros q.1.1 < as_micros t0 + n * as_micros (key_window k)) reqs ->
  exists tr s', serves cfg t0 (mkService r ms) tr s' /\
    (fun a => (ans_time a, ans_request a, ans_counters a)) <$> tr = reqs /\
    granted k tr <= n * limit_max_value l +
      (if as_micros t0 <? rl_end r k then Z.max 0 (limit_max_value l - rl_value r t0 k) else 0).
Proof.
  intros Hinv Ht0 Hn Hasks Hl Hm Htimes.
  destruct (serves_total cfg r ms t0 reqs Hinv Hasks) as (tr & s' & Hs & <-).
  rewrite Forall_fmap in Htimes. exists tr, s'. split_and!; [done|done|].
  destruct (serves_quota cfg k t0 n (rl_value r t0 k) (rl_end r k) l t0 _ tr s' 0 Ht0 Hn Hm
              ltac:(lia) Hs Hinv Hl Htimes) as (t' & j & Hj & _ & Hg & _).
  - exists 0. pose proof (left_over_nonneg t0 (rl_value r t0 k) (rl_end r k) (limit_max_value l)).
    simpl. unfold before_window. simpl. split_and!; lia.
  - unfold left_over in Hg. nia.
Qed.
End quota.

(** ** Examples *)

#[local] Existing Instance demo_engine.
#[local] Existing Instance demo_hash_order.
#[local] Existing Instance gmap_moka.
#[local] Existing Instance gmap_moka_laws.
#[local] Existing Instance gmap_moka_roomy.
#[local] Existing Instance demo_wire.
#[local] Existing Instance blocking_ops.

(** One hit of the limit of 10 per minute opens its window, nine more come in its last
    second, ten as soon as it is over. *)
Definition burst : list Asked :=
  [(from_secs 1000, rls_request 1, [rls_counter]); (from_secs 1059, rls_request 9, [rls_counter]);
   (from_secs 1060, rls_request 10, [rls_counter])].

(** The answers of the service to requests, each at its own time. *)
Fixpoint answers (s : Service (RateLimiter InMemoryStorage)) (reqs : list Asked) : list (option Code) :=
  match reqs with
  | [] => []
  | (t, req, _) :: reqs =>
      let '(o, w) := should_rate_limit rls_config req (mkWorld s (fun _ => t) 0%nat) in
      match o with Ok resp => Some (overall_code resp) | _ => None end :: answers (w_state w) reqs
  end.

(** All of them are let through: 19 of the 20 hits within two seconds. *)
Example burst_answers : answers (mkService rls_limiter []) burst = [Some CodeOk; Some CodeOk; Some CodeOk].
Proof. vm_refl. Qed.

Lemma burst_asks : asks rls_limiter demo_time burst.
Proof.
  cbn [asks burst]. unfold counter_ok, good_window, good_time, in_u64.
  split_and!; try (apply Forall_singleton; split_and!);
    first [lazymatch goal with |- request_counters _ _ _ = _ => vm_refl end
          |vm_compute; first [reflexivity|discriminate|exact I]].
Qed.

Lemma quota_over_windows_witness :
  exists tr s', serves rls_config demo_time (mkService rls_limiter []) tr s' /\
    length tr = 3%nat /\ granted (counter_key rls_counter) tr <= 20.
Proof.
  destruct (quota_over_windows rls_config rls_limiter [] demo_time burst (counter_key rls_counter) rls_limit 2)
    as (tr & s' & Hs & Htr & Hg).
  - by destruct (rls_request_ok 1).
  - vm_compute. discriminate.
  - done.
  - apply burst_asks.
  - vm_refl.
  - vm_compute. split; [discriminate|reflexivity].
  - repeat (apply Forall_cons; split); [vm_compute; reflexivity..|apply Forall_nil; exact I].
  - exists tr, s'. split_and!; [exact Hs| |exact Hg].
    apply (f_equal length) in Htr. by rewrite length_fmap in Htr.
Defined.
