(* ===== verification/KuadrantSpec.v ===== *)
(** * How far Kuadrant's protocol can overshoot a limit

    Kuadrant's clients ask first ([check_rate_limit]) and report what they used later
    ([report]), so that several of them may be let through on the same last hit.  The
    calls of any number of clients come here in any order, at times that never go back;
    the number of clients that were let through and have not reported yet bounds the
    overshoot, over any storage that keeps its contract. *)

From S2P Require Import Prelude AtomicExpiringValue Cel Errors Limit Counter Reservation.
From S2P Require Import Storage Moka LocalReservations StorageSpec InMemory InMemoryInv.
From S2P Require Import InMemorySpec AsyncStorage AsyncRateLimiter RateLimiter RateLimiterSpec.
From S2P Require Import EnvoyRls EnvoyRlsSpec Quota.

Section kuadrant.
Context {CE : CelEngine} {HO : HashOrder} {WI : Wire} {St : Type} {CS : CounterStorage St}
  {SP : CounterStorageSpec St}.
Implicit Types (r : RateLimiter St) (t : SystemTime) (k : CounterKey) (l : Limit).

#[local] Existing Instance blocking_ops.

(** A request with the counters it touches. *)
Record Ticket : Type := mkTicket {
  tk_request : RateLimitRequest;
  tk_counters : list Counter
}.

Definition tk_hits (tk : Ticket) : Z := Z.max 1 (hits_addend (tk_request tk)).

(** What the report of a request will add to [k]. *)
Definition tk_load k (tk : Ticket) : Z :=
  if bool_decide (k ∈ counter_key <$> tk_counters tk) then tk_hits tk else 0.

(** The service, with the requests that were let through and not reported yet. *)
Record KState : Type := mkKState {
  ks_time : SystemTime;
  ks_service : Service (RateLimiter St);
  ks_admitted : list Ticket
}.

(** The service can count the request at [t]. *)
Definition tk_valid r t (tk : Ticket) : Prop :=
  let req := tk_request tk in
  domain req <> ""%string /\ 0 <= hits_addend req <= 4294967295 /\ good_time t /\
  request_counters r (domain req) (request_context req) = Ok (tk_counters tk) /\
  Forall (counter_ok t) (tk_counters tk).

(** The calls of the clients, of which at most [width] wait between check and report, for
    at most [most] hits each.  A client may also never report. *)
Inductive kuadrant_step (cfg : ServiceConfig) (width most : Z) : KState -> KState -> Prop :=
| step_check t t' r ms adm tk resp s' :
    t <= t' -> tk_valid r t' tk -> tk_hits tk <= most ->
    runs t' (mkService r ms) (check_rate_limit cfg (tk_request tk)) (Ok resp) s' ->
    let adm' := if bool_decide (overall_code resp = CodeOk) then adm ++ [tk] else adm in
    Z.of_nat (length adm') <= width ->
    kuadrant_step cfg width most (mkKState t (mkService r ms) adm) (mkKState t' s' adm')
| step_report t t' r ms before tk after resp s' :
    t <= t' -> tk_valid r t' tk ->
    runs t' (mkService r ms) (report cfg (tk_request tk)) (Ok resp) s' ->
    kuadrant_step cfg width most (mkKState t (mkService r ms) (before ++ tk :: after)) (mkKState t' s' (before ++ after))
| step_abandon t s before tk after :
    kuadrant_step cfg width most (mkKState t s (before ++ tk :: after)) (mkKState t s (before ++ after)).

(** What the outstanding reports will add to [k]. *)
Definition load k (adm : list Ticket) : Z := foldr (fun tk n => tk_load k tk + n) 0 adm.

Lemma tk_load_bounds k tk : 0 <= tk_load k tk <= tk_hits tk.
Proof. unfold tk_load, tk_hits. case_bool_decide; lia. Qed.

Lemma load_app k a b : load k (a ++ b) = load k a + load k b.
Proof. induction a as [|tk a IH]; simpl; [done|]. rewrite IH. lia. Qed.

Lemma load_nonneg k adm : 0 <= load k adm.
Proof. induction adm as [|tk adm IH]; simpl; [done|]. pose proof (tk_load_bounds k tk). lia. Qed.

Lemma load_bound k adm most :
  Forall (fun tk => tk_hits tk <= most) adm -> load k adm <= Z.of_nat (length adm) * most.
Proof.
  induction 1 as [|tk adm Hh Hl IH]; simpl; [lia|]. pose proof (tk_load_bounds k tk). lia.
Qed.

(** A counter never grows by the passing of time. *)
Lemma rl_value_later r t t' k : rl_inv r -> 0 <= t <= t' -> rl_value r t' k <= rl_value r t k.
Proof.
  intros [Hinv _] Ht. unfold rl_value. rewrite (cs_value_later _ t t') by done.
  pose proof (cs_value_u64 (rl_counters r) t k Hinv) as []. destruct (_ <? _); lia.
Qed.

Section bound.
Context (cfg : ServiceConfig) (k : CounterKey) (l : Limit) (width most : Z).
Context (Hm : limit_max_value l < u64_max) (Hw : 1 <= width) (Hmost : 1 <= most).
Let bound := limit_max_value l - 1 + width * most.
Context (Hfit : bound <= u64_max).

(** The value and what will be reported stay below the bound together. *)
Definition kuadrant_inv (x : KState) : Prop :=
  let r := svc_limiter (ks_service x) in
  0 <= ks_time x /\ rl_inv r /\ find_limit (st_limits (rl_storage r)) k.1 = Some l /\
  Forall (fun tk => tk_hits tk <= most) (ks_admitted x) /\
  rl_value r (ks_time x) k + load k (ks_admitted x) <= bound.

(** A check that lets a request through to [k] saw room for one hit. *)
Lemma admitted_room r t tk :
  rl_inv r -> find_limit (st_limits (rl_storage r)) k.1 = Some l -> tk_valid r t tk ->
  over_some r t 1 (tk_counters tk) = false -> k ∈ counter_key <$> tk_counters tk ->
  rl_value r t k + 1 <= limit_max_value l.
Proof.
  intros Hinv Hl (_ & _ & _ & Hcs & Hok) Ho Hin. apply list_elem_of_fmap in Hin as (c & -> & Hc).
  rewrite over_some_false in Ho. specialize (Ho c Hc). rewrite Forall_forall in Hok. destruct (Hok c Hc) as [Hmc _].
  pose proof (request_counters_stored r _ _ _ c Hinv Hcs Hc) as Hst. rewrite Hl in Hst. injection Hst as ->.
  apply not_true_iff_false in Ho. rewrite (over_spec _ _ _ Hmc) in Ho. unfold max_value in *. lia.
Qed.

Lemma kuadrant_step_inv x y : kuadrant_step cfg width most x y -> kuadrant_inv x -> kuadrant_inv y.
Proof.
  intros Hstep (Ht0 & Hinv & Hl & Hhits & Hb).
  destruct Hstep as [t t' r ms adm tk resp s' Ht Htk Hh Hrun adm' Hlen|t t' r ms before tk after resp s' Ht Htk Hrun|t s before tk after];
    simpl in *.
  - pose proof (rl_value_later r t t' k Hinv ltac:(lia)) as Hlater.
    pose proof Htk as (Hns & Hha & Hgt & Hcs & Hok).
    destruct (check_rate_limit_run r t' cfg (tk_request tk) (tk_counters tk) ms Hns) as (hs & ms' & Hrun'); [by split_and!|].
    destruct (runs_det _ _ _ _ _ _ _ Hrun Hrun') as [[= ->] ->]. unfold kuadrant_inv. simpl in *. subst adm'.
    destruct (over_some r t' 1 (tk_counters tk)) eqn:Ho; simpl in *; [split_and!; try done; lia|].
    assert (Hall : Forall (fun tk => tk_hits tk <= most) (adm ++ [tk])) by (apply Forall_app_2; [done|by constructor]).
    split_and!; [lia|done|done|done|]. rewrite load_app. simpl. rewrite Z.add_0_r.
    unfold tk_load. case_bool_decide as Hin; [|lia].
    pose proof (admitted_room r t' tk Hinv Hl Htk Ho Hin) as Hroom.
    pose proof (load_bound k (adm ++ [tk]) most Hall) as Hlb. rewrite load_app in Hlb. simpl in Hlb.
    unfold tk_load in Hlb at 1. rewrite bool_decide_eq_true_2 in Hlb by done. unfold bound. nia.
  - pose proof (rl_value_later r t t' k Hinv ltac:(lia)) as Hlater.
    pose proof Htk as (Hns & Hha & Hgt & Hcs & Hok).
    destruct (report_run r t' cfg (tk_request tk) (tk_counters tk) ms Hns Hha) as (r' & ms' & Hrun' & Hinv' & Hl' & Hv & _);
      [by split_and!|].
    destruct (runs_det _ _ _ _ _ _ _ Hrun Hrun') as [_ ->]. unfold kuadrant_inv. simpl.
    rewrite load_app in *. simpl in Hb. pose proof (load_nonneg k before). pose proof (load_nonneg k after).
    split_and!; [lia|done|by rewrite Hl'|by apply Forall_app in Hhits as [? [_ ?]%Forall_cons]; apply Forall_app_2|].
    rewrite Hv. fold (tk_hits tk). unfold tk_load in Hb. pose proof (cs_value_u64 (rl_counters r) t' k (proj1 Hinv)) as [Hlow _].
    fold (rl_value r t' k) in Hlow. assert (1 <= tk_hits tk) by (unfold tk_hits; lia).
    destruct (decide (k ∈ counter_key <$> tk_counters tk)) as [Hin|Hin].
    + rewrite bool_decide_eq_true_2 in Hb by done. rewrite u64_add_small; lia.
    + rewrite bool_decide_eq_false_2 in Hb by done. lia.
  - unfold kuadrant_inv. simpl. rewrite load_app in *. simpl in Hb. pose proof (tk_load_bounds k tk).
    split_and!; [done|done|done|by apply Forall_app in Hhits as [? [_ ?]%Forall_cons]; apply Forall_app_2|lia].
Qed.
End bound.

(** C4: the overshoot of Kuadrant's protocol is bounded by its clients in flight.  However
    the checks and reports of any number of clients are interleaved, and whether or
    not they report, a counter that starts within its limit never passes it by
    [width * most] hits or more, where [width] clients at most were let through and have
    not reported yet, each for at most [most] hits. *)
Theorem kuadrant_overshoot_bounded cfg width most t r ms k l x :
  1 <= width -> 1 <= most -> limit_max_value l < u64_max -> limit_max_value l - 1 + width * most <= u64_max ->
  0 <= t -> rl_inv r -> find_limit (st_limits (rl_storage r)) k.1 = Some l -> rl_value r t k <= limit_max_value l ->
  rtc (kuadrant_step cfg width most) (mkKState t (mkService r ms) []) x ->
  rl_value (svc_limiter (ks_service x)) (ks_time x) k < limit_max_value l + width * most.
Proof.
  intros Hw Hmost Hm Hfit Ht Hinv Hl Hv Hr.
  assert (Hgen : forall a b, rtc (kuadrant_step cfg width most) a b ->
            kuadrant_inv k l width most a -> kuadrant_inv k l width most b).
  { intros a b Hab. induction Hab as [a|a b c Hstep _ IH]; [done|]. intros Ha. apply IH.
    by eapply kuadrant_step_inv. }
  destruct (Hgen _ _ Hr) as (_ & _ & _ & _ & Hb).
  - unfold kuadrant_inv. simpl. split_and!; [done|done|done|constructor|]. nia.
  - pose proof (load_nonneg k (ks_admitted x)). lia.
Qed.
End kuadrant.

(** ** Examples *)

#[local] Existing Instance demo_engine.
#[local] Existing Instance demo_hash_order.
#[local] Existing Instance gmap_moka.
#[local] Existing Instance gmap_moka_laws.
#[local] Existing Instance gmap_moka_roomy.
#[local] Existing Instance demo_wire.
#[local] Existing Instance blocking_ops.

(** Two clients ask while nine of ten hits are used: both are let through, both report,
    and the counter shows eleven; a third is turned away. *)
Definition two_clients : M (Service (RateLimiter InMemoryStorage)) Status (list Code * Code) :=
  report rls_config (rls_request 9) ;;;
  let* a := check_rate_limit rls_config (rls_request 1) in
  let* b := check_rate_limit rls_config (rls_request 1) in
  report rls_config (rls_request 1) ;;;
  report rls_config (rls_request 1) ;;;
  let* c := check_rate_limit rls_config (rls_request 1) in
  ret ([overall_code a; overall_code b], overall_code c).

Example two_clients_overshoot :
  let r := two_clients (mkWorld (mkService rls_limiter []) (fun _ => demo_time) 0%nat) in
  r.1 = Ok ([CodeOk; CodeOk], CodeOverLimit) /\
  rl_value (svc_limiter (w_state r.2)) demo_time (counter_key rls_counter) = 11.
Proof. split; vm_refl. Qed.

Definition rls_ticket (hits : Z) : Ticket := mkTicket (rls_request hits) [rls_counter].

Lemma kuadrant_overshoot_bounded_witness : exists x,
  rtc (kuadrant_step rls_config 2 1) (mkKState demo_time (mkService rls_limiter []) []) x /\
  length (ks_admitted x) = 1%nat /\
  rl_value (svc_limiter (ks_service x)) (ks_time x) (counter_key rls_counter) < 12.
Proof.
  destruct (check_rate_limit_run rls_limiter demo_time rls_config (rls_request 1) [rls_counter] [])
    as (hs & ms & Hrun); [done|exact (rls_request_ok 1)|].
  assert (Hr : rtc (kuadrant_step rls_config 2 1) (mkKState demo_time (mkService rls_limiter []) [])
                 (mkKState demo_time (mkService rls_limiter ms) [rls_ticket 1])).
  { apply rtc_once. pose proof (rls_request_ok 1) as (_ & Hgt & Hcs & Hok).
    assert (Hov : over_some rls_limiter demo_time 1 [rls_counter] = false) by vm_refl. rewrite Hov in Hrun.
    apply (step_check rls_config 2 1 demo_time demo_time rls_limiter [] [] (rls_ticket 1) (mkRlResponse CodeOk hs));
      [done| |vm_compute; discriminate|exact Hrun|vm_compute; discriminate].
    split_and!; [done|vm_compute; discriminate..|apply Hgt|apply Hgt|done|done]. }
  eexists. split_and!; [exact Hr|done|].
  apply (kuadrant_overshoot_bounded rls_config 2 1 demo_time rls_limiter [] (counter_key rls_counter) rls_limit _);
    [lia|lia|vm_compute; reflexivity|vm_compute; discriminate|vm_compute; discriminate|by destruct (rls_request_ok 1)
    |vm_refl|vm_compute; discriminate|exact Hr].
Defined.
