(* ===== verification/Broker.v ===== *)
(** * Peers and their sessions: [storage/distributed/grpc/mod.rs]

    A replica's broker keeps one tracker per peer it knows of and at most one
    session with it.  The tasks of the code run concurrently over the state the
    [Arc]s share; here each of them is an operation on the [Broker] record.  An
    operation that waits for a channel or a stream is the run in which the wait
    ends: a stream is the list of items it will deliver, and a channel the
    messages given to it, so that [send] leaves room for one more message, the
    capacity of every channel of this file.  Sessions are in [Session.v]. *)

From S2P Require Import Prelude AtomicExpiringValue Storage.
From Stdlib Require Import Floats.SpecFloat.

(** ** Durations as [f32] seconds *)

(** [Duration::as_secs_f32] *)
Definition f32_of_Z (z : Z) : spec_float := binary_normalize 24 128 z 0 false.

Definition as_secs_f32 (d : Duration) : spec_float :=
  SFadd 24 128 (f32_of_Z (d / nanos_per_sec))
    (SFdiv 24 128 (f32_of_Z (d mod nanos_per_sec)) (f32_of_Z nanos_per_sec)).

(** [n / d] to the nearest integer, ties to even. *)
Definition div_nearest (n d : Z) : Z :=
  let q := n / d in
  let r := n mod d in
  if (2 * r <? d) || ((2 * r =? d) && Z.even q) then q else q + 1.

(** [Duration::from_secs_f32]: whole nanoseconds, nearest ones. *)
Definition from_secs_f32 {E} (f : spec_float) : Outcome E Duration :=
  match f with
  | S754_zero _ => Ok 0
  | S754_finite false m e =>
      let d := if 0 <=? e then Z.pos m * 2 ^ e * nanos_per_sec
               else div_nearest (Z.pos m * nanos_per_sec) (2 ^ (- e)) in
      if d <? 18446744073709551616 * nanos_per_sec then Ok d
      else Panic "cannot convert float seconds to Duration: value is either too big or NaN"
  | S754_finite true _ _ => Panic "cannot convert float seconds to Duration: value is negative"
  | _ => Panic "cannot convert float seconds to Duration: value is either too big or NaN"
  end.

(** [Duration::div_f32] *)
Definition div_f32 {E} (d : Duration) (rhs : spec_float) : Outcome E Duration :=
  from_secs_f32 (SFdiv 24 128 (as_secs_f32 d) rhs).

(** ** [ClockSkew] *)

Inductive ClockSkew : Type :=
| NoSkew
| Slow (d : Duration)
| Fast (d : Duration).

Definition clock_skew_new (local remote : SystemTime) : ClockSkew :=
  if local =? remote then NoSkew
  else if local >? remote then Slow (local - remote)
  else Fast (remote - local).

(** The earliest time [SystemTime] holds. *)
Definition systime_min : Z := - 9223372036854775808 * nanos_per_sec.

Definition systime_sub {E} (t : SystemTime) (d : Duration) : Outcome E SystemTime :=
  if systime_min <=? t - d then Ok (t - d) else Panic "overflow when subtracting duration from instant".

Definition skew_remote {E} (self : ClockSkew) (time : SystemTime) : Outcome E SystemTime :=
  match self with
  | NoSkew => Ok time
  | Slow d => systime_sub time d
  | Fast d => systime_add time d
  end.

Definition remote_now {St E} (self : ClockSkew) : M St E SystemTime :=
  let* t := now in lift (skew_remote self t).

(** ** Messages *)

Record Hello : Type := mkHello {
  sender_peer_id : string;
  sender_urls : list string;
  receiver_url : option string
}.

Record Peer : Type := mkPeer { p_peer_id : string; p_latency : Z; p_urls : list string }.

Record CounterUpdate : Type := mkUpdate {
  cu_key : string;
  cu_values : gmap string Z;
  cu_expires_at : Z
}.

Inductive Message : Type :=
| MHello (h : Hello)
| MMembershipUpdate (peers : list Peer)
| MPing
| MPong (current_time : Z)
| MCounterUpdate (u : CounterUpdate)
| MReSyncEnd.

Definition Packet : Type := option Message.

(** ** [tonic::Status] *)

Inductive Code : Type := InvalidArgument | AlreadyExists | ResourceExhausted | CodeUnavailable | Unknown.

Inductive IoErrorKind : Type := BrokenPipe | OtherIoError.

(** An error object: what it can be downcast to, and its [source()]. *)
Inductive ErrorObj : Type := mkErrorObj (kind : ErrorKind) (src : option ErrorObj)
with ErrorKind : Type :=
| IsStatus
| IsIoError (kind : IoErrorKind)
| IsH2Error (io : option IoErrorKind)
| IsOther.

Record Status : Type := mkStatus {
  st_code : Code;
  st_message : string;
  st_source : option ErrorObj
}.

Definition status (code : Code) (message : string) : Status := mkStatus code message None.

(** [err: &(dyn Error + 'static) = err_status] *)
Definition status_error (s : Status) : ErrorObj := mkErrorObj IsStatus (st_source s).

(** The loop of [match_for_io_error]; [None] when [fuel] runs out.  Its variable [err]
    is not assigned in the body. *)
Fixpoint match_for_io_error_loop (fuel : nat) (err : ErrorObj) : option (option IoErrorKind) :=
  match fuel with
  | O => None
  | S fuel =>
      let '(mkErrorObj kind src) := err in
      let next := match src with
                  | None => Some None
                  | Some _ => match_for_io_error_loop fuel err
                  end in
      match kind with
      | IsIoError k => Some (Some k)
      | IsH2Error (Some k) => Some (Some k)
      | _ => next
      end
  end.

Definition match_for_io_error (fuel : nat) (err_status : Status) : option (option IoErrorKind) :=
  match_for_io_error_loop fuel (status_error err_status).

Definition is_disconnect (fuel : nat) (err : Status) : option bool :=
  (fun io => match io with Some BrokenPipe => true | _ => false end) <$> match_for_io_error fuel err.

(** ** Channels *)

(** A channel of capacity one: the items sent so far, how many the other end has taken,
    and whether that end is still there. *)
Record Chan : Type := mkChan {
  ch_sent : list (Packet + Status);
  ch_taken : nat;
  ch_open : bool
}.

Definition chan_new : Chan := mkChan [] 0 true.

(** [sender.send(item).await]: returns once there is room, that is once every earlier
    item was taken. *)
Definition chan_send (ch : Chan) (item : Packet + Status) : bool * Chan :=
  if ch_open ch then (true, mkChan (ch_sent ch ++ [item]) (length (ch_sent ch)) true) else (false, ch).

(** [sender.try_reserve()], and [permit.send] on the reserved slot. *)
Definition chan_has_room (ch : Chan) : bool := ch_open ch && (ch_taken ch =? length (ch_sent ch))%nat.

Definition chan_fill (ch : Chan) (item : Packet + Status) : Chan :=
  mkChan (ch_sent ch ++ [item]) (ch_taken ch) (ch_open ch).

(** The other end takes everything there is. *)
Definition chan_drain (ch : Chan) : Chan := mkChan (ch_sent ch) (length (ch_sent ch)) (ch_open ch).

Inductive MessageSender : Type :=
| Server (chan : nat)
| Client (chan : nat).

Definition sender_chan (s : MessageSender) : nat := match s with Server c | Client c => c end.

Record Session : Type := mkSession {
  out_stream : MessageSender;
  session_peer_id : string
}.

(** ** The broker *)

(** A [HashSet<String>]. *)
Abbreviation StringSet := (gmap string unit).

Definition string_set (l : list string) : StringSet := list_to_map ((fun u => (u, tt)) <$> l).

Record PeerTracker : Type := mkTracker {
  pt_peer_id : string;
  pt_url : option string;
  pt_discovered_urls : StringSet;
  pt_latency : Z;
  pt_clock_skew : ClockSkew;
  pt_session : option Session
}.

Record ReplicationState : Type := mkReplication {
  discovered_urls : StringSet;
  peer_trackers : gmap string PeerTracker
}.

(** [publisher] is everything published so far, each an [Arc] of a counter entry by its
    location; [channels] are the channels of the streams opened so far. *)
Record Broker : Type := mkBroker {
  listen_address : string;
  peer_urls : list string;
  broker_id : string;
  publisher : list nat;
  replication_state : ReplicationState;
  channels : list Chan
}.

Definition broker_new (id listen : string) (urls : list string) : Broker :=
  mkBroker listen urls id [] (mkReplication ∅ ∅) [].

Definition broker_publish (b : Broker) (entry : nat) : Broker :=
  mkBroker (listen_address b) (peer_urls b) (broker_id b) (publisher b ++ [entry])
    (replication_state b) (channels b).

Definition with_replication (b : Broker) (r : ReplicationState) : Broker :=
  mkBroker (listen_address b) (peer_urls b) (broker_id b) (publisher b) r (channels b).

Definition with_channels (b : Broker) (chs : list Chan) : Broker :=
  mkBroker (listen_address b) (peer_urls b) (broker_id b) (publisher b) (replication_state b) chs.

Definition with_session (p : PeerTracker) (s : option Session) : PeerTracker :=
  mkTracker (pt_peer_id p) (pt_url p) (pt_discovered_urls p) (pt_latency p) (pt_clock_skew p) s.

Definition with_url (p : PeerTracker) (url : option string) : PeerTracker :=
  mkTracker (pt_peer_id p) url (pt_discovered_urls p) (pt_latency p) (pt_clock_skew p) (pt_session p).

Definition set_tracker (r : ReplicationState) (id : string) (p : PeerTracker) : ReplicationState :=
  mkReplication (discovered_urls r) (<[id := p]> (peer_trackers r)).

(** [impl MessageSender], [impl MessagePermit]: only a server can send an error; a client
    hands it back to the caller. *)
Definition msg_send (self : MessageSender) (message : Message + Status) : M Broker Status unit :=
  let send item :=
    let* b := get in
    match channels b !! sender_chan self with
    | Some ch =>
        let '(ok, ch) := chan_send ch item in
        put (with_channels b (<[sender_chan self := ch]> (channels b))) ;;;
        if ok : bool then ret tt else throw (status Unknown "send error")
    | None => throw (status Unknown "send error")
    end in
  match self, message with
  | Server _, inl m => send (inl (Some m))
  | Server _, inr e => send (inr e)
  | Client _, inl m => send (inl (Some m))
  | Client _, inr e => throw e
  end.

(** Whether a permit was granted; an error is only ever dropped by the caller. *)
Definition msg_try_reserve (self : MessageSender) : M Broker Status bool :=
  let* b := get in
  ret (match channels b !! sender_chan self with Some ch => chan_has_room ch | None => false end).

Definition permit_send (self : MessageSender) (message : Message + Status) : M Broker Status unit :=
  let fill item :=
    let* b := get in
    put (with_channels b (alter (fun ch => chan_fill ch item) (sender_chan self) (channels b))) in
  match self, message with
  | Server _, inl m => fill (inl (Some m))
  | Server _, inr e => fill (inr e)
  | Client _, inl m => fill (inl (Some m))
  | Client _, inr e => throw e
  end.

(** [_ = m.await]: an error is dropped. *)
Definition ignore_err {St E A} (m : M St E A) : M St E unit :=
  fun w => match m w with
           | (Ok _, w') => (Ok tt, w')
           | (Err _, w') => (Ok tt, w')
           | (Panic s, w') => (Panic s, w')
           end.

(** ** Reading a stream *)

Definition read_hello {St} (in_stream : list (Packet + Status)) : M St Status (Hello * list (Packet + Status)) :=
  match in_stream with
  | inl (Some (MHello h)) :: rest => ret (h, rest)
  | _ => throw (status InvalidArgument "expected Hello")
  end.

Definition read_pong {St} (in_stream : list (Packet + Status)) : M St Status (Z * list (Packet + Status)) :=
  match in_stream with
  | inl (Some (MPong t)) :: rest => ret (t, rest)
  | _ => throw (status InvalidArgument "expected Pong")
  end.

(** [t.duration_since(earlier).unwrap()] *)
Definition since {St E} (t earlier : SystemTime) : M St E Duration :=
  match duration_since t earlier with
  | Some d => ret d
  | None => lift (Panic "called `Result::unwrap()` on an `Err` value")
  end.

(** [as u64], [as u32] *)
Definition as_u64 (z : Z) : Z := z mod 18446744073709551616.
Definition as_u32 (z : Z) : Z := z mod 4294967296.

(** [peers.sort_by(|a, b| a.peer_id.cmp(&b.peer_id))], a stable sort. *)
Fixpoint insert_peer (p : Peer) (l : list Peer) : list Peer :=
  match l with
  | [] => [p]
  | q :: l => match String.compare (p_peer_id p) (p_peer_id q) with
              | Gt => q :: insert_peer p l
              | _ => p :: q :: l
              end
  end.

Definition sort_peers (l : list Peer) : list Peer := foldr insert_peer [] l.

Section broker.
Context {HO : HashOrder}.

Abbreviation BM A := (M Broker Status A).

Definition peer_of (p : PeerTracker) : Peer :=
  mkPeer (pt_peer_id p) (pt_latency p) (hash_iter (pt_discovered_urls p)).*1.

Definition peers (r : ReplicationState) : list Peer :=
  sort_peers (peer_of <$> (hash_iter (peer_trackers r)).*2).

Definition session_close (self : Session) : BM unit :=
  let* b := get in
  let r := replication_state b in
  match peer_trackers r !! session_peer_id self with
  | Some peer => put (with_replication b (set_tracker r (session_peer_id self) (with_session peer None)))
  | None => ret tt
  end.

Definition session_send (self : Session) (message : Message) : BM unit :=
  msg_send (out_stream self) (inl message).

(** The block of [handshake] that decides about the new session; the tracker is stored
    with the URL the peer was reached at. *)
Definition register_session (session : Session) (peer_url : option string) (peer_hello : Hello)
    (pong_time : Z) (t_start t_end : SystemTime) : BM (option Session) :=
  let peer_id := sender_peer_id peer_hello in
  let keep_url p := match peer_url with Some _ => with_url p peer_url | None => p end in
  let store p :=
    let* b := get in put (with_replication b (set_tracker (replication_state b) peer_id (keep_url p))) in
  let* b := get in
  match peer_trackers (replication_state b) !! peer_id with
  | Some tracker =>
      match pt_session tracker with
      | Some prev_session =>
          match String.compare peer_id (broker_id b) with
          | Lt =>
              ignore_err (msg_send (out_stream prev_session) (inr (status AlreadyExists "session"))) ;;;
              store (with_session tracker (Some session)) ;;;
              ret (Some session)
          | _ =>
              ignore_err (msg_send (out_stream session) (inr (status AlreadyExists "session"))) ;;;
              store tracker ;;;
              ret None
          end
      | None => store (with_session tracker (Some session)) ;;; ret (Some session)
      end
  | None =>
      let* latency := since t_end t_start in
      let* peer_time := lift (systime_add UNIX_EPOCH (from_millis pong_time)) in
      let* half := lift (div_f32 latency (f32_of_Z 2)) in
      let* peer_time_adj := lift (systime_add peer_time half) in
      store (mkTracker peer_id None (string_set (sender_urls peer_hello))
               (as_u32 (as_millis latency)) (clock_skew_new t_end peer_time_adj) (Some session)) ;;;
      ret (Some session)
  end.

(** [handshake]: the session if it is to be used, and what is left of the stream. *)
Definition handshake (in_stream : list (Packet + Status)) (out : MessageSender) (peer_url : option string)
    : BM (option Session * list (Packet + Status)) :=
  let* t_start := now in
  let* b := get in
  msg_send out (inl (MHello (mkHello (broker_id b)
                               (hash_iter (discovered_urls (replication_state b))).*1 peer_url))) ;;;
  let* '(peer_hello, in_stream) := read_hello in_stream in
  let* d := since t_start UNIX_EPOCH in
  msg_send out (inl (MPong (as_u64 (as_millis d)))) ;;;
  let* '(peer_pong, in_stream) := read_pong in_stream in
  let* t_end := now in
  (match receiver_url peer_hello with
   | Some url =>
       let* b := get in
       let r := replication_state b in
       put (with_replication b (mkReplication (<[url := tt]> (discovered_urls r)) (peer_trackers r)))
   | None => ret tt
   end) ;;;
  let session := mkSession out (sender_peer_id peer_hello) in
  let* option := register_session session peer_url peer_hello peer_pong t_start t_end in
  ret (option, in_stream).

(** A new channel to the other end of a stream. *)
Definition open_channel : BM nat :=
  let* b := get in
  put (with_channels b (channels b ++ [chan_new])) ;;;
  ret (length (channels b)).

(** What [ReplicationClient::connect] and then [client.stream] give: an error of the
    transport, an error of the call, or the items of the incoming stream. *)
Inductive Dial : Type :=
| ConnectFailed (err : string)
| StreamFailed (err : Status)
| Connected (in_stream : list (Packet + Status)).

(** Up to the session whose processing is spawned. *)
Definition connect_to_peer (dial : string -> Dial) (peer_url : string)
    : BM (option (Session * list (Packet + Status))) :=
  match dial peer_url with
  | ConnectFailed err => throw (status Unknown err)
  | d =>
      let* ch := open_channel in
      match d with
      | Connected in_stream =>
          let* '(session, rest) := handshake in_stream (Client ch) (Some peer_url) in
          ret ((fun s => (s, rest)) <$> session)
      | StreamFailed err => throw err
      | ConnectFailed err => throw (status Unknown err)
      end
  end.

(** [Replication::stream], up to the session whose processing follows. *)
Definition accept_stream (in_stream : list (Packet + Status)) : BM (option (Session * list (Packet + Status))) :=
  let* ch := open_channel in
  let* '(session, rest) := handshake in_stream (Server ch) None in
  ret ((fun s => (s, rest)) <$> session).

(** The peers without a session and the URLs to try for each. *)
Definition failed_peers (r : ReplicationState) : list (string * list string) :=
  omap (fun p => match pt_session p with
                 | None => Some (pt_peer_id p, option_list (pt_url p) ++ (hash_iter (pt_discovered_urls p)).*1)
                 | Some _ => None
                 end) (hash_iter (peer_trackers r)).*2.

(** The first URL that connects ends the loop; the sessions to process are returned. *)
Fixpoint try_urls (dial : string -> Dial) (urls : list string)
    : BM (option (Session * list (Packet + Status))) :=
  match urls with
  | [] => ret None
  | url :: urls =>
      fun w => match connect_to_peer dial url w with
               | (Ok s, w') => (Ok s, w')
               | (Err _, w') => try_urls dial urls w'
               | (Panic msg, w') => (Panic msg, w')
               end
  end.

Definition reconnect_to_failed_peers (dial : string -> Dial) : BM (list (Session * list (Packet + Status))) :=
  let* b := get in
  let* sessions := mapM (fun pu => try_urls dial pu.2) (failed_peers (replication_state b)) in
  ret (omap (fun s => s) sessions).

End broker.

(** ** Telling a disconnect from an error *)

Lemma match_loop_status fuel src :
  match_for_io_error_loop fuel (mkErrorObj IsStatus src) =
    match src, fuel with None, S _ => Some None | _, _ => None end.
Proof. induction fuel as [|fuel IH]; simpl; destruct src; try done. Qed.

(** C40: [is_disconnect] never recognises a disconnect.  For a status without a source it
    answers [false]; for a status that has one its loop, which looks at the status
    itself every time round, does not end, whatever the number of iterations. *)
Theorem is_disconnect_never_true s fuel :
  is_disconnect fuel s =
    match st_source s with
    | Some _ => None
    | None => match fuel with O => None | S _ => Some false end
    end.
Proof.
  unfold is_disconnect, match_for_io_error, status_error. rewrite match_loop_status.
  by destruct (st_source s), fuel.
Qed.

(** ** Clock skew *)

Lemma clock_skew_remote {E} local remote :
  systime_min <= remote <= systime_max -> skew_remote (E := E) (clock_skew_new local remote) local = Ok remote.
Proof.
  intros [Hlo Hhi]. unfold clock_skew_new. destruct (Z.eqb_spec local remote) as [->|Hne]; [done|].
  destruct (Z.gtb_spec local remote); simpl; unfold systime_sub, systime_add.
  - rewrite (proj2 (Z.leb_le _ _)) by lia. f_equal. lia.
  - rewrite (proj2 (Z.leb_le _ _)) by lia. f_equal. lia.
Qed.

(** ** The list of peers *)

Definition peer_le (p q : Peer) : Prop := String.compare (p_peer_id p) (p_peer_id q) <> Gt.

Lemma insert_peer_perm p l : insert_peer p l ≡ₚ p :: l.
Proof.
  induction l as [|q l IH]; [done|]. simpl. destruct (String.compare _ _); [done|done|].
  rewrite IH. apply Permutation_swap.
Qed.

Lemma sort_peers_perm l : sort_peers l ≡ₚ l.
Proof. induction l as [|p l IH]; [done|]. simpl. by rewrite insert_peer_perm, IH. Qed.

Lemma peer_le_trans p q r : peer_le p q -> peer_le q r -> peer_le p r.
Proof.
  unfold peer_le. intros Hpq Hqr Hgt. destruct (String.compare (p_peer_id p) (p_peer_id q)) eqn:E1; [|clear Hpq|done].
  - apply string_compare_eq in E1. by rewrite E1 in Hgt.
  - destruct (String.compare (p_peer_id q) (p_peer_id r)) eqn:E2; [| |done].
    + apply string_compare_eq in E2. rewrite <-E2 in Hgt. by rewrite E1 in Hgt.
    + by rewrite (cmp_trans (cmp := String.compare) _ _ _ E1 E2) in Hgt.
Qed.

Lemma insert_peer_sorted p l : StronglySorted peer_le l -> StronglySorted peer_le (insert_peer p l).
Proof.
  induction 1 as [|q l Hl IH Hq]; simpl; [by repeat constructor|].
  destruct (String.compare (p_peer_id p) (p_peer_id q)) eqn:E.
  1,2: assert (Hpq : peer_le p q) by (unfold peer_le; congruence);
    constructor; [by constructor|]; constructor; [done|];
    eapply Forall_impl; [exact Hq|]; intros r; by apply peer_le_trans.
  constructor; [done|]. rewrite insert_peer_perm. constructor; [|done].
  unfold peer_le. apply (cmp_gt_lt String.compare) in E. congruence.
Qed.

Section spec.
Context {HO : HashOrder}.
Implicit Types (b : Broker) (s : Session) (t : SystemTime).

(** The list announced to a peer names every tracked peer once, by increasing id. *)
Lemma peers_sorted r :
  StronglySorted peer_le (peers r) /\ peers r ≡ₚ peer_of <$> (map_to_list (peer_trackers r)).*2.
Proof.
  unfold peers. split.
  - induction (peer_of <$> _) as [|p l IH]; simpl; [constructor|by apply insert_peer_sorted].
  - by rewrite sort_peers_perm, hash_iter_perm.
Qed.

(** ** Which of two sessions with a peer is kept *)

(** The session the broker has with [peer]. *)
Definition session_with b (peer : string) : option Session :=
  peer_trackers (replication_state b) !! peer ≫= pt_session.

(** [b'] differs from [b] only in what its channels were sent and in its tracker of [peer]. *)
Definition tracks b b' (peer : string) (o : option Session) : Prop :=
  broker_id b' = broker_id b /\ session_with b' peer = o /\
  (is_Some (peer_trackers (replication_state b') !! peer)) /\
  forall p, p <> peer -> peer_trackers (replication_state b') !! p = peer_trackers (replication_state b) !! p.

Lemma ignore_msg_send_run t b out m :
  exists chs, runs t b (ignore_err (msg_send out m)) (Ok tt) (with_channels b chs).
Proof.
  assert (Hsend : forall ch item, exists chs, forall w, w_state w = b ->
    ignore_err (let* b := get in
      match channels b !! ch with
      | Some c => let '(ok, c) := chan_send c item in
                  put (with_channels b (<[ch := c]> (channels b))) ;;;
                  if ok : bool then ret tt else throw (status Unknown "send error")
      | None => throw (status Unknown "send error")
      end) w = (Ok tt, mkWorld (with_channels b chs) (w_clock w) (w_tick w))).
  { intros ch item. destruct (channels b !! ch) as [c|] eqn:Hc.
    - destruct (chan_send c item) as [ok c'] eqn:Hs. exists (<[ch := c']> (channels b)).
      intros [s cl n] Hw. simpl in Hw. subst s. unfold ignore_err, bind, get. simpl. rewrite Hc, Hs. by destruct ok.
    - exists (channels b). intros [s cl n] Hw. simpl in Hw. subst s. unfold ignore_err, bind, get. simpl. rewrite Hc. simpl. by destruct b. }
  destruct out as [ch|ch], m as [m|e]; cbn [msg_send sender_chan].
  1,2,3: match goal with |- context [chan_send _ ?i] => destruct (Hsend ch i) as [chs H] end;
    exists chs; intros w _ Hw; exists (w_tick w); by apply H.
  exists (channels b). intros [s cl n] _ <-. exists n. unfold ignore_err, throw. simpl. by destruct s.
Qed.

(** Storing the tracker of [peer], with the URL it was reached at. *)
Lemma store_tracks b b0 chs peer p url o :
  b = with_channels b0 chs -> pt_session p = o ->
  tracks b0 (with_replication b (set_tracker (replication_state b) peer
    (match url with Some _ => with_url p url | None => p end))) peer o.
Proof.
  intros -> <-. unfold tracks, session_with. simpl. rewrite lookup_insert_eq. split_and!; [done| |done|].
  - by destruct url.
  - intros q Hq. by rewrite lookup_insert_ne.
Qed.

Lemma register_first t b s url hello pong t0 t1 :
  session_with b (sender_peer_id hello) = None ->
  is_Some (peer_trackers (replication_state b) !! sender_peer_id hello) ->
  exists b', runs t b (register_session s url hello pong t0 t1) (Ok (Some s)) b' /\
    tracks b b' (sender_peer_id hello) (Some s).
Proof.
  unfold session_with. intros Hn [p Hp]. rewrite Hp in Hn. simpl in Hn. unfold register_session. cbv zeta.
  eexists. split.
  - runs_step. rewrite Hp, Hn. eapply runs_bind; [runs_step; apply runs_put|]. apply runs_ret.
  - apply (store_tracks b b (channels b)); [by destruct b|done].
Qed.

Lemma register_second t b s prev url hello pong t0 t1 :
  session_with b (sender_peer_id hello) = Some prev ->
  exists b', runs t b (register_session s url hello pong t0 t1)
      (Ok (match String.compare (sender_peer_id hello) (broker_id b) with Lt => Some s | _ => None end)) b' /\
    tracks b b' (sender_peer_id hello)
      (Some (match String.compare (sender_peer_id hello) (broker_id b) with Lt => s | _ => prev end)).
Proof.
  unfold session_with. intros Hs. destruct (peer_trackers (replication_state b) !! sender_peer_id hello) as [p|] eqn:Hp; [|done].
  simpl in Hs. unfold register_session. cbv zeta.
  destruct (ignore_msg_send_run t b (out_stream prev) (inr (status AlreadyExists "session"))) as [chs1 H1].
  destruct (ignore_msg_send_run t b (out_stream s) (inr (status AlreadyExists "session"))) as [chs2 H2].
  destruct (String.compare (sender_peer_id hello) (broker_id b)) eqn:Hc.
  - eexists. split.
    + runs_step. rewrite Hp, Hs, Hc. eapply runs_bind; [exact H2|].
      eapply runs_bind; [runs_step; apply runs_put|]. apply runs_ret.
    + by apply (store_tracks (with_channels b chs2) b chs2).
  - eexists. split.
    + runs_step. rewrite Hp, Hs, Hc. eapply runs_bind; [exact H1|].
      eapply runs_bind; [runs_step; apply runs_put|]. apply runs_ret.
    + by apply (store_tracks (with_channels b chs1) b chs1).
  - eexists. split.
    + runs_step. rewrite Hp, Hs, Hc. eapply runs_bind; [exact H2|].
      eapply runs_bind; [runs_step; apply runs_put|]. apply runs_ret.
    + by apply (store_tracks (with_channels b chs2) b chs2).
Qed.

(** What a handshake brought when the session is to be registered: the URL the peer was
    reached at, its [Hello] and [Pong], and the clock before and after the exchange. *)
Record Exchange : Type := mkExchange {
  ex_url : option string;
  ex_hello : Hello;
  ex_pong : Z;
  ex_start : SystemTime;
  ex_end : SystemTime
}.

(** The clock skew of a peer met for the first time can be computed: the clock did not go
    back during the exchange and the peer's time, moved by half the round trip, is one
    [SystemTime] holds. *)
Definition skew_computes (x : Exchange) : Prop :=
  exists latency peer_time half adj,
    duration_since (ex_end x) (ex_start x) = Some latency /\
    systime_add (E := Status) UNIX_EPOCH (from_millis (ex_pong x)) = Ok peer_time /\
    div_f32 (E := Status) latency (f32_of_Z 2) = Ok half /\
    systime_add (E := Status) peer_time half = Ok adj.

Definition register (s : Session) (x : Exchange) : M Broker Status (option Session) :=
  register_session s (ex_url x) (ex_hello x) (ex_pong x) (ex_start x) (ex_end x).

(** The first session with a peer, met before or not. *)
Lemma register_free t b s x :
  session_with b (sender_peer_id (ex_hello x)) = None -> skew_computes x ->
  exists b', runs t b (register s x) (Ok (Some s)) b' /\ tracks b b' (sender_peer_id (ex_hello x)) (Some s).
Proof.
  intros Hn (latency & pt & half & adj & Hl & Hpt & Hh & Hadj). unfold register.
  destruct (peer_trackers (replication_state b) !! sender_peer_id (ex_hello x)) as [p|] eqn:Hp;
    [by apply register_first; [|rewrite Hp]|].
  unfold register_session. cbv zeta. eexists. split.
  - runs_step. rewrite Hp. unfold since. rewrite Hl. runs_step. rewrite Hpt. runs_step. rewrite Hh. runs_step.
    rewrite Hadj. runs_step. eapply runs_bind; [runs_step; apply runs_put|]. apply runs_ret.
  - apply (store_tracks b b (channels b)); [by destruct b|done].
Qed.

(** Two handshakes with the same peer that finish one after the other. *)
Definition register_both (s1 s2 : Session) (x1 x2 : Exchange) : M Broker Status unit :=
  register s1 x1 ;;; register s2 x2 ;;; ret tt.

(** The exchange was one with [peer]. *)
Definition exchange_with (peer : string) (x : Exchange) : Prop :=
  sender_peer_id (ex_hello x) = peer /\ skew_computes x.

Lemma register_both_run t b s1 s2 x1 x2 peer :
  exchange_with peer x1 -> exchange_with peer x2 -> session_with b peer = None ->
  exists b', runs t b (register_both s1 s2 x1 x2) (Ok tt) b' /\
    session_with b' peer = Some (match String.compare peer (broker_id b) with Lt => s2 | _ => s1 end).
Proof.
  intros [H1 K1] [H2 _] Hn. unfold register_both.
  destruct (register_free t b s1 x1) as (b1 & R1 & Hid1 & Hs1 & _ & _); [by rewrite H1|done|].
  destruct (register_second t b1 s2 s1 (ex_url x2) (ex_hello x2) (ex_pong x2) (ex_start x2) (ex_end x2))
    as (b2 & R2 & Hid2 & Hs2 & _); [by rewrite H2, <-H1|].
  exists b2. split.
  - eapply runs_bind; [exact R1|]. eapply runs_bind; [exact R2|]. apply runs_ret.
  - rewrite H2, Hid1 in Hs2. done.
Qed.

(** C38: two replicas that connect to each other at the same time agree on the stream to
    keep only if they finish the two handshakes in opposite orders.  They have no
    session yet: they meet for the first time, as when both start, or have met before.
    [a1] and [b1] are the two ends of one stream, [a2] and [b2] of the other; [oa] says
    that replica A finished the handshake of the first stream first, [ob] the same of
    replica B.  When both finish in the same order, each keeps the stream that the
    other one gives up.  Of the exchanges only this is asked: they carry the other's id,
    and the clock skew can be computed from them. *)
Theorem sessions_agree_iff_opposite_orders t (A B : Broker) (a1 a2 b1 b2 : Session) (oa ob : bool) xa1 xa2 xb1 xb2 :
  broker_id A <> broker_id B -> a1 <> a2 -> b1 <> b2 ->
  exchange_with (broker_id B) xa1 -> exchange_with (broker_id B) xa2 ->
  exchange_with (broker_id A) xb1 -> exchange_with (broker_id A) xb2 ->
  session_with A (broker_id B) = None -> session_with B (broker_id A) = None ->
  exists A' B',
    runs t A (if oa then register_both a1 a2 xa1 xa2 else register_both a2 a1 xa2 xa1) (Ok tt) A' /\
    runs t B (if ob then register_both b1 b2 xb1 xb2 else register_both b2 b1 xb2 xb1) (Ok tt) B' /\
    ((session_with A' (broker_id B) = Some a1 /\ session_with B' (broker_id A) = Some b1 \/
      session_with A' (broker_id B) = Some a2 /\ session_with B' (broker_id A) = Some b2) <-> oa = negb ob).
Proof.
  intros Hne Ha Hb H1 H2 H3 H4 SA SB.
  assert (exists A', runs t A (if oa then register_both a1 a2 xa1 xa2 else register_both a2 a1 xa2 xa1) (Ok tt) A' /\
    session_with A' (broker_id B) = Some (match String.compare (broker_id B) (broker_id A) with
                                           | Lt => if oa then a2 else a1 | _ => if oa then a1 else a2 end)) as (A' & RA & KA).
  { destruct oa; by apply register_both_run. }
  assert (exists B', runs t B (if ob then register_both b1 b2 xb1 xb2 else register_both b2 b1 xb2 xb1) (Ok tt) B' /\
    session_with B' (broker_id A) = Some (match String.compare (broker_id A) (broker_id B) with
                                           | Lt => if ob then b2 else b1 | _ => if ob then b1 else b2 end)) as (B' & RB & KB).
  { destruct ob; by apply register_both_run. }
  exists A', B'. split_and!; [done|done|]. rewrite KA, KB.
  rewrite (cmp_antisym (cmp := String.compare) (broker_id B) (broker_id A)).
  destruct (String.compare (broker_id A) (broker_id B)) eqn:Hc; [by apply string_compare_eq in Hc| |];
    destruct oa, ob; simpl; naive_solver.
Qed.

(** A session that ends clears its peer's tracker even if the tracker has moved on to
    another session: the session in use is forgotten, and the peer is next seen as
    one to reconnect to. *)
Theorem close_forgets_replacement t b old new :
  session_with b (session_peer_id old) = Some new ->
  exists b', runs t b (session_close old) (Ok tt) b' /\
    session_with b' (session_peer_id old) = None /\
    (forall p, p <> session_peer_id old -> session_with b' p = session_with b p) /\
    (forall tr, peer_trackers (replication_state b) !! session_peer_id old = Some tr ->
       exists urls, (pt_peer_id tr, urls) ∈ failed_peers (replication_state b')).
Proof.
  unfold session_with. intros Hs. unfold session_close.
  destruct (peer_trackers (replication_state b) !! session_peer_id old) as [tr|] eqn:Hp; [|done].
  eexists. split_and!.
  - runs_step. rewrite Hp. apply runs_put.
  - simpl. by rewrite lookup_insert_eq.
  - intros p Hne. simpl. by rewrite lookup_insert_ne.
  - intros tr' [= <-]. eexists. unfold failed_peers. apply list_elem_of_omap.
    exists (with_session tr None). split; [|done].
    apply list_elem_of_fmap. exists (session_peer_id old, with_session tr None). split; [done|].
    rewrite hash_iter_perm. apply elem_of_map_to_list. simpl. by rewrite lookup_insert_eq.
Qed.

(** ** The handshake *)

(** [ch] of [b] is open and has been sent [sent]. *)
Definition chan_sent b (ch : nat) (sent : list (Packet + Status)) : Prop :=
  exists c, channels b !! ch = Some c /\ ch_open c = true /\ ch_sent c = sent.

Lemma msg_send_open t b out m sent :
  chan_sent b (sender_chan out) sent ->
  exists b', runs t b (msg_send out (inl m)) (Ok tt) b' /\
    chan_sent b' (sender_chan out) (sent ++ [inl (Some m)]) /\
    broker_id b' = broker_id b /\ replication_state b' = replication_state b /\ publisher b' = publisher b.
Proof.
  intros (c & Hc & Ho & <-).
  set (c' := mkChan (ch_sent c ++ [inl (Some m)]) (length (ch_sent c)) true).
  exists (with_channels b (<[sender_chan out := c']> (channels b))). split_and!; [| |done..].
  - destruct out; cbn [msg_send sender_chan]; runs_step; simpl in Hc; rewrite Hc; unfold chan_send; rewrite Ho;
      runs_step; apply runs_ret.
  - exists c'. split_and!; [|done|done]. simpl. apply list_lookup_insert_eq. by eapply lookup_lt_Some.
Qed.

Lemma half_of_nothing {E} : div_f32 (E := E) 0 (f32_of_Z 2) = Ok 0.
Proof. vm_refl. Qed.

Lemma register_unknown t b s url hello pong :
  peer_trackers (replication_state b) !! sender_peer_id hello = None ->
  0 <= pong -> from_millis pong <= systime_max ->
  exists b', runs t b (register_session s url hello pong t t) (Ok (Some s)) b' /\
    channels b' = channels b /\
    replication_state b' = set_tracker (replication_state b) (sender_peer_id hello)
      (mkTracker (sender_peer_id hello) url (string_set (sender_urls hello)) 0
         (clock_skew_new t (from_millis pong)) (Some s)).
Proof.
  intros Hn Hp Hmax. unfold register_session. cbv zeta. eexists. split.
  - runs_step. rewrite Hn. unfold since, duration_since. rewrite Z.leb_refl, Z.sub_diag. runs_step.
    unfold systime_add, UNIX_EPOCH. rewrite !Z.add_0_l, (proj2 (Z.leb_le _ _) Hmax). runs_step.
    rewrite half_of_nothing. runs_step. rewrite Z.add_0_r, (proj2 (Z.leb_le _ _) Hmax). runs_step.
    eapply runs_bind; [runs_step; apply runs_put|]. apply runs_ret.
  - split; [done|]. simpl. by destruct url.
Qed.

(** The exchange of a stream that brings a [Hello] and a [Pong]: the broker sends its own
    and remembers the URL it was reached at; then the session is registered. *)
Lemma handshake_run t b out url hello pong rest sent :
  chan_sent b (sender_chan out) sent -> good_time t ->
  exists b3 urls, urls ≡ₚ (map_to_list (discovered_urls (replication_state b))).*1 /\
    chan_sent b3 (sender_chan out)
      (sent ++ [inl (Some (MHello (mkHello (broker_id b) urls url))); inl (Some (MPong (as_u64 (as_millis t))))]) /\
    peer_trackers (replication_state b3) = peer_trackers (replication_state b) /\
    (forall u, is_Some (discovered_urls (replication_state b3) !! u) <->
               receiver_url hello = Some u \/ is_Some (discovered_urls (replication_state b) !! u)) /\
    forall o b4, runs t b3 (register_session (mkSession out (sender_peer_id hello)) url hello pong t t) (Ok o) b4 ->
      runs t b (handshake (inl (Some (MHello hello)) :: inl (Some (MPong pong)) :: rest) out url) (Ok (o, rest)) b4.
Proof.
  intros Hch [Ht _]. set (urls := (hash_iter (discovered_urls (replication_state b))).*1).
  destruct (msg_send_open t b out (MHello (mkHello (broker_id b) urls url)) sent Hch) as (b1 & R1 & C1 & I1 & Rep1 & _).
  destruct (msg_send_open t b1 out (MPong (as_u64 (as_millis t))) _ C1) as (b2 & R2 & C2 & I2 & Rep2 & _).
  exists (match receiver_url hello with
          | Some u => with_replication b2 (mkReplication (<[u := tt]> (discovered_urls (replication_state b2)))
                                             (peer_trackers (replication_state b2)))
          | None => b2
          end), urls. split_and!.
  - unfold urls. by rewrite hash_iter_perm.
  - destruct C2 as (c & Hc & Ho & Hs). exists c. rewrite <-(assoc_L (++)) in Hs. by destruct (receiver_url hello).
  - rewrite <-Rep1, <-Rep2. by destruct (receiver_url hello).
  - intros u. destruct (receiver_url hello) as [v|]; simpl; rewrite Rep2, Rep1.
    + destruct (decide (u = v)) as [->|Hne]; [rewrite lookup_insert_eq; naive_solver|].
      rewrite lookup_insert_ne by done. split; [by right|]. by intros [[= ->]|?].
    + naive_solver.
  - intros o b4 R4. unfold handshake. do 2 runs_step. eapply runs_bind; [exact R1|]. runs_step. unfold since, duration_since, UNIX_EPOCH.
    rewrite (proj2 (Z.leb_le _ _) Ht), Z.sub_0_r. runs_step. eapply runs_bind; [exact R2|]. do 2 runs_step.
    eapply runs_bind; [|eapply runs_bind; [exact R4|apply runs_ret]].
    destruct (receiver_url hello); [|apply runs_ret]. runs_step. apply runs_put.
Qed.

(** The handshake of a stream whose peer is new.  If the stream brings a [Hello] and
    a [Pong], in this order, the broker has sent its own [Hello] and [Pong], uses the
    session, tracks the peer under the id and the URLs of its [Hello], with the clock
    skew its [Pong] showed, and remembers the URL it was itself reached at. *)
Theorem handshake_new_peer t b out url hello pong rest sent :
  chan_sent b (sender_chan out) sent -> good_time t -> 0 <= pong -> from_millis pong <= systime_max ->
  peer_trackers (replication_state b) !! sender_peer_id hello = None ->
  exists b' urls, runs t b (handshake (inl (Some (MHello hello)) :: inl (Some (MPong pong)) :: rest) out url)
      (Ok (Some (mkSession out (sender_peer_id hello)), rest)) b' /\
    urls ≡ₚ (map_to_list (discovered_urls (replication_state b))).*1 /\
    chan_sent b' (sender_chan out)
      (sent ++ [inl (Some (MHello (mkHello (broker_id b) urls url))); inl (Some (MPong (as_u64 (as_millis t))))]) /\
    (forall u, is_Some (discovered_urls (replication_state b') !! u) <->
               receiver_url hello = Some u \/ is_Some (discovered_urls (replication_state b) !! u)) /\
    peer_trackers (replication_state b') =
      <[sender_peer_id hello :=
          mkTracker (sender_peer_id hello) url (string_set (sender_urls hello)) 0
            (clock_skew_new t (from_millis pong)) (Some (mkSession out (sender_peer_id hello)))]>
        (peer_trackers (replication_state b)).
Proof.
  intros Hch Ht Hp Hmax Hn.
  destruct (handshake_run t b out url hello pong rest sent Hch Ht) as (b3 & urls & Hu & Hs & Htr & Hd & Hr).
  destruct (register_unknown t b3 (mkSession out (sender_peer_id hello)) url hello pong) as (b4 & R4 & C4 & Rep4);
    [by rewrite Htr|done|done|].
  exists b4, urls. split_and!; [by apply Hr|done| | |].
  - destruct Hs as (c & Hc & Ho). exists c. by rewrite C4.
  - intros u. rewrite Rep4. apply Hd.
  - rewrite Rep4. simpl. by rewrite Htr.
Qed.
End spec.

(** ** Examples *)

#[local] Existing Instance demo_hash_order.

(** A replica that has just started, with two streams to the peer open. *)
Definition demo_broker (id : string) : Broker :=
  with_channels (broker_new id "" []) [chan_new; chan_new].

(** A handshake that took four milliseconds. *)
Definition demo_exchange (peer : string) (url receiver : option string) : Exchange :=
  mkExchange url (mkHello peer [] receiver) 100000 (from_secs 100) (from_secs 100 + from_millis 4).

Lemma demo_exchange_with peer url receiver : exchange_with peer (demo_exchange peer url receiver).
Proof. split; [done|]. repeat eexists; vm_compute; reflexivity. Defined.

(** The first contact of two replicas.  Both finish the handshake of the stream "a"
    opened, then that of "b". *)
Lemma sessions_agree_iff_opposite_orders_witness : exists A' B',
  runs 0 (demo_broker "a")
    (register_both (mkSession (Client 0) "b") (mkSession (Server 1) "b")
       (demo_exchange "b" (Some "u"%string) None) (demo_exchange "b" None (Some "v"%string))) (Ok tt) A' /\
  runs 0 (demo_broker "b")
    (register_both (mkSession (Server 0) "a") (mkSession (Client 1) "a")
       (demo_exchange "a" None (Some "u"%string)) (demo_exchange "a" (Some "v"%string) None)) (Ok tt) B' /\
  ~ (session_with A' "b" = Some (mkSession (Client 0) "b") /\ session_with B' "a" = Some (mkSession (Server 0) "a") \/
     session_with A' "b" = Some (mkSession (Server 1) "b") /\ session_with B' "a" = Some (mkSession (Client 1) "a")).
Proof.
  destruct (sessions_agree_iff_opposite_orders 0 (demo_broker "a") (demo_broker "b")
    (mkSession (Client 0) "b") (mkSession (Server 1) "b") (mkSession (Server 0) "a") (mkSession (Client 1) "a") true true
    (demo_exchange "b" (Some "u"%string) None) (demo_exchange "b" None (Some "v"%string))
    (demo_exchange "a" None (Some "u"%string)) (demo_exchange "a" (Some "v"%string) None))
    as (A' & B' & RA & RB & Hiff); [done..|apply demo_exchange_with|apply demo_exchange_with
      |apply demo_exchange_with|apply demo_exchange_with|reflexivity|reflexivity|].
  exists A', B'. split_and!; [exact RA|exact RB|]. intros H%Hiff. discriminate.
Defined.

Lemma close_forgets_replacement_witness : exists b',
  runs 0 (mkBroker "" [] "b" [] (mkReplication ∅ {["a"%string := mkTracker "a" None ∅ 0 NoSkew
            (Some (mkSession (Server 1) "a"))]}) [chan_new; chan_new])
    (session_close (mkSession (Client 0) "a")) (Ok tt) b' /\ session_with b' "a" = None.
Proof.
  destruct (close_forgets_replacement 0
    (mkBroker "" [] "b" [] (mkReplication ∅ {["a"%string := mkTracker "a" None ∅ 0 NoSkew
       (Some (mkSession (Server 1) "a"))]}) [chan_new; chan_new])
    (mkSession (Client 0) "a") (mkSession (Server 1) "a")) as (b' & Hr & Hn & _); [done|].
  by exists b'.
Defined.

Lemma handshake_new_peer_witness : exists b',
  runs (from_secs 100) (mkBroker "" [] "a" [] (mkReplication ∅ ∅) [chan_new])
    (handshake [inl (Some (MHello (mkHello "b" ["u"%string] None))); inl (Some (MPong 101000))] (Client 0) (Some "u"%string))
    (Ok (Some (mkSession (Client 0) "b"), [])) b' /\
  pt_clock_skew <$> peer_trackers (replication_state b') !! "b"%string = Some (Fast (from_secs 1)).
Proof.
  destruct (handshake_new_peer (from_secs 100) (mkBroker "" [] "a" [] (mkReplication ∅ ∅) [chan_new]) (Client 0)
              (Some "u"%string) (mkHello "b" ["u"%string] None) 101000 [] [])
    as (b' & urls & Hr & _ & _ & _ & Ht).
  - by exists chan_new.
  - vm_compute. intuition discriminate.
  - vm_compute. discriminate.
  - vm_compute. discriminate.
  - done.
  - exists b'. split; [exact Hr|]. rewrite Ht. reflexivity.
Defined.
