(* ===== verification/Distributed.v ===== *)
(** * The replicated storage: [storage/distributed/mod.rs]

    Every replica keeps its counters in memory under the binary keys of
    [Keys.v], counts with [CrCounter.v], and publishes each entry it has
    incremented to its broker.  Entries are shared ([Arc]): the map, the
    broker's queue and the sessions name them by their location in [cr_heap],
    so that an update waiting to be sent carries the value at the time it is
    sent. *)

From S2P Require Import Prelude AtomicExpiringValue Cel Errors Limit Counter Reservation Storage.
From S2P Require Import StorageSpec CrCounter Keys Broker.

Section distributed.
Context {CE : CelEngine} {HO : HashOrder} {PC : Postcard}.

Record CounterEntry : Type := mkEntry {
  ce_key : string;
  ce_counter : Counter;
  ce_value : CrCounterValue
}.

Record CrInMemoryStorage : Type := mkCrStorage {
  identifier : string;
  cr_limits : gmap string nat;
  cr_heap : list CounterEntry;
  cr_broker : Broker
}.

Abbreviation CM A := (M CrInMemoryStorage StorageErr A).

Definition cr_storage_new (id listen : string) (urls : list string) : CrInMemoryStorage :=
  mkCrStorage id ∅ [] (broker_new id listen urls).

(** ** The entries *)

(** [limits.get(&key)] *)
Definition entry_get {E} (k : string) : M CrInMemoryStorage E (option CounterEntry) :=
  let* s := get in ret (cr_limits s !! k ≫= fun loc => cr_heap s !! loc).

(** The entry behind an [Arc]. *)
Definition entry_at {E} (loc : nat) : M CrInMemoryStorage E CounterEntry :=
  let* s := get in
  match cr_heap s !! loc with
  | Some e => ret e
  | None => lift (Panic "dangling Arc")
  end.

Definition entry_set {E} (loc : nat) (v : CrCounterValue) : M CrInMemoryStorage E unit :=
  let* s := get in
  put (mkCrStorage (identifier s) (cr_limits s)
         (alter (fun e => mkEntry (ce_key e) (ce_counter e) v) loc (cr_heap s)) (cr_broker s)).

(** [Arc::new(CounterEntry { .. })] *)
Definition entry_alloc {E} (e : CounterEntry) : M CrInMemoryStorage E nat :=
  let* s := get in
  put (mkCrStorage (identifier s) (cr_limits s) (cr_heap s ++ [e]) (cr_broker s)) ;;;
  ret (length (cr_heap s)).

Definition limits_insert {E} (k : string) (loc : nat) : M CrInMemoryStorage E unit :=
  let* s := get in
  put (mkCrStorage (identifier s) (<[k := loc]> (cr_limits s)) (cr_heap s) (cr_broker s)).

(** ** Keys *)

Definition encode_counter_to_key {E} (c : Counter) : Outcome E string := key_for_counter_v2 c.

(** The key of the counter whose variables are all empty. *)
Definition encode_limit_to_key {E} (l : Limit) : Outcome E string :=
  let vars : gmap string string := set_to_map (fun k => (k, ""%string)) (limit_variables l) in
  let ctx := context_from vars in
  let? counter := expect "counter creation can't fail! faked vars!" (counter_new l ctx) in
  let? counter := expect_some "must have a counter" counter in
  key_for_counter_v2 counter.

(** ** [impl CounterStorage for CrInMemoryStorage] *)

Definition is_within_limits (c : Counter) (delta : Z) : CM bool :=
  let* k := lift (encode_counter_to_key c) in
  let* e := entry_get k in
  let* value := match e with
                | Some e => cr_read (ce_value e)
                | None => ret 0
                end in
  ret (u64_add value delta <=? max_value c).

Definition add_counter (l : Limit) : CM unit :=
  if bool_decide (limit_variables l = ∅) then
    let* k := lift (encode_limit_to_key l) in
    let* s := get in
    let* counter := lift (expect "counter creation can't fail! no vars to resolve!" (counter_new l context_default)) in
    let* counter := lift (expect_some "must have a counter" counter) in
    let* v := cr_new (identifier s) (limit_max_value l) (from_secs (seconds l)) in
    match cr_limits s !! k with
    | Some _ => ret tt
    | None => let* loc := entry_alloc (mkEntry k counter v) in limits_insert k loc
    end
  else ret tt.

Definition increment_counter (loc : nat) (delta : Z) (when : SystemTime) : CM unit :=
  let* e := entry_at loc in
  let* v := lift (inc_at (ce_value e) delta (window (ce_counter e)) when) in
  entry_set loc v ;;;
  let* s := get in
  put (mkCrStorage (identifier s) (cr_limits s) (cr_heap s) (broker_publish (cr_broker s) loc)).

Definition update_counter (c : Counter) (delta : Z) : CM unit :=
  let* t := now in
  let* k := lift (encode_counter_to_key c) in
  let* s := get in
  match cr_limits s !! k with
  | None =>
      let* v := cr_new (identifier s) (max_value c) (window c) in
      let* loc := entry_alloc (mkEntry k c v) in
      increment_counter loc delta t ;;;
      limits_insert k loc
  | Some loc => increment_counter loc delta t
  end.

(** The closure [record]. *)
Definition record (delta : Z) (first_limited : option Authorization) (c : Counter) (v : Z)
    (ttl : Duration) : Counter * option Authorization :=
  let ttl := if ttl =? 0 then window c else ttl in
  let c := set_expires_in (set_remaining c (u64_saturating_sub (max_value c) v)) ttl in
  let first_limited :=
    match first_limited with
    | Some a => Some a
    | None => match u64_checked_sub (max_value c) (u64_add v delta) with
              | None => Some (AuthLimited (limit_name (ctr_limit c)))
              | Some _ => None
              end
    end in
  (c, first_limited).

Fixpoint evaluate_loop (delta : Z) (first_limited : option Authorization) (cs : list Counter)
    : CM (list Counter * option Authorization) :=
  match cs with
  | [] => ret ([], first_limited)
  | c :: cs =>
      let* k := lift (encode_counter_to_key c) in
      let* e := entry_get k in
      let* '(v, d) := match e with
                      | Some e => let* v := cr_read (ce_value e) in
                                  let* d := cr_ttl (ce_value e) in ret (v, d)
                      | None => ret (0, window c)
                      end in
      let '(c, first_limited) := record delta first_limited c v d in
      let* '(cs, first_limited) := evaluate_loop delta first_limited cs in
      ret (c :: cs, first_limited)
  end.

Definition evaluate (cs : list Counter) (delta : Z) : CM (list Counter * Authorization) :=
  let* '(cs, first_limited) := evaluate_loop delta None cs in
  ret (cs, default AuthOk first_limited).

Definition check (cs : list Counter) (delta : Z) : CM (list Counter * Authorization) := evaluate cs delta.

Definition check_and_update (cs : list Counter) (delta : Z) : CM (list Counter * Authorization) :=
  let* '(cs, auth) := evaluate cs delta in
  match auth with
  | AuthOk => for_each (fun c => update_counter c delta) cs
  | AuthLimited _ => ret tt
  end ;;;
  ret (cs, auth).

Definition get_counters (limits : LimitSet) : CM CounterSet :=
  let* s := get in
  foldM (fun res loc =>
      let* e := entry_at loc in
      match limits !! limit_key (ctr_limit (ce_counter e)) with
      | Some live =>
          let c := (update_to_limit (ce_counter e) live).2 in
          let* v := cr_read (ce_value e) in
          let c := set_remaining c (u64_saturating_sub (max_value c) v) in
          let* d := cr_ttl (ce_value e) in
          let c := set_expires_in c d in
          ret (if 0 <? d then (set_insert counter_key c res).2 else res)
      | None => ret res
      end) ∅ (hash_iter (cr_limits s)).*2.

Definition delete_counters_of_limit (l : Limit) : CM unit :=
  let* k := lift (encode_limit_to_key l) in
  let* s := get in
  put (mkCrStorage (identifier s) (delete k (cr_limits s)) (cr_heap s) (cr_broker s)).

Definition delete_counters (limits : LimitSet) : CM unit :=
  for_each delete_counters_of_limit (hash_iter limits).*2.

Definition clear : CM unit :=
  let* s := get in
  put (mkCrStorage (identifier s) ∅ (cr_heap s) (cr_broker s)).

#[global] Instance distributed_counter_storage : CounterStorage CrInMemoryStorage := {|
  cs_is_within_limits := is_within_limits;
  cs_add_counter := add_counter;
  cs_update_counter := update_counter;
  cs_check := check;
  cs_check_and_update := check_and_update;
  cs_get_counters := get_counters;
  cs_delete_counters := delete_counters;
  cs_clear := clear;
  cs_reserve := reserve_default;
  cs_release_reservation := release_reservation_default
|}.

(** ** Replication *)

(** The callback given to the broker: merges the update of a peer. *)
Definition on_counter_update {E} (update : CounterUpdate) : M CrInMemoryStorage E unit :=
  let* s := get in
  match cr_limits s !! cu_key update with
  | None => lift (Panic "called `Option::unwrap()` on a `None` value")
  | Some loc =>
      let* e := entry_at loc in
      let* exp := lift (systime_add UNIX_EPOCH (from_secs (cu_expires_at update))) in
      let* other := lift (cr_from (exp, cu_values update)) in
      let* v := cr_merge (ce_value e) other in
      entry_set loc v
  end.

(** [local_values] of an entry as an update; [None] if there is nothing to send. *)
Definition re_sync_update {E} (k : string) : M CrInMemoryStorage E (option CounterUpdate) :=
  let* e := entry_get k in
  match e with
  | None => ret None
  | Some e =>
      let '(expiry, ourself, value) := local_values (ce_value e) in
      if value =? 0 then ret None
      else
        let* t := now in
        if expiry <=? t then ret None
        else
          let* d := since expiry UNIX_EPOCH in
          ret (Some (mkUpdate k {[ourself := value]} (as_secs d)))
  end.

(** [send] gives a message to the task that serves the peer, [false] if it is gone. *)
Fixpoint re_sync_loop {E} (send : option CounterUpdate -> M CrInMemoryStorage E bool) (keys : list string)
    : M CrInMemoryStorage E unit :=
  match keys with
  | [] => ret tt
  | k :: keys =>
      let* update := re_sync_update k in
      match update with
      | Some u =>
          let* ok := send (Some u) in
          if ok : bool then re_sync_loop send keys else ret tt
      | None => re_sync_loop send keys
      end
  end.

Definition process_re_sync {E} (send : option CounterUpdate -> M CrInMemoryStorage E bool)
    : M CrInMemoryStorage E unit :=
  let* s := get in
  re_sync_loop send (hash_iter (cr_limits s)).*1 ;;;
  send None ;;; ret tt.

End distributed.
