(* ===== verification/DistributedSpec.v ===== *)
(** * What the replicated storage does *)

From S2P Require Import Prelude AtomicExpiringValue Cel Errors Limit Counter Reservation Storage.
From S2P Require Import StorageSpec CrCounter Keys Broker Distributed.

(** ** Counting in one replica *)

Section cr_reads.
Context {E : Type}.
Implicit Types (v : CrCounterValue) (t : SystemTime).

(** What a replica reads of a value at [t]. *)
Definition cr_total v t : Z :=
  if decide (cr_live v t) then u64_add (sum_others (others v)) (cr_value v) else 0.

Lemma cr_read_at_total v t : good_time t -> cr_read_at (E := E) v t = Ok (cr_total v t).
Proof.
  intros Ht. unfold cr_read_at, cr_total, cr_live. rewrite expired_at_good by done. simpl.
  destruct (Z.leb_spec (expiry (cr_expiry v)) (as_micros t)); case_decide; done || lia.
Qed.

Lemma cr_total_u64 v t : in_u64 (cr_total v t).
Proof. unfold cr_total. case_decide; [apply u64_add_in|]. vm_compute. split; discriminate. Qed.

(** What the next hit is counted on top of: opening a new window forgets the replica's
    own count of the closed one, but not what the other replicas had reported of it. *)
Definition cr_base v t : Z := if decide (cr_live v t) then cr_total v t else sum_others (others v).

Lemma inc_at_total v delta d t :
  cr_wf v -> in_u64 delta -> good_window t d -> 0 < as_micros d ->
  exists v', inc_at (E := E) v delta d t = Ok v' /\ cr_wf v' /\ ourselves v' = ourselves v /\
    cr_live v' t /\ cr_total v' t = u64_add (cr_base v t) delta /\
    (cr_live v t -> cr_expiry v' = cr_expiry v /\ cr_value v' = u64_add (cr_value v) delta).
Proof.
  intros (Hv & Ho & He) Hdelta Hw Hd. unfold inc_at, update_if_expired.
  destruct (Z.leb_spec (as_micros d) u64_max) as [_|]; [|by apply good_window_ttl in Hw; lia].
  rewrite since_epoch_good by (by eapply good_window_time). cbn [outcome_bind].
  unfold cr_base, cr_total. destruct (Z.leb_spec (expiry (cr_expiry v)) (as_micros t)) as [Hle|Hgt].
  - assert (Hdead : ~ cr_live v t) by (unfold cr_live; lia).
    unfold compare_exchange. rewrite Z.eqb_refl. cbn [outcome_bind].
    destruct Hw as ([? ?] & ? & ?). pose proof (as_micros_nonneg t). pose proof (as_micros_nonneg d).
    rewrite (u64_add_small (as_micros t)) by lia.
    assert (Hlive : cr_live (mkCr (ourselves v) (cr_max_value v) delta (others v) (mkExpiry (as_micros t + as_micros d))) t)
      by (unfold cr_live; simpl; lia).
    eexists. split_and!; [done| |done|done| |done].
    + split_and!; simpl; [done|done|]. unfold in_u64. lia.
    + by rewrite decide_True, decide_False by done.
  - assert (Hlive : cr_live v t) by done. eexists. cbn [outcome_bind]. split_and!; [done| |done|done| |done].
    + split_and!; simpl; [apply u64_add_in|done|done].
    + rewrite !decide_True by done. cbn [others cr_value].
      rewrite (u64_add_assoc (sum_others (others v))). unfold u64_add. by rewrite Zplus_mod_idemp_r.
Qed.

End cr_reads.

Section spec.
Context {CE : CelEngine} {HO : HashOrder} {PC : Postcard}.
Implicit Types (c : Counter) (t : SystemTime) (s : CrInMemoryStorage) (k : string).

(** A new value counts nothing yet, in an open window. *)
Lemma cr_new_run {E St} (st : St) t actor m c :
  counter_ok t c ->
  exists v, runs t st (cr_new (E := E) actor m (window c)) (Ok v) st /\ cr_wf v /\ ourselves v = actor /\
    cr_live v t /\ cr_total v t = 0 /\ others v = ∅.
Proof.
  intros (_ & Hs & Hw). pose proof (window_micros c Hs) as Hd. pose proof Hw as ((Ht0 & Ht1) & Hd0 & Hsum).
  exists (mkCr actor m 0 ∅ (mkExpiry (as_micros t + as_micros (window c)))).
  assert (Hlive : cr_live (mkCr actor m 0 ∅ (mkExpiry (as_micros t + as_micros (window c)))) t) by (unfold cr_live; simpl; lia).
  split_and!; [|split_and!; simpl|done|done| |done].
  - unfold cr_new. runs_step. rewrite good_window_add by done. runs_step. unfold expiry_new, outcome_map.
    rewrite since_epoch_good by (split; [lia|by rewrite as_micros_window]). cbn [outcome_bind].
    runs_step. rewrite as_micros_window. apply runs_ret.
  - unfold in_u64, u64_max. lia.
  - intros a x. by rewrite lookup_empty.
  - unfold in_u64. pose proof (as_micros_nonneg t Ht0). lia.
  - unfold cr_total. by rewrite decide_True.
Qed.

(** ** The storage's state *)

(** The key of a counter: by its limit's id if it has one. *)
Definition dist_key c : string :=
  match counter_id c with
  | None => pc_u8 1 +:+ pc_counter_key (bin_key_of c)
  | Some id => pc_u8 2 +:+ pc_id_counter_key (mkIdKey id (variables_for_key c))
  end.

Lemma encode_counter_run {E} c : encode_counter_to_key (E := E) c = Ok (dist_key c).
Proof.
  unfold encode_counter_to_key, key_for_counter_v2, dist_key, id_counter_key_of.
  by destruct (counter_id c).
Qed.

Definition dist_entry s k : option CounterEntry := cr_limits s !! k ≫= fun loc => cr_heap s !! loc.

(** What the replica counts under a key, its own hits and those reported to it. *)
Definition dist_value s t k : Z := match dist_entry s k with Some e => cr_total (ce_value e) t | None => 0 end.

Record dist_wf s : Prop := mkDistWf {
  wf_heap : forall loc e, cr_heap s !! loc = Some e -> cr_wf (ce_value e) /\ ourselves (ce_value e) = identifier s;
  wf_limits : forall k loc, cr_limits s !! k = Some loc -> exists e, cr_heap s !! loc = Some e /\ ce_key e = k;
  wf_publisher : Forall (fun loc => (loc < length (cr_heap s))%nat) (publisher (cr_broker s))
}.

(** The entry of [k], if there is one, can count at [t]. *)
Definition countable s t k : Prop :=
  forall e, dist_entry s k = Some e -> counter_ok t (ce_counter e).

(** What the next hit under a key is counted on top of. *)
Definition dist_base s t k : Z := match dist_entry s k with Some e => cr_base (ce_value e) t | None => 0 end.

(** While the window is open that is the value. *)
Lemma dist_base_live s t k :
  (forall e, dist_entry s k = Some e -> cr_live (ce_value e) t \/ others (ce_value e) = ∅) -> dist_base s t k = dist_value s t k.
Proof.
  intros Hset. unfold dist_base, dist_value. destruct (dist_entry s k) as [e|]; [|done].
  unfold cr_base, cr_total. case_decide as Hl; [done|]. destruct (Hset e eq_refl) as [?| ->]; [done|].
  unfold sum_others. by rewrite map_to_list_empty.
Qed.

Lemma dist_value_u64 s t k : in_u64 (dist_value s t k).
Proof.
  unfold dist_value. destruct (dist_entry s k); [apply cr_total_u64|]. vm_compute. split; discriminate.
Qed.

Lemma entry_get_run {E} t s k : runs t s (entry_get (E := E) k) (Ok (dist_entry s k)) s.
Proof. unfold entry_get. runs_step. apply runs_ret. Qed.

Lemma entry_at_run {E} t s loc e : cr_heap s !! loc = Some e -> runs t s (entry_at (E := E) loc) (Ok e) s.
Proof. intros He. unfold entry_at. runs_step. rewrite He. apply runs_ret. Qed.

(** The state after the value at [loc] was replaced. *)
Definition set_value s (loc : nat) (v : CrCounterValue) : CrInMemoryStorage :=
  mkCrStorage (identifier s) (cr_limits s)
    (alter (fun e => mkEntry (ce_key e) (ce_counter e) v) loc (cr_heap s)) (cr_broker s).

Lemma set_value_heap s loc v loc' :
  cr_heap (set_value s loc v) !! loc' =
    if decide (loc' = loc) then (fun e => mkEntry (ce_key e) (ce_counter e) v) <$> cr_heap s !! loc
    else cr_heap s !! loc'.
Proof.
  simpl. destruct (decide (loc' = loc)) as [->|Hne]; [apply list_lookup_alter_eq|by apply list_lookup_alter_ne].
Qed.

Lemma set_value_wf s loc v :
  dist_wf s -> cr_wf v -> ourselves v = identifier s -> dist_wf (set_value s loc v).
Proof.
  intros [Hh Hl Hp] Hv Ho. split.
  - intros loc' e. rewrite set_value_heap. case_decide; [|apply Hh].
    destruct (cr_heap s !! loc); [|done]. by intros [= <-].
  - intros k loc' Hk. destruct (Hl k loc' Hk) as (e & He & Hke). rewrite set_value_heap. case_decide as Hd; [|by exists e].
    subst loc'. rewrite He. by eexists.
  - simpl. by rewrite length_alter.
Qed.

(** Only the entry of one key points to a location. *)
Lemma set_value_entry s k loc v k' :
  dist_wf s -> cr_limits s !! k = Some loc ->
  dist_entry (set_value s loc v) k' =
    if decide (k' = k) then (fun e => mkEntry (ce_key e) (ce_counter e) v) <$> dist_entry s k else dist_entry s k'.
Proof.
  intros Hwf Hk. unfold dist_entry. cbn [set_value cr_limits]. destruct (decide (k' = k)) as [->|Hne].
  - rewrite Hk. cbn [mbind option_bind]. by rewrite set_value_heap, decide_True.
  - destruct (cr_limits s !! k') as [loc'|] eqn:Hk'; [|done]. cbn [mbind option_bind]. rewrite set_value_heap.
    rewrite decide_False; [done|]. intros ->.
    destruct (wf_limits s Hwf k loc Hk) as (e & He & <-). destruct (wf_limits s Hwf k' loc Hk') as (e' & He' & <-).
    congruence.
Qed.

(** The state after an entry of [k] was added and published, or only published. *)
Definition publish s (loc : nat) : CrInMemoryStorage :=
  mkCrStorage (identifier s) (cr_limits s) (cr_heap s) (broker_publish (cr_broker s) loc).

Lemma publish_wf s loc : dist_wf s -> (loc < length (cr_heap s))%nat -> dist_wf (publish s loc).
Proof. intros [Hh Hl Hp] Hlt. split; [done|done|]. simpl. by apply Forall_app_2, Forall_singleton. Qed.

Lemma increment_counter_run t s loc e delta :
  dist_wf s -> cr_heap s !! loc = Some e -> counter_ok t (ce_counter e) -> in_u64 delta ->
  exists v, runs t s (increment_counter loc delta t) (Ok tt) (publish (set_value s loc v) loc) /\
    dist_wf (publish (set_value s loc v) loc) /\ cr_live v t /\
    cr_total v t = u64_add (cr_base (ce_value e) t) delta /\
    (cr_live (ce_value e) t -> cr_value v = u64_add (cr_value (ce_value e)) delta).
Proof.
  intros Hwf He (_ & Hs & Hw) Hdelta. destruct (wf_heap s Hwf loc e He) as [Hcr Hours].
  destruct (inc_at_total (E := StorageErr) (ce_value e) delta (window (ce_counter e)) t)
    as (v & Hinc & Hv & Ho & Hlive & Htot & Hval); [done..|by apply window_micros|].
  exists v. split_and!; [|apply publish_wf|done|done|by apply Hval].
  - unfold increment_counter. eapply runs_bind; [by apply entry_at_run|]. rewrite Hinc. runs_step.
    eapply runs_bind; [unfold entry_set; runs_step; apply runs_put|]. runs_step. apply runs_put.
  - apply set_value_wf; [done|done|congruence].
  - simpl. rewrite length_alter. by eapply lookup_lt_Some.
Qed.

(** The state after a new entry was allocated. *)
Definition alloc s (e : CounterEntry) : CrInMemoryStorage :=
  mkCrStorage (identifier s) (cr_limits s) (cr_heap s ++ [e]) (cr_broker s).

Lemma alloc_heap s e loc x :
  cr_heap (alloc s e) !! loc = Some x -> cr_heap s !! loc = Some x \/ loc = length (cr_heap s) /\ x = e.
Proof. simpl. rewrite lookup_app_Some, list_lookup_singleton_Some. intros [?|[? [? ->]]]; [by left|right; split; [lia|done]]. Qed.

Lemma alloc_wf s e :
  dist_wf s -> cr_wf (ce_value e) -> ourselves (ce_value e) = identifier s -> dist_wf (alloc s e).
Proof.
  intros [Hh Hl Hp] Hv Ho. split.
  - intros loc x Hx. destruct (alloc_heap s e loc x Hx) as [?|[_ ->]]; [by eapply Hh|done].
  - intros k loc Hk. destruct (Hl k loc Hk) as (x & Hx & Hkx). exists x. split; [|done].
    simpl. by apply lookup_app_l_Some.
  - simpl. rewrite length_app. eapply Forall_impl; [exact Hp|]. simpl. lia.
Qed.

(** The state after [k] was bound to [loc]. *)
Definition bind_key s k (loc : nat) : CrInMemoryStorage :=
  mkCrStorage (identifier s) (<[k := loc]> (cr_limits s)) (cr_heap s) (cr_broker s).

Lemma bind_key_wf s k loc e :
  dist_wf s -> cr_heap s !! loc = Some e -> ce_key e = k -> dist_wf (bind_key s k loc).
Proof.
  intros [Hh Hl Hp] He Hke. split; [done| |done]. intros k' loc'. simpl. rewrite lookup_insert_Some.
  intros [[<- <-]|[_ ?]]; [by exists e|by apply Hl].
Qed.

(** What counting [delta] under [k] does: the value grows, its entry is published, no
    other entry changes. *)
Definition counted s s' t k (delta : Z) (loc : nat) : Prop :=
  identifier s' = identifier s /\ dist_wf s' /\
  publisher (cr_broker s') = publisher (cr_broker s) ++ [loc] /\
  cr_limits s' !! k = Some loc /\
  dist_value s' t k = u64_add (dist_base s t k) delta /\
  (forall k', k' <> k -> dist_entry s' k' = dist_entry s k') /\
  (forall k', k' <> k -> cr_limits s' !! k' = cr_limits s !! k').

Lemma update_counter_run t s c delta :
  dist_wf s -> counter_ok t c -> countable s t (dist_key c) -> in_u64 delta ->
  exists s' loc, runs t s (update_counter c delta) (Ok tt) s' /\ counted s s' t (dist_key c) delta loc.
Proof.
  intros Hwf Hc Hcnt Hdelta. set (k := dist_key c) in *.
  destruct (cr_limits s !! k) as [loc|] eqn:Hk.
  - destruct (wf_limits s Hwf k loc Hk) as (e & He & Hke).
    assert (Hent : dist_entry s k = Some e) by (unfold dist_entry; by rewrite Hk).
    pose proof (Hcnt e Hent) as Hce.
    destruct (increment_counter_run t s loc e delta) as (v & Hr & Hwf' & Hlive & Htot & _); [done..|].
    exists (publish (set_value s loc v) loc), loc. split.
    + unfold update_counter. runs_step. rewrite encode_counter_run. fold k. do 2 runs_step. by rewrite Hk.
    + pose proof (set_value_entry s k loc v) as Hse. split_and!; [done|done|done|done| | |done].
      * unfold dist_value, dist_base. change (dist_entry (publish (set_value s loc v) loc) k) with (dist_entry (set_value s loc v) k).
        rewrite Hse, decide_True, Hent by done. done.
      * intros k' Hne. change (dist_entry (publish (set_value s loc v) loc) k') with (dist_entry (set_value s loc v) k').
        by rewrite Hse, decide_False.
  - destruct (cr_new_run (E := StorageErr) s t (identifier s) (max_value c) c Hc) as (v0 & Hnew & Hv0 & Ho0 & Hl0 & Ht0 & _).
    set (e := mkEntry k c v0). set (loc := length (cr_heap s)).
    assert (Hwf1 : dist_wf (alloc s e)) by (by apply alloc_wf).
    assert (Hat : cr_heap (alloc s e) !! loc = Some e) by (by apply list_lookup_middle).
    destruct (increment_counter_run t (alloc s e) loc e delta) as (v & Hr & Hwf' & Hlive & Htot & _);
      [done|done|done|done|].
    set (s2 := publish (set_value (alloc s e) loc v) loc) in *.
    assert (Hat2 : cr_heap s2 !! loc = Some (mkEntry k c v)).
    { change (cr_heap s2) with (cr_heap (set_value (alloc s e) loc v)). by rewrite set_value_heap, decide_True, Hat by done. }
    exists (bind_key s2 k loc), loc. split.
    + unfold update_counter. runs_step. rewrite encode_counter_run. fold k. do 2 runs_step. rewrite Hk.
      eapply runs_bind; [exact Hnew|]. eapply runs_bind; [unfold entry_alloc; runs_step; runs_step; apply runs_ret|].
      eapply runs_bind; [exact Hr|]. unfold limits_insert. runs_step. apply runs_put.
    + split_and!; [done|by eapply bind_key_wf|done|simpl; by rewrite lookup_insert_eq| | |].
      * unfold dist_value, dist_base, dist_entry. cbn [bind_key cr_limits cr_heap]. rewrite lookup_insert_eq. cbn [mbind option_bind].
        rewrite Hat2, Hk. cbn [mbind option_bind ce_value].
        rewrite Htot. change (ce_value e) with v0. unfold cr_base. by rewrite decide_True, Ht0.
      * intros k' Hne. unfold dist_entry. cbn [bind_key cr_limits cr_heap]. rewrite lookup_insert_ne by done.
        change (cr_limits s2) with (cr_limits s). destruct (cr_limits s !! k') as [loc'|] eqn:Hk'; [|done].
        cbn [mbind option_bind]. destruct (wf_limits s Hwf k' loc' Hk') as (x & Hx & _). rewrite Hx.
        change (cr_heap s2) with (cr_heap (set_value (alloc s e) loc v)).
        apply lookup_lt_Some in Hx as Hlt. rewrite set_value_heap, decide_False by (unfold loc; lia).
        by apply lookup_app_l_Some.
      * intros k' Hne. simpl. by rewrite lookup_insert_ne.
Qed.

(** ** Checking *)

Definition dist_annotates s t c c' : Prop :=
  ctr_limit c' = ctr_limit c /\ set_variables c' = set_variables c /\
  remaining c' = Some (u64_saturating_sub (max_value c) (dist_value s t (dist_key c))) /\
  exists d, expires_in c' = Some d /\ 0 < d.

Definition dist_over s t (delta : Z) c : bool :=
  match u64_checked_sub (max_value c) (u64_add (dist_value s t (dist_key c)) delta) with None => true | Some _ => false end.

Lemma dist_annotates_key s t c c' : dist_annotates s t c c' -> dist_key c' = dist_key c.
Proof.
  intros (Hl & Hv & _). unfold dist_key, counter_id, bin_key_of, variables_for_key, counter_namespace, window.
  by rewrite Hl, Hv.
Qed.

Lemma cr_read_run {E} t s v : good_time t -> runs t s (cr_read (E := E) v) (Ok (cr_total v t)) s.
Proof. intros Ht. unfold cr_read. runs_step. rewrite cr_read_at_total by done. apply runs_lift. Qed.

(** Value and time left of the entry of [k]. *)
Lemma dist_read_entry_run t s c o :
  good_time t -> 0 < seconds (ctr_limit c) ->
  exists d, 0 <= d /\
  runs t s (match o with
            | Some e => let* v := cr_read (E := StorageErr) (ce_value e) in
                        let* d := cr_ttl (ce_value e) in ret (v, d)
            | None => ret (0, window c)
            end) (Ok (match o with Some e => cr_total (ce_value e) t | None => 0 end, d)) s.
Proof.
  intros Ht Hs. destruct o as [e|].
  - exists (expiry_ttl_at (cr_expiry (ce_value e)) t). split.
    + unfold expiry_ttl_at, duration_since. case_match eqn:Hle; simpl; [|done].
      destruct (Z.leb_spec t (UNIX_EPOCH + from_micros (expiry (cr_expiry (ce_value e))))); simpl in *; simplify_eq; lia.
    + eapply runs_bind; [by apply cr_read_run|]. unfold cr_ttl, expiry_ttl. eapply runs_bind; [runs_step; apply runs_ret|].
      apply runs_ret.
  - exists (window c). split; [|apply runs_ret]. unfold window, from_secs, nanos_per_sec. lia.
Qed.

Lemma dist_evaluate_loop_run t s delta fl cs :
  good_time t -> Forall (counter_ok t) cs ->
  exists cs', Forall2 (dist_annotates s t) cs cs' /\
  runs t s (evaluate_loop delta fl cs)
    (Ok (cs', match fl with
              | Some a => Some a
              | None => (fun c => AuthLimited (limit_name (ctr_limit c))) <$> List.find (dist_over s t delta) cs
              end)) s.
Proof.
  intros Ht. revert fl. induction cs as [|c cs IH]; intros fl Hcs.
  { exists []. split; [constructor|]. destruct fl; simpl; apply runs_ret. }
  apply Forall_cons in Hcs as [Hc Hcs]. pose proof Hc as (_ & Hs & _).
  destruct (dist_read_entry_run t s c (dist_entry s (dist_key c)) Ht Hs) as (d & Hd & Hread).
  set (v := dist_value s t (dist_key c)). set (p := record delta fl c v d).
  destruct (IH p.2 Hcs) as (cs' & Hann & Hrun). exists (p.1 :: cs'). split.
  - constructor; [|done]. split_and!; [done|done|done|]. unfold p, record. simpl. eexists. split; [done|].
    destruct (Z.eqb_spec d 0); [unfold window, from_secs, nanos_per_sec; lia|lia].
  - cbn [evaluate_loop]. rewrite encode_counter_run. runs_step. eapply runs_bind; [apply entry_get_run|].
    eapply runs_bind; [exact Hread|]. change (match dist_entry s (dist_key c) with Some e => cr_total (ce_value e) t | None => 0 end) with v.
    cbn beta iota. change (record delta fl c v d) with (p.1, p.2). cbn iota. eapply runs_bind; [exact Hrun|].
    cbn beta iota. match goal with |- runs _ _ (ret (_, ?x)) (Ok (_, ?y)) _ => replace y with x; [apply runs_ret|] end.
    unfold p, record. cbn [snd]. destruct fl; [done|]. cbn [List.find]. unfold dist_over at 2. fold v.
    cbn [max_value ctr_limit set_expires_in set_remaining].
    destruct (u64_checked_sub (max_value c) (u64_add v delta)) eqn:Hcs'; unfold max_value in *; simpl in *; by rewrite Hcs'.
Qed.

(** Updating counters with different keys, one after the other. *)
Lemma dist_update_all_run t s cs delta :
  dist_wf s -> Forall (counter_ok t) cs -> Forall (fun c => countable s t (dist_key c)) cs ->
  NoDup (dist_key <$> cs) -> in_u64 delta ->
  exists s' locs, runs t s (for_each (fun c => update_counter c delta) cs) (Ok tt) s' /\ dist_wf s' /\
    publisher (cr_broker s') = publisher (cr_broker s) ++ locs /\
    Forall2 (fun c loc => cr_limits s' !! dist_key c = Some loc) cs locs /\
    (forall k, dist_value s' t k = if decide (k ∈ dist_key <$> cs) then u64_add (dist_base s t k) delta
                                   else dist_value s t k) /\
    (forall k, k ∉ dist_key <$> cs -> cr_limits s' !! k = cr_limits s !! k).
Proof.
  intros Hwf Hok Hcnt Hnd Hdelta. revert s Hwf Hcnt. induction cs as [|c cs IH]; intros s Hwf Hcnt.
  { exists s, []. split_and!; [apply runs_ret|done|by rewrite app_nil_r|constructor| |done].
    intros k. by rewrite decide_False by set_solver. }
  apply Forall_cons in Hok as [Hc Hok]. apply Forall_cons in Hcnt as [Hcc Hcnt].
  rewrite fmap_cons in Hnd. apply NoDup_cons in Hnd as [Hnot Hnd].
  destruct (update_counter_run t s c delta Hwf Hc Hcc Hdelta) as (s1 & loc & R1 & _ & Hwf1 & Hp1 & Hl1 & Hv1 & Hk1 & Hlim1).
  assert (Hother : forall c', c' ∈ cs -> dist_key c' <> dist_key c).
  { intros c' Hin Heq. apply Hnot. rewrite <-Heq. apply list_elem_of_fmap. by exists c'. }
  destruct (IH Hok Hnd s1 Hwf1) as (s2 & locs & R2 & Hwf2 & Hp2 & Hl2 & Hv2 & Hlim2).
  { rewrite Forall_forall in Hcnt |- *. intros c' Hin e. rewrite Hk1 by (by apply Hother). by apply Hcnt. }
  exists s2, (loc :: locs). split_and!; [|done| | | |].
  - simpl. by eapply runs_bind.
  - by rewrite Hp2, Hp1, <-(assoc_L (++)).
  - constructor; [|done]. by rewrite Hlim2.
  - intros k. rewrite Hv2, fmap_cons. destruct (decide (k = dist_key c)) as [->|Hne].
    + by rewrite decide_False, decide_True by set_solver.
    + assert (Hb : dist_base s1 t k = dist_base s t k) by (unfold dist_base; by rewrite Hk1). rewrite Hb. unfold dist_value at 1. rewrite Hk1 by done. fold (dist_value s t k).
      destruct (decide (k ∈ dist_key <$> cs)); [rewrite decide_True by set_solver|rewrite decide_False by set_solver]; done.
  - intros k Hk. rewrite fmap_cons in Hk. rewrite Hlim2, Hlim1 by set_solver. done.
Qed.

(** C12: on a replica, checking and updating is all or nothing.  At one instant it admits
    exactly when every counter has room for [delta] next to the replica's own hits
    and those the other replicas reported in the open window; then it counts [delta]
    for each counter, for nothing else, and publishes the entry of each of them once,
    in order; otherwise the replica does not change.  In an open window [delta] comes on
    top of the value; where the window had closed, on top of what the other replicas
    had last reported of the closed one ([cr_base]), which the check did not see. *)
Theorem dist_check_and_update_exact t s cs delta :
  dist_wf s -> good_time t -> Forall (counter_ok t) cs -> Forall (fun c => countable s t (dist_key c)) cs ->
  NoDup (dist_key <$> cs) -> in_u64 delta ->
  (forall c, c ∈ cs -> dist_value s t (dist_key c) + delta <= u64_max) ->
  exists cs' a s' locs, runs t s (check_and_update cs delta) (Ok (cs', a)) s' /\ dist_wf s' /\
    Forall2 (dist_annotates s t) cs cs' /\
    (a = AuthOk <-> forall c, c ∈ cs -> dist_value s t (dist_key c) + delta <= max_value c) /\
    publisher (cr_broker s') = publisher (cr_broker s) ++ locs /\
    (a <> AuthOk -> s' = s) /\
    (a = AuthOk -> Forall2 (fun c loc => cr_limits s' !! dist_key c = Some loc) cs locs /\
       forall k, dist_value s' t k = if decide (k ∈ dist_key <$> cs) then u64_add (dist_base s t k) delta
                                     else dist_value s t k).
Proof.
  intros Hwf Ht Hok Hcnt Hnd Hdelta Hsum.
  assert (Hover : forall c, c ∈ cs -> dist_over s t delta c = false <-> dist_value s t (dist_key c) + delta <= max_value c).
  { intros c Hc. unfold dist_over. pose proof (dist_value_u64 s t (dist_key c)) as [Hv0 _]. destruct Hdelta as [Hd0 _].
    rewrite u64_add_small by auto. unfold u64_checked_sub.
    destruct (Z.ltb_spec (max_value c) (dist_value s t (dist_key c) + delta)); split; done || lia. }
  destruct (dist_evaluate_loop_run t s delta None cs Ht Hok) as (cs' & Hann & Hrun).
  destruct (List.find (dist_over s t delta) cs) as [c0|] eqn:Hf; simpl in Hrun.
  - exists cs', (AuthLimited (limit_name (ctr_limit c0))), s, []. split_and!; [|done|done| |by rewrite app_nil_r|done|done].
    + unfold check_and_update, evaluate. eapply runs_bind; [eapply runs_bind; [exact Hrun|apply runs_ret]|].
      simpl. eapply runs_bind; apply runs_ret.
    + split; [done|]. intros Hall. exfalso. apply List.find_some in Hf as [Hin%list_elem_of_In Hov].
      apply not_false_iff_true in Hov. apply Hov, Hover; auto.
  - apply find_none_forall in Hf.
    assert (Hkeys : dist_key <$> cs' = dist_key <$> cs).
    { clear -Hann. induction Hann as [|c c' cs cs' Hc _ IH]; [done|]. rewrite !fmap_cons, IH. f_equal. by eapply dist_annotates_key. }
    assert (Hok' : Forall (counter_ok t) cs' /\ Forall (fun c => countable s t (dist_key c)) cs').
    { clear -Hann Hok Hcnt. induction Hann as [|c c' cs cs' Hc _ IH]; [done|].
      apply Forall_cons in Hok as [Hc1 Hok]. apply Forall_cons in Hcnt as [Hc2 Hcnt]. destruct (IH Hok Hcnt).
      split; constructor; [|done| |done].
      - destruct Hc as (Hl & _). unfold counter_ok, max_value, window. by rewrite Hl.
      - by rewrite (dist_annotates_key s t c c' Hc). }
    destruct Hok' as [Hok' Hcnt'].
    destruct (dist_update_all_run t s cs' delta) as (s' & locs & Hup & Hwf' & Hp & Hl & Hv & _); [done..|by rewrite Hkeys|done|].
    exists cs', AuthOk, s', locs. split_and!; [|done|done| |done|done|].
    + unfold check_and_update, evaluate. eapply runs_bind; [eapply runs_bind; [exact Hrun|apply runs_ret]|].
      simpl. eapply runs_bind; [exact Hup|apply runs_ret].
    + split; [|done]. intros _ c Hc. rewrite Forall_forall in Hf. apply Hover; auto.
    + intros _. split.
      * clear -Hann Hl. revert locs Hl. induction Hann as [|c c' cs cs' Hc _ IH]; intros locs Hl; inversion Hl; subst; constructor; auto.
        by rewrite <-(dist_annotates_key s t c c' Hc).
      * intros k. by rewrite Hv, Hkeys.
Qed.

(** ** Updates from peers *)

(** What an update says of actor [a] at [t]. *)
Definition update_seen (u : CounterUpdate) t (a : string) : Z :=
  if decide (as_micros t < cu_expires_at u * 1000000) then default 0 (cu_values u !! a) else 0.

Definition update_wf (u : CounterUpdate) : Prop :=
  (forall a v, cu_values u !! a = Some v -> in_u64 v) /\ cu_values u !! ""%string = None /\
  0 <= cu_expires_at u /\ cu_expires_at u * 1000000 <= u64_max.

(** The value made of an update. *)
Lemma cr_from_update {E} u :
  update_wf u -> exists o, systime_add (E := E) UNIX_EPOCH (from_secs (cu_expires_at u)) = Ok (from_secs (cu_expires_at u)) /\
    cr_from (E := E) (from_secs (cu_expires_at u), cu_values u) = Ok o /\ cr_wf o /\
    forall t a, cr_seen o t a = update_seen u t a.
Proof.
  intros (Hv & Hempty & H0 & H1).
  assert (Hm : as_micros (from_secs (cu_expires_at u)) = cu_expires_at u * 1000000).
  { unfold as_micros, from_secs, nanos_per_sec. replace (cu_expires_at u * 1000000000) with (cu_expires_at u * 1000000 * 1000) by lia.
    apply Z.div_mul. lia. }
  assert (Ht : good_time (from_secs (cu_expires_at u))).
  { split; [unfold from_secs, nanos_per_sec; lia|by rewrite Hm]. }
  exists (mkCr "" 0 0 (cu_values u) (mkExpiry (cu_expires_at u * 1000000))). split_and!.
  - unfold systime_add, UNIX_EPOCH. rewrite Z.add_0_l. rewrite (proj2 (Z.leb_le _ _)); [done|].
    unfold from_secs, systime_max, nanos_per_sec, u64_max in *. lia.
  - unfold cr_from. simpl. unfold expiry_new, outcome_map. rewrite since_epoch_good by done. simpl. by rewrite Hm.
  - split_and!; simpl; [unfold in_u64, u64_max; lia|done|]. unfold in_u64. lia.
  - intros t a. unfold cr_seen, update_seen.
    destruct (decide (cr_live _ t)) as [Hl|Hl], (decide (as_micros t < _)) as [Hl'|Hl']; unfold cr_live in Hl; simpl in Hl;
      [|lia|lia|done].
    unfold cr_at. simpl. case_bool_decide as Ha; [|done]. subst a. by rewrite Hempty.
Qed.

(** Merging the value made of an update into the entry of its counter. *)
Lemma on_counter_update_merges t s u e exp o :
  dist_wf s -> good_time t -> dist_entry s (cu_key u) = Some e ->
  systime_add (E := Status) UNIX_EPOCH (from_secs (cu_expires_at u)) = Ok exp ->
  cr_from (E := Status) (exp, cu_values u) = Ok o -> cr_wf o ->
  exists loc v, cr_limits s !! cu_key u = Some loc /\ cr_heap s !! loc = Some e /\
    runs t s (on_counter_update (E := Status) u) (Ok tt) (set_value s loc v) /\
    cr_wf v /\ ourselves v = identifier s /\
    forall a, cr_seen v t a = Z.max (cr_seen (ce_value e) t a) (cr_seen o t a).
Proof.
  intros Hwf Ht He Hadd Hfrom Ho. unfold dist_entry in He. destruct (cr_limits s !! cu_key u) as [loc|] eqn:Hk; [|done]. simpl in He.
  destruct (wf_heap s Hwf loc e He) as [Hcr Hours].
  destruct (cr_merge_at_spec (E := Status) (ce_value e) o t Ht Hcr Ho) as (v & Hm & Hv & Hvo & Hvs & _).
  exists loc, v. split_and!; [done|done| |done|congruence|done].
  unfold on_counter_update. runs_step. rewrite Hk. eapply runs_bind; [by apply entry_at_run|].
  rewrite Hadd. runs_step. rewrite Hfrom. runs_step. eapply runs_bind.
  - unfold cr_merge. runs_step. rewrite Hm. apply runs_lift.
  - unfold entry_set. runs_step. apply runs_put.
Qed.

Lemma on_counter_update_run t s u e :
  dist_wf s -> good_time t -> update_wf u -> dist_entry s (cu_key u) = Some e ->
  exists loc v, cr_limits s !! cu_key u = Some loc /\ cr_heap s !! loc = Some e /\
    runs t s (on_counter_update (E := Status) u) (Ok tt) (set_value s loc v) /\
    cr_wf v /\ ourselves v = identifier s /\
    forall a, cr_seen v t a = Z.max (cr_seen (ce_value e) t a) (update_seen u t a).
Proof.
  intros Hwf Ht Hu He. destruct (cr_from_update (E := Status) u Hu) as (o & Hadd & Hfrom & Ho & Hseen).
  setoid_rewrite <-Hseen. by eapply on_counter_update_merges.
Qed.

(** The numbers of an update have the types the protocol gives them. *)
Definition update_typed (u : CounterUpdate) : Prop :=
  (forall a v, cu_values u !! a = Some v -> in_u64 v) /\ in_u64 (cu_expires_at u).

(** The last second a [SystemTime] can name. *)
Definition last_second : Z := 9223372036854775807.

(** Any update of a counter the replica knows: it is merged if [SystemTime] can name the
    second it says, and otherwise makes the callback panic. *)
Lemma on_counter_update_any t s u e :
  dist_wf s -> good_time t -> update_typed u -> dist_entry s (cu_key u) = Some e ->
  if decide (cu_expires_at u <= last_second)
  then exists loc v, cr_limits s !! cu_key u = Some loc /\ cr_heap s !! loc = Some e /\
         runs t s (on_counter_update (E := Status) u) (Ok tt) (set_value s loc v) /\ cr_wf v /\ ourselves v = identifier s
  else runs t s (on_counter_update (E := Status) u) (Panic "overflow when adding duration to instant") s.
Proof.
  intros Hwf Ht [Hv [H0 H1]] He.
  assert (Hadd : systime_add (E := Status) UNIX_EPOCH (from_secs (cu_expires_at u)) =
    if decide (cu_expires_at u <= last_second) then Ok (from_secs (cu_expires_at u))
    else Panic "overflow when adding duration to instant").
  { unfold systime_add, UNIX_EPOCH, from_secs, systime_max, nanos_per_sec, last_second. rewrite Z.add_0_l.
    destruct (Z.leb_spec (cu_expires_at u * 1000000000) (9223372036854775807 * 1000000000 + 999999999)); case_decide; done || lia. }
  case_decide as Hle.
  - destruct (on_counter_update_merges t s u e (from_secs (cu_expires_at u))
      (mkCr "" 0 0 (cu_values u) (mkExpiry (as_micros (from_secs (cu_expires_at u)) mod 18446744073709551616))))
      as (loc & v & Hk & Hh & Hr & Hv' & Ho & _); [done|done|done|done| | |by exists loc, v].
    + unfold cr_from, expiry_new, since_epoch, duration_since, UNIX_EPOCH. simpl fst.
      rewrite (proj2 (Z.leb_le _ _)) by (unfold from_secs, nanos_per_sec; lia). by rewrite Z.sub_0_r.
    + split_and!; simpl; [done|done|]. unfold in_u64, u64_max.
      pose proof (Z.mod_pos_bound (as_micros (from_secs (cu_expires_at u))) 18446744073709551616). lia.
  - unfold on_counter_update. runs_step. unfold dist_entry in He.
    destruct (cr_limits s !! cu_key u) as [loc|] eqn:Hk; [|done]. eapply runs_bind; [by apply entry_at_run|].
    rewrite Hadd. apply runs_bind_panic, runs_lift.
Qed.

Lemma on_counter_update_unknown t s u :
  dist_wf s -> dist_entry s (cu_key u) = None ->
  runs t s (on_counter_update (E := Status) u) (Panic "called `Option::unwrap()` on a `None` value") s.
Proof.
  intros Hwf He. unfold on_counter_update. runs_step. unfold dist_entry in He.
  destruct (cr_limits s !! cu_key u) as [loc|] eqn:Hk; [|apply runs_lift].
  destruct (wf_limits s Hwf _ _ Hk) as (x & Hx & _). simpl in He. congruence.
Qed.

(** An update from a peer.  Of a counter the replica knows, every actor's count
    becomes the larger of the count seen so far and the count reported, if the
    reported window is still open, and no other entry changes; an update of a counter
    the replica does not know makes the task that serves the peer panic. *)
Theorem on_counter_update_spec t s u :
  dist_wf s -> good_time t -> update_wf u ->
  match dist_entry s (cu_key u) with
  | Some e => exists s' e', runs t s (on_counter_update (E := Status) u) (Ok tt) s' /\ dist_wf s' /\
      dist_entry s' (cu_key u) = Some e' /\ ce_counter e' = ce_counter e /\
      (forall a, cr_seen (ce_value e') t a = Z.max (cr_seen (ce_value e) t a) (update_seen u t a)) /\
      (forall k, k <> cu_key u -> dist_entry s' k = dist_entry s k) /\
      cr_broker s' = cr_broker s
  | None => runs t s (on_counter_update (E := Status) u) (Panic "called `Option::unwrap()` on a `None` value") s
  end.
Proof.
  intros Hwf Ht Hu. destruct (dist_entry s (cu_key u)) as [e|] eqn:He; [|by apply on_counter_update_unknown].
  destruct (on_counter_update_run t s u e Hwf Ht Hu He) as (loc & v & Hk & _ & Hr & Hv & Ho & Hs).
  exists (set_value s loc v), (mkEntry (ce_key e) (ce_counter e) v).
  split_and!; [done|by apply set_value_wf| |done|done| |done].
  - rewrite (set_value_entry s (cu_key u)) by done. by rewrite decide_True, He.
  - intros k Hne. rewrite (set_value_entry s (cu_key u)) by done. by rewrite decide_False.
Qed.
End spec.

(** ** Deleting *)

Section deleting.
Context {CE : CelEngine} {HO : HashOrder} {PC : Postcard} {PL : PostcardLaws}.
Implicit Types (c : Counter) (t : SystemTime) (s : CrInMemoryStorage) (k : string).

(** Counters of one limit with different variables have different keys. *)
Lemma dist_key_variables c c' :
  ctr_limit c = ctr_limit c' -> dist_key c = dist_key c' -> set_variables c = set_variables c'.
Proof.
  intros Hl Hk. rewrite <-(variables_for_key_map c), <-(variables_for_key_map c'). f_equal.
  unfold dist_key, counter_id in Hk. rewrite Hl in Hk. destruct (limit_id (ctr_limit c')) as [id|].
  - apply (f_equal pc_take_u8) in Hk. rewrite !pc_take_u8_u8 in Hk by lia. injection Hk as Hk.
    apply (f_equal pc_id_counter_key_from) in Hk. rewrite !pc_id_counter_key_roundtrip in Hk. by injection Hk.
  - apply (f_equal pc_take_u8) in Hk. rewrite !pc_take_u8_u8 in Hk by lia. injection Hk as Hk.
    apply (f_equal pc_counter_key_from) in Hk. rewrite !pc_counter_key_roundtrip in Hk. by injection Hk.
Qed.

(** The variables [encode_limit_to_key] makes up: each of them is empty. *)
Definition faked_variables (l : Limit) : gmap string string :=
  set_to_map (fun k => (k, ""%string)) (limit_variables l).

(** Deleting a limit does not delete its qualified counters.  The key that is
    removed is the one of the counter whose variables were all resolved to the empty
    string: a counter of the limit with other values keeps its entry; and a limit
    whose variables cannot be resolved from those values makes the deletion panic. *)
Theorem dist_delete_misses_qualified t s l c :
  ctr_limit c = l ->
  match counter_new l (context_from (faked_variables l)) with
  | Ok (Some c0) =>
      set_variables c <> set_variables c0 ->
      exists s', runs t s (delete_counters {[limit_key l := l]}) (Ok tt) s' /\
        dist_entry s' (dist_key c) = dist_entry s (dist_key c) /\ dist_entry s' (dist_key c0) = None
  | Ok None => runs t s (delete_counters {[limit_key l := l]}) (Panic "must have a counter") s
  | Err _ => runs t s (delete_counters {[limit_key l := l]}) (Panic "counter creation can't fail! faked vars!") s
  | Panic msg => runs t s (delete_counters {[limit_key l := l]}) (Panic msg) s
  end.
Proof.
  intros Hl.
  assert (Hone : (hash_iter ({[limit_key l := l]} : LimitSet)).*2 = [l]).
  { pose proof (hash_iter_perm ({[limit_key l := l]} : LimitSet)) as Hp.
    rewrite map_to_list_singleton in Hp. apply Permutation_singleton_r in Hp. by rewrite Hp. }
  unfold delete_counters. rewrite Hone. cbn [for_each]. unfold delete_counters_of_limit, encode_limit_to_key.
  fold (faked_variables l). destruct (counter_new l (context_from (faked_variables l))) as [[c0|]| |msg] eqn:Hnew;
    cbn [expect expect_some outcome_bind].
  - intros Hne. assert (Hl0 : ctr_limit c0 = l).
    { unfold counter_new in Hnew. destruct (from_evaluation_err _) as [[vars|]| |]; try done. by injection Hnew as <-. }
    assert (Hk : dist_key c <> dist_key c0).
    { intros Hk. apply Hne. apply dist_key_variables; congruence. }
    exists (mkCrStorage (identifier s) (delete (dist_key c0) (cr_limits s)) (cr_heap s) (cr_broker s)).
    split_and!.
    + eapply runs_bind; [|apply runs_ret]. change (key_for_counter_v2 c0) with (encode_counter_to_key (E := StorageErr) c0).
      rewrite encode_counter_run. do 2 runs_step. apply runs_put.
    + unfold dist_entry. simpl. by rewrite lookup_delete_ne.
    + unfold dist_entry. simpl. by rewrite lookup_delete_eq.
  - apply runs_bind_panic, runs_bind_panic, runs_lift.
  - apply runs_bind_panic, runs_bind_panic, runs_lift.
  - apply runs_bind_panic, runs_bind_panic, runs_lift.
Qed.
End deleting.

(** ** Examples *)

#[local] Existing Instance demo_engine.
#[local] Existing Instance demo_hash_order.
#[local] Existing Instance demo_postcard.
#[local] Existing Instance demo_postcard_laws.

Definition dist_demo_time : SystemTime := from_secs 1000.

(** A replica "a" that counts 3 hits of its own and 2 of replica "b". *)
Definition dist_demo : CrInMemoryStorage :=
  mkCrStorage "a" {[dist_key demo_counter := O]}
    [mkEntry (dist_key demo_counter) demo_counter
       (mkCr "a" 10 3 {["b"%string := 2]} (mkExpiry 1060000000))]
    (broker_new "a" "" []).

Lemma dist_demo_wf : dist_wf dist_demo.
Proof.
  split.
  - intros loc e. destruct loc as [|loc]; [|done]. intros [= <-]. split; [|done].
    split_and!; [vm_compute; split; discriminate| |vm_compute; split; discriminate].
    intros a v Ha. cbn [ce_value others] in Ha. apply lookup_singleton_Some in Ha as [_ <-]. vm_compute. split; discriminate.
  - intros k loc. cbn [cr_limits dist_demo]. intros [<- <-]%lookup_singleton_Some. by eexists.
  - constructor.
Qed.

Lemma dist_demo_counter_ok : counter_ok dist_demo_time demo_counter.
Proof. split_and!; vm_compute; intuition discriminate. Qed.

Lemma dist_demo_entry : dist_entry dist_demo (dist_key demo_counter) =
  Some (mkEntry (dist_key demo_counter) demo_counter (mkCr "a" 10 3 {["b"%string := 2]} (mkExpiry 1060000000))).
Proof. unfold dist_entry. cbn [cr_limits dist_demo]. by rewrite lookup_singleton_eq. Qed.

Lemma dist_check_and_update_exact_witness : exists cs' a s',
  runs dist_demo_time dist_demo (check_and_update [demo_counter] 5) (Ok (cs', a)) s' /\ a = AuthOk /\
  dist_value s' dist_demo_time (dist_key demo_counter) = dist_value dist_demo dist_demo_time (dist_key demo_counter) + 5.
Proof.
  assert (Hv : dist_value dist_demo dist_demo_time (dist_key demo_counter) = 5) by (unfold dist_value; rewrite dist_demo_entry; vm_compute; done).
  destruct (dist_check_and_update_exact dist_demo_time dist_demo [demo_counter] 5)
    as (cs' & a & s' & locs & Hr & _ & _ & Ha & _ & _ & Hok).
  - apply dist_demo_wf.
  - vm_compute. intuition discriminate.
  - apply Forall_singleton, dist_demo_counter_ok.
  - apply Forall_singleton. intros e. rewrite dist_demo_entry. intros [= <-]. apply dist_demo_counter_ok.
  - apply NoDup_singleton.
  - vm_compute. split; discriminate.
  - intros c Hc. apply list_elem_of_singleton in Hc as ->. rewrite Hv. vm_compute. discriminate.
  - assert (Haok : a = AuthOk).
    { apply Ha. intros c Hc. apply list_elem_of_singleton in Hc as ->. rewrite Hv. vm_compute. discriminate. }
    destruct (Hok Haok) as [_ Hval]. exists cs', a, s'. split_and!; [done|done|].
    rewrite Hval, decide_True by (by left). rewrite Hv. unfold dist_base. rewrite dist_demo_entry. vm_compute. reflexivity.
Defined.

(** An update of replica "b" that has counted up to 7. *)
Definition dist_demo_update (k : string) : CounterUpdate := mkUpdate k {["b"%string := 7]} 1060.

Lemma dist_demo_update_wf k : update_wf (dist_demo_update k).
Proof.
  split_and!; [|done|vm_compute; discriminate|vm_compute; discriminate].
  intros a v Ha. cbn [cu_values dist_demo_update] in Ha. apply lookup_singleton_Some in Ha as [_ <-]. vm_compute. split; discriminate.
Qed.

Lemma on_counter_update_spec_witness : exists s' e',
  runs dist_demo_time dist_demo (on_counter_update (E := Status) (dist_demo_update (dist_key demo_counter))) (Ok tt) s' /\
  dist_entry s' (dist_key demo_counter) = Some e' /\ cr_seen (ce_value e') dist_demo_time "b" = 7.
Proof.
  pose proof (on_counter_update_spec dist_demo_time dist_demo (dist_demo_update (dist_key demo_counter))
    dist_demo_wf ltac:(vm_compute; intuition discriminate) (dist_demo_update_wf _)) as H.
  cbn [dist_demo_update cu_key] in H. rewrite dist_demo_entry in H.
  destruct H as (s' & e' & Hr & _ & He & _ & Hseen & _). exists s', e'. split_and!; [done|done|].
  rewrite Hseen. vm_compute. reflexivity.
Defined.

(** The counter whose key is deleted with the limit. *)
Definition faked_counter : Counter := mkCounter demo_limit {["user" := ""]}%string None None.

Lemma faked_counter_new : counter_new demo_limit (context_from (faked_variables demo_limit)) = Ok (Some faked_counter).
Proof. vm_refl. Qed.

(** The limit is deleted; bob's counter of it stays. *)
Lemma dist_delete_misses_qualified_witness : exists s',
  runs dist_demo_time dist_demo (delete_counters {[limit_key demo_limit := demo_limit]}) (Ok tt) s' /\
  dist_entry s' (dist_key demo_counter) = dist_entry dist_demo (dist_key demo_counter).
Proof.
  pose proof (dist_delete_misses_qualified dist_demo_time dist_demo demo_limit demo_counter eq_refl) as H.
  rewrite faked_counter_new in H.
  destruct H as (s' & Hr & He & _).
  - intros Heq. apply (f_equal (fun m : gmap string string => m !! "user"%string)) in Heq.
    cbn [set_variables faked_counter demo_counter] in Heq. rewrite !lookup_singleton_eq in Heq. discriminate Heq.
  - exists s'. split; [exact Hr|exact He].
Defined.
