(* ===== verification/Session.v ===== *)
(** * Serving a peer: [Session] of [storage/distributed/grpc/mod.rs]

    A session starts by announcing the peers it knows and asking for a re-sync,
    then repeats [tokio::select!] over three sources: the entries published by
    the storage, a notification that updates are waiting to be sent, and the
    packets of the peer.  The sources become ready in an order the runtime
    chooses: [Event] names the branch taken, and a session is run on a sequence
    of events.  Pending updates are remembered by key, so that several updates
    of a counter are sent as one. *)

From S2P Require Import Prelude AtomicExpiringValue Cel Errors Limit Counter Reservation Storage.
From S2P Require Import StorageSpec CrCounter Keys Broker Distributed DistributedSpec.

(** [format!("{packet:?}")] of the generated packet type. *)
Class PacketDebug : Type := { debug_packet : Packet -> string }.

Section session.
Context {CE : CelEngine} {HO : HashOrder} {PC : Postcard} {PD : PacketDebug}.

Abbreviation SM A := (M CrInMemoryStorage Status A).

(** An operation of the broker, on the replica that owns it. *)
Definition on_broker {A} (m : M Broker Status A) : SM A :=
  zoom cr_broker (fun b s => mkCrStorage (identifier s) (cr_limits s) (cr_heap s) b) m.

(** ** Packets *)

(** A peer named by a neighbour gets a tracker unless it has one. *)
Definition discover_peer (r : ReplicationState) (peer : Peer) : ReplicationState :=
  match peer_trackers r !! p_peer_id peer with
  | None => set_tracker r (p_peer_id peer)
              (mkTracker (p_peer_id peer) None (string_set (p_urls peer)) 0 NoSkew None)
  | Some _ => r
  end.

Definition process_packet (self : Session) (packet : Packet) : SM unit :=
  match packet with
  | Some MPing =>
      let* t := now in
      let* d := since t UNIX_EPOCH in
      on_broker (msg_send (out_stream self) (inl (MPong (as_u64 (as_millis d)))))
  | Some (MMembershipUpdate peers) =>
      on_broker (let* b := get in
                 put (with_replication b (foldl discover_peer (replication_state b) peers)))
  | Some (MCounterUpdate update) => on_counter_update update
  | _ => throw (status InvalidArgument ("unsupported packet " +:+ debug_packet packet))
  end.

(** ** Updates waiting to be sent *)

(** The local variables of [process]: the next published entry to receive, the pending
    updates and the order of their keys, and the permit of the [Notify]. *)
Record Tx : Type := mkTx {
  tx_next : nat;
  tx_updates_by_key : gmap string nat;
  tx_updates_order : list string;
  tx_notified : bool
}.

(** The capacity of the broadcast channel. *)
Definition broadcast_capacity : nat := 16.

(** [udpates_to_send.recv()]: a receiver too far behind has lost entries. *)
Definition broadcast_recv (published : list nat) (next : nat) : option (unit + nat) :=
  match published !! next with
  | None => None
  | Some loc => Some (if (broadcast_capacity <? length published - next)%nat then inl tt else inr loc)
  end.

(** The branch of a published entry. *)
Definition receive_update (tx : Tx) : SM Tx :=
  let* s := get in
  match broadcast_recv (publisher (cr_broker s)) (tx_next tx) with
  | None => ret tx
  | Some (inl _) => throw (status Unknown "broadcast error")
  | Some (inr loc) =>
      let* update := entry_at loc in
      let k := ce_key update in
      match tx_updates_by_key tx !! k with
      | Some _ => ret (mkTx (S (tx_next tx)) (tx_updates_by_key tx) (tx_updates_order tx) (tx_notified tx))
      | None => ret (mkTx (S (tx_next tx)) (<[k := loc]> (tx_updates_by_key tx))
                       (tx_updates_order tx ++ [k]) true)
      end
  end.

(** The transport may take what was sent while the loop below runs. *)
Definition transport_takes (self : Session) (b : bool) : SM unit :=
  if b then
    on_broker (let* b := get in
               put (with_channels b (alter chan_drain (sender_chan (out_stream self)) (channels b))))
  else ret tt.

(** The branch of a notification, one element of [takes] per turn of the loop. *)
Fixpoint send_updates (self : Session) (order : list string) (by_key : gmap string nat) (takes : list bool)
    : SM (list string * gmap string nat) :=
  match order with
  | [] => ret ([], by_key)
  | k :: order' =>
      transport_takes self (default false (head takes)) ;;;
      let* ok := on_broker (msg_try_reserve (out_stream self)) in
      if ok : bool then
        match by_key !! k with
        | None => lift (Panic "called `Option::unwrap()` on a `None` value")
        | Some loc =>
            let* e := entry_at loc in
            let '(expiry, values) := cr_into_inner (ce_value e) in
            let* t := now in
            (if expiry >? t then
               let* d := since expiry UNIX_EPOCH in
               on_broker (permit_send (out_stream self) (inl (MCounterUpdate (mkUpdate k values (as_secs d)))))
             else ret tt) ;;;
            send_updates self order' (delete k by_key) (tail takes)
        end
      else ret (order, by_key)
  end.

(** ** The loop *)

Inductive Event : Type :=
| Published
| Notified (takes : list bool)
| Incoming (item : option (Packet + Status)).

(** After a turn of the loop: another one, the end of the session, or a turn that does
    not end within the iterations given to [is_disconnect]. *)
Inductive Next : Type :=
| Continue (tx : Tx)
| Finished
| Stuck.

Definition process_step (fuel : nat) (self : Session) (tx : Tx) (ev : Event) : SM Next :=
  match ev with
  | Published => let* tx := receive_update tx in ret (Continue tx)
  | Notified takes =>
      if tx_notified tx then
        let* '(order, by_key) := send_updates self (tx_updates_order tx) (tx_updates_by_key tx) takes in
        ret (Continue (mkTx (tx_next tx) by_key order false))
      else ret (Continue tx)
  | Incoming None => ret Finished
  | Incoming (Some (inl packet)) => process_packet self packet ;;; ret (Continue tx)
  | Incoming (Some (inr err)) =>
      match is_disconnect fuel err with
      | Some true => ret Finished
      | Some false => throw err
      | None => ret Stuck
      end
  end.

Fixpoint process_loop (fuel : nat) (self : Session) (tx : Tx) (evs : list Event) : SM Next :=
  match evs with
  | [] => ret (Continue tx)
  | ev :: evs =>
      let* next := process_step fuel self tx ev in
      match next with
      | Continue tx => process_loop fuel self tx evs
      | next => ret next
      end
  end.

(** The answer of [on_re_sync.try_send(tx)]. *)
Inductive TrySend : Type := Accepted | Full | Closed.

Definition process (fuel : nat) (self : Session) (queue : TrySend) (evs : list Event) : SM Next :=
  let* s := get in
  on_broker (session_send self (MMembershipUpdate (peers (replication_state (cr_broker s))))) ;;;
  (match queue with
   | Accepted => ret tt
   | Full => throw (status ResourceExhausted "re-sync channel full")
   | Closed => throw (status CodeUnavailable "re-sync channel closed")
   end) ;;;
  let* s := get in
  process_loop fuel self (mkTx (length (publisher (cr_broker s))) ∅ [] false) evs.

(** The task that runs a session: the session is closed when [process] returns. *)
Definition serve_session (fuel : nat) (self : Session) (queue : TrySend) (evs : list Event) : SM unit :=
  fun w => match process fuel self queue evs w with
           | (Ok Finished, w') | (Err _, w') => on_broker (session_close self) w'
           | (Ok _, w') => (Ok tt, w')
           | (Panic msg, w') => (Panic msg, w')
           end.

(** ** Re-sync *)

(** The task that passes the entries of the re-sync on to the peer. *)
Definition forward_re_sync (self : Session) (message : option CounterUpdate) : SM bool :=
  match message with
  | Some update =>
      fun w => match on_broker (msg_send (out_stream self) (inl (MCounterUpdate update))) w with
               | (Ok _, w') => (Ok true, w')
               | (Err _, w') => (Ok false, w')
               | (Panic msg, w') => (Panic msg, w')
               end
  | None => ignore_err (on_broker (msg_send (out_stream self) (inl MReSyncEnd))) ;;; ret true
  end.

Definition re_sync (self : Session) : SM unit := process_re_sync (forward_re_sync self).

End session.
