(* ===== verification/SessionSpec.v ===== *)
(** * What sessions promise: replication between two replicas *)

From S2P Require Import Prelude AtomicExpiringValue Cel Errors Limit Counter Reservation Storage.
From S2P Require Import StorageSpec CrCounter Keys Broker Distributed DistributedSpec Session.

Section spec.
Context {CE : CelEngine} {HO : HashOrder} {PC : Postcard} {PD : PacketDebug}.
Implicit Types (t : SystemTime) (s : CrInMemoryStorage) (k : string) (tx : Tx) (self : Session).

(** The replica with another broker. *)
Definition with_broker s (b : Broker) : CrInMemoryStorage :=
  mkCrStorage (identifier s) (cr_limits s) (cr_heap s) b.

Lemma on_broker_run {A} t s (m : M Broker Status A) o b' :
  runs t (cr_broker s) m o b' -> runs t s (on_broker m) o (with_broker s b').
Proof. apply (runs_zoom t cr_broker (fun b s => mkCrStorage (identifier s) (cr_limits s) (cr_heap s) b)). Qed.

Lemma with_broker_self s : with_broker s (cr_broker s) = s.
Proof. by destruct s. Qed.

Lemma with_broker_wf s b : dist_wf s -> publisher b = publisher (cr_broker s) -> dist_wf (with_broker s b).
Proof. intros [Hh Hl Hp] Hb. split; [done|done|]. simpl. by rewrite Hb. Qed.

(** ** The pending updates *)

(** Every pending key is listed once and names an entry of that key. *)
Record tx_inv s tx : Prop := mkTxInv {
  tx_nodup : NoDup (tx_updates_order tx);
  tx_listed : forall k, k ∈ tx_updates_order tx <-> is_Some (tx_updates_by_key tx !! k);
  tx_entries : forall k loc, tx_updates_by_key tx !! k = Some loc ->
                 exists e, cr_heap s !! loc = Some e /\ ce_key e = k
}.

Lemma tx_inv_start s n : tx_inv s (mkTx n ∅ [] false).
Proof.
  split; simpl; [constructor| |].
  - intros k. rewrite lookup_empty. split; [by intros ?%not_elem_of_nil|by intros []].
  - intros k loc. by rewrite lookup_empty.
Qed.

Lemma receive_update_inv t s tx :
  dist_wf s -> tx_inv s tx ->
  exists o, runs t s (receive_update tx) o s /\
    match o with
    | Ok tx' => tx_inv s tx'
    | Err e => e = status Unknown "broadcast error"
    | Panic _ => False
    end.
Proof.
  intros Hwf [Hnd Hl He]. unfold receive_update. unfold broadcast_recv.
  destruct (publisher (cr_broker s) !! tx_next tx) as [loc|] eqn:Hloc.
  2:{ eexists. split; [runs_step; rewrite Hloc; apply runs_ret|done]. }
  destruct (broadcast_capacity <? length (publisher (cr_broker s)) - tx_next tx)%nat eqn:Hlag.
  { eexists. split; [runs_step; rewrite Hloc, Hlag; apply runs_throw|done]. }
  pose proof (wf_publisher s Hwf) as Hp. rewrite Forall_forall in Hp.
  apply list_elem_of_lookup_2 in Hloc as Hin. apply Hp in Hin.
  destruct (lookup_lt_is_Some_2 _ _ Hin) as [e Hent].
  destruct (tx_updates_by_key tx !! ce_key e) as [loc'|] eqn:Hk.
  - eexists. split.
    + runs_step. rewrite Hloc, Hlag. eapply runs_bind; [by apply entry_at_run|]. rewrite Hk. apply runs_ret.
    + by split.
  - eexists. split.
    + runs_step. rewrite Hloc, Hlag. eapply runs_bind; [by apply entry_at_run|]. rewrite Hk. apply runs_ret.
    + split; simpl.
      * apply NoDup_app. split_and!; [done| |apply NoDup_singleton].
        intros k Hk1%Hl ->%list_elem_of_singleton. rewrite Hk in Hk1. by destruct Hk1.
      * intros k. rewrite elem_of_app, list_elem_of_singleton, lookup_insert_is_Some, Hl.
        destruct (decide (ce_key e = k)); naive_solver.
      * intros k loc' [[<- <-]|[_ ?]]%lookup_insert_Some; [by exists e|by apply He].
Qed.

(** The replica with another state of the session's channel. *)
Definition set_chan s self (c : Chan) : CrInMemoryStorage :=
  with_broker s (with_channels (cr_broker s) (<[sender_chan (out_stream self) := c]> (channels (cr_broker s)))).

Definition chan_of s self : option Chan := channels (cr_broker s) !! sender_chan (out_stream self).

Lemma set_chan_of s self c c' : chan_of s self = Some c -> chan_of (set_chan s self c') self = Some c'.
Proof. intros Hc. unfold chan_of, set_chan. simpl. apply list_lookup_insert_eq. by eapply lookup_lt_Some. Qed.

Lemma set_chan_twice s self c c' : set_chan (set_chan s self c) self c' = set_chan s self c'.
Proof. unfold set_chan, with_broker, with_channels. simpl. by rewrite list_insert_insert_eq. Qed.

Lemma set_chan_same s self c : chan_of s self = Some c -> set_chan s self c = s.
Proof.
  intros Hc. unfold set_chan. rewrite list_insert_id by done.
  unfold with_broker, with_channels. destruct s as [? ? ? []]. done.
Qed.

Lemma alter_some {A} (f : A -> A) (l : list A) i x : l !! i = Some x -> alter f i l = <[i := f x]> l.
Proof.
  intros Hx. rewrite list_insert_alter. apply list_alter_ext; [|done]. intros y Hy. congruence.
Qed.

Lemma transport_takes_run t s self c (b : bool) :
  chan_of s self = Some c -> runs t s (transport_takes self b) (Ok tt) (set_chan s self (if b then chan_drain c else c)).
Proof.
  intros Hc. unfold transport_takes. destruct b; [|rewrite set_chan_same by done; apply runs_ret].
  unfold set_chan. apply on_broker_run. runs_step. rewrite (alter_some _ _ _ c) by done. apply runs_put.
Qed.

Lemma try_reserve_run t s self c :
  chan_of s self = Some c -> runs t s (on_broker (msg_try_reserve (out_stream self))) (Ok (chan_has_room c)) s.
Proof.
  intros Hc. rewrite <-(with_broker_self s) at 2. apply on_broker_run. unfold msg_try_reserve. runs_step.
  unfold chan_of in Hc. rewrite Hc. apply runs_ret.
Qed.

Lemma permit_send_run t s self c m :
  chan_of s self = Some c ->
  runs t s (on_broker (permit_send (out_stream self) (inl m))) (Ok tt) (set_chan s self (chan_fill c (inl (Some m)))).
Proof.
  intros Hc. unfold set_chan. apply on_broker_run. unfold permit_send, chan_of in *.
  destruct (out_stream self); simpl in *; runs_step; rewrite (alter_some _ _ _ c) by done; apply runs_put.
Qed.

(** The message for the entry at [loc], pending under [k], as long as its window is open:
    the value is the one at the time of sending. *)
Definition pending_message s t k (loc : nat) : option (Packet + Status) :=
  match cr_heap s !! loc with
  | Some e =>
      let '(exp, values) := cr_into_inner (ce_value e) in
      if exp >? t then Some (inl (Some (MCounterUpdate (mkUpdate k values (as_secs exp))))) else None
  | None => None
  end.

Definition pending_messages s t (by_key : gmap string nat) (ks : list string) : list (Packet + Status) :=
  omap (fun k => by_key !! k ≫= pending_message s t k) ks.

Lemma pending_messages_delete s t by_key k ks :
  k ∉ ks -> pending_messages s t (delete k by_key) ks = pending_messages s t by_key ks.
Proof.
  intros Hk. unfold pending_messages. induction ks as [|k' ks IH]; [done|]. simpl.
  apply not_elem_of_cons in Hk as [Hne Hk]. rewrite lookup_delete_ne by done. specialize (IH Hk). unfold omap in IH. by rewrite IH.
Qed.

(** One turn of the loop that has room: the update of [k] is sent, if its window is open. *)
Lemma send_one_run t s self c k loc e :
  dist_wf s -> chan_of s self = Some c -> cr_heap s !! loc = Some e ->
  exists c', ch_open c' = ch_open c /\
    ch_sent c' = ch_sent c ++ option_list (pending_message s t k loc) /\
    runs t s (let '(expiry, values) := cr_into_inner (ce_value e) in
              let* t := now in
              if expiry >? t then
                let* d := since expiry UNIX_EPOCH in
                on_broker (permit_send (out_stream self) (inl (MCounterUpdate (mkUpdate k values (as_secs d)))))
              else ret tt) (Ok tt) (set_chan s self c').
Proof.
  intros Hwf Hc He. unfold pending_message. rewrite He. destruct (wf_heap s Hwf loc e He) as [(_ & _ & [Hexp _]) _].
  destruct (cr_into_inner (ce_value e)) as [exp values] eqn:Hin.
  assert (Hpos : 0 <= exp).
  { unfold cr_into_inner, expiry_into_inner, expires_at, from_micros, UNIX_EPOCH in Hin. injection Hin as <- _. lia. }
  destruct (exp >? t) eqn:Hgt.
  - exists (chan_fill c (inl (Some (MCounterUpdate (mkUpdate k values (as_secs exp)))))). split_and!; [done|done|].
    runs_step. rewrite Hgt. unfold since, duration_since, UNIX_EPOCH. rewrite (proj2 (Z.leb_le _ _) Hpos), Z.sub_0_r.
    runs_step. by apply permit_send_run.
  - exists c. split_and!; [done|by rewrite app_nil_r|]. runs_step. rewrite Hgt, set_chan_same by done. apply runs_ret.
Qed.

(** The sending loop: it ends, and has sent the updates of the keys it took, in order. *)
Lemma send_updates_run t s self c order by_key takes :
  dist_wf s -> chan_of s self = Some c -> NoDup order ->
  (forall k, k ∈ order <-> is_Some (by_key !! k)) ->
  (forall k loc, by_key !! k = Some loc -> exists e, cr_heap s !! loc = Some e /\ ce_key e = k) ->
  exists n c' by_key',
    runs t s (send_updates self order by_key takes) (Ok (drop n order, by_key')) (set_chan s self c') /\
    ch_sent c' = ch_sent c ++ pending_messages s t by_key (take n order) /\ ch_open c' = ch_open c /\
    (forall k, k ∈ drop n order <-> is_Some (by_key' !! k)) /\
    (forall k loc, by_key' !! k = Some loc -> by_key !! k = Some loc) /\
    (ch_open c = true -> Forall (fun b => b = true) takes -> (length order <= length takes)%nat ->
     drop n order = []).
Proof.
  intros Hwf. revert s c by_key takes Hwf. induction order as [|k order IH]; intros s c by_key takes Hwf Hc Hnd Hl He.
  { exists O, c, by_key. split_and!; [simpl; rewrite set_chan_same by done; apply runs_ret|by rewrite app_nil_r|done|done|done|done]. }
  apply NoDup_cons in Hnd as [Hk Hnd]. destruct (proj1 (Hl k)) as [loc Hloc]; [by left|].
  destruct (He k loc Hloc) as (e & Hent & Hke).
  set (c1 := if default false (head takes) then chan_drain c else c).
  assert (R1 : runs t s (transport_takes self (default false (head takes))) (Ok tt) (set_chan s self c1))
    by (by apply transport_takes_run).
  assert (Hc1 : chan_of (set_chan s self c1) self = Some c1) by (by eapply set_chan_of).
  assert (Hsame : ch_sent c1 = ch_sent c /\ ch_open c1 = ch_open c) by (unfold c1; by destruct (default _ _)).
  destruct Hsame as [Hs1 Ho1]. destruct (chan_has_room c1) eqn:Hroom.
  - assert (Hwf1 : dist_wf (set_chan s self c1)) by (by apply with_broker_wf).
    destruct (send_one_run t (set_chan s self c1) self c1 k loc e Hwf1 Hc1 Hent) as (c2 & Ho2 & Hs2 & R2).
    rewrite set_chan_twice in R2.
    destruct (IH (set_chan s self c2) c2 (delete k by_key) (tail takes)) as (n & c3 & bk & R3 & Hs3 & Ho3 & Hl3 & Hb3 & Hall).
    { by apply with_broker_wf. }
    { by eapply set_chan_of. }
    { done. }
    { intros k'. rewrite lookup_delete_is_Some, <-Hl, elem_of_cons. split; [|naive_solver].
      intros Hin. split; [by intros ->|by right]. }
    { intros k' loc'. rewrite lookup_delete_Some. intros [_ ?]. by apply He. }
    exists (S n), c3, bk. rewrite set_chan_twice in R3. split_and!; [|..|done| |].
    + cbn [send_updates]. eapply runs_bind; [exact R1|]. eapply runs_bind; [by apply try_reserve_run|].
      rewrite Hroom, Hloc. eapply runs_bind; [by apply entry_at_run|].
      destruct (cr_into_inner (ce_value e)) as [exp values] eqn:Hin.
      intros w Hw Hst. destruct (R2 w Hw Hst) as [m Hm]. unfold bind at 1 in Hm.
      unfold bind at 1. simpl in Hm |- *.
      destruct (R3 (mkWorld (set_chan s self c2) (w_clock w) m)) as [m' Hm']; [done|done|]. exists m'.
      unfold bind at 1. unfold now in Hm. simpl in Hm. rewrite Hm. exact Hm'.
    + rewrite Hs3, Hs2, Hs1, <-(assoc_L (++)). f_equal. cbn [take]. unfold pending_messages at 2. simpl. rewrite Hloc. simpl.
      change (pending_message (set_chan s self c1) t k loc) with (pending_message s t k loc).
      change (pending_messages (set_chan s self c2)) with (pending_messages s).
      rewrite pending_messages_delete by (intros Hin; apply Hk; by eapply subseteq_take).
      by destruct (pending_message s t k loc).
    + congruence.
    + intros k' loc' Hb. apply Hb3 in Hb. by apply lookup_delete_Some in Hb as [_ ?].
    + intros Hopen Htakes Hlen. apply Hall; [congruence|by destruct takes; [|inversion Htakes]|].
      destruct takes; simpl in *; lia.
  - exists O, c1, by_key. split_and!; [|by rewrite Hs1, app_nil_r|done|done|done|].
    + cbn [send_updates]. eapply runs_bind; [exact R1|]. eapply runs_bind; [by apply try_reserve_run|].
      rewrite Hroom. apply runs_ret.
    + intros Hopen Htakes Hlen. exfalso. destruct takes as [|b takes]; [simpl in Hlen; lia|].
      inversion Htakes; subst. unfold c1, chan_has_room in Hroom. simpl in Hroom.
      by rewrite Hopen, Nat.eqb_refl in Hroom.
Qed.

(** ** When sessions panic *)

(** What the tasks of a replica leave alone: entries keep their keys and stay where they
    are, and the session keeps its channel. *)
Record extends self s s' : Prop := mkExtends {
  ext_wf : dist_wf s';
  ext_chan : is_Some (chan_of s' self);
  ext_heap : forall loc e, cr_heap s !! loc = Some e -> exists e', cr_heap s' !! loc = Some e' /\ ce_key e' = ce_key e
}.

Lemma extends_trans self s1 s2 s3 : extends self s1 s2 -> extends self s2 s3 -> extends self s1 s3.
Proof.
  intros [_ _ H1] [W2 C2 H2]. split; [done|done|].
  intros loc e He. destruct (H1 loc e He) as (e1 & He1 & <-). by apply H2.
Qed.

Lemma extends_tx self s s' tx : extends self s s' -> tx_inv s tx -> tx_inv s' tx.
Proof.
  intros Hx [Hnd Hl He]. split; [done|done|]. intros k loc Hk. destruct (He k loc Hk) as (e & Hent & <-).
  by eapply ext_heap.
Qed.

Lemma extends_broker self s b :
  dist_wf s -> publisher b = publisher (cr_broker s) -> is_Some (channels b !! sender_chan (out_stream self)) ->
  extends self s (with_broker s b).
Proof. intros Hwf Hp Hc. split; [by apply with_broker_wf|done|]. intros loc e He. by exists e. Qed.

Lemma extends_refl self s : dist_wf s -> is_Some (chan_of s self) -> extends self s s.
Proof. intros Hwf Hc. split; [done|done|]. intros loc e He. by exists e. Qed.

(** The packets that make the session panic: updates of a counter the replica does not
    know, or with an expiry that [SystemTime] cannot name. *)
Definition packet_panics s (packet : Packet) : Prop :=
  match packet with
  | Some (MCounterUpdate u) => dist_entry s (cu_key u) = None \/ last_second < cu_expires_at u
  | _ => False
  end.

Definition event_panics s (ev : Event) : Prop :=
  match ev with Incoming (Some (inl packet)) => packet_panics s packet | _ => False end.

Definition packet_typed (packet : Packet) : Prop :=
  match packet with Some (MCounterUpdate u) => update_typed u | _ => True end.

Definition event_typed (ev : Event) : Prop :=
  match ev with Incoming (Some (inl packet)) => packet_typed packet | _ => True end.

Definition is_panic {E A} (o : Outcome E A) : Prop := exists msg, o = Panic msg.

Lemma no_panic {E A} (o : Outcome E A) : (forall msg, o <> Panic msg) -> is_panic o <-> False.
Proof. intros Ho. split; [|done]. intros [msg ->]. by destruct (Ho msg). Qed.

Lemma msg_send_any t b out m :
  exists o chs, runs t b (msg_send out (inl m)) o (with_channels b chs) /\
    (o = Ok tt \/ o = Err (status Unknown "send error")) /\
    (is_Some (channels b !! sender_chan out) -> is_Some (chs !! sender_chan out)).
Proof.
  destruct (channels b !! sender_chan out) as [ch|] eqn:Hch.
  - destruct (chan_send ch (inl (Some m))) as [ok ch'] eqn:Hs.
    exists (if ok then Ok tt else Err (status Unknown "send error")), (<[sender_chan out := ch']> (channels b)).
    split_and!.
    + destruct out; cbn [msg_send sender_chan] in *; runs_step; rewrite Hch, Hs; runs_step; destruct ok;
        auto using runs_ret, runs_throw.
    + destruct ok; auto.
    + intros _. rewrite list_lookup_insert_eq by (by eapply lookup_lt_Some). done.
  - exists (Err (status Unknown "send error")), (channels b). split_and!; [|by right|by intros []].
    replace (with_channels b (channels b)) with b by (by destruct b).
    destruct out; cbn [msg_send sender_chan] in *; runs_step; rewrite Hch; apply runs_throw.
Qed.

Lemma counter_update_run t s self u :
  dist_wf s -> good_time t -> is_Some (chan_of s self) -> update_typed u ->
  exists o s', runs t s (on_counter_update (E := Status) u) o s' /\
    (is_panic o <-> dist_entry s (cu_key u) = None \/ last_second < cu_expires_at u) /\ extends self s s'.
Proof.
  intros Hwf Ht Hc Hu. assert (Hself : extends self s s) by (by apply extends_refl).
  destruct (dist_entry s (cu_key u)) as [e|] eqn:He.
  - pose proof (on_counter_update_any t s u e Hwf Ht Hu He) as H. case_decide.
    + destruct H as (loc & v & Hk & Hent & Hr & Hv & Ho). exists (Ok tt), (set_value s loc v).
      split_and!; [done|rewrite no_panic by done; split; [done|intros [|]; [done|lia]]|].
      split; [by apply set_value_wf|done|].
      intros loc' x Hx. rewrite set_value_heap. case_decide; [subst; rewrite Hx; by eexists|by exists x].
    + do 2 eexists. split_and!; [exact H| |done]. split; [right; lia|by eexists].
  - do 2 eexists. split_and!; [by apply on_counter_update_unknown| |done]. split; [by left|by eexists].
Qed.

Lemma process_packet_run t s self packet :
  dist_wf s -> good_time t -> is_Some (chan_of s self) -> packet_typed packet ->
  exists o s', runs t s (process_packet self packet) o s' /\ (is_panic o <-> packet_panics s packet) /\ extends self s s'.
Proof.
  intros Hwf Ht Hc Hok. assert (Hself : extends self s s) by (by apply extends_refl).
  assert (Hbad : exists o s', runs t s (throw (A := unit) (status InvalidArgument ("unsupported packet " +:+ debug_packet packet))) o s' /\
            (is_panic o <-> False) /\ extends self s s')
    by (by do 2 eexists; split_and!; [apply runs_throw|apply no_panic|]).
  destruct packet as [[h|ps| |p|u|]|]; try exact Hbad; cbn [process_packet packet_panics].
  - do 2 eexists. split_and!; [apply on_broker_run; runs_step; apply runs_put|by apply no_panic|by apply extends_broker].
  - destruct (msg_send_any t (cr_broker s) (out_stream self) (MPong (as_u64 (as_millis t)))) as (o & chs & Hr & Ho & Hch).
    exists o, (with_broker s (with_channels (cr_broker s) chs)).
    split_and!; [|by apply no_panic; destruct Ho; subst|by apply extends_broker; auto].
    destruct Ht as [Ht0 _]. runs_step. unfold since, duration_since, UNIX_EPOCH.
    rewrite (proj2 (Z.leb_le _ _) Ht0), Z.sub_0_r. runs_step. by apply on_broker_run.
  - by apply counter_update_run.
Qed.

Lemma process_step_run t fuel s self tx ev :
  dist_wf s -> good_time t -> is_Some (chan_of s self) -> tx_inv s tx -> event_typed ev ->
  exists o s', runs t s (process_step fuel self tx ev) o s' /\ (is_panic o <-> event_panics s ev) /\
    extends self s s' /\ (forall tx', o = Ok (Continue tx') -> tx_inv s' tx').
Proof.
  intros Hwf Ht [c Hc] Htx Hok. assert (Hself : extends self s s) by (by apply extends_refl).
  destruct ev as [|takes|[[packet|err]|]]; cbn [process_step event_panics].
  - destruct (receive_update_inv t s tx Hwf Htx) as (o & Hr & Ho). destruct o as [tx'|e|]; [| |done].
    + exists (Ok (Continue tx')), s. split_and!; [eapply runs_bind; [exact Hr|apply runs_ret]|by apply no_panic|done|congruence].
    + exists (Err e), s. split_and!; [by apply runs_bind_err|by apply no_panic|done|done].
  - destruct (tx_notified tx); [|by exists (Ok (Continue tx)), s; split_and!; [apply runs_ret|apply no_panic|done|congruence]].
    destruct Htx as [Hnd Hl He].
    destruct (send_updates_run t s self c _ _ takes Hwf Hc Hnd Hl He) as (n & c' & bk & Hr & _ & _ & Hl' & Hb' & _).
    exists (Ok (Continue (mkTx (tx_next tx) bk (drop n (tx_updates_order tx)) false))), (set_chan s self c').
    split_and!; [eapply runs_bind; [exact Hr|apply runs_ret]|by apply no_panic| |].
    + apply extends_broker; [done|done|]. eexists. by eapply set_chan_of.
    + intros tx' [= <-]. split; simpl; [by eapply sublist_NoDup; [|apply sublist_drop]|done|]. intros k loc Hk. by apply He, Hb'.
  - destruct (process_packet_run t s self packet Hwf Ht) as (o & s' & Hr & Hp & Hx); [by eexists|done|].
    destruct o as [[]|e|msg].
    + exists (Ok (Continue tx)), s'. split_and!; [eapply runs_bind; [exact Hr|apply runs_ret]| |done|].
      * rewrite <-Hp, !no_panic by done. done.
      * intros tx' [= <-]. by eapply extends_tx.
    + exists (Err e), s'. split_and!; [by apply runs_bind_err|by rewrite <-Hp, !no_panic|done|done].
    + exists (Panic msg), s'. split_and!; [by apply runs_bind_panic| |done|done].
      rewrite <-Hp. split; intros _; by eexists.
  - destruct (is_disconnect fuel err) as [[]|]; do 2 eexists; split_and!; try apply runs_ret; try apply runs_throw;
      try (by apply no_panic); done.
  - do 2 eexists. split_and!; [apply runs_ret|by apply no_panic|done|done].
Qed.

(** The states a session goes through: turns of its loop, each at its own time, and
    whatever the other tasks of the replica do in between. *)
Inductive served (fuel : nat) self s0 (tx0 : Tx) : CrInMemoryStorage -> Tx -> Prop :=
| served_start : served fuel self s0 tx0 s0 tx0
| served_turn s tx t ev s' tx' :
    served fuel self s0 tx0 s tx -> good_time t -> event_typed ev ->
    runs t s (process_step fuel self tx ev) (Ok (Continue tx')) s' -> served fuel self s0 tx0 s' tx'
| served_other s tx s' :
    served fuel self s0 tx0 s tx -> extends self s s' -> served fuel self s0 tx0 s' tx.

Lemma served_inv fuel self s0 tx0 s tx :
  dist_wf s0 -> is_Some (chan_of s0 self) -> tx_inv s0 tx0 -> served fuel self s0 tx0 s tx ->
  dist_wf s /\ is_Some (chan_of s self) /\ tx_inv s tx.
Proof.
  intros Hwf Hc Htx. induction 1 as [|s tx t ev s' tx' _ (IH1 & IH2 & IH3) Ht Hev Hr|s tx s' _ (_ & _ & IH3) Hx]; [done| |].
  - destruct (process_step_run t fuel s self tx ev) as (o & s1 & Hr1 & _ & [? ? _] & Htx1); [done..|].
    destruct (runs_det _ _ _ _ _ _ _ Hr Hr1) as [<- <-]. split_and!; [done|done|by apply Htx1].
  - destruct Hx as [? ? ?]. split_and!; [done|done|]. eapply extends_tx, IH3. by split.
Qed.

(** C24: when serving a peer panics.  From the start of a session on, whatever packets
    arrive, entries are published and updates are sent, in whatever order, at whatever
    times and whatever the other tasks of the replica do to the entries in between, the
    keys waiting to be sent are listed once each and name an entry; the next turn of
    the loop panics exactly when its packet is an update of a counter the replica does
    not know at that moment, or one whose expiry no [SystemTime] can name. *)
Theorem session_panics_exactly fuel self s0 next s tx t ev :
  dist_wf s0 -> is_Some (chan_of s0 self) -> served fuel self s0 (mkTx next ∅ [] false) s tx ->
  good_time t -> event_typed ev ->
  tx_inv s tx /\
  exists o s', runs t s (process_step fuel self tx ev) o s' /\ dist_wf s' /\ (is_panic o <-> event_panics s ev).
Proof.
  intros Hwf Hc Hs Ht Hev.
  destruct (served_inv fuel self s0 _ s tx Hwf Hc (tx_inv_start s0 next) Hs) as (Hwf1 & Hc1 & Htx). split; [done|].
  destruct (process_step_run t fuel s self tx ev Hwf1 Ht Hc1 Htx Hev) as (o & s' & Hr & Hp & Hx & _).
  exists o, s'. split_and!; [done|by destruct Hx|done].
Qed.

(** ** Updates are sent with the values of the time they are sent *)

(** A notified session with an open channel to a peer that keeps taking sends every
    pending update whose window is open, once, in the order the counters were first
    updated, with the values its entry has now; nothing is left pending. *)
Theorem notified_session_sends t fuel s self c tx takes :
  dist_wf s -> tx_inv s tx -> chan_of s self = Some c -> ch_open c = true -> tx_notified tx = true ->
  Forall (fun b => b = true) takes -> (length (tx_updates_order tx) <= length takes)%nat ->
  exists c', runs t s (process_step fuel self tx (Notified takes))
      (Ok (Continue (mkTx (tx_next tx) ∅ [] false))) (set_chan s self c') /\
    ch_sent c' = ch_sent c ++ pending_messages s t (tx_updates_by_key tx) (tx_updates_order tx).
Proof.
  intros Hwf [Hnd Hl He] Hc Ho Hn Htakes Hlen.
  destruct (send_updates_run t s self c _ _ takes Hwf Hc Hnd Hl He) as (n & c' & bk & Hr & Hs & _ & Hl' & _ & Hall).
  specialize (Hall Ho Htakes Hlen). rewrite Hall in Hl', Hr.
  assert (bk = ∅) as ->.
  { apply map_empty. intros k. apply eq_None_not_Some. rewrite <-Hl'. apply not_elem_of_nil. }
  assert (Htake : take n (tx_updates_order tx) = tx_updates_order tx).
  { rewrite <-(take_drop n (tx_updates_order tx)) at 2. by rewrite Hall, app_nil_r. }
  exists c'. rewrite Htake in Hs. split; [|done]. cbn [process_step]. rewrite Hn.
  eapply runs_bind; [exact Hr|apply runs_ret].
Qed.

(** The events of the two local branches. *)
Definition local_event (ev : Event) : Prop := match ev with Incoming _ => False | _ => True end.

(** Everything published from [next] on is already pending. *)
Definition only_pending s tx : Prop :=
  forall i loc e, (tx_next tx <= i)%nat -> publisher (cr_broker s) !! i = Some loc -> cr_heap s !! loc = Some e ->
    is_Some (tx_updates_by_key tx !! ce_key e).

Lemma stalled_loop t fuel s self tx evs :
  dist_wf s -> tx_notified tx = false -> only_pending s tx ->
  (length (publisher (cr_broker s)) - tx_next tx <= broadcast_capacity)%nat -> Forall local_event evs ->
  exists next, runs t s (process_loop fuel self tx evs)
    (Ok (Continue (mkTx next (tx_updates_by_key tx) (tx_updates_order tx) false))) s.
Proof.
  intros Hwf Hn Hpend Hlag Hevs. revert tx Hn Hpend Hlag. induction Hevs as [|ev evs Hev _ IH]; intros tx Hn Hpend Hlag.
  { exists (tx_next tx). destruct tx; simpl in *; subst. apply runs_ret. }
  cbn [process_loop]. destruct ev as [|takes|]; [| |done]; cbn [process_step].
  - destruct (publisher (cr_broker s) !! tx_next tx) as [loc|] eqn:Hloc.
    + pose proof (wf_publisher s Hwf) as Hp. rewrite Forall_forall in Hp.
      apply list_elem_of_lookup_2 in Hloc as Hin. apply Hp in Hin. destruct (lookup_lt_is_Some_2 _ _ Hin) as [e He].
      destruct (Hpend (tx_next tx) loc e) as [loc' Hk]; [lia|done|done|].
      destruct (IH (mkTx (S (tx_next tx)) (tx_updates_by_key tx) (tx_updates_order tx) false)) as [next Hr];
        [done| |simpl; lia|].
      { intros i loc1 e1 Hi. apply Hpend. simpl in Hi. lia. }
      exists next. eapply (runs_bind _ _ _ _ (Continue (mkTx (S (tx_next tx)) _ _ false))); [|exact Hr].
      eapply runs_bind; [|apply runs_ret]. unfold receive_update, broadcast_recv. runs_step. rewrite Hloc. rewrite (proj2 (Nat.ltb_ge _ _) Hlag). eapply runs_bind; [by apply entry_at_run|].
      rewrite Hk, Hn. apply runs_ret.
    + destruct (IH tx) as [next Hr]; [done..|]. exists next. eapply (runs_bind _ _ _ _ (Continue tx)); [|exact Hr].
      eapply runs_bind; [|apply runs_ret]. unfold receive_update, broadcast_recv. runs_step. rewrite Hloc. apply runs_ret.
  - rewrite Hn. destruct (IH tx) as [next Hr]; [done..|]. exists next. eapply runs_bind; [apply runs_ret|exact Hr].
Qed.

(** C39: updates left unsent because the channel was full stay unsent.  The notification
    is used up, and as long as only counters that are already waiting are published
    again nothing notifies the session: even once the peer has taken everything from
    the channel, no event of the storage or of the timer-less loop sends anything. *)
Theorem stalled_updates_stay t fuel s self c tx evs :
  dist_wf s -> tx_inv s tx -> chan_of s self = Some c -> chan_has_room c = false -> only_pending s tx ->
  (length (publisher (cr_broker s)) - tx_next tx <= broadcast_capacity)%nat -> Forall local_event evs ->
  let tx1 := mkTx (tx_next tx) (tx_updates_by_key tx) (tx_updates_order tx) false in
  let s1 := set_chan s self (chan_drain c) in
  runs t s (process_step fuel self tx (Notified [])) (Ok (Continue tx1)) s /\
  exists next, runs t s1 (process_loop fuel self tx1 evs)
    (Ok (Continue (mkTx next (tx_updates_by_key tx) (tx_updates_order tx) false))) s1.
Proof.
  intros Hwf Htx Hc Hroom Hpend Hlag Hevs tx1 s1. split.
  - cbn [process_step]. destruct (tx_notified tx) eqn:Hn; [|destruct tx; simpl in *; subst; apply runs_ret].
    unfold tx1. destruct (tx_updates_order tx) as [|k order] eqn:Hord; cbn [send_updates].
    + eapply runs_bind; [apply runs_ret|apply runs_ret].
    + apply (runs_bind _ _ _ _ (k :: order, tx_updates_by_key tx) s); [|apply runs_ret]. simpl.
      eapply runs_bind; [apply runs_ret|]. eapply runs_bind; [by apply try_reserve_run|]. rewrite Hroom. apply runs_ret.
  - apply (stalled_loop t fuel s1 self tx1 evs); [by apply with_broker_wf|done|done|done|done].
Qed.

(** ** From one replica to another *)

Lemma pending_update_wf s t k loc e u :
  dist_wf s -> cr_heap s !! loc = Some e -> (cr_into_inner (ce_value e)).2 !! ""%string = None ->
  pending_message s t k loc = Some (inl (Some (MCounterUpdate u))) ->
  update_wf u /\ cu_key u = k /\ cu_values u = (cr_into_inner (ce_value e)).2 /\
  cu_expires_at u = as_secs (expires_at (cr_expiry (ce_value e))).
Proof.
  intros Hwf He Hempty. unfold pending_message. rewrite He.
  destruct (wf_heap s Hwf loc e He) as [Hcr _]. pose proof Hcr as (Hv & Ho & [He0 He1]).
  unfold cr_into_inner in *. cbn [snd] in Hempty. case_match; [|done]. intros [= <-]. cbn [cu_key cu_values cu_expires_at snd].
  split_and!; [|done|done|done]. split_and!; cbn [cu_values cu_expires_at].
  - intros a v [[_ <-]|[_ ?]]%lookup_insert_Some; [done|by eapply Ho].
  - done.
  - unfold as_secs, expiry_into_inner, expires_at, from_micros, UNIX_EPOCH, nanos_per_sec. apply Z.div_pos; lia.
  - unfold as_secs, expiry_into_inner, expires_at, from_micros, UNIX_EPOCH, nanos_per_sec.
    Z.to_euclidean_division_equations. lia.
Qed.

(** What reaches the other side of what actor [a] counted under [k], sent at [t] and
    received at [t']: the window must be open when it is sent, and its end, cut to whole
    seconds, must not have passed when it is received. *)
Definition sent_seen s t t' (loc : nat) (a : string) : Z :=
  match cr_heap s !! loc with
  | Some e =>
      let exp := expires_at (cr_expiry (ce_value e)) in
      if decide (t < exp /\ as_micros t' < as_secs exp * 1000000) then cr_at (ce_value e) a else 0
  | None => 0
  end.

(** The messages of a channel as they come in at its other end. *)
Definition incoming (msgs : list (Packet + Status)) : list Event := (fun m => Incoming (Some m)) <$> msgs.

Lemma cr_seen_nonneg c t a : cr_wf c -> 0 <= cr_seen c t a.
Proof. intros Hc. unfold cr_seen. case_decide; [|done]. by destruct (cr_at_u64 c a Hc). Qed.

(** One update, sent if its window is open, and received. *)
Lemma deliver_one t t' fuel sA sB self txB k loc e eB :
  dist_wf sA -> dist_wf sB -> good_time t' ->
  cr_heap sA !! loc = Some e -> (cr_into_inner (ce_value e)).2 !! ""%string = None -> dist_entry sB k = Some eB ->
  exists sB', runs t' sB (process_loop fuel self txB (incoming (option_list (pending_message sA t k loc)))) (Ok (Continue txB)) sB' /\
    dist_wf sB' /\ (forall k', k' <> k -> dist_entry sB' k' = dist_entry sB k') /\
    exists e', dist_entry sB' k = Some e' /\
      forall a, cr_seen (ce_value e') t' a = Z.max (cr_seen (ce_value eB) t' a) (sent_seen sA t t' loc a).
Proof.
  intros HwfA HwfB Ht He Hempty HB.
  assert (Hexp : (cr_into_inner (ce_value e)).1 = expires_at (cr_expiry (ce_value e))) by done.
  destruct (pending_message sA t k loc) as [m|] eqn:Hm.
  - assert (Hm' : exists u, m = inl (Some (MCounterUpdate u)) /\ t < expires_at (cr_expiry (ce_value e))).
    { unfold pending_message in Hm. rewrite He in Hm. destruct (cr_into_inner (ce_value e)) as [x y]. simpl in Hexp. subst x.
      destruct (Z.gtb_spec (expires_at (cr_expiry (ce_value e))) t); [|done]. injection Hm as <-. eexists. split; [done|lia]. }
    destruct Hm' as (u & -> & Hopen).
    destruct (pending_update_wf sA t k loc e u HwfA He Hempty Hm) as (Hu & <- & Hvals & Hsec).
    destruct (on_counter_update_run t' sB u eB HwfB Ht Hu HB) as (locB & v & Hl & _ & Hr & Hv & Ho & Hs).
    exists (set_value sB locB v). split_and!; [|by apply set_value_wf| |].
    + cbn [option_list incoming fmap list_fmap process_loop process_step]. eapply (runs_bind _ _ _ _ (Continue txB)); [|apply runs_ret].
      eapply runs_bind; [exact Hr|apply runs_ret].
    + intros k' Hk'. rewrite (set_value_entry sB (cu_key u)) by done. by rewrite decide_False.
    + exists (mkEntry (ce_key eB) (ce_counter eB) v). split.
      { rewrite (set_value_entry sB (cu_key u)) by done. by rewrite decide_True, HB. }
      intros a. simpl. rewrite Hs. f_equal. unfold update_seen, sent_seen. rewrite He, Hvals, Hsec, into_inner_at.
      destruct (decide (as_micros t' < _)) as [Hc|Hc]; [by rewrite decide_True|]. rewrite decide_False; [done|]. intros [_ ?]. by apply Hc.
  - exists sB. split_and!; [apply runs_ret|done|done|]. exists eB. split; [done|]. intros a.
    unfold pending_message in Hm. rewrite He in Hm. unfold sent_seen. rewrite He.
    destruct (cr_into_inner (ce_value e)) as [x y]. simpl in Hexp. subst x.
    destruct (Z.gtb_spec (expires_at (cr_expiry (ce_value e))) t) as [|Hle]; [done|].
    rewrite decide_False by lia. unfold dist_entry in HB. destruct (cr_limits sB !! k) as [locB|]; [|done].
    pose proof (cr_seen_nonneg (ce_value eB) t' a (proj1 (wf_heap sB HwfB _ _ HB))). lia.
Qed.

Lemma process_loop_app fuel self tx evs1 evs2 w tx1 w1 :
  process_loop fuel self tx evs1 w = (Ok (Continue tx1), w1) ->
  process_loop fuel self tx (evs1 ++ evs2) w = process_loop fuel self tx1 evs2 w1.
Proof.
  revert tx w. induction evs1 as [|ev evs1 IH]; intros tx w; cbn [app process_loop]; [by intros [= -> ->]|].
  unfold bind. destruct (process_step fuel self tx ev w) as [[[tx'| |]|e|msg] w'] eqn:Hstep; try done. apply IH.
Qed.

(** The updates sent for the keys [ks], received one after the other. *)
Lemma deliver_run t t' fuel sA self txB (by_key : gmap string nat) ks :
  dist_wf sA -> good_time t' -> NoDup ks -> forall sB, dist_wf sB ->
  (forall k, k ∈ ks -> is_Some (dist_entry sB k) /\ exists loc e, by_key !! k = Some loc /\ cr_heap sA !! loc = Some e /\
     (cr_into_inner (ce_value e)).2 !! ""%string = None) ->
  exists sB', runs t' sB (process_loop fuel self txB (incoming (pending_messages sA t by_key ks))) (Ok (Continue txB)) sB' /\
    dist_wf sB' /\
    forall k eB, dist_entry sB k = Some eB -> exists e', dist_entry sB' k = Some e' /\
      forall a, cr_seen (ce_value e') t' a =
        if decide (k ∈ ks) then Z.max (cr_seen (ce_value eB) t' a) (default 0 ((fun loc => sent_seen sA t t' loc a) <$> by_key !! k))
        else cr_seen (ce_value eB) t' a.
Proof.
  intros HwfA Ht. induction ks as [|k ks IH]; intros Hnd sB HwfB Hks.
  { exists sB. split_and!; [apply runs_ret|done|]. intros k eB He. exists eB. split; [done|]. intros a. by rewrite decide_False by apply not_elem_of_nil. }
  apply NoDup_cons in Hnd as [Hk Hnd]. destruct (Hks k) as ([eB HB] & loc & e & Hloc & He & Hempty); [by left|].
  destruct (deliver_one t t' fuel sA sB self txB k loc e eB HwfA HwfB Ht He Hempty HB) as (s1 & R1 & Hwf1 & Hother & e1 & He1 & Hs1).
  destruct (IH Hnd s1 Hwf1) as (s2 & R2 & Hwf2 & Hs2).
  { intros k' Hk'. rewrite Hother by (by intros ->). apply Hks. by right. }
  exists s2. split_and!; [|done|].
  - intros w Hw Hst. destruct (R1 w Hw Hst) as [n Hn]. destruct (R2 (mkWorld s1 (w_clock w) n)) as [n' Hn']; [done|done|]. exists n'.
    cbn [w_clock] in Hn'. rewrite <-Hn', <-(process_loop_app _ _ _ _ _ _ _ _ Hn). f_equal. unfold incoming. rewrite <-fmap_app. f_equal.
    unfold pending_messages. cbn [omap list_omap]. rewrite Hloc. cbn [mbind option_bind]. by destruct (pending_message sA t k loc).
  - intros k' eB' HB'. destruct (decide (k' = k)) as [->|Hne].
    + rewrite HB in HB'. injection HB' as <-. destruct (Hs2 k e1 He1) as (e2 & He2 & Hseen). exists e2. split; [done|]. intros a.
      rewrite Hseen, decide_False, decide_True, Hloc by (done || by left). apply Hs1.
    + destruct (Hs2 k' eB') as (e2 & He2 & Hseen); [by rewrite Hother|]. exists e2. split; [done|]. intros a. rewrite Hseen.
      destruct (decide (k' ∈ ks)) as [Hin|Hin]; [by rewrite decide_True by (by right)|].
      rewrite decide_False; [done|]. by intros [?|?]%elem_of_cons.
Qed.

(** C11: what one replica sends, the other one sees.  A session notified at [t] sends the
    updates of the first [n] counters that wait, all of them if the peer keeps taking
    them from an open channel; when the messages it added to the channel come in at
    [t'] at a replica that knows those counters, that replica sees of every actor,
    its peer included, the larger of what it saw before and of what the sender saw, if
    the sender's window was open at [t] and, cut to whole seconds, still is at [t'];
    of its other counters it sees what it saw.  No replica has an empty name. *)
Theorem replication_delivers t t' fuel sA sB self self' c tx txB takes :
  dist_wf sA -> dist_wf sB -> good_time t' -> tx_inv sA tx -> tx_notified tx = true -> chan_of sA self = Some c ->
  (forall k loc e, tx_updates_by_key tx !! k = Some loc -> cr_heap sA !! loc = Some e ->
     is_Some (dist_entry sB k) /\ (cr_into_inner (ce_value e)).2 !! ""%string = None) ->
  exists n by_key c' msgs sB',
    runs t sA (process_step fuel self tx (Notified takes))
      (Ok (Continue (mkTx (tx_next tx) by_key (drop n (tx_updates_order tx)) false))) (set_chan sA self c') /\
    (ch_open c = true -> Forall (fun b => b = true) takes -> (length (tx_updates_order tx) <= length takes)%nat ->
     drop n (tx_updates_order tx) = []) /\
    ch_sent c' = ch_sent c ++ msgs /\
    runs t' sB (process_loop fuel self' txB (incoming msgs)) (Ok (Continue txB)) sB' /\ dist_wf sB' /\
    forall k eB, dist_entry sB k = Some eB -> exists e', dist_entry sB' k = Some e' /\
      forall a, cr_seen (ce_value e') t' a =
        if decide (k ∈ take n (tx_updates_order tx))
        then Z.max (cr_seen (ce_value eB) t' a)
               (default 0 ((fun loc => sent_seen sA t t' loc a) <$> tx_updates_by_key tx !! k))
        else cr_seen (ce_value eB) t' a.
Proof.
  intros HwfA HwfB Ht' [Hnd Hl He] Hn Hc Hknown.
  destruct (send_updates_run t sA self c _ _ takes HwfA Hc Hnd Hl He) as (n & c' & bk & Hr & Hs & _ & _ & _ & Hall).
  destruct (deliver_run t t' fuel sA self' txB (tx_updates_by_key tx) (take n (tx_updates_order tx)) HwfA Ht') with sB
    as (sB' & HrB & HwfB' & Hseen); [by eapply sublist_NoDup; [|apply sublist_take]|done| |].
  { intros k Hk%subseteq_take. apply Hl in Hk as [loc Hloc]. destruct (He k loc Hloc) as (e & Hent & _).
    destruct (Hknown k loc e Hloc Hent). split; [done|]. by exists loc, e. }
  exists n, bk, c', (pending_messages sA t (tx_updates_by_key tx) (take n (tx_updates_order tx))), sB'.
  split_and!; [|done|done|done|done|done]. cbn [process_step]. rewrite Hn. eapply runs_bind; [exact Hr|apply runs_ret].
Qed.

(** ** Re-sync *)

(** The re-sync message of an entry: the replica's own count, if there is one and its
    window is open. *)
Definition re_sync_of s t k : option CounterUpdate :=
  match dist_entry s k with
  | Some e =>
      let '(exp, me, v) := local_values (ce_value e) in
      if v =? 0 then None else if exp <=? t then None else Some (mkUpdate k {[me := v]} (as_secs exp))
  | None => None
  end.

Definition re_sync_messages s t (ks : list string) : list (Packet + Status) :=
  omap (fun k => (fun u => inl (Some (MCounterUpdate u))) <$> re_sync_of s t k) ks.

Lemma re_sync_update_run {E} t s k :
  dist_wf s -> runs t s (re_sync_update (E := E) k) (Ok (re_sync_of s t k)) s.
Proof.
  intros Hwf. unfold re_sync_update, re_sync_of. eapply runs_bind; [apply entry_get_run|].
  destruct (dist_entry s k) as [e|] eqn:He; [|apply runs_ret].
  destruct (local_values (ce_value e)) as [[exp me] v] eqn:Hloc. destruct (v =? 0); [apply runs_ret|].
  runs_step. destruct (exp <=? t); [apply runs_ret|].
  assert (Hpos : 0 <= exp).
  { unfold dist_entry in He. destruct (cr_limits s !! k) as [loc|]; [|done].
    destruct (wf_heap s Hwf loc e He) as [(_ & _ & [Hexp _]) _].
    unfold local_values, expiry_into_inner, expires_at, from_micros, UNIX_EPOCH in Hloc. injection Hloc as <- _ _. lia. }
  unfold since, duration_since, UNIX_EPOCH. rewrite (proj2 (Z.leb_le _ _) Hpos), Z.sub_0_r. runs_step. apply runs_ret.
Qed.

(** The channel after one more message was sent. *)
Definition sent_more (c : Chan) (m : Message) : Chan := mkChan (ch_sent c ++ [inl (Some m)]) (length (ch_sent c)) true.

Lemma send_open_run t s self c m :
  chan_of s self = Some c -> ch_open c = true ->
  runs t s (on_broker (msg_send (out_stream self) (inl m))) (Ok tt) (set_chan s self (sent_more c m)).
Proof.
  intros Hc Ho. unfold set_chan. apply on_broker_run. unfold chan_of in Hc.
  destruct (out_stream self); cbn [msg_send sender_chan] in *; runs_step; rewrite Hc; unfold chan_send; rewrite Ho;
    runs_step; apply runs_ret.
Qed.

Lemma forward_run t s self c m :
  chan_of s self = Some c -> ch_open c = true ->
  exists c', ch_open c' = true /\
    ch_sent c' = ch_sent c ++ [inl (Some (match m with Some u => MCounterUpdate u | None => MReSyncEnd end))] /\
    runs t s (forward_re_sync self m) (Ok true) (set_chan s self c').
Proof.
  intros Hc Ho. set (msg := match m with Some u => MCounterUpdate u | None => MReSyncEnd end).
  exists (sent_more c msg). split_and!; [done|done|].
  pose proof (send_open_run t s self c msg Hc Ho) as Hr.
  unfold forward_re_sync. destruct m as [u|]; subst msg.
  - intros w Hw Hs. destruct (Hr w Hw Hs) as [n Hn]. exists n. by rewrite Hn.
  - eapply runs_bind; [|apply runs_ret]. intros w Hw Hs. destruct (Hr w Hw Hs) as [n Hn]. exists n.
    unfold ignore_err. by rewrite Hn.
Qed.

Lemma re_sync_loop_run t s self c ks :
  dist_wf s -> chan_of s self = Some c -> ch_open c = true ->
  exists c', ch_open c' = true /\ ch_sent c' = ch_sent c ++ re_sync_messages s t ks /\
    runs t s (re_sync_loop (forward_re_sync self) ks) (Ok tt) (set_chan s self c').
Proof.
  intros Hwf. revert s c Hwf. induction ks as [|k ks IH]; intros s c Hwf Hc Ho.
  { exists c. split_and!; [done|by rewrite app_nil_r|]. rewrite set_chan_same by done. apply runs_ret. }
  cbn [re_sync_loop]. destruct (re_sync_of s t k) as [u|] eqn:Hu.
  - destruct (forward_run t s self c (Some u) Hc Ho) as (c1 & Ho1 & Hs1 & R1).
    destruct (IH (set_chan s self c1) c1) as (c2 & Ho2 & Hs2 & R2); [by apply with_broker_wf|by eapply set_chan_of|done|].
    rewrite set_chan_twice in R2. exists c2. split_and!; [done| |].
    + rewrite Hs2, Hs1, <-(assoc_L (++)). f_equal. unfold re_sync_messages at 2. simpl. rewrite Hu. done.
    + eapply runs_bind; [by apply re_sync_update_run|]. rewrite Hu. eapply runs_bind; [exact R1|]. exact R2.
  - destruct (IH s c Hwf Hc Ho) as (c2 & Ho2 & Hs2 & R2). exists c2. split_and!; [done| |].
    + rewrite Hs2. f_equal. unfold re_sync_messages at 2. simpl. by rewrite Hu.
    + eapply runs_bind; [by apply re_sync_update_run|]. by rewrite Hu.
Qed.

Lemma re_sync_run t s self c :
  dist_wf s -> chan_of s self = Some c -> ch_open c = true ->
  exists c' ks, ks ≡ₚ (map_to_list (cr_limits s)).*1 /\
    ch_sent c' = ch_sent c ++ re_sync_messages s t ks ++ [inl (Some MReSyncEnd)] /\
    runs t s (re_sync self) (Ok tt) (set_chan s self c').
Proof.
  intros Hwf Hc Ho. set (ks := (hash_iter (cr_limits s)).*1).
  destruct (re_sync_loop_run t s self c ks Hwf Hc Ho) as (c1 & Ho1 & Hs1 & R1).
  destruct (forward_run t (set_chan s self c1) self c1 None) as (c2 & _ & Hs2 & R2); [by eapply set_chan_of|done|].
  rewrite set_chan_twice in R2. exists c2, ks. split_and!; [unfold ks; by rewrite hash_iter_perm| |].
  - by rewrite Hs2, Hs1, <-(assoc_L (++)).
  - unfold re_sync, process_re_sync. runs_step. eapply runs_bind; [exact R1|]. eapply runs_bind; [exact R2|]. apply runs_ret.
Qed.

(** The first send and the subscription of a session whose channel is open. *)
Lemma process_start_run t fuel s self c evs :
  chan_of s self = Some c -> ch_open c = true ->
  exists c1, forall o s',
    runs t (set_chan s self c1) (process_loop fuel self (mkTx (length (publisher (cr_broker s))) ∅ [] false) evs) o s' ->
    runs t s (process fuel self Accepted evs) o s'.
Proof.
  intros Hc Ho. set (m := MMembershipUpdate (peers (replication_state (cr_broker s)))).
  exists (sent_more c m). intros o s' Hloop. unfold process. runs_step.
  eapply runs_bind; [by apply send_open_run|]. do 2 runs_step. exact Hloop.
Qed.

Lemma session_close_run t s self :
  exists s', runs t s (on_broker (session_close self)) (Ok tt) s' /\
    session_with (cr_broker s') (session_peer_id self) = None.
Proof.
  unfold session_close, session_with. destruct (peer_trackers (replication_state (cr_broker s)) !! session_peer_id self) as [p|] eqn:Hp.
  - eexists. split; [apply on_broker_run; runs_step; rewrite Hp; apply runs_put|]. simpl. by rewrite lookup_insert_eq.
  - exists (with_broker s (cr_broker s)). split; [apply on_broker_run; runs_step; rewrite Hp; apply runs_ret|].
    simpl. by rewrite Hp.
Qed.

(** A re-sync ends the session it serves.  The replica sends its own count of every
    counter with an open window and then the end marker; the peer takes the marker
    for an unsupported packet, its session fails, and it is left without a session
    with the replica. *)
Theorem re_sync_ends_the_session t fuel sA a cA sB b cB evs :
  dist_wf sA -> chan_of sA a = Some cA -> ch_open cA = true ->
  chan_of sB b = Some cB -> ch_open cB = true ->
  (exists c' ks, ks ≡ₚ (map_to_list (cr_limits sA)).*1 /\
     ch_sent c' = ch_sent cA ++ re_sync_messages sA t ks ++ [inl (Some MReSyncEnd)] /\
     runs t sA (re_sync a) (Ok tt) (set_chan sA a c')) /\
  runs t sB (process_packet b (Some MReSyncEnd))
    (Err (status InvalidArgument ("unsupported packet " +:+ debug_packet (Some MReSyncEnd)))) sB /\
  exists sB', runs t sB (serve_session fuel b Accepted (Incoming (Some (inl (Some MReSyncEnd))) :: evs)) (Ok tt) sB' /\
    session_with (cr_broker sB') (session_peer_id b) = None.
Proof.
  intros HwfA HcA HoA HcB HoB. split_and!; [by apply re_sync_run|apply runs_throw|].
  set (e := status InvalidArgument ("unsupported packet " +:+ debug_packet (Some MReSyncEnd))).
  destruct (process_start_run t fuel sB b cB (Incoming (Some (inl (Some MReSyncEnd))) :: evs) HcB HoB) as (c1 & Hstart).
  destruct (session_close_run t (set_chan sB b c1) b) as (s2 & Hclose & Hnone). exists s2. split; [|done].
  intros w Hw Hs. destruct (Hstart (Err e) (set_chan sB b c1)) with w as [n Hn]; [|done|done|].
  - cbn [process_loop process_step]. apply runs_bind_err, runs_bind_err, runs_throw.
  - unfold serve_session. rewrite Hn. by apply (Hclose (mkWorld (set_chan sB b c1) (w_clock w) n)).
Qed.

(** An update of a counter the replica has not seen yet strands the session.  The
    task that serves the peer panics, so that the session is never closed: the
    broker goes on counting the peer as connected and does not reconnect to it. *)
Theorem unknown_counter_strands_session t fuel s self c u evs :
  dist_wf s -> chan_of s self = Some c -> ch_open c = true -> dist_entry s (cu_key u) = None ->
  exists s', runs t s (serve_session fuel self Accepted (Incoming (Some (inl (Some (MCounterUpdate u)))) :: evs))
      (Panic "called `Option::unwrap()` on a `None` value") s' /\
    replication_state (cr_broker s') = replication_state (cr_broker s).
Proof.
  intros Hwf Hc Ho Hn.
  destruct (process_start_run t fuel s self c (Incoming (Some (inl (Some (MCounterUpdate u)))) :: evs) Hc Ho) as (c1 & Hstart).
  exists (set_chan s self c1). split; [|done].
  intros w Hw Hs. destruct (Hstart (Panic "called `Option::unwrap()` on a `None` value") (set_chan s self c1)) with w as [n Hn'];
    [|done|done|].
  - cbn [process_loop process_step process_packet]. apply runs_bind_panic, runs_bind_panic.
    apply on_counter_update_unknown; [by apply with_broker_wf|done].
  - exists n. unfold serve_session. by rewrite Hn'.
Qed.
End spec.

(** ** Examples: replica "a" serves its peer "b" *)

#[local] Existing Instance demo_engine.
#[local] Existing Instance demo_hash_order.
#[local] Existing Instance demo_postcard.

#[local] Instance demo_packet_debug : PacketDebug := { debug_packet _ := "Packet"%string }.

Definition demo_session (peer : string) : Session := mkSession (Server 0) peer.

(** A replica with one entry, published once, and one open session with [peer]. *)
Definition demo_replica (id peer : string) (v : CrCounterValue) (c : Chan) : CrInMemoryStorage :=
  mkCrStorage id {[dist_key demo_counter := O]} [mkEntry (dist_key demo_counter) demo_counter v]
    (mkBroker "" [] id [O]
       (mkReplication ∅ {[peer := mkTracker peer None ∅ 0 NoSkew (Some (demo_session peer))]}) [c]).

Definition demo_value (id : string) (n : Z) : CrCounterValue := mkCr id 10 n ∅ (mkExpiry 1060500000).

(** A channel whose one slot is taken. *)
Definition full_chan : Chan := mkChan [inl (Some MPing)] 0 true.

Lemma demo_replica_wf id peer n c : in_u64 n -> dist_wf (demo_replica id peer (demo_value id n) c).
Proof.
  intros Hn. split.
  - intros loc e. destruct loc as [|loc]; [|done]. intros [= <-]. split; [|done].
    split_and!; [done|intros a v; simpl; by rewrite lookup_empty|vm_compute; split; discriminate].
  - intros k loc. cbn [cr_limits demo_replica]. intros [<- <-]%lookup_singleton_Some. by eexists.
  - apply Forall_singleton. simpl. lia.
Qed.

Lemma demo_replica_entry id peer v c :
  dist_entry (demo_replica id peer v c) (dist_key demo_counter) = Some (mkEntry (dist_key demo_counter) demo_counter v).
Proof. unfold dist_entry. cbn [cr_limits demo_replica]. by rewrite lookup_singleton_eq. Qed.

(** The entry is waiting to be sent. *)
Definition demo_tx (notified : bool) : Tx := mkTx 0 {[dist_key demo_counter := O]} [dist_key demo_counter] notified.

Lemma demo_tx_inv id peer v c b : tx_inv (demo_replica id peer v c) (demo_tx b).
Proof.
  split; cbn [tx_updates_order tx_updates_by_key demo_tx].
  - apply NoDup_singleton.
  - intros k. rewrite list_elem_of_singleton. split; [intros ->; rewrite lookup_singleton_eq; by eexists|].
    intros [x [Hk _]%lookup_singleton_Some]. done.
  - intros k loc [<- <-]%lookup_singleton_Some. by eexists.
Qed.

(** After a ping an update of a counter nobody knows arrives. *)
Lemma session_panics_exactly_witness : exists o s',
  let u := mkUpdate "nobody"%string {["c"%string := 1]} 2000 in
  let s := demo_replica "a" "b" (demo_value "a" 3) chan_new in
  runs dist_demo_time (set_chan s (demo_session "b") chan_new)
    (process_step 1 (demo_session "b") (mkTx 0 ∅ [] false) (Incoming (Some (inl (Some (MCounterUpdate u)))))) o s' /\
  is_panic o.
Proof.
  destruct (session_panics_exactly 1 (demo_session "b") (demo_replica "a" "b" (demo_value "a" 3) chan_new) 0
    (set_chan (demo_replica "a" "b" (demo_value "a" 3) chan_new) (demo_session "b") chan_new) (mkTx 0 ∅ [] false)
    dist_demo_time (Incoming (Some (inl (Some (MCounterUpdate (mkUpdate "nobody"%string {["c"%string := 1]} 2000)))))))
    as (_ & o & s' & Hr & _ & Hp).
  - apply demo_replica_wf. vm_compute. split; discriminate.
  - by eexists.
  - eapply served_other; [apply served_start|]. apply extends_broker; [|done|by eexists].
    apply demo_replica_wf. vm_compute. split; discriminate.
  - vm_compute. intuition discriminate.
  - split; [|vm_compute; split; discriminate]. cbn [cu_values]. intros a v [_ <-]%lookup_singleton_Some. vm_compute. split; discriminate.
  - exists o, s'. split; [exact Hr|]. apply Hp. left. unfold dist_entry. cbn [cr_limits set_chan with_broker demo_replica].
    rewrite lookup_singleton_ne; [done|]. intros Hd. by apply (f_equal String.length) in Hd.
Defined.

Lemma notified_session_sends_witness : exists c',
  runs dist_demo_time (demo_replica "a" "b" (demo_value "a" 3) chan_new)
    (process_step 1 (demo_session "b") (demo_tx true) (Notified [true]))
    (Ok (Continue (mkTx 0 ∅ [] false)))
    (set_chan (demo_replica "a" "b" (demo_value "a" 3) chan_new) (demo_session "b") c') /\
  ch_sent c' = [inl (Some (MCounterUpdate (mkUpdate (dist_key demo_counter) {["a"%string := 3]} 1060)))].
Proof.
  destruct (notified_session_sends dist_demo_time 1 (demo_replica "a" "b" (demo_value "a" 3) chan_new) (demo_session "b")
    chan_new (demo_tx true) [true]) as (c' & Hr & Hs).
  - apply demo_replica_wf. vm_compute. split; discriminate.
  - apply demo_tx_inv.
  - done.
  - done.
  - done.
  - by apply Forall_singleton.
  - simpl. lia.
  - exists c'. split; [exact Hr|]. rewrite Hs. unfold pending_messages. cbn [tx_updates_order tx_updates_by_key demo_tx].
    cbn [omap list_omap]. rewrite lookup_singleton_eq. cbn [mbind option_bind].
    unfold pending_message. cbn [cr_heap demo_replica lookup list_lookup]. reflexivity.
Defined.

(** The counter is published again and again: nothing is sent. *)
Lemma stalled_updates_stay_witness :
  let s := demo_replica "a" "b" (demo_value "a" 3) full_chan in
  let s1 := set_chan s (demo_session "b") (chan_drain full_chan) in
  exists next, runs dist_demo_time s1 (process_loop 1 (demo_session "b") (demo_tx false) [Published; Notified [true]; Published])
    (Ok (Continue (mkTx next {[dist_key demo_counter := O]} [dist_key demo_counter] false))) s1.
Proof.
  destruct (stalled_updates_stay dist_demo_time 1 (demo_replica "a" "b" (demo_value "a" 3) full_chan) (demo_session "b")
    full_chan (demo_tx true) [Published; Notified [true]; Published]) as (_ & next & Hr).
  - apply demo_replica_wf. vm_compute. split; discriminate.
  - apply demo_tx_inv.
  - done.
  - done.
  - intros i loc e _. destruct i as [|i]; [|done]. intros [= <-]. intros [= <-].
    cbn [tx_updates_by_key demo_tx ce_key]. rewrite lookup_singleton_eq. by eexists.
  - simpl. unfold broadcast_capacity. lia.
  - repeat constructor.
  - exists next. exact Hr.
Defined.

(** Replica a has three hits to tell, replica b one of its own. *)
Lemma replication_delivers_witness : exists n by_key c' msgs sB' e',
  runs dist_demo_time (demo_replica "a" "b" (demo_value "a" 3) chan_new)
    (process_step 1 (demo_session "b") (demo_tx true) (Notified [true]))
    (Ok (Continue (mkTx 0 by_key (drop n [dist_key demo_counter]) false)))
    (set_chan (demo_replica "a" "b" (demo_value "a" 3) chan_new) (demo_session "b") c') /\
  ch_sent c' = msgs /\
  runs dist_demo_time (demo_replica "b" "a" (demo_value "b" 1) chan_new)
    (process_loop 1 (demo_session "a") (demo_tx false) (incoming msgs)) (Ok (Continue (demo_tx false))) sB' /\
  dist_entry sB' (dist_key demo_counter) = Some e' /\
  cr_seen (ce_value e') dist_demo_time "a" = 3 /\ cr_seen (ce_value e') dist_demo_time "b" = 1.
Proof.
  destruct (replication_delivers dist_demo_time dist_demo_time 1 (demo_replica "a" "b" (demo_value "a" 3) chan_new)
    (demo_replica "b" "a" (demo_value "b" 1) chan_new) (demo_session "b") (demo_session "a") chan_new (demo_tx true) (demo_tx false)
    [true]) as (n & bk & c' & msgs & sB' & Hr & Hall & Hs & HrB & _ & Hseen).
  - apply demo_replica_wf. vm_compute. split; discriminate.
  - apply demo_replica_wf. vm_compute. split; discriminate.
  - vm_compute. intuition discriminate.
  - apply demo_tx_inv.
  - done.
  - done.
  - cbn [tx_updates_by_key demo_tx]. intros k loc e [<- <-]%lookup_singleton_Some [= <-]. split; [rewrite demo_replica_entry; by eexists|done].
  - destruct (Hseen _ _ (demo_replica_entry _ _ _ _)) as (e' & He' & Hseen'). exists n, bk, c', msgs, sB', e'.
    assert (Hn : dist_key demo_counter ∈ take n (tx_updates_order (demo_tx true))).
    { specialize (Hall eq_refl ltac:(by apply Forall_singleton) ltac:(simpl; lia)).
      rewrite <-(take_drop n (tx_updates_order (demo_tx true))) in Hall.
      destruct n; [done|]. by left. }
    split_and!; [exact Hr|exact Hs|exact HrB|exact He'| |]; rewrite Hseen', decide_True by exact Hn;
      cbn [tx_updates_by_key demo_tx]; rewrite lookup_singleton_eq; vm_compute; reflexivity.
Defined.

Lemma re_sync_ends_the_session_witness : exists sB',
  runs dist_demo_time (demo_replica "b" "a" (demo_value "b" 1) chan_new)
    (serve_session 1 (demo_session "a") Accepted [Incoming (Some (inl (Some MReSyncEnd)))]) (Ok tt) sB' /\
  session_with (cr_broker sB') "a" = None.
Proof.
  destruct (re_sync_ends_the_session dist_demo_time 1 (demo_replica "a" "b" (demo_value "a" 3) chan_new) (demo_session "b")
    chan_new (demo_replica "b" "a" (demo_value "b" 1) chan_new) (demo_session "a") chan_new [])
    as (_ & _ & sB' & Hr & Hn).
  - apply demo_replica_wf. vm_compute. split; discriminate.
  - done.
  - done.
  - done.
  - done.
  - exists sB'. split; [exact Hr|exact Hn].
Defined.

Lemma unknown_counter_strands_session_witness : exists s',
  runs dist_demo_time (demo_replica "b" "a" (demo_value "b" 1) chan_new)
    (serve_session 1 (demo_session "a") Accepted
       [Incoming (Some (inl (Some (MCounterUpdate (dist_demo_update "new")))))])
    (Panic "called `Option::unwrap()` on a `None` value") s' /\
  session_with (cr_broker s') "a" = Some (demo_session "a").
Proof.
  destruct (unknown_counter_strands_session dist_demo_time 1 (demo_replica "b" "a" (demo_value "b" 1) chan_new)
    (demo_session "a") chan_new (dist_demo_update "new") []) as (s' & Hr & Hs).
  - apply demo_replica_wf. vm_compute. split; discriminate.
  - done.
  - done.
  - unfold dist_entry. cbn [cr_limits demo_replica dist_demo_update cu_key]. rewrite lookup_singleton_ne; [done|].
    vm_compute. discriminate.
  - exists s'. split; [exact Hr|]. unfold session_with. rewrite Hs. reflexivity.
Defined.
