(* ===== verification/BrokerStart.v ===== *)
(** * Starting and keeping connections: [Broker::start] of [storage/distributed/grpc/mod.rs]

    [start] spawns a task per configured URL that tries it once a second until a
    handshake succeeds, and a task that tries the known peers without a session once a
    second.  [start_round] is what happens in a second; what the network answers may be
    another each time. *)

From S2P Require Import Prelude AtomicExpiringValue Errors Storage Broker.

Section start.
Context {HO : HashOrder}.
Abbreviation BM A := (M Broker Status A).
Abbreviation Conn := (Session * list (Packet + Status))%type.

(** One attempt of the task of a configured URL: whether it ends the task, and the
    session to process. *)
Definition connect_round (dial : string -> Dial) (peer_url : string) : BM (bool * option Conn) :=
  let* r := attempt (connect_to_peer dial peer_url) in
  match r with
  | inl session => ret (true, session)
  | inr _ => ret (false, None)
  end.

(** The attempts of the tasks that have not ended, then the reconnections: the URLs still
    to be tried, and the sessions to process. *)
Definition start_round (dial : string -> Dial) (pending : list string) : BM (list string * list Conn) :=
  let* rs := mapM (fun url => let* r := connect_round dial url in ret (url, r)) pending in
  let* again := reconnect_to_failed_peers dial in
  ret (omap (fun ur => if ur.2.1 : bool then None else Some ur.1) rs, omap (fun ur => ur.2.2) rs ++ again).

(** The tasks, over as many seconds as the network is described for. *)
Fixpoint start_rounds (dials : list (string -> Dial)) (pending : list string) : BM (list Conn) :=
  match dials with
  | [] => ret []
  | dial :: dials =>
      let* r := start_round dial pending in
      let* rest := start_rounds dials r.1 in
      ret (r.2 ++ rest)
  end.

Definition start (dials : list (string -> Dial)) : BM (list Conn) :=
  let* b := get in start_rounds dials (peer_urls b).
End start.

Section spec.
Context {HO : HashOrder}.
Implicit Types (b : Broker) (dial : string -> Dial) (k url : string) (p : PeerTracker).
Abbreviation trackers b := (peer_trackers (replication_state b)).

(** The URLs tried for a peer. *)
Definition peer_urls_of p : list string := option_list (pt_url p) ++ (hash_iter (pt_discovered_urls p)).*1.

(** Peer [k] answers at [url] with a [Hello] and a [Pong] whose time can be represented. *)
Definition answers dial url k : Prop :=
  exists hello pong rest, dial url = Connected (inl (Some (MHello hello)) :: inl (Some (MPong pong)) :: rest) /\
    sender_peer_id hello = k /\ 0 <= pong /\ from_millis pong <= systime_max.

(** The transport or the call fails. *)
Definition unreachable dial url : Prop := (exists err, dial url = ConnectFailed err) \/ exists err, dial url = StreamFailed err.

(** Only the tracker of [k] and the channels differ. *)
Definition touches k b b' : Prop :=
  (forall k', k' <> k -> trackers b' !! k' = trackers b !! k') /\ (is_Some (trackers b !! k) -> is_Some (trackers b' !! k)).

Lemma touches_refl k b b' : replication_state b' = replication_state b -> touches k b b'.
Proof. intros Hr. unfold touches. by rewrite Hr. Qed.

Lemma touches_trans k b1 b2 b3 : touches k b1 b2 -> touches k b2 b3 -> touches k b1 b3.
Proof. intros [H1 H2] [H3 H4]. split; [|auto]. intros k' Hk. by rewrite H3, H1. Qed.

Lemma open_channel_run t b :
  runs t b open_channel (Ok (length (channels b))) (with_channels b (channels b ++ [chan_new])).
Proof. unfold open_channel. do 2 runs_step. apply runs_ret. Qed.

(** A handshake with a tracked peer without a session ends with one. *)
Lemma handshake_failed_peer t b out reached hello pong rest sent :
  chan_sent b (sender_chan out) sent -> good_time t -> session_with b (sender_peer_id hello) = None ->
  is_Some (trackers b !! sender_peer_id hello) ->
  exists b' s, runs t b (handshake (inl (Some (MHello hello)) :: inl (Some (MPong pong)) :: rest) out reached)
      (Ok (Some s, rest)) b' /\ session_with b' (sender_peer_id hello) = Some s /\ touches (sender_peer_id hello) b b'.
Proof.
  intros Hch Ht Hn Htr.
  destruct (handshake_run t b out reached hello pong rest sent Hch Ht) as (b3 & urls & _ & _ & Htr3 & _ & Hr).
  destruct (register_first t b3 (mkSession out (sender_peer_id hello)) reached hello pong t t) as (b4 & R4 & _ & S4 & T4 & O4).
  { unfold session_with in *. by rewrite Htr3. }
  { by rewrite Htr3. }
  exists b4, (mkSession out (sender_peer_id hello)).
  split_and!; [by apply Hr|done|]. split; [|done]. intros k Hk. by rewrite O4, Htr3.
Qed.

(** A session, once there, is not lost by trying other URLs of the round. *)
Lemma connect_failed_peer t b dial url k :
  good_time t -> session_with b k = None -> is_Some (trackers b !! k) -> answers dial url k ->
  exists b' r s, runs t b (connect_to_peer dial url) (Ok (Some r)) b' /\ session_with b' k = Some s /\ touches k b b'.
Proof.
  intros Ht Hn Htr (hello & pong & rest & Hd & <- & _). unfold connect_to_peer. rewrite Hd.
  destruct (handshake_failed_peer t (with_channels b (channels b ++ [chan_new])) (Client (length (channels b))) (Some url) hello pong rest [])
    as (b' & s & R & Hs & Hto); [|done|done|done|].
  - exists chan_new. split; [|done]. apply list_lookup_middle. done.
  - exists b', (s, rest), s. split_and!; [|done|done].
    eapply runs_bind; [apply open_channel_run|]. eapply runs_bind; [exact R|]. apply runs_ret.
Qed.

Lemma connect_unreachable t b dial url :
  unreachable dial url -> exists e b', runs t b (connect_to_peer dial url) (Err e) b' /\ replication_state b' = replication_state b.
Proof.
  intros [[err Hd]|[err Hd]]; unfold connect_to_peer; rewrite Hd.
  - eexists _, b. split; [apply runs_throw|done].
  - eexists _, _. split; [eapply runs_bind; [apply open_channel_run|apply runs_throw]|done].
Qed.

(** The first URL of [k] that answers gives a session with it. *)
Lemma try_urls_run t dial k urls b :
  good_time t -> session_with b k = None -> is_Some (trackers b !! k) ->
  Forall (fun url => unreachable dial url \/ answers dial url k) urls ->
  exists b' o, runs t b (try_urls dial urls) (Ok o) b' /\ touches k b b' /\
    (Exists (fun url => answers dial url k) urls -> is_Some (session_with b' k)).
Proof.
  intros Ht Hn Htr Hall. revert b Hn Htr. induction Hall as [|url urls Hu Hall IH]; intros b Hn Htr.
  { exists b, None. split_and!; [apply runs_ret|by apply touches_refl|]. intros H. inversion H. }
  destruct Hu as [Hu|Hu].
  - destruct (connect_unreachable t b dial url Hu) as (e & b1 & R1 & Rep).
    destruct (IH b1) as (b' & o & R & Hto & Hs); [unfold session_with in *; by rewrite Rep|by rewrite Rep|].
    exists b', o. split_and!; [|by eapply touches_trans; [apply touches_refl|]|].
    + intros w Hw Hb. destruct (R1 w Hw Hb) as [n Hn1]. destruct (R (mkWorld b1 (w_clock w) n) Hw eq_refl) as [n' Hn'].
      exists n'. simpl. by rewrite Hn1.
    + intros [Ha|Ha]%Exists_cons; [|auto]. destruct Hu as [[? Hd]|[? Hd]], Ha as (? & ? & ? & Hd' & _); congruence.
  - destruct (connect_failed_peer t b dial url k Ht Hn Htr Hu) as (b1 & r & s & R1 & Hs & Hto).
    exists b1, (Some r). split_and!; [|done|by rewrite Hs].
    intros w Hw Hb. destruct (R1 w Hw Hb) as [n Hn1]. exists n. simpl. by rewrite Hn1.
Qed.

(** The peers tried, with their keys. *)
Definition failed_entries (l : list (string * PeerTracker)) : list (string * list string) :=
  omap (fun p => match pt_session p with None => Some (pt_peer_id p, peer_urls_of p) | Some _ => None end) l.*2.

Lemma reconnect_entries_run t dial l b :
  good_time t -> NoDup l.*1 -> (forall k p, (k, p) ∈ l -> trackers b !! k = Some p) ->
  (forall k p url, (k, p) ∈ l -> url ∈ peer_urls_of p -> unreachable dial url \/ answers dial url k) ->
  exists b' rs, runs t b (mapM (fun pu => try_urls dial pu.2) (failed_entries l)) (Ok rs) b' /\
    (forall k, k ∉ l.*1 -> trackers b' !! k = trackers b !! k) /\
    forall k p, (k, p) ∈ l -> (is_Some (pt_session p) \/ exists url, url ∈ peer_urls_of p /\ answers dial url k) ->
      is_Some (session_with b' k).
Proof.
  intros Ht. revert b. induction l as [|[k p] l IH]; intros b Hnd Htr Hu.
  { exists b, []. split_and!; [apply runs_ret|done|]. intros k p Hin. inversion Hin. }
  apply NoDup_cons in Hnd as [Hk Hnd]. assert (Hp : trackers b !! k = Some p) by (apply Htr; by left).
  assert (Hne : forall k' p', (k', p') ∈ l -> k' <> k).
  { intros k' p' Hin ->. apply Hk. apply list_elem_of_fmap. by exists (k, p'). }
  assert (Hone : exists b1, touches k b b1 /\
    (is_Some (pt_session p) \/ (exists url, url ∈ peer_urls_of p /\ answers dial url k) -> is_Some (session_with b1 k)) /\
    forall b' rs, runs t b1 (mapM (fun pu => try_urls dial pu.2) (failed_entries l)) (Ok rs) b' ->
      exists rs', runs t b (mapM (fun pu => try_urls dial pu.2) (failed_entries ((k, p) :: l))) (Ok rs') b').
  { unfold failed_entries. cbn [fmap list_fmap snd omap list_omap]. destruct (pt_session p) as [s|] eqn:Hs.
    - exists b. split_and!; [by apply touches_refl| |by eauto]. intros _. unfold session_with. rewrite Hp. simpl. by rewrite Hs.
    - destruct (try_urls_run t dial k (peer_urls_of p) b) as (b1 & o & R1 & Hto & Ha); [done| |by rewrite Hp| |].
      + unfold session_with. by rewrite Hp.
      + apply Forall_forall. intros url Hurl. apply (Hu k p); [by left|done].
      + exists b1. split_and!; [done| |].
        * intros [[? [=]]|(url & Hin & Hans)]. apply Ha, Exists_exists. eauto.
        * intros b' rs R. exists (o :: rs). cbn [mapM]. eapply runs_bind; [exact R1|]. eapply runs_bind; [exact R|]. apply runs_ret. }
  destruct Hone as (b1 & [Hother _] & Hsess & Hrun).
  destruct (IH b1) as (b' & rs & R & Hout & Hin).
  - done.
  - intros k' p' Hin'. rewrite Hother by (by eapply Hne). apply Htr. by right.
  - intros k' p' url Hin'. apply Hu. by right.
  - destruct (Hrun b' rs R) as [rs' R']. exists b', rs'. split_and!; [done| |].
    + intros k' Hk'. rewrite fmap_cons, elem_of_cons in Hk'. rewrite Hout, Hother; naive_solver.
    + intros k' p' [[= -> ->]|Hin']%elem_of_cons Hcond; [|by eapply Hin].
      unfold session_with in *. rewrite Hout by done. by apply Hsess.
Qed.

(** C25: reconnecting restores every session it can.  If at each URL known for a peer
    either that peer answers or no one does, then after a round of reconnections every
    known peer that answers at one of its URLs has a session again, every session there
    was is still there, and no peer is forgotten. *)
Theorem reconnect_restores t b dial :
  good_time t ->
  (forall k p url, trackers b !! k = Some p -> url ∈ peer_urls_of p -> unreachable dial url \/ answers dial url k) ->
  exists b' sessions, runs t b (reconnect_to_failed_peers dial) (Ok sessions) b' /\
    forall k p, trackers b !! k = Some p ->
      is_Some (pt_session p) \/ (exists url, url ∈ peer_urls_of p /\ answers dial url k) -> is_Some (session_with b' k).
Proof.
  intros Ht Hu. assert (Hel : forall k p, (k, p) ∈ hash_iter (trackers b) <-> trackers b !! k = Some p).
  { intros k p. by rewrite hash_iter_perm, elem_of_map_to_list. }
  destruct (reconnect_entries_run t dial (hash_iter (trackers b)) b) as (b' & rs & R & _ & Hs).
  - done.
  - rewrite hash_iter_perm. apply NoDup_fst_map_to_list.
  - intros k p. apply Hel.
  - intros k p url Hin. apply Hu. by apply Hel.
  - exists b', (omap (fun s => s) rs). split.
    + unfold reconnect_to_failed_peers. runs_step. eapply runs_bind; [exact R|]. apply runs_ret.
    + intros k p Hp. apply Hs. by apply Hel.
Qed.
(** ** A round of all the tasks *)

(** Every session with a peer is still one with that peer. *)
Definition keeps b b' : Prop := forall k, is_Some (session_with b k) -> is_Some (session_with b' k).

Lemma keeps_refl b b' : replication_state b' = replication_state b -> keeps b b'.
Proof. intros Hr k. unfold session_with. by rewrite Hr. Qed.

Lemma keeps_trans b1 b2 b3 : keeps b1 b2 -> keeps b2 b3 -> keeps b1 b3.
Proof. unfold keeps. auto. Qed.

Lemma tracks_keeps b b' k s : tracks b b' k (Some s) -> keeps b b' /\ is_Some (session_with b' k).
Proof.
  intros (_ & Hs & _ & Ho). split; [|by rewrite Hs]. intros k' Hk'. destruct (decide (k' = k)) as [->|Hne]; [by rewrite Hs|].
  unfold session_with in *. by rewrite Ho.
Qed.

(** Whatever the broker knows of a peer, a handshake with it leaves a session. *)
Lemma register_any t b s reached hello pong :
  0 <= pong -> from_millis pong <= systime_max ->
  exists b' o, runs t b (register_session s reached hello pong t t) (Ok o) b' /\ keeps b b' /\
    is_Some (session_with b' (sender_peer_id hello)).
Proof.
  intros Hp Hmax. destruct (trackers b !! sender_peer_id hello) as [p|] eqn:Hk.
  2: { destruct (register_unknown t b s reached hello pong Hk Hp Hmax) as (b' & R & _ & Hrep). exists b', (Some s). split; [done|].
       unfold keeps, session_with. rewrite Hrep. simpl. rewrite lookup_insert_eq. split; [|done].
       intros k. destruct (decide (k = sender_peer_id hello)) as [->|Hne]; [by rewrite lookup_insert_eq|by rewrite lookup_insert_ne]. }
  destruct (session_with b (sender_peer_id hello)) as [prev|] eqn:Hs.
  - destruct (register_second t b s prev reached hello pong t t Hs) as (b' & R & Htr). eexists b', _. split; [exact R|].
    by eapply tracks_keeps.
  - destruct (register_first t b s reached hello pong t t Hs) as (b' & R & Htr); [by rewrite Hk|]. eexists b', _.
    split; [exact R|]. by eapply tracks_keeps.
Qed.

Lemma connect_answered t b dial url k :
  good_time t -> answers dial url k ->
  exists b' o, runs t b (connect_to_peer dial url) (Ok o) b' /\ keeps b b' /\ is_Some (session_with b' k).
Proof.
  intros Ht (hello & pong & rest & Hd & <- & Hp & Hmax). unfold connect_to_peer. rewrite Hd.
  set (b0 := with_channels b (channels b ++ [chan_new])).
  destruct (handshake_run t b0 (Client (length (channels b))) (Some url) hello pong rest [])
    as (b3 & urls & _ & _ & Htr & _ & Hr); [|done|].
  { exists chan_new. split; [|done]. by apply list_lookup_middle. }
  destruct (register_any t b3 (mkSession (Client (length (channels b))) (sender_peer_id hello)) (Some url) hello pong Hp Hmax)
    as (b' & o & R & Hk & Hs).
  exists b', ((fun s => (s, rest)) <$> o). split_and!; [| |done].
  - eapply runs_bind; [apply open_channel_run|]. eapply runs_bind; [apply Hr; exact R|]. apply runs_ret.
  - intros k Hk'. apply Hk. unfold session_with in *. by rewrite Htr.
Qed.

(** A network in which at every URL either a peer answers or no one does. *)
Definition honest dial (who : string -> option string) : Prop :=
  forall url, match who url with Some k => answers dial url k | None => unreachable dial url end.

Lemma connect_round_run t b dial who url :
  good_time t -> honest dial who ->
  exists b' o, runs t b (connect_round dial url) (Ok (bool_decide (is_Some (who url)), o)) b' /\ keeps b b' /\
    forall k, who url = Some k -> is_Some (session_with b' k).
Proof.
  intros Ht Hh. specialize (Hh url). unfold connect_round. destruct (who url) as [k|].
  - destruct (connect_answered t b dial url k Ht Hh) as (b' & o & R & Hk & Hs). exists b', o.
    split_and!; [|done|by intros ? [= <-]]. intros w Hw Hb. destruct (R w Hw Hb) as [n Hn]. exists n.
    unfold bind, attempt. by rewrite Hn.
  - destruct (connect_unreachable t b dial url Hh) as (e & b' & R & Hrep). exists b', None.
    split_and!; [|by apply keeps_refl|done]. intros w Hw Hb. destruct (R w Hw Hb) as [n Hn].
    exists n. unfold bind, attempt. by rewrite Hn.
Qed.

Lemma try_urls_keeps t dial who urls b :
  good_time t -> honest dial who -> exists b' o, runs t b (try_urls dial urls) (Ok o) b' /\ keeps b b'.
Proof.
  intros Ht Hh. revert b. induction urls as [|url urls IH]; intros b.
  { exists b, None. split; [apply runs_ret|by apply keeps_refl]. }
  pose proof (Hh url) as Hu. destruct (who url) as [k|].
  - destruct (connect_answered t b dial url k Ht Hu) as (b1 & o & R & Hk & _). exists b1, o. split; [|done].
    intros w Hw Hb. destruct (R w Hw Hb) as [n Hn]. exists n. simpl. by rewrite Hn.
  - destruct (connect_unreachable t b dial url Hu) as (e & b1 & R & Hrep). destruct (IH b1) as (b' & o & R' & Hk). exists b', o. split.
    + intros w Hw Hb. destruct (R w Hw Hb) as [n Hn]. destruct (R' (mkWorld b1 (w_clock w) n) Hw eq_refl) as [n' Hn'].
      exists n'. simpl. by rewrite Hn.
    + eapply keeps_trans; [by apply keeps_refl|exact Hk].
Qed.

Lemma reconnect_keeps t b dial who :
  good_time t -> honest dial who ->
  exists b' rs, runs t b (reconnect_to_failed_peers dial) (Ok rs) b' /\ keeps b b'.
Proof.
  intros Ht Hh. assert (H : forall l b0, exists b' rs,
    runs t b0 (mapM (fun pu : string * list string => try_urls dial pu.2) l) (Ok rs) b' /\ keeps b0 b').
  { induction l as [|[k urls] l IH]; intros b0; [exists b0, []; split; [apply runs_ret|by apply keeps_refl]|].
    destruct (try_urls_keeps t dial who urls b0 Ht Hh) as (b1 & o & R1 & K1). destruct (IH b1) as (b2 & rs & R2 & K2).
    exists b2, (o :: rs). split; [|by eapply keeps_trans].
    cbn [mapM]. eapply runs_bind; [exact R1|]. eapply runs_bind; [exact R2|]. apply runs_ret. }
  destruct (H (failed_peers (replication_state b)) b) as (b' & rs & R & Hk). eexists b', _. split; [|exact Hk].
  unfold reconnect_to_failed_peers. runs_step. eapply runs_bind; [exact R|]. apply runs_ret.
Qed.

Lemma attempts_run t dial who pending b :
  good_time t -> honest dial who ->
  exists b' rs, runs t b (mapM (fun url => let* r := connect_round dial url in ret (url, r)) pending) (Ok rs) b' /\
    (fun ur => (ur.1, ur.2.1)) <$> rs = (fun url => (url, bool_decide (is_Some (who url)))) <$> pending /\ keeps b b' /\
    forall url k, url ∈ pending -> who url = Some k -> is_Some (session_with b' k).
Proof.
  intros Ht Hh. revert b. induction pending as [|url pending IH]; intros b.
  { exists b, []. split_and!; [apply runs_ret|done|by apply keeps_refl|]. intros url k Hin. inversion Hin. }
  destruct (connect_round_run t b dial who url Ht Hh) as (b1 & o & R1 & K1 & S1).
  destruct (IH b1) as (b' & rs & R & Hrs & K & S). exists b', ((url, (bool_decide (is_Some (who url)), o)) :: rs). split_and!.
  - cbn [mapM]. eapply runs_bind; [eapply runs_bind; [exact R1|apply runs_ret]|]. eapply runs_bind; [exact R|]. apply runs_ret.
  - rewrite !fmap_cons, Hrs. done.
  - by eapply keeps_trans.
  - intros url' k [->|Hin]%elem_of_cons Hw; [apply K; by apply S1|by eapply S].
Qed.

(** A second of [Broker::start] connects what answers.  If at every URL either a peer
    answers or no one does, the tasks that remain are those of the URLs where no one
    does, there is a session with every peer that answers at a URL that was to be tried,
    and no session is lost. *)
Theorem start_round_connects t b dial who pending :
  good_time t -> honest dial who ->
  exists b' conns, runs t b (start_round dial pending) (Ok (filter (fun url => who url = None) pending, conns)) b' /\
    (forall url k, url ∈ pending -> who url = Some k -> is_Some (session_with b' k)) /\
    forall k, is_Some (session_with b k) -> is_Some (session_with b' k).
Proof.
  intros Ht Hh. destruct (attempts_run t dial who pending b Ht Hh) as (b1 & rs & R1 & Hrs & K1 & S1).
  destruct (reconnect_keeps t b1 dial who Ht Hh) as (b2 & again & R2 & K2).
  assert (Hp : omap (fun ur : string * (bool * option (Session * list (Packet + Status))) => if ur.2.1 then None else Some ur.1) rs =
               filter (fun url => who url = None) pending).
  { clear -Hrs. revert pending Hrs. induction rs as [|[u [ok o]] rs IH]; intros [|url pending] Hrs; try done.
    simpl in Hrs. injection Hrs as -> -> Hrs. specialize (IH pending Hrs). simpl. destruct (who url) as [k|] eqn:Hw.
    - rewrite bool_decide_true by done. rewrite filter_cons_False by congruence. exact IH.
    - rewrite bool_decide_false by (by intros []). rewrite filter_cons_True by done. by rewrite <-IH. }
  eexists b2, _. split_and!; [|by eauto|by eauto].
  unfold start_round. eapply runs_bind; [exact R1|]. eapply runs_bind; [exact R2|]. rewrite Hp. apply runs_ret.
Qed.
End spec.

(** ** Examples *)

#[local] Existing Instance demo_hash_order.

(** Replica "a" has lost its peer "b", known at a URL that is dead and at another. *)
Definition demo_lost : Broker :=
  mkBroker "" [] "a" [] (mkReplication ∅
    {["b"%string := mkTracker "b" (Some "dead"%string) (string_set ["u"%string]) 0 NoSkew None]}) [].

Definition demo_dial : string -> Dial := fun url =>
  if bool_decide (url = "u"%string)
  then Connected [inl (Some (MHello (mkHello "b" ["u"%string] None))); inl (Some (MPong 100000))]
  else ConnectFailed "connection refused".

Lemma demo_answers : answers demo_dial "u" "b".
Proof. exists (mkHello "b" ["u"%string] None), 100000, []. split_and!; [done|done|done|]. vm_compute. discriminate. Qed.

Lemma demo_unreachable url : url <> "u"%string -> unreachable demo_dial url.
Proof. intros Hu. left. eexists. unfold demo_dial. by rewrite bool_decide_false. Qed.

Lemma reconnect_restores_witness : exists b' sessions,
  runs (from_secs 100) demo_lost (reconnect_to_failed_peers demo_dial) (Ok sessions) b' /\ is_Some (session_with b' "b").
Proof.
  destruct (reconnect_restores (from_secs 100) demo_lost demo_dial) as (b' & sessions & R & Hs).
  - vm_compute. intuition discriminate.
  - intros k p url Hk Hu. unfold demo_lost in Hk. cbn in Hk. apply lookup_singleton_Some in Hk as [<- <-].
    destruct (decide (url = "u"%string)) as [->|Hne]; [right; exact demo_answers|left; by apply demo_unreachable].
  - exists b', sessions. split; [exact R|]. apply (Hs "b"%string _ eq_refl). right. exists "u"%string.
    split; [|exact demo_answers]. right. left.
Defined.

Lemma start_round_connects_witness : exists b' conns,
  runs (from_secs 100) (broker_new "a" "" ["u"; "dead"]%string) (start_round demo_dial ["u"; "dead"]%string)
    (Ok (["dead"%string], conns)) b' /\ is_Some (session_with b' "b").
Proof.
  destruct (start_round_connects (from_secs 100) (broker_new "a" "" ["u"; "dead"]%string) demo_dial
    (fun url => if bool_decide (url = "u"%string) then Some "b"%string else None) ["u"; "dead"]%string)
    as (b' & conns & R & Hs & _).
  - vm_compute. intuition discriminate.
  - intros url. case_bool_decide as Hu; [rewrite Hu; exact demo_answers|by apply demo_unreachable].
  - exists b', conns. split; [exact R|]. apply (Hs "u"%string); [left|done].
Defined.
