(* ===== verification/Redis.v ===== *)
(** * Redis and the scripts run in it: [storage/redis/scripts.rs], [storage/redis/mod.rs]

    The server is a parameter: the class [Redis] has one operation per command
    the code and its Lua scripts use, at the server's time in milliseconds.
    Counters are string keys holding an integer, the counters of a limit a set,
    the reservations of a counter a hash; a key is used with one type only.  A
    script is one step: Redis runs it alone, at one time.  A client's call may
    fail, and then the server may have run it or not. *)

From S2P Require Import Prelude Cel Errors Limit Counter Reservation Storage Keys.

(** ** [redis::RedisError] *)

Record RedisError : Type := mkRedisError {
  re_msg : string;
  re_timeout : bool;
  re_connection_dropped : bool;
  re_cluster_error : bool;
  re_connection_refusal : bool;
  (** [kind() == ErrorKind::Server(ServerErrorKind::NoScript)] *)
  re_no_script : bool
}.

Definition from_redis_error (e : RedisError) : StorageErr :=
  mkStorageErr (re_msg e) (Some (re_msg e))
    (re_timeout e || re_connection_dropped e || re_cluster_error e || re_connection_refusal e).

(** [impl From<r2d2::Error> for StorageErr] *)
Definition from_pool_error (msg : string) : StorageErr := mkStorageErr msg (Some msg) false.

(** ** The server *)

Class Redis : Type := {
  rdata : Type;
  r_get : rdata -> Z -> string -> option Z;
  r_exists : rdata -> Z -> string -> bool;
  r_ttl : rdata -> Z -> string -> Z;
  r_pttl : rdata -> Z -> string -> Z;
  r_pexpiretime : rdata -> Z -> string -> Z;
  r_incrby : rdata -> Z -> string -> Z -> RedisError + (Z * rdata);
  (** [SET key value EX secs] *)
  r_set_ex : rdata -> Z -> string -> Z -> Z -> rdata;
  (** [EXPIRE key secs NX] *)
  r_expire_nx : rdata -> Z -> string -> Z -> rdata;
  r_del : rdata -> Z -> string -> rdata;
  r_sadd : rdata -> Z -> string -> string -> rdata;
  r_smembers : rdata -> Z -> string -> list string;
  r_hgetall : rdata -> Z -> string -> list (string * string);
  r_hset : rdata -> Z -> string -> string -> string -> rdata;
  r_hdel : rdata -> Z -> string -> string -> Z * rdata;
  r_pexpire : rdata -> Z -> string -> Z -> rdata;
  r_flushdb : rdata -> Z -> rdata;
  (** Lua's number formatting and parsing *)
  lua_tostring : Z -> string;
  lua_tonumber : string -> option Z;
  (** the client's conversion of an integer reply to [u64] *)
  reply_as_u64 : Z -> RedisError + Z
}.

(** ** Lua numbers *)

(** Lua computes in binary64: an integer is rounded to 53 significant bits, ties to even. *)
Definition lua_num (z : Z) : Z :=
  let e := Z.log2 (Z.abs z) - 52 in
  if e <=? 0 then z
  else
    let m := Z.abs z in
    let q := m / 2 ^ e in
    let r := m mod 2 ^ e in
    let q := if (2 * r <? 2 ^ e) || ((2 * r =? 2 ^ e) && Z.even q) then q else q + 1 in
    Z.sgn z * (q * 2 ^ e).

Definition lua_add (a b : Z) : Z := lua_num (a + b).
Definition lua_mul (a b : Z) : Z := lua_num (a * b).

(** An integer of 53 bits is itself. *)
Lemma lua_num_small z : Z.abs z < 9007199254740992 -> lua_num z = z.
Proof.
  intros Hz. unfold lua_num. replace (Z.log2 (Z.abs z) - 52 <=? 0) with true; [done|].
  symmetry. apply Z.leb_le. destruct (Z.eq_dec z 0) as [->|Hne]; [simpl; lia|].
  assert (Z.log2 (Z.abs z) < 53); [|lia]. apply Z.log2_lt_pow2; lia.
Qed.

Section scripts.
Context {RD : Redis}.

(** A script, run at server time [t]: [redis.call] is one command. *)
Abbreviation RS A := (M rdata RedisError A).

Definition r_read {A} (f : rdata -> A) : RS A := let* d := get in ret (f d).
Definition r_write (f : rdata -> rdata) : RS unit := let* d := get in put (f d).

Definition r_call {A} (f : rdata -> RedisError + (A * rdata)) : RS A :=
  let* d := get in
  match f d with
  | inl e => throw e
  | inr (a, d) => put d ;;; ret a
  end.

Definition script_update_counter (t : Z) (counter_key limit_key : string) (ttl delta : Z) : RS Z :=
  let* c := r_call (fun d => r_incrby d t counter_key delta) in
  (if lua_num c =? lua_num delta then
     r_write (fun d => r_expire_nx d t counter_key ttl) ;;;
     r_write (fun d => r_sadd d t limit_key counter_key)
   else ret tt) ;;;
  ret (lua_num c).

(** One counter of a batch: its keys, ttl and delta. *)
Record BatchItem : Type := mkItem { bi_key : string; bi_limit_key : string; bi_ttl : Z; bi_delta : Z }.

Fixpoint batch_update_counters (t : Z) (items : list BatchItem) : RS (list Z) :=
  match items with
  | [] => ret []
  | i :: items =>
      let* c := r_call (fun d => r_incrby d t (bi_key i) (bi_delta i)) in
      (if lua_num c =? lua_num (bi_delta i) then
         r_write (fun d => r_expire_nx d t (bi_key i) (bi_ttl i)) ;;;
         r_write (fun d => r_sadd d t (bi_limit_key i) (bi_key i))
       else ret tt) ;;;
      let* exp := r_read (fun d => r_pexpiretime d t (bi_key i)) in
      let* res := batch_update_counters t items in
      ret (lua_num c :: lua_num exp :: res)
  end.

Definition values_and_ttls (t : Z) (keys : list string) : RS (list (option Z)) :=
  let* res := mapM (fun k => let* v := r_read (fun d => r_get d t k) in
                             let* p := r_read (fun d => r_pttl d t k) in
                             ret [v; Some (lua_num p)]) keys in
  ret (concat res).

(** ** [SCRIPT_RESERVE] *)

(** The keys and arguments of one counter. *)
Record ReserveItem : Type := mkReserveItem {
  ri_counter_key : string;
  ri_reservation_key : string;
  ri_limit_key : string;
  ri_window_secs : Z;
  ri_max_value : Z
}.

(** [packed]: the amount, a colon, the expiry. *)
Definition unpack_hold (packed : string) : option (Z * Z) :=
  match str_find ":" packed with
  | None => None
  | Some sep =>
      match lua_tonumber (String.substring 0 sep packed), lua_tonumber (str_from (S sep) packed) with
      | Some a, Some e => Some (a, e)
      | _, _ => None
      end
  end.

Definition pack_hold (hold expires_at : Z) : string := lua_tostring hold +:+ ":" +:+ lua_tostring expires_at.

(** An error inside the script. *)
Definition lua_error : RedisError := mkRedisError "attempt to perform arithmetic on a nil value" false false false false false.

(** The loop over the fields of a counter's hash: what is held; expired holds are removed. *)
Fixpoint sum_held (t : Z) (reservation_key : string) (now_ms : Z) (fields : list (string * string)) (held : Z) : RS Z :=
  match fields with
  | [] => ret held
  | (field, packed) :: fields =>
      match unpack_hold packed with
      | None => throw lua_error
      | Some (field_amount, field_expires_at) =>
          if field_expires_at >? now_ms
          then sum_held t reservation_key now_ms fields (lua_add held field_amount)
          else r_call (fun d => inr (r_hdel d t reservation_key field)) ;;;
               sum_held t reservation_key now_ms fields held
      end
  end.

(** One turn of the first loop: value, outstanding holds, time left, and whether the
    counter admits [check_amount]. *)
Definition reserve_scan (t : Z) (check_amount now_ms : Z) (i : ReserveItem) : RS (Z * Z * Z * bool) :=
  let window_secs := lua_num (ri_window_secs i) in
  let max_value := lua_num (ri_max_value i) in
  let* exists_ := r_read (fun d => r_exists d t (ri_counter_key i)) in
  (if negb exists_ then
     r_write (fun d => r_set_ex d t (ri_counter_key i) 0 window_secs) ;;;
     r_write (fun d => r_sadd d t (ri_limit_key i) (ri_counter_key i))
   else ret tt) ;;;
  let* v := r_read (fun d => r_get d t (ri_counter_key i)) in
  let value := lua_num (default 0 v) in
  let* p := r_read (fun d => r_pttl d t (ri_counter_key i)) in
  let window_ttl_ms := lua_num p in
  let window_ttl_ms := if window_ttl_ms <? 0 then lua_mul window_secs 1000 else window_ttl_ms in
  let* fields := r_read (fun d => r_hgetall d t (ri_reservation_key i)) in
  let* held := sum_held t (ri_reservation_key i) now_ms fields 0 in
  ret (value, held, window_ttl_ms, negb (lua_add (lua_add value held) check_amount >? max_value)).

(** One turn of the second loop. *)
Definition reserve_write (t : Z) (hold_amount ttl_ms now_ms : Z) (id : string) (i : ReserveItem)
    (window_ttl : Z) : RS unit :=
  let expires_at_ms := lua_add now_ms ttl_ms in
  let expires_at_ms := if expires_at_ms >? lua_add now_ms window_ttl then lua_add now_ms window_ttl else expires_at_ms in
  r_write (fun d => r_hset d t (ri_reservation_key i) id (pack_hold hold_amount expires_at_ms)) ;;;
  r_write (fun d => r_pexpire d t (ri_reservation_key i) window_ttl).

Definition script_reserve (t : Z) (items : list ReserveItem) (check_amount hold_amount ttl_ms : Z)
    (reservation_id : string) (now_ms : Z) : RS (list Z) :=
  let check_amount := lua_num check_amount in
  let hold_amount := lua_num hold_amount in
  let ttl_ms := lua_num ttl_ms in
  let now_ms := lua_num now_ms in
  let* scans := mapM (reserve_scan t check_amount now_ms) items in
  let admitted := forallb snd scans in
  (if admitted && (hold_amount >? 0) then
     for_each (fun p => reserve_write t hold_amount ttl_ms now_ms reservation_id p.1 p.2.1.2) (zip items scans)
   else ret tt) ;;;
  ret (concat ((fun s => [s.1.1.1; s.1.1.2; s.1.2]) <$> scans) ++ [if admitted then 1 else 0]).

(** ** A client's connection *)

(** [conn_faults]: which of the calls to come fail, and whether the server ran them. *)
Record Conn : Type := mkConn {
  conn_data : rdata;
  conn_faults : list (option (RedisError * bool));
  conn_pool_faults : list (option string)
}.

(** What a script leaves when run on [d]. *)
Definition run_script {A} (m : RS A) (d : rdata) : Outcome RedisError A * rdata :=
  let '(o, w) := m (mkWorld d (fun _ => 0) 0) in (o, w_state w).

(** One call: a command, a script or a pipeline of them. *)
Definition conn_call {A} (script : Z -> RS A) : M Conn RedisError A :=
  let* t := now in
  let* s := get in
  let '(o, d) := run_script (script (as_millis t)) (conn_data s) in
  match conn_faults s with
  | Some (err, executed) :: faults =>
      put (mkConn (if executed : bool then d else conn_data s) faults (conn_pool_faults s)) ;;;
      throw err
  | faults => put (mkConn d (tail faults) (conn_pool_faults s)) ;;; lift o
  end.

(** [self.conn_pool.get()?] *)
Definition pool_get : M Conn StorageErr unit :=
  let* s := get in
  put (mkConn (conn_data s) (conn_faults s) (tail (conn_pool_faults s))) ;;;
  match conn_pool_faults s with
  | Some msg :: _ => throw (from_pool_error msg)
  | _ => ret tt
  end.

(** [call(..)?] *)
Definition try_call {A} (script : Z -> RS A) : M Conn StorageErr A := map_err from_redis_error (conn_call script).

End scripts.

Section is_limited.
Context {CE : CelEngine}.

(** [x as u64] of an [i64] *)
Definition i64_as_u64 (z : Z) : Z := z mod 18446744073709551616.

(** [u64::try_from(val).unwrap_or(0)] of an [i64] *)
Definition u64_try_from_or_0 (z : Z) : Z := if z <? 0 then 0 else z.

(** The time left a [PTTL] reply stands for. *)
Definition expires_in_of (c : Counter) (ttl : option Z) : Duration :=
  match ttl with
  | Some x => if 0 <=? x then from_millis (i64_as_u64 x) else window c
  | None => window c
  end.

(** [is_limited]: indexing past the reply panics, as does a reply of odd length. *)
Fixpoint is_limited_loop {E} (delta : Z) (first_limited : option Authorization) (cs : list Counter)
    (script_res : list (option Z)) : Outcome E (list Counter * option Authorization) :=
  match cs, script_res with
  | [], _ => Ok ([], first_limited)
  | c :: cs, v :: ttl :: rest =>
      let value := i64_as_u64 (default 0 v) in
      let c := set_remaining c (u64_saturating_sub (max_value c) value) in
      let c := set_expires_in c (expires_in_of c ttl) in
      let first_limited :=
        match first_limited with
        | Some a => Some a
        | None => match u64_checked_sub (max_value c) (u64_saturating_add value delta) with
                  | None => Some (AuthLimited (limit_name (ctr_limit c)))
                  | Some _ => None
                  end
        end in
      let? r := is_limited_loop delta first_limited cs rest in
      Ok (c :: r.1, r.2)
  | _ :: _, _ => Panic "index out of bounds"
  end.

Definition is_limited {E} (counters : list Counter) (delta : Z) (script_res : list (option Z))
    : Outcome E (list Counter * option Authorization) :=
  if Nat.even (length script_res) then is_limited_loop delta None counters script_res
  else Panic "index out of bounds".
End is_limited.
