(* ===== verification/RedisStorage.v ===== *)
(** * The Redis storages: [storage/redis/redis_sync.rs], [storage/redis/redis_async.rs]

    Both keep nothing but a connection.  The code of the asynchronous storage
    is that of the synchronous one with an [await] per call, except where the
    definitions below differ: it has no pool of connections, sends the updates
    of a request in one pipeline, and reads a negative [TTL] as zero.  What the
    two have in common is defined once. *)

From S2P Require Import Prelude Cel Errors Limit Counter Reservation Storage AsyncStorage Keys Redis.

Section redis_storage.
Context {CE : CelEngine} {HO : HashOrder} {PC : Postcard} {SJ : SerdeJson} {RD : Redis}.

Abbreviation RM A := (M Conn StorageErr A).

(** The commands of a pipeline all run; the reply is the first error, if any. *)
Fixpoint pipeline {A} (cmds : list (M rdata RedisError A)) : M rdata RedisError (list A) :=
  match cmds with
  | [] => ret []
  | cmd :: cmds =>
      fun w =>
        let '(o, w) := cmd w in
        let '(os, w) := pipeline cmds w in
        (match o with
         | Ok a => outcome_map (cons a) os
         | Err e => Err e
         | Panic msg => Panic msg
         end, w)
  end.

(** ** What both storages do *)

(** The body of [is_within_limits] after the connection. *)
Definition read_within_limits (c : Counter) (delta : Z) : RM bool :=
  let* k := lift (key_for_counter c) in
  let* v := try_call (fun t => r_read (fun d => r_get d t k)) in
  match v with
  | Some val => ret (u64_saturating_add (u64_try_from_or_0 val) delta <=? max_value c)
  | None => ret (match u64_checked_sub (max_value c) delta with Some _ => true | None => false end)
  end.

(** [SCRIPT_UPDATE_COUNTER] with the keys and arguments of a counter. *)
Definition update_script (k : string) (c : Counter) (delta : Z) (t : Z) : M rdata RedisError Z :=
  script_update_counter t k (key_for_counters_of_limit (ctr_limit c)) (as_secs (window c)) delta.

Definition send_update (c : Counter) (delta : Z) : RM unit :=
  let* k := lift (key_for_counter c) in
  try_call (update_script k c delta) ;;; ret tt.

(** The body of [evaluate] after the connection. *)
Definition read_counters (cs : list Counter) (delta : Z) : RM (list Counter * option Authorization) :=
  let* keys := lift (map_outcome key_for_counter cs) in
  let* res := try_call (fun t => values_and_ttls t keys) in
  lift (is_limited cs delta res).

(** [HashSet<Vec<u8>>] of a reply, in iteration order. *)
Definition reply_set (keys : list string) : list string :=
  (hash_iter (list_to_map ((fun k => (k, tt)) <$> keys) : gmap string unit)).*1.

(** The loop of [get_counters]; [to_secs] converts the reply to [TTL]. *)
Definition list_counters (to_secs : Z -> RedisError + Z) (limits : LimitSet) : RM CounterSet :=
  foldM (fun res l =>
      let* keys := try_call (fun t => r_read (fun d => r_smembers d t (key_for_counters_of_limit l))) in
      foldM (fun res counter_key_ =>
          let* c := lift (counter_from_counter_key counter_key_ l) in
          let* v := try_call (fun t => r_read (fun d => r_get d t counter_key_)) in
          match v with
          | Some val =>
              let c := set_remaining c (u64_saturating_sub (limit_max_value l) (u64_try_from_or_0 val)) in
              let* ttl := map_err from_redis_error
                            (let* ttl := conn_call (fun t => r_read (fun d => r_ttl d t counter_key_)) in
                             match to_secs ttl with inr s => ret s | inl e => throw e end) in
              let c := set_expires_in c (from_secs ttl) in
              ret (set_insert counter_key c res).2
          | None => ret res
          end) res (reply_set keys)) ∅ (hash_iter limits).*2.

Definition delete_limit (l : Limit) : RM unit :=
  let* keys := try_call (fun t => r_read (fun d => r_smembers d t (key_for_counters_of_limit l))) in
  for_each (fun k => try_call (fun t => r_write (fun d => r_del d t k))) (reply_set keys) ;;;
  try_call (fun t => r_write (fun d => r_del d t (key_for_counters_of_limit l))).

(** The keys and arguments of [SCRIPT_RESERVE]. *)
Definition reserve_item (c : Counter) : Outcome StorageErr ReserveItem :=
  let? k := key_for_counter c in
  let? rk := key_for_reservations c in
  Ok (mkReserveItem k rk (key_for_counters_of_limit (ctr_limit c)) (as_secs (window c)) (max_value c)).

(** [as i64] *)
Definition as_i64 (z : Z) : Z := (z + 9223372036854775808) mod 18446744073709551616 - 9223372036854775808.

(** The loop over the reply of [SCRIPT_RESERVE]. *)
Fixpoint annotate_reserved (check_amount granted_hold : Z) (first_limited : option (option string))
    (cs : list Counter) (raw : list Z) : Outcome StorageErr (list Counter * option (option string)) :=
  match cs, raw with
  | [], _ => Ok ([], first_limited)
  | c :: cs, v :: o :: w :: raw =>
      let value := Z.max v 0 in
      let outstanding := Z.max o 0 in
      let window_ttl_ms := Z.max w 0 in
      let total := u64_add (u64_add value outstanding) check_amount in
      let remaining := u64_checked_sub (max_value c) (u64_add (u64_add value outstanding) granted_hold) in
      let c := set_remaining c (default 0 remaining) in
      let c := set_expires_in c (from_millis window_ttl_ms) in
      let first_limited :=
        match first_limited with
        | Some n => Some n
        | None => if total >? max_value c then Some (limit_name (ctr_limit c)) else None
        end in
      let? r := annotate_reserved check_amount granted_hold first_limited cs raw in
      Ok (c :: r.1, r.2)
  | _ :: _, _ => Panic "index out of bounds"
  end.

(** [SystemTime::now().duration_since(UNIX_EPOCH).unwrap().as_millis() as i64] *)
Definition now_ms : RM Z :=
  let* t := now in
  match duration_since t UNIX_EPOCH with
  | Some d => ret (as_i64 (as_millis d))
  | None => lift (Panic "called `Result::unwrap()` on an `Err` value")
  end.

(** The body of [reserve] after the connection. *)
Definition reserve_in_redis (cs : list Counter) (id : ReservationId) (check_amount hold_amount : Z)
    (ttl : Duration) : RM (list Counter * Authorization) :=
  let* t_ms := now_ms in
  let* items := lift (map_outcome reserve_item cs) in
  let* raw := try_call (fun t => script_reserve t items check_amount hold_amount (as_i64 (as_millis ttl)) id t_ms) in
  let admitted := default 0 (last raw) =? 1 in
  let* '(cs, first_limited) := lift (annotate_reserved check_amount (if admitted then hold_amount else 0) None cs raw) in
  ret (cs, if admitted then AuthOk else AuthLimited (default None first_limited)).

(** [release_reservation] after the connection. *)
Definition release_in_redis (cs : list Counter) (id : ReservationId) : RM bool :=
  let* keys := lift (map_outcome key_for_reservations cs) in
  let* removed := try_call (fun t => pipeline ((fun k => r_call (fun d => inr (r_hdel d t k id))) <$> keys)) in
  ret (existsb (fun n => n >? 0) removed).

(** ** [impl CounterStorage for RedisStorage] *)

Definition is_within_limits (c : Counter) (delta : Z) : RM bool := pool_get ;;; read_within_limits c delta.

Definition add_counter (l : Limit) : RM unit := ret tt.

Definition update_counter (c : Counter) (delta : Z) : RM unit := pool_get ;;; send_update c delta.

Definition evaluate (cs : list Counter) (delta : Z) : RM (list Counter * option Authorization) :=
  pool_get ;;; read_counters cs delta.

Definition check (cs : list Counter) (delta : Z) : RM (list Counter * Authorization) :=
  let* '(cs, res) := evaluate cs delta in ret (cs, default AuthOk res).

Definition check_and_update (cs : list Counter) (delta : Z) : RM (list Counter * Authorization) :=
  let* '(cs, res) := evaluate cs delta in
  match res with
  | Some a => ret (cs, a)
  | None =>
      pool_get ;;;
      for_each (fun c => send_update c delta) cs ;;;
      ret (cs, AuthOk)
  end.

Definition get_counters (limits : LimitSet) : RM CounterSet := pool_get ;;; list_counters reply_as_u64 limits.

Definition delete_counters (limits : LimitSet) : RM unit :=
  pool_get ;;; for_each delete_limit (hash_iter limits).*2.

Definition clear : RM unit := pool_get ;;; try_call (fun t => r_write (fun d => r_flushdb d t)).

Definition reserve (cs : list Counter) (id : ReservationId) (check_amount hold_amount : Z)
    (ttl : Duration) : RM (list Counter * Authorization) :=
  pool_get ;;; reserve_in_redis cs id check_amount hold_amount ttl.

Definition release_reservation (cs : list Counter) (id : ReservationId) : RM bool :=
  if bool_decide (cs = []) then ret false else pool_get ;;; release_in_redis cs id.

#[global] Instance redis_counter_storage : CounterStorage Conn := {|
  cs_is_within_limits := is_within_limits;
  cs_add_counter := add_counter;
  cs_update_counter := update_counter;
  cs_check := check;
  cs_check_and_update := check_and_update;
  cs_get_counters := get_counters;
  cs_delete_counters := delete_counters;
  cs_clear := clear;
  cs_reserve := reserve;
  cs_release_reservation := release_reservation
|}.

(** ** [impl AsyncCounterStorage for AsyncRedisStorage] *)

Definition async_evaluate (cs : list Counter) (delta : Z) : RM (list Counter * option Authorization) :=
  read_counters cs delta.

Definition async_check (cs : list Counter) (delta : Z) : RM (list Counter * Authorization) :=
  let* '(cs, res) := async_evaluate cs delta in ret (cs, default AuthOk res).

(** [script.prepare_invoke().load_async(&mut con)] *)
Definition load_script : M Conn RedisError unit := conn_call (fun _ => ret tt).

(** The pipeline of updates; loaded and sent again if Redis does not know the script. *)
Definition send_pipeline (kcs : list (string * Counter)) (delta : Z) : RM unit :=
  let query := conn_call (fun t => pipeline ((fun kc => update_script kc.1 kc.2 delta t) <$> kcs)) in
  map_err from_redis_error
    (fun w =>
       match query w with
       | (Err err, w') =>
           if re_no_script err then (load_script ;;; query ;;; ret tt) w' else (Err err, w')
       | (Ok _, w') => (Ok tt, w')
       | (Panic msg, w') => (Panic msg, w')
       end).

Definition async_check_and_update (cs : list Counter) (delta : Z) : RM (list Counter * Authorization) :=
  let* keys := lift (map_outcome key_for_counter cs) in
  let* '(cs, res) := async_evaluate cs delta in
  match res with
  | Some a => ret (cs, a)
  | None => send_pipeline (zip keys cs) delta ;;; ret (cs, AuthOk)
  end.

Definition async_get_counters (limits : LimitSet) : RM CounterSet :=
  list_counters (fun ttl => inr (u64_try_from_or_0 ttl)) limits.

Definition async_delete_counters (limits : LimitSet) : RM unit := for_each delete_limit (hash_iter limits).*2.

Definition async_clear : RM unit := try_call (fun t => r_write (fun d => r_flushdb d t)).

Definition async_release_reservation (cs : list Counter) (id : ReservationId) : RM bool :=
  if bool_decide (cs = []) then ret false else release_in_redis cs id.

#[global] Instance async_redis_counter_storage : AsyncCounterStorage Conn := {|
  acs_is_within_limits := read_within_limits;
  acs_update_counter := send_update;
  acs_check := async_check;
  acs_check_and_update := async_check_and_update;
  acs_get_counters := async_get_counters;
  acs_delete_counters := async_delete_counters;
  acs_clear := async_clear;
  acs_reserve := reserve_in_redis;
  acs_release_reservation := async_release_reservation
|}.

(** [values_and_window_ttls]; [chunks(2)] of the reply. *)
Fixpoint chunk_values (cs : list Counter) (raw : list (option Z)) : Outcome StorageErr (list (Z * Duration)) :=
  match cs, raw with
  | [], _ | _, [] => Ok []
  | c :: cs, v :: ttl :: raw =>
      let value := i64_as_u64 (Z.max (default 0 v) 0) in
      let ttl := match ttl with
                 | Some ms => if 0 <=? ms then from_millis (i64_as_u64 ms) else window c
                 | None => window c
                 end in
      let? r := chunk_values cs raw in Ok ((value, ttl) :: r)
  | _ :: _, [_] => Panic "index out of bounds"
  end.

Definition values_and_window_ttls (cs : list Counter) : RM (list (Z * Duration)) :=
  let* keys := lift (map_outcome key_for_counter cs) in
  let* raw := try_call (fun t => values_and_ttls t keys) in
  lift (chunk_values cs raw).

End redis_storage.
