(* ===== verification/RedisSpec.v ===== *)
(** * What the Redis storages do, over any Redis that keeps its promises *)

From S2P Require Import Prelude AtomicExpiringValue Cel Errors Limit Counter Reservation Storage.
From S2P Require Import AsyncStorage StorageSpec Keys Redis RedisStorage.

Definition in_i64 (z : Z) : Prop := -9223372036854775808 <= z <= 9223372036854775807.

(** What the commands promise, in terms of what is there at time [t]: the integer under a
    string key with the time it expires, and the fields of a hash. *)
Class RedisLaws `{RD : Redis} : Type := {
  cell : rdata -> Z -> string -> option (Z * option Z);
  fields : rdata -> Z -> string -> gmap string string;

  (** A key is gone once its time has come. *)
  cell_later : forall d t t' k, t <= t' ->
    cell d t' k = match cell d t k with
                  | Some (v, Some e) => if t' <? e then Some (v, Some e) else None
                  | x => x
                  end;

  r_get_spec : forall d t k, r_get d t k = fst <$> cell d t k;
  r_exists_spec : forall d t k, r_exists d t k = bool_decide (is_Some (cell d t k));
  r_pttl_spec : forall d t k,
    r_pttl d t k = match cell d t k with None => -2 | Some (_, None) => -1 | Some (_, Some e) => e - t end;
  r_pexpiretime_spec : forall d t k,
    r_pexpiretime d t k = match cell d t k with None => -2 | Some (_, None) => -1 | Some (_, Some e) => e end;

  r_incrby_spec : forall d t k n,
    let v := default 0 (fst <$> cell d t k) + n in
    in_i64 n -> in_i64 v -> exists d', r_incrby d t k n = inr (v, d') /\
      (forall k', cell d' t k' = if decide (k' = k) then Some (v, cell d t k ≫= snd) else cell d t k') /\
      (forall k', fields d' t k' = fields d t k');
  r_set_ex_spec : forall d t k v secs, 0 < secs ->
    (forall k', cell (r_set_ex d t k v secs) t k' =
       if decide (k' = k) then Some (v, Some (t + secs * 1000)) else cell d t k') /\
    (forall k', fields (r_set_ex d t k v secs) t k' = fields d t k');
  r_expire_nx_spec : forall d t k secs, 0 < secs ->
    (forall k', cell (r_expire_nx d t k secs) t k' =
       if decide (k' = k) then match cell d t k with
                               | Some (v, None) => Some (v, Some (t + secs * 1000))
                               | x => x
                               end
       else cell d t k') /\
    (forall k', fields (r_expire_nx d t k secs) t k' = fields d t k');
  r_sadd_spec : forall d t k x,
    (forall k', cell (r_sadd d t k x) t k' = cell d t k') /\
    (forall k', fields (r_sadd d t k x) t k' = fields d t k');

  r_hgetall_spec : forall d t k, r_hgetall d t k ≡ₚ map_to_list (fields d t k);
  r_hset_spec : forall d t k f x,
    (forall k', cell (r_hset d t k f x) t k' = cell d t k') /\
    (forall k', fields (r_hset d t k f x) t k' = if decide (k' = k) then <[f := x]> (fields d t k) else fields d t k');
  r_hdel_spec : forall d t k f,
    (r_hdel d t k f).1 = (if decide (is_Some (fields d t k !! f)) then 1 else 0) /\
    (forall k', cell (r_hdel d t k f).2 t k' = cell d t k') /\
    (forall k', fields (r_hdel d t k f).2 t k' = if decide (k' = k) then delete f (fields d t k) else fields d t k');
  r_pexpire_spec : forall d t k ms, 0 < ms ->
    (forall k', cell (r_pexpire d t k ms) t k' = cell d t k') /\
    (forall k', fields (r_pexpire d t k ms) t k' = fields d t k');

  (** Fourteen digits are printed in full. *)
  lua_tonumber_tostring : forall z, 0 <= z < 100000000000000 -> lua_tonumber (lua_tostring z) = Some z;
  lua_tostring_digits : forall z, 0 <= z < 100000000000000 -> str_find ":" (lua_tostring z) = None
}.

(** ** Scripts *)

Section scripts_spec.
Context {RD : Redis} {RL : RedisLaws}.
Implicit Types (d : rdata) (t : Z) (k : string).

Definition cell_value d t k : Z := default 0 (fst <$> cell d t k).

(** Every counter has a non-negative value and a window. *)
Definition cells_ok d t : Prop :=
  forall k v e, cell d t k = Some (v, e) -> 0 <= v /\ exists e', e = Some e' /\ t < e'.

Lemma runs_read {A} t0 d (f : rdata -> A) : runs t0 d (r_read f) (Ok (f d)) d.
Proof. unfold r_read. runs_step. apply runs_ret. Qed.

Lemma runs_write t0 d (f : rdata -> rdata) : runs t0 d (r_write f) (Ok tt) (f d).
Proof. unfold r_write. runs_step. apply runs_put. Qed.

(** The cell after counting [delta] in it: a new one gets a window, another one keeps its. *)
Definition counted_cell t (c : option (Z * option Z)) (ttl delta : Z) : Z * option Z :=
  match c with
  | Some (v, e) => (v + delta, match e with Some e => Some e | None => None end)
  | None => (delta, Some (t + ttl * 1000))
  end.

Lemma update_cell_run t0 d t k lk ttl delta :
  cells_ok d t -> 0 < ttl -> in_i64 delta -> 0 <= delta -> in_i64 (cell_value d t k + delta) ->
  exists d', runs t0 d
      (let* c := r_call (fun d => r_incrby d t k delta) in
       (if lua_num c =? lua_num delta then
          r_write (fun d => r_expire_nx d t k ttl) ;;; r_write (fun d => r_sadd d t lk k)
        else ret tt) ;;; ret c) (Ok (cell_value d t k + delta)) d' /\
    (forall k', cell d' t k' = if decide (k' = k) then Some (counted_cell t (cell d t k) ttl delta) else cell d t k') /\
    (forall k', fields d' t k' = fields d t k').
Proof.
  intros Hok Httl Hdelta Hd0 Hv.
  destruct (r_incrby_spec d t k delta Hdelta Hv) as (d1 & Hinc & Hc1 & Hf1).
  assert (Hcall : runs t0 d (r_call (fun d => r_incrby d t k delta)) (Ok (cell_value d t k + delta)) d1).
  { unfold r_call. runs_step. rewrite Hinc. runs_step. apply runs_ret. }
  destruct (r_expire_nx_spec d1 t k ttl Httl) as [Hc2 Hf2].
  destruct (r_sadd_spec (r_expire_nx d1 t k ttl) t lk k) as [Hc3 Hf3].
  assert (Hcell : forall d2, (forall k', cell d2 t k' = if decide (k' = k) then
                      match cell d1 t k with Some (v, None) => Some (v, Some (t + ttl * 1000)) | x => x end
                    else cell d1 t k') \/ (d2 = d1 /\ cell d t k <> None) ->
            forall k', cell d2 t k' = if decide (k' = k) then Some (counted_cell t (cell d t k) ttl delta) else cell d t k').
  { intros d2 H2 k'. unfold counted_cell, cell_value in *. destruct H2 as [H2|[-> Hsome]].
    - rewrite H2, !Hc1. destruct (decide (k' = k)) as [->|]; [|done]. rewrite decide_True by done.
      destruct (cell d t k) as [[v [e|]]|] eqn:Hcl; simpl; [done| |by rewrite Z.add_0_l].
      destruct (Hok k v None Hcl) as (_ & e' & He & _). done.
    - rewrite Hc1. destruct (decide (k' = k)) as [->|]; [|done].
      destruct (cell d t k) as [[v [e|]]|] eqn:Hcl; simpl in *; [done|done|done]. }
  destruct (lua_num (cell_value d t k + delta) =? lua_num delta) eqn:Heq.
  - eexists. split_and!.
    + eapply runs_bind; [exact Hcall|]. rewrite Heq.
      eapply runs_bind; [eapply runs_bind; apply runs_write|apply runs_ret].
    + intros k'. rewrite Hc3. revert k'. apply Hcell. left. intros k'. apply Hc2.
    + intros k'. by rewrite Hf3, Hf2, Hf1.
  - exists d1. split_and!.
    + eapply runs_bind; [exact Hcall|]. rewrite Heq. eapply runs_bind; apply runs_ret.
    + apply Hcell. right. split; [done|]. intros Hnone. unfold cell_value in Heq. rewrite Hnone in Heq.
      simpl in Heq. rewrite Z.add_0_l, Z.eqb_refl in Heq. done.
    + done.
Qed.

Lemma counted_cells_ok d d' t k ttl delta :
  cells_ok d t -> 0 < ttl -> 0 <= delta ->
  (forall k', cell d' t k' = if decide (k' = k) then Some (counted_cell t (cell d t k) ttl delta) else cell d t k') ->
  cells_ok d' t.
Proof.
  intros Hok Httl Hd Hc k' v e. rewrite Hc. destruct (decide (k' = k)) as [->|]; [|apply Hok].
  unfold counted_cell. destruct (cell d t k) as [[v0 e0]|] eqn:Hcl.
  - destruct (Hok k v0 e0 Hcl) as (Hv0 & e' & -> & He'). intros [= <- <-]. split; [lia|by exists e'].
  - intros [= <- <-]. split; [done|]. eexists. split; [done|lia].
Qed.

Lemma counted_value d t k ttl delta : (counted_cell t (cell d t k) ttl delta).1 = cell_value d t k + delta.
Proof. unfold counted_cell, cell_value. destruct (cell d t k) as [[]|]; simpl; lia. Qed.
End scripts_spec.

Section redis_spec.
Context {CE : CelEngine} {HO : HashOrder} {PC : Postcard} {SJ : SerdeJson} {RD : Redis} {RL : RedisLaws}.
Implicit Types (d : rdata) (t : SystemTime) (k : string) (c : Counter).

(** A connection none of whose calls fail. *)
Definition idle d : Conn := mkConn d [] [].

Lemma conn_call_run {A} t d (script : Z -> M rdata RedisError A) o d' :
  runs 0 d (script (as_millis t)) o d' -> runs t (idle d) (conn_call script) o (idle d').
Proof.
  intros Hr. destruct (Hr (mkWorld d (fun _ => 0) 0)) as [n Hn]; [done|done|].
  unfold conn_call. do 2 runs_step. unfold run_script. cbn [conn_data idle]. rewrite Hn. cbn [w_state conn_faults].
  runs_step. apply runs_lift.
Qed.

Lemma try_call_run {A} t d (script : Z -> M rdata RedisError A) a d' :
  runs 0 d (script (as_millis t)) (Ok a) d' -> runs t (idle d) (try_call script) (Ok a) (idle d').
Proof. intros Hr. apply conn_call_run in Hr. by apply (runs_map_err t _ from_redis_error) in Hr. Qed.

Lemma pool_get_run t d : runs t (idle d) pool_get (Ok tt) (idle d).
Proof. unfold pool_get. do 2 runs_step. apply runs_ret. Qed.

(** ** Keys *)

Definition redis_key c : string :=
  match counter_id c with
  | None => text_key (counter_namespace c) (counter_to_json (key c))
  | Some id => pc_u8 2 +:+ pc_id_counter_key (mkIdKey id (variables_for_key c))
  end.

Lemma key_for_counter_run {E} c : key_for_counter (E := E) c = Ok (redis_key c).
Proof.
  unfold key_for_counter, redis_key. destruct (counter_id c) as [id|] eqn:Hid.
  - unfold key_for_counter_v2, id_counter_key_of. by rewrite Hid.
  - do 2 f_equal. destruct (_ || _) eqn:Hann; [done|]. apply orb_false_iff in Hann as [Hr He].
    apply bool_decide_eq_false in Hr, He. destruct c as [l vs [r|] [e|]]; try done;
      exfalso; first [apply Hr; by eexists|apply He; by eexists].
Qed.

Lemma keys_run {E} (cs : list Counter) : map_outcome (E := E) key_for_counter cs = Ok (redis_key <$> cs).
Proof. induction cs as [|c cs IH]; [done|]. cbn [map_outcome]. rewrite key_for_counter_run. cbn [outcome_bind]. by rewrite IH. Qed.

(** ** Checking *)

(** What Redis counts for a counter. *)
Definition redis_value d t c : Z := cell_value d (as_millis t) (redis_key c).

Definition redis_annotates d t c c' : Prop :=
  ctr_limit c' = ctr_limit c /\ set_variables c' = set_variables c /\
  remaining c' = Some (u64_saturating_sub (max_value c) (redis_value d t c)) /\
  expires_in c' = Some (match cell d (as_millis t) (redis_key c) with
                        | Some (_, Some e) => from_millis (e - as_millis t)
                        | _ => window c
                        end).

Lemma redis_annotates_key d t c c' : redis_annotates d t c c' -> redis_key c' = redis_key c.
Proof.
  intros (Hl & Hv & _). unfold redis_key, counter_id, counter_namespace, variables_for_key, key. by rewrite Hl, Hv.
Qed.

(** The replies of [VALUES_AND_TTLS] for some keys. *)
Definition value_ttl d ms k : list (option Z) := [r_get d ms k; Some (lua_num (r_pttl d ms k))].

Lemma values_and_ttls_run t0 d ms ks :
  runs t0 d (values_and_ttls ms ks) (Ok (concat (value_ttl d ms <$> ks))) d.
Proof.
  unfold values_and_ttls. eapply runs_bind; [|apply runs_ret].
  induction ks as [|k ks IH]; [apply runs_ret|]. cbn [mapM fmap list_fmap].
  eapply runs_bind.
  - eapply runs_bind; [apply runs_read|]. eapply runs_bind; [apply runs_read|]. apply runs_ret.
  - eapply runs_bind; [exact IH|]. apply runs_ret.
Qed.

(** A counter's cell is within the range of the code's types. *)
Definition cell_in_range d ms c : Prop :=
  in_i64 (cell_value d ms (redis_key c)) /\
  forall v e, cell d ms (redis_key c) = Some (v, Some e) -> e - ms < 9007199254740992.

Lemma is_limited_loop_run {E} d t delta fl cs :
  cells_ok d (as_millis t) -> Forall (cell_in_range d (as_millis t)) cs ->
  exists cs', Forall2 (redis_annotates d t) cs cs' /\
  is_limited_loop (E := E) delta fl cs (concat (value_ttl d (as_millis t) <$> (redis_key <$> cs))) =
    Ok (cs', match fl with
             | Some a => Some a
             | None => (fun c => AuthLimited (limit_name (ctr_limit c))) <$>
                         List.find (fun c => over (redis_value d t c) delta c) cs
             end).
Proof.
  intros Hok. revert fl. induction cs as [|c cs IH]; intros fl Hr.
  { exists []. split; [constructor|]. simpl. by destruct fl. }
  apply Forall_cons in Hr as [[Hv He] Hr]. set (ms := as_millis t) in *.
  set (v := redis_value d t c). assert (Hval : i64_as_u64 (default 0 (r_get d ms (redis_key c))) = v).
  { rewrite r_get_spec. change (default 0 (fst <$> cell d ms (redis_key c))) with v.
    assert (0 <= v). { unfold v, redis_value, cell_value. fold ms. destruct (cell d ms (redis_key c)) as [[x e]|] eqn:Hc; simpl; [|lia].
      by destruct (Hok _ _ _ Hc). }
    unfold i64_as_u64. apply Z.mod_small. unfold in_i64 in Hv. change (cell_value d ms (redis_key c)) with v in Hv. lia. }
  assert (Hexp : expires_in_of c (Some (lua_num (r_pttl d ms (redis_key c)))) =
                 match cell d ms (redis_key c) with Some (_, Some e) => from_millis (e - ms) | _ => window c end).
  { rewrite r_pttl_spec. unfold expires_in_of. destruct (cell d ms (redis_key c)) as [[x [e|]]|] eqn:Hc; [|done|done].
    destruct (Hok _ _ _ Hc) as (_ & e' & [= <-] & Hlt). specialize (He x e eq_refl).
    rewrite lua_num_small by lia. rewrite (proj2 (Z.leb_le _ _)) by lia. f_equal. unfold i64_as_u64. apply Z.mod_small. lia. }
  set (fl1 := match fl with Some a => Some a | None => if over v delta c then Some (AuthLimited (limit_name (ctr_limit c))) else None end).
  destruct (IH fl1 Hr) as (cs' & Hann & Hrun).
  exists (set_expires_in (set_remaining c (u64_saturating_sub (max_value c) v))
            match cell d ms (redis_key c) with Some (_, Some e) => from_millis (e - ms) | _ => window c end :: cs').
  split; [constructor; [done|done]|].
  rewrite !fmap_cons. cbn [concat value_ttl app is_limited_loop]. rewrite Hval.
  change (expires_in_of (set_remaining c (u64_saturating_sub (max_value c) v))) with (expires_in_of c). rewrite Hexp.
  change (max_value (set_expires_in _ _)) with (max_value c). unfold over in fl1.
  match goal with |- context [is_limited_loop delta ?f cs _] => replace f with fl1 end.
  - rewrite Hrun. cbn [outcome_bind fst snd]. do 2 f_equal. unfold fl1. destruct fl; [done|]. cbn [List.find]. unfold over at 2.
    fold v. by destruct (u64_checked_sub (max_value c) (u64_saturating_add v delta)).
  - unfold fl1. destruct fl; [done|]. by destruct (u64_checked_sub (max_value c) (u64_saturating_add v delta)).
Qed.

Lemma read_counters_run d t delta cs :
  cells_ok d (as_millis t) -> Forall (cell_in_range d (as_millis t)) cs ->
  exists cs', Forall2 (redis_annotates d t) cs cs' /\
  runs t (idle d) (read_counters cs delta)
    (Ok (cs', (fun c => AuthLimited (limit_name (ctr_limit c))) <$>
                List.find (fun c => over (redis_value d t c) delta c) cs)) (idle d).
Proof.
  intros Hok Hr. destruct (is_limited_loop_run (E := StorageErr) d t delta None cs Hok Hr) as (cs' & Hann & Hrun).
  exists cs'. split; [done|]. unfold read_counters. rewrite keys_run. runs_step.
  eapply runs_bind; [apply try_call_run, values_and_ttls_run|]. unfold is_limited.
  replace (Nat.even _) with true; [rewrite Hrun; apply runs_lift|]. symmetry. clear.
  induction (redis_key <$> cs) as [|k ks IH]; [done|]. rewrite fmap_cons. cbn [concat value_ttl app length]. exact IH.
Qed.

(** ** Updating *)

Lemma update_script_run t0 d ms c delta :
  cells_ok d ms -> 0 < seconds (ctr_limit c) -> 0 <= delta -> in_i64 delta ->
  in_i64 (cell_value d ms (redis_key c) + delta) ->
  exists v d', runs t0 d (update_script (redis_key c) c delta ms) (Ok v) d' /\ cells_ok d' ms /\
    (forall k', cell d' ms k' = if decide (k' = redis_key c)
                                then Some (counted_cell ms (cell d ms (redis_key c)) (seconds (ctr_limit c)) delta)
                                else cell d ms k') /\
    (forall k', fields d' ms k' = fields d ms k').
Proof.
  intros Hok Hs Hd Hdi Hv. unfold update_script, script_update_counter. rewrite as_secs_window.
  destruct (update_cell_run t0 d ms (redis_key c) (key_for_counters_of_limit (ctr_limit c)) (seconds (ctr_limit c)) delta)
    as (d' & Hr & Hc & Hf); [done..|].
  exists (lua_num (cell_value d ms (redis_key c) + delta)), d'. split_and!; [|by eapply counted_cells_ok|done|done].
  intros w Hw Hst. destruct (Hr w Hw Hst) as [n Hn]. exists n. unfold bind in Hn |- *.
  destruct (r_call _ w) as [[x|e|m] w1]; [|by inversion Hn|by inversion Hn].
  destruct (lua_num x =? lua_num delta).
  - destruct ((r_write _) w1) as [[]w2]; [|by inversion Hn..]. destruct ((r_write _) w2) as [[]w3]; [|by inversion Hn..].
    unfold ret in *. inversion Hn; subst. done.
  - unfold ret in *. inversion Hn; subst. done.
Qed.

Lemma pipeline_cons {A} t0 d d1 d2 (m : M rdata RedisError A) ms a l :
  runs t0 d m (Ok a) d1 -> runs t0 d1 (pipeline ms) (Ok l) d2 -> runs t0 d (pipeline (m :: ms)) (Ok (a :: l)) d2.
Proof.
  intros H1 H2 w Hw Hs. destruct (H1 w Hw Hs) as [n Hn].
  destruct (H2 (mkWorld d1 (w_clock w) n) Hw eq_refl) as [n' Hn']. exists n'. cbn [pipeline]. by rewrite Hn, Hn'.
Qed.

(** Counters that can be counted at [ms]. *)
Definition countable_at d ms (delta : Z) c : Prop :=
  0 < seconds (ctr_limit c) /\ in_i64 (cell_value d ms (redis_key c) + delta).

(** Updating counters with different keys, one call each or all in one pipeline. *)
Lemma redis_update_all_run t d cs delta :
  let ms := as_millis t in
  cells_ok d ms -> 0 <= delta -> in_i64 delta -> NoDup (redis_key <$> cs) -> Forall (countable_at d ms delta) cs ->
  exists d', runs t (idle d) (for_each (fun c => send_update c delta) cs) (Ok tt) (idle d') /\
    (exists l, runs 0 d (pipeline ((fun kc => update_script kc.1 kc.2 delta ms) <$> zip (redis_key <$> cs) cs)) (Ok l) d') /\
    cells_ok d' ms /\
    (forall c, c ∈ cs -> cell d' ms (redis_key c) =
       Some (counted_cell ms (cell d ms (redis_key c)) (seconds (ctr_limit c)) delta)) /\
    (forall k, k ∉ redis_key <$> cs -> cell d' ms k = cell d ms k) /\
    (forall k, fields d' ms k = fields d ms k).
Proof.
  intros ms Hok Hd Hdi. revert d Hok. induction cs as [|c cs IH]; intros d Hok Hnd Hcs.
  { exists d. split_and!; [apply runs_ret|by exists []; apply runs_ret|done| |done|done]. intros c Hc. by apply not_elem_of_nil in Hc. }
  apply Forall_cons in Hcs as [[Hs Hv] Hcs]. rewrite fmap_cons in Hnd. apply NoDup_cons in Hnd as [Hnot Hnd].
  destruct (update_script_run 0 d ms c delta Hok Hs Hd Hdi Hv) as (v & d1 & R1 & Hok1 & Hc1 & Hf1).
  assert (Hother : forall c', c' ∈ cs -> redis_key c' <> redis_key c).
  { intros c' Hin Heq. apply Hnot. rewrite <-Heq. apply list_elem_of_fmap. by exists c'. }
  assert (Hcs1 : Forall (countable_at d1 ms delta) cs).
  { rewrite Forall_forall in Hcs |- *. intros c' Hin. destruct (Hcs c' Hin) as [? ?]. split; [done|].
    unfold cell_value. rewrite Hc1, decide_False by (by apply Hother). done. }
  destruct (IH d1 Hok1 Hnd Hcs1) as (d2 & R2 & (l & P2) & Hok2 & Hin2 & Hout2 & Hf2).
  exists d2. split_and!; [| |done| | |].
  - cbn [for_each]. eapply runs_bind; [|exact R2]. unfold send_update. rewrite key_for_counter_run. runs_step.
    eapply runs_bind; [by apply try_call_run|]. apply runs_ret.
  - exists (v :: l). by eapply pipeline_cons.
  - intros c' Hin. apply elem_of_cons in Hin as [->|Hin].
    + rewrite Hout2 by done. by rewrite Hc1, decide_True.
    + rewrite (Hin2 c' Hin), Hc1, decide_False by (by apply Hother). done.
  - intros k Hk. rewrite fmap_cons in Hk. apply not_elem_of_cons in Hk as [Hne Hk]. by rewrite Hout2, Hc1, decide_False.
  - intros k. by rewrite Hf2.
Qed.

(** What an admitted request leaves: each counter of [cs] counts [delta] more in the
    window it had, or in a new one that starts now; no other key changes. *)
Definition counted_all d d' t (cs : list Counter) (delta : Z) : Prop :=
  (forall c, c ∈ cs -> cell d' (as_millis t) (redis_key c) =
     match cell d (as_millis t) (redis_key c) with
     | Some (v, e) => Some (v + delta, e)
     | None => Some (delta, Some (as_millis t + seconds (ctr_limit c) * 1000))
     end) /\
  (forall k, k ∉ redis_key <$> cs -> cell d' (as_millis t) k = cell d (as_millis t) k) /\
  (forall k, fields d' (as_millis t) k = fields d (as_millis t) k).

(** C6: both Redis storages check and update exactly, as long as no call fails and no
    other client comes between the two calls: a request is admitted exactly when
    every counter has room for [delta]; then each of them, and no other key, counts
    [delta] more, in its open window or in a new one of the limit's length; otherwise
    nothing changes.  The blocking and the asynchronous storage give the same answer
    and leave Redis in the same state. *)
Theorem redis_check_and_update_exact t d cs delta :
  cells_ok d (as_millis t) -> Forall (cell_in_range d (as_millis t)) cs ->
  Forall (countable_at d (as_millis t) delta) cs -> Forall (fun c => in_u64 (max_value c)) cs ->
  NoDup (redis_key <$> cs) -> 0 <= delta -> in_i64 delta ->
  exists cs' a d',
    runs t (idle d) (check_and_update cs delta) (Ok (cs', a)) (idle d') /\
    runs t (idle d) (async_check_and_update cs delta) (Ok (cs', a)) (idle d') /\
    Forall2 (redis_annotates d t) cs cs' /\ cells_ok d' (as_millis t) /\
    (a = AuthOk <-> forall c, c ∈ cs -> redis_value d t c + delta <= max_value c) /\
    (if is_ok a then counted_all d d' t cs delta else d' = d).
Proof.
  intros Hok Hr Hcs Hmax Hnd Hd Hdi. set (ms := as_millis t) in *.
  assert (Hover : forall c, c ∈ cs -> over (redis_value d t c) delta c = false <-> redis_value d t c + delta <= max_value c).
  { intros c Hc. rewrite Forall_forall in Hmax, Hcs. destruct (Hcs c Hc) as [_ [_ Hv]].
    rewrite <-not_true_iff_false, (over_spec _ _ _ (Hmax c Hc)). unfold u64_max.
    change (cell_value d ms (redis_key c)) with (redis_value d t c) in Hv. lia. }
  destruct (read_counters_run d t delta cs Hok Hr) as (cs' & Hann & Hrun).
  assert (Heval : runs t (idle d) (evaluate cs delta) (Ok (cs', (fun c => AuthLimited (limit_name (ctr_limit c))) <$>
                    List.find (fun c => over (redis_value d t c) delta c) cs)) (idle d)).
  { unfold evaluate. eapply runs_bind; [apply pool_get_run|exact Hrun]. }
  destruct (List.find (fun c => over (redis_value d t c) delta c) cs) as [c0|] eqn:Hf; simpl in Hrun, Heval.
  - exists cs', (AuthLimited (limit_name (ctr_limit c0))), d. split_and!; [| |done|done| |done].
    + unfold check_and_update. eapply runs_bind; [exact Heval|apply runs_ret].
    + unfold async_check_and_update. rewrite keys_run. runs_step. eapply runs_bind; [exact Hrun|apply runs_ret].
    + split; [done|]. intros Hall. exfalso. apply List.find_some in Hf as [Hin%list_elem_of_In Hov].
      apply not_false_iff_true in Hov. apply Hov, Hover; auto.
  - apply find_none_forall in Hf.
    assert (Hkeys : redis_key <$> cs' = redis_key <$> cs /\ Forall2 (fun c c' => ctr_limit c' = ctr_limit c) cs cs').
    { clear -Hann. induction Hann as [|c c' cs cs' Hc _ [IH1 IH2]]; [by split|]. rewrite !fmap_cons, IH1. split.
      - f_equal. by eapply redis_annotates_key.
      - constructor; [apply Hc|done]. }
    destruct Hkeys as [Hkeys Hlims].
    assert (Hcs' : Forall (countable_at d ms delta) cs').
    { rewrite Forall_forall in Hcs |- *. intros c' Hin. destruct (forall2_elem_r _ _ _ _ Hann Hin) as (c & Hc & Ha).
      destruct (Hcs c Hc) as [Hs Hv]. unfold countable_at. rewrite (redis_annotates_key d t c c' Ha). destruct Ha as (-> & _). done. }
    destruct (redis_update_all_run t d cs' delta) as (d' & R & (l & P) & Hok' & Hin' & Hout' & Hf'); [done..|by rewrite Hkeys|done|].
    exists cs', AuthOk, d'. split_and!; [| |done|done| |].
    + unfold check_and_update. eapply runs_bind; [exact Heval|]. eapply runs_bind; [apply pool_get_run|].
      eapply runs_bind; [exact R|apply runs_ret].
    + unfold async_check_and_update. rewrite keys_run. runs_step. eapply runs_bind; [exact Hrun|].
      eapply runs_bind; [|apply runs_ret]. rewrite <-Hkeys.
      intros w Hw Hst. destruct (conn_call_run t d (fun ms => pipeline ((fun kc => update_script kc.1 kc.2 delta ms) <$> zip (redis_key <$> cs') cs'))
                                   (Ok l) d' P w Hw Hst) as [n Hn].
      exists n. unfold send_pipeline, map_err. rewrite Hn. done.
    + split; [|done]. intros _ c Hc. rewrite Forall_forall in Hf. by apply Hover, Hf.
    + simpl. rewrite Hkeys in Hout'. split_and!; [|done|done]. intros c Hc.
      destruct (forall2_elem_l _ _ _ _ Hann Hc) as (c' & Hc' & Ha).
      rewrite <-(redis_annotates_key d t c c' Ha), (Hin' c' Hc'). destruct Ha as (-> & _). unfold counted_cell.
      destruct (cell d (as_millis t) (redis_key c')) as [[v [e|]]|]; done.
Qed.
End redis_spec.
