(* ===== verification/RedisReserve.v ===== *)
(** * Reservations in Redis: what [SCRIPT_RESERVE] does *)

From S2P Require Import Prelude AtomicExpiringValue Cel Errors Limit Counter Reservation Storage.
From S2P Require Import AsyncStorage StorageSpec Keys Redis RedisStorage RedisSpec.

(** Numbers of at most fourteen digits, which Lua computes and prints exactly. *)
Definition digits (z : Z) : Prop := 0 <= z < 100000000000000.

Lemma lua_num_digits z : 0 <= z < 9007199254740992 -> lua_num z = z.
Proof. intros Hz. apply lua_num_small. lia. Qed.

(** ** Packed holds *)

Lemma str_find_colon_app a b : str_find ":" a = None -> str_find ":" (a +:+ ":" +:+ b) = Some (String.length a).
Proof.
  induction a as [|x a IH]; intros Ha; [by destruct b|].
  change (String x a +:+ ":" +:+ b) with (String x (a +:+ ":" +:+ b)).
  destruct (String.prefix ":" (String x a)) eqn:Hp; [cbn [str_find] in Ha; by rewrite Hp in Ha|].
  assert (Hp' : String.prefix ":" (String x (a +:+ ":" +:+ b)) = false).
  { cbn [String.prefix] in Hp |- *. destruct (Ascii.ascii_dec _ x); [by destruct a|done]. }
  rewrite str_find_skip in Ha |- * by done. cbn [String.length]. destruct (str_find ":" a) eqn:E; [done|].
  by rewrite IH.
Qed.

Lemma substring_app a b : String.substring 0 (String.length a) (a +:+ b) = a.
Proof.
  induction a as [|x a IH]; [by destruct b|]. change (String x a +:+ b) with (String x (a +:+ b)).
  cbn [String.length String.substring]. by rewrite IH.
Qed.

Lemma str_from_colon a b : str_from (S (String.length a)) (a +:+ ":" +:+ b) = b.
Proof.
  induction a as [|x a IH]; [done|]. change (String x a +:+ ":" +:+ b) with (String x (a +:+ ":" +:+ b)).
  cbn [String.length]. cbn [str_from]. exact IH.
Qed.

Lemma str_length_app (a b : string) : String.length (a +:+ b) = (String.length a + String.length b)%nat.
Proof. induction a as [|x a IH]; [done|]. change (String x a +:+ b) with (String x (a +:+ b)). simpl. by rewrite IH. Qed.

Lemma str_app_inj_r (a b c : string) : a +:+ c = b +:+ c -> a = b.
Proof.
  intros H. assert (Hlen : String.length a = String.length b).
  { apply (f_equal String.length) in H. rewrite !str_length_app in H. lia. }
  revert b Hlen H. induction a as [|x a IH]; intros [|y b] Hlen H; try done.
  change (String x (a +:+ c) = String y (b +:+ c)) in H. injection H as -> H. simpl in Hlen.
  f_equal. apply IH; [lia|done].
Qed.

Section holds.
Context {RD : Redis} {RL : RedisLaws}.
Implicit Types (d : rdata) (t now : Z) (k : string).

Lemma unpack_pack a e : digits a -> digits e -> unpack_hold (pack_hold a e) = Some (a, e).
Proof.
  intros Ha He. unfold unpack_hold, pack_hold. rewrite str_find_colon_app by (by apply lua_tostring_digits).
  rewrite substring_app, str_from_colon. by rewrite !lua_tonumber_tostring.
Qed.

(** The amount of a hold that is live at [now]. *)
Definition live_amount now (packed : string) : Z :=
  match unpack_hold packed with Some (a, e) => if e >? now then a else 0 | None => 0 end.

Definition is_live now (packed : string) : bool :=
  match unpack_hold packed with Some (_, e) => e >? now | None => false end.

Definition held_in now (l : list (string * string)) : Z := foldr (fun fp acc => live_amount now fp.2 + acc) 0 l.

(** What is held of a counter by its reservations. *)
Definition held_at d t now rk : Z := held_in now (map_to_list (fields d t rk)).

(** Every hold was written by the script. *)
Definition holds_ok d t : Prop :=
  forall rk f p, fields d t rk !! f = Some p -> exists a e, p = pack_hold a e /\ digits a /\ digits e.

Lemma held_in_perm now l l' : l ≡ₚ l' -> held_in now l = held_in now l'.
Proof. induction 1; simpl; lia. Qed.

Lemma held_in_nonneg now l :
  (forall fp, fp ∈ l -> exists a e, fp.2 = pack_hold a e /\ digits a /\ digits e) -> 0 <= held_in now l.
Proof.
  induction l as [|[f p] l IH]; intros Hl; [done|]. simpl.
  destruct (Hl (f, p)) as (a & e & Hp & Ha & He); [by left|]. simpl in Hp. subst p.
  assert (0 <= held_in now l) by (apply IH; intros fp Hfp; apply Hl; by right).
  unfold live_amount. rewrite unpack_pack by done. unfold digits in *. destruct (e >? now); lia.
Qed.

Lemma hdel_run t0 d t k f :
  runs t0 d (r_call (fun d => inr (r_hdel d t k f))) (Ok (r_hdel d t k f).1) (r_hdel d t k f).2.
Proof. unfold r_call. runs_step. destruct (r_hdel d t k f) as [n d0]. runs_step. apply runs_ret. Qed.

(** Whether the loop meets an expired hold under field [f]. *)
Definition expired_in now f (l : list (string * string)) : bool :=
  existsb (fun fp => bool_decide (fp.1 = f) && negb (is_live now fp.2)) l.

(** The loop over the fields. *)
Lemma sum_held_run d t rk now l held :
  (forall fp, fp ∈ l -> exists a e, fp.2 = pack_hold a e /\ digits a /\ digits e) ->
  0 <= held -> held + held_in now l < 9007199254740992 ->
  exists d', runs 0 d (sum_held t rk now l held) (Ok (held + held_in now l)) d' /\
    (forall k', cell d' t k' = cell d t k') /\
    (forall k', k' <> rk -> fields d' t k' = fields d t k') /\
    (forall f, fields d' t rk !! f = if expired_in now f l then None else fields d t rk !! f).
Proof.
  revert d held. induction l as [|[f p] l IH]; intros d held Hl Hh Hsum.
  { exists d. split_and!; [simpl; rewrite Z.add_0_r; apply runs_ret|done..]. }
  destruct (Hl (f, p)) as (a & e & Hp & Ha & He); [by left|]. simpl in Hp. subst p.
  assert (Hl' : forall fp, fp ∈ l -> exists a e, fp.2 = pack_hold a e /\ digits a /\ digits e)
    by (intros fp Hfp; apply Hl; by right).
  pose proof (held_in_nonneg now l Hl') as Hnn.
  assert (Hun : unpack_hold (pack_hold a e) = Some (a, e)) by (by apply unpack_pack).
  assert (Hex : forall f', expired_in now f' ((f, pack_hold a e) :: l) =
                  (bool_decide (f = f') && negb (e >? now)) || expired_in now f' l).
  { intros f'. unfold expired_in, is_live. simpl. by rewrite Hun. }
  change (held_in now ((f, pack_hold a e) :: l)) with (live_amount now (pack_hold a e) + held_in now l) in *.
  cbn [sum_held]. unfold live_amount in *. rewrite Hun in *. unfold digits in Ha. destruct (e >? now) eqn:Hlive.
  - destruct (IH d (held + a)) as (d' & Hr & Hc & Hf & Hrk); [done|lia|lia|].
    exists d'. split_and!; [|done|done|].
    + unfold lua_add. rewrite lua_num_digits by lia. by rewrite Z.add_assoc.
    + intros f'. by rewrite Hrk, Hex, andb_false_r.
  - destruct (r_hdel_spec d t rk f) as (_ & Hcd & Hfd). set (d1 := (r_hdel d t rk f).2) in *.
    destruct (IH d1 held) as (d' & Hr & Hc & Hf & Hrk); [done|done|lia|].
    exists d'. split_and!.
    + eapply runs_bind; [apply hdel_run|rewrite Z.add_0_l; exact Hr].
    + intros k'. by rewrite Hc, Hcd.
    + intros k' Hne. rewrite Hf by done. by rewrite Hfd, decide_False.
    + intros f'. rewrite Hrk, Hex, Hfd, decide_True by done. simpl. destruct (decide (f = f')) as [<-|Hne].
      * rewrite bool_decide_eq_true_2 by done. simpl. rewrite lookup_delete_eq. by destruct (expired_in now f l).
      * rewrite bool_decide_eq_false_2 by done. by rewrite lookup_delete_ne.
Qed.

(** The holds of a counter that are live. *)
Definition live_fields d t now rk : gmap string string := filter (fun fp => is_live now fp.2 = true) (fields d t rk).

Lemma sum_all_held_run d t rk now :
  holds_ok d t -> held_at d t now rk < 9007199254740992 ->
  exists d', runs 0 d (sum_held t rk now (r_hgetall d t rk) 0) (Ok (held_at d t now rk)) d' /\
    (forall k', cell d' t k' = cell d t k') /\
    (forall k', fields d' t k' = if decide (k' = rk) then live_fields d t now rk else fields d t k').
Proof.
  intros Hok Hlt. unfold held_at in *. pose proof (r_hgetall_spec d t rk) as Hperm.
  rewrite <-(held_in_perm now _ _ Hperm) in Hlt |- *.
  destruct (sum_held_run d t rk now (r_hgetall d t rk) 0) as (d' & Hr & Hc & Hf & Hrk); [|done|lia|].
  { intros [f p] Hin. rewrite Hperm in Hin. apply elem_of_map_to_list in Hin. by apply (Hok rk f). }
  exists d'. split_and!; [done|done|]. intros k'. destruct (decide (k' = rk)) as [->|Hne]; [|by apply Hf].
  apply map_eq. intros f. rewrite Hrk. unfold live_fields.
  assert (Hexp : expired_in now f (r_hgetall d t rk) = true <-> exists p, fields d t rk !! f = Some p /\ is_live now p = false).
  { unfold expired_in. rewrite existsb_exists. split.
    - intros ([f' p] & Hin%list_elem_of_In & [Hf' Hl]%andb_prop). simpl in *. apply bool_decide_eq_true in Hf' as ->.
      rewrite Hperm in Hin. apply elem_of_map_to_list in Hin. exists p. by destruct (is_live now p).
    - intros (p & Hp & Hl). exists (f, p). split; [apply list_elem_of_In; rewrite Hperm; by apply elem_of_map_to_list|].
      simpl. by rewrite bool_decide_eq_true_2, Hl. }
  rewrite map_lookup_filter. destruct (fields d t rk !! f) as [p|] eqn:Hp; simpl.
  - destruct (is_live now p) eqn:Hlive; simpl.
    + destruct (expired_in now f _) eqn:E; [|done]. destruct (proj1 Hexp eq_refl) as (p' & [= <-] & ?). congruence.
    + rewrite (proj2 Hexp) by (by exists p). done.
  - by destruct (expired_in now f _).
Qed.
End holds.

Section reserve_script.
Context {RD : Redis} {RL : RedisLaws}.
Implicit Types (d : rdata) (ms : Z) (k : string) (i : ReserveItem).

(** ** The first loop *)

(** The counter's cell once the script has seen it. *)
Definition opened_cell d ms i : Z * option Z :=
  default (0, Some (ms + ri_window_secs i * 1000)) (cell d ms (ri_counter_key i)).

(** How long the counter's window still lasts. *)
Definition window_left d ms i : Z :=
  match (opened_cell d ms i).2 with Some e => e - ms | None => ri_window_secs i * 1000 end.

Definition item_total d ms i : Z := cell_value d ms (ri_counter_key i) + held_at d ms ms (ri_reservation_key i).

(** The numbers the script computes with for a counter are ones Lua has exactly. *)
Definition item_ok d ms (check_amount : Z) i : Prop :=
  0 < ri_window_secs i /\ ri_window_secs i * 1000 < 9007199254740992 /\
  0 <= ri_max_value i < 9007199254740992 /\
  item_total d ms i + check_amount < 9007199254740992 /\ window_left d ms i < 9007199254740992.

Definition scan_of d ms (check_amount : Z) i : Z * Z * Z * bool :=
  (cell_value d ms (ri_counter_key i), held_at d ms ms (ri_reservation_key i), window_left d ms i,
   item_total d ms i + check_amount <=? ri_max_value i).

Lemma held_at_nonneg d ms now rk : holds_ok d ms -> 0 <= held_at d ms now rk.
Proof. intros Hok. apply held_in_nonneg. intros [f p] Hin. apply elem_of_map_to_list in Hin. by apply (Hok rk f). Qed.

Lemma cell_value_nonneg d ms k : cells_ok d ms -> 0 <= cell_value d ms k.
Proof. intros Hok. unfold cell_value. destruct (cell d ms k) as [[v e]|] eqn:Hc; simpl; [by destruct (Hok _ _ _ Hc)|done]. Qed.

Lemma opened_cell_window d ms i : cells_ok d ms -> 0 < ri_window_secs i ->
  exists e, (opened_cell d ms i).2 = Some e /\ ms < e.
Proof.
  intros Hok Hw. unfold opened_cell. destruct (cell d ms (ri_counter_key i)) as [[v e]|] eqn:Hc; simpl.
  - by destruct (Hok _ _ _ Hc) as [_ ?].
  - eexists. split; [done|lia].
Qed.

(** Opening the counter's window if it has none. *)
Lemma open_cell_run d ms i :
  cells_ok d ms -> 0 < ri_window_secs i ->
  exists d1, runs 0 d
      (if negb (r_exists d ms (ri_counter_key i)) then
         r_write (fun d => r_set_ex d ms (ri_counter_key i) 0 (ri_window_secs i)) ;;;
         r_write (fun d => r_sadd d ms (ri_limit_key i) (ri_counter_key i))
       else ret tt) (Ok tt) d1 /\
    (forall k, cell d1 ms k = if decide (k = ri_counter_key i) then Some (opened_cell d ms i) else cell d ms k) /\
    (forall k, fields d1 ms k = fields d ms k).
Proof.
  intros Hok Hw. unfold opened_cell. destruct (cell d ms (ri_counter_key i)) as [[v e]|] eqn:Hc.
  - exists d. split_and!; [|intros k; by case_decide; subst|done].
    rewrite r_exists_spec, Hc. rewrite bool_decide_eq_true_2 by (by eexists). apply runs_ret.
  - destruct (r_set_ex_spec d ms (ri_counter_key i) 0 (ri_window_secs i) Hw) as [Hc1 Hf1].
    destruct (r_sadd_spec (r_set_ex d ms (ri_counter_key i) 0 (ri_window_secs i)) ms (ri_limit_key i) (ri_counter_key i)) as [Hc2 Hf2].
    eexists. split_and!.
    + rewrite r_exists_spec, Hc. rewrite bool_decide_eq_false_2 by (by intros []). eapply runs_bind; apply runs_write.
    + intros k. by rewrite Hc2, Hc1.
    + intros k. by rewrite Hf2, Hf1.
Qed.

Lemma reserve_scan_run d ms check_amount i :
  cells_ok d ms -> holds_ok d ms -> 0 <= check_amount -> item_ok d ms check_amount i ->
  exists d', runs 0 d (reserve_scan ms check_amount ms i) (Ok (scan_of d ms check_amount i)) d' /\
    (forall k, cell d' ms k = if decide (k = ri_counter_key i) then Some (opened_cell d ms i) else cell d ms k) /\
    (forall k, fields d' ms k =
       if decide (k = ri_reservation_key i) then live_fields d ms ms (ri_reservation_key i) else fields d ms k).
Proof.
  intros Hok Hh Hca (Hw & Hw' & Hmax & Htot & Hleft).
  pose proof (held_at_nonneg d ms ms (ri_reservation_key i) Hh) as Hhn.
  pose proof (cell_value_nonneg d ms (ri_counter_key i) Hok) as Hvn. unfold item_total in Htot.
  destruct (open_cell_run d ms i Hok Hw) as (d1 & R1 & Hc1 & Hf1).
  assert (Hfe : forall k, held_at d1 ms ms k = held_at d ms ms k) by (intros k; unfold held_at; by rewrite Hf1).
  destruct (sum_all_held_run d1 ms (ri_reservation_key i) ms) as (d2 & R2 & Hc2 & Hf2).
  { intros rk f p. rewrite Hf1. apply Hh. }
  { rewrite Hfe. lia. }
  assert (Hcell : cell d1 ms (ri_counter_key i) = Some (opened_cell d ms i)) by (by rewrite Hc1, decide_True).
  assert (Hv : (opened_cell d ms i).1 = cell_value d ms (ri_counter_key i)).
  { unfold opened_cell, cell_value. by destruct (cell d ms _) as [[]|]. }
  destruct (opened_cell_window d ms i Hok Hw) as (e & He & Hlt).
  unfold window_left in Hleft. rewrite He in Hleft.
  assert (Hget : default 0 (r_get d1 ms (ri_counter_key i)) = cell_value d ms (ri_counter_key i))
    by (by rewrite r_get_spec, Hcell).
  assert (Hpttl : r_pttl d1 ms (ri_counter_key i) = e - ms).
  { rewrite r_pttl_spec, Hcell. destruct (opened_cell d ms i) as [v oe]. simpl in He. by subst oe. }
  exists d2. split_and!.
  - unfold reserve_scan. rewrite (lua_num_digits (ri_window_secs i)), (lua_num_digits (ri_max_value i)) by lia.
    eapply runs_bind; [apply runs_read|]. eapply runs_bind; [exact R1|]. do 3 (eapply runs_bind; [apply runs_read|]).
    eapply runs_bind; [exact R2|]. cbv beta zeta. rewrite Hget, Hpttl, Hfe.
    rewrite (lua_num_digits (cell_value d ms _)), (lua_num_digits (e - ms)) by lia.
    rewrite (proj2 (Z.ltb_ge (e - ms) 0)) by lia. unfold lua_add.
    rewrite (lua_num_digits (cell_value d ms _ + _)), lua_num_digits by lia.
    replace (scan_of d ms check_amount i) with
      (cell_value d ms (ri_counter_key i), held_at d ms ms (ri_reservation_key i), e - ms,
       negb (cell_value d ms (ri_counter_key i) + held_at d ms ms (ri_reservation_key i) + check_amount >? ri_max_value i)).
    + apply runs_ret.
    + unfold scan_of, window_left, item_total. rewrite He. f_equal. rewrite Z.gtb_ltb, Z.leb_antisym. done.
  - intros k. by rewrite Hc2, Hc1.
  - intros k. rewrite Hf2. unfold live_fields. by rewrite !Hf1.
Qed.

(** What the first loop leaves: every counter has a window, and its expired holds are gone. *)
Definition scanned d d' ms (items : list ReserveItem) : Prop :=
  (forall i, i ∈ items -> cell d' ms (ri_counter_key i) = Some (opened_cell d ms i)) /\
  (forall k, k ∉ ri_counter_key <$> items -> cell d' ms k = cell d ms k) /\
  (forall i, i ∈ items -> fields d' ms (ri_reservation_key i) = live_fields d ms ms (ri_reservation_key i)) /\
  (forall k, k ∉ ri_reservation_key <$> items -> fields d' ms k = fields d ms k).

Lemma opened_cells_ok d d' ms i :
  cells_ok d ms -> 0 < ri_window_secs i ->
  (forall k, cell d' ms k = if decide (k = ri_counter_key i) then Some (opened_cell d ms i) else cell d ms k) ->
  cells_ok d' ms.
Proof.
  intros Hok Hw Hc k v e. rewrite Hc. case_decide; [|apply Hok]. intros [= Ho].
  destruct (opened_cell_window d ms i Hok Hw) as (e' & He & Hlt). rewrite Ho in He. simpl in He. subst e. split; [|by exists e'].
  unfold opened_cell in Ho. destruct (cell d ms (ri_counter_key i)) as [[v0 e0]|] eqn:Hcl; simpl in Ho; injection Ho as <- _; [|done].
  by destruct (Hok _ _ _ Hcl).
Qed.

Lemma live_holds_ok d d' ms rk :
  holds_ok d ms -> (forall k, fields d' ms k = if decide (k = rk) then live_fields d ms ms rk else fields d ms k) ->
  holds_ok d' ms.
Proof.
  intros Hok Hf k f p. rewrite Hf. case_decide; [|apply Hok]. intros [Hp _]%map_lookup_filter_Some. by eapply Hok.
Qed.

(** A counter is seen as before where its cell and its holds are. *)
Lemma item_frame d d1 ms check_amount i :
  cell d1 ms (ri_counter_key i) = cell d ms (ri_counter_key i) ->
  fields d1 ms (ri_reservation_key i) = fields d ms (ri_reservation_key i) ->
  opened_cell d1 ms i = opened_cell d ms i /\ scan_of d1 ms check_amount i = scan_of d ms check_amount i /\
  live_fields d1 ms ms (ri_reservation_key i) = live_fields d ms ms (ri_reservation_key i) /\
  (item_ok d ms check_amount i -> item_ok d1 ms check_amount i).
Proof.
  intros Hc Hf. unfold item_ok, scan_of, item_total, window_left, opened_cell, cell_value, held_at, live_fields.
  by rewrite Hc, Hf.
Qed.

Lemma scans_run d ms check_amount items :
  cells_ok d ms -> holds_ok d ms -> 0 <= check_amount -> Forall (item_ok d ms check_amount) items ->
  NoDup (ri_counter_key <$> items) -> NoDup (ri_reservation_key <$> items) ->
  exists d', runs 0 d (mapM (reserve_scan ms check_amount ms) items) (Ok (scan_of d ms check_amount <$> items)) d' /\
    scanned d d' ms items /\ cells_ok d' ms /\ holds_ok d' ms.
Proof.
  intros Hok Hh Hca. revert d Hok Hh. induction items as [|i items IH]; intros d Hok Hh Hi Hnd Hnd'.
  { exists d. split_and!; [apply runs_ret| |done|done]. split_and!; [intros i Hin; by apply not_elem_of_nil in Hin|done| |done].
    intros i Hin. by apply not_elem_of_nil in Hin. }
  rewrite fmap_cons in Hnd, Hnd'. apply NoDup_cons in Hnd as [Hn Hnd], Hnd' as [Hn' Hnd']. apply Forall_cons in Hi as [Hii Hi].
  destruct (reserve_scan_run d ms check_amount i Hok Hh Hca Hii) as (d1 & R1 & Hc1 & Hf1).
  assert (Hfr : forall j, j ∈ items -> cell d1 ms (ri_counter_key j) = cell d ms (ri_counter_key j) /\
                            fields d1 ms (ri_reservation_key j) = fields d ms (ri_reservation_key j)).
  { intros j Hj. rewrite Hc1, Hf1, !decide_False; [done|..]; intros Heq; [apply Hn'|apply Hn];
      rewrite <-Heq; apply list_elem_of_fmap; by exists j. }
  destruct (IH d1) as (d' & R & (S1 & S2 & S3 & S4) & Hok' & Hh'); [|by eapply live_holds_ok| |done|done|].
  { eapply opened_cells_ok; [done| |done]. apply Hii. }
  { rewrite Forall_forall in Hi |- *. intros j Hj. destruct (Hfr j Hj). apply (item_frame d d1 ms check_amount j); auto. }
  exists d'. split_and!; [|split_and!|done|done].
  - cbn [mapM]. rewrite fmap_cons. eapply runs_bind; [exact R1|]. eapply runs_bind; [exact R|].
    replace (scan_of d1 ms check_amount <$> items) with (scan_of d ms check_amount <$> items); [apply runs_ret|].
    apply list_fmap_ext. intros n j Hj%list_elem_of_lookup_2. destruct (Hfr j Hj). symmetry. by apply item_frame.
  - intros j Hj. apply elem_of_cons in Hj as [->|Hj]; [by rewrite S2, Hc1, decide_True|]. destruct (Hfr j Hj).
    rewrite S1 by done. f_equal. by apply (item_frame d d1 ms check_amount j).
  - intros k Hk. rewrite fmap_cons in Hk. apply not_elem_of_cons in Hk as [Hne Hk]. by rewrite S2, Hc1, decide_False.
  - intros j Hj. apply elem_of_cons in Hj as [->|Hj]; [by rewrite S4, Hf1, decide_True|]. destruct (Hfr j Hj).
    rewrite S3 by done. by apply (item_frame d d1 ms check_amount j).
  - intros k Hk. rewrite fmap_cons in Hk. apply not_elem_of_cons in Hk as [Hne Hk]. by rewrite S4, Hf1, decide_False.
Qed.

(** ** The second loop *)

(** When a hold taken at [ms] for [ttl] ends: not after the window. *)
Definition hold_end d ms ttl i : Z := Z.min (ms + ttl) (ms + window_left d ms i).

Lemma writes_run d0 d ms hold ttl id check_amount items :
  0 <= ms -> 0 <= ttl -> ms + ttl < 9007199254740992 -> NoDup (ri_reservation_key <$> items) ->
  Forall (fun i => 0 < window_left d0 ms i /\ ms + window_left d0 ms i < 9007199254740992) items ->
  exists d', runs 0 d (for_each (fun p => reserve_write ms hold ttl ms id p.1 p.2.1.2)
                         (zip items (scan_of d0 ms check_amount <$> items))) (Ok tt) d' /\
    (forall k, cell d' ms k = cell d ms k) /\
    (forall i, i ∈ items -> fields d' ms (ri_reservation_key i) =
       <[id := pack_hold hold (hold_end d0 ms ttl i)]> (fields d ms (ri_reservation_key i))) /\
    (forall k, k ∉ ri_reservation_key <$> items -> fields d' ms k = fields d ms k).
Proof.
  intros Hms Httl Hend. revert d. induction items as [|i items IH]; intros d Hnd Hi.
  { exists d. split_and!; [apply runs_ret|done| |done]. intros i Hin. by apply not_elem_of_nil in Hin. }
  rewrite fmap_cons in Hnd. apply NoDup_cons in Hnd as [Hn Hnd]. apply Forall_cons in Hi as [[Hl Hl'] Hi].
  set (p := pack_hold hold (hold_end d0 ms ttl i)).
  destruct (r_hset_spec d ms (ri_reservation_key i) id p) as [Hc1 Hf1].
  set (d1 := r_hset d ms (ri_reservation_key i) id p) in *.
  destruct (r_pexpire_spec d1 ms (ri_reservation_key i) (window_left d0 ms i) Hl) as [Hc2 Hf2].
  set (d2 := r_pexpire d1 ms (ri_reservation_key i) (window_left d0 ms i)) in *.
  destruct (IH d2 Hnd Hi) as (d' & R & Hc & Hf & Hf').
  exists d'. split_and!.
  - rewrite fmap_cons. cbn [zip zip_with for_each]. eapply runs_bind; [|exact R]. unfold reserve_write. cbn [fst snd scan_of].
    unfold lua_add. rewrite !lua_num_digits by lia.
    replace (if ms + ttl >? ms + window_left d0 ms i then ms + window_left d0 ms i else ms + ttl) with (hold_end d0 ms ttl i);
      [eapply runs_bind; apply runs_write|].
    unfold hold_end. destruct (Z.gtb_spec (ms + ttl) (ms + window_left d0 ms i)); lia.
  - intros k. by rewrite Hc, Hc2, Hc1.
  - intros j Hj. apply elem_of_cons in Hj as [->|Hj]; [by rewrite Hf', Hf2, Hf1, decide_True|].
    rewrite (Hf j Hj), Hf2, Hf1, decide_False; [done|]. intros Heq. apply Hn. rewrite <-Heq. apply list_elem_of_fmap. by exists j.
  - intros k Hk. rewrite fmap_cons in Hk. apply not_elem_of_cons in Hk as [Hne Hk]. by rewrite Hf', Hf2, Hf1, decide_False.
Qed.
End reserve_script.

(** ** The storages *)

Section reserve_spec.
Context {CE : CelEngine} {HO : HashOrder} {PC : Postcard} {SJ : SerdeJson} {RD : Redis} {RL : RedisLaws}.
Implicit Types (d : rdata) (t : SystemTime) (c : Counter).

Definition reservation_key c : string := redis_key c +:+ ",reservations".

Definition item_of c : ReserveItem :=
  mkReserveItem (redis_key c) (reservation_key c) (key_for_counters_of_limit (ctr_limit c))
    (seconds (ctr_limit c)) (max_value c).

Lemma reserve_items_run cs : map_outcome reserve_item cs = Ok (item_of <$> cs).
Proof.
  induction cs as [|c cs IH]; [done|]. cbn [map_outcome]. rewrite IH. unfold reserve_item, key_for_reservations.
  rewrite key_for_counter_run. cbn [outcome_bind]. by rewrite as_secs_window.
Qed.

(** What the reservations of a counter hold of it. *)
Definition redis_held d t c : Z := held_at d (as_millis t) (as_millis t) (reservation_key c).

(** What a caller learns of a counter when [granted] is held for it. *)
Definition reserve_annotates d t granted c c' : Prop :=
  ctr_limit c' = ctr_limit c /\ set_variables c' = set_variables c /\
  remaining c' = Some (Z.max 0 (max_value c - (redis_value d t c + redis_held d t c + granted))) /\
  expires_in c' = Some (from_millis (window_left d (as_millis t) (item_of c))).

Definition scan_reply (s : Z * Z * Z * bool) : list Z := [s.1.1.1; s.1.1.2; s.1.2].

(** A counter's numbers are small enough for the script and the code that reads its reply. *)
Definition reservable d t check_amount c : Prop := item_ok d (as_millis t) check_amount (item_of c).

Definition reserve_over d t check_amount c : bool := redis_value d t c + redis_held d t c + check_amount >? max_value c.

Lemma annotate_reserved_run d t check_amount granted fl cs tl :
  let ms := as_millis t in
  cells_ok d ms -> holds_ok d ms -> 0 <= granted <= check_amount -> Forall (reservable d t check_amount) cs ->
  exists cs', Forall2 (reserve_annotates d t granted) cs cs' /\
    annotate_reserved check_amount granted fl cs
      (concat (scan_reply <$> (scan_of d ms check_amount <$> (item_of <$> cs))) ++ tl) =
    Ok (cs', match fl with
             | Some n => Some n
             | None => (fun c => limit_name (ctr_limit c)) <$> List.find (reserve_over d t check_amount) cs
             end).
Proof.
  intros ms Hok Hh Hg. revert fl. induction cs as [|c cs IH]; intros fl Hcs.
  { exists []. split; [constructor|]. by destruct fl. }
  apply Forall_cons in Hcs as [(Hw & _ & Hmax & Htot & Hleft) Hcs]. fold ms in Hleft, Htot.
  change (item_total d ms (item_of c)) with (redis_value d t c + redis_held d t c) in Htot.
  assert (Hv : 0 <= redis_value d t c) by (by apply cell_value_nonneg).
  assert (Hhd : 0 <= redis_held d t c) by (by apply held_at_nonneg).
  assert (Hlp : 0 < window_left d ms (item_of c)).
  { destruct (opened_cell_window d ms (item_of c) Hok Hw) as (e & He & Hlt). unfold window_left. rewrite He. lia. }
  set (fl1 := match fl with
              | Some n => Some n
              | None => if reserve_over d t check_amount c then Some (limit_name (ctr_limit c)) else None
              end).
  destruct (IH fl1 Hcs) as (cs' & Hann & Hrun).
  exists (set_expires_in (set_remaining c (Z.max 0 (max_value c - (redis_value d t c + redis_held d t c + granted))))
            (from_millis (window_left d ms (item_of c))) :: cs').
  split; [by constructor|]. rewrite !fmap_cons. cbn [concat scan_reply app annotate_reserved scan_of fst snd].
  change (cell_value d ms (ri_counter_key (item_of c))) with (redis_value d t c).
  change (held_at d ms ms (ri_reservation_key (item_of c))) with (redis_held d t c).
  rewrite !Z.max_l by lia. rewrite !u64_add_small by (unfold u64_max; lia || (rewrite u64_add_small; unfold u64_max; lia)).
  change (max_value (set_expires_in _ _)) with (max_value c). change (ctr_limit (set_expires_in _ _)) with (ctr_limit c).
  fold (reserve_over d t check_amount c). fold fl1. rewrite Hrun. cbn [outcome_bind fst snd]. do 2 f_equal.
  - f_equal. do 2 f_equal. unfold u64_checked_sub. destruct (Z.ltb_spec (max_value c) (redis_value d t c + redis_held d t c + granted)); simpl; lia.
  - unfold fl1. destruct fl; [done|]. cbn [List.find]. by destruct (reserve_over d t check_amount c).
Qed.

(** What a reservation leaves in Redis: every counter of [cs] has its value and a window,
    its expired holds are gone, the new hold is there if it was [granted]; no other key
    changes. *)
Definition reserved d d' t (cs : list Counter) (id : ReservationId) (granted : bool) (hold ttl : Z) : Prop :=
  (forall c, c ∈ cs -> cell d' (as_millis t) (redis_key c) = Some (opened_cell d (as_millis t) (item_of c))) /\
  (forall k, k ∉ redis_key <$> cs -> cell d' (as_millis t) k = cell d (as_millis t) k) /\
  (forall c, c ∈ cs ->
     fields d' (as_millis t) (reservation_key c) =
       let live := live_fields d (as_millis t) (as_millis t) (reservation_key c) in
       if granted then <[id := pack_hold hold (hold_end d (as_millis t) ttl (item_of c))]> live else live) /\
  (forall k, k ∉ reservation_key <$> cs -> fields d' (as_millis t) k = fields d (as_millis t) k).

Lemma reservation_keys_nodup cs : NoDup (redis_key <$> cs) -> NoDup (reservation_key <$> cs).
Proof.
  intros Hnd. replace (reservation_key <$> cs) with ((fun k => k +:+ ",reservations") <$> (redis_key <$> cs))
    by (by rewrite <-list_fmap_compose). apply NoDup_fmap_2; [|done]. intros a b. apply str_app_inj_r.
Qed.

Lemma last_snoc {A} (l : list A) x : last (l ++ [x]) = Some x.
Proof. by rewrite last_app. Qed.

(** The script on the counters of a request. *)
Lemma script_reserve_run d t cs id check_amount hold ttl :
  let ms := as_millis t in
  cells_ok d ms -> holds_ok d ms -> Forall (reservable d t check_amount) cs -> NoDup (redis_key <$> cs) ->
  0 <= hold <= check_amount -> check_amount < 9007199254740992 -> 0 <= ms -> 0 <= ttl ->
  ms + ttl < 9007199254740992 ->
  Forall (fun c => ms + window_left d ms (item_of c) < 9007199254740992) cs ->
  let admitted := forallb (fun c => negb (reserve_over d t check_amount c)) cs in
  exists d', runs 0 d (script_reserve ms (item_of <$> cs) check_amount hold ttl id ms)
      (Ok (concat (scan_reply <$> (scan_of d ms check_amount <$> (item_of <$> cs))) ++ [if admitted then 1 else 0])) d' /\
    reserved d d' t cs id (admitted && (hold >? 0)) hold ttl /\ cells_ok d' ms.
Proof.
  intros ms Hok Hh Hcs Hnd Hhold Hca Hms Httl Hend Hwin admitted.
  assert (Hk1 : ri_counter_key <$> (item_of <$> cs) = redis_key <$> cs) by (by rewrite <-list_fmap_compose).
  assert (Hk2 : ri_reservation_key <$> (item_of <$> cs) = reservation_key <$> cs) by (by rewrite <-list_fmap_compose).
  assert (Hin : forall c, c ∈ cs -> item_of c ∈ item_of <$> cs) by (intros c Hc; apply list_elem_of_fmap; by exists c).
  destruct (scans_run d ms check_amount (item_of <$> cs)) as (d1 & R1 & (S1 & S2 & S3 & S4) & Hok1 & _);
    [done|done|lia|by apply Forall_fmap|by rewrite Hk1|rewrite Hk2; by apply reservation_keys_nodup|].
  rewrite Hk1 in S2. rewrite Hk2 in S4.
  assert (Hadm : forallb snd (scan_of d ms check_amount <$> (item_of <$> cs)) = admitted).
  { unfold admitted. clear. induction cs as [|c cs IH]; [done|]. rewrite !fmap_cons. cbn [forallb]. rewrite IH. f_equal.
    cbn [scan_of snd]. unfold reserve_over. rewrite Z.gtb_ltb, <-Z.leb_antisym. done. }
  assert (Hscript : forall d', runs 0 d1
       (if admitted && (hold >? 0)
        then for_each (fun p => reserve_write ms hold ttl ms id p.1 p.2.1.2)
               (zip (item_of <$> cs) (scan_of d ms check_amount <$> (item_of <$> cs)))
        else ret tt) (Ok tt) d' ->
     runs 0 d (script_reserve ms (item_of <$> cs) check_amount hold ttl id ms)
      (Ok (concat (scan_reply <$> (scan_of d ms check_amount <$> (item_of <$> cs))) ++ [if admitted then 1 else 0])) d').
  { intros d' R. unfold script_reserve. rewrite !lua_num_digits by lia. eapply runs_bind; [exact R1|].
    cbv zeta. rewrite Hadm. eapply runs_bind; [exact R|]. apply runs_ret. }
  destruct (admitted && (hold >? 0)) eqn:Hw.
  - destruct (writes_run d d1 ms hold ttl id check_amount (item_of <$> cs)) as (d' & R & Hc & Hf & Hf');
      [done|done|done|rewrite Hk2; by apply reservation_keys_nodup| |].
    { rewrite Forall_fmap. rewrite Forall_forall in Hcs, Hwin |- *. intros c Hc. split; [|by apply Hwin].
      destruct (Hcs c Hc) as (Hs & _). destruct (opened_cell_window d ms (item_of c) Hok Hs) as (e & He & Hlt).
      unfold window_left. rewrite He. lia. }
    rewrite Hk2 in Hf'. exists d'. split_and!; [by apply Hscript| |].
    + split_and!; fold ms.
      * intros c Hcc. rewrite Hc. by apply (S1 (item_of c)), Hin.
      * intros k Hk. rewrite Hc. by apply S2.
      * intros c Hcc. change (reservation_key c) with (ri_reservation_key (item_of c)).
        rewrite (Hf (item_of c)) by (by apply Hin). by rewrite (S3 (item_of c)) by (by apply Hin).
      * intros k Hk. rewrite Hf' by done. by apply S4.
    + intros k v e. rewrite Hc. apply Hok1.
  - exists d1. split_and!; [apply Hscript, runs_ret| |done]. split_and!; fold ms; [|done| |done].
    + intros c Hcc. by apply (S1 (item_of c)), Hin.
    + intros c Hcc. by apply (S3 (item_of c)), Hin.
Qed.

Lemma now_ms_run t (s : Conn) :
  0 <= t -> as_millis t <= 9223372036854775807 -> runs t s now_ms (Ok (as_millis t)) s.
Proof.
  intros Ht Hm. unfold now_ms. runs_step. unfold duration_since, UNIX_EPOCH. rewrite (proj2 (Z.leb_le 0 t)) by done.
  rewrite Z.sub_0_r. assert (0 <= as_millis t) by (unfold as_millis; apply Z.div_pos; lia).
  replace (as_i64 (as_millis t)) with (as_millis t); [apply runs_ret|].
  unfold as_i64. rewrite Z.mod_small; lia.
Qed.

Lemma redis_reserve_run t d cs id check_amount hold_amount ttl :
  let ms := as_millis t in
  cells_ok d ms -> holds_ok d ms -> Forall (reservable d t check_amount) cs -> NoDup (redis_key <$> cs) ->
  0 <= hold_amount <= check_amount -> check_amount < 9007199254740992 -> 0 <= t -> 0 <= ttl ->
  ms + as_millis ttl < 9007199254740992 ->
  Forall (fun c => ms + window_left d ms (item_of c) < 9007199254740992) cs ->
  exists cs' a d',
    runs t (idle d) (reserve_in_redis cs id check_amount hold_amount ttl) (Ok (cs', a)) (idle d') /\
    runs t (idle d) (reserve cs id check_amount hold_amount ttl) (Ok (cs', a)) (idle d') /\
    (a = AuthOk <-> forall c, c ∈ cs -> redis_value d t c + redis_held d t c + check_amount <= max_value c) /\
    Forall2 (reserve_annotates d t (if is_ok a then hold_amount else 0)) cs cs' /\
    reserved d d' t cs id (is_ok a && (hold_amount >? 0)) hold_amount (as_millis ttl).
Proof.
  intros ms Hok Hh Hcs Hnd Hhold Hca Ht Httl Hend Hwin.
  assert (Hms : 0 <= ms) by (unfold ms, as_millis; apply Z.div_pos; lia).
  assert (Httl' : 0 <= as_millis ttl) by (unfold as_millis; apply Z.div_pos; lia).
  destruct (script_reserve_run d t cs id check_amount hold_amount (as_millis ttl)) as (d' & R & Hres & _); [done..|].
  fold ms in R. set (admitted := forallb (fun c => negb (reserve_over d t check_amount c)) cs) in *.
  destruct (annotate_reserved_run d t check_amount (if admitted then hold_amount else 0) None cs [if admitted then 1 else 0])
    as (cs' & Hann & Hrun); [done|done|destruct admitted; lia|done|]. fold ms in Hrun.
  set (a := if admitted then AuthOk
            else AuthLimited (default None ((fun c => limit_name (ctr_limit c)) <$> List.find (reserve_over d t check_amount) cs))).
  assert (Ha : is_ok a = admitted) by (unfold a; by destruct admitted).
  assert (Hr : runs t (idle d) (reserve_in_redis cs id check_amount hold_amount ttl) (Ok (cs', a)) (idle d')).
  { unfold reserve_in_redis. eapply runs_bind; [apply now_ms_run; [done|fold ms; lia]|]. rewrite reserve_items_run. runs_step.
    replace (as_i64 (as_millis ttl)) with (as_millis ttl) by (unfold as_i64; rewrite Z.mod_small; lia).
    eapply runs_bind; [apply try_call_run; exact R|]. cbv zeta. rewrite last_snoc.
    replace (default 0 (Some (if admitted then 1 else 0)) =? 1) with admitted by (by destruct admitted). rewrite Hrun.
    eapply runs_bind; [apply runs_lift|]. cbv beta iota. unfold a. destruct admitted; apply runs_ret. }
  exists cs', a, d'. rewrite Ha. split_and!; [done| | |done|done].
  - unfold reserve. eapply runs_bind; [apply pool_get_run|done].
  - assert (Hao : a = AuthOk <-> admitted = true) by (unfold a; by destruct admitted). rewrite Hao. unfold admitted.
    rewrite forallb_forall. split; intros H c Hc.
    + apply list_elem_of_In in Hc. specialize (H c Hc). unfold reserve_over in H. rewrite Z.gtb_ltb in H. lia.
    + apply list_elem_of_In in Hc. specialize (H c Hc). unfold reserve_over. rewrite Z.gtb_ltb. lia.
Qed.

(** C13: reserving in Redis, as long as the call does not fail: the reservation is
    admitted exactly when every counter has room for [check_amount] beside what is
    counted and what live reservations hold.  If it is, each counter holds
    [hold_amount] more under the reservation's id, until [ttl] has passed or the
    window ends; if it is not, no counter holds more.  Values do not change, holds
    that have expired are dropped, a counter without a window gets one, and no other
    key changes.  The blocking storage does what the asynchronous one does. *)
Theorem redis_reserve_exact t d cs id check_amount hold_amount ttl :
  let ms := as_millis t in
  cells_ok d ms -> holds_ok d ms -> Forall (reservable d t check_amount) cs -> NoDup (redis_key <$> cs) ->
  0 <= hold_amount <= check_amount -> check_amount < 9007199254740992 -> 0 <= t -> 0 <= ttl ->
  ms + as_millis ttl < 9007199254740992 ->
  Forall (fun c => ms + window_left d ms (item_of c) < 9007199254740992) cs ->
  exists cs' a d',
    runs t (idle d) (reserve_in_redis cs id check_amount hold_amount ttl) (Ok (cs', a)) (idle d') /\
    runs t (idle d) (reserve cs id check_amount hold_amount ttl) (Ok (cs', a)) (idle d') /\
    (a = AuthOk <-> forall c, c ∈ cs -> redis_value d t c + redis_held d t c + check_amount <= max_value c) /\
    Forall2 (reserve_annotates d t (if is_ok a then hold_amount else 0)) cs cs' /\
    reserved d d' t cs id (is_ok a && (hold_amount >? 0)) hold_amount (as_millis ttl).
Proof. apply redis_reserve_run. Qed.

(** ** Releasing *)

Lemma reservation_keys_run {E} cs : map_outcome (E := E) key_for_reservations cs = Ok (reservation_key <$> cs).
Proof.
  induction cs as [|c cs IH]; [done|]. cbn [map_outcome]. rewrite IH. unfold key_for_reservations.
  by rewrite key_for_counter_run.
Qed.

Lemma hdels_run d ms id ks :
  NoDup ks ->
  exists d', runs 0 d (pipeline ((fun k => r_call (fun d => inr (r_hdel d ms k id))) <$> ks))
      (Ok ((fun k => if decide (is_Some (fields d ms k !! id)) then 1 else 0) <$> ks)) d' /\
    (forall k, cell d' ms k = cell d ms k) /\
    (forall k, fields d' ms k = if decide (k ∈ ks) then delete id (fields d ms k) else fields d ms k).
Proof.
  revert d. induction ks as [|k ks IH]; intros d Hnd; [exists d; split_and!; [apply runs_ret|done|done]|].
  apply NoDup_cons in Hnd as [Hn Hnd]. destruct (r_hdel_spec d ms k id) as (Hret & Hc & Hf).
  destruct (IH (r_hdel d ms k id).2 Hnd) as (d' & R & Hc' & Hf').
  exists d'. split_and!.
  - rewrite !fmap_cons. rewrite <-Hret.
    replace ((fun k => if decide (is_Some (fields d ms k !! id)) then 1 else 0) <$> ks)
      with ((fun k' => if decide (is_Some (fields (r_hdel d ms k id).2 ms k' !! id)) then 1 else 0) <$> ks).
    + eapply pipeline_cons; [apply hdel_run|exact R].
    + apply list_fmap_ext. intros n k' Hk'%list_elem_of_lookup_2. by rewrite Hf, (decide_False (P := k' = k)) by (by intros ->).
  - intros k'. by rewrite Hc', Hc.
  - intros k'. rewrite Hf', Hf. destruct (decide (k' = k)) as [->|Hne].
    + rewrite decide_False by done. by rewrite decide_True by (by left).
    + destruct (decide (k' ∈ ks)); [by rewrite decide_True by (by right)|]. rewrite decide_False; [done|].
      by intros [->|?]%elem_of_cons.
Qed.

(** Releasing removes the reservation's holds, and says whether there was one. *)
Lemma release_run t d cs id :
  let ms := as_millis t in NoDup (redis_key <$> cs) ->
  exists d', runs t (idle d) (release_in_redis cs id)
      (Ok (existsb (fun c => bool_decide (is_Some (fields d ms (reservation_key c) !! id))) cs)) (idle d') /\
    (forall k, cell d' ms k = cell d ms k) /\
    (forall k, fields d' ms k = if decide (k ∈ reservation_key <$> cs) then delete id (fields d ms k) else fields d ms k).
Proof.
  intros ms Hnd. apply reservation_keys_nodup in Hnd.
  destruct (hdels_run d ms id _ Hnd) as (d' & R & Hc & Hf). exists d'. split_and!; [|done|done].
  unfold release_in_redis. rewrite reservation_keys_run. runs_step.
  eapply runs_bind; [apply (try_call_run t d (fun ms => pipeline ((fun k => r_call (fun d => inr (r_hdel d ms k id))) <$> (reservation_key <$> cs)))); exact R|].
  cbv beta. match goal with |- runs _ _ (ret ?b) (Ok ?b') _ => replace b with b'; [apply runs_ret|] end.
  clear. induction cs as [|c cs IH]; [done|]. rewrite !fmap_cons. cbn [existsb]. rewrite <-IH. f_equal.
  by destruct (decide (is_Some (fields d ms (reservation_key c) !! id))) as [H|H];
    [rewrite bool_decide_eq_true_2|rewrite bool_decide_eq_false_2].
Qed.

(** A reservation that was admitted holds what it asked for, and releasing it
    gives exactly that back: the release finds it, afterwards each of its counters
    has the live holds it had before the reservation, and its value. *)
Theorem redis_release_undoes_reserve t d cs id check_amount hold_amount ttl cs' s' :
  let ms := as_millis t in
  cells_ok d ms -> holds_ok d ms -> Forall (reservable d t check_amount) cs -> NoDup (redis_key <$> cs) ->
  0 < hold_amount <= check_amount -> check_amount < 9007199254740992 -> 0 <= t -> 0 <= ttl ->
  ms + as_millis ttl < 9007199254740992 ->
  Forall (fun c => ms + window_left d ms (item_of c) < 9007199254740992) cs ->
  cs <> [] -> Forall (fun c => fields d ms (reservation_key c) !! id = None) cs ->
  runs t (idle d) (reserve cs id check_amount hold_amount ttl) (Ok (cs', AuthOk)) s' ->
  exists d'',
    runs t s' (release_reservation cs id) (Ok true) (idle d'') /\
    (forall c, c ∈ cs -> redis_value d'' t c = redis_value d t c /\
       fields d'' ms (reservation_key c) = live_fields d ms ms (reservation_key c)) /\
    (forall k, k ∉ reservation_key <$> cs -> fields d'' ms k = fields d ms k).
Proof.
  intros ms Hok Hh Hcs Hnd Hhold Hca Ht Httl Hend Hwin Hne Hfresh Hrun.
  destruct (redis_reserve_run t d cs id check_amount hold_amount ttl) as (cs1 & a & d' & _ & R & _ & _ & Hres);
    [done..|lia|done|done|done|done|done|].
  destruct (runs_det _ _ _ _ _ _ _ Hrun R) as [[= <- <-] ->]. fold ms in Hres.
  replace (is_ok AuthOk && (hold_amount >? 0)) with true in Hres by (simpl; lia).
  destruct Hres as (H1 & H2 & H3 & H4). fold ms in H1, H2, H3, H4. cbv zeta in H3.
  destruct (release_run t d' cs id Hnd) as (d'' & R'' & Hc & Hf). fold ms in R'', Hc, Hf.
  exists d''. split_and!.
  - unfold release_reservation. rewrite bool_decide_eq_false_2 by done. eapply runs_bind; [apply pool_get_run|].
    match type of R'' with runs _ _ _ (Ok ?b) _ => replace b with true in R'' end; [done|]. symmetry.
    destruct cs as [|c cs]; [done|]. cbn [existsb]. rewrite H3 by (by left). rewrite lookup_insert_eq. done.
  - intros c Hc'. split.
    + unfold redis_value, cell_value. fold ms. rewrite Hc, H1 by done. unfold opened_cell. simpl.
      by destruct (cell d ms (redis_key c)) as [[]|].
    + rewrite Hf, decide_True by (apply list_elem_of_fmap; by exists c). rewrite H3 by done.
      rewrite delete_insert_id; [done|]. apply map_lookup_filter_None_2. left. rewrite Forall_forall in Hfresh. by apply Hfresh.
  - intros k Hk. rewrite Hf, decide_False by done. by apply H4.
Qed.
End reserve_spec.
