(* ===== verification/RedisExamples.v ===== *)
(** * A Redis that keeps its promises, and the storages on it

    [demo_redis] keeps strings, hashes and sets in maps, with the time a key
    expires; it satisfies [RedisLaws].  The examples run the storages on it. *)

From Stdlib Require Import DecimalString DecimalZ.
From S2P Require Import Prelude AtomicExpiringValue Cel Errors Limit Counter Reservation Storage.
From S2P Require Import AsyncStorage StorageSpec Keys Redis RedisStorage RedisSpec RedisReserve.

(** ** The server *)

Record DemoData : Type := mkDemoData {
  dd_strings : gmap string (Z * option Z);
  dd_hashes : gmap string (gmap string string * option Z);
  dd_sets : gmap string (gset string)
}.

Definition not_expired (t : Z) (e : option Z) : bool := match e with Some e => t <? e | None => true end.

Definition demo_cell (d : DemoData) (t : Z) (k : string) : option (Z * option Z) :=
  match dd_strings d !! k with
  | Some (v, e) => if not_expired t e then Some (v, e) else None
  | None => None
  end.

Definition demo_hash (d : DemoData) (t : Z) (k : string) : gmap string string * option Z :=
  match dd_hashes d !! k with
  | Some (m, e) => if not_expired t e then (m, e) else (∅, None)
  | None => (∅, None)
  end.

Definition demo_put (d : DemoData) (k : string) (c : Z * option Z) : DemoData :=
  mkDemoData (<[k := c]> (dd_strings d)) (dd_hashes d) (dd_sets d).

Definition demo_put_hash (d : DemoData) (k : string) (h : gmap string string * option Z) : DemoData :=
  mkDemoData (dd_strings d) (if decide (h.1 = ∅) then delete k (dd_hashes d) else <[k := h]> (dd_hashes d)) (dd_sets d).

Definition demo_error : RedisError :=
  mkRedisError "increment or decrement would overflow" false false false false false.

Definition demo_redis : Redis := {|
  rdata := DemoData;
  r_get d t k := fst <$> demo_cell d t k;
  r_exists d t k := bool_decide (is_Some (demo_cell d t k));
  r_ttl d t k := match demo_cell d t k with None => -2 | Some (_, None) => -1 | Some (_, Some e) => (e - t + 500) / 1000 end;
  r_pttl d t k := match demo_cell d t k with None => -2 | Some (_, None) => -1 | Some (_, Some e) => e - t end;
  r_pexpiretime d t k := match demo_cell d t k with None => -2 | Some (_, None) => -1 | Some (_, Some e) => e end;
  r_incrby d t k n :=
    let v := default 0 (fst <$> demo_cell d t k) + n in
    if (-9223372036854775808 <=? v) && (v <=? 9223372036854775807)
    then inr (v, demo_put d k (v, demo_cell d t k ≫= snd)) else inl demo_error;
  r_set_ex d t k v secs := demo_put d k (v, Some (t + secs * 1000));
  r_expire_nx d t k secs :=
    match demo_cell d t k with
    | Some (v, None) => demo_put d k (v, Some (t + secs * 1000))
    | _ => d
    end;
  r_del d t k := mkDemoData (delete k (dd_strings d)) (delete k (dd_hashes d)) (delete k (dd_sets d));
  r_sadd d t k x := mkDemoData (dd_strings d) (dd_hashes d) (<[k := {[x]} ∪ default ∅ (dd_sets d !! k)]> (dd_sets d));
  r_smembers d t k := elements (default ∅ (dd_sets d !! k));
  r_hgetall d t k := map_to_list (demo_hash d t k).1;
  r_hset d t k f x := demo_put_hash d k (<[f := x]> (demo_hash d t k).1, (demo_hash d t k).2);
  r_hdel d t k f :=
    (if decide (is_Some ((demo_hash d t k).1 !! f)) then 1 else 0,
     demo_put_hash d k (delete f (demo_hash d t k).1, (demo_hash d t k).2));
  r_pexpire d t k ms := demo_put_hash d k ((demo_hash d t k).1, Some (t + ms));
  r_flushdb d t := mkDemoData ∅ ∅ ∅;
  lua_tostring z := NilZero.string_of_int (Z.to_int z);
  lua_tonumber s := Z.of_int <$> NilZero.int_of_string s;
  reply_as_u64 z := if z <? 0 then inl demo_error else inr z
|}.

Lemma demo_put_cell d t k v e k' : not_expired t e = true ->
  demo_cell (demo_put d k (v, e)) t k' = if decide (k' = k) then Some (v, e) else demo_cell d t k'.
Proof.
  intros He. unfold demo_cell, demo_put. cbn [dd_strings]. destruct (decide (k' = k)) as [->|Hne].
  - by rewrite lookup_insert_eq, He.
  - by rewrite lookup_insert_ne by done.
Qed.

Lemma demo_put_hash_fields d t k m e k' : not_expired t e = true ->
  (demo_hash (demo_put_hash d k (m, e)) t k').1 = if decide (k' = k) then m else (demo_hash d t k').1.
Proof.
  intros He. unfold demo_hash, demo_put_hash. cbn [dd_hashes fst]. destruct (decide (m = ∅)) as [->|]; destruct (decide (k' = k)) as [->|Hne].
  - by rewrite lookup_delete_eq.
  - by rewrite lookup_delete_ne by done.
  - by rewrite lookup_insert_eq, He.
  - by rewrite lookup_insert_ne by done.
Qed.

Lemma demo_cell_expiry d t k : not_expired t (demo_cell d t k ≫= snd) = true.
Proof. unfold demo_cell. destruct (dd_strings d !! k) as [[v e]|]; [|done]. by destruct (not_expired t e) eqn:E. Qed.

Lemma demo_hash_expiry d t k : not_expired t (demo_hash d t k).2 = true.
Proof. unfold demo_hash. destruct (dd_hashes d !! k) as [[v e]|]; [|done]. by destruct (not_expired t e) eqn:E. Qed.

Lemma uint_no_colon u : str_find ":" (NilEmpty.string_of_uint u) = None.
Proof.
  induction u as [|u IH|u IH|u IH|u IH|u IH|u IH|u IH|u IH|u IH|u IH]; [done|..];
    cbn [NilEmpty.string_of_uint]; rewrite str_find_skip by done; by rewrite IH.
Qed.

Lemma demo_tostring_digits z : 0 <= z -> str_find ":" (NilZero.string_of_int (Z.to_int z)) = None.
Proof.
  intros Hz. destruct z as [|p|p]; [done| |lia]. cbn [Z.to_int NilZero.string_of_int].
  unfold NilZero.string_of_uint. destruct (Pos.to_uint p) eqn:E; [done|..]; rewrite <-E; apply uint_no_colon.
Qed.

Lemma demo_tonumber_tostring z : Z.of_int <$> NilZero.int_of_string (NilZero.string_of_int (Z.to_int z)) = Some z.
Proof.
  rewrite NilZero.isi; [simpl; by rewrite DecimalZ.of_to|..]; destruct z as [|p|p]; try done; cbn [Z.to_int]; intros [= E];
    pose proof (DecimalPos.Unsigned.to_uint_nonnil p); done.
Qed.

#[local] Existing Instance demo_redis.

Definition demo_redis_laws : RedisLaws.
Proof.
  refine {| cell := demo_cell; fields := fun d t k => (demo_hash d t k).1 |}; cbn.
  - intros d t t' k Ht. unfold demo_cell. destruct (dd_strings d !! k) as [[v [e|]]|]; try done. cbn.
    destruct (Z.ltb_spec t e); destruct (Z.ltb_spec t' e); try done; lia.
  - done.
  - done.
  - done.
  - done.
  - intros d t k n Hn [Hv1 Hv2]. rewrite !(proj2 (Z.leb_le _ _)) by done. cbn. eexists. split; [done|].
    split; [|done]. intros k'. rewrite demo_put_cell by apply demo_cell_expiry. done.
  - intros d t k v secs Hs. split; [|done]. intros k'. rewrite demo_put_cell; [done|]. apply Z.ltb_lt. lia.
  - intros d t k secs Hs. split.
    + intros k'. destruct (demo_cell d t k) as [[v [e|]]|] eqn:Hc; [by case_decide; subst| |by case_decide; subst].
      rewrite demo_put_cell; [done|]. apply Z.ltb_lt. lia.
    + intros k'. by destruct (demo_cell d t k) as [[v [e|]]|].
  - done.
  - done.
  - intros d t k f x. split; [done|]. intros k'. rewrite demo_put_hash_fields by apply demo_hash_expiry. done.
  - intros d t k f. split_and!; [done|done|]. intros k'. rewrite demo_put_hash_fields by apply demo_hash_expiry. done.
  - intros d t k ms Hms. split; [done|]. intros k'. rewrite demo_put_hash_fields; [by case_decide; subst|]. apply Z.ltb_lt. lia.
  - intros z _. apply demo_tonumber_tostring.
  - intros z Hz. apply demo_tostring_digits. lia.
Defined.

(** ** Examples *)

#[local] Existing Instance demo_redis_laws.
#[local] Existing Instance demo_engine.
#[local] Existing Instance demo_hash_order.
#[local] Existing Instance demo_postcard.
#[local] Existing Instance demo_serde_json.

Definition redis_demo_time : SystemTime := from_secs 1000.

(** Four hits of ten are counted, two are held until 1030s; a hold of one ended at 999s. *)
Definition redis_demo : @rdata demo_redis :=
  mkDemoData {[redis_key demo_counter := (4, Some 1060000)]}
    {[reservation_key demo_counter :=
        (<["old" := pack_hold 1 999000]> {["r0" := pack_hold 2 1030000]}, Some 1060000)]}%string ∅.

Lemma redis_demo_cells : cells_ok redis_demo (as_millis redis_demo_time).
Proof.
  intros k v e. change (cell redis_demo) with (demo_cell redis_demo). unfold demo_cell. cbn [dd_strings redis_demo].
  destruct (decide (k = redis_key demo_counter)) as [->|Hne].
  - rewrite lookup_singleton_eq. vm_compute. intros [= <- <-]. split; [done|]. by exists 1060000.
  - by rewrite lookup_singleton_ne.
Qed.

Lemma redis_demo_holds : holds_ok redis_demo (as_millis redis_demo_time).
Proof.
  intros rk f p. change (fields redis_demo (as_millis redis_demo_time) rk) with (demo_hash redis_demo (as_millis redis_demo_time) rk).1.
  unfold demo_hash. cbn [dd_hashes redis_demo]. destruct (decide (rk = reservation_key demo_counter)) as [->|Hne].
  - rewrite lookup_singleton_eq. replace (not_expired _ _) with true by done. cbn [fst].
    intros [[<- <-]|[_ [<- <-]%lookup_singleton_Some]]%lookup_insert_Some; do 2 eexists; (split; [done|]); split; split; vm_compute; first [discriminate|reflexivity].
  - rewrite lookup_singleton_ne by done. cbn [fst]. by rewrite lookup_empty.
Qed.

Lemma redis_demo_cell : cell redis_demo (as_millis redis_demo_time) (redis_key demo_counter) = Some (4, Some 1060000).
Proof. vm_refl. Qed.

Lemma redis_demo_value : redis_value redis_demo redis_demo_time demo_counter = 4.
Proof. vm_refl. Qed.

Lemma redis_demo_held : redis_held redis_demo redis_demo_time demo_counter = 2.
Proof. vm_refl. Qed.

Lemma redis_check_and_update_exact_witness : exists cs' a d',
  runs redis_demo_time (idle redis_demo) (async_check_and_update [demo_counter] 5) (Ok (cs', a)) (idle d') /\
  a = AuthOk /\ redis_value d' redis_demo_time demo_counter = 9.
Proof.
  destruct (redis_check_and_update_exact redis_demo_time redis_demo [demo_counter] 5)
    as (cs' & a & d' & _ & Hr & _ & _ & Ha & Hst).
  - apply redis_demo_cells.
  - apply Forall_singleton. split; [vm_compute; split; discriminate|]. intros v e.
    rewrite redis_demo_cell. intros [= <- <-]. vm_compute. reflexivity.
  - apply Forall_singleton. split; [done|]. vm_compute. split; discriminate.
  - apply Forall_singleton. vm_compute. split; discriminate.
  - apply NoDup_singleton.
  - done.
  - vm_compute. split; discriminate.
  - assert (Haok : a = AuthOk).
    { apply Ha. intros c Hc. apply list_elem_of_singleton in Hc as ->. rewrite redis_demo_value. vm_compute. discriminate. }
    subst a. destruct Hst as [Hc _]. exists cs', AuthOk, d'. split_and!; [exact Hr|done|].
    unfold redis_value, cell_value. rewrite Hc by (by left). vm_refl.
Defined.

Lemma redis_demo_reservable : Forall (reservable redis_demo redis_demo_time 4) [demo_counter].
Proof. apply Forall_singleton. split_and!; vm_compute; done. Qed.

Lemma redis_demo_window :
  Forall (fun c => as_millis redis_demo_time + window_left redis_demo (as_millis redis_demo_time) (item_of c) < 9007199254740992)
    [demo_counter].
Proof. apply Forall_singleton. vm_compute. done. Qed.

(** Of the four left, four are asked for and three are held. *)
Lemma redis_reserve_exact_witness : exists cs' a d',
  runs redis_demo_time (idle redis_demo) (reserve [demo_counter] "r1" 4 3 (from_secs 30)) (Ok (cs', a)) (idle d') /\
  a = AuthOk /\
  fields d' 1000000 (reservation_key demo_counter) = <["r1" := pack_hold 3 1030000]> {["r0" := pack_hold 2 1030000]}%string.
Proof.
  destruct (redis_reserve_exact redis_demo_time redis_demo [demo_counter] "r1" 4 3 (from_secs 30))
    as (cs' & a & d' & _ & Hr & Ha & _ & Hst).
  - apply redis_demo_cells.
  - apply redis_demo_holds.
  - apply redis_demo_reservable.
  - apply NoDup_singleton.
  - done.
  - done.
  - done.
  - done.
  - done.
  - apply redis_demo_window.
  - assert (Haok : a = AuthOk).
    { apply Ha. intros c Hc. apply list_elem_of_singleton in Hc as ->. rewrite redis_demo_value, redis_demo_held. vm_compute. discriminate. }
    subst a. destruct Hst as (_ & _ & Hf & _). exists cs', AuthOk, d'. split_and!; [exact Hr|done|].
    change 1000000 with (as_millis redis_demo_time). rewrite Hf by (by left). vm_refl.
Defined.

Lemma redis_release_undoes_reserve_witness : exists cs' d' d'',
  runs redis_demo_time (idle redis_demo) (reserve [demo_counter] "r1" 4 3 (from_secs 30)) (Ok (cs', AuthOk)) (idle d') /\
  runs redis_demo_time (idle d') (release_reservation [demo_counter] "r1") (Ok true) (idle d'') /\
  redis_value d'' redis_demo_time demo_counter = 4.
Proof.
  destruct (redis_reserve_run redis_demo_time redis_demo [demo_counter] "r1" 4 3 (from_secs 30))
    as (cs' & a & d' & _ & Hr & Ha & _ & _);
    [apply redis_demo_cells|apply redis_demo_holds|apply redis_demo_reservable|apply NoDup_singleton|done..|apply redis_demo_window|].
  assert (Haok : a = AuthOk).
  { apply Ha. intros c Hc. apply list_elem_of_singleton in Hc as ->. rewrite redis_demo_value, redis_demo_held. vm_compute. discriminate. }
  subst a. destruct (redis_release_undoes_reserve redis_demo_time redis_demo [demo_counter] "r1" 4 3 (from_secs 30) cs' (idle d'))
    as (d'' & Hrel & Hv & _).
  - apply redis_demo_cells.
  - apply redis_demo_holds.
  - apply redis_demo_reservable.
  - apply NoDup_singleton.
  - done.
  - done.
  - done.
  - done.
  - done.
  - apply redis_demo_window.
  - done.
  - apply Forall_singleton. vm_refl.
  - exact Hr.
  - destruct (Hv demo_counter) as [Hval _]; [by left|]. rewrite redis_demo_value in Hval.
    exists cs', d', d''. split_and!; [exact Hr|exact Hrel|exact Hval].
Defined.
