(* ===== verification/RedisCached.v ===== *)
(** * The Redis storage with a write-behind cache: [storage/redis/redis_cached.rs]

    Requests are decided on the hits this instance has cached; a task flushes
    them to Redis in batches and learns there what other instances counted.
    The state is the cache, the connection, the registry of reservations and the
    flag of the flush task.  A call that waits for a permit of the batcher has
    not returned: [None]. *)

From S2P Require Import Prelude AtomicExpiringValue Cel Errors Limit Counter Reservation Storage Moka.
From S2P Require LocalReservations.
From S2P Require Import AsyncStorage Keys Redis RedisStorage CountersCache.

Section redis_cached.
Context {CE : CelEngine} {HO : HashOrder} {MC : MokaCache} {PC : Postcard} {SJ : SerdeJson} {RD : Redis}.

Record CachedRedisStorage : Type := mkCachedRedis {
  cached_counters : CountersCache;
  async_redis_storage : Conn;
  reservations : LocalReservations.LocalReservationRegistry;
  partitioned : bool
}.

Abbreviation CR A := (M CachedRedisStorage StorageErr A).

Definition upd_cache (c : CountersCache) (s : CachedRedisStorage) : CachedRedisStorage :=
  mkCachedRedis c (async_redis_storage s) (reservations s) (partitioned s).

Definition upd_conn (c : Conn) (s : CachedRedisStorage) : CachedRedisStorage :=
  mkCachedRedis (cached_counters s) c (reservations s) (partitioned s).

Definition on_cache {A} (m : M CountersCache StorageErr A) : CR A := zoom cached_counters upd_cache m.
Definition on_conn {E A} (m : M Conn E A) : M CachedRedisStorage E A := zoom async_redis_storage upd_conn m.

(** ** Checks *)

(** One turn of [annotate_cached]: the counter if it is cached, and whether it is limited. *)
Definition annotate_one (c : Counter) (delta : Z) (first_limited : option Authorization)
    : CR (option Counter * option Authorization) :=
  let* r := on_cache (get_cached c) in
  match r with
  | Some val =>
      let* limited :=
        match first_limited with
        | None => on_cache (at_loc val (CountersCache.is_limited c delta))
        | Some _ => ret false
        end in
      let first_limited := if limited then Some (AuthLimited (limit_name (ctr_limit c))) else first_limited in
      let* rem := on_cache (at_loc val (ccv_remaining c)) in
      let c := set_remaining c rem in
      let* ttl := on_cache (at_loc val ccv_ttl) in
      let ttl := if ttl =? 0 then window c else ttl in
      ret (Some (set_expires_in c ttl), first_limited)
  | None => ret (None, first_limited)
  end.

(** The loop; [idx] is the index of the first counter left. *)
Fixpoint annotate_loop (delta : Z) (idx : nat) (cs : list Counter) (first_limited : option Authorization)
    : CR (list Counter * option Authorization * list nat) :=
  match cs with
  | [] => ret ([], first_limited, [])
  | c :: cs =>
      let* r := annotate_one c delta first_limited in
      let* rest := annotate_loop delta (S idx) cs r.2 in
      ret (default c r.1 :: rest.1.1, rest.1.2, (match r.1 with Some _ => [] | None => [idx] end) ++ rest.2)
  end.

Definition annotate_cached (cs : list Counter) (delta : Z) : CR (list Counter * option Authorization * list nat) :=
  annotate_loop delta 0 cs None.

(** What a miss is annotated with, once [value] and [ttl] are known. *)
Definition annotate_miss (delta : Z) (value : Z) (ttl : Duration) (c : Counter) (first_limited : option Authorization)
    : Counter * option Authorization :=
  let first_limited :=
    match first_limited with
    | Some a => Some a
    | None => match u64_checked_sub (max_value c) (u64_saturating_add value delta) with
              | None => Some (AuthLimited (limit_name (ctr_limit c)))
              | Some _ => None
              end
    end in
  let c := set_remaining c (u64_saturating_sub (max_value c) value) in
  (set_expires_in c (if ttl =? 0 then window c else ttl), first_limited).

(** A loop over indices of [counters]; they are in range. *)
Fixpoint at_indices {A} (f : A -> Counter -> option Authorization -> Counter * option Authorization)
    (idxs : list (nat * A)) (cs : list Counter) (first_limited : option Authorization) : list Counter * option Authorization :=
  match idxs with
  | [] => (cs, first_limited)
  | (i, a) :: idxs =>
      match cs !! i with
      | Some c => let r := f a c first_limited in at_indices f idxs (<[i := r.1]> cs) r.2
      | None => at_indices f idxs cs first_limited
      end
  end.

(** [missing.iter().map(|&i| counters[i].clone())] *)
Definition counters_at (cs : list Counter) (missing : list nat) : list Counter := omap (fun i => cs !! i) missing.

Definition check_reading_misses (cs : list Counter) (delta : Z) : CR (list Counter * Authorization) :=
  let* r := annotate_cached cs delta in
  let '(cs, first_limited, missing) := (r : list Counter * option Authorization * list nat) in
  if bool_decide (missing = []) then ret (cs, default AuthOk first_limited)
  else
    let* fetched := on_conn (values_and_window_ttls (counters_at cs missing)) in
    let '(cs, first_limited) :=
      at_indices (fun vt c fl => annotate_miss delta vt.1 vt.2 c fl) (zip missing fetched) cs first_limited in
    ret (cs, default AuthOk first_limited).

(** What [check_assuming_fresh_misses] annotates a miss with. *)
Definition assume_fresh (delta : Z) (c : Counter) (first_limited : option Authorization)
    : Counter * option Authorization :=
  let first_limited :=
    match first_limited with
    | Some a => Some a
    | None => match u64_checked_sub (max_value c) delta with
              | None => Some (AuthLimited (limit_name (ctr_limit c)))
              | Some _ => None
              end
    end in
  let c := set_remaining c (max_value c) in
  (set_expires_in c (window c), first_limited).

Definition check_assuming_fresh_misses (cs : list Counter) (delta : Z) : CR (list Counter * Authorization) :=
  let* r := annotate_cached cs delta in
  let '(cs, first_limited, missing) := (r : list Counter * option Authorization * list nat) in
  let '(cs, first_limited) :=
    at_indices (fun _ c fl => assume_fresh delta c fl) ((fun i => (i, tt)) <$> missing) cs first_limited in
  ret (cs, default AuthOk first_limited).

(** ** [impl AsyncCounterStorage for CachedRedisStorage] *)

Definition is_within_limits (c : Counter) (delta : Z) : CR bool :=
  let* r := check_reading_misses [c] delta in ret (match r.2 with AuthOk => true | AuthLimited _ => false end).

Definition update_counter (c : Counter) (delta : Z) : CR (option unit) :=
  let* added := on_cache (increase_by c delta) in
  ret (if added then Some tt else None).

Definition check (cs : list Counter) (delta : Z) : CR (list Counter * Authorization) := check_reading_misses cs delta.

(** [for counter in counters.iter() { increase_by(counter, delta).await }] *)
Fixpoint increase_all (cs : list Counter) (delta : Z) : CR (option unit) :=
  match cs with
  | [] => ret (Some tt)
  | c :: cs =>
      let* r := update_counter c delta in
      match r with Some _ => increase_all cs delta | None => ret None end
  end.

Definition check_and_update (cs : list Counter) (delta : Z) : CR (option (list Counter * Authorization)) :=
  let* r := check_assuming_fresh_misses cs delta in
  match r.2 with
  | AuthOk => let* added := increase_all r.1 delta in ret ((fun _ => r) <$> added)
  | AuthLimited _ => ret (Some r)
  end.

Definition get_counters (limits : LimitSet) : CR CounterSet := on_conn (async_get_counters limits).
Definition delete_counters (limits : LimitSet) : CR unit := on_conn (async_delete_counters limits).
Definition clear : CR unit := on_conn async_clear.

(** The cached value and ttl of a counter, if any. *)
Definition cached_value_and_ttl (c : Counter) : CR (option (Z * Duration)) :=
  let* r := on_cache (get_cached c) in
  match r with
  | Some val =>
      let* h := on_cache (at_loc val hits) in
      let* ttl := on_cache (at_loc val ccv_ttl) in
      ret (Some (h, ttl))
  | None => ret None
  end.

(** The indices of the entries that are [None]. *)
Definition missing_indices {A} (vs : list (option A)) : list nat :=
  omap (fun iv => match iv.2 with None => Some iv.1 | Some _ => None end) (zip (seq 0 (length vs)) vs).

Definition reserve (cs : list Counter) (id : ReservationId) (check_amount hold_amount : Z) (ttl : Duration)
    : CR (list Counter * Authorization) :=
  let* t := now in
  let* vs := mapM cached_value_and_ttl cs in
  let missing := missing_indices vs in
  let* vs :=
    if bool_decide (missing = []) then ret vs
    else
      let* fetched := on_conn (values_and_window_ttls (counters_at cs missing)) in
      ret (foldl (fun vs iv => <[iv.1 := Some iv.2]> vs) vs (zip missing fetched)) in
  let* vs := lift (map_outcome (expect_some "every entry was either cached or just fetched") vs) in
  let* s := get in
  let* r := lift (LocalReservations.reserve (reservations s) cs vs
                    (LocalReservations.mkRequest id check_amount hold_amount ttl t)) in
  put (mkCachedRedis (cached_counters s) (async_redis_storage s) r.2 (partitioned s)) ;;;
  ret r.1.

Definition release_reservation (cs : list Counter) (id : ReservationId) : CR bool :=
  let* s := get in
  let '(released, r) := LocalReservations.release (reservations s) cs id in
  put (mkCachedRedis (cached_counters s) (async_redis_storage s) r (partitioned s)) ;;;
  ret released.

(** ** Flushing *)

(** [compare_exchange(!partition, partition)]; the gauge is left out. *)
Definition flip_partitioned (partition : bool) : CR bool :=
  let* s := get in
  if Bool.eqb (partitioned s) partition then ret false
  else put (mkCachedRedis (cached_counters s) (async_redis_storage s) (reservations s) partition) ;;; ret true.

(** A counter that is flushed: its value, the writes sent or those of other instances,
    and when its window ends. *)
Record Flushed : Type := mkFlushed {
  fl_counter : Counter;
  fl_value : Z;
  fl_delta : Z;
  fl_expires_at : SystemTime
}.

(** The arguments of the script, and what is sent for each counter. *)
Definition take_pending (counters_and_deltas : list (Counter * nat)) : CR (list BatchItem * list Flushed) :=
  foldM (fun acc cl =>
      let* r := on_cache (at_loc cl.2 pending_writes_and_value) in
      let* '(delta, last_value_from_redis) := lift (expect_some "State machine is wrong!" r) in
      if delta >? 0 then
        let* k := lift (key_for_counter cl.1) in
        ret (acc.1 ++ [mkItem k (key_for_counters_of_limit (ctr_limit cl.1)) (as_secs (window cl.1)) delta],
             acc.2 ++ [mkFlushed cl.1 last_value_from_redis delta UNIX_EPOCH])
      else ret acc) ([], []) counters_and_deltas.

(** The loop over the reply. *)
Fixpoint read_reply (res : list Flushed) (script_res : list Z) : Outcome StorageErr (list Flushed) :=
  match res, script_res with
  | [], _ | _, [] => Ok res
  | f :: res, v :: e :: script_res =>
      let v := u64_try_from_or_0 v in
      let? expires_at := systime_add UNIX_EPOCH (from_millis (u64_try_from_or_0 e)) in
      let? res := read_reply res script_res in
      Ok (mkFlushed (fl_counter f) v (u64_saturating_sub v (fl_value f)) expires_at :: res)
  | _ :: _, [_] => Panic "index out of bounds"
  end.

Definition update_counters (counters_and_deltas : gmap CounterKey (Counter * nat))
    : CR (list Flushed + list Flushed * StorageErr) :=
  if bool_decide (counters_and_deltas = ∅) then ret (inl [])
  else
    let* '(items, res) := take_pending (hash_iter counters_and_deltas).*2 in
    let* script_res := attempt (on_conn (conn_call (fun t => batch_update_counters t items))) in
    match script_res with
    | inr err => ret (inr (res, from_redis_error err))
    | inl script_res => let* res := lift (read_reply res script_res) in ret (inl res)
    end.

Definition flush_batcher_and_update_counters (batch_size : nat) (wake : Wake) : CR unit :=
  let* result := consume cached_counters upd_cache batch_size wake update_counters in
  let* updated_counters :=
    match result with
    | inl res => flip_partitioned false ;;; ret res
    | inr (data, err) =>
        if transient err then
          flip_partitioned true ;;;
          for_each (fun f => on_cache (return_pending_writes (fl_counter f) (fl_value f) (fl_delta f)) ;;; ret tt) data ;;;
          ret []
        else lift (Panic "Unrecoverable Redis error!")
    end in
  for_each (fun f => on_cache (apply_remote_delta (fl_counter f) (fl_value f) (fl_delta f) (fl_expires_at f)) ;;; ret tt)
    updated_counters.

(** The task: one flush after another. *)
Fixpoint flush_task (batch_size : nat) (wakes : list Wake) : CR unit :=
  match wakes with
  | [] => ret tt
  | wake :: wakes => flush_batcher_and_update_counters batch_size wake ;;; flush_task batch_size wakes
  end.

(** ** Construction *)

Record CachedRedisStorageBuilder : Type := mkBuilder {
  b_redis_url : string;
  b_batch_size : nat;
  b_flushing_period : Duration;
  b_max_cached_counters : Z;
  b_response_timeout : Duration
}.

Definition builder_new (redis_url : string) : CachedRedisStorageBuilder :=
  mkBuilder redis_url 100 (from_secs 1) 10000 (from_millis 350).

Definition set_batch_size (b : CachedRedisStorageBuilder) (n : nat) : CachedRedisStorageBuilder :=
  mkBuilder (b_redis_url b) n (b_flushing_period b) (b_max_cached_counters b) (b_response_timeout b).
Definition set_flushing_period (b : CachedRedisStorageBuilder) (p : Duration) : CachedRedisStorageBuilder :=
  mkBuilder (b_redis_url b) (b_batch_size b) p (b_max_cached_counters b) (b_response_timeout b).
Definition set_max_cached_counters (b : CachedRedisStorageBuilder) (n : Z) : CachedRedisStorageBuilder :=
  mkBuilder (b_redis_url b) (b_batch_size b) (b_flushing_period b) n (b_response_timeout b).
Definition set_response_timeout (b : CachedRedisStorageBuilder) (d : Duration) : CachedRedisStorageBuilder :=
  mkBuilder (b_redis_url b) (b_batch_size b) (b_flushing_period b) (b_max_cached_counters b) d.

(** [new_with_options], once the connection is open; loading a script may fail. *)
Definition new_with_options (conn : Conn) (flushing_period : Duration) (max_cached_counters : Z) : CachedRedisStorage :=
  mkCachedRedis (cache_build max_cached_counters flushing_period) conn
    (LocalReservations.registry_new max_cached_counters) false.

Definition build (b : CachedRedisStorageBuilder) (conn : Conn) : CachedRedisStorage :=
  new_with_options conn (b_flushing_period b) (b_max_cached_counters b).
End redis_cached.
