(* ===== verification/RedisOpen.v ===== *)
(** * Opening the Redis storages

    The constructors of [redis_sync.rs], [redis_async.rs] and [redis_cached.rs]: the URL,
    the connection with its timeouts, the scripts loaded before the first request, and
    the parts of the cached storage.  What the [redis] and [r2d2] crates do to connect
    is the class [RedisClient]. *)

From S2P Require Import Prelude AtomicExpiringValue Cel Errors Limit Counter Reservation Storage Moka.
From S2P Require Import AsyncStorage Keys Redis RedisStorage CountersCache RedisCached.

(** [ConnectionManagerConfig], what the code sets of it. *)
Record ManagerConfig : Type := mkManagerConfig {
  connection_timeout : option Duration;
  response_timeout : option Duration;
  number_of_retries : option nat
}.

Class RedisClient {RD : Redis} : Type := {
  ConnectionInfo : Type;
  (** [ConnectionInfo::from_str], [IntoConnectionInfo::into_connection_info] *)
  connection_info : string -> RedisError + ConnectionInfo;
  Client : Type;
  client_open : ConnectionInfo -> RedisError + Client;
  (** [Client::get_connection], one connection, and [ConnectionManager::new_with_config] *)
  get_connection : Client -> RedisError + Conn;
  connect : Client -> ManagerConfig -> RedisError + Conn;
  conn_is_open : Conn -> bool;
  redis_error_to_string : RedisError -> string
}.

(** The longest [Duration]. *)
Definition duration_max : Z := u64_max * nanos_per_sec + 999999999.

(** [d * n] and [d + e] of durations *)
Definition duration_mul {E} (d : Duration) (n : Z) : Outcome E Duration :=
  if d * n <=? duration_max then Ok (d * n) else Panic "overflow when multiplying duration by scalar".

Definition duration_add {E} (d e : Duration) : Outcome E Duration :=
  if d + e <=? duration_max then Ok (d + e) else Panic "overflow when adding durations".

Section opening.
Context {CE : CelEngine} {HO : HashOrder} {MC : MokaCache} {PC : Postcard} {SJ : SerdeJson} {RD : Redis} {RC : RedisClient}.

Definition of_sum {E A} (r : E + A) : Outcome E A := match r with inl e => Err e | inr a => Ok a end.

(** ** [redis_sync.rs] *)

Definition DEFAULT_REDIS_URL : string := "redis://127.0.0.1:6379".
Definition MAX_REDIS_CONNS : Z := 20.

Record RedisConnectionManager : Type := mkManager { manager_info : ConnectionInfo }.

Definition manager_new (params : string) : RedisError + RedisConnectionManager :=
  match connection_info params with
  | inl e => inl e
  | inr info => inr (mkManager info)
  end.

(** [impl ManageConnection for RedisConnectionManager] *)
Definition manager_connect (self : RedisConnectionManager) : RedisError + Conn :=
  match client_open (manager_info self) with
  | inr client => get_connection client
  | inl err => inl err
  end.

Definition manager_is_valid : M Conn RedisError unit := conn_call (fun _ => ret tt).

Definition manager_has_broken (conn : Conn) : bool := negb (conn_is_open conn).

(** [Pool::builder()..build(manager)] opens the connections it starts with, [r2d2]'s error
    being a text. *)
Definition redis_storage_new (pool_build : RedisConnectionManager -> Duration -> Z -> string + Conn)
    (redis_url : string) : string + Conn :=
  match manager_new redis_url with
  | inl err => inl (redis_error_to_string err)
  | inr conn_manager =>
      match pool_build conn_manager (from_secs 3) MAX_REDIS_CONNS with
      | inr conn_pool => inr conn_pool
      | inl err => inl err
      end
  end.

Definition redis_storage_default pool_build : Outcome Empty_set Conn :=
  match redis_storage_new pool_build DEFAULT_REDIS_URL with
  | inr s => Ok s
  | inl _ => Panic "called `Result::unwrap()` on an `Err` value"
  end.

(** ** [redis_async.rs] *)

(** [Client::open(info).expect(..)] *)
Definition open_client (info : ConnectionInfo) : Outcome RedisError Client :=
  match client_open info with
  | inr client => Ok client
  | inl _ => Panic "This couldn't fail in the past, yet now it did somehow!"
  end.

(** The scripts of requests are loaded, in this order. *)
Definition new_with_conn_manager : M Conn RedisError unit :=
  load_script ;;; load_script ;;; load_script.

(** Runs [m] on a connection just opened. *)
Definition on_new {A} (clock : nat -> SystemTime) (conn : Conn) (m : M Conn RedisError A) : Outcome RedisError Conn :=
  match m (mkWorld conn clock 0) with
  | (Ok _, w) => Ok (w_state w)
  | (Err e, _) => Err e
  | (Panic msg, _) => Panic msg
  end.

Definition async_redis_new (clock : nat -> SystemTime) (redis_url : string) : Outcome RedisError Conn :=
  let? info := of_sum (connection_info redis_url) in
  let? client := open_client info in
  let? conn := of_sum (connect client (mkManagerConfig None None None)) in
  on_new clock conn new_with_conn_manager.

(** ** [redis_cached.rs] *)

(** A connection may take three responses and 50 ms. *)
Definition cached_manager_config {E} (timeout : Duration) : Outcome E ManagerConfig :=
  let? triple := duration_mul timeout 3 in
  let? total := duration_add triple (from_millis 50) in
  Ok (mkManagerConfig (Some total) (Some timeout) (Some 1%nat)).

(** [CachedRedisStorage::new_with_options]: besides the scripts of requests it loads the one
    of flushes, after the flush task was spawned. *)
Definition cached_new_with_options (clock : nat -> SystemTime) (redis_url : string) (flushing_period : Duration)
    (max_cached_counters : Z) (timeout : Duration) : Outcome RedisError CachedRedisStorage :=
  let? info := of_sum (connection_info redis_url) in
  let? client := open_client info in
  let? config := cached_manager_config timeout in
  let? conn := of_sum (connect client config) in
  let? conn := on_new clock conn (new_with_conn_manager ;;; load_script) in
  Ok (RedisCached.new_with_options conn flushing_period max_cached_counters).

Definition cached_new (clock : nat -> SystemTime) (redis_url : string) : Outcome RedisError CachedRedisStorage :=
  cached_new_with_options clock redis_url (from_secs 1) 10000 (from_millis 350).

Definition cached_build (clock : nat -> SystemTime) (b : CachedRedisStorageBuilder) : Outcome RedisError CachedRedisStorage :=
  cached_new_with_options clock (b_redis_url b) (b_flushing_period b) (b_max_cached_counters b) (b_response_timeout b).

(** ** What opening gives *)

(** Loading a script changes nothing but uses up one call. *)
Lemma load_script_run w :
  load_script w =
  (match conn_faults (w_state w) with Some (err, _) :: _ => Err err | _ => Ok tt end,
   mkWorld (mkConn (conn_data (w_state w)) (tail (conn_faults (w_state w))) (conn_pool_faults (w_state w)))
     (w_clock w) (S (w_tick w))).
Proof.
  destruct w as [[data faults pool] clock n]. unfold load_script, conn_call, bind, now, get. simpl.
  destruct faults as [|[[err []]|] faults]; done.
Qed.

(** No timeout that the configuration can hold, in milliseconds, overflows. *)
Lemma cached_timeout_fits {E} ms :
  in_u64 ms -> cached_manager_config (E := E) (from_millis ms) =
    Ok (mkManagerConfig (Some (from_millis ms * 3 + from_millis 50)) (Some (from_millis ms)) (Some 1%nat)).
Proof.
  intros [H0 H1]. unfold cached_manager_config, duration_mul, duration_add, from_millis, duration_max, nanos_per_sec, u64_max in *.
  rewrite (proj2 (Z.leb_le _ _)) by lia. simpl. by rewrite (proj2 (Z.leb_le _ _)) by lia.
Qed.

(** The error of the first of the next [n] calls that fails. *)
Fixpoint first_fault (n : nat) (faults : list (option (RedisError * bool))) : option RedisError :=
  match n, faults with
  | S n, Some (err, _) :: _ => Some err
  | S n, None :: faults => first_fault n faults
  | _, _ => None
  end.

(** [n] scripts loaded one after the other. *)
Fixpoint load_scripts (n : nat) : M Conn RedisError unit :=
  match n with O => ret tt | S n => load_script ;;; load_scripts n end.

Lemma load_scripts_on_new clock conn n :
  on_new clock conn (load_scripts n) =
  match first_fault n (conn_faults conn) with
  | Some err => Err err
  | None => Ok (mkConn (conn_data conn) (drop n (conn_faults conn)) (conn_pool_faults conn))
  end.
Proof.
  unfold on_new. generalize 0%nat as tick. revert conn.
  induction n as [|n IH]; intros [data faults pool] tick; [done|]. simpl. unfold bind at 1. rewrite load_script_run. simpl.
  destruct faults as [|[[err ex]|] faults]; simpl; [|done|].
  - rewrite (IH (mkConn data [] pool)). simpl. destruct n; simpl; by rewrite ?drop_nil.
  - apply (IH (mkConn data faults pool)).
Qed.

Lemma four_scripts clock conn :
  on_new clock conn (new_with_conn_manager ;;; load_script) = on_new clock conn (load_scripts 4).
Proof.
  unfold on_new, new_with_conn_manager. cbn [load_scripts]. unfold bind, ret.
  destruct (load_script _) as [[[]|e|m] w1]; cbn beta iota; [|done..]. destruct (load_script w1) as [[[]|e|m] w2]; cbn beta iota; [|done..].
  destruct (load_script w2) as [[[]|e|m] w3]; cbn beta iota; [|done..]. by destruct (load_script w3) as [[[]|e|m] w4].
Qed.

(** Opening the cached storage with a URL that is one and a Redis that can be reached:
    it succeeds exactly when the four scripts can be loaded; it is then empty and not
    partitioned, and nothing of what Redis holds has changed. *)
Theorem cached_open_exact clock b ms info client conn :
  b_response_timeout b = from_millis ms -> in_u64 ms ->
  connection_info (b_redis_url b) = inr info -> client_open info = inr client ->
  (forall config, connect client config = inr conn) ->
  cached_build clock b =
  match first_fault 4 (conn_faults conn) with
  | Some err => Err err
  | None => Ok (build b (mkConn (conn_data conn) (drop 4 (conn_faults conn)) (conn_pool_faults conn)))
  end.
Proof.
  intros Ht Hms Hinfo Hcl Hconn. unfold cached_build, cached_new_with_options, open_client.
  rewrite Hinfo. cbn [of_sum outcome_bind]. rewrite Hcl, Ht. cbn [outcome_bind]. rewrite cached_timeout_fits by done.
  cbn [outcome_bind]. rewrite Hconn. cbn [of_sum outcome_bind].
  rewrite four_scripts, load_scripts_on_new. by destruct (first_fault 4 (conn_faults conn)).
Qed.

End opening.
