(* ===== verification/RedisCachedSpec.v ===== *)
(** * What the cached Redis storage does *)

From S2P Require Import Prelude AtomicExpiringValue Cel Errors Limit Counter Reservation Storage Moka StorageSpec.
From S2P Require Import AsyncStorage Keys Redis RedisStorage CountersCache RedisCached.

(** ** The local view of a counter *)

Section local_view.
Context {CE : CelEngine} {HO : HashOrder} {MC : MokaCache} {ML : MokaLaws} {MR : MokaRoomy} {E : Type}.
Implicit Types (s : CountersCache) (t : SystemTime) (k : CounterKey) (c : Counter).

Definition cell_at s (loc : nat) : CachedCounterValue := default (mkCached aev_default 0 false) (cc_heap s !! loc).

(** Where the value of a counter is, if this instance knows one. *)
Definition local s k : option nat :=
  match moka_get (cc_cache s) k with
  | Some (_, loc) => Some loc
  | None => snd <$> updates (cc_batcher s) !! k
  end.

Definition hits_in (v : AtomicExpiringValue) t : Z := if decide (live v t) then aev_value v else 0.

(** The hits this instance knows of. *)
Definition local_hits s t k : Z :=
  match local s k with Some loc => hits_in (ccv_value (cell_at s loc)) t | None => 0 end.

(** How long the window it knows of still lasts. *)
Definition local_ttl s t c : Duration :=
  match local s (counter_key c) with
  | Some loc => let d := ttl_at (ccv_value (cell_at s loc)) t in if d =? 0 then window c else d
  | None => window c
  end.

(** The cache and the batcher agree, and no two counters share a value. *)
Record cc_wf s : Prop := {
  wf_agree : forall k loc x, moka_get (cc_cache s) k = Some (x, loc) ->
    forall y loc', updates (cc_batcher s) !! k = Some (y, loc') -> loc' = loc;
  wf_inj : forall k k' loc, local s k = Some loc -> local s k' = Some loc -> k = k';
  wf_bound : forall k loc, local s k = Some loc -> (loc < length (cc_heap s))%nat;
  wf_cells : Forall (fun v => aev_wf (ccv_value v)) (cc_heap s);
  wf_queue : forall k c loc, updates (cc_batcher s) !! k = Some (c, loc) -> counter_key c = k
}.

(** States with the same view. *)
Definition same_view s s' : Prop :=
  cc_heap s' = cc_heap s /\ cc_batcher s' = cc_batcher s /\ (forall k, local s' k = local s k) /\
  (cc_wf s -> cc_wf s').

Lemma same_view_refl s : same_view s s.
Proof. done. Qed.

Lemma same_view_trans s1 s2 s3 : same_view s1 s2 -> same_view s2 s3 -> same_view s1 s3.
Proof.
  intros (H1 & H2 & H3 & H4) (G1 & G2 & G3 & G4). split_and!; [by rewrite G1|by rewrite G2| |auto].
  intros k. by rewrite G3.
Qed.

Lemma same_view_hits s s' t k : same_view s s' -> local_hits s' t k = local_hits s t k.
Proof. intros (Hh & _ & Hl & _). unfold local_hits, cell_at. by rewrite Hl, Hh. Qed.

Lemma same_view_ttl s s' t c : same_view s s' -> local_ttl s' t c = local_ttl s t c.
Proof. intros (Hh & _ & Hl & _). unfold local_ttl, cell_at. by rewrite Hl, Hh. Qed.

Lemma hits_run t v : good_time t -> runs t v (hits (E := E)) (Ok (hits_in (ccv_value v) t)) v.
Proof.
  intros Ht. unfold hits, value. do 2 runs_step. unfold hits_in. case_decide.
  - rewrite value_at_live by done. apply runs_lift.
  - rewrite value_at_expired by done. apply runs_lift.
Qed.

(** Looking at a cached value. *)
Lemma at_loc_read {A} t s loc (m : M CachedCounterValue E A) o :
  (loc < length (cc_heap s))%nat -> runs t (cell_at s loc) m o (cell_at s loc) -> runs t s (at_loc loc m) o s.
Proof.
  intros Hloc Hm. apply runs_zoom_read; [|done]. destruct s as [ch b h]. f_equal. apply list_insert_id.
  unfold cell_at. simpl. destruct (lookup_lt_is_Some_2 h loc Hloc) as [v Hv]. by rewrite Hv.
Qed.

Lemma at_loc_write {A} t s loc (m : M CachedCounterValue E A) o v' :
  runs t (cell_at s loc) m o v' ->
  runs t s (at_loc loc m) o (mkCountersCache (cc_cache s) (cc_batcher s) (<[loc := v']> (cc_heap s))).
Proof.
  intros Hm. exact (runs_zoom t (fun s => cell_at s loc)
    (fun v s => mkCountersCache (cc_cache s) (cc_batcher s) (<[loc := v]> (cc_heap s))) s m o v' Hm).
Qed.

(** Inserting in the cache what the batcher has. *)
Lemma insert_from_batcher s c x loc :
  moka_get (cc_cache s) (counter_key c) = None -> updates (cc_batcher s) !! counter_key c = Some (x, loc) ->
  same_view s (mkCountersCache (moka_insert (cc_cache s) c loc) (cc_batcher s) (cc_heap s)).
Proof.
  intros Hc Hb. set (s' := mkCountersCache _ _ _).
  assert (Hl : forall k, local s' k = local s k).
  { intros k. unfold local, s'. cbn [cc_cache cc_batcher]. destruct (decide (k = counter_key c)) as [->|Hne].
    - destruct (moka_roomy_self _ (cc_cache s) c loc) as [x' Hx]. by rewrite Hx, Hc, Hb.
    - by rewrite moka_roomy_other. }
  split_and!; [done|done|done|]. intros [W1 W2 W3 W4 W5]. split.
  - intros k loc1 y. cbn [cc_cache cc_batcher s']. destruct (decide (k = counter_key c)) as [->|Hne].
    + destruct (moka_roomy_self _ (cc_cache s) c loc) as [x' Hx]. rewrite Hx. intros [= <- <-] z loc2. rewrite Hb. by intros [= <- <-].
    + rewrite moka_roomy_other by done. apply W1.
  - intros k k' l. rewrite !Hl. apply W2.
  - intros k l. rewrite Hl. apply W3.
  - done.
  - done.
Qed.

Lemma get_cached_run t s c :
  exists s', runs t s (get_cached (E := E) c) (Ok (local s (counter_key c))) s' /\ same_view s s'.
Proof.
  unfold get_cached, local. destruct (moka_get (cc_cache s) (counter_key c)) as [[x loc]|] eqn:Hc.
  { exists s. split; [|done]. runs_step. rewrite Hc. apply runs_ret. }
  destruct (updates (cc_batcher s) !! counter_key c) as [[x loc]|] eqn:Hb.
  - eexists. split; [|by eapply insert_from_batcher]. runs_step. rewrite Hc, Hb.
    eapply runs_bind; [|apply runs_ret]. unfold put_cache. runs_step. apply runs_put.
  - exists s. split; [|done]. runs_step. rewrite Hc, Hb. apply runs_ret.
Qed.
End local_view.

(** ** Checking *)

Section checking.
Context {CE : CelEngine} {HO : HashOrder} {MC : MokaCache} {ML : MokaLaws} {MR : MokaRoomy}.
Context {PC : Postcard} {SJ : SerdeJson} {RD : Redis}.
Implicit Types (s : CountersCache) (t : SystemTime) (k : CounterKey) (c : Counter) (S : CachedRedisStorage).

Lemma on_cache_run {A} t S (m : M CountersCache StorageErr A) o s' :
  runs t (cached_counters S) m o s' -> runs t S (on_cache m) o (upd_cache s' S).
Proof. apply runs_zoom. Qed.

Lemma on_cache_read {A} t S (m : M CountersCache StorageErr A) o :
  runs t (cached_counters S) m o (cached_counters S) -> runs t S (on_cache m) o S.
Proof. intros Hm. apply runs_zoom_read; [by destruct S|done]. Qed.

Definition annotated s t c : Counter :=
  set_expires_in (set_remaining c (u64_saturating_sub (max_value c) (local_hits s t (counter_key c)))) (local_ttl s t c).

Definition over_local s t (delta : Z) c : bool := local_hits s t (counter_key c) + delta >? max_value c.

Definition limited_by c : Authorization := AuthLimited (limit_name (ctr_limit c)).

Definition known s c : bool := bool_decide (is_Some (local s (counter_key c))).

Lemma annotated_same s s' t c : same_view s s' -> annotated s' t c = annotated s t c.
Proof. intros Hv. unfold annotated. by rewrite (same_view_hits s s'), (same_view_ttl s s') by done. Qed.

Lemma annotate_one_run t S c delta fl :
  let s := cached_counters S in
  good_time t -> cc_wf s ->
  exists s', runs t S (annotate_one c delta fl)
    (Ok (if known s c then Some (annotated s t c) else None,
         match fl with
         | Some a => Some a
         | None => if known s c && over_local s t delta c then Some (limited_by c) else None
         end)) (upd_cache s' S) /\ same_view s s'.
Proof.
  intros s Ht Hwf. destruct (get_cached_run (E := StorageErr) t s c) as (s' & R & Hv). fold s in R.
  exists s'. split; [|done]. unfold annotate_one. eapply runs_bind; [by apply on_cache_run|].
  unfold known, annotated, over_local, local_hits, local_ttl. destruct (local s (counter_key c)) as [loc|] eqn:Hl.
  2: { rewrite bool_decide_eq_false_2 by (by intros []). destruct fl; apply runs_ret. }
  rewrite bool_decide_eq_true_2 by (by eexists). cbn [andb].
  assert (Hloc : (loc < length (cc_heap s'))%nat) by (destruct Hv as (-> & _); by eapply wf_bound).
  assert (Hcell : cell_at s' loc = cell_at s loc) by (unfold cell_at; destruct Hv as (-> & _); done).
  assert (Hread : forall A (m : M CachedCounterValue StorageErr A) a, runs t (cell_at s' loc) m (Ok a) (cell_at s' loc) ->
            runs t (upd_cache s' S) (on_cache (at_loc loc m)) (Ok a) (upd_cache s' S)).
  { intros A m a Hm. apply on_cache_read. by apply at_loc_read. }
  set (h := hits_in (ccv_value (cell_at s loc)) t) in *.
  eapply (runs_bind _ _ _ _ (match fl with None => h + delta >? max_value c | Some _ => false end)).
  { destruct fl; [apply runs_ret|]. apply Hread. unfold CountersCache.is_limited.
    eapply runs_bind; [by apply hits_run|]. rewrite Hcell. apply runs_ret. }
  eapply runs_bind.
  { apply Hread. unfold ccv_remaining. eapply runs_bind; [by apply hits_run|]. rewrite Hcell. apply runs_ret. }
  eapply runs_bind.
  { apply Hread. unfold ccv_ttl. runs_step. unfold ttl, expiry_ttl. runs_step. rewrite Hcell. apply runs_ret. }
  fold h. cbv zeta. destruct fl; [apply runs_ret|]. by destruct (h + delta >? max_value c); apply runs_ret.
Qed.

(** The misses of [annotate_loop]. *)
Fixpoint misses s (idx : nat) (cs : list Counter) : list nat :=
  match cs with
  | [] => []
  | c :: cs => (if known s c then [] else [idx]) ++ misses s (Datatypes.S idx) cs
  end.

Definition seen s t c : Counter := if known s c then annotated s t c else c.

Lemma annotate_loop_run t S delta idx cs fl :
  let s := cached_counters S in
  good_time t -> cc_wf s ->
  exists s', runs t S (annotate_loop delta idx cs fl)
    (Ok (seen s t <$> cs,
         match fl with
         | Some a => Some a
         | None => limited_by <$> List.find (fun c => known s c && over_local s t delta c) cs
         end, misses s idx cs)) (upd_cache s' S) /\ same_view s s'.
Proof.
  revert S idx fl. induction cs as [|c cs IH]; intros S idx fl s Ht Hwf.
  { exists s. split; [|done]. replace (upd_cache s S) with S by (by destruct S). destruct fl; apply runs_ret. }
  destruct (annotate_one_run t S c delta fl Ht Hwf) as (s1 & R1 & V1). fold s in R1, V1.
  set (fl1 := match fl with Some a => Some a | None => if known s c && over_local s t delta c then Some (limited_by c) else None end) in *.
  destruct (IH (upd_cache s1 S) (Datatypes.S idx) fl1 Ht) as (s2 & R2 & V2); [by apply V1|]. cbn [cached_counters upd_cache] in R2, V2.
  exists s2. split; [|by eapply same_view_trans].
  assert (Hk : forall x, known s1 x = known s x) by (intros x; unfold known; destruct V1 as (_ & _ & -> & _); done).
  assert (Ho : forall x, over_local s1 t delta x = over_local s t delta x)
    by (intros x; unfold over_local; by rewrite (same_view_hits s s1)).
  cbn [annotate_loop]. eapply runs_bind; [exact R1|]. eapply runs_bind; [exact R2|]. cbn [fst snd].
  replace (upd_cache s2 (upd_cache s1 S)) with (upd_cache s2 S) by done.
  assert (Hseen : seen s1 t <$> cs = seen s t <$> cs).
  { apply list_fmap_ext. intros i x _. unfold seen. rewrite Hk. destruct (known s x); [by apply annotated_same|done]. }
  assert (Hmiss : forall i, misses s1 i cs = misses s i cs).
  { clear -Hk. induction cs as [|x cs IH]; intros i; [done|]. cbn [misses]. by rewrite Hk, IH. }
  rewrite Hseen, Hmiss, fmap_cons. cbn [misses List.find]. unfold seen at 2.
  assert (Hfind : forall l, List.find (fun c => known s1 c && over_local s1 t delta c) l =
                            List.find (fun c => known s c && over_local s t delta c) l).
  { induction l as [|x l IHl]; [done|]. cbn [List.find]. by rewrite Hk, Ho, IHl. }
  unfold fl1. rewrite Hfind. destruct fl as [a|]; [destruct (known s c); apply runs_ret|].
  destruct (known s c), (over_local s t delta c); cbn [andb]; apply runs_ret.
Qed.

(** A miss is annotated as if nothing had been counted. *)
Lemma assume_fresh_annotates s t delta c fl :
  known s c = false -> in_u64 (max_value c) -> 0 <= delta ->
  assume_fresh delta c fl =
    (annotated s t c, match fl with
                      | Some a => Some a
                      | None => if over_local s t delta c then Some (limited_by c) else None
                      end).
Proof.
  intros Hk Hmax Hd. unfold known in Hk. apply bool_decide_eq_false in Hk. unfold assume_fresh, annotated, over_local, local_hits, local_ttl.
  destruct (local s (counter_key c)) as [loc|]; [by destruct Hk; eexists|]. f_equal.
  - do 2 f_equal. unfold u64_saturating_sub, in_u64 in *. lia.
  - destruct fl; [done|]. unfold u64_checked_sub, limited_by. rewrite Z.add_0_l, Z.gtb_ltb. by destruct (max_value c <? delta).
Qed.

(** Going over the misses. *)
Lemma at_misses s t delta pre cs fl :
  Forall (fun c => in_u64 (max_value c)) cs -> 0 <= delta ->
  at_indices (fun _ c fl => assume_fresh delta c fl) ((fun i => (i, tt)) <$> misses s (length pre) cs)
    (pre ++ (seen s t <$> cs)) fl =
  (pre ++ (annotated s t <$> cs),
   match fl with
   | Some a => Some a
   | None => limited_by <$> List.find (fun c => negb (known s c) && over_local s t delta c) cs
   end).
Proof.
  intros Hmax Hd. revert pre fl. induction Hmax as [|c cs Hc _ IH]; intros pre fl; [by destruct fl|].
  rewrite !fmap_cons. cbn [misses List.find]. unfold seen at 1. specialize (IH (pre ++ [annotated s t c])).
  rewrite length_app in IH. cbn [length] in IH. rewrite Nat.add_1_r in IH. rewrite <-!(assoc_L (++)) in IH.
  destruct (known s c) eqn:Hk; cbn [negb andb app]; [apply IH|].
  rewrite fmap_cons. cbn [at_indices]. rewrite list_lookup_middle by done.
  rewrite (assume_fresh_annotates s t) by done. cbn [fst snd]. rewrite insert_app_r_alt, Nat.sub_diag by done.
  etransitivity; [apply IH|]. destruct fl as [a|]; [done|]. by destruct (over_local s t delta c).
Qed.

(** [check_assuming_fresh_misses] decides on the local view. *)
Lemma check_local_run t S cs delta :
  let s := cached_counters S in
  good_time t -> cc_wf s -> Forall (fun c => in_u64 (max_value c)) cs -> 0 <= delta ->
  exists a s', runs t S (check_assuming_fresh_misses cs delta) (Ok (annotated s t <$> cs, a)) (upd_cache s' S) /\
    same_view s s' /\ (a = AuthOk <-> forall c, c ∈ cs -> local_hits s t (counter_key c) + delta <= max_value c).
Proof.
  intros s Ht Hwf Hmax Hd. destruct (annotate_loop_run t S delta 0 cs None Ht Hwf) as (s' & R & V). fold s in R, V.
  set (f1 := List.find (fun c => known s c && over_local s t delta c) cs) in *.
  set (f2 := List.find (fun c => negb (known s c) && over_local s t delta c) cs).
  exists (default AuthOk (match limited_by <$> f1 with Some a => Some a | None => limited_by <$> f2 end)), s'. split_and!; [|done|].
  - unfold check_assuming_fresh_misses, annotate_cached. eapply runs_bind; [exact R|]. cbv beta iota.
    pose proof (at_misses s t delta [] cs (limited_by <$> f1) Hmax Hd) as Hm. cbn [length app] in Hm. rewrite Hm. apply runs_ret.
  - assert (Hov : forall c, over_local s t delta c = false <-> local_hits s t (counter_key c) + delta <= max_value c).
    { intros c. unfold over_local. rewrite Z.gtb_ltb, Z.ltb_ge. done. }
    destruct f1 as [c1|] eqn:F1; simpl.
    { split; [done|]. intros Hall. apply List.find_some in F1 as [Hin%list_elem_of_In [_ Ho]%andb_prop].
      apply Hall, Hov in Hin. congruence. }
    destruct f2 as [c2|] eqn:F2; simpl.
    { split; [done|]. intros Hall. apply List.find_some in F2 as [Hin%list_elem_of_In [_ Ho]%andb_prop].
      apply Hall, Hov in Hin. congruence. }
    split; [|done]. intros _ c Hc. apply Hov. apply find_none_forall in F1, F2. rewrite Forall_forall in F1, F2.
    specialize (F1 c Hc). specialize (F2 c Hc). simpl in F1, F2. destruct (known s c); [done|]. by simpl in F2.
Qed.
End checking.

(** ** Counting *)

Section counting.
Context {CE : CelEngine} {HO : HashOrder} {MC : MokaCache} {ML : MokaLaws} {MR : MokaRoomy} {E : Type}.
Implicit Types (s : CountersCache) (t : SystemTime) (k : CounterKey) (c : Counter).

(** A fresh value: nothing counted, in a window that starts now. *)
Lemma load_asap_run {St} t (st : St) c :
  good_window t (window c) ->
  exists v, runs t st (load_from_authority_asap (E := E) c 0) (Ok v) st /\ aev_wf (ccv_value v) /\ hits_in (ccv_value v) t = 0.
Proof.
  intros Hw. assert (Hgt : good_time (t + window c)).
  { destruct Hw as ([H0 H1] & Hd & Hm). split; [lia|]. by rewrite as_micros_window. }
  exists (mkCached (mkAev 0 (mkExpiry (as_micros (t + window c)))) 0 false). split_and!.
  - unfold load_from_authority_asap. runs_step. rewrite good_window_add by done. runs_step.
    unfold aev_new, expiry_new. rewrite since_epoch_good by done. cbn [outcome_map outcome_bind]. runs_step. apply runs_ret.
  - split; [done|]. cbn [ccv_value aev_expiry expiry]. destruct Hgt as [H0 H1]. split; [by apply as_micros_nonneg|done].
  - unfold hits_in. by case_decide.
Qed.

Lemma local_alloc s c v :
  local s (counter_key c) = None -> cc_wf s -> aev_wf (ccv_value v) ->
  let s1 := mkCountersCache (moka_insert (cc_cache s) c (length (cc_heap s))) (cc_batcher s) (cc_heap s ++ [v]) in
  cc_wf s1 /\ (forall k, local s1 k = if decide (k = counter_key c) then Some (length (cc_heap s)) else local s k) /\
  (forall loc, (loc < length (cc_heap s))%nat -> cell_at s1 loc = cell_at s loc) /\ cell_at s1 (length (cc_heap s)) = v.
Proof.
  intros Hn [W1 W2 W3 W4 W5] Hv s1. unfold local in Hn. destruct (moka_get (cc_cache s) (counter_key c)) as [[x loc]|] eqn:Hc; [done|].
  destruct (updates (cc_batcher s) !! counter_key c) as [|] eqn:Hb; [done|].
  assert (Hl : forall k, local s1 k = if decide (k = counter_key c) then Some (length (cc_heap s)) else local s k).
  { intros k. unfold local, s1. cbn [cc_cache cc_batcher]. case_decide as Hk.
    - subst k. destruct (moka_roomy_self _ (cc_cache s) c (length (cc_heap s))) as [x' Hx]. by rewrite Hx.
    - by rewrite moka_roomy_other. }
  split_and!; [split|done| |].
  - intros k loc1 y. cbn [cc_cache cc_batcher s1]. destruct (decide (k = counter_key c)) as [->|Hne].
    + intros _ z loc2. by rewrite Hb.
    + rewrite moka_roomy_other by done. apply W1.
  - intros k k' l. rewrite !Hl. case_decide; case_decide; subst; [done| | |apply W2].
    + intros [= <-] Hk'. apply W3 in Hk'. lia.
    + intros Hk' [= <-]. apply W3 in Hk'. lia.
  - intros k l. rewrite Hl. cbn [cc_heap s1]. rewrite length_app. simpl. case_decide; [intros [= <-]; lia|].
    intros Hk%W3. lia.
  - cbn [cc_heap s1]. apply Forall_app. split; [done|by apply Forall_singleton].
  - done.
  - intros loc Hloc. unfold cell_at. cbn [cc_heap s1]. by rewrite lookup_app_l.
  - unfold cell_at. cbn [cc_heap s1]. by rewrite list_lookup_middle.
Qed.

(** The value the hits of a counter are counted in: the one known, or a fresh one. *)
Lemma find_or_create_run t s c :
  cc_wf s -> good_window t (window c) ->
  exists loc x s1, runs t s (cache_get_with (E := E) c
      (let* r := in_batcher c in
       match r with Some loc => ret loc | None => let* v := load_from_authority_asap c 0 in alloc v end)) (Ok loc) s1 /\
    cc_wf s1 /\ cc_batcher s1 = cc_batcher s /\ moka_get (cc_cache s1) (counter_key c) = Some (x, loc) /\
    (forall k, local_hits s1 t k = local_hits s t k).
Proof.
  intros Hwf Hw. unfold cache_get_with. destruct (moka_get (cc_cache s) (counter_key c)) as [[x loc]|] eqn:Hc.
  { exists loc, x, s. split_and!; [|done..]. runs_step. rewrite Hc. apply runs_ret. }
  destruct (updates (cc_batcher s) !! counter_key c) as [[x loc]|] eqn:Hb.
  - pose proof (insert_from_batcher s c x loc Hc Hb) as V. destruct (moka_roomy_self _ (cc_cache s) c loc) as [x' Hx'].
    exists loc, x', (mkCountersCache (moka_insert (cc_cache s) c loc) (cc_batcher s) (cc_heap s)).
    split_and!; [|by apply V|done|done|intros k; by apply same_view_hits]. runs_step. rewrite Hc.
    eapply runs_bind. { unfold in_batcher. eapply runs_bind; [runs_step; apply runs_ret|]. rewrite Hb. simpl. apply runs_ret. }
    runs_step. eapply runs_bind; [|apply runs_ret]. unfold put_cache. runs_step. apply runs_put.
  - destruct (load_asap_run t s c Hw) as (v & Rv & Hv & Hh).
    assert (Hn : local s (counter_key c) = None) by (unfold local; by rewrite Hc, Hb).
    destruct (local_alloc s c v Hn Hwf Hv) as (Hwf1 & Hl & Hcell & Hnew).
    destruct (moka_roomy_self _ (cc_cache s) c (length (cc_heap s))) as [x' Hx'].
    set (s1 := mkCountersCache _ _ _) in *. exists (length (cc_heap s)), x', s1. split_and!; [|done|done|done|].
    + runs_step. rewrite Hc. eapply runs_bind.
      { unfold in_batcher. eapply runs_bind; [runs_step; apply runs_ret|]. rewrite Hb. simpl.
        eapply runs_bind; [exact Rv|]. unfold alloc. do 2 runs_step. apply runs_ret. }
      runs_step. eapply runs_bind; [|apply runs_ret]. unfold put_cache. runs_step. apply runs_put.
    + intros k. unfold local_hits. rewrite Hl. case_decide; [subst k; by rewrite Hnew, Hn|].
      destruct (local s k) as [loc|] eqn:Hk; [|done]. rewrite Hcell; [done|]. by eapply wf_bound.
Qed.

(** Counting [d] in a value. *)
Lemma delta_run t v c d :
  aev_wf (ccv_value v) -> good_window t (window c) -> 0 < as_micros (window c) -> 0 <= d ->
  hits_in (ccv_value v) t + d <= u64_max ->
  exists n v', runs t v (delta (E := E) c d) (Ok n) v' /\ aev_wf (ccv_value v') /\
    hits_in (ccv_value v') t = hits_in (ccv_value v) t + d.
Proof.
  intros [Hv He] Hw Hm Hd Hsum. unfold delta. unfold hits_in in *.
  assert (Hgt : good_time t) by (by eapply good_window_time).
  destruct (decide (live (ccv_value v) t)) as [Hl|Hl].
  - eexists (aev_value (ccv_value v) + d), (mkCached (mkAev (aev_value (ccv_value v) + d) (aev_expiry (ccv_value v))) _ _).
    split_and!.
    + do 2 runs_step. rewrite update_live by done. rewrite u64_add_small by (unfold in_u64 in *; lia). runs_step. cbn [fst snd].
      runs_step. apply runs_ret.
    + split; [unfold in_u64 in *; simpl; lia|done].
    + rewrite decide_True by done. done.
  - eexists d, (mkCached (mkAev d (mkExpiry (as_micros t + as_micros (window c)))) _ _). split_and!.
    + do 2 runs_step. rewrite update_expired by done. runs_step. cbn [fst snd]. runs_step. apply runs_ret.
    + destruct Hw as ([H0 H1] & Hw0 & Hw1). pose proof (as_micros_nonneg t H0). split; unfold in_u64; simpl; lia.
    + rewrite decide_True; [done|]. unfold live. simpl. lia.
Qed.

(** Writing the value of a counter. *)
Lemma local_write s c loc v' t :
  cc_wf s -> local s (counter_key c) = Some loc -> aev_wf (ccv_value v') ->
  let s1 := mkCountersCache (cc_cache s) (cc_batcher s) (<[loc := v']> (cc_heap s)) in
  cc_wf s1 /\ (forall k, local_hits s1 t k =
                 if decide (k = counter_key c) then hits_in (ccv_value v') t else local_hits s t k).
Proof.
  intros [W1 W2 W3 W4 W5] Hl Hv s1. split.
  - split; [exact W1|exact W2| | |exact W5]. { intros k l Hk. cbn [cc_heap s1]. rewrite length_insert. by apply (W3 k). }
    cbn [cc_heap s1]. by apply Forall_insert.
  - intros k. unfold local_hits. change (local s1 k) with (local s k). case_decide as Hk.
    + subst k. rewrite Hl. unfold cell_at. cbn [cc_heap s1]. rewrite list_lookup_insert_eq; [done|]. by apply (W3 (counter_key c)).
    + destruct (local s k) as [loc'|] eqn:Hk'; [|done]. unfold cell_at. cbn [cc_heap s1]. rewrite list_lookup_insert_ne; [done|].
      intros <-. by apply Hk, (W2 k (counter_key c) loc).
Qed.

(** The counters with something to send. *)
Definition queued s k : bool := bool_decide (is_Some (updates (cc_batcher s) !! k)).

Definition with_batcher s (b : Batcher) : CountersCache := mkCountersCache (cc_cache s) b (cc_heap s).

(** Queueing a counter that is cached. *)
Lemma queue_view s c x loc b' :
  cc_wf s -> moka_get (cc_cache s) (counter_key c) = Some (x, loc) ->
  updates b' = updates (cc_batcher s) \/ updates b' = <[counter_key c := (c, loc)]> (updates (cc_batcher s)) ->
  cc_wf (with_batcher s b') /\ (forall k, local (with_batcher s b') k = local s k).
Proof.
  intros [W1 W2 W3 W4 W5] Hc Hb.
  assert (Hl : forall k, local (with_batcher s b') k = local s k).
  { intros k. unfold local, with_batcher. cbn [cc_cache cc_batcher]. destruct Hb as [-> | ->]; [done|].
    destruct (decide (k = counter_key c)) as [->|Hne]; [by rewrite Hc|]. by rewrite lookup_insert_ne. }
  split; [split|done].
  - intros k loc1 y Hk z loc2. cbn [cc_batcher with_batcher]. cbn [cc_cache with_batcher] in Hk. destruct Hb as [-> | ->]; [by eapply W1|].
    destruct (decide (k = counter_key c)) as [->|Hne]; [rewrite lookup_insert_eq; intros [= <- <-]; congruence|].
    rewrite lookup_insert_ne by done. by eapply W1.
  - intros k k' l. rewrite !Hl. apply W2.
  - intros k l. rewrite Hl. apply W3.
  - done.
  - intros k c' loc'. cbn [cc_batcher with_batcher]. destruct Hb as [-> | ->]; [apply W5|].
    intros [[<- [= <- <-]]|[_ H]]%lookup_insert_Some; [done|by eapply W5].
Qed.

Lemma requires_fast_flush_run t (v : CachedCounterValue) within :
  exists b, runs t v (requires_fast_flush (E := E) within) (Ok b) v.
Proof.
  unfold requires_fast_flush. destruct (ccv_from_authority v) eqn:Ha.
  - eexists. runs_step. rewrite Ha. cbn [negb]. unfold ttl, expiry_ttl. eapply runs_bind; [runs_step; apply runs_ret|]. apply runs_ret.
  - eexists. runs_step. rewrite Ha. apply runs_ret.
Qed.

Lemma batcher_add_run t s c x loc :
  cc_wf s -> moka_get (cc_cache s) (counter_key c) = Some (x, loc) ->
  queued s (counter_key c) = true \/ 0 < limiter (cc_batcher s) ->
  exists s', runs t s (batcher_add (E := E) c loc) (Ok true) s' /\ cc_wf s' /\
    (forall k, local_hits s' t k = local_hits s t k) /\
    (forall k, queued s' k = bool_decide (k = counter_key c) || queued s k) /\
    limiter (cc_batcher s') = limiter (cc_batcher s) - (if queued s (counter_key c) then 0 else 1).
Proof.
  intros Hwf Hc Hroom. assert (Hl : local s (counter_key c) = Some loc) by (unfold local; by rewrite Hc).
  destruct (requires_fast_flush_run t (cell_at s loc) (interval (cc_batcher s))) as [prio Rp].
  assert (Hfast : runs t s (at_loc loc (requires_fast_flush (E := E) (interval (cc_batcher s)))) (Ok prio) s)
    by (apply at_loc_read; [by eapply wf_bound|done]).
  set (u' := if queued s (counter_key c) then updates (cc_batcher s) else <[counter_key c := (c, loc)]> (updates (cc_batcher s))).
  set (l' := limiter (cc_batcher s) - (if queued s (counter_key c) then 0 else 1)).
  set (b' := mkBatcher u' (interval (cc_batcher s)) (if prio then true else priority_flush (cc_batcher s)) l').
  assert (Hu' : updates b' = updates (cc_batcher s) \/ updates b' = <[counter_key c := (c, loc)]> (updates (cc_batcher s)))
    by (unfold b', u'; cbn [updates]; destruct (queued s (counter_key c)); auto).
  destruct (queue_view s c x loc b' Hwf Hc Hu') as [Hwf' Hl'].
  exists (with_batcher s b'). split_and!; [|done| | |done].
  - unfold batcher_add. runs_step. eapply runs_bind; [exact Hfast|]. runs_step.
    unfold b', u', l'. unfold queued in *. destruct (updates (cc_batcher s) !! counter_key c) as [[y arc]|] eqn:Hb.
    + rewrite bool_decide_eq_true_2 by (by eexists). assert (arc = loc) as -> by (by eapply wf_agree).
      rewrite Nat.eqb_refl. cbn [negb]. eapply runs_bind; [runs_step; apply runs_ret|]. rewrite Z.sub_0_r.
      destruct prio; unfold with_batcher; [|destruct s as [ch [u i p l] h]; runs_step; apply runs_ret].
      eapply runs_bind; [|apply runs_ret]. unfold set_priority, put_batcher. do 2 runs_step. apply runs_put.
    + rewrite bool_decide_eq_false_2 in Hroom |- * by (by intros []). destruct Hroom as [Hroom|Hroom]; [done|].
      destruct (Z.leb_spec (limiter (cc_batcher s)) 0); [lia|].
      eapply runs_bind. { eapply runs_bind; [|apply runs_ret]. unfold set_updates, put_batcher. do 2 runs_step. apply runs_put. }
      destruct prio; [|runs_step; apply runs_ret].
      eapply runs_bind; [|apply runs_ret]. unfold set_priority, put_batcher. do 2 runs_step. apply runs_put.
  - intros k. unfold local_hits. rewrite Hl'. done.
  - intros k. unfold queued at 1. cbn [cc_batcher with_batcher updates b']. unfold u'. destruct (decide (k = counter_key c)) as [->|Hne].
    + rewrite bool_decide_eq_true_2 by (destruct (queued s (counter_key c)) eqn:Q; [by apply bool_decide_eq_true in Q|rewrite lookup_insert_eq; by eexists]).
      by rewrite bool_decide_eq_true_2.
    + rewrite (bool_decide_eq_false_2 (k = counter_key c)) by done. destruct (queued s (counter_key c)); [done|].
      by rewrite lookup_insert_ne.
Qed.

(** A counter whose hits can be counted at [t]. *)
Definition countable_local s t d c : Prop :=
  good_window t (window c) /\ 0 < as_micros (window c) /\ local_hits s t (counter_key c) + d <= u64_max.

Lemma increase_by_run t s c d :
  cc_wf s -> countable_local s t d c -> 0 <= d -> queued s (counter_key c) = true \/ 0 < limiter (cc_batcher s) ->
  exists s', runs t s (increase_by (E := E) c d) (Ok true) s' /\ cc_wf s' /\
    (forall k, local_hits s' t k = local_hits s t k + (if decide (k = counter_key c) then d else 0)) /\
    (forall k, queued s' k = bool_decide (k = counter_key c) || queued s k) /\
    limiter (cc_batcher s') = limiter (cc_batcher s) - (if queued s (counter_key c) then 0 else 1).
Proof.
  intros Hwf (Hw & Hm & Hsum) Hd Hroom.
  destruct (find_or_create_run t s c Hwf Hw) as (loc & x & s1 & R1 & Hwf1 & Hb1 & Hc1 & Hh1).
  assert (Hl1 : local s1 (counter_key c) = Some loc) by (unfold local; by rewrite Hc1).
  assert (Hcell : local_hits s1 t (counter_key c) = hits_in (ccv_value (cell_at s1 loc)) t) by (unfold local_hits; by rewrite Hl1).
  assert (Hcw : aev_wf (ccv_value (cell_at s1 loc))).
  { unfold cell_at. destruct (lookup_lt_is_Some_2 (cc_heap s1) loc) as [v Hv]; [by eapply wf_bound|]. rewrite Hv.
    exact (Forall_lookup_1 _ _ _ _ (wf_cells _ Hwf1) Hv). }
  destruct (delta_run t (cell_at s1 loc) c d Hcw Hw Hm Hd) as (n & v' & R2 & Hv' & Hh2); [rewrite <-Hcell, Hh1; done|].
  destruct (local_write s1 c loc v' t Hwf1 Hl1 Hv') as [Hwf2 Hhits2]. set (s2 := mkCountersCache _ _ _) in *.
  destruct (batcher_add_run t s2 c x loc Hwf2 Hc1) as (s3 & R3 & Hwf3 & Hh3 & Hq3 & Hlim3).
  { unfold queued, s2. cbn [cc_batcher]. rewrite Hb1. done. }
  exists s3. split_and!; [|done| | |].
  - unfold increase_by. eapply runs_bind; [exact R1|]. eapply runs_bind; [by apply at_loc_write|exact R3].
  - intros k. rewrite Hh3, Hhits2. case_decide; [subst k; rewrite Hh2, <-Hcell, Hh1; done|]. rewrite Hh1. lia.
  - intros k. rewrite Hq3. unfold queued, s2. cbn [cc_batcher]. by rewrite Hb1.
  - rewrite Hlim3. unfold queued, s2. cbn [cc_batcher]. by rewrite Hb1.
Qed.
End counting.

(** ** [check_and_update] *)

Section check_and_update.
Context {CE : CelEngine} {HO : HashOrder} {MC : MokaCache} {ML : MokaLaws} {MR : MokaRoomy}.
Context {PC : Postcard} {SJ : SerdeJson} {RD : Redis}.
Implicit Types (s : CountersCache) (t : SystemTime) (k : CounterKey) (c : Counter) (S : CachedRedisStorage).

Lemma increase_all_run t S cs d :
  let s := cached_counters S in
  cc_wf s -> NoDup (counter_key <$> cs) -> Forall (countable_local s t d) cs -> 0 <= d ->
  Z.of_nat (length cs) <= limiter (cc_batcher s) ->
  exists s', runs t S (increase_all cs d) (Ok (Some tt)) (upd_cache s' S) /\ cc_wf s' /\
    (forall k, local_hits s' t k = local_hits s t k + (if decide (k ∈ counter_key <$> cs) then d else 0)) /\
    (forall k, queued s' k = bool_decide (k ∈ counter_key <$> cs) || queued s k).
Proof.
  revert S. induction cs as [|c cs IH]; intros S s Hwf Hnd Hcs Hd Hroom.
  { exists s. split_and!; [|done| |done]. - replace (upd_cache s S) with S by (by destruct S). apply runs_ret.
    - intros k. rewrite decide_False by apply not_elem_of_nil. lia. }
  rewrite fmap_cons in Hnd. apply NoDup_cons in Hnd as [Hn Hnd]. apply Forall_cons in Hcs as [Hc Hcs]. cbn [length] in Hroom.
  destruct (increase_by_run (E := StorageErr) t s c d Hwf Hc Hd) as (s1 & R1 & Hwf1 & Hh1 & Hq1 & Hl1); [right; lia|].
  destruct (IH (upd_cache s1 S)) as (s2 & R2 & Hwf2 & Hh2 & Hq2); cbn [cached_counters upd_cache]; [done|done| |done| |].
  { rewrite Forall_forall in Hcs |- *. intros c' Hin. destruct (Hcs c' Hin) as (H1 & H2 & H3). split_and!; [done|done|].
    rewrite Hh1, decide_False; [lia|]. intros Heq. apply Hn. rewrite <-Heq. apply list_elem_of_fmap. by exists c'. }
  { rewrite Hl1. destruct (queued s (counter_key c)); lia. }
  cbn [cached_counters upd_cache] in Hh2, Hq2. exists s2. split_and!; [|done| |].
  - cbn [increase_all]. unfold update_counter. eapply runs_bind; [eapply runs_bind; [by apply on_cache_run|apply runs_ret]|exact R2].
  - intros k. rewrite Hh2, Hh1. rewrite fmap_cons. destruct (decide (k = counter_key c)) as [->|Hne].
    + rewrite decide_False by done. rewrite decide_True by (by left). lia.
    + destruct (decide (k ∈ counter_key <$> cs)); [rewrite decide_True by (by right)|rewrite decide_False by (by intros [?|?]%elem_of_cons)]; lia.
  - intros k. rewrite Hq2, Hq1, fmap_cons. destruct (decide (k = counter_key c)) as [->|Hne].
    + rewrite (bool_decide_eq_true_2 (counter_key c = counter_key c)) by done.
      rewrite (bool_decide_eq_true_2 (counter_key c ∈ counter_key c :: _)) by (by left). by destruct (bool_decide _).
    + rewrite (bool_decide_eq_false_2 (k = counter_key c)) by done. cbn [orb]. f_equal. apply bool_decide_ext. set_solver.
Qed.

(** C22: the cached storage checks and updates on its own view alone.  As long as the
    batcher has room for the counters (with a full one the call waits for a flush) and
    the cache evicts nothing, the call returns without Redis: it admits a request
    exactly when the hits this instance knows of leave room for [delta] in every
    counter; then it counts [delta] in each of them and queues them to be sent, and
    otherwise it counts nothing. *)
Theorem cached_check_and_update_exact t S cs delta :
  let s := cached_counters S in
  cc_wf s -> good_time t -> NoDup (counter_key <$> cs) -> Forall (countable_local s t delta) cs ->
  Forall (fun c => in_u64 (max_value c)) cs -> 0 <= delta -> Z.of_nat (length cs) <= limiter (cc_batcher s) ->
  exists cs' a S', runs t S (check_and_update cs delta) (Ok (Some (cs', a))) S' /\ cc_wf (cached_counters S') /\
    async_redis_storage S' = async_redis_storage S /\ reservations S' = reservations S /\
    cs' = annotated s t <$> cs /\
    (a = AuthOk <-> forall c, c ∈ cs -> local_hits s t (counter_key c) + delta <= max_value c) /\
    (forall k, local_hits (cached_counters S') t k =
       local_hits s t k + (if is_ok a && bool_decide (k ∈ counter_key <$> cs) then delta else 0)) /\
    (forall k, queued (cached_counters S') k = (is_ok a && bool_decide (k ∈ counter_key <$> cs)) || queued s k).
Proof.
  intros s Hwf Ht Hnd Hcs Hmax Hd Hroom.
  destruct (check_local_run t S cs delta Ht Hwf Hmax Hd) as (a & s1 & R1 & V1 & Ha). fold s in R1, V1, Ha.
  destruct a as [|name].
  - assert (Hkeys : counter_key <$> (annotated s t <$> cs) = counter_key <$> cs) by (by rewrite <-list_fmap_compose).
    destruct (increase_all_run t (upd_cache s1 S) (annotated s t <$> cs) delta) as (s2 & R2 & Hwf2 & Hh2 & Hq2);
      cbn [cached_counters upd_cache]; [by apply V1|by rewrite Hkeys| |done| |].
    { rewrite Forall_fmap. rewrite Forall_forall in Hcs |- *. intros c Hc. destruct (Hcs c Hc) as (H1 & H2 & H3).
      split_and!; [done|done|]. rewrite (same_view_hits s s1) by done. exact H3. }
    { rewrite length_fmap. by destruct V1 as (_ & -> & _). }
    cbn [cached_counters upd_cache] in Hh2, Hq2. rewrite Hkeys in Hh2, Hq2.
    exists (annotated s t <$> cs), AuthOk, (upd_cache s2 (upd_cache s1 S)). split_and!; [|done|done|done|done|done| |].
    + unfold check_and_update. eapply runs_bind; [exact R1|]. eapply runs_bind; [exact R2|]. apply runs_ret.
    + intros k. cbn [cached_counters upd_cache is_ok andb]. rewrite Hh2, (same_view_hits s s1) by done. by case_decide; case_bool_decide.
    + intros k. cbn [cached_counters upd_cache is_ok andb]. rewrite Hq2. unfold queued. by destruct V1 as (_ & -> & _).
  - exists (annotated s t <$> cs), (AuthLimited name), (upd_cache s1 S). split_and!; [|by apply V1|done|done|done|done| |].
    + unfold check_and_update. eapply runs_bind; [exact R1|]. apply runs_ret.
    + intros k. cbn [cached_counters upd_cache is_ok andb]. rewrite (same_view_hits s s1) by done. lia.
    + intros k. cbn [cached_counters upd_cache is_ok andb]. unfold queued. by destruct V1 as (_ & -> & _).
Qed.
End check_and_update.
