(* ===== verification/RedisFlush.v ===== *)
(** * Flushing the write-behind cache

    What one round of [flush_batcher_and_update_counters] does when Redis
    answers, and what it does when it does not. *)

From S2P Require Import Prelude AtomicExpiringValue Cel Errors Limit Counter Reservation Storage Moka StorageSpec.
From S2P Require Import AsyncStorage Keys Redis RedisStorage RedisSpec CountersCache RedisCached RedisCachedSpec.

(** Goes on from the end of a sequence. *)
Lemma runs_then {St E A B} t (s : St) (m : M St E A) (n : A -> M St E unit) (k : A -> M St E B) a s1 o s2 :
  runs t s (let* a := m in n a ;;; ret a) (Ok a) s1 -> runs t s1 (k a) o s2 -> runs t s (let* a := m in n a ;;; k a) o s2.
Proof.
  intros H1 H2 w Hw Hs. destruct (H1 w Hw Hs) as [n1 E1]. unfold bind in *.
  destruct (m w) as [[a'|e|msg] w1]; [|done..]. destruct (n a' w1) as [[u|e|msg] w2]; [|done..].
  unfold ret in E1. injection E1 as -> ->. destruct (H2 (mkWorld s1 (w_clock w) n1) Hw eq_refl) as [n2 E2]. exists n2. exact E2.
Qed.

Lemma runs_seq {St E A B C} t (s : St) (m : M St E A) (n : A -> M St E B) (k : B -> M St E C) b s1 o s2 :
  runs t s (let* a := m in n a) (Ok b) s1 -> runs t s1 (k b) o s2 -> runs t s (let* a := m in let* b := n a in k b) o s2.
Proof.
  intros H1 H2 w Hw Hs. destruct (H1 w Hw Hs) as [n1 E1]. unfold bind in *.
  destruct (m w) as [[a'|e|msg] w1]; [|done..]. rewrite E1. apply (H2 (mkWorld s1 (w_clock w) n1) Hw eq_refl).
Qed.

(** ** Collecting a batch *)

Section collecting.
Context {CE : CelEngine} {HO : HashOrder} {MC : MokaCache} {E : Type}.
Implicit Types (s : CountersCache) (t : SystemTime) (k : CounterKey) (c : Counter).

(** States that differ in the flag of the batcher only. *)
Definition same_but_flag s s' : Prop :=
  cc_cache s' = cc_cache s /\ cc_heap s' = cc_heap s /\ updates (cc_batcher s') = updates (cc_batcher s) /\
  limiter (cc_batcher s') = limiter (cc_batcher s) /\ interval (cc_batcher s') = interval (cc_batcher s).

Lemma same_but_flag_wf s s' : same_but_flag s s' -> cc_wf s -> cc_wf s'.
Proof.
  intros (Hc & Hh & Hu & _) [W1 W2 W3 W4 W5]. assert (Hl : forall k, local s' k = local s k) by (intros k; unfold local; by rewrite Hc, Hu).
  split; rewrite ?Hc, ?Hh, ?Hu; [done| | |done|done].
  - intros k k' loc. rewrite !Hl. apply W2.
  - intros k loc. rewrite Hl. apply W3.
Qed.

Lemma same_but_flag_local s s' k : same_but_flag s s' -> local s' k = local s k.
Proof. intros (Hc & Hh & Hu & _). unfold local. by rewrite Hc, Hu. Qed.

Lemma same_but_flag_hits s s' t k : same_but_flag s s' -> local_hits s' t k = local_hits s t k.
Proof. intros (Hc & Hh & Hu & _). unfold local_hits, local, cell_at. by rewrite Hc, Hh, Hu. Qed.

Lemma batch_ready_run t s size : exists b s', runs t s (batch_ready (E := E) size) (Ok b) s' /\ same_but_flag s s'.
Proof.
  unfold batch_ready. destruct (size <=? map_size (updates (cc_batcher s)))%nat eqn:Hs.
  { exists true, s. split; [|done]. runs_step. rewrite Hs. apply runs_ret. }
  destruct (priority_flush (cc_batcher s)) eqn:Hp.
  - exists true, (with_batcher s (mkBatcher (updates (cc_batcher s)) (interval (cc_batcher s)) false (limiter (cc_batcher s)))).
    split; [|done]. runs_step. rewrite Hs, Hp. eapply runs_bind; [|apply runs_ret].
    unfold set_priority, put_batcher. do 2 runs_step. apply runs_put.
  - exists false, s. split; [|done]. runs_step. rewrite Hs, Hp. apply runs_ret.
Qed.

Lemma wait_run t s max wake :
  exists s', runs t s (let* ready := batch_ready (E := E) max in
     if ready then ret tt else match wake with Timer => ret tt | Notified => batch_ready max ;;; ret tt end) (Ok tt) s' /\
    same_but_flag s s'.
Proof.
  destruct (batch_ready_run t s max) as (b & s1 & R1 & V1). destruct b.
  { exists s1. split; [|done]. eapply runs_bind; [exact R1|]. apply runs_ret. }
  destruct wake.
  - exists s1. split; [|done]. eapply runs_bind; [exact R1|]. apply runs_ret.
  - destruct (batch_ready_run t s1 max) as (b & s2 & R2 & V2). exists s2. split.
    + eapply runs_bind; [exact R1|]. cbv iota. eapply runs_bind; [exact R2|]. apply runs_ret.
    + destruct V1 as (A1 & A2 & A3 & A4 & A5), V2 as (B1 & B2 & B3 & B4 & B5). repeat split; congruence.
Qed.

(** The entries of the batcher, in the order they are visited. *)
Definition queue s : list (Counter * nat) := (hash_iter (updates (cc_batcher s))).*2.

Lemma queue_elem s c loc : cc_wf s -> (c, loc) ∈ queue s <-> updates (cc_batcher s) !! counter_key c = Some (c, loc).
Proof.
  intros Hwf. unfold queue. rewrite list_elem_of_fmap. setoid_rewrite hash_iter_perm. split.
  - intros ([k [c' loc']] & [= -> ->] & Hin%elem_of_map_to_list). by rewrite (wf_queue s Hwf k c' loc').
  - intros Hin. exists (counter_key c, (c, loc)). split; [done|]. by apply elem_of_map_to_list.
Qed.

Lemma queue_length s : length (queue s) = map_size (updates (cc_batcher s)).
Proof. unfold queue. rewrite length_fmap, hash_iter_perm. apply length_map_to_list. Qed.

Lemma fast_flush_run t s es :
  (forall c loc, (c, loc) ∈ es -> (loc < length (cc_heap s))%nat) ->
  exists fast, runs t s (fast_flush (E := E) es) (Ok fast) s /\ (forall c, c ∈ fast -> c ∈ es.*1) /\ (length fast <= length es)%nat.
Proof.
  intros Hes. unfold fast_flush.
  assert (Hgen : forall acc, exists fast, runs (E := E) t s (foldM (fun acc cl =>
      let* fast := at_loc cl.2 (requires_fast_flush (interval (cc_batcher s))) in
      ret (if fast then acc ++ [cl.1] else acc)) acc es) (Ok (acc ++ fast)) s /\
    (forall c, c ∈ fast -> c ∈ es.*1) /\ (length fast <= length es)%nat).
  { induction es as [|[c loc] es IH]; intros acc.
    { exists []. split_and!; [rewrite app_nil_r; apply runs_ret|done|done]. }
    destruct (requires_fast_flush_run (E := E) t (cell_at s loc) (interval (cc_batcher s))) as [b Rb].
    assert (Rl : runs t s (at_loc loc (requires_fast_flush (E := E) (interval (cc_batcher s)))) (Ok b) s).
    { apply at_loc_read; [|done]. apply (Hes c). by left. }
    destruct (IH ltac:(intros c' loc' Hin; apply (Hes c'); by right) (if b then acc ++ [c] else acc)) as (fast & Rf & Hin & Hlen).
    exists (if b then c :: fast else fast). split_and!.
    - cbn [foldM]. eapply runs_bind; [eapply runs_bind; [exact Rl|apply runs_ret]|]. cbn [fst]. destruct b; [|exact Rf].
      rewrite <-(assoc_L (++)) in Rf. exact Rf.
    - intros c' Hc'. cbn [fmap list_fmap fst]. destruct b; [apply elem_of_cons in Hc' as [->|Hc']; [by left|]|]; right; by apply Hin.
    - destruct b; simpl; lia. }
  destruct (Hgen []) as (fast & Rf & Hf). exists fast. split; [|done]. runs_step. exact Rf.
Qed.

Lemma select_batch_run t s max :
  cc_wf s ->
  exists batch, runs t s (select_batch (E := E) max) (Ok batch) s /\
    (forall c, c ∈ batch -> exists loc, updates (cc_batcher s) !! counter_key c = Some (c, loc)) /\
    ((0 < max)%nat -> updates (cc_batcher s) <> ∅ -> batch <> []) /\
    ((2 * map_size (updates (cc_batcher s)) <= max)%nat ->
      forall k c loc, updates (cc_batcher s) !! k = Some (c, loc) -> c ∈ batch).
Proof.
  intros Hwf. destruct (fast_flush_run t s (queue s)) as (fast & Rf & Hin & Hlen).
  { intros c loc Hc. apply queue_elem in Hc; [|done]. apply (wf_bound s Hwf (counter_key c)).
    unfold local. destruct (moka_get (cc_cache s) (counter_key c)) as [[x l]|] eqn:Hm; [by rewrite (wf_agree s Hwf _ _ _ Hm _ _ Hc)|by rewrite Hc]. }
  set (b1 := take max fast).
  exists (if (length b1 <=? max)%nat then b1 ++ take (max - length b1) (fst <$> queue s) else b1).
  assert (Hb1 : (length b1 <= max)%nat) by (unfold b1; rewrite length_take; lia).
  rewrite (proj2 (Nat.leb_le _ _) Hb1). split_and!.
  - unfold select_batch. runs_step. eapply runs_bind; [exact Rf|]. fold b1. rewrite (proj2 (Nat.leb_le _ _) Hb1). apply runs_ret.
  - intros c Hc. assert (Hq : c ∈ (queue s).*1).
    { apply elem_of_app in Hc as [Hc|Hc]; [apply Hin|]; by apply elem_of_take in Hc as (i & Hi & _); apply list_elem_of_lookup_2 in Hi. }
    apply list_elem_of_fmap in Hq as ([c' loc] & -> & Hq). exists loc. by apply queue_elem.
  - intros Hmax Hne [Hnil1 Hnil2]%app_nil. rewrite Hnil1 in Hnil2. cbn [length] in Hnil2. rewrite Nat.sub_0_r in Hnil2.
    apply (f_equal length) in Hnil2. rewrite length_take, length_fmap, queue_length in Hnil2. cbn [length] in Hnil2.
    apply Hne, map_size_empty_inv. change (map_size (updates (cc_batcher s)) = 0%nat). lia.
  - intros Hmax k c loc Hk. apply elem_of_app. right. rewrite take_ge.
    + apply list_elem_of_fmap. exists (c, loc). split; [done|]. apply queue_elem; [done|]. by rewrite (wf_queue s Hwf k c loc Hk).
    + rewrite queue_length in Hlen. rewrite length_fmap, queue_length. unfold b1. rewrite length_take. lia.
Qed.

(** The batch is part of the queue; it is all of it if there is room, and never empty
    without need. *)
Lemma collect_batch_run t s max wake :
  cc_wf s ->
  exists batch m s', runs t s (collect_batch (E := E) max wake) (Ok (batch, m)) s' /\ same_but_flag s s' /\
    m ⊆ updates (cc_batcher s) /\ (forall k, is_Some (m !! k) <-> k ∈ counter_key <$> batch) /\
    ((0 < max)%nat -> updates (cc_batcher s) <> ∅ -> m <> ∅) /\
    ((2 * map_size (updates (cc_batcher s)) <= max)%nat -> m = updates (cc_batcher s)).
Proof.
  intros Hwf. destruct (wait_run t s max wake) as (s1 & R1 & V1).
  assert (Hwf1 : cc_wf s1) by (by eapply same_but_flag_wf). assert (Hu : updates (cc_batcher s1) = updates (cc_batcher s)) by apply V1.
  destruct (select_batch_run t s1 max Hwf1) as (batch & R2 & Hin & Hne & Hall). rewrite Hu in Hin, Hne, Hall.
  assert (Hfold : forall m0, m0 ⊆ updates (cc_batcher s) -> exists m, runs t s1 (foldM (fun m c =>
      let* r := in_batcher c in
      match r with
      | Some loc => ret (<[counter_key c := (default c (fst <$> m !! counter_key c), loc)]> m)
      | None => lift (Panic "called `Option::unwrap()` on a `None` value")
      end) m0 batch) (Ok m : Outcome E _) s1 /\ m ⊆ updates (cc_batcher s) /\
      (forall k, is_Some (m !! k) <-> is_Some (m0 !! k) \/ k ∈ counter_key <$> batch)).
  { clear Hne Hall R2. induction batch as [|c batch IH]; intros m0 Hm0.
    { exists m0. split_and!; [apply runs_ret|done|]. intros k. split; [auto|]. intros [?|Hk]; [done|]. by apply not_elem_of_nil in Hk. }
    destruct (Hin c) as [loc Hc]; [by left|].
    assert (Hnew : <[counter_key c := (default c (fst <$> m0 !! counter_key c), loc)]> m0 ⊆ updates (cc_batcher s)).
    { apply insert_subseteq_l; [|done]. rewrite Hc. destruct (m0 !! counter_key c) as [[c' l']|] eqn:Hm; [|done].
      pose proof (lookup_weaken _ _ _ _ Hm Hm0) as Hm'. rewrite Hc in Hm'. by injection Hm' as <- <-. }
    destruct (IH ltac:(intros c' Hc'; apply Hin; by right) _ Hnew) as (m & Rm & Hsub & Hdom).
    exists m. split_and!; [|done|].
    - cbn [foldM]. eapply runs_bind; [|exact Rm]. unfold in_batcher. eapply runs_bind; [runs_step; apply runs_ret|].
      rewrite Hu, Hc. cbn [fmap option_fmap option_map snd]. apply runs_ret.
    - intros k. rewrite Hdom, fmap_cons, elem_of_cons. destruct (decide (k = counter_key c)) as [->|Hk].
      + rewrite lookup_insert_eq. split; intros _; [by right; left|left; by eexists].
      + rewrite lookup_insert_ne by done. naive_solver. }
  destruct (Hfold ∅) as (m & Rm & Hsub & Hdom); [apply map_empty_subseteq|].
  assert (Hdom' : forall k, is_Some (m !! k) <-> k ∈ counter_key <$> batch).
  { intros k. rewrite Hdom, lookup_empty. split; [intros [[? ?]|?]; [done|done]|auto]. }
  exists batch, m, s1. split_and!; [|done|done|done| |].
  - unfold collect_batch. eapply runs_seq; [exact R1|]. eapply runs_bind; [exact R2|]. eapply runs_bind; [exact Rm|]. apply runs_ret.
  - intros Hmax Hnz Hm. destruct batch as [|c batch]; [by apply Hne|].
    destruct (proj2 (Hdom' (counter_key c))) as [x Hx]; [by left|]. by rewrite Hm, lookup_empty in Hx.
  - intros Hmax. apply (anti_symm (⊆)); [done|]. apply map_subseteq_spec. intros k [c loc] Hk.
    destruct (proj2 (Hdom' k)) as [[c' loc'] Hx].
    { apply list_elem_of_fmap. exists c. split; [|by eapply Hall]. symmetry. rewrite <-Hu in Hk. by eapply wf_queue. }
    rewrite Hx. pose proof (lookup_weaken _ _ _ _ Hx Hsub) as Hk'. congruence.
Qed.
End collecting.

(** ** Taking what is pending *)

Section pending.
Context {CE : CelEngine} {HO : HashOrder} {MC : MokaCache} {ML : MokaLaws} {MR : MokaRoomy}.
Context {PC : Postcard} {SJ : SerdeJson} {RD : Redis}.
Implicit Types (s : CountersCache) (t : SystemTime) (k : CounterKey) (c : Counter) (S : CachedRedisStorage) (v : CachedCounterValue).

(** The writes of a value Redis has not got. *)
Definition unsent v t : Z := writes_offset (initial_value v) (hits_in (ccv_value v) t).

(** The value once they are taken. *)
Definition committed v t : CachedCounterValue := mkCached (ccv_value v) (hits_in (ccv_value v) t) (ccv_from_authority v).

Lemma pending_run {E} t v :
  good_time t ->
  runs t v (pending_writes_and_value (E := E)) (Ok (Some (unsent v t, hits_in (ccv_value v) t))) (committed v t).
Proof.
  intros Ht. unfold pending_writes_and_value. runs_step. eapply runs_bind.
  { pose proof (hits_run (E := E) t v Ht) as Hh. unfold hits in Hh.
    intros w Hw Hs. destruct (Hh w Hw Hs) as [n Hn]. exists n. unfold bind at 1, get in Hn. rewrite Hs in Hn. exact Hn. }
  runs_step. unfold commit_writes, compare_exchange. rewrite Z.eqb_refl. runs_step. apply runs_ret.
Qed.

Definition batch_item s t (cl : Counter * nat) : BatchItem :=
  mkItem (redis_key cl.1) (key_for_counters_of_limit (ctr_limit cl.1)) (seconds (ctr_limit cl.1)) (unsent (cell_at s cl.2) t).

Definition to_flush s t (cl : Counter * nat) : Flushed :=
  mkFlushed cl.1 (hits_in (ccv_value (cell_at s cl.2)) t) (unsent (cell_at s cl.2) t) UNIX_EPOCH.

Definition active s t (l : list (Counter * nat)) : list (Counter * nat) :=
  filter (fun cl => 0 < unsent (cell_at s cl.2) t) l.

(** States that differ in what the values at [locs] know of Redis. *)
Definition taken s s' t (locs : list nat) : Prop :=
  cc_cache s' = cc_cache s /\ cc_batcher s' = cc_batcher s /\ length (cc_heap s') = length (cc_heap s) /\
  (forall loc, (loc < length (cc_heap s))%nat ->
     cell_at s' loc = if decide (loc ∈ locs) then committed (cell_at s loc) t else cell_at s loc).

Lemma taken_local s s' t locs k : taken s s' t locs -> local s' k = local s k.
Proof. intros (Hc & Hb & _). unfold local. by rewrite Hc, Hb. Qed.

Lemma taken_hits s s' t locs k : cc_wf s -> taken s s' t locs -> local_hits s' t k = local_hits s t k.
Proof.
  intros Hwf Ht. unfold local_hits. rewrite (taken_local s s' t locs k Ht). destruct (local s k) as [loc|] eqn:Hl; [|done].
  destruct Ht as (_ & _ & _ & Hcell). rewrite Hcell by (by eapply wf_bound). by case_decide.
Qed.

Lemma taken_wf s s' t locs : cc_wf s -> taken s s' t locs -> cc_wf s'.
Proof.
  intros [W1 W2 W3 W4 W5] Ht. pose proof (fun k => taken_local s s' t locs k Ht) as Hl. destruct Ht as (Hc & Hb & Hlen & Hcell).
  split; rewrite ?Hc, ?Hb; [done| | | |done].
  - intros k k' loc. rewrite !Hl. apply W2.
  - intros k loc. rewrite Hl, Hlen. apply W3.
  - rewrite Forall_lookup in W4 |- *. intros i v Hv. assert (Hi : (i < length (cc_heap s))%nat) by (rewrite <-Hlen; by eapply lookup_lt_Some).
    specialize (Hcell i Hi). unfold cell_at at 1 in Hcell. rewrite Hv in Hcell. simpl in Hcell. subst v.
    destruct (lookup_lt_is_Some_2 _ _ Hi) as [v0 Hv0]. specialize (W4 i v0 Hv0). unfold cell_at. rewrite Hv0. by case_decide.
Qed.

(** One more location that was taken. *)
Lemma taken_snoc s s0 t locs loc :
  taken s s0 t locs -> (loc < length (cc_heap s))%nat ->
  taken s (mkCountersCache (cc_cache s0) (cc_batcher s0) (<[loc := committed (cell_at s loc) t]> (cc_heap s0))) t (locs ++ [loc]).
Proof.
  intros (Hc0 & Hb0 & Hl0 & Hcell0) Hloc. split_and!; [done|done|cbn [cc_heap]; by rewrite length_insert|].
  intros l1 Hl1. unfold cell_at at 1. cbn [cc_heap]. destruct (decide (l1 = loc)) as [->|Hne].
  - rewrite list_lookup_insert_eq by (by rewrite Hl0). rewrite decide_True; [done|]. apply elem_of_app. right. by left.
  - rewrite list_lookup_insert_ne by done. fold (cell_at s0 l1). rewrite Hcell0 by done.
    destruct (decide (l1 ∈ locs)); [by rewrite decide_True by (apply elem_of_app; by left)|].
    rewrite decide_False; [done|]. intros [?|?%list_elem_of_singleton]%elem_of_app; done.
Qed.

Lemma take_pending_run t S l :
  let s := cached_counters S in
  good_time t -> NoDup l.*2 -> Forall (fun cl => (cl.2 < length (cc_heap s))%nat) l ->
  exists s', runs t S (take_pending l) (Ok (batch_item s t <$> active s t l, to_flush s t <$> active s t l)) (upd_cache s' S) /\
    taken s s' t l.*2.
Proof.
  intros s Ht. unfold take_pending.
  assert (Hgen : forall l0 acc S0, NoDup (l0 ++ l).*2 -> Forall (fun cl => (cl.2 < length (cc_heap s))%nat) l ->
    (exists s0, S0 = upd_cache s0 S /\ taken s s0 t l0.*2) ->
    exists s', runs t S0 (foldM (fun acc cl =>
      let* r := on_cache (at_loc cl.2 pending_writes_and_value) in
      let* '(delta, last_value_from_redis) := lift (expect_some "State machine is wrong!" r) in
      if delta >? 0 then
        let* k := lift (key_for_counter cl.1) in
        ret (acc.1 ++ [mkItem k (key_for_counters_of_limit (ctr_limit cl.1)) (as_secs (window cl.1)) delta],
             acc.2 ++ [mkFlushed cl.1 last_value_from_redis delta UNIX_EPOCH])
      else ret acc) acc l)
      (Ok (acc.1 ++ (batch_item s t <$> active s t l), acc.2 ++ (to_flush s t <$> active s t l))) (upd_cache s' S) /\
      taken s s' t (l0 ++ l).*2).
  { induction l as [|[c loc] l IH]; intros l0 acc S0 Hnd Hb (s0 & -> & Hs0).
    { exists s0. rewrite !app_nil_r. split; [|done]. destruct acc. apply runs_ret. }
    apply Forall_cons in Hb as [Hloc Hb]. simpl in Hloc. pose proof Hs0 as (Hc0 & Hb0 & Hl0 & Hcell0).
    assert (Hnot : loc ∉ l0.*2).
    { rewrite fmap_app, fmap_cons in Hnd. apply NoDup_app in Hnd as (_ & Hd & _). intros Hin. apply (Hd loc Hin). by left. }
    assert (Hc : cell_at s0 loc = cell_at s loc) by (rewrite Hcell0 by done; by rewrite decide_False).
    set (s1 := mkCountersCache (cc_cache s0) (cc_batcher s0) (<[loc := committed (cell_at s loc) t]> (cc_heap s0))).
    assert (R1 : runs t (upd_cache s0 S) (on_cache (at_loc loc pending_writes_and_value))
                   (Ok (Some (unsent (cell_at s loc) t, hits_in (ccv_value (cell_at s loc)) t))) (upd_cache s1 S)).
    { apply (on_cache_run t (upd_cache s0 S)). cbn [cached_counters upd_cache]. apply at_loc_write. rewrite Hc. by apply pending_run. }
    assert (Hs1 : taken s s1 t (l0 ++ [(c, loc)]).*2).
    { rewrite fmap_app. by apply taken_snoc. }
    set (acc1 := if unsent (cell_at s loc) t >? 0 then (acc.1 ++ [batch_item s t (c, loc)], acc.2 ++ [to_flush s t (c, loc)]) else acc).
    destruct (IH (l0 ++ [(c, loc)]) acc1 (upd_cache s1 S)) as (s' & R & Hs'); [by rewrite <-(assoc_L (++))|done|by exists s1|].
    exists s'. rewrite <-(assoc_L (++)) in Hs'. split; [|exact Hs']. cbn [foldM]. eapply (runs_bind _ _ _ _ acc1).
    - eapply runs_bind; [exact R1|]. cbn [expect_some]. eapply runs_bind; [apply runs_lift|]. cbv beta iota. unfold acc1.
      destruct (unsent (cell_at s loc) t >? 0); [|apply runs_ret]. rewrite key_for_counter_run. runs_step. cbn [fst snd].
      rewrite as_secs_window. apply runs_ret.
    - unfold active. rewrite filter_cons. unfold acc1 in R. cbn [snd].
      destruct (Z.gtb_spec (unsent (cell_at s loc) t) 0) as [Hp|Hp].
      + rewrite decide_True by done. rewrite !fmap_cons. cbn [fst snd] in R. rewrite <-!(assoc_L (++)) in R. exact R.
      + rewrite decide_False by lia. exact R. }
  intros Hnd Hb. destruct (Hgen [] ([], []) S Hnd Hb) as (s' & R & Hs').
  { exists s. split; [by destruct S|]. split_and!; [done|done|done|]. intros loc _. by rewrite decide_False by apply not_elem_of_nil. }
  exists s'. split; [exact R|exact Hs'].
Qed.
End pending.

(** ** What Redis does with a batch *)

Section batch.
Context {RD : Redis} {RL : RedisLaws}.
Implicit Types (d : rdata) (ms : Z) (i : BatchItem).

Definition batch_cell d ms i : Z * option Z := counted_cell ms (cell d ms (bi_key i)) (bi_ttl i) (bi_delta i).

(** The value of the counter and the end of its window, after the batch. *)
Definition batch_reply d ms i : list Z :=
  [cell_value d ms (bi_key i) + bi_delta i; default 0 (batch_cell d ms i).2].

(** Lua has the numbers of the item exactly. *)
Definition batch_ok d ms i : Prop :=
  0 < bi_ttl i /\ 0 <= bi_delta i /\ cell_value d ms (bi_key i) + bi_delta i < 9007199254740992 /\
  forall e, (batch_cell d ms i).2 = Some e -> e < 9007199254740992.

Lemma batch_update_run d ms items :
  0 <= ms -> cells_ok d ms -> Forall (batch_ok d ms) items -> NoDup (bi_key <$> items) ->
  exists d', runs 0 d (batch_update_counters ms items) (Ok (concat (batch_reply d ms <$> items))) d' /\ cells_ok d' ms /\
    (forall i, i ∈ items -> cell d' ms (bi_key i) = Some (batch_cell d ms i)) /\
    (forall k, k ∉ bi_key <$> items -> cell d' ms k = cell d ms k) /\ (forall k, fields d' ms k = fields d ms k).
Proof.
  intros Hms. revert d. induction items as [|i items IH]; intros d Hok Hi Hnd.
  { exists d. split_and!; [apply runs_ret|done| |done|done]. intros i Hin. by apply not_elem_of_nil in Hin. }
  apply Forall_cons in Hi as [(Httl & Hd & Hv & He) Hi]. rewrite fmap_cons in Hnd. apply NoDup_cons in Hnd as [Hn Hnd].
  assert (Hv0 : 0 <= cell_value d ms (bi_key i)).
  { unfold cell_value. destruct (cell d ms (bi_key i)) as [[v e]|] eqn:Hc; simpl; [by destruct (Hok _ _ _ Hc)|done]. }
  destruct (update_cell_run 0 d ms (bi_key i) (bi_limit_key i) (bi_ttl i) (bi_delta i)) as (d1 & R1 & Hc1 & Hf1);
    [done|done|unfold in_i64; lia|done|unfold in_i64; lia|].
  assert (Hok1 : cells_ok d1 ms) by exact (counted_cells_ok d d1 ms _ _ _ Hok Httl Hd Hc1).
  assert (Hfr : forall j, j ∈ items -> cell d1 ms (bi_key j) = cell d ms (bi_key j)).
  { intros j Hj. rewrite Hc1, decide_False; [done|]. intros Heq. apply Hn. rewrite <-Heq. apply list_elem_of_fmap. by exists j. }
  destruct (IH d1 Hok1) as (d' & R & Hok' & Hin & Hout & Hf); [|done|].
  { rewrite Forall_forall in Hi |- *. intros j Hj. unfold batch_ok, batch_cell, cell_value. rewrite Hfr by done. by apply Hi. }
  exists d'. split_and!; [|done| | |intros k; by rewrite Hf, Hf1].
  - cbn [batch_update_counters]. rewrite fmap_cons. cbn [concat batch_reply app].
    assert (Hcell : cell d1 ms (bi_key i) = Some (batch_cell d ms i)) by (by rewrite Hc1, decide_True).
    destruct (Hok1 _ _ _ (eq_trans Hcell (f_equal Some (surjective_pairing _)))) as (_ & e & Hee & Hlt).
    eapply (runs_then 0 d (r_call (fun d => r_incrby d ms (bi_key i) (bi_delta i))) (fun c =>
      if lua_num c =? lua_num (bi_delta i) then r_write (fun d => r_expire_nx d ms (bi_key i) (bi_ttl i)) ;;; r_write (fun d => r_sadd d ms (bi_limit_key i) (bi_key i)) else ret tt)); [exact R1|].
    eapply runs_bind; [apply runs_read|]. eapply runs_bind; [exact R|]. cbv beta.
    rewrite (lua_num_small (cell_value d ms (bi_key i) + bi_delta i)) by lia.
    rewrite r_pexpiretime_spec, Hcell. destruct (batch_cell d ms i) as [v oe] eqn:Hbc. cbn [snd] in Hee. subst oe. cbn [default from_option snd].
    specialize (He e eq_refl). rewrite lua_num_small by lia.
    replace (concat (batch_reply d1 ms <$> items)) with (concat (batch_reply d ms <$> items)); [apply runs_ret|].
    f_equal. apply list_fmap_ext. intros n j Hj%list_elem_of_lookup_2. unfold batch_reply, batch_cell, cell_value. by rewrite Hfr.
  - intros j Hj. apply elem_of_cons in Hj as [->|Hj]; [by rewrite Hout, Hc1, decide_True|].
    rewrite (Hin j Hj). unfold batch_cell. by rewrite Hfr.
  - intros k Hk. rewrite fmap_cons in Hk. apply not_elem_of_cons in Hk as [Hne Hk]. by rewrite Hout, Hc1, decide_False.
Qed.
End batch.

(** ** A round that Redis answers *)

Section flushing.
Context {CE : CelEngine} {HO : HashOrder} {MC : MokaCache} {ML : MokaLaws} {MR : MokaRoomy}.
Context {PC : Postcard} {SJ : SerdeJson} {RD : Redis} {RL : RedisLaws}.
Implicit Types (s : CountersCache) (t : SystemTime) (k : CounterKey) (c : Counter) (S : CachedRedisStorage) (d : rdata).

Abbreviation Entry := (Counter * nat)%type.

(** What the round learns of an entry it sent. *)
Definition synced d s t (cl : Entry) : Flushed :=
  let rv := redis_value d t cl.1 + unsent (cell_at s cl.2) t in
  mkFlushed cl.1 rv (u64_saturating_sub rv (hits_in (ccv_value (cell_at s cl.2)) t))
    (from_millis (default 0 (batch_cell d (as_millis t) (batch_item s t cl)).2)).

Definition flushable d s t (cl : Entry) : Prop := batch_ok d (as_millis t) (batch_item s t cl).

Lemma read_reply_run d s t (act : list Entry) :
  0 <= as_millis t -> cells_ok d (as_millis t) -> Forall (flushable d s t) act ->
  read_reply (to_flush s t <$> act) (concat (batch_reply d (as_millis t) <$> (batch_item s t <$> act))) = Ok (synced d s t <$> act).
Proof.
  intros Hms Hok. induction 1 as [|cl act (Httl & Hd & Hv & He) _ IH]; [done|]. rewrite !fmap_cons. cbn [concat batch_reply app read_reply].
  set (i := batch_item s t cl) in *.
  assert (Hv0 : 0 <= cell_value d (as_millis t) (bi_key i)).
  { unfold cell_value. destruct (cell d (as_millis t) (bi_key i)) as [[v e]|] eqn:Hc; simpl; [by destruct (Hok _ _ _ Hc)|done]. }
  assert (He' : exists e, (batch_cell d (as_millis t) i).2 = Some e /\ 0 < e).
  { unfold batch_cell, counted_cell. destruct (cell d (as_millis t) (bi_key i)) as [[v e]|] eqn:Hc; cbn [snd].
    - destruct (Hok _ _ _ Hc) as (_ & e' & -> & Hlt). exists e'. split; [done|lia].
    - eexists. split; [done|lia]. }
  destruct He' as (e & Hee & Hpos). specialize (He e Hee). unfold synced at 1. fold i. rewrite Hee. simpl default.
  unfold u64_try_from_or_0. rewrite !(proj2 (Z.ltb_ge _ 0)) by lia.
  unfold systime_add, UNIX_EPOCH. rewrite Z.add_0_l. rewrite (proj2 (Z.leb_le _ _)) by (unfold systime_max, from_millis, nanos_per_sec; simpl default; lia).
  cbn [outcome_bind]. rewrite IH. done.
Qed.

(** What a round needs of the queue: different counters have different keys in Redis,
    and the numbers are in range. *)
Record flush_ready d s t : Prop := {
  fr_keys : forall k k' c c' loc loc', updates (cc_batcher s) !! k = Some (c, loc) ->
    updates (cc_batcher s) !! k' = Some (c', loc') -> redis_key c = redis_key c' -> k = k';
  fr_flushable : forall k c loc, updates (cc_batcher s) !! k = Some (c, loc) -> flushable d s t (c, loc);
  fr_window : forall k c loc, updates (cc_batcher s) !! k = Some (c, loc) ->
    good_window t (window c) /\ 0 < as_micros (window c);
  fr_hits : forall k c loc, updates (cc_batcher s) !! k = Some (c, loc) ->
    local_hits s t k < 9007199254740992 /\ 0 <= initial_value (cell_at s loc)
}.

Lemma queued_local s k c loc : cc_wf s -> updates (cc_batcher s) !! k = Some (c, loc) -> local s k = Some loc.
Proof.
  intros Hwf Hk. unfold local. destruct (moka_get (cc_cache s) k) as [[x l]|] eqn:Hm; [by rewrite (wf_agree s Hwf _ _ _ Hm _ _ Hk)|by rewrite Hk].
Qed.

Section batch_of.
Context (s : CountersCache) (m : gmap CounterKey (Counter * nat)).
Hypothesis Hwf : cc_wf s.
Hypothesis Hsub : m ⊆ updates (cc_batcher s).

Lemma batch_elem c loc : (c, loc) ∈ (hash_iter m).*2 <-> m !! counter_key c = Some (c, loc).
Proof.
  rewrite list_elem_of_fmap. setoid_rewrite hash_iter_perm. split.
  - intros ([k [c' loc']] & [= -> ->] & Hin%elem_of_map_to_list).
    by rewrite (wf_queue s Hwf k c' loc' (lookup_weaken _ _ _ _ Hin Hsub)).
  - intros Hin. exists (counter_key c, (c, loc)). split; [done|]. by apply elem_of_map_to_list.
Qed.

Lemma batch_nodup : NoDup (hash_iter m).*2.
Proof.
  apply NoDup_fmap_2_strong; [|rewrite hash_iter_perm; apply NoDup_map_to_list].
  intros [k [c loc]] [k' [c' loc']]. rewrite !hash_iter_perm, !elem_of_map_to_list. intros Hk Hk' [= -> ->].
  pose proof (wf_queue s Hwf _ _ _ (lookup_weaken _ _ _ _ Hk Hsub)). pose proof (wf_queue s Hwf _ _ _ (lookup_weaken _ _ _ _ Hk' Hsub)). congruence.
Qed.

(** A function of the entries that separates their keys separates them. *)
Lemma batch_nodup_by {A} (f : Counter * nat -> A) (l : list (Counter * nat)) :
  (forall cl, cl ∈ l -> cl ∈ (hash_iter m).*2) -> NoDup l ->
  (forall k k' cl cl', m !! k = Some cl -> m !! k' = Some cl' -> f cl = f cl' -> k = k') -> NoDup (f <$> l).
Proof.
  intros Hl Hnd Hf. apply NoDup_fmap_2_strong; [|done]. intros [c loc] [c' loc'] H1%Hl%batch_elem H2%Hl%batch_elem Heq.
  pose proof (Hf _ _ _ _ H1 H2 Heq) as Hk. rewrite Hk in H1. congruence.
Qed.

Lemma batch_locs_nodup : NoDup ((hash_iter m).*2).*2.
Proof.
  apply batch_nodup_by; [done|apply batch_nodup|]. intros k k' [c loc] [c' loc'] H1 H2 Heq. simpl in Heq. subst loc'.
  apply (wf_inj s Hwf k k' loc); by eapply queued_local, lookup_weaken.
Qed.

Lemma batch_bound : Forall (fun cl => (cl.2 < length (cc_heap s))%nat) (hash_iter m).*2.
Proof.
  apply Forall_forall. intros [c loc] Hin%batch_elem. apply (wf_bound s Hwf (counter_key c)).
  by eapply queued_local, lookup_weaken.
Qed.
End batch_of.

(** What the round changed in Redis. *)
Definition sent_to d d' s t (act : list Entry) : Prop :=
  (forall cl, cl ∈ act -> cell d' (as_millis t) (redis_key cl.1) = Some (batch_cell d (as_millis t) (batch_item s t cl))) /\
  (forall rk, rk ∉ (fun cl => redis_key cl.1) <$> act -> cell d' (as_millis t) rk = cell d (as_millis t) rk) /\
  (forall rk, fields d' (as_millis t) rk = fields d (as_millis t) rk).

(** What the script is sent, and what it does. *)
Lemma batch_script_run d s t m :
  cc_wf s -> good_time t -> cells_ok d (as_millis t) -> m ⊆ updates (cc_batcher s) -> flush_ready d s t ->
  let act := active s t (hash_iter m).*2 in
  Forall (flushable d s t) act /\
  exists d', runs 0 d (batch_update_counters (as_millis t) (batch_item s t <$> act))
      (Ok (concat (batch_reply d (as_millis t) <$> (batch_item s t <$> act)))) d' /\
    cells_ok d' (as_millis t) /\ sent_to d d' s t act.
Proof.
  intros Hwf Ht Hok Hsub [Fk Ff Fw Fh] act.
  assert (Hms : 0 <= as_millis t) by (destruct Ht; unfold as_millis; apply Z.div_pos; lia).
  assert (Hact : forall cl, cl ∈ act -> cl ∈ (hash_iter m).*2 /\ updates (cc_batcher s) !! counter_key cl.1 = Some cl).
  { intros [c loc] Hin. apply list_elem_of_filter in Hin as [_ Hin]. split; [done|]. apply (batch_elem s) in Hin; [|done|done]. by eapply lookup_weaken. }
  assert (Hfl : Forall (flushable d s t) act).
  { apply Forall_forall. intros [c loc] Hin. destruct (Hact _ Hin) as [_ Hu]. by eapply Ff. }
  assert (Hkeys : bi_key <$> (batch_item s t <$> act) = (fun cl => redis_key cl.1) <$> act) by (by rewrite <-list_fmap_compose).
  split; [done|]. destruct (batch_update_run d (as_millis t) (batch_item s t <$> act)) as (d' & R2 & Hok' & Hin' & Hout' & Hf'); [done|done| | |].
  { by apply Forall_fmap. }
  { rewrite Hkeys. apply (batch_nodup_by s m Hwf Hsub); [intros cl Hcl; by apply Hact| |].
    - apply NoDup_filter. by apply (batch_nodup s).
    - intros k k' [c loc] [c' loc'] H1 H2. eapply Fk; by eapply lookup_weaken. }
  rewrite Hkeys in Hout'. exists d'. split_and!; [done|done|split_and!; [|exact Hout'|done]].
  intros cl Hcl. apply (Hin' (batch_item s t cl)). apply list_elem_of_fmap. by exists cl.
Qed.

Lemma update_counters_run t S d m :
  let s := cached_counters S in
  async_redis_storage S = idle d -> cc_wf s -> good_time t -> cells_ok d (as_millis t) ->
  m ⊆ updates (cc_batcher s) -> flush_ready d s t ->
  let l := (hash_iter m).*2 in
  exists s' d', runs t S (update_counters m) (Ok (inl (synced d s t <$> active s t l)))
      (mkCachedRedis s' (idle d') (reservations S) (partitioned S)) /\
    taken s s' t l.*2 /\ cells_ok d' (as_millis t) /\ sent_to d d' s t (active s t l).
Proof.
  intros s HS Hwf Ht Hok Hsub Hr l.
  assert (Hms : 0 <= as_millis t) by (destruct Ht; unfold as_millis; apply Z.div_pos; lia).
  unfold update_counters. destruct (decide (m = ∅)) as [Hm|Hm].
  { assert (Hl : l = []).
    { unfold l. rewrite Hm. pose proof (hash_iter_perm (∅ : gmap CounterKey Entry)) as Hp. rewrite map_to_list_empty in Hp.
      apply Permutation_nil_r in Hp. by rewrite Hp. }
    exists s, d. rewrite bool_decide_eq_true_2 by done. rewrite Hl. split_and!; [|split_and!|done|split_and!]; try done.
    - replace (mkCachedRedis s (idle d) (reservations S) (partitioned S)) with S by (rewrite <-HS; by destruct S). apply runs_ret.
    - intros cl Hcl. by apply not_elem_of_nil in Hcl. }
  destruct (take_pending_run t S l Ht (batch_locs_nodup s m Hwf Hsub) (batch_bound s m Hwf Hsub)) as (s' & R1 & T1). fold s in R1, T1.
  destruct (batch_script_run d s t m Hwf Ht Hok Hsub Hr) as (Hfl & d' & R2 & Hok' & Hsent). fold l in Hfl, R2, Hsent.
  set (act := active s t l) in *. exists s', d'. split_and!; [|done|done|done].
  rewrite bool_decide_eq_false_2 by done. fold l. eapply runs_bind; [exact R1|]. cbv beta iota.
  eapply (runs_bind _ _ _ _ (inl (concat (batch_reply d (as_millis t) <$> (batch_item s t <$> act))))).
  - assert (R3 : runs t (upd_cache s' S) (on_conn (conn_call (fun ms => batch_update_counters ms (batch_item s t <$> act))))
                   (Ok (concat (batch_reply d (as_millis t) <$> (batch_item s t <$> act)))) (upd_conn (idle d') (upd_cache s' S))).
    { apply runs_zoom. cbn [async_redis_storage upd_cache]. rewrite HS. by apply conn_call_run. }
    intros w Hw Hs. destruct (R3 w Hw Hs) as [n Hn]. exists n. unfold attempt. by rewrite Hn.
  - cbv iota. rewrite read_reply_run by done. runs_step. apply runs_ret.
Qed.

(** A connection whose next call fails. *)
Definition failing d (err : RedisError) (executed : bool) faults pool : Conn := mkConn d (Some (err, executed) :: faults) pool.

Lemma update_counters_fail_run t S d err executed faults pool m :
  let s := cached_counters S in
  async_redis_storage S = failing d err executed faults pool -> cc_wf s -> good_time t -> cells_ok d (as_millis t) ->
  m ⊆ updates (cc_batcher s) -> flush_ready d s t -> m <> ∅ ->
  let l := (hash_iter m).*2 in
  exists s' d', runs t S (update_counters m) (Ok (inr (to_flush s t <$> active s t l, from_redis_error err)))
      (mkCachedRedis s' (mkConn (if executed then d' else d) faults pool) (reservations S) (partitioned S)) /\
    taken s s' t l.*2 /\ sent_to d d' s t (active s t l).
Proof.
  intros s HS Hwf Ht Hok Hsub Hr Hm l.
  destruct (take_pending_run t S l Ht (batch_locs_nodup s m Hwf Hsub) (batch_bound s m Hwf Hsub)) as (s' & R1 & T1). fold s in R1, T1.
  destruct (batch_script_run d s t m Hwf Ht Hok Hsub Hr) as (Hfl & d' & R2 & Hok' & Hsent). fold l in Hfl, R2, Hsent.
  set (act := active s t l) in *. exists s', d'. split_and!; [|done|done].
  unfold update_counters. rewrite bool_decide_eq_false_2 by done. fold l. eapply runs_bind; [exact R1|]. cbv beta iota.
  eapply (runs_bind _ _ _ _ (inr err)); [|cbv iota; apply runs_ret].
  set (conn' := mkConn (if executed then d' else d) faults pool).
  assert (R3 : runs t (upd_cache s' S) (on_conn (conn_call (fun ms => batch_update_counters ms (batch_item s t <$> act))))
                 (Err err) (upd_conn conn' (upd_cache s' S))).
  { apply runs_zoom. cbn [async_redis_storage upd_cache]. rewrite HS. unfold conn_call. do 2 runs_step. unfold run_script.
    destruct (R2 (mkWorld d (fun _ => 0) 0)) as [n Hn]; [done|done|]. cbn [conn_data failing]. rewrite Hn. cbn [w_state conn_faults failing].
    eapply runs_bind; [apply runs_put|]. apply runs_throw. }
  intros w Hw Hs. destruct (R3 w Hw Hs) as [n Hn]. exists n. unfold attempt. by rewrite Hn.
Qed.

(** *** After the reply *)

Lemma no_pending_run {E} t v : good_time t -> initial_value v = hits_in (ccv_value v) t ->
  runs t v (no_pending_writes (E := E)) (Ok true) v.
Proof.
  intros Ht Hi. unfold no_pending_writes. runs_step. eapply runs_bind.
  { pose proof (hits_run (E := E) t v Ht) as Hh. unfold hits in Hh.
    intros w Hw Hs. destruct (Hh w Hw Hs) as [n Hn]. exists n. unfold bind at 1, get in Hn. rewrite Hs in Hn. exact Hn. }
  rewrite Hi. unfold u64_checked_sub. rewrite Z.ltb_irrefl, Z.sub_diag. apply runs_ret.
Qed.

(** Removing what has been sent from the queue. *)
Definition dequeued s s' (ks : list CounterKey) : Prop :=
  cc_cache s' = cc_cache s /\ cc_heap s' = cc_heap s /\
  (forall k, updates (cc_batcher s') !! k = if decide (k ∈ ks) then None else updates (cc_batcher s) !! k).

Lemma dequeued_wf s s' ks : dequeued s s' ks -> cc_wf s -> cc_wf s'.
Proof.
  intros (Hc & Hh & Hu) [W1 W2 W3 W4 W5].
  assert (Hsub : forall k x, updates (cc_batcher s') !! k = Some x -> updates (cc_batcher s) !! k = Some x)
    by (intros k x; rewrite Hu; by case_decide).
  assert (Hl : forall k loc, local s' k = Some loc -> local s k = Some loc).
  { intros k loc. unfold local. rewrite Hc. destruct (moka_get (cc_cache s) k) as [[x l]|]; [done|].
    destruct (updates (cc_batcher s') !! k) as [y|] eqn:Hy; [|done]. by rewrite (Hsub k y Hy). }
  split; rewrite ?Hc, ?Hh; [| | |done|].
  - intros k loc x Hk y loc' Hy. eapply W1; [done|by apply Hsub].
  - intros k k' loc H1%Hl H2%Hl. by apply (W2 k k' loc).
  - intros k loc H%Hl. by apply (W3 k).
  - intros k c loc H%Hsub. by apply (W5 k c loc).
Qed.

Lemma remove_all_run {E} t s batch :
  good_time t -> (forall c, c ∈ batch -> forall x loc, updates (cc_batcher s) !! counter_key c = Some (x, loc) ->
    (loc < length (cc_heap s))%nat /\ initial_value (cell_at s loc) = hits_in (ccv_value (cell_at s loc)) t) ->
  exists s', runs t s (for_each (remove_flushed (E := E)) batch) (Ok tt) s' /\ dequeued s s' (counter_key <$> batch).
Proof.
  intros Ht. revert s. induction batch as [|c batch IH]; intros s Hb.
  { exists s. split; [apply runs_ret|]. split_and!; [done|done|]. intros k. by rewrite decide_False by apply not_elem_of_nil. }
  assert (H1 : exists s1, runs t s (remove_flushed (E := E) c) (Ok tt) s1 /\ dequeued s s1 [counter_key c]).
  { unfold remove_flushed, in_batcher. destruct (updates (cc_batcher s) !! counter_key c) as [[x loc]|] eqn:Hu.
    - destruct (Hb c ltac:(by left) x loc Hu) as [Hloc Hi]. eexists. split.
      + eapply runs_bind; [runs_step; apply runs_ret|]. rewrite Hu. cbn [fmap option_fmap option_map snd].
        eapply runs_bind; [apply at_loc_read; [done|by apply no_pending_run]|]. runs_step. unfold set_updates, put_batcher. do 2 runs_step. apply runs_put.
      + split_and!; [done|done|]. intros k. cbn [cc_batcher updates]. destruct (decide (k = counter_key c)) as [->|Hne].
        * rewrite lookup_delete_eq. by rewrite decide_True by (by left).
        * rewrite lookup_delete_ne by done. rewrite decide_False; [done|]. by intros ?%list_elem_of_singleton.
    - exists s. split; [eapply runs_bind; [runs_step; apply runs_ret|]; rewrite Hu; apply runs_ret|].
      split_and!; [done|done|]. intros k. case_decide as Hk; [apply list_elem_of_singleton in Hk as ->; done|done]. }
  destruct H1 as (s1 & R1 & (Hc1 & Hh1 & Hu1)).
  destruct (IH s1) as (s' & R & (Hc & Hh & Hu)).
  { intros c' Hc' x loc. rewrite Hu1. unfold cell_at. rewrite Hh1. case_decide; [done|]. apply (Hb c'). by right. }
  exists s'. split; [cbn [for_each]; eapply runs_bind; [exact R1|exact R]|]. split_and!; [by rewrite Hc|by rewrite Hh|].
  intros k. rewrite Hu, Hu1, fmap_cons. destruct (decide (k ∈ counter_key <$> batch)).
  - by rewrite decide_True by (by right).
  - destruct (decide (k ∈ [counter_key c])) as [->%list_elem_of_singleton|Hn]; [by rewrite decide_True by (by left)|].
    rewrite decide_False; [done|]. intros [->|?]%elem_of_cons; [apply Hn; by left|done].
Qed.

Lemma add_from_authority_run {E} t v delta exp max :
  good_time exp ->
  runs t v (add_from_authority (E := E) delta exp max) (Ok tt)
    (mkCached (mkAev (u64_add (aev_value (ccv_value v)) delta) (mkExpiry (as_micros exp))) (u64_add (initial_value v) delta) true).
Proof.
  intros He. unfold add_from_authority. runs_step. unfold add_and_set_expiry, expiry_update. rewrite since_epoch_good by done.
  cbn [outcome_map outcome_bind]. runs_step. apply runs_put.
Qed.

Lemma from_authority_run {E St} t (st : St) c rv :
  good_window t (window c) -> 0 < as_micros (window c) -> in_u64 rv ->
  exists v, runs t st (from_authority (E := E) c rv) (Ok v) st /\ aev_wf (ccv_value v) /\ hits_in (ccv_value v) t = rv.
Proof.
  intros Hw Hm Hrv. assert (Hgt : good_time (t + window c)).
  { destruct Hw as ([H0 H1] & Hd & Hmm). split; [lia|]. by rewrite as_micros_window. }
  exists (mkCached (mkAev rv (mkExpiry (as_micros (t + window c)))) rv true). split_and!.
  - unfold from_authority. runs_step. rewrite good_window_add by done. runs_step.
    unfold aev_new, expiry_new. rewrite since_epoch_good by done. cbn [outcome_map outcome_bind]. runs_step. apply runs_ret.
  - split; [done|]. cbn [ccv_value aev_expiry expiry]. destruct Hgt as [H0 H1]. split; [by apply as_micros_nonneg|done].
  - unfold hits_in, live. cbn [ccv_value aev_expiry expiry]. rewrite as_micros_window. rewrite decide_True by lia. done.
Qed.

(** What the instance sees of a counter once it learns that Redis has [rv]: a counter it
    sees as [Some h] is only ever raised, one it has no value of takes that of Redis. *)
Definition learned (h : option Z) (rv : Z) : Z := match h with Some h => Z.max h rv | None => rv end.

(** The hits of a counter that is in the cache or in the queue. *)
Definition seen s t k : option Z := if bool_decide (is_Some (local s k)) then Some (local_hits s t k) else None.

(** Learning the value [rv] Redis has. *)
Lemma apply_remote_run {E} t s c rv remote exp :
  cc_wf s -> queued s (counter_key c) = false -> good_window t (window c) -> 0 < as_micros (window c) ->
  (forall loc, local s (counter_key c) = Some loc -> live (ccv_value (cell_at s loc)) t) ->
  (is_Some (local s (counter_key c)) -> remote = u64_saturating_sub rv (local_hits s t (counter_key c))) ->
  0 <= rv < 9007199254740992 -> local_hits s t (counter_key c) < 9007199254740992 ->
  good_time exp -> t < exp -> as_micros t < as_micros exp ->
  exists loc s', runs t s (apply_remote_delta (E := E) c rv remote exp) (Ok loc) s' /\
    cc_wf s' /\ updates (cc_batcher s') = updates (cc_batcher s) /\
    (forall k, k <> counter_key c -> local s' k = local s k /\ local_hits s' t k = local_hits s t k /\
       forall l, local s k = Some l -> cell_at s' l = cell_at s l) /\
    local_hits s' t (counter_key c) = learned (seen s t (counter_key c)) rv.
Proof.
  intros Hwf Hq Hw Hm Hlive Hremote Hrv Hh Hge Hlt Hmic. unfold apply_remote_delta.
  assert (Hb : updates (cc_batcher s) !! counter_key c = None).
  { unfold queued in Hq. apply bool_decide_eq_false in Hq. by apply eq_None_not_Some. }
  destruct (moka_get (cc_cache s) (counter_key c)) as [[x loc]|] eqn:Hc.
  - assert (Hl : local s (counter_key c) = Some loc) by (unfold local; by rewrite Hc).
    specialize (Hlive loc Hl). set (v := cell_at s loc) in *.
    assert (Hlh : local_hits s t (counter_key c) = aev_value (ccv_value v)).
    { unfold local_hits. rewrite Hl. unfold hits_in. by rewrite decide_True. }
    rewrite Hlh in Hh, Hremote. specialize (Hremote ltac:(by eexists)).
    assert (Hvw : aev_wf (ccv_value v)).
    { unfold v, cell_at. destruct (lookup_lt_is_Some_2 (cc_heap s) loc) as [v0 Hv0]; [by eapply wf_bound|]. rewrite Hv0.
      exact (Forall_lookup_1 _ _ _ _ (wf_cells _ Hwf) Hv0). }
    assert (Hv0 : 0 <= aev_value (ccv_value v)) by apply Hvw.
    assert (Hrem : 0 <= remote /\ aev_value (ccv_value v) + remote < 18014398509481984) by (subst remote; unfold u64_saturating_sub; lia).
    set (v' := mkCached (mkAev (aev_value (ccv_value v) + remote) (mkExpiry (as_micros exp))) (u64_add (initial_value v) remote) true).
    assert (Hv' : aev_wf (ccv_value v')).
    { split; cbn [ccv_value v' aev_value aev_expiry expiry]; [unfold in_u64, u64_max; lia|].
      destruct Hge as [He0 He1]. split; [by apply as_micros_nonneg|done]. }
    destruct (local_write s c loc v' t Hwf Hl Hv') as [Hwf' Hhits']. set (s' := mkCountersCache _ _ _) in *.
    exists loc, s'. split_and!; [|done|done| |].
    + runs_step. rewrite (proj2 (Z.gtb_lt exp t)) by done. runs_step. rewrite bool_decide_eq_false_2 by (by rewrite Hc). cbn [negb].
      eapply runs_bind; [unfold cache_get_with; runs_step; rewrite Hc; apply runs_ret|].
      eapply runs_bind; [|apply runs_ret]. apply at_loc_write. fold v. unfold v'.
      rewrite <-(u64_add_small (aev_value (ccv_value v)) remote) by (unfold u64_max; lia). by apply add_from_authority_run.
    + intros k Hk. change (local s' k) with (local s k). split_and!; [done|by rewrite Hhits', decide_False|].
      intros l Hkl. unfold cell_at. cbn [cc_heap s']. rewrite list_lookup_insert_ne; [done|]. intros <-. by apply Hk, (wf_inj s Hwf k _ loc).
    + rewrite Hhits', decide_True by done. unfold seen. rewrite Hl, Hlh, bool_decide_eq_true_2 by done.
      unfold hits_in. rewrite decide_True by (unfold live; cbn [ccv_value v' aev_expiry expiry]; done). cbn [ccv_value v' aev_value learned].
      subst remote. unfold u64_saturating_sub. lia.
  - destruct (from_authority_run (E := E) t s c rv Hw Hm) as (v & Rv & Hv & Hhv); [unfold in_u64, u64_max; lia|].
    assert (Hn : local s (counter_key c) = None) by (unfold local; by rewrite Hc, Hb).
    destruct (local_alloc s c v Hn Hwf Hv) as (Hwf1 & Hl & Hcell & Hnew). set (s1 := mkCountersCache _ _ _) in *.
    exists (length (cc_heap s)), s1. split_and!; [|done|done| |].
    + runs_step. rewrite (proj2 (Z.gtb_lt exp t)) by done. runs_step. rewrite bool_decide_eq_true_2 by done. cbn [negb].
      eapply runs_bind; [|eapply runs_bind; [apply runs_ret|apply runs_ret]]. unfold cache_get_with. runs_step. rewrite Hc. eapply runs_bind.
      { unfold in_batcher. eapply runs_bind; [runs_step; apply runs_ret|]. rewrite Hb. simpl.
        eapply runs_bind; [exact Rv|]. unfold alloc. do 2 runs_step. apply runs_ret. }
      runs_step. eapply runs_bind; [|apply runs_ret]. unfold put_cache. runs_step. apply runs_put.
    + intros k Hk. assert (Hlk : local s1 k = local s k) by (rewrite Hl; by rewrite decide_False). split_and!; [done| |].
      * unfold local_hits. rewrite Hlk. destruct (local s k) as [l|] eqn:Hkl; [|done]. rewrite Hcell; [done|]. by eapply wf_bound.
      * intros l Hkl. apply Hcell. by eapply wf_bound.
    + unfold seen. rewrite Hn, bool_decide_eq_false_2 by (by intros []). unfold local_hits. rewrite Hl, decide_True by done. by rewrite Hnew.
Qed.

(** An entry of the reply that can be applied. *)
Definition applicable d s0 s t (cl : Entry) : Prop :=
  let k := counter_key cl.1 in
  let f := synced d s0 t cl in
  queued s k = false /\ good_window t (window cl.1) /\ 0 < as_micros (window cl.1) /\
  (forall loc, local s k = Some loc -> live (ccv_value (cell_at s loc)) t /\
     hits_in (ccv_value (cell_at s loc)) t = hits_in (ccv_value (cell_at s0 cl.2)) t) /\
  0 <= fl_value f < 9007199254740992 /\ 0 <= hits_in (ccv_value (cell_at s0 cl.2)) t < 9007199254740992 /\
  good_time (fl_expires_at f) /\ t < fl_expires_at f /\ as_micros t < as_micros (fl_expires_at f).

Lemma apply_all_run t S d s0 (act : list Entry) :
  let s := cached_counters S in
  cc_wf s -> NoDup ((fun cl => counter_key cl.1) <$> act) -> Forall (applicable d s0 s t) act ->
  exists s', runs t S (for_each (fun f => on_cache (apply_remote_delta (fl_counter f) (fl_value f) (fl_delta f) (fl_expires_at f)) ;;; ret tt)
      (synced d s0 t <$> act)) (Ok tt) (upd_cache s' S) /\ cc_wf s' /\ updates (cc_batcher s') = updates (cc_batcher s) /\
    (forall k, k ∉ (fun cl => counter_key cl.1) <$> act -> local_hits s' t k = local_hits s t k) /\
    (forall cl, cl ∈ act -> local_hits s' t (counter_key cl.1) =
       learned (seen s t (counter_key cl.1)) (fl_value (synced d s0 t cl))).
Proof.
  revert S. induction act as [|cl act IH]; intros S s Hwf Hnd Ha.
  { exists s. split_and!; [|done|done|done|]. - replace (upd_cache s S) with S by (by destruct S). apply runs_ret.
    - intros cl Hcl. by apply not_elem_of_nil in Hcl. }
  rewrite fmap_cons in Hnd. apply NoDup_cons in Hnd as [Hn Hnd]. apply Forall_cons in Ha as [(A1 & A2 & A3 & A4 & A5 & A6 & A7 & A8 & A9) Ha].
  set (f := synced d s0 t cl) in *. set (h := hits_in (ccv_value (cell_at s0 cl.2)) t) in *.
  assert (Hlh : forall loc, local s (counter_key cl.1) = Some loc -> local_hits s t (counter_key cl.1) = h).
  { intros loc Hloc. unfold local_hits. rewrite Hloc. by apply A4. }
  assert (Hlh0 : local_hits s t (counter_key cl.1) <= h).
  { destruct (local s (counter_key cl.1)) as [loc|] eqn:Hloc; [by rewrite (Hlh loc)|]. unfold local_hits. rewrite Hloc. lia. }
  destruct (apply_remote_run (E := StorageErr) t s cl.1 (fl_value f) (fl_delta f) (fl_expires_at f)) as (loc & s1 & R1 & Hwf1 & Hu1 & Ho1 & Hv1);
    [done|done|done|done| | |done|lia|done|done|done|].
  { intros loc Hloc. by apply A4. }
  { intros [loc Hloc]. by rewrite (Hlh loc). }
  destruct (IH (upd_cache s1 S)) as (s' & R & Hwf' & Hu' & Ho' & Hin'); cbn [cached_counters upd_cache]; [done|done| |].
  { rewrite Forall_forall in Ha |- *. intros cl' Hcl'. destruct (Ha cl' Hcl') as (B1 & B2 & B3 & B4 & B5).
    assert (Hne : counter_key cl'.1 <> counter_key cl.1) by (intros Heq; apply Hn; rewrite <-Heq; apply list_elem_of_fmap; by exists cl').
    destruct (Ho1 _ Hne) as (Hl1 & _ & Hc1). split_and!; [by unfold queued; rewrite Hu1|done|done| |apply B5..].
    intros l Hl. rewrite Hl1 in Hl. rewrite (Hc1 l Hl). by apply B4. }
  cbn [cached_counters upd_cache] in Hu', Ho'. exists s'. split_and!; [|done|by rewrite Hu'| |].
  - rewrite fmap_cons. cbn [for_each]. eapply runs_bind; [|exact R]. eapply runs_bind; [by apply on_cache_run|apply runs_ret].
  - intros k Hk. rewrite fmap_cons in Hk. apply not_elem_of_cons in Hk as [Hne Hk]. rewrite Ho' by done. by apply Ho1.
  - intros cl' Hcl'. apply elem_of_cons in Hcl' as [->|Hcl']; [by rewrite Ho'|]. rewrite (Hin' _ Hcl'). cbn [cached_counters upd_cache].
    assert (Hne : counter_key cl'.1 <> counter_key cl.1) by (intros Heq; apply Hn; rewrite <-Heq; apply list_elem_of_fmap; by exists cl').
    unfold seen. destruct (Ho1 _ Hne) as (-> & -> & _). done.
Qed.

(** A round starts from a state that differs from the one before in the batcher's flag. *)
Lemma same_but_flag_ready d s s' t : same_but_flag s s' -> flush_ready d s t -> flush_ready d s' t.
Proof.
  intros V [F1 F2 F3 F4]. pose proof V as (Hc & Hh & Hu & _). split; rewrite ?Hu; [exact F1| |exact F3|].
  - intros k c loc Hk. unfold flushable, batch_item, cell_at. rewrite Hh. by eapply F2.
  - intros k c loc Hk. rewrite (same_but_flag_hits s s') by done. unfold cell_at. rewrite Hh. by eapply F4.
Qed.

Lemma unsent_nonneg s t loc : cc_wf s -> (loc < length (cc_heap s))%nat -> 0 <= unsent (cell_at s loc) t.
Proof.
  intros Hwf Hloc. unfold unsent, cell_at. destruct (lookup_lt_is_Some_2 _ _ Hloc) as [v Hv]. rewrite Hv. simpl.
  pose proof (Forall_lookup_1 _ _ _ _ (wf_cells _ Hwf) Hv) as [[Hv0 _] _].
  assert (0 <= hits_in (ccv_value v) t) by (unfold hits_in; by case_decide).
  unfold writes_offset, u64_checked_sub. destruct (Z.eqb_spec (initial_value v) 0); [done|].
  destruct (Z.ltb_spec (hits_in (ccv_value v) t) (initial_value v)); simpl; lia.
Qed.

Lemma unsent_live s t loc : 0 <= initial_value (cell_at s loc) -> 0 < unsent (cell_at s loc) t -> live (ccv_value (cell_at s loc)) t.
Proof.
  unfold unsent, hits_in. intros Hi. case_decide; [done|]. unfold writes_offset, u64_checked_sub.
  destruct (Z.eqb_spec (initial_value (cell_at s loc)) 0); [lia|].
  destruct (Z.ltb_spec 0 (initial_value (cell_at s loc))); simpl; lia.
Qed.

(** When the round learns that the window ends. *)
Lemma synced_expiry d s t (cl : Entry) :
  good_time t -> cells_ok d (as_millis t) -> flushable d s t cl ->
  let e := fl_expires_at (synced d s t cl) in good_time e /\ t < e /\ as_micros t < as_micros e.
Proof.
  intros [Ht0 Ht1] Hok (Httl & _ & _ & He). set (i := batch_item s t cl) in *.
  assert (He' : exists e, (batch_cell d (as_millis t) i).2 = Some e /\ as_millis t < e).
  { unfold batch_cell, counted_cell. destruct (cell d (as_millis t) (bi_key i)) as [[v e]|] eqn:Hc; cbn [snd].
    - destruct (Hok _ _ _ Hc) as (_ & e' & -> & Hlt). by exists e'.
    - eexists. split; [done|lia]. }
  destruct He' as (e & Hee & Hlt). specialize (He e Hee). cbn [synced fl_expires_at]. fold i. rewrite Hee. simpl default.
  unfold good_time, as_micros, as_millis, from_millis, u64_max in *.
  assert (0 <= t / 1000000) by (apply Z.div_pos; lia). assert (t < e * 1000000) by (pose proof (Z.mod_pos_bound t 1000000); pose proof (Z.div_mod t 1000000); lia).
  replace (e * 1000000 / 1000) with (e * 1000) by (rewrite (Z.mul_comm e 1000000); change 1000000 with (1000 * 1000); rewrite <-Z.mul_assoc, (Z.mul_comm 1000 (1000 * e)), Z.div_mul; lia).
  split_and!; [lia|lia|done|]. apply Z.div_lt_upper_bound; lia.
Qed.

(** The queue after a round, and what the entries of the batch look like then. *)
Lemma round_applicable d s s2 s3 t m batch :
  cc_wf s -> good_time t -> cells_ok d (as_millis t) -> m ⊆ updates (cc_batcher s) -> flush_ready d s t ->
  (forall k, is_Some (m !! k) <-> k ∈ counter_key <$> batch) ->
  let l := (hash_iter m).*2 in
  taken s s2 t l.*2 -> dequeued s2 s3 (counter_key <$> batch) ->
  Forall (applicable d s s3 t) (active s t l).
Proof.
  intros Hwf Ht Hok Hsub [F1 F2 F3 F4] Hdom l HT (Hc3 & Hh3 & Hu3). apply Forall_forall. intros [c loc] Hcl.
  apply list_elem_of_filter in Hcl as [Hp Hcl]. simpl in Hp. pose proof Hcl as Hm. apply (batch_elem s) in Hm; [|done|done].
  pose proof (lookup_weaken _ _ _ _ Hm Hsub) as Hu. destruct (F3 _ _ _ Hu) as [Hw Hw']. destruct (F4 _ _ _ Hu) as [Hh Hi].
  pose proof (queued_local s _ _ _ Hwf Hu) as Hl. pose proof (wf_bound s Hwf _ _ Hl) as Hb.
  pose proof (F2 _ _ _ Hu) as Hfl. destruct (synced_expiry d s t (c, loc) Ht Hok Hfl) as (E1 & E2 & E3).
  assert (Hhits : local_hits s t (counter_key c) = hits_in (ccv_value (cell_at s loc)) t) by (unfold local_hits; by rewrite Hl).
  assert (Hv0 : 0 <= redis_value d t c).
  { unfold redis_value, cell_value. destruct (cell d (as_millis t) (redis_key c)) as [[v e]|] eqn:Hce; simpl; [by destruct (Hok _ _ _ Hce)|done]. }
  split_and!; cbn [fst snd synced fl_value]; [|done|done| |lia|apply (proj1 (proj2 (proj2 Hfl)))| |lia|done|done|done].
  - unfold queued. apply bool_decide_eq_false. rewrite Hu3, decide_True; [by intros []|]. apply Hdom. by eexists.
  - intros loc' Hl'. assert (Hl2 : local s2 (counter_key c) = Some loc').
    { unfold local in Hl' |- *. rewrite Hc3 in Hl'. destruct (moka_get (cc_cache s2) (counter_key c)) as [[x y]|]; [done|].
      rewrite Hu3 in Hl'. by case_decide. }
    rewrite (taken_local s s2 t _ _ HT), Hl in Hl2. injection Hl2 as <-.
    assert (Hcell : ccv_value (cell_at s3 loc) = ccv_value (cell_at s loc)).
    { unfold cell_at at 1. rewrite Hh3. fold (cell_at s2 loc). destruct HT as (_ & _ & _ & Hcell). rewrite Hcell by done. by case_decide. }
    rewrite Hcell. split; [|done]. by apply unsent_live.
  - unfold hits_in. case_decide; [|done].
    destruct (lookup_lt_is_Some_2 _ _ Hb) as [v Hv]. pose proof (Forall_lookup_1 _ _ _ _ (wf_cells _ Hwf) Hv) as [[Hv1 _] _].
    unfold cell_at. by rewrite Hv.
Qed.

Lemma flip_run t S b : runs t S (flip_partitioned b)
  (Ok (negb (Bool.eqb (partitioned S) b))) (mkCachedRedis (cached_counters S) (async_redis_storage S) (reservations S) b).
Proof.
  unfold flip_partitioned. runs_step. destruct (Bool.eqb (partitioned S) b) eqn:He; [|runs_step; apply runs_ret].
  apply Bool.eqb_prop in He as <-. destruct S. apply runs_ret.
Qed.

(** What is known of a member of the batch. *)
Lemma batch_member s m k c loc :
  cc_wf s -> m ⊆ updates (cc_batcher s) -> m !! k = Some (c, loc) ->
  counter_key c = k /\ (c, loc) ∈ (hash_iter m).*2 /\ (loc < length (cc_heap s))%nat /\ local s k = Some loc.
Proof.
  intros Hwf Hsub Hk. pose proof (lookup_weaken _ _ _ _ Hk Hsub) as Hu. pose proof (wf_queue s Hwf _ _ _ Hu) as Hck.
  pose proof (queued_local s _ _ _ Hwf Hu) as Hl. split_and!; [done| |by eapply wf_bound|done].
  apply (batch_elem s); [done|done|by rewrite Hck].
Qed.

(** Outside the batch nothing is counted or forgotten. *)
Lemma unbatched_hits s s2 s3 t l ks k :
  cc_wf s -> taken s s2 t l -> dequeued s2 s3 ks -> k ∉ ks -> local_hits s3 t k = local_hits s t k.
Proof.
  intros Hwf HT (Hc3 & Hh3 & Hu3) Hk. rewrite <-(taken_hits s s2 t _ k Hwf HT).
  unfold local_hits, local, cell_at. by rewrite Hc3, Hh3, Hu3, decide_False.
Qed.

(** Redis counts what was pending, once. *)
Lemma sent_value d d' s t m k c loc :
  cc_wf s -> m ⊆ updates (cc_batcher s) -> flush_ready d s t -> sent_to d d' s t (active s t (hash_iter m).*2) ->
  m !! k = Some (c, loc) -> redis_value d' t c = redis_value d t c + unsent (cell_at s loc) t.
Proof.
  intros Hwf Hsub Hr (Hs1 & Hs2 & _) Hk. pose proof (lookup_weaken _ _ _ _ Hk Hsub) as Hu.
  pose proof (wf_bound s Hwf _ _ (queued_local s _ _ _ Hwf Hu)) as Hb.
  assert (Hin : (c, loc) ∈ (hash_iter m).*2) by (apply (batch_elem s); [done|done|by rewrite (wf_queue s Hwf _ _ _ Hu)]).
  unfold redis_value, cell_value. destruct (decide (0 < unsent (cell_at s loc) t)) as [Hp|Hp].
  - assert (Ha : (c, loc) ∈ active s t (hash_iter m).*2) by (apply list_elem_of_filter; done).
    specialize (Hs1 _ Ha). cbn [fst] in Hs1. rewrite Hs1. cbn [fmap option_fmap option_map]. apply (counted_value d (as_millis t) (redis_key c)).
  - pose proof (unsent_nonneg s t loc Hwf Hb). replace (unsent (cell_at s loc) t) with 0 by lia. rewrite Z.add_0_r.
    rewrite Hs2; [done|]. intros ([c' loc'] & Hkey & Ha)%list_elem_of_fmap. apply list_elem_of_filter in Ha as [Hp' Ha].
    apply (batch_elem s) in Ha; [|done|done]. simpl in Hkey, Hp'.
    pose proof (fr_keys _ _ _ Hr _ _ _ _ _ _ Hu (lookup_weaken _ _ _ _ Ha Hsub) Hkey) as Hkk.
    rewrite <-Hkk, Hk in Ha. injection Ha as <- <-. done.
Qed.

(** What the cache alone has of a counter, the queue apart. *)
Definition in_cache s t k : option Z := if bool_decide (is_Some (moka_get (cc_cache s) k)) then Some (local_hits s t k) else None.

(** A batched counter once it is off the queue: only the cache still holds it. *)
Lemma dequeued_seen s s2 s3 t l ks k loc :
  cc_wf s -> taken s s2 t l -> dequeued s2 s3 ks -> k ∈ ks -> local s k = Some loc ->
  seen s3 t k = in_cache s t k /\ local_hits s3 t k = default 0 (in_cache s t k).
Proof.
  intros Hwf HT (Hc3 & Hh3 & Hu3) Hk Hl. pose proof HT as (Hc2 & _ & _).
  assert (Hl3 : local s3 k = snd <$> moka_get (cc_cache s) k).
  { unfold local. rewrite Hu3, decide_True, Hc3, Hc2 by done. by destruct (moka_get (cc_cache s) k) as [[x y]|]. }
  assert (Hh : is_Some (moka_get (cc_cache s) k) -> local_hits s3 t k = local_hits s t k).
  { intros [[x y] Hx]. rewrite <-(taken_hits s s2 t _ k Hwf HT). unfold local_hits.
    rewrite Hl3, (taken_local s s2 t _ k HT). unfold local. rewrite Hx. cbn [fmap option_fmap option_map snd]. unfold cell_at. by rewrite Hh3. }
  unfold seen, in_cache. rewrite Hl3. destruct (moka_get (cc_cache s) k) as [[x y]|] eqn:Hx; cbn [fmap option_fmap option_map snd];
    [rewrite !bool_decide_eq_true_2 by done|rewrite !bool_decide_eq_false_2 by (by intros [])]; cbn [default].
  - by rewrite Hh.
  - split; [done|]. unfold local_hits. by rewrite Hl3.
Qed.

(** C10: a round of the flush task that Redis answers brings this instance and Redis
    together, while the cache evicts nothing.  It takes a batch of queued counters,
    never an empty one if something is queued, and all of them if there is room.  Each
    of them leaves the queue, and Redis counts its pending hits once.  Of a counter it
    sent hits for, the instance then sees the value Redis has, the hits of other
    instances included, or its own when that is higher, as after the key was deleted in
    Redis; a counter that is only in the queue takes the value of Redis whatever it
    is.  A counter of the batch without pending hits keeps its value if it is cached
    and is forgotten otherwise.  Nothing changes outside the batch, neither here nor
    for any other key of Redis, and the partition flag is cleared. *)
Theorem flush_syncs t S d max wake :
  let s := cached_counters S in
  async_redis_storage S = idle d -> cc_wf s -> good_time t -> cells_ok d (as_millis t) -> flush_ready d s t ->
  exists m S' d', runs t S (flush_batcher_and_update_counters max wake) (Ok tt) S' /\
    cc_wf (cached_counters S') /\ async_redis_storage S' = idle d' /\ reservations S' = reservations S /\
    partitioned S' = false /\ cells_ok d' (as_millis t) /\
    m ⊆ updates (cc_batcher s) /\ ((0 < max)%nat -> updates (cc_batcher s) <> ∅ -> m <> ∅) /\
    ((2 * map_size (updates (cc_batcher s)) <= max)%nat -> m = updates (cc_batcher s)) /\
    (forall k c loc, m !! k = Some (c, loc) ->
       queued (cached_counters S') k = false /\
       redis_value d' t c = redis_value d t c + unsent (cell_at s loc) t /\
       local_hits (cached_counters S') t k =
         if 0 <? unsent (cell_at s loc) t then learned (in_cache s t k) (redis_value d' t c)
         else default 0 (in_cache s t k)) /\
    (forall k, m !! k = None ->
       queued (cached_counters S') k = queued s k /\ local_hits (cached_counters S') t k = local_hits s t k) /\
    (forall rk, (forall k c loc, m !! k = Some (c, loc) -> redis_key c <> rk) ->
       cell d' (as_millis t) rk = cell d (as_millis t) rk) /\
    (forall rk, fields d' (as_millis t) rk = fields d (as_millis t) rk).
Proof.
  intros s HS Hwf Ht Hok Hr.
  destruct (collect_batch_run (E := StorageErr) t s max wake Hwf) as (batch & m & s1 & R1 & V1 & Hsub & Hdom & Hne & Hall).
  pose proof (same_but_flag_wf s s1 V1 Hwf) as Hwf1. pose proof (same_but_flag_ready d s s1 t V1 Hr) as Hr1.
  assert (Hsub1 : m ⊆ updates (cc_batcher s1)) by (destruct V1 as (_ & _ & -> & _); done).
  destruct (update_counters_run t (upd_cache s1 S) d m) as (s2 & d' & R2 & HT & Hok' & Hsent); cbn [cached_counters upd_cache async_redis_storage];
    [done|done|done|done|done|done|]. cbn [cached_counters upd_cache reservations partitioned] in R2, HT, Hsent.
  set (l := (hash_iter m).*2) in *. set (act := active s1 t l) in *.
  pose proof (taken_wf s1 s2 t _ Hwf1 HT) as Hwf2.
  pose proof (fun k c loc => batch_member s1 m k c loc Hwf1 Hsub1) as Helem.
  destruct (remove_all_run (E := StorageErr) t s2 batch Ht) as (s3 & R3 & HD).
  { intros c Hc x loc. destruct HT as (_ & Hb2 & Hlen2 & Hcell2). rewrite Hb2. intros Hu.
    destruct (proj2 (Hdom (counter_key c))) as [[c' loc'] Hm]; [apply list_elem_of_fmap; by exists c|].
    pose proof (lookup_weaken _ _ _ _ Hm Hsub1) as Hu'. rewrite Hu in Hu'. injection Hu' as <- <-.
    destruct (Helem _ _ _ Hm) as (_ & Hin & Hb & _). rewrite Hlen2. split; [done|]. rewrite Hcell2 by done.
    rewrite decide_True by (apply list_elem_of_fmap; by exists (x, loc)). done. }
  pose proof (dequeued_wf s2 s3 _ HD Hwf2) as Hwf3.
  set (S3 := mkCachedRedis s3 (idle d') (reservations S) false).
  destruct (apply_all_run t S3 d s1 act) as (s4 & R4 & Hwf4 & Hu4 & Ho4 & Hin4); cbn [cached_counters S3]; [done| |by eapply round_applicable|].
  { apply (batch_nodup_by s1 m Hwf1 Hsub1); [intros cl Hcl; by apply list_elem_of_filter in Hcl as [_ ?]|apply NoDup_filter, (batch_nodup s1); done|].
    intros k k' [c loc] [c' loc'] H1 H2 Heq. destruct (Helem _ _ _ H1) as (<- & _), (Helem _ _ _ H2) as (<- & _). done. }
  cbn [cached_counters S3] in Hu4, Ho4. exists m, (upd_cache s4 S3), d'. split_and!; try done.
  - unfold flush_batcher_and_update_counters, consume. eapply runs_bind.
    { eapply runs_bind; [apply (runs_zoom t cached_counters upd_cache); exact R1|]. cbn [snd]. eapply runs_bind; [exact R2|].
      eapply runs_bind; [apply (runs_zoom t cached_counters upd_cache); exact R3|]. apply runs_ret. }
    eapply runs_bind; [eapply runs_bind; [apply flip_run|apply runs_ret]|exact R4].
  - intros k c loc Hk. destruct (Helem _ _ _ Hk) as (Hck & Hin & Hb & Hl). cbn [cached_counters upd_cache].
    assert (Hcell : cell_at s1 loc = cell_at s loc) by (unfold cell_at; destruct V1 as (_ & -> & _); done). split.
    { unfold queued. rewrite Hu4. destruct HD as (_ & _ & ->). apply bool_decide_eq_false. rewrite decide_True; [by intros []|].
      apply Hdom. by eexists. }
    assert (Hrv : redis_value d' t c = redis_value d t c + unsent (cell_at s loc) t).
    { rewrite <-Hcell. exact (sent_value d d' s1 t m k c loc Hwf1 Hsub1 Hr1 Hsent Hk). }
    split; [done|]. destruct (dequeued_seen s1 s2 s3 t _ _ k loc Hwf1 HT HD) as [Hseen Hhits]; [apply Hdom; by eexists|done|].
    assert (Hic : in_cache s1 t k = in_cache s t k).
    { unfold in_cache. rewrite (same_but_flag_hits s s1 t k V1). by destruct V1 as (-> & _). }
    rewrite Hic in Hseen, Hhits. destruct (Z.ltb_spec 0 (unsent (cell_at s loc) t)) as [Hp|Hp].
    + rewrite <-Hcell in Hp. assert (Ha : (c, loc) ∈ act) by (apply list_elem_of_filter; done).
      specialize (Hin4 _ Ha). cbn [fst snd synced fl_value cached_counters S3] in Hin4. by rewrite Hcell, <-Hrv, Hck, Hseen in Hin4.
    + rewrite Ho4; [done|]. intros ([c' loc'] & Hk' & Ha)%list_elem_of_fmap. apply list_elem_of_filter in Ha as [Hp' Ha].
      apply (batch_elem s1) in Ha; [|done|done]. cbn [fst snd] in *. rewrite <-Hk', Hk in Ha. injection Ha as <- <-. rewrite Hcell in Hp'. lia.
  - intros k Hk. cbn [cached_counters upd_cache]. pose proof HD as (_ & _ & Hu3).
    assert (Hnk : k ∉ counter_key <$> batch) by (intros Hin%Hdom; rewrite Hk in Hin; by destruct Hin).
    assert (Hu : updates (cc_batcher s3) !! k = updates (cc_batcher s) !! k).
    { rewrite Hu3, decide_False by done. destruct HT as (_ & -> & _), V1 as (_ & _ & -> & _). done. }
    split; [unfold queued; by rewrite Hu4, Hu|]. rewrite Ho4.
    + rewrite <-(same_but_flag_hits s s1 t k V1). by apply (unbatched_hits s1 s2 s3 t l.*2 (counter_key <$> batch)).
    + intros ([c loc] & -> & Ha)%list_elem_of_fmap. apply list_elem_of_filter in Ha as [_ Ha]. apply (batch_elem s1) in Ha; [|done|done].
      simpl in Hk. congruence.
  - intros rk Hrk. destruct Hsent as (_ & Hs2 & _). apply Hs2. intros ([c loc] & -> & Ha)%list_elem_of_fmap.
    apply list_elem_of_filter in Ha as [_ Ha]. apply (batch_elem s1) in Ha; [|done|done]. by apply (Hrk _ _ _ Ha).
  - apply Hsent.
Qed.

(** ** A round that fails *)

(** The value once [w] writes were returned to it. *)
Definition reverted (v : CachedCounterValue) (w : Z) : CachedCounterValue :=
  if initial_value v >? w then mkCached (ccv_value v) (initial_value v - w) (ccv_from_authority v) else v.

Lemma revert_run {E} t v w : runs t v (revert_writes (E := E) w) (Ok true) (reverted v w).
Proof.
  unfold revert_writes, reverted. runs_step. unfold commit_revert, compare_exchange. rewrite Z.eqb_refl.
  destruct (initial_value v >? w); runs_step; apply runs_ret.
Qed.

(** States that differ in what values know of Redis, and in what the cache holds of the queue. *)
Definition returned s s' (f : nat -> CachedCounterValue -> CachedCounterValue) : Prop :=
  cc_batcher s' = cc_batcher s /\ (forall k, local s' k = local s k) /\ length (cc_heap s') = length (cc_heap s) /\
  (forall loc, (loc < length (cc_heap s))%nat -> cell_at s' loc = f loc (cell_at s loc)).

Lemma return_pending_run {E} t s c x loc v w :
  cc_wf s -> updates (cc_batcher s) !! counter_key c = Some (x, loc) -> 0 < w ->
  exists s', runs t s (return_pending_writes (E := E) c v w) (Ok true) s' /\ cc_wf s' /\
    returned s s' (fun l u => if decide (l = loc) then reverted u w else u).
Proof.
  intros Hwf Hu Hw. pose proof (queued_local s _ _ _ Hwf Hu) as Hl. pose proof (wf_bound s Hwf _ _ Hl) as Hb.
  assert (H1 : exists s1, runs t s (cache_get_with (E := E) c
      (let* r := in_batcher c in
       match r with Some loc => ret loc
       | None => let* v := from_authority c v in let* loc := alloc v in at_loc loc (delta c w) ;;; ret loc end)) (Ok loc) s1 /\
    same_view s s1).
  { unfold cache_get_with. destruct (moka_get (cc_cache s) (counter_key c)) as [[y l]|] eqn:Hc.
    - exists s. split; [|done]. rewrite (wf_agree s Hwf _ _ _ Hc _ _ Hu). runs_step. rewrite Hc. apply runs_ret.
    - eexists. split; [|by eapply insert_from_batcher]. runs_step. rewrite Hc. eapply runs_bind.
      { unfold in_batcher. eapply runs_bind; [runs_step; apply runs_ret|]. rewrite Hu. cbn [fmap option_fmap option_map snd]. apply runs_ret. }
      runs_step. eapply runs_bind; [|apply runs_ret]. unfold put_cache. runs_step. apply runs_put. }
  destruct H1 as (s1 & R1 & V1). pose proof V1 as (Hh1 & Hb1 & Hl1 & Hw1). specialize (Hw1 Hwf).
  assert (Hc1 : cell_at s1 loc = cell_at s loc) by (unfold cell_at; by rewrite Hh1).
  assert (Hrw : aev_wf (ccv_value (reverted (cell_at s loc) w))).
  { assert (Hcv : ccv_value (reverted (cell_at s loc) w) = ccv_value (cell_at s loc)) by (unfold reverted; by destruct (_ >? _)).
    rewrite Hcv. unfold cell_at. destruct (lookup_lt_is_Some_2 _ _ Hb) as [v0 Hv0]. rewrite Hv0.
    exact (Forall_lookup_1 _ _ _ _ (wf_cells _ Hwf) Hv0). }
  destruct (local_write s1 c loc (reverted (cell_at s loc) w) t Hw1) as [Hwf2 _]; [by rewrite Hl1|done|].
  set (s2 := mkCountersCache _ _ _) in *. exists s2. split_and!; [|done|split_and!].
  - unfold return_pending_writes. replace (negb (w =? 0)) with true by (symmetry; apply negb_true_iff, Z.eqb_neq; lia). runs_step.
    eapply runs_bind; [exact R1|]. rewrite (bool_decide_eq_false_2 (updates _ !! _ = None)) by (by rewrite Hu). rewrite andb_false_r. cbn [negb].
    apply at_loc_write. rewrite Hc1. apply revert_run.
  - done.
  - intros k. change (local s2 k) with (local s1 k). apply Hl1.
  - cbn [cc_heap s2]. by rewrite length_insert, Hh1.
  - intros l Hlt. unfold cell_at at 1. cbn [cc_heap s2]. rewrite Hh1. case_decide as Hll.
    + subst l. by rewrite list_lookup_insert_eq.
    + by rewrite list_lookup_insert_ne.
Qed.

Lemma return_all_run t S s0 (act : list Entry) :
  let s := cached_counters S in
  cc_wf s -> NoDup act.*2 ->
  Forall (fun cl => updates (cc_batcher s) !! counter_key cl.1 = Some cl /\ 0 < unsent (cell_at s0 cl.2) t) act ->
  exists s', runs t S (for_each (fun f => on_cache (return_pending_writes (fl_counter f) (fl_value f) (fl_delta f)) ;;; ret tt)
      (to_flush s0 t <$> act)) (Ok tt) (upd_cache s' S) /\ cc_wf s' /\
    returned s s' (fun l u => if decide (l ∈ act.*2) then reverted u (unsent (cell_at s0 l) t) else u).
Proof.
  revert S. induction act as [|[c loc] act IH]; intros S s Hwf Hnd Ha.
  { exists s. split_and!; [|done|split_and!; [done|done|done|]].
    - replace (upd_cache s S) with S by (by destruct S). apply runs_ret.
    - intros l _. by rewrite decide_False by apply not_elem_of_nil. }
  rewrite fmap_cons in Hnd. apply NoDup_cons in Hnd as [Hn Hnd]. apply Forall_cons in Ha as [[Hu Hp] Ha]. simpl in Hu, Hp, Hn.
  destruct (return_pending_run (E := StorageErr) t s c c loc (hits_in (ccv_value (cell_at s0 loc)) t) (unsent (cell_at s0 loc) t) Hwf Hu Hp)
    as (s1 & R1 & Hwf1 & (Hb1 & Hl1 & Hlen1 & Hc1)).
  destruct (IH (upd_cache s1 S)) as (s' & R & Hwf' & (Hb' & Hl' & Hlen' & Hc')); cbn [cached_counters upd_cache]; [done|done|by rewrite Hb1|].
  cbn [cached_counters upd_cache] in Hb', Hl', Hlen', Hc'. exists s'. split_and!; [|done|split_and!].
  - rewrite fmap_cons. cbn [for_each]. eapply runs_bind; [|exact R]. eapply runs_bind; [by apply on_cache_run|apply runs_ret].
  - by rewrite Hb'.
  - intros k. by rewrite Hl'.
  - by rewrite Hlen'.
  - intros l Hlt. rewrite Hc' by (by rewrite Hlen1). rewrite Hc1 by done. rewrite fmap_cons. cbn [snd]. destruct (decide (l = loc)) as [->|Hne].
    + rewrite (decide_False (P := loc ∈ act.*2)) by done. by rewrite decide_True by (by left).
    + destruct (decide (l ∈ act.*2)); [by rewrite decide_True by (by right)|]. rewrite decide_False; [done|]. by intros [?|?]%elem_of_cons.
Qed.

(** What is pending once a value's writes were taken, and returned if there were any. *)
Lemma unsent_returned v t :
  0 <= initial_value v -> 0 <= hits_in (ccv_value v) t ->
  let v' := if decide (0 < unsent v t) then reverted (committed v t) (unsent v t) else committed v t in
  unsent v' t = (if bool_decide (initial_value v = 0 \/ hits_in (ccv_value v) t < initial_value v) then 0 else unsent v t).
Proof.
  intros Hi Hh v'. set (h := hits_in (ccv_value v) t) in *.
  assert (Hcv : hits_in (ccv_value v') t = h).
  { unfold v'. case_decide; [|done]. unfold reverted. by destruct (_ >? _). }
  assert (Hoff : forall i, 0 <= i -> writes_offset i h = if (i =? 0) || (h <? i) then h else h - i).
  { intros i Hi0. unfold writes_offset, u64_checked_sub. destruct (i =? 0); [done|]. by destruct (h <? i). }
  assert (Huv : unsent v t = if (initial_value v =? 0) || (h <? initial_value v) then h else h - initial_value v) by (apply Hoff; done).
  assert (Hiv : initial_value v' = if (0 <? unsent v t) && (h >? unsent v t) then h - unsent v t else h).
  { unfold v'. destruct (Z.ltb_spec 0 (unsent v t)); [rewrite decide_True by done|rewrite decide_False by lia; done].
    unfold reverted. cbn [committed initial_value andb]. fold h. by destruct (h >? unsent v t). }
  unfold unsent at 1. rewrite Hcv, Hoff; [|rewrite Hiv; destruct (_ && _) eqn:Hx; [apply andb_prop in Hx as [_ Hx]; lia|done]].
  rewrite Hiv, Huv. destruct (Z.eqb_spec (initial_value v) 0) as [Hz|Hz], (Z.ltb_spec h (initial_value v)) as [Hlt|Hlt]; cbn [orb].
  all: case_bool_decide as Hb; try (exfalso; lia).
  all: repeat match goal with |- context [?a <? ?b] => destruct (Z.ltb_spec a b) | |- context [?a >? ?b] => destruct (Z.gtb_spec a b)
              | |- context [?a =? ?b] => destruct (Z.eqb_spec a b) end; cbn [andb orb] in *; try lia.
Qed.

(** The values after a failed round. *)
Lemma failed_values s s2 s3 t m :
  cc_wf s -> m ⊆ updates (cc_batcher s) -> (forall k c loc, updates (cc_batcher s) !! k = Some (c, loc) -> 0 <= initial_value (cell_at s loc)) ->
  let l := (hash_iter m).*2 in
  taken s s2 t l.*2 ->
  returned s2 s3 (fun loc u => if decide (loc ∈ (active s t l).*2) then reverted u (unsent (cell_at s loc) t) else u) ->
  (forall k, queued s3 k = queued s k /\ local_hits s3 t k = local_hits s t k) /\
  (forall k c loc, m !! k = Some (c, loc) -> unsent (cell_at s3 loc) t =
     (if bool_decide (initial_value (cell_at s loc) = 0 \/ local_hits s t k < initial_value (cell_at s loc)) then 0 else unsent (cell_at s loc) t)).
Proof.
  intros Hwf Hsub Hi l HT (Hb3 & Hl3 & Hlen3 & Hc3). pose proof HT as (Hc2 & Hb2 & Hlen2 & Hcell2). split.
  - intros k. split; [unfold queued; by rewrite Hb3, Hb2|]. rewrite <-(taken_hits s s2 t _ k Hwf HT). unfold local_hits. rewrite Hl3.
    destruct (local s2 k) as [loc|] eqn:Hl; [|done]. rewrite (taken_local s s2 t _ k HT) in Hl. pose proof (wf_bound s Hwf _ _ Hl) as Hb.
    rewrite Hc3 by (by rewrite Hlen2). case_decide; [|done]. unfold reverted. by destruct (_ >? _).
  - intros k c loc Hk. pose proof (lookup_weaken _ _ _ _ Hk Hsub) as Hu. pose proof (queued_local s _ _ _ Hwf Hu) as Hl.
    pose proof (wf_bound s Hwf _ _ Hl) as Hb. specialize (Hi _ _ _ Hu).
    assert (Hin : (c, loc) ∈ l) by (apply (batch_elem s); [done|done|by rewrite (wf_queue s Hwf _ _ _ Hu)]).
    assert (Hh : local_hits s t k = hits_in (ccv_value (cell_at s loc)) t) by (unfold local_hits; by rewrite Hl).
    assert (Hh0 : 0 <= hits_in (ccv_value (cell_at s loc)) t).
    { unfold hits_in. case_decide; [|done]. destruct (lookup_lt_is_Some_2 _ _ Hb) as [v Hv].
      pose proof (Forall_lookup_1 _ _ _ _ (wf_cells _ Hwf) Hv) as [[Hv1 _] _]. unfold cell_at. by rewrite Hv. }
    rewrite Hc3 by (by rewrite Hlen2). rewrite Hcell2 by done. rewrite (decide_True (P := loc ∈ l.*2)) by (apply list_elem_of_fmap; by exists (c, loc)).
    rewrite Hh, <-(unsent_returned (cell_at s loc) t Hi Hh0). f_equal.
    destruct (decide (0 < unsent (cell_at s loc) t)) as [Hp|Hp].
    + rewrite decide_True; [done|]. apply list_elem_of_fmap. exists (c, loc). split; [done|]. by apply list_elem_of_filter.
    + rewrite decide_False; [done|]. intros ([c' loc'] & -> & Ha)%list_elem_of_fmap. by apply list_elem_of_filter in Ha as [? _].
Qed.

(** C37: a round of the flush task whose call to Redis fails, while the cache evicts
    nothing.  An error that is not transient ends the task with a panic.  After a
    transient one the partition flag is set, every counter stays queued and keeps its
    hits; the hits that were taken are pending again if Redis knew part of the counter's
    hits before, and lost if it did not; and if Redis ran the script although the reply
    was lost, it has counted them already, so that the next round counts them a second
    time. *)
Theorem failed_flush t S d err executed faults pool max wake :
  let s := cached_counters S in
  async_redis_storage S = failing d err executed faults pool -> cc_wf s -> good_time t -> cells_ok d (as_millis t) ->
  flush_ready d s t -> (0 < max)%nat -> updates (cc_batcher s) <> ∅ ->
  if transient (from_redis_error err) then
    exists m S' d', runs t S (flush_batcher_and_update_counters max wake) (Ok tt) S' /\
      cc_wf (cached_counters S') /\ partitioned S' = true /\ async_redis_storage S' = mkConn d' faults pool /\
      m ⊆ updates (cc_batcher s) /\ m <> ∅ /\
      (forall k, queued (cached_counters S') k = queued s k /\ local_hits (cached_counters S') t k = local_hits s t k) /\
      (forall k c loc, m !! k = Some (c, loc) ->
         redis_value d' t c = redis_value d t c + (if executed then unsent (cell_at s loc) t else 0) /\
         unsent (cell_at (cached_counters S') loc) t =
           (if bool_decide (initial_value (cell_at s loc) = 0 \/ local_hits s t k < initial_value (cell_at s loc))
            then 0 else unsent (cell_at s loc) t))
  else exists S', runs t S (flush_batcher_and_update_counters max wake) (Panic "Unrecoverable Redis error!") S'.
Proof.
  intros s HS Hwf Ht Hok Hr Hmax Hq.
  destruct (collect_batch_run (E := StorageErr) t s max wake Hwf) as (batch & m & s1 & R1 & V1 & Hsub & Hdom & Hne & _). specialize (Hne Hmax Hq).
  pose proof (same_but_flag_wf s s1 V1 Hwf) as Hwf1. pose proof (same_but_flag_ready d s s1 t V1 Hr) as Hr1.
  assert (Hsub1 : m ⊆ updates (cc_batcher s1)) by (destruct V1 as (_ & _ & -> & _); done).
  destruct (update_counters_fail_run t (upd_cache s1 S) d err executed faults pool m) as (s2 & d' & R2 & HT & Hsent);
    cbn [cached_counters upd_cache async_redis_storage]; [done|done|done|done|done|done|done|].
  cbn [cached_counters upd_cache reservations partitioned] in R2, HT, Hsent. set (l := (hash_iter m).*2) in *.
  set (conn' := mkConn (if executed then d' else d) faults pool) in *.
  assert (Rc : runs t S (consume cached_counters upd_cache max wake update_counters) (Ok (inr (to_flush s1 t <$> active s1 t l, from_redis_error err)))
                 (mkCachedRedis s2 conn' (reservations S) (partitioned S))).
  { unfold consume. eapply runs_bind; [apply (runs_zoom t cached_counters upd_cache); exact R1|]. cbn [snd]. eapply runs_bind; [exact R2|].
    eapply runs_bind; apply runs_ret. }
  destruct (transient (from_redis_error err)) eqn:Htr.
  2: { eexists. unfold flush_batcher_and_update_counters. eapply runs_bind; [exact Rc|]. cbv iota. rewrite Htr.
       eapply runs_bind_panic. apply runs_lift. }
  pose proof (taken_wf s1 s2 t _ Hwf1 HT) as Hwf2. set (S2 := mkCachedRedis s2 conn' (reservations S) true).
  destruct (return_all_run t S2 s1 (active s1 t l)) as (s3 & R3 & Hwf3 & HR); cbn [cached_counters S2]; [done| | |].
  { apply (batch_nodup_by s1 m Hwf1 Hsub1); [intros cl Hcl; by apply list_elem_of_filter in Hcl as [_ ?]|apply NoDup_filter, (batch_nodup s1); done|].
    intros k k' [c loc] [c' loc'] H1 H2 Heq. simpl in Heq. subst loc'. apply (wf_inj s1 Hwf1 k k' loc); by eapply queued_local, lookup_weaken. }
  { apply Forall_forall. intros [c loc] Hcl. apply list_elem_of_filter in Hcl as [Hp Hcl]. split; [|done].
    destruct HT as (_ & -> & _). apply (batch_elem s1) in Hcl; [|done|done]. by eapply lookup_weaken. }
  destruct (failed_values s1 s2 s3 t m Hwf1 Hsub1) as [Hsame Huns]; [intros k c loc Hu; by apply (fr_hits _ _ _ Hr1 _ _ _ Hu)|done|exact HR|].
  exists m, (upd_cache s3 S2), (if executed then d' else d). split_and!; try done.
  - unfold flush_batcher_and_update_counters. eapply runs_bind; [exact Rc|]. cbv iota. rewrite Htr.
    eapply (runs_bind _ _ _ _ []); [|apply runs_ret]. eapply runs_bind; [apply flip_run|]. eapply runs_bind; [exact R3|]. apply runs_ret.
  - intros k. cbn [cached_counters upd_cache]. destruct (Hsame k) as [-> ->]. rewrite (same_but_flag_hits s s1 t k V1). split; [|done].
    unfold queued. by destruct V1 as (_ & _ & -> & _).
  - intros k c loc Hk. assert (Hcell : cell_at s1 loc = cell_at s loc) by (unfold cell_at; destruct V1 as (_ & -> & _); done). split.
    + destruct executed; [|lia]. rewrite <-Hcell. exact (sent_value d d' s1 t m k c loc Hwf1 Hsub1 Hr1 Hsent Hk).
    + cbn [cached_counters upd_cache]. rewrite (Huns k c loc Hk), Hcell, (same_but_flag_hits s s1 t k V1). done.
Qed.
End flushing.

(** ** A batch size of zero *)

Section zero.
Context {CE : CelEngine} {HO : HashOrder} {MC : MokaCache} {PC : Postcard} {SJ : SerdeJson} {RD : Redis}.
Implicit Types (s : CountersCache) (t : SystemTime) (S : CachedRedisStorage).

Lemma collect_zero_run {E} t s wake : cc_wf s -> runs t s (collect_batch (E := E) 0 wake) (Ok ([], ∅)) s.
Proof.
  intros Hwf. destruct (fast_flush_run (E := E) t s (queue s)) as (fast & Rf & _).
  { intros c loc Hc. apply queue_elem in Hc; [|done]. apply (wf_bound s Hwf (counter_key c)).
    unfold local. destruct (moka_get (cc_cache s) (counter_key c)) as [[x l]|] eqn:Hm; [by rewrite (wf_agree s Hwf _ _ _ Hm _ _ Hc)|by rewrite Hc]. }
  unfold collect_batch. eapply runs_bind; [unfold batch_ready; runs_step; apply runs_ret|]. runs_step.
  eapply (runs_bind _ _ _ _ ([] : list Counter)).
  { unfold select_batch. runs_step. eapply runs_bind; [exact Rf|]. apply runs_ret. }
  eapply runs_bind; [apply runs_ret|]. apply runs_ret.
Qed.

(** With batches of size zero the flush task never waits and never flushes: every round
    ends at once with the queue, the cached values and Redis as they were. *)
Theorem zero_batch_never_flushes t S wakes :
  cc_wf (cached_counters S) ->
  exists p, runs t S (flush_task 0 wakes) (Ok tt)
    (mkCachedRedis (cached_counters S) (async_redis_storage S) (reservations S) p).
Proof.
  revert S. induction wakes as [|wake wakes IH]; intros S Hwf.
  { exists (partitioned S). destruct S. apply runs_ret. }
  destruct (IH (mkCachedRedis (cached_counters S) (async_redis_storage S) (reservations S) false) Hwf) as [p Rp].
  exists p. cbn [flush_task]. eapply runs_bind; [|exact Rp]. unfold flush_batcher_and_update_counters, consume.
  eapply runs_bind.
  { eapply runs_bind; [apply runs_zoom_read; [by destruct S|by apply collect_zero_run]|].
    eapply runs_bind; [apply runs_ret|]. eapply runs_bind; [apply runs_zoom_read; [by destruct S|apply runs_ret]|]. apply runs_ret. }
  eapply runs_bind; [eapply runs_bind; [apply flip_run|apply runs_ret]|]. apply runs_ret.
Qed.
End zero.
