(* ===== verification/RedisCachedExamples.v ===== *)
(** * The cached Redis storage on concrete states *)

From S2P Require Import Prelude AtomicExpiringValue Cel Errors Limit Counter Reservation Storage Moka StorageSpec.
From S2P Require LocalReservations.
From S2P Require Import AsyncStorage Keys Redis RedisStorage RedisSpec RedisReserve RedisExamples.
From S2P Require Import CountersCache RedisCached RedisCachedSpec RedisFlush.

#[local] Existing Instance demo_engine.
#[local] Existing Instance demo_hash_order.
#[local] Existing Instance demo_postcard.
#[local] Existing Instance demo_serde_json.
#[local] Existing Instance demo_redis.
#[local] Existing Instance demo_redis_laws.
#[local] Existing Instance gmap_moka.
#[local] Existing Instance gmap_moka_laws.
#[local] Existing Instance gmap_moka_roomy.

(** Five hits of ten, of which Redis knows two; the window is open until 1060 s. *)
Definition demo_value : CachedCounterValue := mkCached (mkAev 5 (mkExpiry 1060000000)) 2 true.

Definition demo_cache : CountersCache :=
  mkCountersCache (moka_insert (moka_new 100) demo_counter O)
    (mkBatcher {[counter_key demo_counter := (demo_counter, O)]} (from_secs 1) false 99) [demo_value].

Definition demo_storage (conn : Conn) : CachedRedisStorage :=
  mkCachedRedis demo_cache conn (LocalReservations.registry_new 100) false.

Lemma demo_cache_get k : moka_get (cc_cache demo_cache) k =
  if decide (k = counter_key demo_counter) then Some (demo_counter, O) else None.
Proof.
  change (moka_get (cc_cache demo_cache) k) with (gmap_moka_get (<[counter_key demo_counter := (demo_counter, O)]> (∅ : gmap _ _)) k).
  unfold gmap_moka_get. case_decide as Hk.
  - subst k. rewrite lookup_insert_eq. by rewrite bool_decide_eq_true_2.
  - by rewrite lookup_insert_ne, lookup_empty by done.
Qed.

Lemma demo_cache_local k : local demo_cache k = if decide (k = counter_key demo_counter) then Some O else None.
Proof.
  unfold local. rewrite demo_cache_get. case_decide as Hk; [done|]. cbn [cc_batcher demo_cache updates].
  by rewrite lookup_singleton_ne.
Qed.

Lemma demo_queue k c loc : updates (cc_batcher demo_cache) !! k = Some (c, loc) ->
  k = counter_key demo_counter /\ c = demo_counter /\ loc = O.
Proof. cbn [cc_batcher demo_cache updates]. by intros [<- [= <- <-]]%lookup_singleton_Some. Qed.

Lemma demo_cache_wf : cc_wf demo_cache.
Proof.
  split.
  - intros k loc x Hx y loc' Hy. apply demo_queue in Hy as (_ & _ & ->). rewrite demo_cache_get in Hx.
    destruct (decide _); [by injection Hx|discriminate Hx].
  - intros k k' loc. rewrite !demo_cache_local. destruct (decide _) as [->|_]; [|discriminate].
    destruct (decide _) as [->|_]; [reflexivity|discriminate].
  - intros k loc. rewrite demo_cache_local. destruct (decide _); [|discriminate]. intros Heq. injection Heq as <-. cbn. lia.
  - apply Forall_singleton. split; vm_compute; split; discriminate.
  - intros k c loc Hk. by apply demo_queue in Hk as (-> & -> & _).
Qed.

Lemma demo_time_good : good_time redis_demo_time.
Proof. split; vm_compute; discriminate. Qed.

Lemma demo_hits : local_hits demo_cache redis_demo_time (counter_key demo_counter) = 5.
Proof. unfold local_hits. rewrite demo_cache_local, decide_True by done. vm_refl. Qed.

Lemma demo_window : good_window redis_demo_time (window demo_counter) /\ 0 < as_micros (window demo_counter).
Proof. split; [split_and!; vm_compute; try split; discriminate|vm_compute; reflexivity]. Qed.

Lemma cached_check_and_update_exact_witness : exists cs' a S',
  runs redis_demo_time (demo_storage (idle redis_demo)) (check_and_update [demo_counter] 4) (Ok (Some (cs', a))) S' /\
  a = AuthOk /\ local_hits (cached_counters S') redis_demo_time (counter_key demo_counter) = 9 /\
  async_redis_storage S' = idle redis_demo.
Proof.
  destruct (cached_check_and_update_exact redis_demo_time (demo_storage (idle redis_demo)) [demo_counter] 4)
    as (cs' & a & S' & Hr & _ & Hconn & _ & _ & Ha & Hh & _); cbn [cached_counters demo_storage].
  - apply demo_cache_wf.
  - apply demo_time_good.
  - apply NoDup_singleton.
  - apply Forall_singleton. destruct demo_window as [Hw Hm]. split_and!; [exact Hw|exact Hm|]. rewrite demo_hits. vm_compute. discriminate.
  - apply Forall_singleton. vm_compute. split; discriminate.
  - done.
  - vm_compute. discriminate.
  - assert (Haok : a = AuthOk).
    { apply Ha. intros c Hc. apply list_elem_of_singleton in Hc as ->. cbn [cached_counters demo_storage]. rewrite demo_hits. vm_compute. discriminate. }
    subst a. exists cs', AuthOk, S'. split_and!; [exact Hr|done| |exact Hconn].
    rewrite Hh. cbn [cached_counters demo_storage is_ok andb]. rewrite demo_hits, bool_decide_eq_true_2 by (by left). done.
Defined.

Lemma demo_flush_ready : flush_ready redis_demo demo_cache redis_demo_time.
Proof.
  split.
  - intros k k' c c' loc loc' (-> & _)%demo_queue (-> & _)%demo_queue. done.
  - intros k c loc (-> & -> & ->)%demo_queue. split_and!; [done|vm_compute; discriminate|vm_compute; reflexivity|].
    assert (He : (batch_cell redis_demo (as_millis redis_demo_time) (batch_item demo_cache redis_demo_time (demo_counter, O))).2 = Some 1060000) by vm_refl.
    rewrite He. intros e [= <-]. done.
  - intros k c loc (-> & -> & ->)%demo_queue. apply demo_window.
  - intros k c loc (-> & -> & ->)%demo_queue. rewrite demo_hits. split; [done|vm_compute; discriminate].
Qed.

(** Three hits are sent; with the four Redis had, both count seven. *)
Lemma flush_syncs_witness : exists S' d',
  runs redis_demo_time (demo_storage (idle redis_demo)) (flush_batcher_and_update_counters 100 Timer) (Ok tt) S' /\
  async_redis_storage S' = idle d' /\ redis_value d' redis_demo_time demo_counter = 7 /\
  local_hits (cached_counters S') redis_demo_time (counter_key demo_counter) = 7.
Proof.
  destruct (flush_syncs redis_demo_time (demo_storage (idle redis_demo)) redis_demo 100 Timer)
    as (m & S' & d' & Hr & _ & Hconn & _ & _ & _ & _ & _ & Hall & Hin & _); cbn [cached_counters demo_storage].
  - done.
  - apply demo_cache_wf.
  - apply demo_time_good.
  - apply redis_demo_cells.
  - apply demo_flush_ready.
  - cbn [cached_counters demo_storage] in Hall, Hin. rewrite Hall in Hin by (vm_compute; lia).
    destruct (Hin (counter_key demo_counter) demo_counter O) as (_ & Hv & Hl); [cbn [cc_batcher demo_cache updates]; by rewrite lookup_singleton_eq|].
    rewrite redis_demo_value in Hv. replace (unsent (cell_at demo_cache 0) redis_demo_time) with 3 in Hv, Hl by (symmetry; vm_refl).
    exists S', d'. split_and!; [exact Hr|exact Hconn|exact Hv|]. rewrite Hl, Hv. cbn [Z.ltb Z.compare].
    unfold in_cache. rewrite demo_hits. by case_bool_decide.
Defined.

(** A time-out whose script ran: Redis counts three hits that are sent again. *)
Definition demo_timeout : RedisError := mkRedisError "timed out" true false false false false.

Lemma failed_flush_witness : exists S' d',
  runs redis_demo_time (demo_storage (failing redis_demo demo_timeout true [] [])) (flush_batcher_and_update_counters 100 Timer) (Ok tt) S' /\
  partitioned S' = true /\ async_redis_storage S' = idle d' /\ redis_value d' redis_demo_time demo_counter = 7 /\
  unsent (cell_at (cached_counters S') 0) redis_demo_time = 3.
Proof.
  pose proof (failed_flush redis_demo_time (demo_storage (failing redis_demo demo_timeout true [] [])) redis_demo demo_timeout true [] [] 100 Timer
    eq_refl demo_cache_wf demo_time_good redis_demo_cells demo_flush_ready ltac:(lia) ltac:(apply insert_non_empty)) as H.
  cbn [transient from_redis_error re_timeout re_connection_dropped re_cluster_error re_connection_refusal demo_timeout orb cached_counters demo_storage] in H.
  destruct H as (m & S' & d' & Hr & _ & Hp & Hconn & Hsub & Hne & _ & Hin).
  assert (Hm : m !! counter_key demo_counter = Some (demo_counter, O)).
  { destruct (map_choose m Hne) as (k & [c loc] & Hk). pose proof (lookup_weaken _ _ _ _ Hk Hsub) as Hu.
    by apply demo_queue in Hu as (-> & -> & ->). }
  destruct (Hin _ _ _ Hm) as [Hv Hu]. rewrite redis_demo_value in Hv.
  replace (unsent (cell_at demo_cache 0) redis_demo_time) with 3 in Hv, Hu by (symmetry; vm_refl).
  rewrite demo_hits, bool_decide_eq_false_2 in Hu by (vm_compute; intuition discriminate).
  exists S', d'. split_and!; [exact Hr|exact Hp|exact Hconn|exact Hv|exact Hu].
Defined.
