(* ===== verification/HttpApi.v ===== *)
(** * The HTTP API: [limitador-server/src/http_api]

    The handlers of [server.rs] over the enum [Limiter] of the gRPC services, and
    the types of [request_types.rs] they read and write.  A handler that returns
    [Result<Json<T>, ErrorResponse>] throws the error response. *)

From S2P Require Import Prelude Cel Errors Limit Counter Reservation Storage AsyncStorage Keys.
From S2P Require Import AsyncRateLimiter RateLimiter EnvoyRls.

(** ** [request_types.rs] *)

Record CheckAndReportInfo : Type := mkInfo {
  ci_namespace : string;
  ci_values : gmap string string;
  ci_delta : Z;
  ci_response_headers : option string
}.

Record HttpLimit : Type := mkHttpLimit {
  hl_id : option string;
  hl_namespace : string;
  hl_max_value : Z;
  hl_seconds : Z;
  hl_name : option string;
  hl_conditions : list string;
  hl_variables : list string
}.

Record HttpCounter : Type := mkHttpCounter {
  hc_limit : HttpLimit;
  hc_set_variables : gmap string string;
  hc_remaining : option Z;
  hc_expires_in_seconds : option Z
}.

(** ** [server.rs] *)

Inductive ErrorResponse : Type := TooManyRequests | InternalServerError.

Definition display_error_response (e : ErrorResponse) : string :=
  match e with
  | TooManyRequests => "Too many requests"
  | InternalServerError => "Internal server error"
  end.

Definition error_status_code (e : ErrorResponse) : Z :=
  match e with TooManyRequests => 429 | InternalServerError => 500 end.

(** A response: its status and headers; the body of those below is [null]. *)
Record HttpResponse : Type := mkHttpResponse {
  http_status : Z;
  http_headers : list (string * string)
}.

(** [struct Status] of [main.rs]; times are clock readings. *)
Record ServerStatus : Type := mkServerStatus {
  started_at : SystemTime;
  config_applied_at : SystemTime;
  config_version : Z;
  config_err_since : Z
}.

Definition config_success {E} : M ServerStatus E unit :=
  let* t := now in
  let* s := get in
  put (mkServerStatus (started_at s) t (u64_add (config_version s) 1) 0).

Definition config_failure {E} : M ServerStatus E unit :=
  let* s := get in
  put (mkServerStatus (started_at s) (config_applied_at s) (config_version s) (u64_add (config_err_since s) 1)).

Definition status_default {St E} : M St E ServerStatus :=
  let* t := now in ret (mkServerStatus t t 0 0).

Section http_api.
Context {CE : CelEngine} {HO : HashOrder} {WI : Wire}.

Definition http_limit_from (ll : Limit) : HttpLimit :=
  mkHttpLimit (limit_id ll) (namespace ll) (limit_max_value ll) (seconds ll) (limit_name ll)
    (hash_iter_set (limit_conditions ll)) (hash_iter_set (limit_variables ll)).

(** [impl TryFrom<Limit> for LimitadorLimit] *)
Definition limit_try_from (l : HttpLimit) : Outcome ParseError Limit :=
  let conditions := map_outcome predicate_parse (hl_conditions l) in
  let variables := map_outcome expression_parse (hl_variables l) in
  let? ll :=
    match hl_id l with
    | Some id =>
        let? conditions := conditions in
        let? variables := variables in
        Ok (limit_with_id id (hl_namespace l) (hl_max_value l) (hl_seconds l) conditions variables)
    | None =>
        let? conditions := conditions in
        let? variables := variables in
        Ok (limit_new (hl_namespace l) (hl_max_value l) (hl_seconds l) conditions variables)
    end in
  Ok (match hl_name l with Some name => set_name ll name | None => ll end).

Definition http_counter_from (lc : Counter) : HttpCounter :=
  mkHttpCounter (http_limit_from (ctr_limit lc)) (set_variables lc) (remaining lc) (as_secs <$> expires_in lc).

(** What the handlers read from the limiter beside [LimiterOps]. *)
Class LimiterReads (L : Type) : Type := {
  l_get_limits : string -> M L LimitadorError LimitSet;
  l_get_counters : string -> M L LimitadorError CounterSet
}.

Definition blocking_reads {St} (CS : CounterStorage St) : LimiterReads (RateLimiter St) := {|
  l_get_limits := RateLimiter.get_limits;
  l_get_counters := RateLimiter.get_counters
|}.

Definition async_reads {St} (AS : AsyncStorage.AsyncCounterStorage St) : LimiterReads (RateLimiter St) := {|
  l_get_limits := AsyncRateLimiter.get_limits;
  l_get_counters := AsyncRateLimiter.get_counters
|}.

Context {L : Type} {LO : LimiterOps L} {LR : LimiterReads L}.
Abbreviation HM A := (M (Service L) ErrorResponse A).

(** [RateLimitData]: the limiter and the metrics, with the status of the process. *)
Record RateLimitData : Type := mkRateLimitData {
  rd_service : Service L;
  rd_status : ServerStatus
}.

Definition http_status_of (data : RateLimitData) : ServerStatus := rd_status data.

Definition get_limits (ns : string) : HM (list HttpLimit) :=
  let* limits := map_err (fun _ => InternalServerError) (on_limiter (l_get_limits ns)) in
  ret (http_limit_from <$> (hash_iter limits).*2).

Definition get_counters (ns : string) : HM (list HttpCounter) :=
  let* counters := map_err (fun _ => InternalServerError) (on_limiter (l_get_counters ns)) in
  ret (http_counter_from <$> (hash_iter counters).*2).

(** The context of a request: its values are the only descriptor. *)
Definition info_context (info : CheckAndReportInfo) : Context :=
  list_binding context_default "descriptors" [ci_values info].

Definition check (info : CheckAndReportInfo) : HM unit :=
  let* rate_limited := map_err (fun _ => InternalServerError)
    (on_limiter (l_is_rate_limited (ci_namespace info) (info_context info) (ci_delta info))) in
  if limited rate_limited then throw TooManyRequests else ret tt.

Definition report (info : CheckAndReportInfo) : HM unit :=
  map_err (fun _ => InternalServerError)
    (on_limiter (l_update_counters (ci_namespace info) (info_context info) (ci_delta info))).

(** The headers handed to the response builder.  What the builder makes of them is actix's:
    a value that HTTP does not allow, from a limit whose name has control characters,
    turns the response into a 500. *)
Definition add_response_header (rate_limit_headers : string) (result : CheckResult) : list (string * string) :=
  if bool_decide (rate_limit_headers = "DraftVersion03"%string) then
    let headers := (response_header result).1 in
    match headers !! "X-RateLimit-Limit"%string with
    | Some limit => [("X-RateLimit-Limit"%string, limit)]
    | None => []
    end ++
    match headers !! "X-RateLimit-Remaining"%string with
    | Some remaining =>
        ("X-RateLimit-Remaining"%string, remaining) ::
        match headers !! "X-RateLimit-Reset"%string with
        | Some duration => [("X-RateLimit-Reset"%string, duration)]
        | None => []
        end
    | None => []
    end
  else [].

Definition check_and_report (info : CheckAndReportInfo) : HM HttpResponse :=
  let ns := ci_namespace info in
  let ctx := info_context info in
  let* r := attempt (on_limiter (l_check_rate_limited_and_update ns ctx (ci_delta info))) in
  match r with
  | inl is_rate_limited =>
      let headers := match ci_response_headers info with
                     | None => []
                     | Some response_headers => add_response_header response_headers is_rate_limited
                     end in
      if limited is_rate_limited then
        metric (IncrLimitedCalls ns (result_limit_name is_rate_limited) ctx) ;;;
        ret (mkHttpResponse 429 headers)
      else
        metric (IncrAuthorizedCalls ns ctx) ;;;
        metric (IncrAuthorizedHits ns ctx (ci_delta info)) ;;;
        ret (mkHttpResponse 200 headers)
  | inr _ => ret (mkHttpResponse 500 [])
  end.

(** What actix answers for a [Result] of a handler. *)
Definition respond {A} (r : A + ErrorResponse) : Z :=
  match r with inl _ => 200 | inr e => error_status_code e end.
End http_api.
