(* ===== verification/HttpApiSpec.v ===== *)
(** * What an HTTP client can rely on *)

From S2P Require Import Prelude AtomicExpiringValue Cel Errors Limit Counter Reservation Storage AsyncStorage Keys.
From S2P Require Import Moka InMemory InMemoryInv InMemorySpec AsyncRateLimiter RateLimiter RateLimiterSpec EnvoyRls EnvoyRlsSpec HttpApi.

(** ** Sorted collections *)

Section collect.
Context {T : Type} (key : T -> string).

Definition key_lt (a b : T) : Prop := str_lt (key a) (key b).

#[local] Instance key_lt_strict : StrictOrder key_lt.
Proof.
  split; [intros x Hx; by apply (irreflexivity str_lt (key x))|]. intros x y z Hxy Hyz. unfold key_lt in *. exact (transitivity (R := str_lt) Hxy Hyz).
Qed.

Lemma btree_insert_sub x l y : y ∈ btree_insert key x l -> y = x \/ y ∈ l.
Proof.
  induction l as [|z l IH]; simpl; [set_solver|]. destruct (String.compare (key x) (key z)); rewrite ?elem_of_cons; [tauto|tauto|].
  intros [->|Hy]; [tauto|]. apply IH in Hy. tauto.
Qed.

Lemma btree_collect_sub l y : y ∈ btree_collect key l -> y ∈ l.
Proof.
  unfold btree_collect. assert (Hgen : forall acc, y ∈ foldl (fun acc x => btree_insert key x acc) acc l -> y ∈ acc \/ y ∈ l).
  { induction l as [|x l IH]; intros acc Hy; [by left|]. simpl in Hy. apply IH in Hy as [Hy|Hy]; [|right; by right].
    apply btree_insert_sub in Hy as [->|Hy]; [right; by left|by left]. }
  intros Hy. apply Hgen in Hy as [Hy|Hy]; [by apply not_elem_of_nil in Hy|done].
Qed.

Lemma sorted_keys l : StronglySorted str_lt (key <$> l) <-> StronglySorted key_lt l.
Proof.
  induction l as [|x l IH]; [split; constructor|]. rewrite fmap_cons. split; intros Hs; inversion Hs as [|? ? Hl Hx]; subst.
  - constructor; [by apply IH|]. by rewrite Forall_fmap in Hx.
  - constructor; [by apply IH|]. by rewrite Forall_fmap.
Qed.

Lemma sorted_key_inj l x y : StronglySorted key_lt l -> x ∈ l -> y ∈ l -> key x = key y -> x = y.
Proof.
  induction 1 as [|z l Hs IH Hz]; intros Hx Hy Hk; [by apply not_elem_of_nil in Hx|]. rewrite Forall_forall in Hz.
  apply elem_of_cons in Hx as [->|Hx], Hy as [->|Hy]; [done| | |by apply IH].
  - exfalso. apply (irreflexivity str_lt (key z)). rewrite Hk at 2. by apply Hz.
  - exfalso. apply (irreflexivity str_lt (key z)). rewrite <-Hk at 2. by apply Hz.
Qed.

(** Collecting the elements of a sorted list in any order rebuilds it. *)
Lemma btree_collect_rebuild l k : StronglySorted str_lt (key <$> k) -> (forall x, x ∈ l <-> x ∈ k) -> btree_collect key l = k.
Proof.
  intros Hk Hext. apply sorted_keys in Hk. apply (strictly_sorted_ext key_lt); [apply sorted_keys, btree_collect_sorted|done|].
  intros x. split; [intros Hx%btree_collect_sub; by apply Hext|]. intros Hx.
  assert (Hkey : key x ∈ key <$> btree_collect key l) by (apply btree_collect_keys, list_elem_of_fmap; exists x; split; [done|by apply Hext]).
  apply list_elem_of_fmap in Hkey as (y & Hxy & Hy). pose proof (btree_collect_sub _ _ Hy) as Hy'.
  by rewrite (sorted_key_inj k x y Hk Hx (proj1 (Hext y) Hy') Hxy).
Qed.
End collect.

Section limits.
Context {CE : CelEngine} {HO : HashOrder}.

(** Parsing the sources of some expressions, in any order, gives them back. *)
Lemma parse_sources {T E} (parse : string -> Outcome E T) (key : T -> string) (l : list T) (srcs : list string) :
  Forall (fun x => parse (key x) = Ok x) l -> (forall s, s ∈ srcs <-> s ∈ key <$> l) ->
  exists xs, map_outcome parse srcs = Ok xs /\ forall x, x ∈ xs <-> x ∈ l.
Proof.
  intros Hl Hs. rewrite Forall_forall in Hl.
  assert (Hgen : forall srcs, (forall s, s ∈ srcs -> s ∈ key <$> l) ->
            exists xs, map_outcome parse srcs = Ok xs /\ forall x, x ∈ xs <-> x ∈ l /\ key x ∈ srcs).
  { clear srcs Hs. induction srcs as [|s srcs IH]; intros Hs.
    { exists []. split; [done|]. intros x. split; [intros Hx; by apply not_elem_of_nil in Hx|]. intros [_ Hx]. by apply not_elem_of_nil in Hx. }
    destruct IH as (xs & Hx & Hin); [intros s' Hs'; apply Hs; by right|].
    destruct (proj1 (list_elem_of_fmap _ _ _) (Hs s ltac:(by left))) as (x0 & -> & Hx0).
    exists (x0 :: xs). split; [cbn [map_outcome]; rewrite (Hl x0 Hx0); cbn [outcome_bind]; by rewrite Hx|].
    intros x. rewrite !elem_of_cons, Hin. split; [naive_solver|]. intros [Hxl [Heq|?]]; [|tauto]. left.
    pose proof (Hl x Hxl) as H1. rewrite Heq, (Hl x0 Hx0) in H1. by injection H1. }
  destruct (Hgen srcs) as (xs & Hx & Hin); [intros s; by apply Hs|]. exists xs. split; [done|]. intros x. rewrite Hin. split; [tauto|].
  intros Hxl. split; [done|]. apply Hs, list_elem_of_fmap. by exists x.
Qed.

Lemma hash_iter_set_elem (X : gset string) s : s ∈ hash_iter_set X <-> s ∈ X.
Proof.
  unfold hash_iter_set. rewrite list_elem_of_fmap. setoid_rewrite hash_iter_perm. split.
  - intros ([s' []] & -> & Hin%elem_of_map_to_list). by apply lookup_gset_to_gmap_Some in Hin as [? _].
  - intros Hs. exists (s, tt). split; [done|]. apply elem_of_map_to_list. by apply lookup_gset_to_gmap_Some.
Qed.

(** A limit as the server keeps it: its sets are ordered, and its sources are those of
    the expressions they were parsed from. *)
Definition kept_limit (l : Limit) : Prop := limit_wf l /\ limit_reparses l.

(** A limit survives the HTTP API.  What a client is shown of a limit, its
    conditions and variables in whatever order the server lists them, converts back
    to the very same limit: id, name, maximum and window included. *)
Theorem http_limit_roundtrip (l : Limit) :
  kept_limit l -> limit_try_from (http_limit_from l) = Ok l.
Proof.
  intros [(Hc & Hv & _ & _) [Hpc Hpv]].
  destruct (parse_sources predicate_parse predicate_source (conditions l) (hash_iter_set (limit_conditions l)) Hpc) as (cs & Rc & Hcs).
  { intros s. rewrite hash_iter_set_elem. apply elem_of_list_to_set. }
  destruct (parse_sources expression_parse source (variables l) (hash_iter_set (limit_variables l)) Hpv) as (vs & Rv & Hvs).
  { intros s. rewrite hash_iter_set_elem. apply elem_of_list_to_set. }
  pose proof (btree_collect_rebuild predicate_source cs (conditions l) Hc Hcs) as Ec.
  pose proof (btree_collect_rebuild source vs (variables l) Hv Hvs) as Ev.
  unfold limit_try_from, http_limit_from. cbn [hl_id hl_namespace hl_max_value hl_seconds hl_name hl_conditions hl_variables].
  rewrite Rc, Rv. cbn [outcome_bind]. unfold limit_with_id, limit_new. rewrite Ec, Ev.
  destruct l as [[id|] ns mv secs [name|] conds vars]; reflexivity.
Qed.
End limits.

(** ** The HTTP and the gRPC service give the same answers *)

Section agreement.
Context {CE : CelEngine} {HO : HashOrder} {WI : Wire} {L : Type} {LO : LimiterOps L}.

Lemma no_headers (cs : list Counter) : headers_of HeadersNone cs = [].
Proof. done. Qed.

(** The headers of a check, in order. *)
Lemma headers_agree (res : CheckResult) : add_response_header "DraftVersion03" res = headers_of DraftVersion03 (counters res).
Proof.
  unfold add_response_header, headers_of, headers_from_map. rewrite bool_decide_eq_true_2 by done.
  rewrite bool_decide_eq_false_2 by done. cbn [negb].
  assert (Hrh : (response_header res).1 = (response_headers_for (counters res)).1).
  { unfold response_header. by destruct (response_headers_for (counters res)). }
  rewrite Hrh. set (h := (response_headers_for (counters res)).1).
  assert (Hdom : h = ∅ \/ exists a b o, h = (match o with Some d => <["X-RateLimit-Reset" := d]> | None => id end)
                   (<["X-RateLimit-Remaining" := a]> (<["X-RateLimit-Limit" := b]> (∅ : gmap string string)))%string).
  { unfold h, response_headers_for. cbn [fst]. destruct (sort_by_remaining (counters res)) as [|c cs]; [by left|]. right.
    destruct (expires_in c) as [dur|]; do 2 eexists; [by exists (Some (pretty (as_secs dur)))|by exists None]. }
  symmetry. apply btree_collect_rebuild.
  - destruct Hdom as [-> | (a & b & [d|] & ->)].
    + rewrite !lookup_empty. constructor.
    + repeat first [rewrite lookup_insert_eq | rewrite lookup_insert_ne by done]. cbn [app fmap list_fmap fst]. repeat constructor.
    + cbn [id]. repeat first [rewrite lookup_insert_eq | rewrite lookup_insert_ne by done | rewrite lookup_empty].
      cbn [app fmap list_fmap fst]. repeat constructor.
  - intros [k v]. rewrite hash_iter_perm, elem_of_map_to_list. destruct Hdom as [-> | (a & b & [d|] & ->)].
    + rewrite !lookup_empty. set_solver.
    + repeat first [rewrite lookup_insert_eq | rewrite lookup_insert_ne by done]. rewrite !lookup_insert_Some, lookup_empty. set_solver.
    + cbn [id]. repeat first [rewrite lookup_insert_eq | rewrite lookup_insert_ne by done | rewrite lookup_empty].
      rewrite !lookup_insert_Some, lookup_empty. set_solver.
Qed.

(** A request over HTTP and one of Envoy that mean the same: the values are the only
    descriptor, and the two ask for the same headers. *)
Record same_request (cfg : ServiceConfig) (info : CheckAndReportInfo) (req : RateLimitRequest) : Prop := {
  sr_domain : domain req = ci_namespace info;
  sr_hits : hits_addend_of req = ci_delta info;
  sr_values : descriptor_map <$> descriptors req = [ci_values info];
  sr_headers : rate_limit_headers cfg = DraftVersion03 <-> ci_response_headers info = Some "DraftVersion03"%string
}.

(** C18: the HTTP endpoint and Envoy's gRPC call agree.  On the same request, of a
    namespace that is not empty, they leave the limiter and the metrics in the same
    state and give the same answer: 200 for OK and 429 for over limit, with the same
    headers handed to the response builder, and 500 whenever the gRPC call fails. *)
Theorem http_agrees_with_envoy cfg info req (w : World (Service L)) :
  same_request cfg info req -> domain req <> ""%string ->
  check_and_report info w =
  match should_rate_limit cfg req w with
  | (Ok resp, w') =>
      (Ok (mkHttpResponse (if bool_decide (overall_code resp = CodeOk) then 200 else 429) (response_headers_to_add resp)), w')
  | (Err _, w') => (Ok (mkHttpResponse 500 []), w')
  | (Panic msg, w') => (Panic msg, w')
  end.
Proof.
  intros [Hd Hh Hv Hhd] Hns. unfold check_and_report, should_rate_limit. rewrite bool_decide_eq_false_2 by done.
  rewrite Hh, Hd, Hv. fold (info_context info).
  assert (Hheaders : forall res, match ci_response_headers info with None => [] | Some h => add_response_header h res end =
                                 headers_of (rate_limit_headers cfg) (counters res)).
  { intros res. destruct (rate_limit_headers cfg) eqn:Hc.
    - rewrite no_headers. destruct (ci_response_headers info) as [h|]; [|done]. unfold add_response_header.
      rewrite bool_decide_eq_false_2; [done|]. intros ->. destruct Hhd as [_ Hhd]. discriminate (Hhd eq_refl).
    - rewrite (proj1 Hhd eq_refl). apply headers_agree. }
  unfold bind, attempt, map_err.
  destruct (on_limiter (l_check_rate_limited_and_update (ci_namespace info) (info_context info) (ci_delta info)) w) as [[res|e|msg] w1];
    cbn [outcome_map_err]; [|reflexivity|reflexivity].
  rewrite Hheaders. destruct (limited res); reflexivity.
Qed.
End agreement.

(** ** Examples *)

#[local] Existing Instance demo_engine.
#[local] Existing Instance demo_hash_order.
#[local] Existing Instance gmap_moka.
#[local] Existing Instance demo_wire.

Lemma http_limit_roundtrip_witness : limit_try_from (http_limit_from demo_limit) = Ok demo_limit.
Proof. apply http_limit_roundtrip; split; apply demo_counter_of_limit. Defined.

Definition http_config : ServiceConfig := mkServiceConfig DraftVersion03 false.

Definition http_info (delta : Z) : CheckAndReportInfo :=
  mkInfo "ns" {["user" := "bob"]} delta (Some "DraftVersion03")%string.

(** Eleven hits of ten are refused, with the headers of Envoy's call. *)
Lemma http_agrees_with_envoy_witness : exists w',
  check_and_report (LO := blocking_limiter in_memory_counter_storage) (http_info 11)
      (mkWorld (mkService rls_limiter []) (fun _ => demo_time) 0) =
    (Ok (mkHttpResponse 429 [("X-RateLimit-Limit", "10, 10;w=60"); ("X-RateLimit-Remaining", "10"); ("X-RateLimit-Reset", "60")]%string), w').
Proof.
  pose proof (http_agrees_with_envoy (LO := blocking_limiter in_memory_counter_storage) http_config (http_info 11) (rls_request 11)
    (mkWorld (mkService rls_limiter []) (fun _ => demo_time) 0)) as H.
  destruct (should_rate_limit (LO := blocking_limiter in_memory_counter_storage) http_config (rls_request 11)
    (mkWorld (mkService rls_limiter []) (fun _ => demo_time) 0)) as [o w'] eqn:Hs.
  assert (Ho : o = Ok (mkRlResponse CodeOverLimit
    [("X-RateLimit-Limit", "10, 10;w=60"); ("X-RateLimit-Remaining", "10"); ("X-RateLimit-Reset", "60")]%string)).
  { change o with (o, w').1. rewrite <-Hs. vm_refl. }
  clear Hs. exists w'. rewrite H; [rewrite Ho; reflexivity| |discriminate].
  constructor; [reflexivity|reflexivity|vm_refl|split; intros _; reflexivity].
Defined.
