(* ===== verification/Endpoints.v ===== *)
(** * The two servers: [run_envoy_rls_server] and [run_http_server]

    How the handlers of [EnvoyRls.v] and [HttpApi.v] are put behind their endpoints:
    every request passes through a middleware that opens a span named after its
    [X-Request-Id], and the HTTP server finds the handler in its table of routes.  A
    [Process] is what a server sees of the process: the limiter, the metrics and the
    status behind the [Arc]s it was given; [Wiring.v] hands these out and shows that
    all servers see the same.  What [http], [tonic] and [actix] do for them is the class
    [HttpStack]. *)

From Stdlib Require Import Ascii.
From S2P Require Import Prelude AtomicExpiringValue Cel Errors Limit Counter Reservation.
From S2P Require Import Storage Moka LocalReservations StorageSpec InMemory InMemoryInv.
From S2P Require Import InMemorySpec AsyncStorage AsyncRateLimiter RateLimiter RateLimiterSpec.
From S2P Require Import EnvoyRls EnvoyRlsSpec HttpApi.

Class HttpStack {CE : CelEngine} : Type := {
  HeaderValue : Type;
  HeaderMap : Type;
  header_get : HeaderMap -> string -> option HeaderValue;
  header_keys : HeaderMap -> list string;
  (** [HeaderValue::to_str], of visible ASCII only. *)
  header_to_str : HeaderValue -> option string;
  SocketAddr : Type;
  parse_addr : string -> option SocketAddr;
  (** Whether the address can be bound. *)
  can_bind : string -> bool;
  (** Whether a path matches a pattern, and then the value of the pattern's segment. *)
  path_match : string -> string -> option (option string);
  Body : Type;
  (** The [Json] extractor. *)
  json_info : Body -> option CheckAndReportInfo;
  (** [PrometheusHandle::render], of what the recorder was told. *)
  render : list MetricCall -> string
}.

(** A pattern without segments, and the text of a segment. *)
Fixpoint no_brace (s : string) : bool :=
  match s with
  | EmptyString => true
  | String a s => negb (Ascii.eqb a "{"%char) && no_brace s
  end.

Fixpoint no_slash (s : string) : bool :=
  match s with
  | EmptyString => true
  | String a s => negb (Ascii.eqb a "/"%char) && no_slash s
  end.

Definition is_segment (s : string) : bool := negb (String.eqb s "") && no_slash s.

(** What actix documents of patterns: a pattern without segments matches itself, and a
    segment at the end any text without a slash, percent-decoded. *)
Class HttpStackSpec {CE : CelEngine} {HS : HttpStack} : Type := {
  url_decode : string -> string;
  path_static : forall p q, no_brace p = true ->
    path_match p q = if String.eqb p q then Some None else None;
  path_segment : forall p q v, no_brace p = true ->
    path_match (p +:+ "{namespace}") q = Some v <->
    exists seg, is_segment seg = true /\ q = p +:+ seg /\ v = Some (url_decode seg)
}.

(** A span of [tracing], with the field both middlewares set. *)
Record Span : Type := mkSpan {
  span_name : string;
  x_request_id : option string
}.

Section endpoints.
Context {CE : CelEngine} {HO : HashOrder} {WI : Wire} {HS : HttpStack}.

(** [impl Extractor for RateLimitRequestHeaders] *)
Definition extractor_get (inner : HeaderMap) (key : string) : option string :=
  match header_get inner key with
  | Some v => header_to_str v
  | None => None
  end.

Definition extractor_keys (inner : HeaderMap) : list string := header_keys inner.

(** The span of a request: a value that is no text is shown as invalid. *)
Definition request_span (name : string) (headers : HeaderMap) : Span :=
  match header_get headers "X-Request-Id" with
  | Some rid => mkSpan name (Some (default "invalid"%string (header_to_str rid)))
  | None => mkSpan name None
  end.

Context {L : Type} {LO : LimiterOps L} {LR : LimiterReads L}.

(** What a server finds behind its [Arc]s, and the spans opened so far. *)
Record Process : Type := mkProcess {
  pr_data : RateLimitData (L := L);
  pr_spans : list Span
}.

Definition on_service {E A} (m : M (Service L) E A) : M Process E A :=
  zoom (fun p => rd_service (pr_data p))
       (fun s p => mkProcess (mkRateLimitData s (rd_status (pr_data p))) (pr_spans p)) m.

Definition open_span {E} (sp : Span) : M Process E unit :=
  let* p := get in put (mkProcess (pr_data p) (pr_spans p ++ [sp])).

(** ** gRPC *)

(** The settings [MyRateLimiter] and [KuadrantService] are made with. *)
Definition my_rate_limiter_new (rate_limit_headers : RateLimitHeaders) : ServiceConfig :=
  mkServiceConfig rate_limit_headers false.

Definition new_with_reservation_config (disable_reservations : bool) (rate_limit_headers : RateLimitHeaders) : ServiceConfig :=
  mkServiceConfig rate_limit_headers disable_reservations.

Record GrpcServer : Type := mkGrpcServer {
  gs_address : SocketAddr;
  gs_envoy : ServiceConfig;
  gs_kuadrant : ServiceConfig;
  gs_reflection : option (list string)
}.

(** What the server serves; an address that is not one panics. *)
Definition run_envoy_rls_server (address : string) (rate_limit_headers : RateLimitHeaders)
    (grpc_reflection_service disable_reservations : bool) : Outcome Empty_set GrpcServer :=
  let envoy := my_rate_limiter_new rate_limit_headers in
  let kuadrant := new_with_reservation_config disable_reservations rate_limit_headers in
  let reflection := if grpc_reflection_service then Some ["rls"; "kuadrantrls"]%string else None in
  match parse_addr address with
  | Some addr => Ok (mkGrpcServer addr envoy kuadrant reflection)
  | None => Panic "called `Result::unwrap()` on an `Err` value"
  end.

(** The methods of the two services; [uuid] is the id a reservation will have. *)
Inductive GrpcRequest : Type :=
| EnvoyShouldRateLimit (req : RateLimitRequest)
| KuadrantCheckRateLimit (req : RateLimitRequest)
| KuadrantReport (req : RateLimitRequest)
| KuadrantReserve (uuid : ReservationId) (req : ReserveRequest)
| KuadrantCommit (req : CommitRequest).

Inductive GrpcReply : Type :=
| RateLimitReply (resp : RateLimitResponse)
| ReserveReply (resp : ReserveResponse)
| CommitReply (resp : CommitResponse).

Definition grpc_service (srv : GrpcServer) (req : GrpcRequest) : M (Service L) Status GrpcReply :=
  match req with
  | EnvoyShouldRateLimit req => let* resp := should_rate_limit (gs_envoy srv) req in ret (RateLimitReply resp)
  | KuadrantCheckRateLimit req => let* resp := check_rate_limit (gs_kuadrant srv) req in ret (RateLimitReply resp)
  | KuadrantReport req => let* resp := EnvoyRls.report (gs_kuadrant srv) req in ret (RateLimitReply resp)
  | KuadrantReserve uuid req => let* resp := svc_reserve (gs_kuadrant srv) uuid req in ret (ReserveReply resp)
  | KuadrantCommit req => let* resp := svc_commit (gs_kuadrant srv) req in ret (CommitReply resp)
  end.

(** [RequestIdMiddleware::call] *)
Definition grpc_call (srv : GrpcServer) (headers : HeaderMap) (req : GrpcRequest) : M Process Status GrpcReply :=
  open_span (request_span "grpc" headers) ;;;
  on_service (grpc_service srv req).

(** ** HTTP *)

Inductive Method : Type := GET | POST | OtherMethod.

#[export] Instance Method_eq_dec : EqDecision Method.
Proof. solve_decision. Defined.

Inductive Endpoint : Type :=
| EpStatus | EpMetrics | EpGetLimits | EpGetCounters | EpCheckAndReport | EpCheck | EpReport.

(** The table of [App::route] calls, in their order. *)
Definition routes : list (string * Method * Endpoint) :=
  [("/status", GET, EpStatus); ("/metrics", GET, EpMetrics); ("/limits/{namespace}", GET, EpGetLimits);
   ("/counters/{namespace}", GET, EpGetCounters); ("/check_and_report", POST, EpCheckAndReport);
   ("/check", POST, EpCheck); ("/report", POST, EpReport)]%string.

Record HttpRequest : Type := mkHttpRequest {
  hq_method : Method;
  hq_path : string;
  hq_headers : HeaderMap;
  hq_body : Body
}.

Inductive HttpBody : Type :=
| BodyNull
| BodyText (text : string)
| BodyStatus (status : ServerStatus)
| BodyLimits (limits : list HttpLimit)
| BodyCounters (counters : list HttpCounter).

(** A reply of a handler, or of actix itself: no route, another method, or a body that
    does not parse. *)
Inductive HttpReply : Type :=
| Replied (status : Z) (headers : list (string * string)) (body : HttpBody)
| ActixReply.

(** The first route whose pattern matches the path, if it is for the method. *)
Fixpoint find_route (table : list (string * Method * Endpoint)) (m : Method) (path : string)
    : option (Endpoint * option string) :=
  match table with
  | [] => None
  | (pattern, m', ep) :: table =>
      match path_match pattern path with
      | Some seg => if bool_decide (m = m') then Some (ep, seg) else None
      | None => find_route table m path
      end
  end.

(** The reply for the [Result] of a handler. *)
Definition reply_of {A} (body : A -> HttpBody) (m : M (Service L) ErrorResponse A) : M Process Empty_set HttpReply :=
  let* r := attempt (on_service m) in
  ret match r with
      | inl a => Replied 200 [] (body a)
      | inr e => Replied (error_status_code e) [] (BodyText (display_error_response e))
      end.

Definition gather_metrics (metrics : list MetricCall) : string := render metrics.

Definition http_endpoint (ep : Endpoint) (seg : option string) (body : Body) : M Process Empty_set HttpReply :=
  match ep, seg, json_info body with
  | EpStatus, _, _ => let* p := get in ret (Replied 200 [] (BodyStatus (http_status_of (pr_data p))))
  | EpMetrics, _, _ =>
      let* p := get in ret (Replied 200 [] (BodyText (gather_metrics (svc_metrics (rd_service (pr_data p))))))
  | EpGetLimits, Some ns, _ => reply_of BodyLimits (HttpApi.get_limits ns)
  | EpGetCounters, Some ns, _ => reply_of BodyCounters (HttpApi.get_counters ns)
  | EpCheckAndReport, _, Some info =>
      let* r := attempt (on_service (check_and_report info)) in
      ret match r with
          | inl resp => Replied (http_status resp) (http_headers resp) BodyNull
          | inr e => Replied (error_status_code e) [] (BodyText (display_error_response e))
          end
  | EpCheck, _, Some info => reply_of (fun _ => BodyNull) (HttpApi.check info)
  | EpReport, _, Some info => reply_of (fun _ => BodyNull) (HttpApi.report info)
  | _, _, _ => ret ActixReply
  end.

(** A request to the HTTP server, through the function given to [wrap_fn]. *)
Definition http_call (req : HttpRequest) : M Process Empty_set HttpReply :=
  open_span (request_span "http" (hq_headers req)) ;;;
  match find_route routes (hq_method req) (hq_path req) with
  | Some (ep, seg) => http_endpoint ep seg (hq_body req)
  | None => ret ActixReply
  end.
End endpoints.
