(* ===== verification/EndpointsSpec.v ===== *)
(** * What the two servers guarantee together *)

From Stdlib Require Import Ascii.
From S2P Require Import Prelude AtomicExpiringValue Cel Errors Limit Counter Reservation.
From S2P Require Import Storage Moka LocalReservations StorageSpec InMemory InMemoryInv.
From S2P Require Import InMemorySpec AsyncStorage AsyncRateLimiter RateLimiter RateLimiterSpec.
From S2P Require Import EnvoyRls EnvoyRlsSpec HttpApi Endpoints.

(** ** Routing *)

Section routing.
Context {CE : CelEngine} {HS : HttpStack} {HSp : HttpStackSpec}.

Lemma prefix_app p s : String.prefix p (p +:+ s) = true.
Proof. induction p as [|a p IH]; [by destruct s|]. simpl. by destruct (ascii_dec a a). Qed.

(** The patterns of the table do not overlap. *)
Lemma path_other p q : no_brace p = true -> String.prefix p q = false -> path_match (p +:+ "{namespace}") q = None.
Proof.
  intros Hp Hq. destruct (path_match _ q) as [v|] eqn:Hm; [|done].
  apply path_segment in Hm as (seg & _ & -> & _); [|done]. by rewrite prefix_app in Hq.
Qed.

Lemma path_self p seg :
  no_brace p = true -> is_segment seg = true ->
  path_match (p +:+ "{namespace}") (p +:+ seg) = Some (Some (url_decode seg)).
Proof. intros Hp Hs. apply path_segment; [done|]. by exists seg. Qed.

(** The handler a request belongs to, and its segment. *)
Definition routed (m : Method) (path : string) (ep : Endpoint) (seg : option string) : Prop :=
  match ep with
  | EpStatus => m = GET /\ path = "/status"%string /\ seg = None
  | EpMetrics => m = GET /\ path = "/metrics"%string /\ seg = None
  | EpGetLimits => m = GET /\ exists s, is_segment s = true /\ path = ("/limits/" +:+ s)%string /\ seg = Some (url_decode s)
  | EpGetCounters => m = GET /\ exists s, is_segment s = true /\ path = ("/counters/" +:+ s)%string /\ seg = Some (url_decode s)
  | EpCheckAndReport => m = POST /\ path = "/check_and_report"%string /\ seg = None
  | EpCheck => m = POST /\ path = "/check"%string /\ seg = None
  | EpReport => m = POST /\ path = "/report"%string /\ seg = None
  end.

(** Follows the table by one route. *)
Ltac next_route H path :=
  lazymatch type of H with
  | match (if String.eqb ?p path then _ else _) with Some _ => _ | None => _ end = _ =>
      destruct (String.eqb_spec p path) as [<-|_]; [case_bool_decide; by simplify_eq/=|]
  | match path_match (?p +:+ _) path with Some _ => _ | None => _ end = _ =>
      let Hm := fresh in
      destruct (path_match (p +:+ "{namespace}") path) as [v|] eqn:Hm;
      [case_bool_decide; simplify_eq/=; apply (path_segment p) in Hm as (s & Hs & -> & ->); eauto|]
  end.

(** The table finds exactly the handlers of the documented endpoints. *)
Lemma find_route_spec m path ep seg : find_route routes m path = Some (ep, seg) <-> routed m path ep seg.
Proof.
  unfold routes. cbn [find_route].
  change "/limits/{namespace}"%string with ("/limits/" +:+ "{namespace}")%string.
  change "/counters/{namespace}"%string with ("/counters/" +:+ "{namespace}")%string.
  rewrite (path_static "/status"), (path_static "/metrics"), (path_static "/check_and_report"),
    (path_static "/check"), (path_static "/report") by reflexivity.
  split.
  - intros H. repeat next_route H path. done.
  - destruct ep; simpl; intros [-> H].
    3,4: destruct H as (s & Hs & -> & ->).
    all: try (destruct H as [-> ->]).
    all: rewrite ?(path_self "/limits/"), ?(path_self "/counters/"), ?path_other by done.
    all: try done.
Qed.
End routing.

(** ** Requests that only read *)

Section reading.
Context {CE : CelEngine} {HO : HashOrder} {WI : Wire} {HS : HttpStack}.
Context {L : Type} {LO : LimiterOps L} {LR : LimiterReads L}.

(** The limiter reads without changing itself, whatever it answers. *)
Definition reads_only : Prop :=
  forall ns, read_only (l_get_limits ns) /\ read_only (l_get_counters ns).

Lemma on_service_read {E A} (m : M (Service L) E A) : read_only m -> read_only (on_service m).
Proof. apply read_only_zoom. by intros [[]]. Qed.

Lemma on_limiter_read {E A} (m : M L E A) : read_only m -> read_only (on_limiter m).
Proof. apply read_only_zoom. by intros []. Qed.

#[local] Hint Resolve on_service_read on_limiter_read : reading.

(** The endpoints that GET requests reach. *)
Lemma endpoint_reads ep seg body :
  reads_only -> ep = EpStatus \/ ep = EpMetrics \/ ep = EpGetLimits \/ ep = EpGetCounters ->
  read_only (http_endpoint ep seg body).
Proof.
  intros Hread Hep.
  assert (Hl : forall ns, read_only (HttpApi.get_limits ns)).
  { intros ns. destruct (Hread ns). unfold HttpApi.get_limits. auto 6 with reading. }
  assert (Hc : forall ns, read_only (HttpApi.get_counters ns)).
  { intros ns. destruct (Hread ns). unfold HttpApi.get_counters. auto 6 with reading. }
  destruct Hep as [->|[->|[->| ->]]], seg as [ns|]; simpl; unfold reply_of; auto 7 with reading.
Qed.

(** Reading over HTTP is safe.  A GET request, to whatever path, with whatever headers
    and body, and however the storage answers, counts nothing: the limiter, the metrics
    and the status stay as they are, and all that is left of it is the span with
    its id.  Only POST requests reach a handler that counts. *)
Theorem get_changes_nothing req (w : World (Process (L := L))) :
  reads_only -> hq_method req = GET ->
  w_state (http_call req w).2 =
    mkProcess (pr_data (w_state w)) (pr_spans (w_state w) ++ [request_span "http" (hq_headers req)]).
Proof.
  intros Hread Hget. unfold http_call. rewrite Hget. unfold bind at 1.
  change (open_span (E := Empty_set) (request_span "http" (hq_headers req)) w) with
    (Ok (E := Empty_set) tt, mkWorld (mkProcess (pr_data (w_state w)) (pr_spans (w_state w) ++ [request_span "http" (hq_headers req)]))
               (w_clock w) (w_tick w)).
  set (w1 := mkWorld _ (w_clock w) (w_tick w)). cbn beta iota.
  assert (Hroute : forall ep seg, find_route routes GET (hq_path req) = Some (ep, seg) ->
            ep = EpStatus \/ ep = EpMetrics \/ ep = EpGetLimits \/ ep = EpGetCounters).
  { unfold routes. cbn [find_route]. intros ep seg H.
    repeat (lazymatch type of H with
            | match path_match ?p ?q with Some _ => _ | None => _ end = _ =>
                destruct (path_match p q); [case_bool_decide; by simplify_eq; auto|]
            end). done. }
  destruct (find_route routes GET (hq_path req)) as [[ep seg]|]; [|done].
  by rewrite (endpoint_reads ep seg _ Hread (Hroute ep seg eq_refl) w1).
Qed.
End reading.

(** ** One limiter behind both servers *)

Section shared.
Context {CE : CelEngine} {HO : HashOrder} {WI : Wire} {HS : HttpStack} {HSp : HttpStackSpec}.
Context {St : Type} {CS : CounterStorage St} {SP : CounterStorageSpec St}.
Implicit Types (r : RateLimiter St) (t : SystemTime) (k : CounterKey).

#[local] Existing Instance blocking_ops.
#[local] Instance blocking_read_ops : LimiterReads (RateLimiter St) := blocking_reads CS.
Abbreviation Proc := (Process (L := RateLimiter St)).

(** The process around a limiter. *)
Definition process_with r (ms : list MetricCall) (status : ServerStatus) (spans : list Span) : Proc :=
  mkProcess (mkRateLimitData (mkService r ms) status) spans.

Lemma runs_open_span {E} t (p : Proc) sp :
  runs t p (open_span (E := E) sp) (Ok tt) (mkProcess (pr_data p) (pr_spans p ++ [sp])).
Proof. unfold open_span. runs_step. apply runs_put. Qed.

Lemma runs_attempt {S E F A} t (s : S) (m : M S F A) a s' :
  runs t s m (Ok a) s' -> runs t s (attempt (E := E) m) (Ok (inl a)) s'.
Proof. intros Hm w Ht Hs. destruct (Hm w Ht Hs) as [n Hn]. exists n. unfold attempt. by rewrite Hn. Qed.

Lemma on_service_run {E A} t r ms status spans (m : M (Service (RateLimiter St)) E A) o s' :
  runs t (mkService r ms) m o s' ->
  runs t (mkProcess (mkRateLimitData (mkService r ms) status) spans) (on_service m) o
    (mkProcess (mkRateLimitData s' status) spans).
Proof.
  intros Hm. apply (runs_zoom t (fun p => rd_service (pr_data p))
    (fun s p => mkProcess (mkRateLimitData s (rd_status (pr_data p))) (pr_spans p))
    (mkProcess (mkRateLimitData (mkService r ms) status) spans)), Hm.
Qed.

(** A report over HTTP. *)
Lemma http_report_run t r ms status spans headers body info cs :
  json_info body = Some info -> in_u64 (ci_delta info) ->
  request_ok r t (ci_namespace info) (info_context info) cs ->
  exists r', runs t (process_with r ms status spans)
      (http_call (mkHttpRequest POST "/report" headers body)) (Ok (Replied 200 [] BodyNull))
      (process_with r' ms status (spans ++ [request_span "http" headers])) /\
    rl_inv r' /\ st_limits (rl_storage r') = st_limits (rl_storage r) /\
    (forall k, rl_value r' t k =
       if decide (k ∈ counter_key <$> cs) then u64_add (rl_value r t k) (ci_delta info) else rl_value r t k).
Proof.
  intros Hbody Hd Hreq.
  destruct (limiter_update_run r t _ _ _ cs Hreq Hd) as (r' & Hrun & Hinv & Hl & Hv & _).
  exists r'. split_and!; [|done..]. unfold http_call. eapply runs_bind; [apply runs_open_span|]. simpl hq_method.
  simpl hq_path. rewrite (proj2 (find_route_spec POST "/report" EpReport None)) by done.
  unfold http_endpoint. simpl hq_body. rewrite Hbody. unfold reply_of.
  eapply runs_bind; [apply runs_attempt, on_service_run|apply runs_ret].
  unfold HttpApi.report. apply on_limiter_run. exact Hrun.
Qed.

(** A report over HTTP and Envoy's request with the same values after it, on one limiter. *)
Lemma report_then_request t r ms status spans headers body info srv headers' req cs :
  json_info body = Some info -> in_u64 (ci_delta info) ->
  domain req = ci_namespace info -> domain req <> ""%string -> request_context req = info_context info ->
  0 <= hits_addend req <= 4294967295 ->
  request_ok r t (ci_namespace info) (info_context info) cs ->
  let hits := Z.max 1 (hits_addend req) in
  exists p1 resp r2 ms2 spans2,
    runs t (process_with r ms status spans)
      (http_call (mkHttpRequest POST "/report" headers body)) (Ok (Replied 200 [] BodyNull)) p1 /\
    runs t p1 (grpc_call srv headers' (EnvoyShouldRateLimit req)) (Ok (RateLimitReply resp))
      (process_with r2 ms2 status spans2) /\
    (overall_code resp = CodeOk <->
       forall c, c ∈ cs -> over (u64_add (rl_value r t (counter_key c)) (ci_delta info)) hits c = false) /\
    (forall c, c ∈ cs -> rl_value r2 t (counter_key c) =
       let reported := u64_add (rl_value r t (counter_key c)) (ci_delta info) in
       if bool_decide (overall_code resp = CodeOk) then u64_add reported hits else reported).
Proof.
  intros Hbody Hd Hdom Hns Hctx Hh Hreq hits.
  destruct (http_report_run t r ms status spans headers body info cs Hbody Hd Hreq)
    as (r1 & Hrun1 & Hinv1 & Hl1 & Hv1).
  assert (Hreq1 : request_ok r1 t (domain req) (request_context req) cs).
  { destruct Hreq as (_ & Ht & Hcs & Hok). split_and!; [done|done| |done].
    unfold request_counters in *. by rewrite Hl1, Hdom, Hctx. }
  destruct (should_rate_limit_run r1 t (gs_envoy srv) req cs ms Hns Hh Hreq1)
    as (hs & name & r2 & Hrun2 & _ & _ & _ & Hv2). fold hits in Hrun2, Hv2.
  assert (Hval : forall c, c ∈ cs -> rl_value r1 t (counter_key c) = u64_add (rl_value r t (counter_key c)) (ci_delta info)).
  { intros c Hc. rewrite Hv1, decide_True; [done|]. by apply list_elem_of_fmap_2. }
  eexists _, _, r2, _, _. split_and!; [exact Hrun1| | |].
  - unfold grpc_call. eapply runs_bind; [apply runs_open_span|]. apply on_service_run. simpl.
    eapply runs_bind; [exact Hrun2|apply runs_ret].
  - simpl. transitivity (over_some r1 t hits cs = false); [by destruct (over_some r1 t hits cs)|].
    rewrite over_some_false. split; intros Hall c Hc; specialize (Hall c Hc); by rewrite (Hval c Hc) in *.
  - intros c Hc. rewrite Hv2, (bool_decide_eq_true_2 (_ ∈ _)) by (by apply list_elem_of_fmap_2).
    rewrite (Hval c Hc). cbn zeta. by destruct (over_some r1 t hits cs).
Qed.
End shared.

(** ** Examples *)

#[local] Existing Instance demo_engine.
#[local] Existing Instance demo_hash_order.
#[local] Existing Instance gmap_moka.
#[local] Existing Instance gmap_moka_laws.
#[local] Existing Instance gmap_moka_roomy.
#[local] Existing Instance demo_wire.

(** A pattern read from the left; texts are their own decoding. *)
Fixpoint match_pattern (pat path : string) : option (option string) :=
  if String.eqb pat "{namespace}" then (if is_segment path then Some (Some path) else None)
  else
    match pat, path with
    | EmptyString, EmptyString => Some None
    | String a pat, String b path => if Ascii.eqb a b then match_pattern pat path else None
    | _, _ => None
    end.

Definition demo_http : HttpStack := {|
  HeaderValue := string; HeaderMap := gmap string string;
  header_get m k := m !! k; header_keys m := (map_to_list m).*1; header_to_str := Some;
  SocketAddr := string; parse_addr := Some; can_bind _ := true;
  path_match := match_pattern;
  Body := option CheckAndReportInfo; json_info b := b;
  render _ := ""%string
|}.

Lemma no_brace_head a p : no_brace (String a p) = true -> Ascii.eqb a "{"%char = false /\ no_brace p = true.
Proof. simpl. intros [H1%negb_true_iff H2]%andb_true_iff. done. Qed.

Lemma match_static p q :
  no_brace p = true -> match_pattern p q = if String.eqb p q then Some None else None.
Proof.
  revert q. induction p as [|a p IH]; intros q Hp; [by destruct q|]. apply no_brace_head in Hp as [Ha Hp].
  assert (Hne : String.eqb (String a p) "{namespace}" = false) by (simpl; by rewrite Ha).
  cbn [match_pattern]. rewrite Hne. destruct q as [|b q]; [done|]. simpl.
  destruct (Ascii.eqb a b); [by apply IH|done].
Qed.

Lemma match_segment p q v :
  no_brace p = true -> match_pattern (p +:+ "{namespace}") q = Some v <->
  exists seg, is_segment seg = true /\ q = p +:+ seg /\ v = Some seg.
Proof.
  revert q. induction p as [|a p IH]; intros q Hp.
  - change (match_pattern ("" +:+ "{namespace}") q) with (if is_segment q then Some (Some q) else None).
    destruct (is_segment q) eqn:Hq; split.
    + intros [= <-]. by exists q.
    + by intros (seg & _ & -> & ->).
    + done.
    + intros (seg & Hs & -> & _). change ("" +:+ seg) with seg in Hq. congruence.
  - apply no_brace_head in Hp as [Ha Hp].
    assert (Hne : String.eqb (String a p +:+ "{namespace}") "{namespace}" = false) by (simpl; by rewrite Ha).
    change (String a p +:+ "{namespace}") with (String a (p +:+ "{namespace}")) in *.
    cbn [match_pattern]. rewrite Hne. destruct q as [|b q]; [split; [done|by intros (? & _ & [=] & _)]|].
    destruct (Ascii.eqb_spec a b) as [<-|Hab].
    + rewrite (IH q Hp). split; intros (seg & Hs & Hq & ->); exists seg; split_and!; try done.
      * by rewrite Hq.
      * by injection Hq.
    + split; [done|]. intros (seg & _ & [= ->] & _). done.
Qed.

#[local] Existing Instance demo_http.

#[local] Instance demo_http_spec : HttpStackSpec.
Proof. refine {| url_decode s := s |}; [apply match_static|apply match_segment]. Defined.

Lemma in_memory_reads_only : reads_only (LR := blocking_reads in_memory_counter_storage).
Proof.
  assert (Hcs : forall limits, read_only (InMemory.get_counters limits)).
  { intros limits. apply read_only_preserves. intros s.
    unfold InMemory.get_counters, counters_in_namespace, collect_counter, value, ttl, expiry_ttl, heap_get. preserve. }
  intros ns. split; simpl.
  - apply read_only_zoom; [by intros []|]. unfold Storage.get_limits, get_storage_limits. auto 6 with reading.
  - apply read_only_map_err, read_only_zoom; [by intros []|]. unfold Storage.get_counters, get_storage_limits.
    apply read_only_bind; [auto with reading|]. intros limits. destruct (limits !! ns); [|auto with reading].
    apply read_only_zoom; [by intros []|apply Hcs].
Qed.

Definition demo_process : Process (L := RateLimiter InMemoryStorage) :=
  mkProcess (mkRateLimitData (mkService rls_limiter []) (mkServerStatus demo_time demo_time 0 0)) [].

Definition demo_get : HttpRequest := mkHttpRequest GET "/counters/ns" {["X-Request-Id" := "7"]}%string None.

Lemma get_changes_nothing_witness : exists (w : World (Process (L := RateLimiter InMemoryStorage))),
  (http_call (LO := blocking_limiter in_memory_counter_storage) (LR := blocking_reads in_memory_counter_storage) demo_get w).1
    = Ok (Replied 200 [] (BodyCounters [])) /\
  w_state (http_call (LO := blocking_limiter in_memory_counter_storage) (LR := blocking_reads in_memory_counter_storage) demo_get w).2
    = mkProcess (pr_data demo_process) [mkSpan "http" (Some "7"%string)].
Proof.
  exists (mkWorld demo_process (fun _ => demo_time) 0%nat). split; [vm_refl|].
  rewrite (get_changes_nothing (LO := blocking_limiter in_memory_counter_storage)
             (LR := blocking_reads in_memory_counter_storage) demo_get _ in_memory_reads_only eq_refl).
  reflexivity.
Defined.

(** Eight hits reported over HTTP leave no room for three over gRPC. *)
Definition demo_report : CheckAndReportInfo := mkInfo "ns" {["user" := "bob"]}%string 8 None.

Definition demo_body : Body (HttpStack := demo_http) := Some demo_report.

Definition demo_headers : HeaderMap (HttpStack := demo_http) := (∅ : gmap string string).

Definition demo_grpc : GrpcServer := mkGrpcServer "0.0.0.0:8081"%string rls_config rls_config None.
