(* ===== verification/Wiring.v ===== *)
(** * Who is given which limiter: [main.rs] and the two [run_*_server]

    The limiter, the metrics and the status live behind [Arc]s that [main] makes once,
    clones and hands to the watcher of the limits file and to the servers; the gRPC
    server clones them again for its two services.  Here an [Arc] is a location in a
    heap: [Arc::new] allocates one, [Arc::clone] copies it, and a request runs on what
    lies behind the [Arc]s of the service it is for. *)

From S2P Require Import Prelude AtomicExpiringValue Cel Errors Limit Counter Reservation.
From S2P Require Import Storage Moka LocalReservations StorageSpec InMemory InMemoryInv.
From S2P Require Import InMemorySpec AsyncStorage AsyncRateLimiter RateLimiter RateLimiterSpec.
From S2P Require Import EnvoyRls EnvoyRlsSpec HttpApi Endpoints EndpointsSpec.

(** [Arc::new] and [Arc::clone] *)
Definition arc_new {A} (x : A) (heap : list A) : nat * list A := (length heap, heap ++ [x]).
Definition arc_clone (a : nat) : nat := a.

(** The fields of [MyRateLimiter] and of [KuadrantService] that are [Arc]s. *)
Record ServiceArcs : Type := mkArcs {
  sa_limiter : nat;
  sa_metrics : nat
}.

(** [RateLimitData] *)
Record HttpArcs : Type := mkHttpArcs {
  ha_service : ServiceArcs;
  ha_status : nat
}.

Definition my_rate_limiter_arcs (limiter metrics : nat) : ServiceArcs := mkArcs limiter metrics.
Definition kuadrant_arcs (limiter metrics : nat) : ServiceArcs := mkArcs limiter metrics.
Definition rate_limit_data_new (limiter metrics status : nat) : HttpArcs := mkHttpArcs (mkArcs limiter metrics) status.

(** The [Arc]s [run_envoy_rls_server] gives its two services. *)
Definition envoy_server_arcs (limiter metrics : nat) : ServiceArcs * ServiceArcs :=
  let rate_limiter := my_rate_limiter_arcs (arc_clone limiter) (arc_clone metrics) in
  let kuadrant_svc := kuadrant_arcs limiter metrics in
  (rate_limiter, kuadrant_svc).

Definition http_server_arcs (limiter metrics status : nat) : HttpArcs := rate_limit_data_new limiter metrics status.

(** Everyone [main] gives [Arc]s to: the watcher that loads the limits again and counts
    that in the status, and the servers. *)
Record Wiring : Type := mkWiring {
  wr_watcher_limiter : nat;
  wr_watcher_status : nat;
  wr_envoy : ServiceArcs;
  wr_kuadrant : ServiceArcs;
  wr_http : HttpArcs
}.

Section wiring.
Context {CE : CelEngine} {HO : HashOrder} {WI : Wire} {HS : HttpStack}.
Context {L : Type} {LO : LimiterOps L} {LR : LimiterReads L}.
Implicit Types (t : SystemTime).

(** What lies behind the [Arc]s; the spans are the process's. *)
Record Heap : Type := mkHeap {
  h_limiters : list L;
  h_metrics : list (list MetricCall);
  h_statuses : list ServerStatus;
  h_spans : list Span
}.

(** The part of [main] that makes and hands out the [Arc]s, in its order: [limiter] is
    what [Limiter::new] returned, with the limits loaded. *)
Definition main_wiring (limiter : L) (status : ServerStatus) : Wiring * Heap :=
  let '(prometheus_metrics, metrics) := arc_new [] [] in
  let '(rate_limiter, limiters) := arc_new limiter [] in
  let watcher := arc_clone rate_limiter in
  let '(status, statuses) := arc_new status [] in
  let status_updater := arc_clone status in
  let '(envoy, kuadrant) := envoy_server_arcs (arc_clone rate_limiter) (arc_clone prometheus_metrics) in
  let http := http_server_arcs (arc_clone rate_limiter) prometheus_metrics status in
  (mkWiring watcher status_updater envoy kuadrant http, mkHeap limiters metrics statuses []).

(** Runs a request on what lies behind the [Arc]s of its service. *)
Definition behind {E A} (arcs : HttpArcs) (m : M (Process (L := L)) E A) : M Heap E A := fun w =>
  let h := w_state w in
  let limiter := sa_limiter (ha_service arcs) in
  let metrics := sa_metrics (ha_service arcs) in
  match h_limiters h !! limiter, h_metrics h !! metrics, h_statuses h !! ha_status arcs with
  | Some l, Some ms, Some st =>
      let '(o, w') := m (mkWorld (mkProcess (mkRateLimitData (mkService l ms) st) (h_spans h)) (w_clock w) (w_tick w)) in
      let p := w_state w' in
      (o, mkWorld (mkHeap (<[limiter := svc_limiter (rd_service (pr_data p))]> (h_limiters h))
                     (<[metrics := svc_metrics (rd_service (pr_data p))]> (h_metrics h))
                     (<[ha_status arcs := rd_status (pr_data p)]> (h_statuses h)) (pr_spans p))
            (w_clock w') (w_tick w'))
  | _, _, _ => (Panic "dangling Arc", w)
  end.

(** The service a request of gRPC is for.  It has no [Arc] of the status, which its
    handlers do not touch: the HTTP server's stands in for it. *)
Definition grpc_arcs (wr : Wiring) (req : GrpcRequest) : HttpArcs :=
  mkHttpArcs (match req with EnvoyShouldRateLimit _ => wr_envoy wr | _ => wr_kuadrant wr end) (ha_status (wr_http wr)).

Definition grpc_server_call (wr : Wiring) (srv : GrpcServer) (headers : HeaderMap) (req : GrpcRequest) : M Heap Status GrpcReply :=
  behind (grpc_arcs wr req) (grpc_call srv headers req).

Definition http_server_call (wr : Wiring) (req : HttpRequest) : M Heap Empty_set HttpReply :=
  behind (wr_http wr) (http_call req).

(** What the watcher's task does to the limiter it was given. *)
Definition watcher_call {E A} (wr : Wiring) (m : M L E A) : M Heap E A :=
  behind (mkHttpArcs (mkArcs (wr_watcher_limiter wr) (sa_metrics (ha_service (wr_http wr)))) (wr_watcher_status wr))
    (on_service (on_limiter m)).

(** ** One of each *)

(** The heap of a process with one limiter, one set of metrics and one status. *)
Definition heap_of (p : Process (L := L)) : Heap :=
  mkHeap [svc_limiter (rd_service (pr_data p))] [svc_metrics (rd_service (pr_data p))] [rd_status (pr_data p)] (pr_spans p).

Lemma heap_of_start limiter status :
  (main_wiring limiter status).2 = heap_of (mkProcess (mkRateLimitData (mkService limiter []) status) []).
Proof. done. Qed.

Lemma behind_run {E A} t p (m : M (Process (L := L)) E A) o p' :
  runs t p m o p' -> runs t (heap_of p) (behind (mkHttpArcs (mkArcs 0 0) 0) m) o (heap_of p').
Proof.
  intros Hm w Hw Hs. destruct (Hm (mkWorld p (w_clock w) (w_tick w))) as [n Hn]; [done|done|]. exists n.
  unfold behind. rewrite Hs. destruct p as [[[l ms] st] sp]. simpl. simpl in Hn. by rewrite Hn.
Qed.

Section wired.
Context (limiter : L) (status : ServerStatus).
Abbreviation wr := (main_wiring limiter status).1.

Lemma grpc_server_run t srv headers req p o p' :
  runs t p (grpc_call srv headers req) o p' -> runs t (heap_of p) (grpc_server_call wr srv headers req) o (heap_of p').
Proof. intros Hr. unfold grpc_server_call, grpc_arcs. destruct req; by apply behind_run. Qed.

Lemma http_server_run t req p o p' :
  runs t p (http_call req) o p' -> runs t (heap_of p) (http_server_call wr req) o (heap_of p').
Proof. apply behind_run. Qed.

Lemma watcher_run {E A} t (m : M L E A) p o l' :
  runs t (svc_limiter (rd_service (pr_data p))) m o l' ->
  runs t (heap_of p) (watcher_call wr m) o
    (heap_of (mkProcess (mkRateLimitData (mkService l' (svc_metrics (rd_service (pr_data p)))) (rd_status (pr_data p))) (pr_spans p))).
Proof.
  intros Hm. unfold watcher_call. apply (behind_run (E := E)). destruct p as [[[l ms] st] sp].
  apply (runs_zoom t (fun p => rd_service (pr_data p))
    (fun s p => mkProcess (mkRateLimitData s (rd_status (pr_data p))) (pr_spans p))
    (mkProcess (mkRateLimitData (mkService l ms) st) sp)).
  apply (runs_zoom t svc_limiter (fun l s => mkService l (svc_metrics s)) (mkService l ms)), Hm.
Qed.
End wired.
End wiring.

(** ** Both servers count on the watcher's limiter *)

Section shared.
Context {CE : CelEngine} {HO : HashOrder} {WI : Wire} {HS : HttpStack} {HSp : HttpStackSpec}.
Context {St : Type} {CS : CounterStorage St} {SP : CounterStorageSpec St}.
Implicit Types (r : RateLimiter St) (t : SystemTime).

#[local] Existing Instance blocking_ops.
#[local] Existing Instance blocking_read_ops.

(** C19: the servers share one limiter.  With the [Arc]s as [main] and the servers hand
    them out, over any storage that keeps its contract, what was reported over HTTP is
    seen by the gRPC server at once: Envoy's request with the same values, in the same
    namespace, is let through exactly when its hits fit on top of what was reported,
    on every counter it touches, and both amounts are on the counters of the limiter the
    watcher loads the limits into. *)
Theorem servers_share_limiter t r0 status0 r ms status spans headers body info srv headers' req cs :
  json_info body = Some info -> in_u64 (ci_delta info) ->
  domain req = ci_namespace info -> domain req <> ""%string -> request_context req = info_context info ->
  0 <= hits_addend req <= 4294967295 ->
  request_ok r t (ci_namespace info) (info_context info) cs ->
  let hits := Z.max 1 (hits_addend req) in
  let wr := (main_wiring r0 status0).1 in
  exists h1 resp h2 r2,
    runs t (heap_of (process_with r ms status spans))
      (http_server_call wr (mkHttpRequest POST "/report" headers body)) (Ok (Replied 200 [] BodyNull)) h1 /\
    runs t h1 (grpc_server_call wr srv headers' (EnvoyShouldRateLimit req)) (Ok (RateLimitReply resp)) h2 /\
    h_limiters h2 !! wr_watcher_limiter wr = Some r2 /\
    (overall_code resp = CodeOk <->
       forall c, c ∈ cs -> over (u64_add (rl_value r t (counter_key c)) (ci_delta info)) hits c = false) /\
    (forall c, c ∈ cs -> rl_value r2 t (counter_key c) =
       let reported := u64_add (rl_value r t (counter_key c)) (ci_delta info) in
       if bool_decide (overall_code resp = CodeOk) then u64_add reported hits else reported).
Proof.
  intros Hbody Hd Hdom Hns Hctx Hh Hreq hits wr.
  destruct (report_then_request t r ms status spans headers body info srv headers' req cs Hbody Hd Hdom Hns Hctx Hh Hreq)
    as (p1 & resp & r2 & ms2 & spans2 & R1 & R2 & Hok & Hv).
  exists (heap_of p1), resp, (heap_of (process_with r2 ms2 status spans2)), r2.
  split_and!; [by apply http_server_run|by apply grpc_server_run|done|exact Hok|exact Hv].
Qed.
End shared.

(** ** Examples *)

#[local] Existing Instance demo_engine.
#[local] Existing Instance demo_hash_order.
#[local] Existing Instance gmap_moka.
#[local] Existing Instance gmap_moka_laws.
#[local] Existing Instance gmap_moka_roomy.
#[local] Existing Instance demo_wire.
#[local] Existing Instance demo_http.

Lemma servers_share_limiter_witness : exists h1 resp h2,
  let wr := (main_wiring rls_limiter (mkServerStatus demo_time demo_time 0 0)).1 in
  runs demo_time (heap_of demo_process)
    (http_server_call (LO := blocking_limiter in_memory_counter_storage) (LR := blocking_reads in_memory_counter_storage)
       wr (mkHttpRequest POST "/report" demo_headers demo_body)) (Ok (Replied 200 [] BodyNull)) h1 /\
  runs demo_time h1
    (grpc_server_call (LO := blocking_limiter in_memory_counter_storage) wr demo_grpc demo_headers
       (EnvoyShouldRateLimit (rls_request 3))) (Ok (RateLimitReply resp)) h2 /\
  overall_code resp <> CodeOk.
Proof.
  destruct (servers_share_limiter (HSp := demo_http_spec) demo_time rls_limiter (mkServerStatus demo_time demo_time 0 0)
              rls_limiter [] (mkServerStatus demo_time demo_time 0 0) []
              demo_headers demo_body demo_report demo_grpc demo_headers (rls_request 3) [rls_counter])
    as (h1 & resp & h2 & r2 & H1 & H2 & _ & Hok & _).
  - reflexivity.
  - vm_compute. split; discriminate.
  - reflexivity.
  - done.
  - vm_refl.
  - vm_compute. split; discriminate.
  - exact (rls_request_ok 3).
  - exists h1, resp, h2. split_and!; [exact H1|exact H2|]. intros Hc.
    pose proof (proj1 Hok Hc rls_counter ltac:(by left)) as Hf. vm_compute in Hf. discriminate.
Defined.
