(* ===== verification/Metrics.v ===== *)
(** * Latencies measured along tracing spans: [limitador-server/src/metrics.rs]

    [MetricsLayer] is told by [tracing] when a span is created, entered, left and
    closed.  A span whose name is the name of a group is an aggregator of the group:
    when it closes, the group's consumer is called with the time spent in the spans
    below it that the group records.  [Registry] is what [tracing] keeps of the open
    spans, with the two extensions the layer attaches to them; the calls of the
    consumers are a log.  The theorems are about traces, in which every callback runs
    at one instant and a span's children do not overlap. *)

From S2P Require Import Prelude Storage.

(** ** Timings *)

Record Timings : Type := mkTimings {
  ti_idle : Z;
  ti_busy : Z;
  ti_last : Z;
  ti_updated : bool
}.

Definition timings_new {St E} : M St E Timings := let* t := now in ret (mkTimings 0 0 t false).

Definition timings_add (self rhs : Timings) : Timings :=
  mkTimings (u64_add (ti_idle self) (ti_idle rhs)) (u64_add (ti_busy self) (ti_busy rhs))
    (Z.max (ti_last self) (ti_last rhs)) (ti_updated self || ti_updated rhs).

(** [From<Timings> for Duration] *)
Definition timings_duration (timings : Timings) : Duration := u64_add (ti_idle timings) (ti_busy timings).

(** [(now - last).as_nanos() as u64]: the difference of instants is never negative. *)
Definition elapsed (now last : Z) : Z := Z.max (now - last) 0 mod 18446744073709551616.

Definition add_idle (timings : Timings) (now : Z) : Z := u64_add (ti_idle timings) (elapsed now (ti_last timings)).

(** ** Groups *)

(** [SpanState]: the times of the groups a span belongs to. *)
Abbreviation SpanState := (gmap string Timings) (only parsing).

Definition span_state_new {St E} (group : string) : M St E SpanState :=
  let* t := timings_new in ret {[group := t]}.

Definition increment (self : SpanState) (group : string) (timings : Timings) : SpanState :=
  <[group := match self !! group with Some x => timings_add x timings | None => timings end]> self.

(** A consumer is known by its name. *)
Record MetricsGroup : Type := mkGroup {
  consumer : string;
  records : list string
}.

Abbreviation MetricsLayer := (gmap string MetricsGroup) (only parsing).

Definition gather (self : MetricsLayer) (aggregate consumer : string) (records : list string) : MetricsLayer :=
  match self !! aggregate with
  | Some _ => self
  | None => <[aggregate := mkGroup consumer records]> self
  end.

(** The layer the server installs. *)
Definition metrics_layer : MetricsLayer :=
  gather (gather ∅ "should_rate_limit" "record_datastore_latency" ["datastore"%string])
    "flush_batcher_and_update_counters" "record_datastore_latency" ["datastore"%string].

(** ** Open spans *)

Record Span : Type := mkSpan {
  sp_name : string;
  sp_parent : option nat;
  sp_state : option SpanState;
  sp_timings : option Timings
}.

Record Registry : Type := mkRegistry {
  spans : gmap nat Span;
  reported : list (string * Timings)
}.

Definition with_state (sp : Span) (st : option SpanState) : Span :=
  mkSpan (sp_name sp) (sp_parent sp) st (sp_timings sp).

Definition with_timings (sp : Span) (t : option Timings) : Span :=
  mkSpan (sp_name sp) (sp_parent sp) (sp_state sp) t.

Section layer.
Context {HO : HashOrder} {E : Type}.
Implicit Types (id : nat) (name group : string).

Definition put_span id (sp : Span) : M Registry E unit :=
  let* r := get in put (mkRegistry (<[id := sp]> (spans r)) (reported r)).

(** [ctx.span(id)] *)
Definition get_span id : M Registry E (option Span) := let* r := get in ret (spans r !! id).

(** [ctx.span(id).expect(..)] *)
Definition expect_span id : M Registry E Span :=
  let* sp := get_span id in
  match sp with Some sp => ret sp | None => lift (Panic "Span not found, this is a bug") end.

(** The state attached to a span's parent. *)
Definition parent_state (sp : Span) : M Registry E (option SpanState) :=
  match sp_parent sp with
  | None => ret None
  | Some p => let* sp := get_span p in ret (sp ≫= sp_state)
  end.

(** [for group in span_state.group_times.keys()]: is the span a record of one of them? *)
Fixpoint is_record (self : MetricsLayer) name (groups : list string) : Outcome E bool :=
  match groups with
  | [] => Ok false
  | group :: groups =>
      match self !! group with
      | None => Panic "Span state contains group times for an unconfigured group"
      | Some g => if bool_decide (name ∈ records g) then Ok true else is_record self name groups
      end
  end.

Definition on_new_span (self : MetricsLayer) id : M Registry E unit :=
  let* span := expect_span id in
  let name := sp_name span in
  let* inherited := parent_state span in
  let span := match inherited with Some st => with_state span (Some st) | None => span end in
  let* span :=
    match self !! name with
    | None => ret span
    | Some _ =>
        match sp_state span with
        | Some st =>
            match st !! name with
            | Some _ => ret span
            | None => let* t := timings_new in ret (with_state span (Some (<[name := t]> st)))
            end
        | None => let* st := span_state_new name in ret (with_state span (Some st))
        end
    end in
  put_span id span ;;;
  match sp_state span with
  | None => ret tt
  | Some st =>
      let* recorded := lift (is_record self name (hash_iter st).*1) in
      if recorded : bool then let* t := timings_new in put_span id (with_timings span (Some t)) else ret tt
  end.

Definition on_enter id : M Registry E unit :=
  let* span := get_span id in
  match span with
  | None => ret tt
  | Some span =>
      match sp_timings span with
      | None => ret tt
      | Some t => let* n := now in
                  put_span id (with_timings span (Some (mkTimings (add_idle t n) (ti_busy t) n true)))
      end
  end.

Definition on_exit id : M Registry E unit :=
  let* span := get_span id in
  match span with
  | None => ret tt
  | Some span =>
      match sp_timings span with
      | None => ret tt
      | Some t => let* n := now in
                  put_span id (with_timings span
                    (Some (mkTimings (ti_idle t) (u64_add (ti_busy t) (elapsed n (ti_last t))) n true)))
      end
  end.

(** The loop over the groups of a span that closes. *)
Fixpoint increment_groups (self : MetricsLayer) name (timing : Timings) (groups : list string) (st : SpanState)
    : Outcome E SpanState :=
  match groups with
  | [] => Ok st
  | group :: groups =>
      match self !! group with
      | None => Panic "called `Option::unwrap()` on a `None` value"
      | Some g => increment_groups self name timing groups
                    (if bool_decide (name ∈ records g) then increment st group timing else st)
      end
  end.

Definition on_close (self : MetricsLayer) id : M Registry E unit :=
  let* span := expect_span id in
  let name := sp_name span in
  let* timing := match sp_timings span with
                 | None => ret None
                 | Some t => let* n := now in
                             ret (Some (mkTimings (add_idle t n) (ti_busy t) (ti_last t) (ti_updated t)))
                 end in
  put_span id (with_timings span timing) ;;;
  match sp_state span with
  | None => ret tt
  | Some st =>
      let* st := match timing with
                 | None => ret st
                 | Some timing => lift (increment_groups self name timing (hash_iter st).*1 st)
                 end in
      put_span id (with_state (with_timings span timing) (Some st)) ;;;
      match sp_parent span with
      | None => ret tt
      | Some p => let* parent := get_span p in
                  match parent with Some parent => put_span p (with_state parent (Some st)) | None => ret tt end
      end ;;;
      match self !! name, st !! name with
      | Some g, Some t =>
          if ti_updated t then
            let* r := get in put (mkRegistry (spans r) (reported r ++ [(consumer g, t)]))
          else ret tt
      | _, _ => ret tt
      end
  end.

(** ** Traces *)

(** What [tracing] tells the layer; it adds a span before the layer hears of it and
    removes it afterwards. *)
Inductive Event : Type :=
| NewSpan id (parent : option nat) name
| EnterSpan id
| ExitSpan id
| CloseSpan id.

Definition handle (self : MetricsLayer) (ev : Event) : M Registry E unit :=
  match ev with
  | NewSpan id parent name => put_span id (mkSpan name parent None None) ;;; on_new_span self id
  | EnterSpan id => on_enter id
  | ExitSpan id => on_exit id
  | CloseSpan id =>
      on_close self id ;;; let* r := get in put (mkRegistry (delete id (spans r)) (reported r))
  end.

(** Every event at the instant it happens. *)
Fixpoint play (self : MetricsLayer) (evs : list (Z * Event)) (r : Registry) : Outcome E Registry :=
  match evs with
  | [] => Ok r
  | (t, ev) :: evs =>
      match handle self ev (mkWorld r (fun _ => t) 0) with
      | (Ok _, w) => play self evs (w_state w)
      | (Err e, _) => Err e
      | (Panic msg, _) => Panic msg
      end
  end.
End layer.
