(* ===== verification/MetricsSpec.v ===== *)
(** * What the metrics layer reports

    The life of a span as a tree: when it was opened and closed, when it was entered
    and left, and its children, one after the other.  The main theorem: an aggregator
    reports exactly the sum of the lifetimes of the spans its group records, however
    often they were entered and however deep they are, on top of what its parent carries
    from earlier aggregators of the group, and reports nothing if none of them ran.  The
    examples show what the layer does beyond that: a second aggregator under one parent
    reports the time of the first again, and children that overlap lose time. *)

From S2P Require Import Prelude Storage Metrics.

(** ** Lives of spans *)

Inductive Life : Type :=
| mkLife (id : nat) (name : string) (opened : Z) (body : Body) (closed : Z)
with Body : Type :=
| Done
| Entered (t : Z) (b : Body)
| Exited (t : Z) (b : Body)
| Child (c : Life) (b : Body).

Scheme life_mut := Induction for Life Sort Prop
  with body_mut := Induction for Body Sort Prop.

Definition life_id (l : Life) : nat := let '(mkLife id _ _ _ _) := l in id.
Definition opened (l : Life) : Z := let '(mkLife _ _ t _ _) := l in t.
Definition closed (l : Life) : Z := let '(mkLife _ _ _ _ t) := l in t.

(** The events of a life. *)
Fixpoint life_events (parent : option nat) (l : Life) : list (Z * Event) :=
  let '(mkLife id name t0 body t1) := l in
  (t0, NewSpan id parent name) :: body_events id body ++ [(t1, CloseSpan id)]
with body_events (id : nat) (b : Body) : list (Z * Event) :=
  match b with
  | Done => []
  | Entered t b => (t, EnterSpan id) :: body_events id b
  | Exited t b => (t, ExitSpan id) :: body_events id b
  | Child c b => life_events (Some id) c ++ body_events id b
  end.

(** The spans of a life: their ids and names. *)
Fixpoint life_spans (l : Life) : list (nat * string) :=
  let '(mkLife id name _ body _) := l in (id, name) :: body_spans body
with body_spans (b : Body) : list (nat * string) :=
  match b with
  | Done => []
  | Entered _ b | Exited _ b => body_spans b
  | Child c b => life_spans c ++ body_spans b
  end.

(** Time does not go backwards, and fits a [u64] of nanoseconds. *)
Fixpoint life_timed (l : Life) : Prop :=
  let '(mkLife _ _ t0 body t1) := l in 0 <= t0 /\ t1 <= u64_max /\ body_timed t0 body t1
with body_timed (lo : Z) (b : Body) (hi : Z) : Prop :=
  match b with
  | Done => lo <= hi
  | Entered t b | Exited t b => lo <= t /\ body_timed t b hi
  | Child c b => lo <= opened c /\ life_timed c /\ body_timed (closed c) b hi
  end.

(** ** What a group should report *)

Section total.
Variable recs : list string.

(** The lifetimes of the recorded spans. *)
Fixpoint life_time (l : Life) : Z :=
  let '(mkLife _ name t0 body t1) := l in
  (if bool_decide (name ∈ recs) then t1 - t0 else 0) + body_time body
with body_time (b : Body) : Z :=
  match b with
  | Done => 0
  | Entered _ b | Exited _ b => body_time b
  | Child c b => life_time c + body_time b
  end.

(** Was the span itself entered or left? *)
Fixpoint was_entered (b : Body) : bool :=
  match b with
  | Done => false
  | Entered _ _ | Exited _ _ => true
  | Child _ b => was_entered b
  end.

(** Did a recorded span run? *)
Fixpoint life_ran (l : Life) : bool :=
  let '(mkLife _ name _ body _) := l in
  (bool_decide (name ∈ recs) && was_entered body) || body_ran body
with body_ran (b : Body) : bool :=
  match b with
  | Done => false
  | Entered _ b | Exited _ b => body_ran b
  | Child c b => life_ran c || body_ran b
  end.
End total.

(** The time in [x] when nothing wrapped. *)
Definition total (x : Timings) : Z := ti_idle x + ti_busy x.

Definition timings_wf (x : Timings) : Prop := 0 <= ti_idle x /\ 0 <= ti_busy x /\ total x <= u64_max.

(** Every group of a span's state is one of the layer's. *)
Definition configured (self : gmap string MetricsGroup) (st : gmap string Timings) : Prop :=
  forall g, is_Some (st !! g) -> is_Some (self !! g).

(** From [st] to [st'], group [g] gained the time [d], and whether something ran. *)
Definition gained (self : gmap string MetricsGroup) (g : string) (st st' : gmap string Timings) (d : Z) (ran : bool) : Prop :=
  configured self st' /\ (is_Some (st !! g) -> is_Some (st' !! g)) /\
  forall x, st !! g = Some x -> timings_wf x -> total x + d <= u64_max ->
    exists x', st' !! g = Some x' /\ timings_wf x' /\ total x' = total x + d /\ ti_updated x' = ti_updated x || ran.

Lemma elapsed_small n l : 0 <= l <= n -> n <= u64_max -> elapsed n l = n - l.
Proof. unfold elapsed, u64_max. intros. rewrite Z.max_l by lia. apply Z.mod_small. lia. Qed.

Lemma gained_refl self g st : configured self st -> gained self g st st 0 false.
Proof. intros Hc. split_and!; [done|done|]. intros x Hx Hw _. exists x. rewrite orb_false_r, Z.add_0_r. done. Qed.

Lemma gained_trans self g st st1 st2 d1 d2 b1 b2 :
  0 <= d1 -> 0 <= d2 -> gained self g st st1 d1 b1 -> gained self g st1 st2 d2 b2 ->
  gained self g st st2 (d1 + d2) (b1 || b2).
Proof.
  intros Hd1 Hd2 (_ & Hs1 & H1) (Hc & Hs2 & H2). split_and!; [done|auto|]. intros x Hx Hw Hle.
  destruct (H1 x Hx Hw) as (x1 & Hx1 & Hw1 & Ht1 & Hu1); [lia|].
  destruct (H2 x1 Hx1 Hw1) as (x2 & Hx2 & Hw2 & Ht2 & Hu2); [lia|].
  exists x2. split_and!; [done|done|lia|]. by rewrite Hu2, Hu1, orb_assoc.
Qed.

(** ** One callback at a time *)

Section callbacks.
Context {HO : HashOrder} {E : Type} (self : gmap string MetricsGroup).
Implicit Types (r : Registry) (st : gmap string Timings).

Lemma play_step t ev evs r r' :
  runs t r (handle (E := E) self ev) (Ok tt) r' -> play (E := E) self ((t, ev) :: evs) r = play self evs r'.
Proof. intros H. destruct (H (mkWorld r (fun _ => t) 0)) as [n Hn]; [done|done|]. simpl. by rewrite Hn. Qed.

Lemma play_app evs evs' r r' : play (E := E) self evs r = Ok r' -> play (E := E) self (evs ++ evs') r = play self evs' r'.
Proof.
  revert r. induction evs as [|[t ev] evs IH]; intros r; simpl; [by intros [= ->]|].
  destruct (handle self ev (mkWorld r (fun _ => t) 0)) as [[]?]; try done. apply IH.
Qed.

Lemma put_span_run t r id sp :
  runs t r (put_span (E := E) id sp) (Ok tt) (mkRegistry (<[id := sp]> (spans r)) (reported r)).
Proof. unfold put_span. runs_step. apply runs_put. Qed.

Lemma get_span_run t r id : runs t r (get_span (E := E) id) (Ok (spans r !! id)) r.
Proof. unfold get_span. runs_step. apply runs_ret. Qed.

Lemma expect_span_run t r id sp : spans r !! id = Some sp -> runs t r (expect_span (E := E) id) (Ok sp) r.
Proof. intros H. unfold expect_span. eapply runs_bind; [apply get_span_run|]. rewrite H. apply runs_ret. Qed.

(** What the group [g] records. *)
Definition recorded (g name : string) : bool :=
  match self !! g with Some m => bool_decide (name ∈ records m) | None => false end.

Lemma is_record_run name (groups : list string) :
  (forall g, g ∈ groups -> is_Some (self !! g)) ->
  is_record (E := E) self name groups = Ok (existsb (fun g => recorded g name) groups).
Proof.
  induction groups as [|g groups IH]; intros Hg; simpl; [done|].
  destruct (Hg g) as [m Hm]; [by left|]. unfold recorded at 1. rewrite Hm. case_bool_decide; [done|].
  apply IH. intros g' Hg'. apply Hg. by right.
Qed.

Lemma increment_groups_run name timing (groups : list string) st :
  NoDup groups -> (forall g, g ∈ groups -> is_Some (self !! g)) ->
  exists st', increment_groups (E := E) self name timing groups st = Ok st' /\
    forall g, st' !! g = if bool_decide (g ∈ groups) && recorded g name
                         then Some (match st !! g with Some x => timings_add x timing | None => timing end)
                         else st !! g.
Proof.
  revert st. induction groups as [|g groups IH]; intros st Hnd Hg; [by exists st|].
  apply NoDup_cons in Hnd as [Hn Hnd]. destruct (Hg g) as [m Hm]; [by left|].
  destruct (IH (if recorded g name then increment st g timing else st) Hnd) as (st' & R & Hst').
  { intros g' Hg'. apply Hg. by right. }
  exists st'. split; [simpl; unfold recorded in R; rewrite Hm in R |- *; exact R|].
  intros g'. rewrite Hst'. destruct (decide (g' = g)) as [->|Hne].
  - rewrite (bool_decide_eq_false_2 (g ∈ groups)), (bool_decide_eq_true_2 (g ∈ g :: groups)) by (done || by left).
    simpl. destruct (recorded g name); [|done]. unfold increment. by rewrite lookup_insert_eq.
  - assert (Hl : (if recorded g name then increment st g timing else st) !! g' = st !! g').
    { destruct (recorded g name); [|done]. unfold increment. by rewrite lookup_insert_ne. }
    rewrite Hl. assert (Hb : bool_decide (g' ∈ g :: groups) = bool_decide (g' ∈ groups)).
    { apply bool_decide_ext. rewrite elem_of_cons. naive_solver. }
    by rewrite Hb.
Qed.

Lemma hash_keys st g : g ∈ (hash_iter st).*1 <-> is_Some (st !! g).
Proof.
  rewrite list_elem_of_fmap. split.
  - intros ([g' x] & -> & Hx). rewrite hash_iter_perm in Hx. apply elem_of_map_to_list in Hx. by eexists.
  - intros [x Hx]. exists (g, x). split; [done|]. rewrite hash_iter_perm. by apply elem_of_map_to_list.
Qed.

Lemma hash_keys_nodup st : NoDup (hash_iter st).*1.
Proof. rewrite hash_iter_perm. apply NoDup_fst_map_to_list. Qed.

Definition new_timings (t : Z) : Timings := mkTimings 0 0 t false.

(** The state of a new span. *)
Definition opened_state (name : string) (t : Z) (inherited : option (gmap string Timings)) : option (gmap string Timings) :=
  match self !! name, inherited with
  | None, _ => inherited
  | Some _, None => Some {[name := new_timings t]}
  | Some _, Some st => Some (match st !! name with Some _ => st | None => <[name := new_timings t]> st end)
  end.

(** A new span is timed if one of its groups records it. *)
Definition opened_timings (name : string) (t : Z) (st : option (gmap string Timings)) : option Timings :=
  match st with
  | None => None
  | Some st => if existsb (fun g => recorded g name) (hash_iter st).*1 then Some (new_timings t) else None
  end.

Lemma new_span_run t r id parent name inherited :
  match parent with Some p => p <> id /\ (spans r !! p ≫= sp_state) = inherited | None => inherited = None end ->
  (forall st, inherited = Some st -> configured self st) ->
  let st := opened_state name t inherited in
  runs t r (handle (E := E) self (NewSpan id parent name)) (Ok tt)
    (mkRegistry (<[id := mkSpan name parent st (opened_timings name t st)]> (spans r)) (reported r)) /\
  (forall st', st = Some st' -> configured self st').
Proof.
  intros Hin Hc st. assert (Hst : forall st', st = Some st' -> configured self st').
  { unfold st, opened_state. destruct (self !! name) as [m|] eqn:Hm; [|done]. intros st' Hst' g.
    destruct inherited as [st0|].
    - injection Hst' as <-. destruct (st0 !! name); [by apply Hc|]. intros [<-|[_ ?]]%lookup_insert_is_Some; [by eexists|by eapply Hc].
    - injection Hst' as <-. intros [x Hx]. apply lookup_singleton_Some in Hx as [<- _]. by eexists. }
  split; [|done]. unfold handle. eapply runs_bind; [apply put_span_run|]. unfold on_new_span.
  eapply runs_bind; [apply expect_span_run; cbn [spans]; apply lookup_insert_eq|]. cbn [sp_name].
  set (r1 := mkRegistry _ _). eapply (runs_bind _ _ _ _ inherited r1).
  { unfold parent_state. cbn [sp_parent]. destruct parent as [p|]; [|rewrite Hin; apply runs_ret].
    destruct Hin as [Hne <-]. eapply runs_bind; [apply get_span_run|]. cbn [spans r1]. rewrite lookup_insert_ne by done. apply runs_ret. }
  eapply (runs_bind _ _ _ _ (mkSpan name parent st None) r1).
  { unfold st, opened_state. destruct (self !! name); [|destruct inherited; apply runs_ret].
    destruct inherited as [st0|]; cbn [sp_state with_state].
    - destruct (st0 !! name); [apply runs_ret|]. unfold timings_new. eapply runs_bind; [runs_step; apply runs_ret|]. apply runs_ret.
    - unfold span_state_new, timings_new. eapply runs_bind; [eapply runs_bind; [runs_step; apply runs_ret|apply runs_ret]|]. apply runs_ret. }
  eapply runs_bind; [apply put_span_run|]. cbn [sp_state spans reported r1]. rewrite insert_insert_eq.
  unfold opened_timings. destruct st as [st'|] eqn:Est; [|apply runs_ret].
  rewrite is_record_run by (intros g Hg%hash_keys; by apply (Hst st')). runs_step.
  destruct (existsb _ _); [|apply runs_ret]. unfold timings_new. eapply runs_bind; [runs_step; apply runs_ret|].
  pose proof (put_span_run t (mkRegistry (<[id:=mkSpan name parent (Some st') None]> (spans r)) (reported r)) id
    (with_timings (mkSpan name parent (Some st') None) (Some (new_timings t)))) as H. cbn [spans reported] in H.
  rewrite insert_insert_eq in H. exact H.
Qed.

(** What is known of a span's own timings: it was opened at [t0], its last event is not
    after [lo]. *)
Definition own_ok (t0 lo : Z) (ran : bool) (tm : option Timings) : Prop :=
  forall y, tm = Some y -> t0 <= ti_last y <= lo /\ 0 <= ti_idle y /\ 0 <= ti_busy y /\
    total y = ti_last y - t0 /\ ti_updated y = ran.

Lemma own_ok_later t0 lo hi ran tm : own_ok t0 lo ran tm -> lo <= hi -> own_ok t0 hi ran tm.
Proof. intros H Hle y Hy. destruct (H y Hy) as (? & ? & ? & ? & ?). split_and!; [lia|lia|done..]. Qed.

(** Entering or leaving a span. *)
Lemma tick_run t r id sp t0 lo ran ev :
  spans r !! id = Some sp -> own_ok t0 lo ran (sp_timings sp) -> 0 <= t0 -> lo <= t -> t <= u64_max ->
  ev = EnterSpan id \/ ev = ExitSpan id ->
  exists tm, runs t r (handle (E := E) self ev) (Ok tt)
      (mkRegistry (<[id := with_timings sp tm]> (spans r)) (reported r)) /\
    own_ok t0 t true tm /\ (is_Some tm <-> is_Some (sp_timings sp)).
Proof.
  intros Hsp Hok H0 Hle Hmax Hev. destruct sp as [name parent st [y|]]; cbn [sp_timings] in *.
  2: { exists None. split_and!; [|done|done]. unfold with_timings. cbn [sp_name sp_parent sp_state]. rewrite insert_id by done.
       destruct r. destruct Hev as [-> | ->]; simpl; (eapply runs_bind; [apply get_span_run|]; rewrite Hsp; apply runs_ret). }
  destruct (Hok y eq_refl) as (Hl & Hi & Hb & Htot & Hu). unfold total in Htot.
  assert (Hel : elapsed t (ti_last y) = t - ti_last y) by (apply elapsed_small; lia).
  destruct Hev as [-> | ->]; eexists; (split; [simpl; eapply runs_bind; [apply get_span_run|]; rewrite Hsp; cbn [sp_timings]; runs_step; apply put_span_run|]).
  all: split; [|by split; eexists].
  all: intros y' [= <-]; cbn [ti_last ti_idle ti_busy ti_updated]; unfold total, add_idle; cbn [ti_last ti_idle ti_busy ti_updated].
  all: rewrite Hel, u64_add_small by lia; split_and!; lia || done.
Qed.

(** The timings a span hands over when it closes, and the state with them. *)
Definition closing (t : Z) (tm : option Timings) : option Timings :=
  (fun y => mkTimings (add_idle y t) (ti_busy y) (ti_last y) (ti_updated y)) <$> tm.

Definition handed_over (name : string) (timing : option Timings) st st' : Prop :=
  forall g, st' !! g = match st !! g, timing with
                       | Some x, Some y => Some (if recorded g name then timings_add x y else x)
                       | o, _ => o
                       end.

Definition report_of (name : string) st : list (string * Timings) :=
  match self !! name, st !! name with
  | Some m, Some x => if ti_updated x then [(consumer m, x)] else []
  | _, _ => []
  end.

Definition hand_to (parent : option nat) st (m : gmap nat Span) : gmap nat Span :=
  match parent with
  | Some p => alter (fun sp => with_state sp (Some st)) p m
  | None => m
  end.

Lemma close_run t r id sp st :
  spans r !! id = Some sp -> sp_state sp = Some st -> sp_parent sp <> Some id -> configured self st ->
  exists st', handed_over (sp_name sp) (closing t (sp_timings sp)) st st' /\
    runs t r (handle (E := E) self (CloseSpan id)) (Ok tt)
      (mkRegistry (delete id (hand_to (sp_parent sp) st' (spans r))) (reported r ++ report_of (sp_name sp) st')).
Proof.
  intros Hsp Hst Hp Hc. set (tg := closing t (sp_timings sp)).
  assert (exists st', handed_over (sp_name sp) tg st st' /\ forall r0,
    runs t r0 (match tg with
               | None => ret st
               | Some timing => lift (increment_groups (E := E) self (sp_name sp) timing (hash_iter st).*1 st)
               end) (Ok st') r0) as (st' & Hh & Rinc).
  { destruct tg as [y|]; [|exists st; split; [intros g; by destruct (st !! g)|intros r0; apply runs_ret]].
    destruct (increment_groups_run (sp_name sp) y (hash_iter st).*1 st) as (st' & R & Hst');
      [apply hash_keys_nodup|intros g Hg%hash_keys; by apply Hc|].
    exists st'. split; [|intros r0; rewrite R; apply runs_lift]. intros g. rewrite Hst'.
    destruct (st !! g) as [x|] eqn:Hx.
    - rewrite bool_decide_eq_true_2 by (apply hash_keys; by rewrite Hx). by destruct (recorded g (sp_name sp)).
    - rewrite bool_decide_eq_false_2; [done|]. intros [x Hx']%hash_keys. by rewrite Hx in Hx'. }
  exists st'. split; [done|]. simpl. unfold on_close.
  set (sp1 := with_state (with_timings sp tg) (Some st')).
  set (m1 := <[id := sp1]> (<[id := with_timings sp tg]> (spans r))).
  eapply (runs_bind _ _ _ _ tt (mkRegistry (hand_to (sp_parent sp) st' m1) (reported r ++ report_of (sp_name sp) st'))).
  - eapply runs_bind; [by apply expect_span_run|]. eapply (runs_bind _ _ _ _ tg r).
    { unfold tg, closing. destruct (sp_timings sp); simpl; [runs_step|]; apply runs_ret. }
    eapply runs_bind; [apply put_span_run|]. rewrite Hst. eapply runs_bind; [apply Rinc|].
    eapply runs_bind; [apply put_span_run|]. cbn [spans reported]. fold sp1 m1.
    eapply (runs_bind _ _ _ _ tt (mkRegistry (hand_to (sp_parent sp) st' m1) (reported r))).
    + unfold hand_to. destruct (sp_parent sp) as [p|]; [|apply runs_ret].
      eapply runs_bind; [apply get_span_run|]. cbn [spans]. destruct (m1 !! p) as [par|] eqn:Hpar.
      * rewrite <-(insert_id m1 p par) at 2 by done. rewrite alter_insert_eq.
        replace (<[p := with_state par (Some st')]> m1) with (<[p := with_state par (Some st')]> (spans (mkRegistry m1 (reported r)))) by done.
        apply (put_span_run t (mkRegistry m1 (reported r))).
      * rewrite alter_id by (intros x Hx; by rewrite Hpar in Hx). apply runs_ret.
    + unfold report_of. destruct (self !! sp_name sp) as [m|]; [|rewrite app_nil_r; apply runs_ret].
      destruct (st' !! sp_name sp) as [x|]; [|rewrite app_nil_r; apply runs_ret].
      destruct (ti_updated x); [|rewrite app_nil_r; apply runs_ret]. runs_step. apply runs_put.
  - runs_step. cbn [spans reported].
    replace (delete id (hand_to (sp_parent sp) st' (spans r))) with (delete id (hand_to (sp_parent sp) st' m1)); [apply runs_put|].
    apply map_eq. intros i. destruct (decide (i = id)) as [->|Hne]; [by rewrite !lookup_delete_eq|].
    rewrite !lookup_delete_ne by done. unfold hand_to. destruct (sp_parent sp) as [p|].
    + unfold m1. destruct (decide (p = i)) as [->|Hpi].
      * rewrite !lookup_alter_eq. by rewrite !lookup_insert_ne.
      * rewrite !lookup_alter_ne by done. by rewrite !lookup_insert_ne.
    + unfold m1. by rewrite !lookup_insert_ne.
Qed.
End callbacks.

(** ** Whole lives *)

Section lives.
Context {HO : HashOrder} {E : Type} (self : gmap string MetricsGroup) (g : string) (mg : MetricsGroup).
Hypothesis Hg : self !! g = Some mg.
Abbreviation recs := (records mg).
Implicit Types (r : Registry) (st : gmap string Timings).

Lemma life_ordered l : life_timed l -> 0 <= opened l <= closed l /\ closed l <= u64_max /\ 0 <= life_time recs l.
Proof.
  apply (life_mut
    (fun l => life_timed l -> 0 <= opened l <= closed l /\ closed l <= u64_max /\ 0 <= life_time recs l)
    (fun b => forall lo hi, body_timed lo b hi -> lo <= hi /\ 0 <= body_time recs b)).
  - intros id name t0 body IH t1 (H0 & H1 & Hb). destruct (IH t0 t1 Hb). cbn [opened closed life_time].
    split_and!; try lia. case_bool_decide; lia.
  - intros lo hi H. simpl in *. lia.
  - intros t b IH lo hi [Hle Hb]. destruct (IH t hi Hb). simpl. lia.
  - intros t b IH lo hi [Hle Hb]. destruct (IH t hi Hb). simpl. lia.
  - intros c IHc b IH lo hi (Hle & Hc & Hb). destruct (IHc Hc) as (? & ? & ?), (IH _ hi Hb). simpl. lia.
Qed.

Lemma body_ordered lo b hi : body_timed lo b hi -> lo <= hi /\ 0 <= body_time recs b.
Proof.
  revert lo. induction b as [|t b IH|t b IH|c b IH]; intros lo; simpl.
  - lia.
  - intros [Hle Hb]. destruct (IH t Hb). lia.
  - intros [Hle Hb]. destruct (IH t Hb). lia.
  - intros (Hle & Hc & Hb). destruct (life_ordered c Hc) as (? & ? & ?), (IH _ Hb). lia.
Qed.

(** A span below an aggregator of [g] belongs to [g]. *)
Lemma opened_state_keeps name t st :
  is_Some (st !! g) -> exists st1, opened_state self name t (Some st) = Some st1 /\ st1 !! g = st !! g.
Proof.
  intros [x Hx]. unfold opened_state. destruct (self !! name); [|by exists st].
  eexists. split; [done|]. destruct (st !! name) eqn:Hn; [done|]. rewrite lookup_insert_ne; [done|]. intros ->. congruence.
Qed.

Lemma opened_timed name t st : is_Some (st !! g) -> recorded self g name = true -> opened_timings self name t (Some st) = Some (new_timings t).
Proof.
  intros Hs Hr. unfold opened_timings. replace (existsb _ _) with true; [done|]. symmetry. apply existsb_exists.
  exists g. split; [|done]. apply list_elem_of_In. by apply hash_keys.
Qed.

(** What a span that closes adds to [g]. *)
Lemma handed_gained name t0 t1 ran tm st st' :
  handed_over self name (closing t1 tm) st st' -> configured self st -> own_ok t0 t1 ran tm -> 0 <= t0 -> t1 <= u64_max ->
  (recorded self g name = true -> is_Some tm) ->
  gained self g st st' (if recorded self g name then t1 - t0 else 0) (recorded self g name && ran).
Proof.
  intros Hh Hc Hok H0 H1 Hrec. split_and!.
  - intros g' [x Hx]. apply Hc. rewrite Hh in Hx. by destruct (st !! g').
  - intros [x Hx]. rewrite Hh, Hx. by destruct (closing t1 tm).
  - intros x Hx Hw Hle. rewrite Hh, Hx. destruct (recorded self g name) eqn:Hr; simpl.
    + destruct (Hrec eq_refl) as [y ->]. destruct (Hok y eq_refl) as (Hl & Hi & Hb & Htot & Hu). simpl.
      eexists. split; [done|]. destruct Hw as (Hw1 & Hw2 & Hw3). unfold timings_wf, total, timings_add, add_idle in *.
      cbn [ti_idle ti_busy ti_updated]. rewrite elapsed_small by lia. rewrite !u64_add_small by (try lia; rewrite ?u64_add_small by lia; lia).
      split_and!; try lia. by rewrite Hu.
    + exists x. rewrite orb_false_r, Z.add_0_r. by destruct (closing t1 tm).
Qed.

(** The names of a list of spans that are not groups. *)
Definition no_groups (l : list (nat * string)) : Prop := forall n, n ∈ l.*2 -> self !! n = None.

Definition life_spec (l : Life) : Prop := forall r p sp st,
  spans r !! p = Some sp -> sp_state sp = Some st -> configured self st -> is_Some (st !! g) ->
  life_timed l -> NoDup (life_spans l).*1 -> (forall i, i ∈ (life_spans l).*1 -> spans r !! i = None) ->
  exists st' log,
    play (E := E) self (life_events (Some p) l) r =
      Ok (mkRegistry (<[p := with_state sp (Some st')]> (spans r)) (reported r ++ log)) /\
    gained self g st st' (life_time recs l) (life_ran recs l) /\ (no_groups (life_spans l) -> log = []).

Definition body_spec (b : Body) : Prop := forall r id sp st t0 lo hi ran,
  spans r !! id = Some sp -> sp_state sp = Some st -> configured self st -> is_Some (st !! g) ->
  own_ok t0 lo ran (sp_timings sp) -> 0 <= t0 <= lo -> hi <= u64_max -> body_timed lo b hi ->
  NoDup (body_spans b).*1 -> (forall i, i ∈ (body_spans b).*1 -> spans r !! i = None) ->
  exists st' tm log,
    play (E := E) self (body_events id b) r =
      Ok (mkRegistry (<[id := mkSpan (sp_name sp) (sp_parent sp) (Some st') tm]> (spans r)) (reported r ++ log)) /\
    gained self g st st' (body_time recs b) (body_ran recs b) /\
    own_ok t0 hi (ran || was_entered b) tm /\ (is_Some tm <-> is_Some (sp_timings sp)) /\
    (no_groups (body_spans b) -> log = []).

(** A body that starts with the span being entered or left. *)
Lemma body_tick b t ev id r sp st t0 lo hi ran :
  body_spec b -> ev = EnterSpan id \/ ev = ExitSpan id ->
  spans r !! id = Some sp -> sp_state sp = Some st -> configured self st -> is_Some (st !! g) ->
  own_ok t0 lo ran (sp_timings sp) -> 0 <= t0 <= lo -> hi <= u64_max -> lo <= t -> body_timed t b hi ->
  NoDup (body_spans b).*1 -> (forall i, i ∈ (body_spans b).*1 -> spans r !! i = None) ->
  exists st' tm log,
    play (E := E) self ((t, ev) :: body_events id b) r =
      Ok (mkRegistry (<[id := mkSpan (sp_name sp) (sp_parent sp) (Some st') tm]> (spans r)) (reported r ++ log)) /\
    gained self g st st' (body_time recs b) (body_ran recs b) /\
    own_ok t0 hi true tm /\ (is_Some tm <-> is_Some (sp_timings sp)) /\ (no_groups (body_spans b) -> log = []).
Proof.
  intros IH Hev Hsp Hst Hc Hs Hok H0 Hmax Hle Hb Hnd Hfr. destruct (body_ordered t b hi Hb) as [Hthi _].
  destruct (tick_run (E := E) self t r id sp t0 lo ran ev Hsp Hok) as (tm & R & Hok' & Htm); [lia|lia|lia|done|].
  rewrite (play_step self _ _ _ _ _ R).
  destruct (IH (mkRegistry (<[id := with_timings sp tm]> (spans r)) (reported r)) id (with_timings sp tm) st t0 t hi true)
    as (st' & tm' & log & P & G & O & T & L); cbn [spans reported]; try done; [by rewrite lookup_insert_eq|lia| |].
  { intros i Hi. specialize (Hfr i Hi). rewrite lookup_insert_ne; [done|]. intros ->. congruence. }
  exists st', tm', log. cbn [spans reported sp_name sp_parent sp_timings with_timings] in P, T. rewrite insert_insert_eq in P.
  split_and!; [done|done|done| |done]. by rewrite T, Htm.
Qed.

Lemma recorded_group name : recorded self g name = bool_decide (name ∈ recs).
Proof. unfold recorded. by rewrite Hg. Qed.

(** A life from its creation to its end, if its span belongs to [g]. *)
Lemma span_run r parent inherited st1 id name t0 body t1 :
  let l := mkLife id name t0 body t1 in
  body_spec body ->
  match parent with Some p => p <> id /\ (spans r !! p ≫= sp_state) = inherited | None => inherited = None end ->
  (forall st, inherited = Some st -> configured self st) ->
  opened_state self name t0 inherited = Some st1 -> is_Some (st1 !! g) ->
  life_timed l -> NoDup (life_spans l).*1 -> (forall i, i ∈ (life_spans l).*1 -> spans r !! i = None) ->
  exists st3 log,
    play (E := E) self (life_events parent l) r =
      Ok (mkRegistry (hand_to parent st3 (spans r)) (reported r ++ log ++ report_of self name st3)) /\
    gained self g st1 st3 (life_time recs l) (life_ran recs l) /\ (no_groups (body_spans body) -> log = []).
Proof.
  intros l IH Hpar Hinh Est1 Hs1 (H0 & H1 & Hb) Hnd Hfr. unfold l in *. cbn [life_spans] in Hnd, Hfr. rewrite fmap_cons in Hnd, Hfr.
  apply NoDup_cons in Hnd as [Hid Hnd]. simpl in Hid. destruct (body_ordered t0 body t1 Hb) as [Hle Hbt].
  assert (Hfid : spans r !! id = None) by (apply Hfr; by left).
  destruct (new_span_run (E := E) self t0 r id parent name inherited Hpar Hinh) as [R1 Hc1]. rewrite Est1 in R1, Hc1. specialize (Hc1 st1 eq_refl).
  set (sp1 := mkSpan name parent (Some st1) (opened_timings self name t0 (Some st1))) in *.
  set (r1 := mkRegistry (<[id := sp1]> (spans r)) (reported r)) in *.
  destruct (IH r1 id sp1 st1 t0 t0 t1 false) as (st2 & tm & log & P & G & O & T & L); cbn [spans reported r1]; try done; [by rewrite lookup_insert_eq| | |].
  { intros y Hy. unfold sp1, opened_timings in Hy. cbn [sp_timings] in Hy. destruct (existsb _ _); [|done]. injection Hy as <-.
    unfold total. simpl. lia. }
  { intros i Hi. rewrite lookup_insert_ne by (intros ->; done). apply Hfr. by right. }
  cbn [spans reported r1 sp_name sp_parent sp1] in P. rewrite insert_insert_eq in P.
  set (sp2 := mkSpan name parent (Some st2) tm) in *. set (r2 := mkRegistry (<[id := sp2]> (spans r)) (reported r ++ log)) in *.
  destruct (close_run (E := E) self t1 r2 id sp2 st2) as (st3 & Hh & R3); cbn [spans r2 sp_state sp_parent sp2];
    [by rewrite lookup_insert_eq|done|destruct parent as [p|]; [|done]; intros [= ->]; by destruct Hpar|apply G|].
  exists st3, log. split_and!; [| |done].
  - cbn [life_events]. rewrite (play_step self _ _ _ _ _ R1), (play_app self _ _ _ _ P), (play_step self _ _ _ _ _ R3). cbn [play].
    cbn [sp_parent sp_name sp2 spans reported r2]. rewrite <-(assoc_L (++)). do 2 f_equal. unfold hand_to. destruct parent as [p|].
    + rewrite delete_alter_ne by (by destruct Hpar). by rewrite delete_insert_id.
    + by rewrite delete_insert_id.
  - cbn [life_time life_ran]. rewrite <-recorded_group, Z.add_comm, orb_comm.
    apply (gained_trans self g st1 st2 st3); [done|rewrite recorded_group; case_bool_decide; lia|done|].
    apply (handed_gained name t0 t1 (false || was_entered body) tm st2 st3); [done|apply G|done|done|done|].
    intros Hr. apply T. unfold sp1. cbn [sp_timings]. rewrite opened_timed by done. by eexists.
Qed.

(** A life under a parent that belongs to [g]. *)
Lemma life_step id name t0 body t1 : body_spec body -> life_spec (mkLife id name t0 body t1).
Proof.
  intros IH r p sp st Hsp Hst Hc Hs Ht Hnd Hfr. destruct (opened_state_keeps name t0 st Hs) as (st1 & Est1 & Hg1).
  assert (Hp : p <> id) by (intros ->; rewrite (Hfr id) in Hsp; [done|by left]).
  destruct (span_run r (Some p) (Some st) st1 id name t0 body t1) as (st3 & log & P & G & L); try done.
  { split; [done|]. by rewrite Hsp. }
  { by intros st' [= <-]. }
  { by rewrite Hg1. }
  exists st3, (log ++ report_of self name st3). split_and!.
  - rewrite P. do 2 f_equal. unfold hand_to. apply map_eq. intros i. destruct (decide (i = p)) as [->|Hne].
    + by rewrite lookup_alter_eq, lookup_insert_eq, Hsp.
    + by rewrite lookup_alter_ne, lookup_insert_ne by done.
  - destruct G as (G1 & G2 & G3). split_and!; [done|rewrite <-Hg1; done|rewrite <-Hg1; exact G3].
  - unfold no_groups. cbn [life_spans]. rewrite fmap_cons. intros Hn. rewrite L by (intros n Hin; apply Hn; by right).
    unfold report_of. by rewrite (Hn name) by (by left).
Qed.

Lemma lives_run : (forall l, life_spec l) /\ (forall b, body_spec b).
Proof.
  assert (Hchild : forall c b, life_spec c -> body_spec b -> body_spec (Child c b)).
  { intros c b IHc IH r id sp st t0 lo hi ran Hsp Hst Hc Hs Hok H0 Hmax (Hle & Hct & Hb) Hnd Hfr.
    cbn [body_spans] in Hnd, Hfr. rewrite fmap_app in Hnd, Hfr. apply NoDup_app in Hnd as (Hnd1 & Hdis & Hnd2).
    destruct (life_ordered c Hct) as (Hco & Hcm & Hct0). destruct (body_ordered _ _ _ Hb) as [_ Hbt].
    destruct (IHc r id sp st) as (st1 & log1 & P1 & G1 & L1); try done.
    { intros i Hi. apply Hfr, elem_of_app. by left. }
    set (r1 := mkRegistry (<[id := with_state sp (Some st1)]> (spans r)) (reported r ++ log1)) in *.
    destruct (IH r1 id (with_state sp (Some st1)) st1 t0 (closed c) hi ran) as (st2 & tm & log2 & P2 & G2 & O & T & L2);
      cbn [spans r1]; try done; [by rewrite lookup_insert_eq|apply G1|by apply G1|apply (own_ok_later _ lo); [done|lia]|lia| |].
    { intros i Hi. assert (Hi' : spans r !! i = None) by (apply Hfr, elem_of_app; by right).
      rewrite lookup_insert_ne; [done|]. intros ->. congruence. }
    exists st2, tm, (log1 ++ log2). cbn [body_events body_time body_ran was_entered]. split_and!; [|by apply (gained_trans self g st st1)|done|done|].
    - rewrite (play_app self _ _ _ _ P1), P2. cbn [spans reported r1 sp_name sp_parent with_state].
      by rewrite insert_insert_eq, (assoc_L (++)).
    - unfold no_groups. cbn [body_spans]. rewrite fmap_app. intros Hn.
      rewrite L1, L2 by (intros n Hin; apply Hn, elem_of_app; auto). done. }
  assert (Hdone : body_spec Done).
  { intros r id [name parent st0 tm] st t0 lo hi ran Hsp Hst Hc Hs Hok H0 Hmax Hb _ _. cbn [sp_state] in Hst. subst st0.
    exists st, tm, []. cbn [body_events play sp_name sp_parent body_time body_ran was_entered]. rewrite insert_id, app_nil_r, orb_false_r by done.
    split_and!; [by destruct r|by apply gained_refl|by apply (own_ok_later _ lo)|done|done]. }
  assert (Htick : forall b t, body_spec b -> body_spec (Entered t b) /\ body_spec (Exited t b)).
  { intros b t IH. split; intros r id sp st t0 lo hi ran Hsp Hst Hc Hs Hok H0 Hmax [Hle Hb] Hnd Hfr;
      cbn [body_events body_time body_ran was_entered body_spans] in *; rewrite orb_true_r.
    - apply (body_tick b t (EnterSpan id) id r sp st t0 lo hi ran); auto.
    - apply (body_tick b t (ExitSpan id) id r sp st t0 lo hi ran); auto. }
  split; [apply (life_mut life_spec body_spec)|apply (body_mut life_spec body_spec)]; intros; auto using life_step; by apply Htick.
Qed.

(** What the parent carries for the group when a span is opened: on closing, an
    aggregator leaves its times with its parent, whether or not that belongs to the
    group. *)
Definition carried r (parent : option nat) : option Timings :=
  p ← parent; st ← spans r !! p ≫= sp_state; st !! g.

Definition carried_time (o : option Timings) : Z := from_option total 0 o.
Definition carried_updated (o : option Timings) : bool := from_option ti_updated false o.

(** C32: what an aggregator reports when it closes.  Whatever spans live below it, one
    after the other, to whatever depth and however often they are entered, the group's
    consumer is called with the sum of the lifetimes of the recorded spans and of what
    the parent carries for the group from earlier aggregators, if one of the recorded
    spans ran or ran before, and is not called otherwise; the parent then carries that
    sum.  Under a parent that carries nothing, and no parent at all, that is the time
    spent in the recorded spans below.  The layer does not panic, and nothing else is
    reported unless a span below is an aggregator itself. *)
Theorem aggregator_reports_total r parent id t0 body t1 :
  let life := mkLife id g t0 body t1 in
  let before := carried r parent in
  (forall p sp st, parent = Some p -> spans r !! p = Some sp -> sp_state sp = Some st -> configured self st) ->
  (forall x, before = Some x -> timings_wf x) ->
  parent <> Some id -> NoDup (life_spans life).*1 -> (forall i, i ∈ (life_spans life).*1 -> spans r !! i = None) ->
  life_timed life -> carried_time before + life_time recs life <= u64_max ->
  exists r' nested x, play (E := E) self (life_events parent life) r = Ok r' /\
    reported r' = reported r ++ nested ++ (if carried_updated before || life_ran recs life then [(consumer mg, x)] else []) /\
    timings_duration x = carried_time before + life_time recs life /\
    (forall p, parent = Some p -> is_Some (spans r !! p) -> carried r' parent = Some x) /\
    (no_groups (body_spans body) -> nested = []).
Proof.
  intros life before Hconf Hwf Hne Hnd Hfr Ht Hmax.
  set (inherited := match parent with Some p => spans r !! p ≫= sp_state | None => None end).
  assert (Hbefore : before = inherited ≫= (.!! g)) by (unfold before, carried, inherited; by destruct parent).
  assert (exists st1, opened_state self g t0 inherited = Some st1 /\ st1 !! g = Some (default (new_timings t0) before))
    as (st1 & Est1 & Hx1).
  { unfold opened_state. rewrite Hg, Hbefore. destruct inherited as [st|]; simpl.
    - eexists. split; [done|]. destruct (st !! g) as [x|] eqn:Hx; simpl; [done|apply lookup_insert_eq].
    - eexists. split; [done|]. apply lookup_singleton_eq. }
  destruct (span_run r parent inherited st1 id g t0 body t1) as (st3 & log & P & G & L); try done.
  { apply lives_run. }
  { unfold inherited. destruct parent; [|done]. split; [congruence|done]. }
  { unfold inherited. intros st. destruct parent as [p|]; [|done]. destruct (spans r !! p) as [sp|] eqn:Hsp; [|done]. by apply (Hconf p). }
  assert (Hx0 : timings_wf (default (new_timings t0) before) /\ total (default (new_timings t0) before) = carried_time before /\
    ti_updated (default (new_timings t0) before) = carried_updated before).
  { destruct before as [x|]; simpl; [auto|]. by unfold timings_wf, total, u64_max. }
  destruct Hx0 as (Hw0 & Ht0 & Hu0). destruct G as (_ & _ & G).
  destruct (G _ Hx1 Hw0) as (x & Hx & Hw & Htot & Hu); [rewrite Ht0; exact Hmax|]. rewrite Ht0 in Htot. rewrite Hu0 in Hu.
  eexists _, log, x. split_and!; [exact P| | | |done].
  - cbn [reported]. unfold report_of. by rewrite Hg, Hx, Hu.
  - unfold timings_duration. destruct Hw as (? & ? & Hw). unfold total in Hw, Htot. rewrite u64_add_small by lia. exact Htot.
  - intros p -> [sp Hsp]. unfold carried. simpl. by rewrite lookup_alter_eq, Hsp.
Qed.
End lives.

#[local] Existing Instance demo_hash_order.

(** A request that goes to the datastore twice. *)
Definition demo_life : Life :=
  mkLife 1 "should_rate_limit" 100
    (Entered 110
      (Child (mkLife 2 "check_and_update" 120
        (Entered 120
          (Child (mkLife 3 "datastore" 130 (Entered 140 (Exited 200 (Entered 220 (Exited 250 Done)))) 260)
          (Child (mkLife 4 "datastore" 300 (Entered 300 (Exited 330 Done)) 330)
          (Exited 390 Done)))) 400)
      (Exited 450 Done))) 460.

(** The request runs in a span that carries 40 from an earlier one. *)
Definition demo_carried : gmap string Timings := {["should_rate_limit"%string := mkTimings 10 30 90 true]}.

Definition demo_parent : Registry :=
  mkRegistry {[0%nat := mkSpan "connection" None (Some demo_carried) None]} [].

Lemma demo_carried_configured : configured metrics_layer demo_carried.
Proof.
  intros k [y Hy]. unfold demo_carried in Hy. rewrite lookup_singleton_Some in Hy. destruct Hy as [<- _].
  exists (mkGroup "record_datastore_latency" ["datastore"%string]). vm_compute. reflexivity.
Qed.

Lemma aggregator_reports_total_witness : exists r' x,
  play (E := unit) metrics_layer (life_events (Some 0%nat) demo_life) demo_parent = Ok r' /\
  reported r' = [("record_datastore_latency"%string, x)] /\ timings_duration x = 200.
Proof.
  destruct (aggregator_reports_total (E := unit) metrics_layer "should_rate_limit"
    (mkGroup "record_datastore_latency" ["datastore"%string]) eq_refl demo_parent (Some 0%nat) 1 100
    (let '(mkLife _ _ _ body _) := demo_life in body) 460) as (r' & nested & x & P & R & D & _ & N).
  - intros p sp st _ Hsp. unfold demo_parent in Hsp. cbn [spans] in Hsp. rewrite lookup_singleton_Some in Hsp.
    destruct Hsp as [_ <-]. cbn [sp_state]. intros [= <-]. apply demo_carried_configured.
  - intros x Hx. vm_compute in Hx. injection Hx as <-. vm_compute. intuition discriminate.
  - discriminate.
  - apply (bool_decide_unpack _). vm_compute. exact I.
  - intros i Hi. unfold demo_parent. cbn [spans]. apply lookup_singleton_None. intros <-. vm_compute in Hi.
    repeat (apply elem_of_cons in Hi as [Hi|Hi]; [discriminate|]). inversion Hi.
  - vm_compute. intuition discriminate.
  - vm_compute. discriminate.
  - exists r', x. split; [exact P|]. split; [|rewrite D; vm_compute; reflexivity].
    rewrite R, N; [vm_compute; reflexivity|]. intros n Hn. vm_compute in Hn. repeat (apply elem_of_cons in Hn as [->|Hn]; [reflexivity|]). inversion Hn.
Defined.

(** What a trace reports: the consumers called, and with which time. *)
Definition reports_of (evs : list (Z * Event)) : option (list (string * Duration)) :=
  match play (E := unit) metrics_layer evs (mkRegistry ∅ []) with
  | Ok r => Some (prod_map id timings_duration <$> reported r)
  | _ => None
  end.

(** Two aggregators under one parent, the second with nothing below it: the second
    reports the time of the first once more. *)
Definition demo_siblings : Life :=
  mkLife 9 "connection" 0
    (Child demo_life (Child (mkLife 10 "should_rate_limit" 500 (Entered 500 (Exited 510 Done)) 510) Done)) 600.

Example sibling_reports_again :
  reports_of (life_events None demo_siblings) =
    Some [("record_datastore_latency"%string, 160); ("record_datastore_latency"%string, 160)].
Proof. vm_compute. reflexivity. Qed.

(** Two recorded spans that overlap, with lifetimes of 60 each: each starts from the times
    the parent has when it is opened, and the one that closes last replaces what the
    other left there. *)
Example overlapping_children_lose_time :
  reports_of
    [(0, NewSpan 1 None "should_rate_limit"); (10, NewSpan 2 (Some 1%nat) "datastore"); (20, NewSpan 3 (Some 1%nat) "datastore");
     (30, EnterSpan 2); (40, ExitSpan 2); (50, EnterSpan 3); (60, ExitSpan 3); (70, CloseSpan 2); (80, CloseSpan 3);
     (90, CloseSpan 1)] =
    Some [("record_datastore_latency"%string, 60)].
Proof. vm_compute. reflexivity. Qed.
