(* ===== verification/PrometheusMetrics.v ===== *)
(** * Prometheus metrics: [limitador-server/src/prometheus_metrics.rs]

    How a call of the services' metrics becomes an increment of a labelled counter.
    The recorder of the [metrics] crate adds the increments up; the theorem says that
    the sums it shows per namespace are the requests answered. *)

From S2P Require Import Prelude Cel Errors Limit Counter Reservation Storage AsyncStorage.
From S2P Require Import AsyncRateLimiter RateLimiter EnvoyRls Moka InMemory InMemorySpec EnvoyRlsSpec HttpApi Metrics.

Definition NAMESPACE_LABEL : string := "limitador_namespace".
Definition LIMIT_NAME_LABEL : string := "limit_name".

(** [counter!(name, labels).increment(value)] *)
Record Increment : Type := mkIncrement {
  inc_name : string;
  inc_labels : list (string * string);
  inc_value : Z
}.

Section prometheus.
Context {CE : CelEngine} {HO : HashOrder} {WI : Wire}.
Implicit Types (ns : string) (ctx : Context).

Record PrometheusMetrics : Type := mkPrometheus {
  use_limit_name_label : bool;
  custom_labels : gmap string Expression;
  default_labels : option Expression
}.

(** The metrics and the gauges that are set with them. *)
Definition new_with_handle_and_default_labels (use_limit_name_label : bool) (default_labels : option Expression)
    : PrometheusMetrics * list (string * Z) :=
  (mkPrometheus use_limit_name_label ∅ default_labels,
   [("limitador_up", 1); ("datastore_partitioned", 0)]%string).

Definition new_with_options (use_limit_name_label : bool) (default_labels : option Expression) : PrometheusMetrics :=
  (new_with_handle_and_default_labels use_limit_name_label default_labels).1.

Definition prometheus_new : PrometheusMetrics := new_with_options false None.

Definition new_with_counters_by_limit_name : PrometheusMetrics := new_with_options true None.

(** The lock is only held by code that does not panic, so that it is never poisoned. *)
Definition set_custom_labels (self : PrometheusMetrics) (new_labels : gmap string Expression) : PrometheusMetrics :=
  mkPrometheus (use_limit_name_label self) new_labels (default_labels self).

(** A label whose expression has no value is left out. *)
Definition custom_label ctx (le : string * Expression) : option (string * string) :=
  match eval le.2 ctx with
  | Ok (Some val) => Some (le.1, val)
  | _ => None
  end.

Definition labels (self : PrometheusMetrics) ctx : list (string * string) :=
  let labels := omap (custom_label ctx) (hash_iter (custom_labels self)) in
  match default_labels self with
  | None => labels
  | Some default =>
      match eval_map default ctx with
      | Ok value => hash_iter value ++ labels
      | _ => labels
      end
  end.

(** The value given to the histogram [datastore_latency]. *)
Definition record_datastore_latency (timings : Timings) : Duration := timings_duration timings.

Definition incr_authorized_calls (self : PrometheusMetrics) ns ctx : Increment :=
  mkIncrement "authorized_calls" (labels self ctx ++ [(NAMESPACE_LABEL, ns)]) 1.

Definition incr_report_calls (self : PrometheusMetrics) ns ctx : Increment :=
  mkIncrement "report_calls" (labels self ctx ++ [(NAMESPACE_LABEL, ns)]) 1.

Definition incr_authorized_hits (self : PrometheusMetrics) ns ctx (hits_addend : Z) : Increment :=
  mkIncrement "authorized_hits" (labels self ctx ++ [(NAMESPACE_LABEL, ns)]) hits_addend.

Definition incr_limited_calls (self : PrometheusMetrics) ns (limit_name : option string) ctx : Increment :=
  mkIncrement "limited_calls"
    (labels self ctx ++ [(NAMESPACE_LABEL, ns)] ++
     (if use_limit_name_label self then [(LIMIT_NAME_LABEL, default ""%string limit_name)] else [])) 1.

(** The call a service makes. *)
Definition increment_of (self : PrometheusMetrics) (c : MetricCall) : Increment :=
  match c with
  | IncrAuthorizedCalls ns ctx => incr_authorized_calls self ns ctx
  | IncrAuthorizedHits ns ctx hits => incr_authorized_hits self ns ctx hits
  | IncrLimitedCalls ns name ctx => incr_limited_calls self ns name ctx
  | IncrReportCalls ns ctx => incr_report_calls self ns ctx
  end.

(** ** What Prometheus shows *)

(** The series [name] summed over every label but the namespace. *)
Definition counts_for (name ns : string) (i : Increment) : bool :=
  bool_decide (inc_name i = name) && bool_decide ((NAMESPACE_LABEL, ns) ∈ inc_labels i).

Definition shown (self : PrometheusMetrics) (log : list MetricCall) (name ns : string) : Z :=
  foldr Z.add 0 ((fun c => let i := increment_of self c in if counts_for name ns i then inc_value i else 0) <$> log).

Context {L : Type} {LO : LimiterOps L}.

(** A request to one of the services or to a handler of the HTTP API that gets the
    limiter to decide or to count; [uuid] is the id a reservation will have. *)
Inductive Call : Type :=
| ShouldRateLimit (req : RateLimitRequest)
| CheckRateLimit (req : RateLimitRequest)
| Report (req : RateLimitRequest)
| Reserve (uuid : ReservationId) (req : ReserveRequest)
| Commit (req : CommitRequest)
| HttpCheckAndReport (info : CheckAndReportInfo)
| HttpCheck (info : CheckAndReportInfo)
| HttpReport (info : CheckAndReportInfo).

Definition call_domain (c : Call) : string :=
  match c with
  | ShouldRateLimit req | CheckRateLimit req | Report req => domain req
  | Reserve _ req => rq_domain req
  | Commit req => cq_domain req
  | HttpCheckAndReport info | HttpCheck info | HttpReport info => ci_namespace info
  end.

(** How a handler answers: not at all if it fails or panics. *)
Definition code_of {E A} (f : A -> option Code) (g : E -> option Code) (m : M (Service L) E A)
    : M (Service L) Status (option Code) := fun w =>
  match m w with
  | (Ok a, w') => (Ok (f a), w')
  | (Err e, w') => (Ok (g e), w')
  | (Panic _, w') => (Ok None, w')
  end.

(** The answers of the HTTP API as codes. *)
Definition http_code (status : Z) : option Code :=
  if status =? 200 then Some CodeOk else if status =? 429 then Some CodeOverLimit else None.

Definition answer (cfg : ServiceConfig) (c : Call) : M (Service L) Status (option Code) :=
  match c with
  | ShouldRateLimit req => code_of (fun r => Some (overall_code r)) (fun _ => None) (should_rate_limit cfg req)
  | CheckRateLimit req => code_of (fun r => Some (overall_code r)) (fun _ => None) (check_rate_limit cfg req)
  | Report req => code_of (fun r => Some (overall_code r)) (fun _ => None) (EnvoyRls.report cfg req)
  | Reserve uuid req => code_of (fun r => Some (rsp_code r)) (fun _ => None) (svc_reserve cfg uuid req)
  | Commit req =>
      code_of (fun _ => Some (if bool_decide (cq_domain req = ""%string) then CodeUnknown else CodeOk)) (fun _ => None)
        (svc_commit cfg req)
  | HttpCheckAndReport info =>
      code_of (fun r => http_code (http_status r)) (fun e => http_code (error_status_code e)) (check_and_report info)
  | HttpCheck info => code_of (fun _ => Some CodeOk) (fun e => http_code (error_status_code e)) (HttpApi.check info)
  | HttpReport info => code_of (fun _ => Some CodeOk) (fun e => http_code (error_status_code e)) (HttpApi.report info)
  end.

Definition serve (cfg : ServiceConfig) (calls : list Call) : M (Service L) Status (list (Call * option Code)) :=
  mapM (fun c => let* code := answer cfg c in ret (c, code)) calls.

(** What an answered request adds to the series of its namespace.  [/check] and [/report]
    of the HTTP API add nothing. *)
Definition dues (c : Call) (code : option Code) : list (string * Z) :=
  match c, code with
  | ShouldRateLimit req, Some CodeOk => [("authorized_calls", 1); ("authorized_hits", hits_addend_of req)]
  | HttpCheckAndReport info, Some CodeOk => [("authorized_calls", 1); ("authorized_hits", ci_delta info)]
  | (CheckRateLimit _ | Reserve _ _), Some CodeOk => [("authorized_calls", 1)]
  | Report req, Some CodeOk => [("report_calls", 1); ("authorized_hits", hits_addend_of req)]
  | Commit req, Some CodeOk => [("report_calls", 1); ("authorized_hits", actual_amount req)]
  | (ShouldRateLimit _ | CheckRateLimit _ | Reserve _ _ | HttpCheckAndReport _), Some CodeOverLimit => [("limited_calls", 1)]
  | _, _ => []
  end%string.

Definition due (name : string) (ca : Call * option Code) : Z :=
  foldr Z.add 0 ((fun d => if bool_decide (d.1 = name) then d.2 else 0) <$> dues ca.1 ca.2).

Definition due_in (name ns : string) (answers : list (Call * option Code)) : Z :=
  foldr Z.add 0 ((fun ca => if bool_decide (call_domain ca.1 = ns) then due name ca else 0) <$> answers).

(** ** The sums are the answers *)

Definition metric_name (c : MetricCall) : string :=
  match c with
  | IncrAuthorizedCalls _ _ => "authorized_calls"
  | IncrAuthorizedHits _ _ _ => "authorized_hits"
  | IncrLimitedCalls _ _ _ => "limited_calls"
  | IncrReportCalls _ _ => "report_calls"
  end.

Definition metric_ns (c : MetricCall) : string :=
  match c with
  | IncrAuthorizedCalls ns _ | IncrAuthorizedHits ns _ _ | IncrLimitedCalls ns _ _ | IncrReportCalls ns _ => ns
  end.

(** No configured label takes the name of the namespace's. *)
Definition labels_ok (self : PrometheusMetrics) : Prop := forall ctx, NAMESPACE_LABEL ∉ (labels self ctx).*1.

Lemma namespace_label self ctx ns ns' more :
  labels_ok self -> NAMESPACE_LABEL ∉ more.*1 ->
  (NAMESPACE_LABEL, ns') ∈ labels self ctx ++ [(NAMESPACE_LABEL, ns)] ++ more <-> ns = ns'.
Proof.
  intros Hl Hm. rewrite !elem_of_app, list_elem_of_singleton. split; [|intros ->; auto].
  intros [H|[[= ->]|H]]; [|done|]; exfalso; [apply (Hl ctx)|apply Hm]; apply list_elem_of_fmap; by exists (NAMESPACE_LABEL, ns').
Qed.

Lemma counts_for_spec self c name ns :
  labels_ok self ->
  counts_for name ns (increment_of self c) = bool_decide (metric_name c = name) && bool_decide (metric_ns c = ns).
Proof.
  intros Hl. unfold counts_for. destruct c as [ns' ctx|ns' ctx hits|ns' ln ctx|ns' ctx]; simpl; f_equal; apply bool_decide_ext.
  3: { apply namespace_label; [done|]. destruct (use_limit_name_label self); simpl; [|apply not_elem_of_nil].
       rewrite list_elem_of_singleton. done. }
  all: rewrite <-(app_nil_r [(NAMESPACE_LABEL, ns')]); apply namespace_label; [done|apply not_elem_of_nil].
Qed.

Lemma shown_app self l k name ns : shown self (l ++ k) name ns = shown self l name ns + shown self k name ns.
Proof. unfold shown. rewrite fmap_app. induction (_ <$> l) as [|x xs IH]; simpl; [done|]. rewrite IH. lia. Qed.

Lemma on_limiter_metrics {E A} (m : M L E A) w :
  svc_metrics (w_state (on_limiter m w).2) = svc_metrics (w_state w).
Proof. unfold on_limiter, zoom. by destruct (m _). Qed.

(** An answer and the log it leaves. *)
Definition accounted self (c : Call) (m : M (Service L) Status (option Code)) w : Prop :=
  exists code w' log, m w = (Ok code, w') /\ svc_metrics (w_state w') = svc_metrics (w_state w) ++ log /\
    forall name ns, shown self log name ns = if bool_decide (call_domain c = ns) then due name (c, code) else 0.

Lemma shown_sum self log name ns :
  labels_ok self -> shown self log name ns = foldr Z.add 0 ((fun c =>
    if bool_decide (metric_name c = name) && bool_decide (metric_ns c = ns) then inc_value (increment_of self c) else 0) <$> log).
Proof. intros Hl. unfold shown. f_equal. apply list_fmap_ext. intros ? c' _. by rewrite counts_for_spec. Qed.

(** Closes the account of a handler that has returned. *)
Ltac account Hl Hm :=
  cbn -[shown bool_decide Z.eqb String.eqb dues] in Hm |- *;
  do 3 eexists; (split; [reflexivity|]); split;
  [cbn [w_state svc_metrics]; rewrite ?Hm, <-?(assoc_L (++)); first [reflexivity | symmetry; apply app_nil_r]
  |intros name ns; rewrite (shown_sum _ _ _ _ Hl); simpl; unfold due; simpl; repeat case_bool_decide; simplify_eq/=; lia].

(** Runs the call of the limiter, which leaves the log alone. *)
Ltac call_limiter Hm :=
  match goal with |- context [on_limiter ?m ?w0] =>
    pose proof (on_limiter_metrics m w0) as Hm; destruct (on_limiter m w0) as [[resp|e|msg] w1] end.

Lemma answer_accounted self cfg c w : labels_ok self -> accounted self c (answer cfg c) w.
Proof.
  intros Hl. unfold accounted, answer, code_of. assert (Hm0 : True) by done.
  destruct c as [req|req|req|uuid req|req|info|info|info].
  - unfold should_rate_limit. case_bool_decide as Hd; [account Hl Hm0|]. unfold bind at 1, map_err. call_limiter Hm; [|account Hl Hm..].
    cbn -[shown]. destruct (limited resp); account Hl Hm.
  - unfold check_rate_limit. case_bool_decide as Hd; [account Hl Hm0|]. unfold bind at 1, map_err. call_limiter Hm; [|account Hl Hm..].
    cbn -[shown]. destruct (limited resp); account Hl Hm.
  - unfold EnvoyRls.report. case_bool_decide as Hd; [account Hl Hm0|]. unfold bind at 1, map_err. call_limiter Hm; account Hl Hm.
  - unfold svc_reserve. destruct (disable_reservations cfg); [account Hl Hm0|]. case_bool_decide as Hd; [account Hl Hm0|].
    unfold bind at 1, map_err. call_limiter Hm; [|account Hl Hm..]. cbn -[shown]. destruct (rr_limited resp); account Hl Hm.
  - unfold svc_commit. destruct (disable_reservations cfg); [account Hl Hm0|]. case_bool_decide as Hd; [account Hl Hm0|].
    unfold bind at 1, map_err. call_limiter Hm; account Hl Hm.
  - unfold check_and_report. unfold bind at 1, attempt. call_limiter Hm; [|account Hl Hm..]. cbn -[shown].
    destruct (limited resp); account Hl Hm.
  - unfold HttpApi.check. unfold bind at 1, map_err. call_limiter Hm; [|account Hl Hm..]. cbn -[shown]. destruct (limited resp); account Hl Hm.
  - unfold HttpApi.report, map_err. call_limiter Hm; account Hl Hm.
Qed.

Lemma due_in_cons name ns c code answers :
  due_in name ns ((c, code) :: answers) = (if bool_decide (call_domain c = ns) then due name (c, code) else 0) + due_in name ns answers.
Proof. done. Qed.

(** C21: the metrics account for the answers.  Whatever calls of the two gRPC services and
    of the HTTP handlers that check or count arrive, over any limiter, failing and
    panicking handlers included, the series Prometheus shows for a namespace grow by
    exactly what was answered there: one authorized call per request or reservation let
    through, one limited call per one refused, one report call per report or commit, and
    the hits that were counted.  [/check] and [/report] of the HTTP API show nowhere.
    No configured label may take the name [limitador_namespace]. *)
Theorem metrics_account self cfg calls w :
  labels_ok self ->
  exists answers w', serve cfg calls w = (Ok answers, w') /\ answers.*1 = calls /\
    forall name ns, shown self (svc_metrics (w_state w')) name ns =
                    shown self (svc_metrics (w_state w)) name ns + due_in name ns answers.
Proof.
  intros Hl. unfold serve. revert w. induction calls as [|c calls IH]; intros w.
  { exists [], w. split_and!; [done|done|]. intros name ns. unfold due_in. simpl. lia. }
  destruct (answer_accounted self cfg c w Hl) as (code & w1 & log & Ha & Hm & Hs1).
  destruct (IH w1) as (answers & w' & Hr & Hc & Hs). exists ((c, code) :: answers), w'. split_and!; [|by rewrite fmap_cons, Hc|].
  - cbn [mapM]. unfold bind at 1. unfold bind at 1. rewrite Ha. simpl. unfold bind at 1. by rewrite Hr.
  - intros name ns. rewrite Hs, Hm, shown_app, Hs1, due_in_cons. lia.
Qed.
End prometheus.

#[local] Existing Instance demo_engine.
#[local] Existing Instance demo_hash_order.
#[local] Existing Instance gmap_moka.
#[local] Existing Instance demo_wire.

(** Two requests of 6 hits on a limit of 10, one of which is refused, and one over HTTP. *)
Definition demo_calls : list Call :=
  [ShouldRateLimit (rls_request 6); ShouldRateLimit (rls_request 6);
   HttpCheckAndReport (mkInfo "ns" {["req.method" := "POST"]} 3 None)]%string.

Lemma metrics_account_witness : exists answers w',
  serve (LO := blocking_limiter in_memory_counter_storage) rls_config demo_calls
      (mkWorld (mkService rls_limiter []) (fun _ => demo_time) 0) = (Ok answers, w') /\
  answers.*2 = [Some CodeOk; Some CodeOverLimit; Some CodeOk] /\
  shown (new_with_options true None) (svc_metrics (w_state w')) "authorized_calls" "ns" = 2 /\
  shown (new_with_options true None) (svc_metrics (w_state w')) "authorized_hits" "ns" = 9 /\
  shown (new_with_options true None) (svc_metrics (w_state w')) "limited_calls" "ns" = 1.
Proof.
  set (w := mkWorld (mkService rls_limiter []) (fun _ => demo_time) 0).
  destruct (metrics_account (LO := blocking_limiter in_memory_counter_storage) (new_with_options true None) rls_config demo_calls w) as (answers & w' & Hr & Hc & Hs).
  { intros ctx. apply not_elem_of_nil. }
  exists answers, w'.
  assert (Ha : answers.*2 = [Some CodeOk; Some CodeOverLimit; Some CodeOk]).
  { assert (Hf : match (serve (LO := blocking_limiter in_memory_counter_storage) rls_config demo_calls w).1 with
                 | Ok a => a.*2 | _ => [] end = [Some CodeOk; Some CodeOverLimit; Some CodeOk]) by vm_refl.
    rewrite Hr in Hf. exact Hf. }
  split_and!; [exact Hr|exact Ha|..]; rewrite Hs;
    (destruct answers as [|[c1 a1] [|[c2 a2] [|[c3 a3] [|]]]]; try discriminate Hc; injection Hc as -> -> ->;
     injection Ha as -> -> ->; reflexivity).
Defined.
