(* ===== verification/Server.v ===== *)
(** * Loading and watching the limits file: [limitador-server/src/main.rs]

    The server loads the limits at start-up and whenever the watcher reports that the
    file, or the target of the link it is, may have changed; the labels of the metrics
    come from a second file that is watched in the same way.  The file system and
    [serde_yaml] are the class [Files].  The callback of the watcher decides which
    files to load again ([on_file_event]) and spawns a task for each ([run_task]). *)

From S2P Require Import Prelude Cel Errors Limit Counter Reservation Storage AsyncStorage.
From S2P Require Import AsyncRateLimiter RateLimiter EnvoyRls HttpApi PrometheusMetrics.

Section server.
Context {CE : CelEngine} {HO : HashOrder} {WI : Wire}.

(** Opening a file gives an error's text or the contents; parsing them an error's text
    or the value. *)
Class Files : Type := {
  Fs : Type;
  fs_open : Fs -> string -> string + string;
  canonicalize : Fs -> string -> option string;
  yaml_limits : string -> string + list Limit;
  yaml_labels : string -> string + gmap string string
}.

Inductive LimitadorServerError : Type :=
| ConfigFile (msg : string)
| Internal (e : LimitadorError).

Definition display_server_error (e : LimitadorServerError) : string :=
  match e with
  | ConfigFile msg => "Invalid limit file: " +:+ msg
  | Internal e => "Internal error: " +:+ display_limitador_error e
  end.

(** [enum Limiter], as far as configuration goes. *)
Class LimiterConfig (L : Type) : Type := {
  l_configure_with : list Limit -> M L LimitadorError unit
}.

Definition blocking_config {St} (CS : CounterStorage St) : LimiterConfig (RateLimiter St) :=
  {| l_configure_with := RateLimiter.configure_with |}.

Definition async_config {St} (AS : AsyncStorage.AsyncCounterStorage St) : LimiterConfig (RateLimiter St) :=
  {| l_configure_with := AsyncRateLimiter.configure_with |}.

Context {FI : Files} {L : Type} {LC : LimiterConfig L}.

Definition load_limits_from_file (fs : Fs) (path : string) : M L LimitadorServerError unit :=
  match fs_open fs path with
  | inr f =>
      match yaml_limits f with
      | inr limits => map_err Internal (l_configure_with limits)
      | inl e => throw (ConfigFile ("Couldn't parse: " +:+ e))
      end
  | inl e => throw (ConfigFile ("Couldn't read file '" +:+ path +:+ "': " +:+ e))
  end.

(** A label whose expression does not parse is left out. *)
Definition parse_custom_labels_file (fs : Fs) (path : string) : string + gmap string Expression :=
  match fs_open fs path with
  | inr f =>
      match yaml_labels f with
      | inr labels => inr (omap (fun v => match expression_parse v with Ok expr => Some expr | _ => None end) labels)
      | inl e => inl ("Couldn't parse: " +:+ e)
      end
  | inl e => inl ("Couldn't read file '" +:+ path +:+ "': " +:+ e)
  end.

(** ** The watcher *)

(** What the callback and the tasks share. *)
Record Server : Type := mkServer {
  srv_limiter : L;
  srv_status : ServerStatus;
  srv_labels : PrometheusMetrics;
  canonical_cfg : string;
  labels_canonical_cfg : option string
}.

Definition on_srv_limiter {E A} (m : M L E A) : M Server E A :=
  zoom srv_limiter (fun l s => mkServer l (srv_status s) (srv_labels s) (canonical_cfg s) (labels_canonical_cfg s)) m.

Definition on_srv_status {E A} (m : M ServerStatus E A) : M Server E A :=
  zoom srv_status (fun st s => mkServer (srv_limiter s) st (srv_labels s) (canonical_cfg s) (labels_canonical_cfg s)) m.

Inductive EventKind : Type := ModifyData | ModifyNameBoth | CreateOther | OtherKind.

Record FileEvent : Type := mkFileEvent {
  fe_kind : EventKind;
  fe_paths : list string
}.

Inductive Task : Type := ReloadLimits | ReloadLabels.

Definition relevant (k : EventKind) : bool := match k with OtherKind => false | _ => true end.

Definition check_limits_file {E} (fs : Fs) (limit_cfg location : string) : M Server E (list Task) :=
  match canonicalize fs limit_cfg with
  | None => ret []
  | Some actual_location =>
      let* s := get in
      if bool_decide (location = limit_cfg) || negb (bool_decide (canonical_cfg s = actual_location)) then
        put (mkServer (srv_limiter s) (srv_status s) (srv_labels s) actual_location (labels_canonical_cfg s)) ;;;
        ret [ReloadLimits]
      else ret []
  end.

Definition check_labels_file {E} (fs : Fs) (labels_cfg : option string) (location : string) : M Server E (list Task) :=
  match labels_cfg with
  | None => ret []
  | Some labels_cfg =>
      match canonicalize fs labels_cfg with
      | None => ret []
      | Some actual_location =>
          let* s := get in
          let* moved :=
            if bool_decide (location = labels_cfg) then ret true
            else match labels_canonical_cfg s with
                 | None => lift (Panic "called `Option::unwrap()` on a `None` value")
                 | Some c => ret (negb (bool_decide (c = actual_location)))
                 end in
          if moved : bool then
            put (mkServer (srv_limiter s) (srv_status s) (srv_labels s) (canonical_cfg s) (Some actual_location)) ;;;
            ret [ReloadLabels]
          else ret []
      end
  end.

(** The callback: [None] is an error of the watcher. *)
Definition on_file_event {E} (fs : Fs) (limit_cfg : string) (labels_cfg : option string) (result : option FileEvent)
    : M Server E (list Task) :=
  match result with
  | None => ret []
  | Some event =>
      if relevant (fe_kind event) then
        match head (fe_paths event) with
        | None => ret []
        | Some location =>
            let* limits := check_limits_file fs limit_cfg location in
            let* labels := check_labels_file fs labels_cfg location in
            ret (limits ++ labels)
        end
      else ret []
  end.

Definition reload_limits {E} (fs : Fs) (limit_cfg : string) : M Server E unit :=
  let* r := attempt (on_srv_limiter (load_limits_from_file fs limit_cfg)) in
  match r with
  | inl _ => on_srv_status config_success
  | inr _ => on_srv_status config_failure
  end.

Definition reload_labels {E} (fs : Fs) (labels_cfg : string) : M Server E unit :=
  match parse_custom_labels_file fs labels_cfg with
  | inr labels =>
      let* s := get in
      put (mkServer (srv_limiter s) (srv_status s) (set_custom_labels (srv_labels s) labels)
             (canonical_cfg s) (labels_canonical_cfg s))
  | inl _ => ret tt
  end.

Definition run_task {E} (fs : Fs) (limit_cfg : string) (labels_cfg : option string) (t : Task) : M Server E unit :=
  match t with
  | ReloadLimits => reload_limits fs limit_cfg
  | ReloadLabels => match labels_cfg with Some labels_cfg => reload_labels fs labels_cfg | None => ret tt end
  end.

(** Events one after the other, each with the file system as it then is; the tasks an
    event spawns have run before the next one. *)
Definition watch {E} (limit_cfg : string) (labels_cfg : option string) (evs : list (Fs * option FileEvent)) : M Server E unit :=
  for_each (fun ev =>
      let* tasks := on_file_event ev.1 limit_cfg labels_cfg ev.2 in
      for_each (run_task ev.1 limit_cfg labels_cfg) tasks) evs.
End server.
