(* ===== verification/ServerSpec.v ===== *)
(** * The configuration follows the limits file

    Over any sequence of file events, the limits configured are those of the last
    version of the file that could be loaded, and the status the server reports counts
    the loads that succeeded and those that failed since. *)

From S2P Require Import Prelude Cel Errors Limit Counter Reservation Storage AsyncStorage.
From S2P Require Import AsyncRateLimiter RateLimiter Configure EnvoyRls HttpApi PrometheusMetrics Server.
From S2P Require Import Moka InMemory InMemorySpec EnvoyRlsSpec.

Section watching.
Context {CE : CelEngine} {HO : HashOrder} {WI : Wire} {FI : Files}.
Context {St : Type} {CS : CounterStorage St} {IN : InfallibleLimits St}.
Abbreviation Srv := (Server (L := RateLimiter St)).
#[local] Existing Instance blocking_config.
Implicit Types (fs : Fs) (w : World Srv) (m : gmap LimitKey Limit) (e : option FileEvent).

(** What the file holds: nothing if it cannot be opened or parsed. *)
Definition file_limits fs (path : string) : option (list Limit) :=
  match fs_open fs path with
  | inr f => match yaml_limits f with inr limits => Some limits | inl _ => None end
  | inl _ => None
  end.

(** The target the watcher sees if it has to load the file again. *)
Definition must_load (limit_cfg canonical : string) fs e : option string :=
  ev ← e;
  if relevant (fe_kind ev) then
    location ← head (fe_paths ev);
    actual ← canonicalize fs limit_cfg;
    if bool_decide (location = limit_cfg \/ canonical <> actual) then Some actual else None
  else None.

(** The loads a sequence of events leads to. *)
Fixpoint loads (limit_cfg canonical : string) (evs : list (Fs * option FileEvent)) : list (option (list Limit)) :=
  match evs with
  | [] => []
  | (fs, e) :: evs =>
      match must_load limit_cfg canonical fs e with
      | Some actual => file_limits fs limit_cfg :: loads limit_cfg actual evs
      | None => loads limit_cfg canonical evs
      end
  end.

(** The failures since the last success. *)
Fixpoint failures (n : Z) (l : list (option (list Limit))) : Z :=
  match l with
  | [] => n
  | Some _ :: l => failures 0 l
  | None :: l => failures (n + 1) l
  end.

Definition srv_refines (s : Srv) m : Prop := refines (st_limits (rl_storage (srv_limiter s))) m.

(** The limits after a load: those of the file over those of [m], or those of [m] if the
    file could not be loaded. *)
Definition after_load m (l : option (list Limit)) : gmap LimitKey Limit :=
  match l with Some limits => reloaded m limits | None => m end.

(** The limits of [m'] are, as far as identities go, those of the file, or those of [m] if
    nothing was loaded. *)
Definition loaded (l : option (list Limit)) m m' : Prop :=
  match l with
  | Some limits => forall k, is_Some (m' !! k) <-> is_Some (first_with limits k)
  | None => m' = m
  end.

Lemma after_load_loaded m l : loaded l m (after_load m l).
Proof. destruct l as [limits|]; [|done]. intros k. apply reloaded_some. Qed.

Lemma reload_limits_run {E} fs limit_cfg w m :
  srv_refines (w_state w) m ->
  exists w', reload_limits (E := E) fs limit_cfg w = (Ok tt, w') /\
    srv_refines (w_state w') (after_load m (file_limits fs limit_cfg)) /\
    canonical_cfg (w_state w') = canonical_cfg (w_state w) /\
    labels_canonical_cfg (w_state w') = labels_canonical_cfg (w_state w) /\
    let st := srv_status (w_state w) in
    let st' := srv_status (w_state w') in
    match file_limits fs limit_cfg with
    | Some _ => config_version st' = u64_add (config_version st) 1 /\ config_err_since st' = 0
    | None => config_version st' = config_version st /\ config_err_since st' = u64_add (config_err_since st) 1
    end.
Proof.
  destruct w as [s cl n]. intros Hm. unfold reload_limits, file_limits, load_limits_from_file, attempt, bind, on_srv_limiter, zoom. simpl.
  destruct (fs_open fs limit_cfg) as [err|f]; simpl; [eexists _; by split_and!|].
  destruct (yaml_limits f) as [err|limits]; simpl; [eexists _; by split_and!|].
  destruct (configure_with_reloaded limits (mkWorld (srv_limiter s) cl n) m Hm) as (w' & R & Hm').
  unfold map_err. simpl. rewrite R. simpl. eexists _. by split_and!.
Qed.

(** Everything but the labels is as before. *)
Definition same_core (s s' : Srv) : Prop :=
  srv_limiter s' = srv_limiter s /\ srv_status s' = srv_status s /\ canonical_cfg s' = canonical_cfg s.

(** The target of the labels file is known if there is one. *)
Definition labels_known (labels_cfg : option string) (s : Srv) : Prop :=
  is_Some labels_cfg -> is_Some (labels_canonical_cfg s).

Lemma check_labels_run {E} fs labels_cfg location w :
  labels_known labels_cfg (w_state w) ->
  exists tasks w', check_labels_file (E := E) fs labels_cfg location w = (Ok tasks, w') /\
    Forall (fun t => t = ReloadLabels) tasks /\ same_core (w_state w) (w_state w') /\ labels_known labels_cfg (w_state w').
Proof.
  destruct w as [s cl n]. simpl. intros Hk. unfold check_labels_file. destruct labels_cfg as [lc|]; [|by eexists [], _].
  destruct (canonicalize fs lc) as [actual|]; [|by eexists [], _]. destruct Hk as [c Hc]; [done|].
  unfold bind at 1, get. simpl. unfold bind at 1. rewrite Hc.
  case_bool_decide; simpl; [eexists [ReloadLabels], _; by split_and!; [|constructor| |eexists]|].
  case_bool_decide; simpl; [by eexists [], _; split_and!; [..|intros _; eexists]|].
  eexists [ReloadLabels], _. by split_and!; [|constructor| |eexists].
Qed.

Lemma labels_tasks_run {E} fs limit_cfg labels_cfg tasks w :
  Forall (fun t => t = ReloadLabels) tasks -> labels_known labels_cfg (w_state w) ->
  exists w', for_each (run_task (E := E) fs limit_cfg labels_cfg) tasks w = (Ok tt, w') /\
    same_core (w_state w) (w_state w') /\ labels_known labels_cfg (w_state w').
Proof.
  intros Ht. revert w. induction Ht as [|t tasks -> Ht IH]; intros w Hk; [by exists w|].
  assert (exists w1, run_task (E := E) fs limit_cfg labels_cfg ReloadLabels w = (Ok tt, w1) /\
    same_core (w_state w) (w_state w1) /\ labels_known labels_cfg (w_state w1)) as (w1 & R1 & (C1 & C2 & C3) & K1).
  { simpl. destruct labels_cfg as [lc|]; [|by exists w]. unfold reload_labels.
    destruct (parse_custom_labels_file fs lc); [by exists w|]. eexists. by split_and!. }
  destruct (IH w1 K1) as (w2 & R2 & (D1 & D2 & D3) & K2). exists w2. simpl. rewrite (bind_ok _ _ _ _ _ R1).
  split_and!; [done| |done]. unfold same_core. by rewrite D1, D2, D3.
Qed.

(** What an event and its tasks do. *)
Definition on_event {E} limit_cfg labels_cfg (ev : Fs * option FileEvent) : M Srv E unit :=
  let* tasks := on_file_event ev.1 limit_cfg labels_cfg ev.2 in
  for_each (run_task ev.1 limit_cfg labels_cfg) tasks.

Definition status_counts (l : option (list Limit)) (st st' : ServerStatus) : Prop :=
  match l with
  | Some _ => config_version st' = u64_add (config_version st) 1 /\ config_err_since st' = 0
  | None => config_version st' = config_version st /\ config_err_since st' = u64_add (config_err_since st) 1
  end.

Lemma event_run {E} limit_cfg labels_cfg fs e w m :
  srv_refines (w_state w) m -> labels_known labels_cfg (w_state w) ->
  exists w' m', on_event (E := E) limit_cfg labels_cfg (fs, e) w = (Ok tt, w') /\
    srv_refines (w_state w') m' /\ labels_known labels_cfg (w_state w') /\
    match must_load limit_cfg (canonical_cfg (w_state w)) fs e with
    | Some actual => canonical_cfg (w_state w') = actual /\ m' = after_load m (file_limits fs limit_cfg) /\
        status_counts (file_limits fs limit_cfg) (srv_status (w_state w)) (srv_status (w_state w'))
    | None => m' = m /\ canonical_cfg (w_state w') = canonical_cfg (w_state w) /\
        srv_status (w_state w') = srv_status (w_state w)
    end.
Proof.
  intros Hm Hk. unfold on_event, on_file_event, must_load. cbn [fst snd].
  destruct e as [ev|]; [|by exists w, m]. simpl. destruct (relevant (fe_kind ev)); [|by exists w, m].
  destruct (head (fe_paths ev)) as [location|]; simpl; [|by exists w, m].
  set (go := match canonicalize fs limit_cfg with
             | Some actual => if bool_decide (location = limit_cfg \/ canonical_cfg (w_state w) <> actual) then Some actual else None
             | None => None end).
  replace (canonicalize fs limit_cfg ≫= _) with go by (by destruct (canonicalize fs limit_cfg)).
  set (w0 := match go with
             | Some actual => mkWorld (mkServer (srv_limiter (w_state w)) (srv_status (w_state w)) (srv_labels (w_state w)) actual
                                (labels_canonical_cfg (w_state w))) (w_clock w) (w_tick w)
             | None => w end).
  assert (R0 : check_limits_file (E := E) fs limit_cfg location w = (Ok (match go with Some _ => [ReloadLimits] | None => [] end), w0)).
  { unfold check_limits_file, w0, go. destruct (canonicalize fs limit_cfg) as [actual|]; [|done].
    unfold bind at 1, get. simpl. rewrite <-bool_decide_not, <-bool_decide_or.
    destruct (bool_decide _); done. }
  assert (Hm0 : srv_refines (w_state w0) m /\ labels_known labels_cfg (w_state w0) /\ srv_status (w_state w0) = srv_status (w_state w) /\
    canonical_cfg (w_state w0) = default (canonical_cfg (w_state w)) go) by (unfold w0; by destruct go).
  destruct Hm0 as (Hm0 & Hk0 & Hs0 & Hc0).
  destruct (check_labels_run (E := E) fs labels_cfg location w0 Hk0) as (tasks & w1 & R1 & Ht & (C1 & C2 & C3) & K1).
  rewrite bind_assoc, (bind_ok _ _ _ _ _ R0), bind_assoc, (bind_ok _ _ _ _ _ R1), bind_ret_l.
  assert (Hm1 : srv_refines (w_state w1) m) by (unfold srv_refines; by rewrite C1).
  destruct go as [actual|]; simpl.
  - destruct (reload_limits_run (E := E) fs limit_cfg w1 m Hm1) as (w2 & R2 & Hm2 & Hcan & Hlab & Hst).
    destruct (labels_tasks_run (E := E) fs limit_cfg labels_cfg tasks w2 Ht) as (w3 & R3 & (D1 & D2 & D3) & K3).
    { unfold labels_known. by rewrite Hlab. }
    eexists w3, _. rewrite (bind_ok _ _ _ _ _ R2). split_and!; [done|unfold srv_refines; by rewrite D1|done|by rewrite D3, Hcan, C3, Hc0|done|].
    unfold status_counts. rewrite D2, <-Hs0, <-C2. exact Hst.
  - destruct (labels_tasks_run (E := E) fs limit_cfg labels_cfg tasks w1 Ht K1) as (w3 & R3 & (D1 & D2 & D3) & K3).
    exists w3, m. split_and!; [done|unfold srv_refines; by rewrite D1|done|done|by rewrite D3, C3, Hc0|by rewrite D2, C2].
Qed.

Lemma loaded_last (l : option (list Limit)) ls m m1 m2 :
  loaded l m m1 -> loaded (last (omap id ls)) m1 m2 -> loaded (last (omap id (l :: ls))) m m2.
Proof.
  intros H1 H2. destruct l as [limits|].
  - change (omap id (Some limits :: ls)) with (limits :: omap id ls). rewrite last_cons.
    destruct (last (omap id ls)); [done|]. simpl in H2. by subst m2.
  - simpl in H1. subst m1. exact H2.
Qed.

(** C20: the configuration follows the limits file, over a counter storage whose
    [add_counter] and [delete_counters] succeed.  Whatever the watcher reports, in
    whatever order, the server keeps running.  The identities configured are exactly
    those of the last version of the file that was loaded, a version that cannot be
    opened or parsed changing nothing.  The limits themselves are what the versions
    loaded make of each other ([reloaded]): a limit has the [max_value] and [name] of the
    last version, unless its namespace had more limits before that version was loaded;
    then a limit that was there keeps what it had.  The status counts the versions loaded
    and the failures since the last one.  A version is loaded when an event names the
    file or when the target of the link it is has changed. *)
Theorem config_follows_file {E} limit_cfg labels_cfg evs w m :
  let st := srv_status (w_state w) in
  srv_refines (w_state w) m -> labels_known labels_cfg (w_state w) ->
  0 <= config_version st -> 0 <= config_err_since st ->
  config_version st + Z.of_nat (length evs) <= u64_max -> config_err_since st + Z.of_nat (length evs) <= u64_max ->
  exists w' m', watch (E := E) limit_cfg labels_cfg evs w = (Ok tt, w') /\ srv_refines (w_state w') m' /\
    let ls := loads limit_cfg (canonical_cfg (w_state w)) evs in
    m' = foldl after_load m ls /\ loaded (last (omap id ls)) m m' /\
    config_version (srv_status (w_state w')) = config_version st + Z.of_nat (length (omap id ls)) /\
    config_err_since (srv_status (w_state w')) = failures (config_err_since st) ls.
Proof.
  unfold watch. revert w m. induction evs as [|[fs e] evs IH]; intros w m Hm Hk Hv He Hvm Hem.
  { exists w, m. simpl. split_and!; [done|done|done|done|lia|done]. }
  destruct (event_run (E := E) limit_cfg labels_cfg fs e w m Hm Hk) as (w1 & m1 & R1 & Hm1 & K1 & Hev).
  cbn [for_each loads length] in *. unfold on_event in R1. rewrite (bind_ok _ _ _ _ _ R1).
  destruct (must_load limit_cfg (canonical_cfg (w_state w)) fs e) as [actual|].
  - destruct Hev as (Hcan & Hafter & Hst). pose proof (after_load_loaded m (file_limits fs limit_cfg)) as Hl.
    rewrite <-Hafter in Hl. destruct (file_limits fs limit_cfg) as [limits|] eqn:Hf; destruct Hst as [Hv1 He1];
      rewrite u64_add_small in * by (unfold u64_max in *; lia).
    + destruct (IH w1 m1) as (w' & m' & R & Hm' & Hfold & Hll & Hvv & Hee); [done|done|lia|lia|lia|unfold u64_max in *; lia|].
      exists w', m'. rewrite <-Hcan. split_and!; [done|done|by rewrite Hfold, Hafter|by apply (loaded_last (Some limits) _ m m1)| |].
      * rewrite Hvv, Hv1. change (omap id (Some limits :: ?l)) with (limits :: omap id l). cbn [length]. lia.
      * rewrite Hee, He1. done.
    + destruct (IH w1 m1) as (w' & m' & R & Hm' & Hfold & Hll & Hvv & Hee); [done|done|lia|lia|lia|lia|].
      exists w', m'. rewrite <-Hcan. split_and!; [done|done|by rewrite Hfold, Hafter|by apply (loaded_last None _ m m1)| |].
      * rewrite Hvv, Hv1. done.
      * rewrite Hee, He1. done.
  - destruct Hev as (-> & Hcan & Hst). destruct (IH w1 m) as (w' & m' & R & Hm' & Hfold & Hll & Hvv & Hee); [done|done|rewrite Hst; lia..|].
    exists w', m'. rewrite <-Hcan, <-Hst. done.
Qed.
End watching.

#[local] Existing Instance demo_engine.
#[local] Existing Instance demo_hash_order.
#[local] Existing Instance gmap_moka.
#[local] Existing Instance demo_wire.

(** Files as a map, links kept under a name of their own, and a format with two documents. *)
Definition demo_files : Files := {|
  Fs := gmap string string;
  fs_open fs path := match fs !! path with Some f => inr f | None => inl "No such file"%string end;
  canonicalize fs path := Some (default path (fs !! ("link " +:+ path)));
  yaml_limits f := if bool_decide (f = "ten"%string) then inr [rls_limit]
                   else if bool_decide (f = "none"%string) then inr [] else inl "invalid type"%string;
  yaml_labels f := inr ∅
|}.

#[local] Existing Instance demo_files.

Definition demo_server : Server (L := RateLimiter InMemoryStorage) :=
  mkServer (mkRateLimiter (mkStorage ∅ (in_memory_new 10)) reservation_limits_default)
    (mkServerStatus 0 0 0 0) (new_with_options false None) "limits.yaml" None.

(** An event that names the file, one about the directory after the link has moved, and a
    last one with a file that does not parse. *)
Definition demo_events : list (gmap string string * option FileEvent) :=
  [({["limits.yaml" := "none"]}, Some (mkFileEvent ModifyData ["limits.yaml"]));
   (<["link limits.yaml" := "v2/limits.yaml"]> {["limits.yaml" := "ten"]}, Some (mkFileEvent CreateOther ["..data"]));
   (<["link limits.yaml" := "v2/limits.yaml"]> {["limits.yaml" := "ten"]}, Some (mkFileEvent CreateOther ["..data"]));
   ({["limits.yaml" := "{"]}, Some (mkFileEvent ModifyData ["limits.yaml"]))]%string.

Lemma config_follows_file_witness : exists w',
  watch (FI := demo_files) (E := Status) (LC := blocking_config in_memory_counter_storage) "limits.yaml" None demo_events
    (mkWorld demo_server (fun _ => demo_time) 0) = (Ok tt, w') /\
  srv_refines (w_state w') (reloaded (reloaded ∅ []) [rls_limit]) /\
  config_version (srv_status (w_state w')) = 2 /\ config_err_since (srv_status (w_state w')) = 1.
Proof.
  destruct (config_follows_file (FI := demo_files) (E := Status) "limits.yaml" None demo_events (mkWorld demo_server (fun _ => demo_time) 0) ∅)
    as (w' & m' & R & Hm & Hfold & _ & Hv & He).
  - apply refines_empty.
  - by intros [].
  - done.
  - done.
  - vm_compute. discriminate.
  - vm_compute. discriminate.
  - exists w'. split_and!; [exact R| |rewrite Hv; vm_compute; reflexivity|rewrite He; vm_compute; reflexivity].
    rewrite Hfold in Hm. exact Hm.
Defined.
