(* ===== verification/ServerConfig.v ===== *)
(** * Command line and environment: [limitador-server/src/config.rs] and [main.rs]

    [cmdline] is the command [create_config] declares: its arguments, their defaults (which
    the environment may replace) and their value parsers.  The [clap] library, which is
    not part of the program, is the parameter [Clap]; what [create_config] relies on is [ClapSpec]:
    an argument holds the value given on the command line, else its default, as its parser
    reads it.  [limiter_new] is the choice [Limiter::new] makes: which storage is built, and
    with which parameters. *)

From Stdlib Require Import Ascii SpecFloat.
From S2P Require Import Prelude Cel Errors Limit Counter Reservation Storage EnvoyRls Redis RedisCached Server ServerSpec.

(** ** Numbers *)

Definition digit_of (c : Ascii.ascii) : option Z :=
  let n := Z.of_nat (Ascii.nat_of_ascii c) - 48 in
  if (0 <=? n) && (n <=? 9) then Some n else None.

Fixpoint parse_digits (s : string) (acc : Z) : option Z :=
  match s with
  | EmptyString => Some acc
  | String c s => d ← digit_of c; parse_digits s (10 * acc + d)
  end.

(** [str::parse] for an unsigned type with maximum [max]: digits after an optional plus. *)
Definition parse_unsigned (max : Z) (s : string) : option Z :=
  let digits := match s with String "+"%char s => s | s => s end in
  if bool_decide (digits = EmptyString) then None
  else v ← parse_digits digits 0; if v <=? max then Some v else None.

Definition i64_max : Z := 9223372036854775807.

(** [str::parse::<i64>] *)
Definition parse_i64 (s : string) : option Z :=
  match s with
  | String "-"%char s => if bool_decide (s = EmptyString) then None
                    else v ← parse_digits s 0; if v <=? i64_max + 1 then Some (- v) else None
  | s => parse_unsigned i64_max s
  end.

(** [str::parse::<f64>]: a sign, then [inf], [infinity], [nan] or decimal digits with an
    optional point and exponent, correctly rounded. *)
Definition lower (c : Ascii.ascii) : Ascii.ascii :=
  let n := Ascii.nat_of_ascii c in
  if (Nat.leb 65 n && Nat.leb n 90)%bool then Ascii.ascii_of_nat (n + 32) else c.

Fixpoint to_lower (s : string) : string :=
  match s with EmptyString => EmptyString | String c s => String (lower c) (to_lower s) end.

(** The value of the leading digits, their number, and what follows. *)
Fixpoint scan_digits (s : string) (acc n : Z) : Z * Z * string :=
  match s with
  | String c s' => match digit_of c with
                   | Some d => scan_digits s' (10 * acc + d) (n + 1)
                   | None => (acc, n, s)
                   end
  | EmptyString => (acc, n, s)
  end.

Definition parse_exponent (s : string) : option Z :=
  match s with
  | EmptyString => Some 0
  | String c s =>
      if bool_decide (lower c = "e"%char) then
        let '(neg, digits) := match s with
                              | String "-"%char s => (true, s) | String "+"%char s => (false, s) | s => (false, s)
                              end in
        match scan_digits digits 0 0 with
        | (v, n, EmptyString) => if n =? 0 then None else Some (if neg : bool then - v else v)
        | _ => None
        end
      else None
  end.

(** [± m · 10^e], rounded to nearest even *)
Definition f64_of_decimal (neg : bool) (m e : Z) : f64 :=
  match m with
  | Zpos p =>
      if 0 <=? e then binary_normalize 53 1024 ((if neg then Z.opp else id) (m * 10 ^ e)) 0 neg
      else SFdiv 53 1024 (S754_finite neg p 0) (S754_finite false (Z.to_pos (10 ^ (- e))) 0)
  | _ => S754_zero neg
  end.

Definition parse_f64 (s : string) : option f64 :=
  let '(neg, s) := match s with
                   | String "-"%char s => (true, s) | String "+"%char s => (false, s) | s => (false, s)
                   end in
  let name := to_lower s in
  if bool_decide (name = "inf"%string) || bool_decide (name = "infinity"%string) then Some (S754_infinity neg)
  else if bool_decide (name = "nan"%string) then Some S754_nan
  else
    let '(a, na, r) := scan_digits s 0 0 in
    let '(b, nb, r) := match r with String "."%char r => scan_digits r a 0 | r => (a, 0, r) end in
    if na + nb =? 0 then None
    else e ← parse_exponent r; Some (f64_of_decimal neg b (e - nb)).

(** [0.5] *)
Definition f64_half : f64 := S754_finite false 4503599627370496 (-53).

(** ** Storage configuration *)

Inductive OptimizeFor : Type := Space | Throughput.

Record RedisStorageCacheConfiguration : Type := mkCacheConfiguration {
  cfg_batch_size : Z;
  cfg_flushing_period : Z;
  cfg_max_counters : Z;
  cfg_response_timeout : Z
}.

Inductive StorageConfiguration : Type :=
| CfgInMemory (cache_size : option Z)
| CfgDisk (path : string) (optimization : OptimizeFor)
| CfgRedis (url : string) (cache : option RedisStorageCacheConfiguration)
| CfgDistributed (name : string) (cache_size : option Z) (listen_address : string) (peer_urls : list string).

Definition DEFAULT_FLUSHING_PERIOD_SEC : Z := 1.
Definition DEFAULT_BATCH_SIZE : Z := 100.
Definition DEFAULT_MAX_CACHED_COUNTERS : Z := 10000.
Definition DEFAULT_RESPONSE_TIMEOUT_MS : Z := 350.

(** [std::env::var] *)
Abbreviation Env := (string -> option string) (only parsing).

Definition env_option_is_enabled (env : Env) (name : string) : bool :=
  match env name with Some value => bool_decide (value = "1"%string) | None => false end.

Definition expect {E A} (msg : string) (o : option A) : Outcome E A :=
  match o with Some a => Ok a | None => Panic msg end.

Definition storage_config_from_env {E} (env : Env) : Outcome E StorageConfiguration :=
  match env "REDIS_URL"%string with
  | Some url =>
      if env_option_is_enabled env "REDIS_LOCAL_CACHE_ENABLED" then
        let? batch := expect "Expected an usize"
          (parse_unsigned u64_max (default (pretty DEFAULT_BATCH_SIZE) (env "REDIS_LOCAL_CACHE_BATCH_SIZE"%string))) in
        let? flush := expect "Expected an i64"
          (parse_i64 (default (pretty (DEFAULT_FLUSHING_PERIOD_SEC * 1000)) (env "REDIS_LOCAL_CACHE_FLUSHING_PERIOD_MS"%string))) in
        Ok (CfgRedis url (Some (mkCacheConfiguration batch flush DEFAULT_MAX_CACHED_COUNTERS DEFAULT_RESPONSE_TIMEOUT_MS)))
      else Ok (CfgRedis url None)
  | None => Ok (CfgInMemory None)
  end.

(** ** The declared command line *)

Inductive Parser : Type :=
| PString
| PRanged (lo hi : Z)
| PUnsigned (max : Z)
| PI64
| PExpression
| PFraction
| POneOf (allowed : list string).

Inductive ArgAction : Type := SetOne | SetTrue | Count (bound : Z) | Append.

Record Arg : Type := mkArg {
  arg_id : string;
  arg_action : ArgAction;
  arg_required : bool;
  arg_default : option string;
  arg_parser : Parser
}.

Record Command : Type := mkCommand {
  cmd_args : list Arg;
  subcommands : list (string * list Arg)
}.

Definition optional_arg (id : string) (p : Parser) : Arg := mkArg id SetOne false None p.
Definition default_arg (id dflt : string) (p : Parser) : Arg := mkArg id SetOne false (Some dflt) p.
Definition flag (id : string) : Arg := mkArg id SetTrue false None PString.

(** An argument that must be given unless a variable of the environment has a default for it. *)
Definition required_arg (env : Env) (id var : string) : Arg :=
  match env var with
  | None => mkArg id SetOne true None PString
  | Some v => mkArg id SetOne false (Some v) PString
  end.

Definition DEFAULT_RLS_PORT : string := "8081".
Definition DEFAULT_HTTP_PORT : string := "8080".
Definition DEFAULT_IP_BIND : string := "0.0.0.0".

Definition main_args (env : Env) : list Arg :=
  [ required_arg env "LIMITS_FILE" "LIMITS_FILE";
    default_arg "ip" (default DEFAULT_IP_BIND (env "ENVOY_RLS_HOST"%string)) PString;
    default_arg "port" (default DEFAULT_RLS_PORT (env "ENVOY_RLS_PORT"%string)) (PRanged 0 65535);
    default_arg "http_ip" (default DEFAULT_IP_BIND (env "HTTP_API_HOST"%string)) PString;
    default_arg "http_port" (default DEFAULT_HTTP_PORT (env "HTTP_API_PORT"%string)) (PRanged 0 65535);
    flag "limit_name_in_labels";
    optional_arg "custom_metric_labels" PString;
    optional_arg "metric_labels_default" PExpression;
    default_arg "tracing_endpoint" (default EmptyString (env "TRACING_ENDPOINT"%string)) PString;
    mkArg "v" (Count 5) false None (PRanged 0 4);
    flag "S";
    flag "validate";
    default_arg "rate_limit_headers" (default "NONE"%string (env "RATE_LIMIT_HEADERS"%string))
      (POneOf ["NONE"; "DRAFT_VERSION_03"]%string);
    flag "grpc_reflection_service";
    flag "disable_reservations";
    default_arg "max_reservation_fraction" "0.5" PFraction;
    default_arg "max_reservation_ttl" "60" (PUnsigned u64_max) ].

Definition memory_args : list Arg := [optional_arg "CACHE_SIZE" (PUnsigned u64_max)].

Definition disk_args (env : Env) : list Arg :=
  [ required_arg env "PATH" "DISK_PATH";
    default_arg "OPTIMIZE" (default "throughput"%string (env "DISK_OPTIMIZE"%string))
      (POneOf ["throughput"; "disk"]%string) ].

Definition redis_args (env : Env) : list Arg := [required_arg env "URL" "REDIS_URL"].

Definition redis_cached_args (env : Env) : list Arg :=
  [ required_arg env "URL" "REDIS_URL";
    default_arg "batch" (default (pretty DEFAULT_BATCH_SIZE) (env "REDIS_LOCAL_CACHE_BATCH_SIZE"%string))
      (PUnsigned u64_max);
    default_arg "flush"
      (default (pretty (DEFAULT_FLUSHING_PERIOD_SEC * 1000)) (env "REDIS_LOCAL_CACHE_FLUSHING_PERIOD_MS"%string)) PI64;
    default_arg "max" (pretty DEFAULT_MAX_CACHED_COUNTERS) (PUnsigned u64_max);
    default_arg "timeout" (pretty DEFAULT_RESPONSE_TIMEOUT_MS) (PUnsigned u64_max) ].

Definition distributed_args : list Arg :=
  [ mkArg "NAME" SetOne true None PString;
    mkArg "LISTEN_ADDRESS" SetOne true None PString;
    mkArg "PEER_URLS" Append false None PString;
    optional_arg "CACHE_SIZE" (PUnsigned u64_max) ].

Definition cmdline (env : Env) : Command :=
  mkCommand (main_args env)
    [ ("memory"%string, memory_args); ("disk"%string, disk_args env); ("redis"%string, redis_args env);
      ("redis_cached"%string, redis_cached_args env); ("distributed"%string, distributed_args) ].

(** ** What is matched *)

Inductive LevelFilter : Type := LevelOff | LevelError | LevelWarn | LevelInfo | LevelDebug | LevelTrace.

(** How the process goes on: it serves, exits with a code, or panics. *)
Inductive Startup (A : Type) : Type :=
| StartWith (a : A)
| ExitWith (code : Z)
| PanicWith (msg : string).
Arguments StartWith {A} a.
Arguments ExitWith {A} code.
Arguments PanicWith {A} msg.

Definition startup_bind {A B} (m : Startup A) (k : A -> Startup B) : Startup B :=
  match m with StartWith a => k a | ExitWith c => ExitWith c | PanicWith msg => PanicWith msg end.

Notation "'let!' x ':=' m 'in' k" := (startup_bind m (fun x => k))
  (at level 10, x name, m at level 100, k at level 200).

(** [(0.0..=1.0).contains(&fraction)] *)
Definition fraction_ok (x : f64) : bool := SFleb (S754_zero false) x && SFleb x f64_one.

Section config.
Context {CE : CelEngine} {WI : Wire} {FI : Files}.

Inductive Value : Type :=
| VString (s : string)
| VInt (z : Z)
| VBool (b : bool)
| VFloat (x : f64)
| VExpr (e : Expression)
| VMany (l : list string).

Record ArgMatches : Type := mkMatches {
  am_one : string -> option Value;
  am_sub : option (string * (string -> option Value))
}.

(** [clap]: what is given on a command line for an argument (of the subcommand, if any),
    and the matches, or the code the process exits with. *)
Class Clap : Type := {
  Argv : Type;
  given : Argv -> option string -> string -> option string;
  get_matches : Command -> Argv -> Z + ArgMatches
}.

Record Configuration : Type := mkConfiguration {
  limits_file : string;
  storage : StorageConfiguration;
  rls_host : string;
  rls_port : Z;
  http_host : string;
  http_port : Z;
  limit_name_in_labels : bool;
  metric_labels_file : option string;
  metric_labels_default : option Expression;
  tracing_endpoint : string;
  log_level : option LevelFilter;
  structured_logs : bool;
  cfg_rate_limit_headers : RateLimitHeaders;
  grpc_reflection_service : bool;
  cfg_disable_reservations : bool;
  max_reservation_fraction : f64;
  max_reservation_ttl : Duration
}.

Definition configuration_with (st : StorageConfiguration) (file rhost : string) (rport : Z)
    (hhost : string) (hport : Z) (name_in_labels : bool) (labels_file : option string)
    (labels_default : option Expression) (endpoint : string) (headers : RateLimitHeaders)
    (reflection : bool) : Configuration :=
  mkConfiguration file st rhost rport hhost hport name_in_labels labels_file
    labels_default endpoint None false headers reflection false f64_half (from_secs 60).

Definition rlp_address (self : Configuration) : string := rls_host self +:+ ":" +:+ pretty (rls_port self).
Definition http_address (self : Configuration) : string := http_host self +:+ ":" +:+ pretty (http_port self).

(** ** [get_one::<T>(id).unwrap()], [get_one::<T>(id).cloned()], [get_flag] and [get_count] *)

Definition one_string (v : option Value) : Startup string :=
  match v with Some (VString s) => StartWith s | _ => PanicWith "unwrap" end.
Definition one_int (v : option Value) : Startup Z :=
  match v with Some (VInt z) => StartWith z | _ => PanicWith "unwrap" end.
Definition one_float (v : option Value) : Startup f64 :=
  match v with Some (VFloat x) => StartWith x | _ => PanicWith "unwrap" end.
Definition one_flag (v : option Value) : Startup bool :=
  match v with Some (VBool b) => StartWith b | _ => PanicWith "unwrap" end.
Definition opt_string (v : option Value) : Startup (option string) :=
  match v with None => StartWith None | Some (VString s) => StartWith (Some s) | _ => PanicWith "mismatch" end.
Definition opt_int (v : option Value) : Startup (option Z) :=
  match v with None => StartWith None | Some (VInt z) => StartWith (Some z) | _ => PanicWith "mismatch" end.
Definition opt_expr (v : option Value) : Startup (option Expression) :=
  match v with None => StartWith None | Some (VExpr e) => StartWith (Some e) | _ => PanicWith "mismatch" end.
Definition many_string (v : option Value) : Startup (list string) :=
  match v with None => StartWith [] | Some (VMany l) => StartWith l | _ => PanicWith "mismatch" end.

Definition of_outcome {A} (o : Outcome Empty_set A) : Startup A :=
  match o with Ok a => StartWith a | Err e => match e with end | Panic msg => PanicWith msg end.

Definition optimize_of (o : string) : Startup OptimizeFor :=
  if bool_decide (o = "disk"%string) then StartWith Space
  else if bool_decide (o = "throughput"%string) then StartWith Throughput
  else PanicWith "Some disk OptimizeFor wasn't configured!".

(** [match matches.subcommand()] *)
Definition storage_of_matches (env : Env) (matched : option (string * (string -> option Value))) : Startup StorageConfiguration :=
  match matched with
  | None => of_outcome (storage_config_from_env env)
  | Some (name, sub) =>
      if bool_decide (name = "redis"%string) then
        let! url := one_string (sub "URL"%string) in StartWith (CfgRedis url None)
      else if bool_decide (name = "disk"%string) then
        let! path := one_string (sub "PATH"%string) in
        let! o := one_string (sub "OPTIMIZE"%string) in
        let! o := optimize_of o in
        StartWith (CfgDisk path o)
      else if bool_decide (name = "redis_cached"%string) then
        let! url := one_string (sub "URL"%string) in
        let! batch := one_int (sub "batch"%string) in
        let! flush := one_int (sub "flush"%string) in
        let! max := one_int (sub "max"%string) in
        let! timeout := one_int (sub "timeout"%string) in
        StartWith (CfgRedis url (Some (mkCacheConfiguration batch flush max timeout)))
      else if bool_decide (name = "memory"%string) then
        let! size := opt_int (sub "CACHE_SIZE"%string) in StartWith (CfgInMemory size)
      else if bool_decide (name = "distributed"%string) then
        let! name := one_string (sub "NAME"%string) in
        let! addr := one_string (sub "LISTEN_ADDRESS"%string) in
        let! urls := many_string (sub "PEER_URLS"%string) in
        let! size := opt_int (sub "CACHE_SIZE"%string) in
        StartWith (CfgDistributed name size addr urls)
      else PanicWith "Some storage wasn't configured!"
  end.

Definition headers_of_arg (s : string) : Startup RateLimitHeaders :=
  if bool_decide (s = "NONE"%string) then StartWith HeadersNone
  else if bool_decide (s = "DRAFT_VERSION_03"%string) then StartWith DraftVersion03
  else PanicWith "invalid --rate-limit-headers value".

Definition level_of_count (v : Z) : Startup (option LevelFilter) :=
  if v =? 0 then StartWith None
  else if v =? 1 then StartWith (Some LevelWarn)
  else if v =? 2 then StartWith (Some LevelInfo)
  else if v =? 3 then StartWith (Some LevelDebug)
  else if v =? 4 then StartWith (Some LevelTrace)
  else PanicWith "Verbosity should at most be 4!".

(** The value parsers of the declarations: the types' own, and the two closures. *)
Definition parse_value (p : Parser) (s : string) : option Value :=
  match p with
  | PString => Some (VString s)
  | PRanged lo hi => v ← parse_i64 s; if (lo <=? v) && (v <=? hi) then Some (VInt v) else None
  | PUnsigned max => VInt <$> parse_unsigned max s
  | PI64 => VInt <$> parse_i64 s
  | PExpression => match expression_parse s with Ok e => Some (VExpr e) | _ => None end
  | PFraction => x ← parse_f64 s; if fraction_ok x then Some (VFloat x) else None
  | POneOf allowed => if bool_decide (s ∈ allowed) then Some (VString s) else None
  end.

(** The value matched for an argument, from what the command line gives for it. *)
Definition arg_matched (g : string -> option string) (a : Arg) (v : option Value) : Prop :=
  match arg_action a with
  | SetOne =>
      match (match g (arg_id a) with Some s => Some s | None => arg_default a end) with
      | Some s => exists x, parse_value (arg_parser a) s = Some x /\ v = Some x
      | None => arg_required a = false /\ v = None
      end
  | SetTrue => exists b, v = Some (VBool b)
  | Count bound => exists n, v = Some (VInt n) /\ 0 <= n < bound
  | Append => v = None \/ exists l, v = Some (VMany l)
  end.

Class ClapSpec (C : Clap) : Prop :=
  clap_matched : forall cmd argv m, get_matches cmd argv = inr m ->
    Forall (fun a => arg_matched (given argv None) a (am_one m (arg_id a))) (cmd_args cmd) /\
    match am_sub m with
    | None => True
    | Some (name, sub) => exists args, (name, args) ∈ subcommands cmd /\
        Forall (fun a => arg_matched (given argv (Some name)) a (sub (arg_id a))) args
    end.

(** [--validate]: loads the file and exits. *)
Definition validate (fs : Fs) (path : string) : Z :=
  match fs_open fs path with
  | inr f => match yaml_limits f with inr _ => 0 | inl _ => 1 end
  | inl _ => 1
  end.

Context {CL : Clap}.

(** The configuration of a set of matches. *)
Definition config_of_matches (env : Env) (fs : Fs) (m : ArgMatches) : Startup Configuration :=
  let! file := one_string (am_one m "LIMITS_FILE"%string) in
  let! only_validate := one_flag (am_one m "validate"%string) in
  if only_validate then ExitWith (validate fs file) else
  let! st := storage_of_matches env (am_sub m) in
  let! headers := one_string (am_one m "rate_limit_headers"%string) in
  let! headers := headers_of_arg headers in
  let! rhost := one_string (am_one m "ip"%string) in
  let! rport := one_int (am_one m "port"%string) in
  let! hhost := one_string (am_one m "http_ip"%string) in
  let! hport := one_int (am_one m "http_port"%string) in
  let! in_labels := one_flag (am_one m "limit_name_in_labels"%string) in
  let! labels_file := opt_string (am_one m "custom_metric_labels"%string) in
  let! labels_default := opt_expr (am_one m "metric_labels_default"%string) in
  let! endpoint := one_string (am_one m "tracing_endpoint"%string) in
  let! reflection := one_flag (am_one m "grpc_reflection_service"%string) in
  let cfg := configuration_with st file rhost rport hhost hport
    (in_labels || env_option_is_enabled env "LIMIT_NAME_IN_PROMETHEUS_LABELS")
    labels_file labels_default endpoint headers reflection in
  let! v := one_int (am_one m "v"%string) in
  let! level := level_of_count v in
  let! structured := one_flag (am_one m "S"%string) in
  let! disabled := one_flag (am_one m "disable_reservations"%string) in
  let! fraction := one_float (am_one m "max_reservation_fraction"%string) in
  let! ttl := one_int (am_one m "max_reservation_ttl"%string) in
  StartWith (mkConfiguration (limits_file cfg) (storage cfg) (rls_host cfg) (rls_port cfg) (http_host cfg)
    (http_port cfg) (limit_name_in_labels cfg) (metric_labels_file cfg) (metric_labels_default cfg)
    (tracing_endpoint cfg) level structured (cfg_rate_limit_headers cfg) (grpc_reflection_service cfg)
    disabled fraction (from_secs ttl)).

Definition create_config (env : Env) (fs : Fs) (argv : Argv) : Startup Configuration :=
  match get_matches (cmdline env) argv with
  | inl code => ExitWith code
  | inr m => config_of_matches env fs m
  end.
End config.

(** ** The limiter *)

(** The [url] library, for the messages. *)
Class UrlLib : Type := {
  Url : Type;
  url_parse : string -> option Url;
  url_password : Url -> option string;
  url_set_password : Url -> string -> option Url;
  url_string : Url -> string
}.

Definition redacted_url `{UrlLib} (url : string) : string :=
  match url_parse url with
  | Some u => match url_password u with
              | Some _ => match url_set_password u "****" with Some owned => url_string owned | None => url end
              | None => url
              end
  | None => url
  end.

(** The storage a limiter is built on, and with what. *)
Inductive StoragePlan : Type :=
| PlanInMemory (cache_size : Z)
| PlanDisk (path : string) (optimization : OptimizeFor)
| PlanAsyncRedis (url : string)
| PlanCachedRedis (builder : CachedRedisStorageBuilder)
| PlanDistributed (name : string) (cache_size : Z) (listen_address : string) (peer_urls : list string).

(** The variants of [Limiter]. *)
Inductive LimiterPlan : Type :=
| Blocking (plan : StoragePlan) (limits : ReservationLimits)
| Async (plan : StoragePlan) (limits : ReservationLimits).

(** What of the machine decides: connections and databases open or fail with a message;
    [size_of::<Counter>()] and the free memory. *)
Record Machine : Type := mkMachine {
  redis_connects : string -> option string;
  disk_opens : string -> option string;
  size_of_counter : Z;
  available_memory : Z
}.

Definition guess_cache_size (w : Machine) : option Z :=
  let memory := f64_mul (u64_as_f64 (available_memory w)) (f64_of_decimal false 7 (-1)) in
  Some (f64_as_u64 (SFdiv 53 1024 memory (u64_as_f64 (size_of_counter w + 16)))).

Definition builder_of (url : string) (cache : RedisStorageCacheConfiguration) : CachedRedisStorageBuilder :=
  let b := builder_new url in
  let b := set_batch_size b (Z.to_nat (cfg_batch_size cache)) in
  let b := set_flushing_period b (from_millis (i64_as_u64 (cfg_flushing_period cache))) in
  let b := set_max_cached_counters b (cfg_max_counters cache) in
  set_response_timeout b (from_millis (cfg_response_timeout cache)).

(** The message on the way out is for the standard error. *)
Definition opened {A} (failure : option string) (plan : A) : Startup A :=
  match failure with None => StartWith plan | Some _ => ExitWith 1 end.

Definition storage_using_redis (w : Machine) (url : string) (cache : option RedisStorageCacheConfiguration) : Startup StoragePlan :=
  match cache with
  | Some cache => opened (redis_connects w url) (PlanCachedRedis (builder_of url cache))
  | None => opened (redis_connects w url) (PlanAsyncRedis url)
  end.

Definition cache_size_or_guess (w : Machine) (size : option Z) : Startup Z :=
  match (match size with Some n => Some n | None => guess_cache_size w end) with
  | Some n => StartWith n
  | None => PanicWith "unwrap"
  end.

Definition limiter_new `{CelEngine} (w : Machine) (config : Configuration) : Startup LimiterPlan :=
  let limits := mkReservationLimits (max_reservation_fraction config) (max_reservation_ttl config) in
  match storage config with
  | CfgRedis url cache =>
      let! plan := storage_using_redis w url cache in StartWith (Async plan limits)
  | CfgInMemory size =>
      let! n := cache_size_or_guess w size in StartWith (Blocking (PlanInMemory n) limits)
  | CfgDistributed name size addr urls =>
      let! n := cache_size_or_guess w size in StartWith (Blocking (PlanDistributed name n addr urls) limits)
  | CfgDisk path o =>
      let! plan := opened (disk_opens w path) (PlanDisk path o) in StartWith (Blocking plan limits)
  end.

(** ** The tracing subscriber *)

Definition level_rank (l : LevelFilter) : Z :=
  match l with LevelOff => 0 | LevelError => 1 | LevelWarn => 2 | LevelInfo => 3 | LevelDebug => 4 | LevelTrace => 5 end.

Definition level_max (a b : LevelFilter) : LevelFilter := if level_rank a <=? level_rank b then b else a.

(** The layers of the registry: how spans are formatted (with the close events or not),
    the exporter's endpoint and level, and whether the metrics layer is there. *)
Record Subscriber : Type := mkSubscriber {
  sub_level : LevelFilter;
  sub_json : bool;
  sub_close_events : bool;
  sub_telemetry : option (string * LevelFilter);
  sub_metrics : bool
}.

(** [level_hint]: the maximum level the [RUST_LOG] filter admits. *)
Definition configure_tracing_subscriber `{CelEngine} (level_hint : option LevelFilter) (config : Configuration) : Subscriber :=
  let level := match log_level config with Some l => l | None => default LevelError level_hint end in
  mkSubscriber level (structured_logs config)
    (if structured_logs config then false else level_rank LevelDebug <=? level_rank level)
    (if bool_decide (tracing_endpoint config = EmptyString) then None
     else Some (tracing_endpoint config, level_max level LevelInfo))
    (match storage config with CfgInMemory _ => false | _ => true end).

(** ** Properties *)

(** *** Parsed numbers *)

Lemma digit_of_bounds c d : digit_of c = Some d -> 0 <= d <= 9.
Proof. unfold digit_of. case_match; [|done]. intros [= <-]. lia. Qed.

Lemma parse_digits_nonneg s : forall acc v, 0 <= acc -> parse_digits s acc = Some v -> 0 <= v.
Proof.
  induction s as [|c s IH]; simpl; intros acc v Hacc; [by intros [= <-]|].
  destruct (digit_of c) as [d|] eqn:Hd; [|done]. apply digit_of_bounds in Hd. apply IH. lia.
Qed.

Lemma parse_unsigned_bounds max s v : parse_unsigned max s = Some v -> 0 <= v <= max.
Proof.
  unfold parse_unsigned. case_bool_decide; [done|].
  destruct (parse_digits _ 0) as [w|] eqn:Hp; [|done]. simpl.
  apply parse_digits_nonneg in Hp; [|lia]. destruct (w <=? max) eqn:Hw; [|done]. intros [= <-]. lia.
Qed.

Lemma parse_i64_bounds s v : parse_i64 s = Some v -> - (i64_max + 1) <= v <= i64_max.
Proof.
  assert (forall t v, parse_unsigned i64_max t = Some v -> - (i64_max + 1) <= v <= i64_max) as Hu.
  { intros t w Hw%parse_unsigned_bounds. unfold i64_max in *. lia. }
  destruct s as [|[[] [] [] [] [] [] [] []] s]; simpl; try apply Hu.
  case_bool_decide; [done|]. destruct (parse_digits _ 0) as [w|] eqn:Hp; [|done]. simpl.
  apply parse_digits_nonneg in Hp; [|lia]. destruct (w <=? i64_max + 1) eqn:Hw; [|done]. intros [= <-]. unfold i64_max in *. lia.
Qed.

(** *** What a declaration ensures of the matched value *)

Definition cache_ok (c : RedisStorageCacheConfiguration) : Prop :=
  0 <= cfg_batch_size c <= u64_max /\ - (i64_max + 1) <= cfg_flushing_period c <= i64_max /\
  0 <= cfg_max_counters c <= u64_max /\ 0 <= cfg_response_timeout c <= u64_max.

Definition size_ok (size : option Z) : Prop := forall n, size = Some n -> 0 <= n <= u64_max.

Definition storage_ok (st : StorageConfiguration) : Prop :=
  match st with
  | CfgInMemory size | CfgDistributed _ size _ _ => size_ok size
  | CfgDisk _ _ => True
  | CfgRedis _ cache => forall c, cache = Some c -> cache_ok c
  end.

Section spec.
Context {CE : CelEngine} {FI : Files} {CL : Clap} {CS : ClapSpec CL}.

(** The values are within their types, and the fraction within the unit interval. *)
Definition config_ok (cfg : Configuration) : Prop :=
  storage_ok (storage cfg) /\ 0 <= rls_port cfg <= 65535 /\ 0 <= http_port cfg <= 65535 /\
  fraction_ok (max_reservation_fraction cfg) = true /\ 0 <= max_reservation_ttl cfg <= from_secs u64_max.

Definition starts_ok {A} (P : A -> Prop) (bad : string -> Prop) (s : Startup A) : Prop :=
  match s with StartWith a => P a | ExitWith _ => True | PanicWith msg => bad msg end.

Lemma starts_bind {A B} (P : A -> Prop) (Q : B -> Prop) bad (m : Startup A) (k : A -> Startup B) :
  starts_ok P bad m -> (forall a, P a -> starts_ok Q bad (k a)) -> starts_ok Q bad (startup_bind m k).
Proof. destruct m; simpl; auto. Qed.

(** A value of the type, and in the range, of a parser. *)
Definition value_fits (p : Parser) (x : Value) : Prop :=
  match p, x with
  | PString, VString _ => True
  | PRanged lo hi, VInt z => lo <= z <= hi
  | PUnsigned max, VInt z => 0 <= z <= max
  | PI64, VInt z => - (i64_max + 1) <= z <= i64_max
  | PExpression, VExpr _ => True
  | PFraction, VFloat f => fraction_ok f = true
  | POneOf allowed, VString s => s ∈ allowed
  | _, _ => False
  end.

Lemma parse_value_fits p s x : parse_value p s = Some x -> value_fits p x.
Proof.
  destruct p; simpl.
  - by intros [= <-].
  - destruct (parse_i64 s); simpl; [|done]. case_match; [|done]. intros [= <-]. lia.
  - destruct (parse_unsigned max s) eqn:Hp; simpl; [|done]. intros [= <-]. by eapply parse_unsigned_bounds.
  - destruct (parse_i64 s) eqn:Hp; simpl; [|done]. intros [= <-]. by eapply parse_i64_bounds.
  - case_match; by intros [= <-].
  - destruct (parse_f64 s); simpl; [|done]. case_match; by intros [= <-].
  - case_bool_decide; by intros [= <-].
Qed.

Lemma matched_fits g a v :
  arg_matched g a v ->
  match arg_action a with
  | SetOne => (exists x, v = Some x /\ value_fits (arg_parser a) x) \/
              v = None /\ arg_required a = false /\ arg_default a = None
  | _ => arg_matched g a v
  end.
Proof.
  unfold arg_matched. destruct (arg_action a) eqn:Ha; [|done..]. destruct (g (arg_id a)) as [s|].
  - intros (x & Hx%parse_value_fits & ->). left. eauto.
  - destruct (arg_default a) as [s|]; [intros (x & Hx%parse_value_fits & ->); left; eauto|naive_solver].
Qed.

Lemma required_fits g env id var v :
  arg_matched g (required_arg env id var) v -> exists s, v = Some (VString s).
Proof.
  intros H%matched_fits. unfold required_arg in H.
  destruct (env var); simpl in H; destruct H as [(x & -> & F)|(? & ? & ?)]; try discriminate;
    destruct x; try contradiction; eauto.
Qed.

Lemma must_fits g id v : arg_matched g (mkArg id SetOne true None PString) v -> exists s, v = Some (VString s).
Proof.
  intros H%matched_fits. simpl in H. destruct H as [(x & -> & F)|(? & ? & ?)]; [|discriminate].
  destruct x; try contradiction; eauto.
Qed.

Lemma arg_id_required env id var : arg_id (required_arg env id var) = id.
Proof. unfold required_arg. by destruct (env var). Qed.

Lemma default_fits g id d p v : arg_matched g (default_arg id d p) v -> exists x, v = Some x /\ value_fits p x.
Proof. intros H%matched_fits. simpl in H. destruct H as [?|(_ & _ & [=])]; done. Qed.

Lemma optional_fits g id p v :
  arg_matched g (optional_arg id p) v -> v = None \/ exists x, v = Some x /\ value_fits p x.
Proof. intros H%matched_fits. simpl in H. naive_solver. Qed.

(** *** The configuration *)

Definition env_panics (env : Env) (m : ArgMatches) (msg : string) : Prop :=
  am_sub m = None /\ storage_config_from_env (E := Empty_set) env = Panic msg.

Lemma env_storage_ok env : starts_ok storage_ok (fun msg => storage_config_from_env (E := Empty_set) env = Panic msg)
    (of_outcome (storage_config_from_env env)).
Proof.
  unfold storage_config_from_env. repeat case_match; simpl; try done.
  destruct (parse_unsigned _ _) as [b|] eqn:Hb; simpl; [|done].
  destruct (parse_i64 _) as [f|] eqn:Hf; simpl; [|done].
  apply parse_unsigned_bounds in Hb. apply parse_i64_bounds in Hf. intros c [= <-].
  unfold cache_ok, DEFAULT_MAX_CACHED_COUNTERS, DEFAULT_RESPONSE_TIMEOUT_MS, u64_max in *; simpl. lia.
Qed.
(** Reads the value of the argument whose declaration is matched by [H]. *)
Ltac fits H :=
  let x := fresh "x" in
  first
    [ apply required_fits in H as [? ->]
    | apply must_fits in H as [? ->]
    | apply default_fits in H as (x & -> & H); destruct x; try contradiction H
    | apply optional_fits in H as [->|(x & -> & H)]; [|destruct x; try contradiction H]
    | destruct H as (x & -> & H)
    | destruct H as [->|[? ->]]
    | destruct H as [? ->] ];
  simpl.

Lemma storage_of_matches_ok env argv m :
  get_matches (cmdline env) argv = inr m ->
  starts_ok storage_ok (env_panics env m) (storage_of_matches env (am_sub m)).
Proof.
  intros [_ Hsub]%clap_matched. unfold env_panics. destruct (am_sub m) as [[name sub]|] eqn:Es; simpl.
  2: { pose proof (env_storage_ok env) as H. destruct (of_outcome _); simpl in *; auto. }
  destruct Hsub as (args & Hin & Hargs). simpl in Hin.
  rewrite !elem_of_cons, elem_of_nil in Hin.
  destruct_or! Hin; simplify_eq/=; try done; repeat (case_bool_decide; simplify_eq/=; try done).
  all: unfold memory_args, disk_args, redis_args, redis_cached_args, distributed_args in Hargs.
  all: rewrite ?Forall_cons in Hargs; destruct_and! Hargs; rewrite ?arg_id_required in *; simpl in *.
  all: repeat match goal with H : arg_matched _ _ (?f ?id) |- context [?f ?id] => fits H end.
  all: simpl in *; try done; try (intros c Ec; injection Ec as <-; unfold cache_ok; simpl; tauto).
  match goal with H : ?s ∈ _ |- _ => rewrite !elem_of_cons, elem_of_nil in H end.
  by destruct_or!; simplify_eq/=.
Qed.

Lemma headers_of_arg_ok bad s : s ∈ ["NONE"; "DRAFT_VERSION_03"]%string -> starts_ok (fun _ => True) bad (headers_of_arg s).
Proof. rewrite !elem_of_cons, elem_of_nil. intros H. by destruct_or!; simplify_eq/=. Qed.

Lemma level_of_count_ok bad n : 0 <= n < 5 -> starts_ok (fun _ => True) bad (level_of_count n).
Proof. intros H. unfold level_of_count. repeat (case_match; [done|]). lia. Qed.

Lemma create_config_starts_ok env fs argv :
  starts_ok config_ok
    (fun msg => exists m, get_matches (cmdline env) argv = inr m /\ am_sub m = None /\
       storage_config_from_env (E := Empty_set) env = Panic msg)
    (create_config env fs argv).
Proof.
  unfold create_config. destruct (get_matches _ argv) as [c|m] eqn:Hm; [done|].
  pose proof (storage_of_matches_ok env argv m Hm) as Hst.
  pose proof (clap_matched _ _ _ Hm) as [Hargs _]. unfold cmdline, main_args in Hargs. simpl in Hargs.
  rewrite ?Forall_cons in Hargs. destruct_and! Hargs. rewrite ?arg_id_required in *. simpl in *.
  unfold config_of_matches.
  repeat match goal with H : arg_matched _ _ (am_one m ?id) |- context [am_one m ?id] => fits H end.
  all: match goal with |- context [if ?b then ExitWith _ else _] => destruct b; [done|] end.
  all: eapply starts_bind; [|intros st Hs].
  all: try (destruct (storage_of_matches _ _); simpl in *; [exact Hst|done|destruct Hst; eauto]).
  all: eapply starts_bind; [by apply headers_of_arg_ok|intros h _].
  all: eapply starts_bind; [by apply level_of_count_ok|intros l _].
  all: simpl in *; unfold config_ok, from_secs, nanos_per_sec; simpl; repeat split; try tauto; lia.
Qed.

(** C31: what [create_config] promises, whatever the environment and the command line: the
    ports, sizes, periods and the reservation fraction of a configuration it returns are
    within their ranges, and none of its [unwrap]s and [unreachable!]s panics; the only
    panic is an environment variable of the cached storage that is not a number when no
    storage is named on the command line. *)
Theorem create_config_ok env fs argv :
  starts_ok config_ok
    (fun msg => exists m, get_matches (cmdline env) argv = inr m /\ am_sub m = None /\
       storage_config_from_env (E := Empty_set) env = Panic msg)
    (create_config env fs argv).
Proof. apply create_config_starts_ok. Qed.

(** Without a storage on the command line, an environment that enables the local cache
    builds the storage that [redis_cached] without arguments builds: the two readings of the
    variables agree. *)
Theorem env_agrees_with_cmdline env argv m sub url :
  get_matches (cmdline env) argv = inr m -> am_sub m = Some ("redis_cached"%string, sub) ->
  (forall id, given argv (Some "redis_cached"%string) id = None) ->
  env "REDIS_URL"%string = Some url -> env_option_is_enabled env "REDIS_LOCAL_CACHE_ENABLED" = true ->
  exists st, storage_of_matches env (am_sub m) = StartWith st /\ storage_of_matches env None = StartWith st.
Proof.
  intros [_ Hsub]%clap_matched Es Hg Hurl Hon. rewrite Es in Hsub |- *. destruct Hsub as (args & Hin & Hargs).
  simpl in Hin. rewrite !elem_of_cons, elem_of_nil in Hin. destruct_or! Hin; simplify_eq/=.
  unfold redis_cached_args, required_arg in Hargs. rewrite Hurl in Hargs.
  rewrite !Forall_cons in Hargs. destruct_and! Hargs.
  unfold arg_matched in *. simpl in *. rewrite Hg in *. simpl in *.
  unfold storage_config_from_env. rewrite Hurl, Hon.
  repeat match goal with H : exists x, _ |- _ => destruct H as (? & ? & ->) end.
  repeat match goal with H : VInt <$> ?o = Some _ |- _ => destruct o eqn:?; simplify_eq/= end.
  eexists. split; [reflexivity|].
  by repeat match goal with H : ?o = Some _ |- context [expect _ ?o] => rewrite H; simpl end.
Qed.
End spec.

(** A negative period is accepted, and is a period of more than 292 million years: the
    cache is then only flushed by full batches. *)
Lemma negative_flush_period url c :
  - (i64_max + 1) <= cfg_flushing_period c < 0 ->
  from_millis (2 ^ 63) <= b_flushing_period (builder_of url c).
Proof.
  unfold i64_max, builder_of, from_millis, i64_as_u64. simpl. intros H.
  rewrite <- (Z.mod_add _ 1) by lia. rewrite Z.mod_small; lia.
Qed.

(** ** A concrete [clap] *)

Section demo_clap.
Context {CE : CelEngine}.

Definition match_arg (g : string -> option string) (a : Arg) : option (option Value) :=
  match arg_action a with
  | SetOne =>
      match (match g (arg_id a) with Some s => Some s | None => arg_default a end) with
      | Some s => x ← parse_value (arg_parser a) s; Some (Some x)
      | None => if arg_required a then None else Some None
      end
  | SetTrue => Some (Some (VBool (bool_decide (is_Some (g (arg_id a))))))
  | Count bound =>
      match g (arg_id a) with
      | Some s => n ← parse_unsigned (bound - 1) s; Some (Some (VInt n))
      | None => if 0 <? bound then Some (Some (VInt 0)) else None
      end
  | Append => Some ((fun s => VMany [s]) <$> g (arg_id a))
  end.

Fixpoint match_args (g : string -> option string) (args : list Arg) : option (string -> option Value) :=
  match args with
  | [] => Some (fun _ => None)
  | a :: args =>
      v ← match_arg g a;
      f ← match_args g args;
      if bool_decide (arg_id a ∈ arg_id <$> args) then None
      else Some (fun id => if bool_decide (id = arg_id a) then v else f id)
  end.

Lemma match_arg_matched g a v : match_arg g a = Some v -> arg_matched g a v.
Proof.
  unfold match_arg, arg_matched. destruct (arg_action a).
  - case_match; [destruct (parse_value _ _); naive_solver|destruct (arg_required a); naive_solver].
  - intros [= <-]. eauto.
  - destruct (g _) as [s|].
    + destruct (parse_unsigned _ s) eqn:Hp; [|done]. apply parse_unsigned_bounds in Hp. intros [= <-].
      eexists. split; [done|lia].
    + destruct (0 <? bound) eqn:Hb; [|done]. intros [= <-]. eexists. split; [done|lia].
  - intros [= <-]. destruct (g _); simpl; eauto.
Qed.

Lemma match_args_matched g args : forall f,
  match_args g args = Some f -> Forall (fun a => arg_matched g a (f (arg_id a))) args.
Proof.
  induction args as [|a args IH]; simpl; intros f; [constructor|].
  destruct (match_arg g a) as [v|] eqn:Ha; [|done]. simpl.
  destruct (match_args g args) as [h|]; [|done]. simpl. case_bool_decide as Hin; [done|]. intros [= <-].
  apply match_arg_matched in Ha. specialize (IH h eq_refl). rewrite Forall_cons. split.
  - by rewrite bool_decide_true.
  - rewrite Forall_forall in IH |- *. intros b Hb. rewrite bool_decide_false; [auto|].
    intros Heq. apply Hin. rewrite <- Heq. by apply list_elem_of_fmap_2.
Qed.

(** A command line as what it gives: the subcommand, and the strings of the arguments. *)
Definition demo_clap : Clap := {|
  Argv := option string * (option string -> string -> option string);
  given := fun argv => snd argv;
  get_matches := fun cmd argv =>
    match match_args (snd argv None) (cmd_args cmd), fst argv with
    | None, _ => inl 2
    | Some f, None => inr (mkMatches f None)
    | Some f, Some name =>
        match list_find (fun p => p.1 = name) (subcommands cmd) with
        | Some (_, (name, args)) =>
            match match_args (snd argv (Some name)) args with
            | Some h => inr (mkMatches f (Some (name, h)))
            | None => inl 2
            end
        | None => inl 2
        end
    end
|}.

Lemma demo_clap_spec : ClapSpec demo_clap.
Proof.
  intros cmd [sub g] m. simpl. destruct (match_args (g None) _) as [f|] eqn:Hf; [|done].
  apply match_args_matched in Hf. destruct sub as [name|]; [|by intros [= <-]].
  destruct (list_find _ _) as [[i [n args]]|] eqn:Hfind; [|done].
  apply list_find_Some in Hfind as (Hi & _ & _). apply list_elem_of_lookup_2 in Hi.
  destruct (match_args (g (Some n)) args) as [h|] eqn:Hh; [|done].
  apply match_args_matched in Hh. intros [= <-]. simpl. eauto.
Qed.
End demo_clap.

#[local] Existing Instance demo_engine.
#[local] Existing Instance demo_files.
#[local] Existing Instance demo_clap.
#[local] Existing Instance demo_clap_spec.

Definition demo_env (batch : string) : Env :=
  fun name =>
    if bool_decide (name = "REDIS_URL"%string) then Some "redis://127.0.0.1"%string
    else if bool_decide (name = "REDIS_LOCAL_CACHE_ENABLED"%string) then Some "1"%string
    else if bool_decide (name = "REDIS_LOCAL_CACHE_BATCH_SIZE"%string) then Some batch
    else None.

(** [limitador-server limits.yaml], and the same with a subcommand. *)
Definition demo_argv (sub : option string) : Argv (Clap := demo_clap) :=
  (sub, fun sub id => if bool_decide (sub = None /\ id = "LIMITS_FILE"%string) then Some "limits.yaml"%string else None).

(** [limitador-server limits.yaml redis_cached --flush-period=-1] *)
Definition demo_negative : Argv (Clap := demo_clap) :=
  (Some "redis_cached"%string, fun sub id =>
     if bool_decide (id = "flush"%string) then Some "-1"%string else snd (demo_argv None) sub id).

Lemma demo_config :
  (let! cfg := create_config (demo_env "50") ∅ (demo_argv (Some "redis_cached"%string)) in
   StartWith (rlp_address cfg, storage cfg)) =
  StartWith ("0.0.0.0:8081"%string, CfgRedis "redis://127.0.0.1" (Some (mkCacheConfiguration 50 1000 10000 350))).
Proof. vm_refl. Qed.

Lemma create_config_ok_witness : exists cfg,
  create_config (demo_env "50") ∅ (demo_argv (Some "redis_cached"%string)) = StartWith cfg /\ config_ok cfg /\
  (rlp_address cfg, storage cfg) =
  ("0.0.0.0:8081"%string, CfgRedis "redis://127.0.0.1" (Some (mkCacheConfiguration 50 1000 10000 350))).
Proof.
  pose proof (create_config_ok (demo_env "50") ∅ (demo_argv (Some "redis_cached"%string))) as H.
  pose proof demo_config as E. destruct (create_config _ _ _) as [cfg| |]; [|discriminate E..].
  exists cfg. split; [reflexivity|]. split; [exact H|]. by injection E as -> ->.
Defined.

(** The variable that is no number: the one panic that is left. *)
Example env_batch_panics :
  create_config (demo_env "many") ∅ (demo_argv None) = PanicWith "Expected an usize".
Proof. vm_refl. Qed.

Lemma demo_subcommand :
  match get_matches (cmdline (demo_env "50")) (demo_argv (Some "redis_cached"%string)) with
  | inr m => fst <$> am_sub m
  | inl _ => None
  end = Some "redis_cached"%string.
Proof. vm_refl. Qed.

Lemma env_agrees_with_cmdline_witness :
  storage_of_matches (demo_env "50") None =
    StartWith (CfgRedis "redis://127.0.0.1" (Some (mkCacheConfiguration 50 1000 10000 350))) /\
  exists m, get_matches (cmdline (demo_env "50")) (demo_argv (Some "redis_cached"%string)) = inr m /\
    storage_of_matches (demo_env "50") (am_sub m) = storage_of_matches (demo_env "50") None.
Proof.
  split; [vm_refl|]. pose proof demo_subcommand as E. destruct (get_matches _ _) as [c|m] eqn:Hm; [discriminate|].
  exists m. split; [reflexivity|]. destruct (am_sub m) as [[name sub]|] eqn:Es; [|discriminate].
  simpl in E. injection E as ->.
  destruct (env_agrees_with_cmdline (demo_env "50") (demo_argv (Some "redis_cached"%string)) m sub "redis://127.0.0.1"
    Hm Es (fun _ => eq_refl) eq_refl eq_refl) as (st & H1 & H2).
  rewrite Es in H1. by rewrite H1, H2.
Defined.

Example negative_period_accepted :
  (let! cfg := create_config (demo_env "50") ∅ demo_negative in limiter_new (mkMachine (fun _ => None) (fun _ => None) 200 0) cfg) =
  StartWith (Async (PlanCachedRedis (mkBuilder "redis://127.0.0.1" 50 (from_millis (2 ^ 64 - 1)) 10000 (from_millis 350)))
    (mkReservationLimits f64_half (from_secs 60))).
Proof. vm_refl. Qed.

Example parse_f64_half : parse_f64 "0.5" = Some f64_half /\ parse_f64 "5e-1" = Some f64_half /\ parse_f64 "." = None.
Proof. by split_and!; vm_refl. Qed.
