(* ===== verification/ServerStart.v ===== *)
(** * Start-up: [main] of [limitador-server/src/main.rs]

    The steps of [main]: the configuration, the limiter, the limits and the labels from
    their files, what the watcher of those files starts with, and the two servers.  A step that fails ends the process.  The storages are opened by
    [open_counters], which stands for the constructor the plan names; [absolute] is
    [std::path::absolute]. *)

From S2P Require Import Prelude Cel Errors Limit Counter Reservation Storage AsyncStorage.
From S2P Require Import AsyncRateLimiter RateLimiter Configure EnvoyRls HttpApi PrometheusMetrics Server ServerSpec ServerConfig.
From S2P Require Import Moka InMemory InMemorySpec EnvoyRlsSpec Endpoints.

Section start.
Context {CE : CelEngine} {HO : HashOrder} {WI : Wire} {FI : Files} {CL : Clap}.
Context {St : Type} {CS : CounterStorage St}.
Variables (open_counters : StoragePlan -> St) (absolute : string -> string).
#[local] Existing Instance blocking_config.
Abbreviation Srv := (Server (L := RateLimiter St)).

Definition build_limiter (plan : LimiterPlan) : RateLimiter St :=
  match plan with
  | Blocking plan limits | Async plan limits =>
      builder_reservation_limits (builder_with_storage (with_counter_storage (open_counters plan))) limits
  end.

(** A computation of the limiter at start-up: an error is printed and ends the process. *)
Definition or_exit {S E A} (m : M S E A) (w : World S) : Startup (A * World S) :=
  match m w with
  | (Ok a, w') => StartWith (a, w')
  | (Err _, _) => ExitWith 1
  | (Panic msg, _) => PanicWith msg
  end.

Definition start_labels (fs : Fs) (labels_file : option string) (metrics : PrometheusMetrics) : Startup PrometheusMetrics :=
  match labels_file with
  | None => StartWith metrics
  | Some file =>
      match parse_custom_labels_file fs file with
      | inr labels => StartWith (set_custom_labels metrics labels)
      | inl _ => ExitWith 1
      end
  end.

(** [std::fs::canonicalize(..).unwrap()] *)
Definition canonical (fs : Fs) (path : string) : Startup string :=
  match canonicalize fs path with Some p => StartWith p | None => PanicWith "called `Result::unwrap()` on an `Err` value" end.

Definition canonical_opt (fs : Fs) (path : option string) : Startup (option string) :=
  match path with None => StartWith None | Some p => let! c := canonical fs p in StartWith (Some c) end.

(** The state when the servers start, with the paths that are watched. *)
Definition main (env : Env) (fs : Fs) (w : Machine) (clock : nat -> Z) (argv : Argv) : Startup (Configuration * World Srv * string * option string) :=
  let! config := create_config env fs argv in
  let metrics := PrometheusMetrics.new_with_options (limit_name_in_labels config) (metric_labels_default config) in
  let! plan := limiter_new w config in
  let! loaded := or_exit (load_limits_from_file fs (limits_file config)) (mkWorld (build_limiter plan) clock 0) in
  let! metrics := start_labels fs (metric_labels_file config) metrics in
  let limit_cfg := absolute (limits_file config) in
  let! canonical_cfg := canonical fs limit_cfg in
  let labels_cfg := absolute <$> metric_labels_file config in
  let! labels_canonical := canonical_opt fs labels_cfg in
  let! status := or_exit (E := Empty_set) status_default loaded.2 in
  StartWith (config, mkWorld (mkServer (w_state loaded.2) status.1 metrics canonical_cfg labels_canonical)
    (w_clock status.2) (w_tick status.2), limit_cfg, labels_cfg).

Context {IN : InfallibleLimits St} {CSp : ClapSpec CL}.

Lemma startup_bind_start {A B} (m : Startup A) (k : A -> Startup B) b :
  startup_bind m k = StartWith b -> exists a, m = StartWith a /\ k a = StartWith b.
Proof. destruct m; simpl; [eauto|done..]. Qed.

Lemma or_exit_start {S E A} (m : M S E A) w a w' : or_exit m w = StartWith (a, w') -> m w = (Ok a, w').
Proof. unfold or_exit. destruct (m w) as [[]]; intros; by simplify_eq/=. Qed.

Lemma load_start fs file plan clock u w' :
  or_exit (load_limits_from_file fs file) (mkWorld (build_limiter plan) clock 0) = StartWith (u, w') ->
  exists limits m, file_limits fs file = Some limits /\ refines (st_limits (rl_storage (w_state w'))) m /\
    forall k, is_Some (m !! k) <-> is_Some (first_with limits k).
Proof.
  intros H%or_exit_start. unfold load_limits_from_file, file_limits in *.
  destruct (fs_open fs file) as [|f]; [done|]. destruct (yaml_limits f) as [|limits]; [done|].
  destruct (configure_with_run limits (mkWorld (build_limiter plan) clock 0) ∅) as (w1 & m & R & Hm & Hk).
  { destruct plan; apply refines_empty. }
  simpl in H. unfold map_err in H. rewrite R in H. simplify_eq/=. exists limits, m. split_and!; [done|done|].
  intros k. rewrite Hk. unfold reconfigured. destruct (first_with limits k); [|done].
  rewrite lookup_empty. split; eauto.
Qed.

(** A server that starts serves its limits file: the file could be opened and parsed,
    the limits configured are exactly the file's, the configuration is well formed, and the watcher starts with
    the targets of both files and a status without loads or failures, which is what
    following the file from there asks for. *)
Theorem main_serves_file env fs w clock argv config world limit_cfg labels_cfg :
  main env fs w clock argv = StartWith (config, world, limit_cfg, labels_cfg) ->
  config_ok config /\
  (exists limits m, file_limits fs (limits_file config) = Some limits /\ srv_refines (w_state world) m /\
     forall k, is_Some (m !! k) <-> is_Some (first_with limits k)) /\
  limit_cfg = absolute (limits_file config) /\ canonicalize fs limit_cfg = Some (canonical_cfg (w_state world)) /\
  labels_known labels_cfg (w_state world) /\
  config_version (srv_status (w_state world)) = 0 /\ config_err_since (srv_status (w_state world)) = 0.
Proof.
  unfold main. intros (cfg & Hcfg & H)%startup_bind_start.
  apply startup_bind_start in H as (plan & Hplan & H).
  apply startup_bind_start in H as ([u wl] & Hload & H).
  apply startup_bind_start in H as (metrics & Hlab & H).
  apply startup_bind_start in H as (can & Hcan & H).
  apply startup_bind_start in H as (lcan & Hlcan & H).
  apply startup_bind_start in H as ([st ws] & Hst & H).
  apply or_exit_start in Hst. simpl in Hst. injection Hst as <- <-. simplify_eq/=.
  split_and!; [|by eapply load_start|done| | |done|done].
  - pose proof (create_config_starts_ok env fs argv) as Hok. by rewrite Hcfg in Hok.
  - unfold canonical in Hcan. by destruct (canonicalize _ _); simplify_eq/=.
  - unfold labels_known, canonical_opt in *. simpl. destruct (metric_labels_file config); simpl in *; [|by intros []].
    apply startup_bind_start in Hlcan as (? & _ & [= <-]). eauto.
Qed.
End start.

(** ** The servers *)

Section servers.
Context {CE : CelEngine} {HS : HttpStack}.

(** What runs at the end of [main]. *)
Record Running : Type := mkRunning { running_grpc : option GrpcServer }.

(** The gRPC server is spawned and what becomes of it is not looked at; the process ends
    when the HTTP server cannot bind its address. *)
Definition run_servers (config : Configuration) : Startup Running :=
  let spawned := run_envoy_rls_server (rlp_address config) (cfg_rate_limit_headers config)
                   (grpc_reflection_service config) (cfg_disable_reservations config) in
  let grpc := match spawned with
              | Ok srv => if can_bind (rlp_address config) then Some srv else None
              | _ => None
              end in
  if can_bind (http_address config) then StartWith (mkRunning grpc) else ExitWith 1.

(** A gRPC address that is no socket address, as with a host name, or that is in use does
    not end the process: it goes on with the HTTP server alone. *)
Lemma grpc_failure_unnoticed config :
  can_bind (http_address config) = true ->
  run_servers config = StartWith (mkRunning None) <->
  parse_addr (rlp_address config) = None \/ can_bind (rlp_address config) = false.
Proof.
  intros Hh. unfold run_servers, run_envoy_rls_server. rewrite Hh.
  destruct (parse_addr (rlp_address config)), (can_bind (rlp_address config)); split; try done; try auto. by intros [].
Qed.
End servers.

(** ** A server that starts *)

#[local] Existing Instance demo_engine.
#[local] Existing Instance demo_hash_order.
#[local] Existing Instance demo_wire.
#[local] Existing Instance demo_files.
#[local] Existing Instance demo_clap.
#[local] Existing Instance demo_clap_spec.
#[local] Existing Instance gmap_moka.

(** [limitador-server limits.yaml], with free memory for some 3000 counters *)
Definition demo_main :=
  main (CS := in_memory_counter_storage) (fun _ => in_memory_new 10) id (fun _ => None)
    ({["limits.yaml" := "ten"]}%string : Fs (Files := demo_files))
    (mkMachine (fun _ => None) (fun _ => None) 200 1000000) (fun _ => demo_time) (demo_argv None).

Lemma demo_main_starts :
  (let! r := demo_main in StartWith (limits_file r.1.1.1, r.1.2, r.2)) = StartWith ("limits.yaml", "limits.yaml", None)%string.
Proof. vm_refl. Qed.

Lemma main_serves_file_witness : exists (config : Configuration) (world : World (Server (L := RateLimiter InMemoryStorage))) (m : gmap LimitKey Limit),
  demo_main = StartWith (config, world, "limits.yaml"%string, None) /\ config_ok config /\
  srv_refines (w_state world) m /\ forall k, is_Some (m !! k) <-> is_Some (first_with [rls_limit] k).
Proof.
  pose proof demo_main_starts as E.
  destruct demo_main as [[[[config world] limit_cfg] labels_cfg]| |] eqn:R; [|discriminate E..].
  simpl in E. injection E as El -> ->.
  destruct (main_serves_file _ _ _ _ _ _ _ _ _ _ _ R) as (Hc & (limits & m & Hf & Hm & Hk) & _).
  rewrite El in Hf. injection Hf as <-. exists config, world, m. by split_and!.
Defined.
