(* ===== verification/ServerNode.v ===== *)
(** * The whole server as a state machine

    What a running server does, in any order and at any readings of the clock: it answers
    gRPC calls and HTTP requests, loads the limits and labels again when their files
    change, and its storage may drop entries on its own.  [node_step] is one such step,
    whatever its outcome; what the theorems about single calls ask of the limiter holds
    in every state that can be reached. *)

From S2P Require Import Prelude AtomicExpiringValue Cel Errors Limit Counter Reservation.
From S2P Require Import Storage Moka LocalReservations StorageSpec InMemory InMemoryInv InMemorySpec.
From S2P Require Import AsyncStorage AsyncRateLimiter RateLimiter RateLimiterSpec Configure EnvoyRls EnvoyRlsSpec HttpApi.
From S2P Require Import Endpoints EndpointsSpec PrometheusMetrics Server ServerSpec ServerConfig ServerStart.

Create HintDb keeps.

(** An operation, down to those with a hint. *)
Ltac keep := repeat first [solve [auto with keeps]|preserve_step].

(** ** What the limiter keeps *)

Section keeps.
Context {CE : CelEngine} {HO : HashOrder} {St : Type} {CS : CounterStorage St}.
Context (inv : St -> Prop) (Hinv : forall call, call_typed call -> preserves inv (run_call call)).

Definition st_wf (s : Storage St) : Prop := inv (st_counters s) /\ storage_wf (st_limits s).

Definition rl_wf (r : RateLimiter St) : Prop := st_wf (rl_storage r).

Lemma on_counters_keeps {E A} (m : M St E A) : preserves inv m -> preserves st_wf (on_counters m).
Proof. apply preserves_zoom; [by intros s []|by intros x s []]. Qed.

Lemma on_storage_keeps {E A} (m : M (Storage St) E A) : preserves st_wf m -> preserves rl_wf (on_storage m).
Proof. by apply preserves_zoom. Qed.

Lemma unwrap_keeps {E F A} (m : M (Storage St) E A) : preserves st_wf m -> preserves st_wf (unwrap (F := F) m).
Proof. intros Hm w Hw. specialize (Hm w Hw). unfold unwrap. by destruct (m w) as [[] w']. Qed.

(** The limits read are those of a well-formed state. *)
Lemma read_limits_keeps {E A} (k : gmap string LimitSet -> M (Storage St) E A) :
  (forall limits, storage_wf limits -> preserves st_wf (k limits)) -> preserves st_wf (bind get_storage_limits k).
Proof. intros Hk w Hw. apply Hk; [apply Hw|done]. Qed.

Lemma put_limits_keeps {E} limits : storage_wf limits -> preserves st_wf (put_storage_limits (E := E) limits).
Proof. intros Hl w [Hw _]. by split. Qed.

(** A call that returns something. *)
Lemma call_keeps {A} (m : M St StorageErr A) call :
  call_typed call -> (m ;;; ret tt) = run_call call -> preserves st_wf (on_counters m).
Proof. intros Ht Hm. apply on_counters_keeps, preserves_then. rewrite Hm. by apply Hinv. Qed.

Lemma add_limit_keeps {E} l : preserves st_wf (Storage.add_limit (E := E) l).
Proof.
  unfold Storage.add_limit. apply preserves_bind.
  { apply unwrap_keeps, on_counters_keeps, (Hinv (CallAdd l)). exact I. }
  intros _. apply read_limits_keeps. intros limits Hl.
  destruct (set_insert limit_key l _) as [ins s] eqn:Hs.
  apply preserves_bind; [|intros; apply preserves_ret]. apply put_limits_keeps.
  unfold set_insert in Hs. destruct (default ∅ (limits !! namespace l) !! limit_key l) as [old|] eqn:Ho; simplify_eq.
  - destruct (limits !! namespace l) as [s|] eqn:Hns; simpl in *; [by rewrite insert_id|by rewrite lookup_empty in Ho].
  - by apply storage_wf_file.
Qed.

Lemma update_limit_keeps {E} l : preserves st_wf (Storage.update_limit (E := E) l).
Proof.
  unfold Storage.update_limit. apply read_limits_keeps. intros limits Hl.
  destruct (limits !! namespace l) as [s|] eqn:Hns; [|apply preserves_ret].
  destruct (match s !! limit_key l with Some limit => _ | None => _ end); [|apply preserves_ret].
  rewrite set_insert_after_delete. apply preserves_bind; [|intros; apply preserves_ret].
  apply put_limits_keeps. pose proof (storage_wf_file limits l Hl) as Hf. by rewrite Hns in Hf.
Qed.

Lemma delete_limit_keeps l : preserves st_wf (Storage.delete_limit l).
Proof.
  unfold Storage.delete_limit. apply read_limits_keeps. intros limits0 _.
  apply preserves_bind; [apply on_counters_keeps, (Hinv (CallDelete _)); exact I|]. intros _.
  apply read_limits_keeps. intros limits Hl. destruct (limits !! namespace l) as [s|] eqn:Hns; [|apply preserves_ret].
  by apply put_limits_keeps, storage_wf_remove.
Qed.

Lemma get_limits_keeps {E} ns : preserves st_wf (Storage.get_limits (E := E) ns).
Proof. unfold Storage.get_limits. apply read_limits_keeps. intros limits _. apply preserves_ret. Qed.

Lemma get_counters_keeps ns : preserves st_wf (Storage.get_counters ns).
Proof.
  unfold Storage.get_counters. apply read_limits_keeps. intros limits _.
  destruct (limits !! ns) as [s|]; [|apply preserves_ret]. by apply (call_keeps _ (CallGetCounters s)).
Qed.

#[local] Hint Resolve preserves_ret preserves_lift preserves_throw preserves_get preserves_map_err on_storage_keeps
  add_limit_keeps update_limit_keeps delete_limit_keeps get_limits_keeps get_counters_keeps : keeps.

Lemma counters_that_apply_keeps ns ctx : preserves rl_wf (counters_that_apply ns ctx).
Proof. unfold counters_that_apply, RateLimiter.get_limits. keep. Qed.

Lemma update_each_keeps cs delta : in_u64 delta -> preserves rl_wf (update_each cs delta).
Proof.
  intros Hd. unfold update_each. apply preserves_for_each. intros c.
  apply preserves_map_err, on_storage_keeps, on_counters_keeps. by apply (Hinv (CallUpdate c delta)).
Qed.

#[local] Hint Resolve counters_that_apply_keeps update_each_keeps : keeps.

Lemma is_rate_limited_keeps ns ctx delta : preserves rl_wf (is_rate_limited ns ctx delta).
Proof.
  unfold is_rate_limited. apply preserves_bind; [keep|]. intros [|c cs]; [keep|].
  apply preserves_bind; [|intros []; keep].
  apply preserves_map_err, on_storage_keeps. by apply (call_keeps _ (CallCheck (c :: cs) delta)).
Qed.

Lemma check_and_update_keeps ns ctx delta : in_u64 delta -> preserves rl_wf (check_rate_limited_and_update ns ctx delta).
Proof.
  intros Hd. unfold check_rate_limited_and_update. apply preserves_bind; [keep|]. intros [|c cs]; [keep|].
  apply preserves_bind; [|intros []; keep].
  apply preserves_map_err, on_storage_keeps. by apply (call_keeps _ (CallCheckAndUpdate (c :: cs) delta)).
Qed.

Lemma update_counters_keeps ns ctx delta : in_u64 delta -> preserves rl_wf (update_counters ns ctx delta).
Proof. intros Hd. unfold update_counters. keep. Qed.

Lemma reserve_keeps uuid ns ctx amount ttl : preserves rl_wf (RateLimiter.reserve uuid ns ctx amount ttl).
Proof.
  unfold RateLimiter.reserve. apply preserves_bind; [keep|]. intros [|c cs]; [keep|].
  apply preserves_bind; [keep|]. intros r. apply preserves_bind; [|intros []; keep].
  apply preserves_map_err, on_storage_keeps. by eapply (call_keeps _ (CallReserve (c :: cs) _ _ _ _)).
Qed.

Lemma commit_keeps ns ctx id amount : in_u64 amount -> preserves rl_wf (commit_reservation ns ctx id amount).
Proof.
  intros Hd. unfold commit_reservation. apply preserves_bind; [keep|]. intros cs. apply preserves_bind; [keep|].
  intros _. apply preserves_bind; [|keep]. destruct id as [id|]; [|keep]. destruct cs as [|c cs]; [keep|].
  apply preserves_map_err, on_storage_keeps. by apply (call_keeps _ (CallRelease (c :: cs) id)).
Qed.

Lemma rl_get_counters_keeps ns : preserves rl_wf (RateLimiter.get_counters ns).
Proof. unfold RateLimiter.get_counters, from_storage_err. keep. Qed.

Lemma configure_keeps limits : preserves rl_wf (configure_with limits).
Proof.
  unfold configure_with, configure_namespace, RateLimiter.get_namespaces, RateLimiter.get_limits, RateLimiter.add_limit,
    RateLimiter.delete_limit, from_storage_err.
  apply preserves_bind; [apply on_storage_keeps, read_limits_keeps; intros; keep|]. intros nss. keep.
Qed.
End keeps.

(** ** What the servers and the watcher keep *)

Section node.
Context {CE : CelEngine} {HO : HashOrder} {WI : Wire} {FI : Files} {HS : HttpStack} {CL : Clap}.
Context {St : Type} {CS : CounterStorage St}.
Context (inv : St -> Prop) (Hinv : forall call, call_typed call -> preserves inv (run_call call)).
(** What the storage does on its own. *)
Context (background : St -> St -> Prop) (Hbackground : forall s s', background s s' -> inv s -> inv s').

#[local] Existing Instance blocking_ops.
#[local] Existing Instance blocking_read_ops.
#[local] Existing Instance blocking_config.
Abbreviation Srv := (Server (L := RateLimiter St)).
Abbreviation Proc := (Process (L := RateLimiter St)).

Definition svc_wf (s : Service (RateLimiter St)) : Prop := rl_wf inv (svc_limiter s).
Definition proc_wf (p : Proc) : Prop := svc_wf (rd_service (pr_data p)).
Definition srv_wf (s : Srv) : Prop := rl_wf inv (srv_limiter s).

Lemma on_limiter_keeps {E A} (m : M (RateLimiter St) E A) : preserves (rl_wf inv) m -> preserves svc_wf (on_limiter m).
Proof. by apply preserves_zoom. Qed.

Lemma metric_keeps {E} c : preserves svc_wf (metric (E := E) c).
Proof. by intros w Hw. Qed.

Lemma on_service_keeps {E A} (m : M (Service (RateLimiter St)) E A) : preserves svc_wf m -> preserves proc_wf (on_service m).
Proof. by apply preserves_zoom. Qed.

Lemma open_span_keeps {E} sp : preserves proc_wf (open_span (E := E) sp).
Proof. by intros w Hw. Qed.

Lemma on_srv_limiter_keeps {E A} (m : M (RateLimiter St) E A) : preserves (rl_wf inv) m -> preserves srv_wf (on_srv_limiter m).
Proof. by apply preserves_zoom. Qed.

Lemma on_srv_status_keeps {E A} (m : M ServerStatus E A) : preserves srv_wf (on_srv_status m).
Proof. intros w Hw. unfold on_srv_status, zoom. by destruct (m _). Qed.

(** The amounts of a request are of their machine types. *)
Definition grpc_typed (req : GrpcRequest) : Prop :=
  match req with
  | EnvoyShouldRateLimit req | KuadrantCheckRateLimit req | KuadrantReport req => 0 <= hits_addend req <= 4294967295
  | KuadrantReserve _ _ => True
  | KuadrantCommit req => in_u64 (actual_amount req)
  end.

Definition http_typed (req : HttpRequest) : Prop :=
  forall info, json_info (hq_body req) = Some info -> in_u64 (ci_delta info).

#[local] Hint Resolve preserves_ret preserves_lift preserves_throw preserves_get preserves_map_err preserves_attempt
  on_limiter_keeps metric_keeps on_service_keeps open_span_keeps on_srv_limiter_keeps on_srv_status_keeps : keeps.
(** The limiter behind the servers, operation by operation. *)
Lemma l_is_rate_limited_keeps ns ctx delta : preserves (rl_wf inv) (l_is_rate_limited ns ctx delta).
Proof. by apply is_rate_limited_keeps. Qed.

Lemma l_update_keeps ns ctx delta : in_u64 delta -> preserves (rl_wf inv) (l_update_counters ns ctx delta).
Proof. by apply update_counters_keeps. Qed.

Lemma l_check_and_update_keeps ns ctx delta :
  in_u64 delta -> preserves (rl_wf inv) (l_check_rate_limited_and_update ns ctx delta).
Proof. by apply check_and_update_keeps. Qed.

Lemma l_reserve_keeps uuid ns ctx amount ttl : preserves (rl_wf inv) (l_reserve uuid ns ctx amount ttl).
Proof. by apply reserve_keeps. Qed.

Lemma l_commit_keeps ns ctx id amount : in_u64 amount -> preserves (rl_wf inv) (l_commit_reservation ns ctx id amount).
Proof. by apply commit_keeps. Qed.

Lemma l_reads_keep ns : preserves (rl_wf inv) (l_get_limits ns) /\ preserves (rl_wf inv) (l_get_counters ns).
Proof. split; [apply on_storage_keeps, get_limits_keeps|by apply rl_get_counters_keeps]. Qed.

Lemma l_configure_keeps limits : preserves (rl_wf inv) (l_configure_with limits).
Proof. by apply configure_keeps. Qed.

#[local] Hint Resolve l_is_rate_limited_keeps l_update_keeps l_check_and_update_keeps l_reserve_keeps l_commit_keeps
  l_configure_keeps hits_addend_u64 : keeps.

Lemma grpc_service_keeps srv req : grpc_typed req -> preserves svc_wf (grpc_service srv req).
Proof.
  destruct req as [req|req|req|uuid req|req]; simpl; intros Ht; (apply preserves_bind; [|keep]);
    unfold should_rate_limit, check_rate_limit, EnvoyRls.report, svc_reserve, svc_commit; keep.
Qed.

Lemma grpc_call_keeps srv headers req : grpc_typed req -> preserves proc_wf (grpc_call srv headers req).
Proof. intros Ht. unfold grpc_call. apply preserves_bind; [keep|]. intros _. by apply on_service_keeps, grpc_service_keeps. Qed.

Lemma http_reads_keep ns : preserves svc_wf (HttpApi.get_limits ns) /\ preserves svc_wf (HttpApi.get_counters ns).
Proof. destruct (l_reads_keep ns). unfold HttpApi.get_limits, HttpApi.get_counters. split; keep. Qed.

Lemma check_and_report_keeps info : in_u64 (ci_delta info) -> preserves svc_wf (check_and_report info).
Proof. intros Ht. unfold check_and_report. keep. Qed.

Lemma http_check_keeps info : preserves svc_wf (HttpApi.check info).
Proof. unfold HttpApi.check. keep. Qed.

Lemma http_report_keeps info : in_u64 (ci_delta info) -> preserves svc_wf (HttpApi.report info).
Proof. intros Ht. unfold HttpApi.report. keep. Qed.

#[local] Hint Resolve check_and_report_keeps http_check_keeps http_report_keeps : keeps.

Lemma http_call_keeps req : http_typed req -> preserves proc_wf (http_call req).
Proof.
  intros Ht. unfold http_call. apply preserves_bind; [keep|]. intros _.
  destruct (find_route routes _ _) as [[ep seg]|]; [|keep]. unfold http_typed in Ht.
  destruct ep; simpl; destruct (json_info (hq_body req)) as [info|]; try specialize (Ht info eq_refl);
    destruct seg as [ns|]; try (destruct (http_reads_keep ns)); unfold reply_of; keep.
Qed.

Lemma load_limits_keeps fs file : preserves (rl_wf inv) (load_limits_from_file fs file).
Proof. unfold load_limits_from_file. keep. Qed.

#[local] Hint Resolve load_limits_keeps : keeps.

Lemma watch_keeps {E} limit_cfg labels_cfg evs : preserves srv_wf (watch (E := E) limit_cfg labels_cfg evs).
Proof.
  unfold watch, on_file_event, check_limits_file, check_labels_file, run_task, reload_limits, reload_labels.
  keep; by apply preserves_put.
Qed.

(** ** The steps of a server *)

(** All the state of a running server. *)
Record Node : Type := mkNode {
  nd_server : Srv;
  nd_metrics : list MetricCall;
  nd_spans : list Span
}.

Definition node_process (n : Node) : Proc :=
  mkProcess (mkRateLimitData (mkService (srv_limiter (nd_server n)) (nd_metrics n)) (srv_status (nd_server n))) (nd_spans n).

Definition with_limiter (s : Srv) (r : RateLimiter St) : Srv :=
  mkServer r (srv_status s) (srv_labels s) (canonical_cfg s) (labels_canonical_cfg s).

Definition set_process (n : Node) (p : Proc) : Node :=
  mkNode (with_limiter (nd_server n) (svc_limiter (rd_service (pr_data p)))) (svc_metrics (rd_service (pr_data p))) (pr_spans p).

Definition set_counters_of (s : Srv) (c : St) : Srv := with_limiter s (set_counters (srv_limiter s) c).

Inductive node_step (grpc : GrpcServer) (limit_cfg : string) (labels_cfg : option string) : Node -> Node -> Prop :=
| step_grpc n headers req clock tick :
    grpc_typed req ->
    node_step grpc limit_cfg labels_cfg n
      (set_process n (w_state (grpc_call grpc headers req (mkWorld (node_process n) clock tick)).2))
| step_http n req clock tick :
    http_typed req ->
    node_step grpc limit_cfg labels_cfg n
      (set_process n (w_state (http_call req (mkWorld (node_process n) clock tick)).2))
| step_file n fs event clock tick :
    node_step grpc limit_cfg labels_cfg n
      (mkNode (w_state (watch (E := Empty_set) limit_cfg labels_cfg [(fs, event)] (mkWorld (nd_server n) clock tick)).2)
         (nd_metrics n) (nd_spans n))
| step_background n c :
    background (rl_counters (srv_limiter (nd_server n))) c ->
    node_step grpc limit_cfg labels_cfg n (mkNode (set_counters_of (nd_server n) c) (nd_metrics n) (nd_spans n)).

Lemma node_step_wf grpc limit_cfg labels_cfg n n' :
  node_step grpc limit_cfg labels_cfg n n' -> srv_wf (nd_server n) -> srv_wf (nd_server n').
Proof.
  intros Hs Hwf. destruct Hs as [n headers req clock tick Ht|n req clock tick Ht|n fs event clock tick|n c Hc].
  - by apply (grpc_call_keeps grpc headers req Ht).
  - by apply (http_call_keeps req Ht).
  - by apply watch_keeps.
  - destruct Hwf as [Hi Hl]. split; [by eapply Hbackground|done].
Qed.

(** The server just started. *)
Lemma main_wf open_counters absolute env fs w clock argv config world limit_cfg labels_cfg :
  (forall plan, inv (open_counters plan)) ->
  main open_counters absolute env fs w clock argv = StartWith (config, world, limit_cfg, labels_cfg) ->
  srv_wf (w_state world).
Proof.
  intros Hopen. unfold main. intros (cfg & _ & H)%startup_bind_start.
  apply startup_bind_start in H as (plan & _ & H).
  apply startup_bind_start in H as ([u wl] & Hload & H).
  do 3 apply startup_bind_start in H as (? & _ & H).
  apply startup_bind_start in H as ([st ws] & _ & H). simplify_eq/=.
  apply or_exit_start in Hload. unfold srv_wf. simpl.
  pose proof (load_limits_keeps fs (limits_file config)) as Hk.
  specialize (Hk (mkWorld (build_limiter open_counters plan) clock 0)). rewrite Hload in Hk. apply Hk.
  destruct plan as [p limits|p limits]; split; simpl; first [apply Hopen|by intros ?? ?].
Qed.
End node.

(** ** Over the in-memory storage *)

Section in_memory.
Context {CE : CelEngine} {HO : HashOrder} {WI : Wire} {FI : Files} {HS : HttpStack} {CL : Clap}.
Context {MC : MokaCache} {ML : MokaLaws} {MR : MokaRoomy}.

(** The caches of the storage drop entries when they like. *)
Inductive im_evicts : InMemoryStorage -> InMemoryStorage -> Prop :=
| evicts_counter s cache :
    (forall k x loc, moka_get cache k = Some (x, loc) -> moka_get (qualified_counters s) k = Some (x, loc)) ->
    im_evicts s (mkInMemory (simple_limits s) cache (ims_heap s) (InMemory.reservations s))
| evicts_reservations s cache :
    (forall k x loc, moka_get cache k = Some (x, loc) -> moka_get (reg_cache (InMemory.reservations s)) k = Some (x, loc)) ->
    im_evicts s (mkInMemory (simple_limits s) (qualified_counters s) (ims_heap s)
                   (mkRegistry cache (reg_heap (InMemory.reservations s)))).

Lemma im_evicts_wf s s' : im_evicts s s' -> in_memory_wf s -> in_memory_wf s'.
Proof. intros Hs. apply im_step_wf. destruct Hs; by constructor. Qed.

(** C7: a running server stays in order.  Once it has started, whatever gRPC calls and HTTP
    requests arrive, in whatever order and at whatever readings of the clock, however
    often the files change, whatever they hold and whether or not they can be read,
    and whenever the caches drop entries, the limits and the counters of its limiter
    are well formed, which is all that the theorems about single requests ask of it;
    a call that fails or panics half-way is no exception. *)
Theorem server_stays_well_formed size absolute env fs w clock argv config world limit_cfg labels_cfg grpc n :
  main (fun _ => in_memory_new size) absolute env fs w clock argv = StartWith (config, world, limit_cfg, labels_cfg) ->
  rtc (node_step im_evicts grpc limit_cfg labels_cfg) (mkNode (w_state world) [] []) n ->
  rl_inv (SP := in_memory_spec) (srv_limiter (nd_server n)).
Proof.
  intros Hmain Hr.
  assert (Hwf : srv_wf in_memory_wf (w_state world)).
  { eapply (main_wf in_memory_wf run_call_wf); [|exact Hmain]. intros plan. apply in_memory_new_wf. }
  assert (Hgen : forall a b, rtc (node_step im_evicts grpc limit_cfg labels_cfg) a b ->
            srv_wf in_memory_wf (nd_server a) -> srv_wf in_memory_wf (nd_server b)).
  { intros a b Hab. induction Hab as [x|x y z Hstep _ IH]; [done|]. intros Hx. apply IH.
    by eapply (node_step_wf in_memory_wf run_call_wf im_evicts im_evicts_wf). }
  exact (Hgen _ _ Hr Hwf).
Qed.
End in_memory.

#[local] Existing Instance demo_engine.
#[local] Existing Instance demo_hash_order.
#[local] Existing Instance demo_wire.
#[local] Existing Instance demo_files.
#[local] Existing Instance demo_http.
#[local] Existing Instance demo_clap.
#[local] Existing Instance gmap_moka.
#[local] Existing Instance gmap_moka_laws.
#[local] Existing Instance gmap_moka_roomy.

(** A call of Envoy just after the start. *)
Definition demo_node (s : Server (L := RateLimiter InMemoryStorage)) : Node :=
  let n := mkNode s [] [] in
  set_process n (w_state (grpc_call (LO := blocking_ops) demo_grpc demo_headers (EnvoyShouldRateLimit (rls_request 3))
    (mkWorld (node_process n) (fun _ => demo_time) 0)).2).

Lemma server_stays_well_formed_witness :
  exists config (world : World (Server (L := RateLimiter InMemoryStorage))),
  demo_main = StartWith (config, world, "limits.yaml"%string, None) /\
  rl_inv (SP := in_memory_spec) (srv_limiter (nd_server (demo_node (w_state world)))).
Proof.
  pose proof demo_main_starts as E.
  destruct demo_main as [[[[config world] limit_cfg] labels_cfg]| |] eqn:R; [|discriminate E..].
  simpl in E. injection E as El -> ->. exists config, world. split; [done|].
  eapply (server_stays_well_formed 10); [exact R|]. apply rtc_once, step_grpc. vm_compute. split; discriminate.
Defined.
